(* ===== verification/_CoqProject ===== *)
-Q . S2P
Prelude.v
Bytes.v
Keys.v
Meta.v
Decimal.v
Offset.v
Producer.v
ContigWatermark.v
Storage.v
Loads.v
Batch.v
Mime.v
Read.v
Json.v
LiveCache.v
Streamer.v
StreamSpec.v
StreamerRefine.v
StreamLife.v
Committer.v
Registry.v
State.v
Server.v
Expiry.v
Deleter.v
Fork.v
Public.v
Catalog.v
Lifecycle.v
ForkSpec.v
PublicSpec.v
Wal.v
Pwal.v
PwalSpec.v
Http.v
HttpSpec.v
Sse.v
Live.v
LiveSpec.v
StateTail.v
Admin.v
AdminSpec.v
System.v
Worker.v
WorkerSpec.v
WorkerLog.v
Embed.v
Writer.v
Chunks.v
Slate.v
Metrics.v
Adapter.v
AdapterSpec.v
HttpApi.v
