(* ===== verification/Prelude.v ===== *)
(** * yasdb: a verification development

    yasdb serves durable, append-only streams over HTTP and as a Go library, on top
    of a key-value store. This library models the program under [src/] and proves
    what its parts promise each other and what the whole promises its users. It is
    the root file: what follows here documents all of it.

    ** How the program is put together

    A stream is a path with a log of records. Its state lives in one flat keyspace
    of a storage engine (SlateDB, or the repository's own sharded write-ahead-log
    store); a streamer per resident stream validates appends in bursts, commits each
    burst as one atomic batch and publishes it to readers; a server creates, forks,
    deletes and expires streams and keeps the registry of streamers; HTTP handlers,
    an in-process API, a Maelstrom adapter and metrics stand on top. The model
    follows this: storage is a type class with laws, everything above is a function
    or a step relation on a store and the memory beside it, and each level's theorems
    are proved from those of the level below.

    ** Files

    Foundations. Prelude.v (bytes, fixed-width integers, results), Bytes.v
    (encoding/binary, byte order), Decimal.v (strconv, strict header integers of
    handlers.go), Mime.v (mime.ParseMediaType; server.go), Json.v (the scanner of
    encoding/json; json.go), Batch.v (write batches by key family).

    Data, under internal/ds. Keys.v (keys.go), Meta.v (meta.go), Offset.v
    (offset.go), Producer.v (producer.go), ContigWatermark.v (contigwatermark.go).

    Storage. Storage.v: the interface of storage.go as the class [Storage], what the
    program relies on as [StorageLaws], and two instances in memory. Loads.v: typed
    reads. Slate.v: the SlateDB backend over its binding. Wal.v, Pwal.v, PwalSpec.v:
    pwalstore.go, with every critical section of its callers and flushers a step.

    One stream. Streamer.v (streamer.go, the synchronous committer of commit.go),
    StreamSpec.v (what one append promises), StreamerRefine.v (the streamer
    implements it), StreamLife.v (its bursts and respawns over a stream's life),
    Committer.v (the shared committer and durability.go, as a step relation over
    goroutines and an engine that moves by itself), Read.v (readRange of read.go, fork chains),
    LiveCache.v (livecache.go), Worker.v, WorkerSpec.v and WorkerLog.v (the goroutine
    of a streamer and its queue, lock and timer in streamer.go, submitAppend of
    server.go and the deletion of expiry.go against it, as interleaved steps of
    one path), Live.v and LiveSpec.v (long polls, event streams,
    cursors and livewaker.go against the writer, one atomic access a step), Sse.v
    (frames of read.go, cursor.go).

    The server. Server.v (server.go, creation in handlers.go), Registry.v
    (registry.go), Expiry.v (expiry.go, deletion in handlers.go), Deleter.v
    (deleter.go), Fork.v (fork.go), Catalog.v (the invariant: a catalogue of streams
    stands for the store), Lifecycle.v and ForkSpec.v (every operation against the
    catalogue), Admin.v and AdminSpec.v (admin.go, bulkprovision.go), System.v (all
    operations in any order, with restarts).

    Surfaces. Public.v and PublicSpec.v (public.go), StateTail.v (StateCursor),
    State.v (internal/state), Http.v and HttpSpec.v (handlers.go, read.go), Metrics.v
    (metrics.go); of the package yasdb: Embed.v (stream.go), Writer.v (writer.go),
    Chunks.v (channel.go), HttpApi.v (db.go and httpapi); Adapter.v and AdapterSpec.v
    (cmd/maelstrom-adapter).

    Definitions keep the source's names. A pointer that is shared (a streamer, the
    state readers and writer share) is state that is passed along, a goroutine is a
    program counter, a lock's critical section is one step, an early return is the
    left side of a sum, a Go panic is an error value the theorems exclude. A clock or
    a random number is an argument.

    ** What the theorems show

    Appends. [processBurst_refines]: group commit is invisible, in effects and
    replies; [appends_linearizable]: so it is to concurrent requests, across
    retirements and respawns; [requests_answered_once], [requests_drain]: each is
    answered, once; [append_exactly_once], [append_only], [append_then_read]: what
    that means to a client, over any bursts and respawns.
    [shared_commit_answers_once], [shared_commit_acks_durable_in_order]: the
    pipelined committer acknowledges everything once, in order, and only what the
    engine has reported durable under the number it gave it.

    Reads. [readRange_binary_correct], [readRange_json_correct]: exactly the content
    of the range, along fork chains; [livecache_read_equals_store]: also from the
    cache. [live_delivers_exactly], [live_no_lost_wakeup]: live readers get all of it
    and are woken. [sse_stream_exact]: exactly which event streams parse back to what
    was sent. [json_messages_roundtrip]: what a JSON body becomes in the store and
    for a reader.

    Streams. [createStream_correct], [createFork_correct], [deleteStream_correct],
    [sweepOnce_correct], [deletion_resumes], [restart_recovers] refine operations on
    the catalogue; [system_preserves] is the invariant of all of them in any order,
    with background deletions interleaved and the process restarted.
    [listing_complete] and [bulk_provision_correct] are the administration.

    Storage. [slate_implements_storage]; [pwal_is_a_store], [pwal_crash_recovers]:
    the sharded store under concurrent callers, in its first lifetime, from an empty
    directory until it is opened again; [wal_replay_exact]; [keys_never_collide],
    [meta_roundtrip] and the other codecs.

    Surfaces. [handlePost_correct], [etag_honest], [snapshot_correct],
    [metrics_exposition] for HTTP; [cursor_drains], [state_cursor_replays],
    [chunks_resume], [writer_flush_durable], [writer_bounded_live] for the library;
    [adapter_log_consistent] from the HTTP client to the store.

    ** Bounds and fuel

    Integers have the width of the source: [u64], [i64] and [u32] are written where
    it wraps, and theorems that need room say so (tails below 2^63, offsets of ten
    to the sixteenth, clocks and identifiers in their types). Recursion that is not
    structural has fuel, and a theorem that the fuel given is enough: the length of
    the input for the parsers (Json.v, Mime.v, Wal.v), the stream's identifier for a
    walk up a fork chain, since sources are older ([chain_fuel], [cascade_fuel]),
    what is left to read for the loops of readers, two flusher rounds for a durable
    commit ([pwal_commit_returns]). The theorems on the sharded store keep its
    counters and files below 2^62 ([in_bounds]). [requests_drain] has no fuel: a measure bounds every run. [outOfFuel]
    never appears in the conclusion of a theorem about what the code does, but for
    the one commit that does not return.

    ** What is not in the model

    Parameters, with their documented behaviour as named hypotheses: the SlateDB
    binding (Slate.v), github.com/google/btree (Pwal.v), encoding/json where it maps
    to Go structs, RFC 3339 times, the printing of floats, the network. Files are
    data, a synced length and the space left. [slatedb_laws] takes it from the
    binding that adding a Put or a Delete to a batch does not fail; only its commit
    does. [wal_replay_exact] holds for the checksum as it is computed and says
    nothing about its values on other input.

    Left out: main.go and benchmark/loadshape (flags, signals, load generation), the
    start of the native store, the supervision of a child process, logging. Memory
    layout (padding against false sharing) and buffer reuse have no effect on values.
    Goroutine scheduling is any interleaving of the steps; data races inside a step
    are not modelled. System.v takes a burst, a deletion and the refresh of a deadline
    for a read each as one step; Worker.v is what they are inside, and shows where a
    deletion does not behave as one. Both are about the synchronous committer; the
    shared one is a system of its own (Committer.v). Live readers are modelled
    against one streamer, not against the registry; [live_no_lost_wakeup] is about the
    tail that this streamer publishes. A channel of chunks stays with one stream
    (Chunks.v): a deletion and a new creation at its path between its catch-up and its
    tail are not represented. An append of a [Writer] waits for the server as long as
    the server likes and is then one step (Writer.v). The Close of the sharded store
    is not modelled; a clean stop is one that leaves the files whole.

    ** Where the code does not do what it says

    Each is a theorem. [delete_race_resurrects] (expiry.go), [retire_deadlock]
    (streamer.go, server.go), [failed_async_commit_loses_append] (commit.go),
    [offset_token_wraps] (offset.go), [live_closed_too_early],
    [long_poll_timeout_skips], [live_cursor_stranded] (read.go, public.go),
    [tail_reopens_soft_deleted] (public.go), [fork_sub_offset_wraps] (fork.go),
    [pwal_restart_resurrects], [pwal_restart_blocks], [pwal_torn_tail_loses],
    [pwal_overlap_inverts] (pwalstore.go), the due streams with forks of
    [sweepOnce_correct] (expiry.go, fork.go), [sse_leading_space_lost] (read.go), the end of the range in
    [cursor_advances] (cursor.go).

    ** What could come next

    The shared committer behind the goroutine of Worker.v, so that [system_preserves]
    and [appends_linearizable] cover notifier mode; the live loops on the server's
    registry rather than on one streamer; several adapters on one server. *)

From Stdlib Require Export ZArith Lia List.
From Stdlib Require Export Strings.Byte.
From stdpp Require Export base numbers option list gmap sorting.

Export ListNotations.
#[global] Open Scope Z_scope.

(** ** Bytes *)

(** Go's [[]byte] and [string] are both byte sequences. *)
Abbreviation bytes := (list byte).

#[global] Instance byte_eq_decision : EqDecision byte := Byte.byte_eq_dec.
#[global] Instance byte_countable : Countable byte :=
  inj_countable Byte.to_N Byte.of_N Byte.of_to_N.
#[global] Instance byte_inhabited : Inhabited byte := populate x00.

(** The numeric value of a Go [byte], and the conversion [byte(z)]. *)
Definition byte_to_Z (b : byte) : Z := Z.of_N (Byte.to_N b).
Definition byte_of_Z (z : Z) : byte := default x00 (Byte.of_N (Z.to_N (z mod 256))).

(** Go's [len]. *)
Abbreviation len l := (Z.of_nat (length l)).

(** ** Fixed-width integers *)

(** [uint64(z)] and [int64(z)]: the value modulo 2^64, unsigned and signed. *)
Definition u64 (z : Z) : Z := z mod 2^64.
Definition i64 (z : Z) : Z := (z + 2^63) mod 2^64 - 2^63.
Definition u32 (z : Z) : Z := z mod 2^32.
Definition i32 (z : Z) : Z := (z + 2^31) mod 2^32 - 2^31.

Definition is_u64 (z : Z) : Prop := 0 ≤ z < 2^64.
Definition is_i64 (z : Z) : Prop := - 2^63 ≤ z < 2^63.
Definition is_i32 (z : Z) : Prop := - 2^31 ≤ z < 2^31.

(** ** Errors and results *)

(** The sentinel errors of the program, the errors of the storage engine
    ([errStorage], opaque to the program), a context's ([errCanceled]), and values the
    program never sees: the run-time panics (an out-of-range slice or index, a nil
    pointer), and [outOfFuel], the exhaustion of a recursion bound of the model, which
    the termination theorems exclude. *)
Inductive error : Type :=
| errBadOffset | errBadMeta | errStoreClosed
| errInvalidJSON | errEmptyArray
| ErrNotFound | ErrGone | ErrConflict | ErrStreamClosed | ErrBadRequest
| ErrNotStateProtocolStream | ErrChunksOverrun | errCanceled | errInternal | errAppendFailed (status : Z)
| errStorage (code : Z) | errIO
| panicSlice | panicIndex | panicNil
| outOfFuel.

#[global] Instance error_eq_decision : EqDecision error.
Proof. solve_decision. Defined.

(** A Go [(value, error)] pair where the value is meaningful only when the
    error is nil. *)
Inductive result (A : Type) : Type :=
| Ok (a : A)
| Err (e : error).
Arguments Ok {A} a.
Arguments Err {A} e.

#[global] Instance result_ret : MRet result := λ A a, Ok a.
#[global] Instance result_bind : MBind result := λ A B f r,
  match r with Ok a => f a | Err e => Err e end.

#[global] Instance result_eq_decision {A} `{EqDecision A} : EqDecision (result A).
Proof. solve_decision. Defined.

(** The slice expression [b[lo:hi]], which panics out of range. *)
Definition go_slice (b : bytes) (lo hi : nat) : result bytes :=
  if decide (lo ≤ hi ∧ hi ≤ length b)%nat
  then Ok (take (hi - lo) (drop lo b)) else Err panicSlice.

(** ** Lemmas: bytes *)

Lemma byte_to_Z_range b : 0 ≤ byte_to_Z b < 256.
Proof. unfold byte_to_Z. pose proof (Byte.to_N_bounded b). lia. Qed.

Lemma byte_of_to_Z b : byte_of_Z (byte_to_Z b) = b.
Proof.
  unfold byte_of_Z, byte_to_Z. pose proof (Byte.to_N_bounded b).
  rewrite Z.mod_small by lia. rewrite N2Z.id, Byte.of_to_N. done.
Qed.

Lemma byte_to_of_Z z : byte_to_Z (byte_of_Z z) = z mod 256.
Proof.
  unfold byte_of_Z, byte_to_Z.
  pose proof (Z.mod_pos_bound z 256 ltac:(lia)).
  destruct (Byte.of_N (Z.to_N (z mod 256))) as [b|] eqn:E; simpl.
  - apply Byte.to_of_N in E. lia.
  - apply Byte.of_N_None_iff in E. lia.
Qed.

#[global] Instance byte_to_Z_inj : Inj (=) (=) byte_to_Z.
Proof. intros a b H. rewrite <-(byte_of_to_Z a), <-(byte_of_to_Z b). congruence. Qed.

Lemma byte_of_Z_small_inj a b :
  0 ≤ a < 256 → 0 ≤ b < 256 → byte_of_Z a = byte_of_Z b → a = b.
Proof.
  intros Ha Hb H. apply (f_equal byte_to_Z) in H.
  rewrite !byte_to_of_Z, !Z.mod_small in H; lia.
Qed.

(** ** Lemmas: fixed-width integers *)

Lemma u64_range z : is_u64 (u64 z).
Proof. unfold is_u64, u64. apply Z.mod_pos_bound. lia. Qed.
Lemma u64_small z : is_u64 z → u64 z = z.
Proof. intros. apply Z.mod_small. done. Qed.
Lemma u64_u64 z : u64 (u64 z) = u64 z.
Proof. apply u64_small, u64_range. Qed.
Lemma i64_range z : is_i64 (i64 z).
Proof. unfold is_i64, i64. pose proof (Z.mod_pos_bound (z + 2^63) (2^64)). lia. Qed.
Lemma i64_small z : is_i64 z → i64 z = z.
Proof. unfold is_i64, i64. intros. rewrite Z.mod_small; lia. Qed.

Lemma i32_small z : is_i32 z → i32 z = z.
Proof. unfold is_i32, i32. intros. rewrite Z.mod_small; lia. Qed.

(** [int64(uint64(z))] is the identity on [int64]: the conversions used to
    store signed times as unsigned big-endian words lose nothing. *)
Lemma i64_u64 z : is_i64 z → i64 (u64 z) = z.
Proof.
  intros Hz. unfold i64, u64. rewrite Zplus_mod_idemp_l.
  fold (i64 z). by apply i64_small.
Qed.

(** ** Lemmas: results and slices *)

Lemma result_bind_Ok {A B} (r : result A) (f : A → result B) b :
  r ≫= f = Ok b ↔ ∃ a, r = Ok a ∧ f a = Ok b.
Proof. destruct r; simpl; naive_solver. Qed.

Lemma go_slice_Ok b lo hi s :
  go_slice b lo hi = Ok s ↔
  (lo ≤ hi ≤ length b)%nat ∧ s = take (hi - lo) (drop lo b).
Proof. unfold go_slice. case_decide; naive_solver. Qed.

Lemma go_slice_in_range b lo hi :
  (lo ≤ hi ≤ length b)%nat → go_slice b lo hi = Ok (take (hi - lo) (drop lo b)).
Proof. intros. apply go_slice_Ok. done. Qed.

(** ** Lemmas: lists *)

Lemma take_app_length_eq {A} (l k : list A) n :
  n = length l → take n (l ++ k) = l.
Proof. intros ->. apply take_app_length. Qed.

Lemma drop_app_length_eq {A} (l k : list A) n :
  n = length l → drop n (l ++ k) = k.
Proof. intros ->. apply drop_app_length. Qed.

(** Two appends with equally long heads are equal exactly when their parts are. *)
Lemma app_eq_split {A} (a1 a2 b1 b2 : list A) :
  length a1 = length a2 → a1 ++ b1 = a2 ++ b2 ↔ a1 = a2 ∧ b1 = b2.
Proof.
  intros Hl. split; [|by intros [-> ->]].
  intros H. apply app_inj_1; done.
Qed.

(** ** Sums *)

Lemma sum_insert {A} (f : A → nat) l i x y :
  l !! i = Some x → (sum_list_with f (<[i:=y]> l) + f x = sum_list_with f l + f y)%nat.
Proof.
  revert i. induction l as [|z l IH]; intros [|i] Hi; simplify_eq/=; [lia|]. specialize (IH i Hi). lia.
Qed.

Lemma sum_pos {A} (f : A → nat) l : (0 < sum_list_with f l)%nat → ∃ i x, l !! i = Some x ∧ (0 < f x)%nat.
Proof.
  induction l as [|x l IH]; simpl; [lia|]. intros Hs. destruct (decide (0 < f x)%nat) as [Hx|Hx].
  - by exists 0%nat, x.
  - destruct IH as (i & y & ? & ?); [lia|]. by exists (Datatypes.S i), y.
Qed.

Lemma sum_le {A} (f g : A → nat) k l :
  (∀ x, f x ≤ g x + k)%nat → (sum_list_with f l ≤ sum_list_with g l + k * length l)%nat.
Proof. intros Hle. induction l as [|x l IH]; simpl; [lia|]. specialize (Hle x). lia. Qed.

(** ** Automation *)

Create HintDb yasdb discriminated.
Create Rewrite HintDb yasdb_len.
#[export] Hint Resolve u64_range i64_range byte_to_Z_range : yasdb.
#[export] Hint Rewrite @length_app @length_take @length_drop @length_fmap
  @length_cons @length_nil : yasdb_len.

(** Reason about lengths: normalise the [length]s, then [lia]. *)
Ltac len_lia := autorewrite with yasdb_len in *; simpl in *; lia.

(** Destruct the [match] and [if] scrutinees of a hypothesis and discard the
    impossible branches. *)
Ltac case_hyp H :=
  repeat (match type of H with
          | context [match ?x with _ => _ end] => destruct x eqn:?; try discriminate H
          end; simplify_eq/=).

(** Run the binds of the [result] monad on computed results. *)
Ltac run_result :=
  change (@mret result result_ret) with (@Ok) in |- *;
  cbn [mbind result_bind option_bind].
Tactic Notation "run_result" "in" hyp(H) :=
  change (@mret result result_ret) with (@Ok) in H;
  cbn [mbind result_bind option_bind] in H.

(** Invert an equation between computed results. *)
Ltac ok_inv H := run_result in H; simplify_eq/=.

(** Check a property of the entries of a literal list. *)
Ltac forall_list := rewrite ?Forall_cons, ?Forall_nil; simpl; split_and?; done.

(** ** Lemmas: counting *)

(** How many elements satisfy [f]. *)
Definition count_if {A} (f : A → bool) (l : list A) : nat := length (base.filter f l).

Lemma count_if_cons {A} (f : A → bool) x l : count_if f (x :: l) = (Nat.b2n (f x) + count_if f l)%nat.
Proof. unfold count_if. rewrite filter_cons. by destruct (f x). Qed.

Lemma count_if_app {A} (f : A → bool) l k : count_if f (l ++ k) = (count_if f l + count_if f k)%nat.
Proof. unfold count_if. by rewrite filter_app, length_app. Qed.

Lemma count_if_insert {A} (f : A → bool) l i x y :
  l !! i = Some x → (count_if f (<[i:=y]> l) + Nat.b2n (f x) = count_if f l + Nat.b2n (f y))%nat.
Proof.
  revert i. induction l as [|z l IH]; intros [|i] Hi; simplify_eq/=; rewrite !count_if_cons; [lia|].
  specialize (IH i Hi). lia.
Qed.

Lemma count_if_0 {A} (f : A → bool) l : count_if f l = 0%nat ↔ ∀ i x, l !! i = Some x → f x = false.
Proof.
  induction l as [|z l IH]; [split; [by intros _ [|]|done]|]. rewrite count_if_cons. split.
  - intros Hc [|i] x Hx; simplify_eq/=; [destruct (f x); simpl in Hc; [lia|done]|].
    apply (proj1 IH ltac:(lia) i x Hx).
  - intros Hall. rewrite (Hall 0%nat z eq_refl). simpl. apply IH. intros i x. apply (Hall (Datatypes.S i)).
Qed.
