(* ===== verification/Bytes.v ===== *)
(** * Byte strings

    What the program uses of Go's [encoding/binary] (big-endian words) and
    [bytes] ([Compare], the order of every storage backend), and the helpers
    built on them: [be64], [be64Decode], [appendU16], [appendU64],
    [parseU64Value] and [prefixEnd] (internal/ds/keys.go, meta.go, server.go). *)

From S2P Require Import Prelude.

(** ** Big-endian words (encoding/binary) *)

(** The [n]-byte big-endian encoding of [v] modulo [256^n]. *)
Fixpoint be_bytes (n : nat) (v : Z) : bytes :=
  match n with
  | O => []
  | S m => byte_of_Z (v / 256 ^ Z.of_nat m) :: be_bytes m v
  end.

(** The value of a big-endian byte string. *)
Fixpoint be_value (b : bytes) : Z :=
  match b with
  | [] => 0
  | x :: b' => byte_to_Z x * 256 ^ len b' + be_value b'
  end.

(** [binary.BigEndian.Uint64(b)] and [Uint16(b)]: they read the first bytes
    of [b] and panic when there are too few. *)
Definition BigEndian_Uint64 (b : bytes) : result Z :=
  b ← go_slice b 0 8; mret (be_value b).
Definition BigEndian_Uint16 (b : bytes) : result Z :=
  b ← go_slice b 0 2; mret (be_value b).

(** ** The helpers of the program *)

Definition be64 (v : Z) : bytes := be_bytes 8 v.
#[global] Arguments be64 : simpl never.

(** The loop [for _, c := range b { v = v<<8 | uint64(c) }]. *)
Definition be64Decode (b : bytes) : Z :=
  foldl (λ v c, Z.lor (u64 (Z.shiftl v 8)) (byte_to_Z c)) 0 b.

Definition appendU16 (b : bytes) (v : Z) : bytes :=
  b ++ [byte_of_Z (Z.shiftr v 8); byte_of_Z v].

Definition appendU64 (b : bytes) (v : Z) : bytes := b ++ be64 v.

Definition u64Value (v : Z) : bytes := be64 v.

Definition parseU64Value (b : bytes) : result Z :=
  if decide (length b < 8)%nat then Err errBadMeta else BigEndian_Uint64 b.

(** The loop of [prefixEnd], from the last byte down: drop trailing 0xff
    bytes, increment the first byte that is not 0xff. The argument is the
    reversed prefix; the result is [None] (Go's nil) when all bytes are 0xff. *)
Fixpoint prefixEnd_rev (r : bytes) : option bytes :=
  match r with
  | [] => None
  | x :: r' =>
      if decide (x = xff) then prefixEnd_rev r'
      else Some (byte_of_Z (byte_to_Z x + 1) :: r')
  end.
Definition prefixEnd (p : bytes) : option bytes := reverse <$> prefixEnd_rev (reverse p).

(** ** [bytes.Compare]: the lexicographic order *)

Fixpoint bytes_cmp (a b : bytes) : comparison :=
  match a, b with
  | [], [] => Eq
  | [], _ :: _ => Lt
  | _ :: _, [] => Gt
  | x :: a', y :: b' =>
      match byte_to_Z x ?= byte_to_Z y with Eq => bytes_cmp a' b' | c => c end
  end.

Definition bytes_lt (a b : bytes) : Prop := bytes_cmp a b = Lt.
Definition bytes_le (a b : bytes) : Prop := bytes_cmp a b ≠ Gt.

#[global] Instance bytes_lt_dec : RelDecision bytes_lt.
Proof. intros a b. unfold bytes_lt. apply _. Defined.
#[global] Instance bytes_le_dec : RelDecision bytes_le.
Proof. intros a b. unfold bytes_le. apply _. Defined.

(** The half-open key range of a scan; an end of [None] is unbounded. *)
Definition in_range (lo : bytes) (hi : option bytes) (k : bytes) : Prop :=
  bytes_le lo k ∧ match hi with Some e => bytes_lt k e | None => True end.

#[global] Instance in_range_dec lo hi k : Decision (in_range lo hi k).
Proof. unfold in_range. destruct hi; apply _. Defined.

(** ** Lemmas: big-endian words *)

Lemma lor_shifted_byte v x : 0 ≤ v → 0 ≤ x < 256 → Z.lor (v * 2 ^ 8) x = v * 256 + x.
Proof.
  intros Hv Hx. rewrite <-Z.shiftl_mul_pow2 by lia.
  pose proof (Z.add_lor_land (Z.shiftl v 8) x) as Hadd.
  assert (Hland : Z.land (Z.shiftl v 8) x = 0);
    [|rewrite Hland, Z.shiftl_mul_pow2 in Hadd by lia; rewrite Z.shiftl_mul_pow2 by lia; lia].
apply Z.bits_inj'. intros i Hi. rewrite Z.land_spec, Z.bits_0.
  destruct (decide (i < 8)).
  - by rewrite Z.shiftl_spec_low by lia.
  - rewrite <-(Z.mod_small x (2^8)) by lia. rewrite Z.mod_pow2_bits_high by lia.
    by rewrite andb_false_r.
Qed.

Lemma length_be_bytes n v : length (be_bytes n v) = n.
Proof. induction n; simpl; congruence. Qed.

Lemma length_be64 v : length (be64 v) = 8%nat.
Proof. apply length_be_bytes. Qed.
#[export] Hint Rewrite length_be_bytes length_be64 : yasdb_len.

Lemma be_value_bound b : 0 ≤ be_value b < 256 ^ len b.
Proof.
  induction b as [|x b IH]; simpl length; [simpl; lia|]. cbn [be_value].
  rewrite Nat2Z.inj_succ, Z.pow_succ_r by lia.
  pose proof (byte_to_Z_range x). nia.
Qed.

Lemma be_bytes_mod n v : be_bytes n (v mod 256 ^ Z.of_nat n) = be_bytes n v.
Proof.
  assert (Hgen : ∀ m, (m ≤ n)%nat → be_bytes m (v mod 256 ^ Z.of_nat n) = be_bytes m v);
    [|by apply Hgen].
  induction m as [|m IH]; intros Hm; [done|]. cbn [be_bytes]. rewrite IH by lia. f_equal.
  unfold byte_of_Z. do 3 f_equal.
  set (q := 256 ^ Z.of_nat m).
  assert (Hq : 256 ^ Z.of_nat n = q * (256 * 256 ^ (Z.of_nat n - Z.of_nat m - 1))).
  { unfold q. rewrite <-(Z.pow_succ_r 256), <-Z.pow_add_r by lia. f_equal. lia. }
  assert (0 < q) by (unfold q; lia).
  assert (0 < 256 ^ (Z.of_nat n - Z.of_nat m - 1)) by lia.
  rewrite Hq, Z.rem_mul_r by lia.
  rewrite Z.add_comm, Z.mul_comm, Z.div_add_l by lia.
  rewrite (Z.div_small (v mod _)), Z.add_0_r by (apply Z.mod_pos_bound; lia).
  rewrite (Z.rem_mul_r (v / q)) by lia.
  rewrite (Z.mul_comm 256), Z.mod_add by lia.
  by rewrite Z.mod_mod.
Qed.

Lemma be_value_be_bytes n v : be_value (be_bytes n v) = v mod 256 ^ Z.of_nat n.
Proof.
  induction n as [|n IH]; [simpl; by rewrite Z.mod_1_r|].
  cbn [be_bytes be_value]. rewrite length_be_bytes, IH, byte_to_of_Z.
  rewrite Nat2Z.inj_succ, Z.pow_succ_r by lia.
  rewrite (Z.mul_comm 256), Z.rem_mul_r by lia. lia.
Qed.

Lemma be_bytes_be_value b : be_bytes (length b) (be_value b) = b.
Proof.
  induction b as [|x b IH]; [done|]. cbn [length be_bytes be_value].
  pose proof (be_value_bound b). f_equal.
  - rewrite Z.div_add_l, Z.div_small, Z.add_0_r by lia. apply byte_of_to_Z.
  - rewrite <-be_bytes_mod, Z.add_comm, Z.mod_add by lia.
    by rewrite be_bytes_mod.
Qed.

Lemma be_value_cons x b : be_value (x :: b) = byte_to_Z x * 256 ^ len b + be_value b.
Proof. done. Qed.

#[global] Arguments be_bytes : simpl never.
#[global] Arguments be_value : simpl never.

Lemma pow_256_8 : 256 ^ Z.of_nat 8 = 2 ^ 64.
Proof. reflexivity. Qed.

Lemma be_value_be64 v : be_value (be64 v) = u64 v.
Proof. unfold be64. by rewrite be_value_be_bytes. Qed.

Lemma be64_u64 v : be64 (u64 v) = be64 v.
Proof. exact (be_bytes_mod 8 v). Qed.

Lemma be64_inj a b : is_u64 a → is_u64 b → be64 a = be64 b → a = b.
Proof.
  intros Ha Hb H. apply (f_equal be_value) in H.
  by rewrite !be_value_be64, !u64_small in H.
Qed.

Lemma BigEndian_Uint64_be64 v r : BigEndian_Uint64 (be64 v ++ r) = Ok (u64 v).
Proof.
  unfold BigEndian_Uint64. rewrite go_slice_in_range, drop_0 by len_lia.
  rewrite take_app_length_eq by (rewrite length_be64; lia). simpl.
  by rewrite be_value_be64.
Qed.

Lemma BigEndian_Uint64_be64' v : BigEndian_Uint64 (be64 v) = Ok (u64 v).
Proof. rewrite <-(app_nil_r (be64 v)). apply BigEndian_Uint64_be64. Qed.

Lemma parseU64Value_be64 v : parseU64Value (u64Value v) = Ok (u64 v).
Proof.
  unfold parseU64Value, u64Value. rewrite decide_False by (rewrite length_be64; lia).
  apply BigEndian_Uint64_be64'.
Qed.

(** [be64Decode] is the big-endian value of any string of at most 8 bytes. *)
Lemma be64Decode_value b : (length b ≤ 8)%nat → be64Decode b = be_value b.
Proof.
  unfold be64Decode. intros Hl.
  assert (Hgen : ∀ v, 0 ≤ v → (v + 1) * 256 ^ len b ≤ 2 ^ 64 →
    foldl (λ v c, Z.lor (u64 (Z.shiftl v 8)) (byte_to_Z c)) v b
    = v * 256 ^ len b + be_value b).
  { clear Hl. induction b as [|x b IH]; intros v Hv Hb; [simpl; unfold be_value; lia|].
    cbn [foldl length] in *. rewrite Nat2Z.inj_succ, Z.pow_succ_r in * by lia.
    pose proof (byte_to_Z_range x). assert (1 ≤ 256 ^ len b) by lia.
    rewrite Z.shiftl_mul_pow2, u64_small by (unfold is_u64; nia).
    rewrite lor_shifted_byte by lia.
    rewrite IH, be_value_cons by nia. lia. }
  rewrite Hgen; [lia|lia|].
  assert (256 ^ len b ≤ 256 ^ 8) by (apply Z.pow_le_mono_r; lia). lia.
Qed.

(** ** Lemmas: the lexicographic order *)

Lemma bytes_cmp_refl a : bytes_cmp a a = Eq.
Proof. induction a as [|x a IH]; simpl; [done|]. by rewrite Z.compare_refl. Qed.

Lemma bytes_cmp_eq a b : bytes_cmp a b = Eq → a = b.
Proof.
  revert b. induction a as [|x a IH]; intros [|y b]; simpl; try done.
  destruct (Z.compare_spec (byte_to_Z x) (byte_to_Z y)) as [E| |]; try done.
  apply (inj byte_to_Z) in E as ->. intros. f_equal. auto.
Qed.

Lemma bytes_cmp_antisym a b : bytes_cmp b a = CompOpp (bytes_cmp a b).
Proof.
  revert b. induction a as [|x a IH]; intros [|y b]; simpl; try done.
  rewrite (Z.compare_antisym (byte_to_Z x)).
  destruct (byte_to_Z x ?= byte_to_Z y); simpl; auto.
Qed.

Lemma bytes_lt_cons x a y b :
  bytes_lt (x :: a) (y :: b) ↔ byte_to_Z x < byte_to_Z y ∨ x = y ∧ bytes_lt a b.
Proof.
  unfold bytes_lt. simpl.
  destruct (Z.compare_spec (byte_to_Z x) (byte_to_Z y)) as [E|E|E].
  - apply (inj byte_to_Z) in E as ->. split; [auto|]. intros [?|[_ ?]]; [lia|done].
  - naive_solver.
  - split; [done|]. intros [?|[-> _]]; lia.
Qed.

Lemma bytes_le_cons x a y b :
  bytes_le (x :: a) (y :: b) ↔ byte_to_Z x < byte_to_Z y ∨ x = y ∧ bytes_le a b.
Proof.
  unfold bytes_le. simpl.
  destruct (Z.compare_spec (byte_to_Z x) (byte_to_Z y)) as [E|E|E].
  - apply (inj byte_to_Z) in E as ->. split; [auto|]. intros [?|[_ ?]]; [lia|done].
  - naive_solver.
  - split; [done|]. intros [?|[-> _]]; lia.
Qed.

Lemma bytes_lt_nil_r a : ¬ bytes_lt a [].
Proof. by destruct a. Qed.
Lemma bytes_le_nil_l a : bytes_le [] a.
Proof. by destruct a. Qed.
Lemma bytes_le_nil_r a : bytes_le a [] ↔ a = [].
Proof. destruct a; split; done. Qed.

Lemma bytes_le_lteq a b : bytes_le a b ↔ bytes_lt a b ∨ a = b.
Proof.
  unfold bytes_le, bytes_lt. destruct (bytes_cmp a b) eqn:E; split; try naive_solver.
  - intros _. right. by apply bytes_cmp_eq.
  - intros [?| ->]; [done|]. by rewrite bytes_cmp_refl in E.
Qed.

Lemma bytes_le_not_lt a b : bytes_le a b ↔ ¬ bytes_lt b a.
Proof.
  unfold bytes_le, bytes_lt. rewrite (bytes_cmp_antisym a b).
  destruct (bytes_cmp a b); naive_solver.
Qed.

#[global] Instance bytes_lt_irreflexive : Irreflexive bytes_lt.
Proof. intros a H. unfold bytes_lt in H. by rewrite bytes_cmp_refl in H. Qed.

#[global] Instance bytes_lt_transitive : Transitive bytes_lt.
Proof.
  intros a. induction a as [|x a IH]; intros [|y b] [|z c] H1 H2; try done.
  apply bytes_lt_cons in H1, H2. apply bytes_lt_cons.
  destruct H1 as [?|[-> ?]], H2 as [?|[-> ?]]; [left; lia|left; lia|left; lia|].
  right; split; [done|]. by eapply IH.
Qed.

#[global] Instance bytes_lt_strict_order : StrictOrder bytes_lt.
Proof. split; apply _. Qed.

#[global] Instance bytes_le_reflexive : Reflexive bytes_le.
Proof. intros a. unfold bytes_le. by rewrite bytes_cmp_refl. Qed.

#[global] Instance bytes_le_transitive : Transitive bytes_le.
Proof.
  intros a b c. rewrite !bytes_le_lteq. intros [H1| ->] [H2| ->]; auto.
  left. by etrans.
Qed.

#[global] Instance bytes_le_total : Total bytes_le.
Proof.
  intros a b. unfold bytes_le. rewrite (bytes_cmp_antisym a b).
  destruct (bytes_cmp a b); naive_solver.
Qed.

Lemma bytes_le_lt_trans a b c : bytes_le a b → bytes_lt b c → bytes_lt a c.
Proof. rewrite bytes_le_lteq. intros [H| ->] ?; [by etrans|done]. Qed.
Lemma bytes_lt_le_trans a b c : bytes_lt a b → bytes_le b c → bytes_lt a c.
Proof. rewrite bytes_le_lteq. intros ? [H| ->]; [by etrans|done]. Qed.

Lemma bytes_cmp_prefix p a b : bytes_cmp (p ++ a) (p ++ b) = bytes_cmp a b.
Proof. induction p as [|x p IH]; simpl; [done|]. by rewrite Z.compare_refl. Qed.

Lemma bytes_lt_prefix p a b : bytes_lt (p ++ a) (p ++ b) ↔ bytes_lt a b.
Proof. unfold bytes_lt. by rewrite bytes_cmp_prefix. Qed.
Lemma bytes_le_prefix p a b : bytes_le (p ++ a) (p ++ b) ↔ bytes_le a b.
Proof. unfold bytes_le. by rewrite bytes_cmp_prefix. Qed.

(** Equally long byte strings are ordered as the big-endian words they encode:
    what makes a key range scan visit sequence numbers in numeric order. *)
Lemma bytes_cmp_be_value a b :
  length a = length b → bytes_cmp a b = (be_value a ?= be_value b).
Proof.
  revert b. induction a as [|x a IH]; intros [|y b] Hl; try done.
  injection Hl as Hl. simpl bytes_cmp. rewrite !be_value_cons, IH, <-Hl by done.
  pose proof (be_value_bound a). pose proof (be_value_bound b) as Hb. rewrite <-Hl in Hb.
  destruct (Z.compare_spec (byte_to_Z x) (byte_to_Z y)) as [->|E|E]; symmetry.
  - by rewrite Z.add_compare_mono_l.
  - apply Z.compare_lt_iff. nia.
  - apply Z.compare_gt_iff. nia.
Qed.

Lemma bytes_cmp_be64 a b : is_u64 a → is_u64 b → bytes_cmp (be64 a) (be64 b) = (a ?= b).
Proof.
  intros. rewrite bytes_cmp_be_value by len_lia. by rewrite !be_value_be64, !u64_small.
Qed.

Lemma bytes_lt_be64 a b : is_u64 a → is_u64 b → bytes_lt (be64 a) (be64 b) ↔ a < b.
Proof. intros. unfold bytes_lt. by rewrite bytes_cmp_be64. Qed.
Lemma bytes_le_be64 a b : is_u64 a → is_u64 b → bytes_le (be64 a) (be64 b) ↔ a ≤ b.
Proof. intros. unfold bytes_le. by rewrite bytes_cmp_be64. Qed.

(** The order on strings with equally long heads. *)
Lemma bytes_cmp_app a1 a2 b1 b2 :
  length a1 = length a2 →
  bytes_cmp (a1 ++ b1) (a2 ++ b2) =
  match bytes_cmp a1 a2 with Eq => bytes_cmp b1 b2 | c => c end.
Proof.
  revert a2. induction a1 as [|x a1 IH]; intros [|y a2] Hl; try done.
  injection Hl as Hl. simpl. rewrite IH by done.
  by destruct (byte_to_Z x ?= byte_to_Z y).
Qed.

Lemma bytes_lt_app a1 a2 b1 b2 :
  length a1 = length a2 →
  bytes_lt (a1 ++ b1) (a2 ++ b2) ↔ bytes_lt a1 a2 ∨ a1 = a2 ∧ bytes_lt b1 b2.
Proof.
  intros Hl. unfold bytes_lt. rewrite bytes_cmp_app by done.
  destruct (bytes_cmp a1 a2) eqn:E; [|naive_solver|].
  - apply bytes_cmp_eq in E as ->. naive_solver.
  - split; [done|]. intros [?|[-> _]]; [done|]. by rewrite bytes_cmp_refl in E.
Qed.

(** ** Lemmas: [prefixEnd] *)

(** The increment of the last byte that is not 0xff. *)
Lemma prefixEnd_spec p :
  match prefixEnd p with
  | Some e => ∃ q x n, p = q ++ x :: replicate n xff ∧ x ≠ xff ∧
                       e = q ++ [byte_of_Z (byte_to_Z x + 1)]
  | None => p = replicate (length p) xff
  end.
Proof.
  unfold prefixEnd. remember (reverse p) as r eqn:Hr.
  assert (p = reverse r) as -> by (by rewrite Hr, reverse_involutive). clear Hr.
  induction r as [|x r IH]; simpl; [done|]. case_decide as Hx.
  - subst x. destruct (prefixEnd_rev r) as [e|]; simpl in *.
    + destruct IH as (q & x & n & Hr & Hx & He). exists q, x, (S n).
      rewrite reverse_cons, Hr. split_and!; [|done|done].
      rewrite <-app_assoc. simpl. by rewrite <-replicate_S_end.
    + rewrite reverse_cons, IH. rewrite !length_app, !length_replicate. simpl.
      rewrite Nat.add_1_r. by rewrite replicate_S_end.
  - exists (reverse r), x, 0%nat. by rewrite !reverse_cons.
Qed.

Lemma bytes_le_ff n k : bytes_le (replicate n xff) k ↔ replicate n xff `prefix_of` k.
Proof.
  revert k. induction n as [|n IH]; intros k; simpl.
  - split; intros _; [apply prefix_nil|apply bytes_le_nil_l].
  - destruct k as [|y k].
    + rewrite bytes_le_nil_r. split; [done|]. by intros ?%prefix_nil_inv.
    + rewrite bytes_le_cons, IH. pose proof (byte_to_Z_range y).
      change (byte_to_Z xff) with 255. split.
      * intros [?|[<- ?]]; [lia|]. by apply prefix_cons.
      * intros Hp. right. split; [by apply prefix_cons_inv_1 in Hp|
                                  by apply prefix_cons_inv_2 in Hp].
Qed.

(** [prefixEnd p] is the exact exclusive bound of a prefix scan: the range
    [p, prefixEnd p) holds the strings that start with [p], and no others. *)
Lemma in_range_prefixEnd p k : in_range p (prefixEnd p) k ↔ p `prefix_of` k.
Proof.
  unfold in_range. pose proof (prefixEnd_spec p) as Hs.
  destruct (prefixEnd p) as [e|].
  - destruct Hs as (q & x & n & -> & Hx & ->). revert k.
    assert (Hx' : byte_to_Z (byte_of_Z (byte_to_Z x + 1)) = byte_to_Z x + 1).
    { rewrite byte_to_of_Z. apply Z.mod_small. pose proof (byte_to_Z_range x).
      assert (byte_to_Z x ≠ 255); [|lia].
      intros ?. apply Hx, (inj byte_to_Z). done. }
    induction q as [|c q IH]; intros [|y k]; simpl; rewrite ?bytes_le_nil_r.
    + split; [by intros [? _]|]. by intros ?%prefix_nil_inv.
    + rewrite bytes_le_cons, bytes_lt_cons, bytes_le_ff, Hx'. split.
      * intros [[?|[<- ?]] [?|[? []%bytes_lt_nil_r]]]; [lia|by apply prefix_cons].
      * intros Hp. pose proof (prefix_cons_inv_1 _ _ _ _ Hp) as <-.
        apply prefix_cons_inv_2 in Hp. split; [by right|left; lia].
    + split; [by intros [? _]|]. by intros ?%prefix_nil_inv.
    + rewrite bytes_le_cons, bytes_lt_cons. split.
      * intros [[?|[<- ?]] [?|[? ?]]]; try lia; [subst; lia|].
        apply prefix_cons, IH. done.
      * intros Hp. pose proof (prefix_cons_inv_1 _ _ _ _ Hp) as <-.
        apply prefix_cons_inv_2, IH in Hp as [??]. auto.
  - rewrite Hs. rewrite bytes_le_ff. naive_solver.
Qed.

(** From here on [be64] is reasoned about through its lemmas. *)
#[global] Opaque be64.
