(* ===== verification/Keys.v ===== *)
(** * The shared keyspace (internal/ds/keys.go)

    Every key is a type ordinal followed by fixed-width big-endian words and at
    most one variable-length tail. [skey] names the eleven families of keys;
    [encode_skey] is the byte encoding the key builders implement. The theorems
    say that families never collide, that a builder is injective, and that the
    ranges the program scans hold exactly the keys they are meant to hold. *)

From S2P Require Import Prelude.
From S2P Require Import Bytes.

(** ** Ordinals *)

Definition ktStreamMeta : byte := x01.
Definition ktStreamIDMapping : byte := x02.
Definition ktStreamTail : byte := x03.
Definition ktRecordData : byte := x04.
Definition ktProducerState : byte := x05.
Definition ktWriterSeq : byte := x06.
Definition ktExpiryDeadline : byte := x07.
Definition ktDeletePending : byte := x08.
Definition ktPathTombstone : byte := x09.
Definition ktRefCount : byte := x0a.
Definition ktIDCounter : byte := x64.

(** ** Key builders *)

Definition metaKey (path : bytes) : bytes := [ktStreamMeta] ++ path.
Definition idMappingKey (id : Z) : bytes := [ktStreamIDMapping] ++ be64 id.
Definition tailKey (id : Z) : bytes := [ktStreamTail] ++ be64 id.
Definition recordKey (id seq : Z) : bytes := ([ktRecordData] ++ be64 id) ++ be64 seq.
Definition recordPrefix (id : Z) : bytes := [ktRecordData] ++ be64 id.
Definition recordPrefixEnd (id : Z) : option bytes := prefixEnd (recordPrefix id).
Definition producerKey (id : Z) (producerID : bytes) : bytes :=
  ([ktProducerState] ++ be64 id) ++ producerID.
Definition producerPrefix (id : Z) : bytes := [ktProducerState] ++ be64 id.
Definition producerPrefixEnd (id : Z) : option bytes := prefixEnd (producerPrefix id).
Definition writerSeqKey (id : Z) : bytes := [ktWriterSeq] ++ be64 id.
Definition expiryKey (deadline id : Z) : bytes :=
  ([ktExpiryDeadline] ++ be64 deadline) ++ be64 id.
Definition expiryScanEnd (now : Z) : bytes := [ktExpiryDeadline] ++ be64 (u64 (now + 1)).
Definition deletePendingKey (id : Z) : bytes := [ktDeletePending] ++ be64 id.
Definition tombstoneKey (path : bytes) : bytes := [ktPathTombstone] ++ path.
Definition refCountKey (id : Z) : bytes := [ktRefCount] ++ be64 id.
Definition idCounterKey : bytes := [ktIDCounter].

(** ** The families of keys *)

Inductive skey : Type :=
| KMeta (path : bytes)
| KIDMapping (id : Z)
| KTail (id : Z)
| KRecord (id seq : Z)
| KProducer (id : Z) (pid : bytes)
| KWriterSeq (id : Z)
| KExpiry (deadline id : Z)
| KDeletePending (id : Z)
| KTombstone (path : bytes)
| KRefCount (id : Z)
| KIDCounter.

Definition encode_skey (k : skey) : bytes :=
  match k with
  | KMeta p => metaKey p
  | KIDMapping id => idMappingKey id
  | KTail id => tailKey id
  | KRecord id seq => recordKey id seq
  | KProducer id pid => producerKey id pid
  | KWriterSeq id => writerSeqKey id
  | KExpiry d id => expiryKey d id
  | KDeletePending id => deletePendingKey id
  | KTombstone p => tombstoneKey p
  | KRefCount id => refCountKey id
  | KIDCounter => idCounterKey
  end.

(** The words of a key fit in 64 bits. *)
Definition skey_wf (k : skey) : Prop :=
  match k with
  | KIDMapping id | KTail id | KWriterSeq id | KDeletePending id | KRefCount id
  | KProducer id _ => is_u64 id
  | KRecord a b | KExpiry a b => is_u64 a ∧ is_u64 b
  | KMeta _ | KTombstone _ | KIDCounter => True
  end.

#[global] Instance skey_eq_decision : EqDecision skey.
Proof. solve_decision. Defined.

(** ** Lemmas *)

Lemma length_recordKey id seq : length (recordKey id seq) = 17%nat.
Proof. unfold recordKey. len_lia. Qed.

Lemma length_recordPrefix id : length (recordPrefix id) = 9%nat.
Proof. unfold recordPrefix. len_lia. Qed.

Lemma length_expiryKey d id : length (expiryKey d id) = 17%nat.
Proof. unfold expiryKey. len_lia. Qed.
#[export] Hint Rewrite length_recordKey length_recordPrefix length_expiryKey : yasdb_len.

(** Family separation and injectivity. *)
Lemma encode_skey_inj k1 k2 :
  skey_wf k1 → skey_wf k2 → encode_skey k1 = encode_skey k2 → k1 = k2.
Proof.
  intros W1 W2 H.
  destruct k1, k2; simpl in W1, W2; try discriminate H; try done; destruct_and?;
    apply app_eq_split in H as [Ha Hb]; try done; rewrite ?app_eq_split in Ha by len_lia;
    destruct_and?;
    repeat match goal with
           | Heq : be64 _ = be64 _ |- _ => apply be64_inj in Heq; [|done..]
           end; by subst.
Qed.

Lemma recordKey_inj id1 id2 s1 s2 :
  is_u64 id1 → is_u64 id2 → is_u64 s1 → is_u64 s2 →
  recordKey id1 s1 = recordKey id2 s2 → id1 = id2 ∧ s1 = s2.
Proof.
  intros. assert (KRecord id1 s1 = KRecord id2 s2) as Heq; [|by simplify_eq].
  by apply encode_skey_inj.
Qed.

(** *** Scan ranges *)

(** A scan that starts inside a prefix and ends at its [prefixEnd]. *)
Lemma in_range_within_prefix lo p k :
  p `prefix_of` lo → in_range lo (prefixEnd p) k ↔ p `prefix_of` k ∧ bytes_le lo k.
Proof.
  intros [r ->]. rewrite <-in_range_prefixEnd. unfold in_range.
  split; [|naive_solver]. intros [Hlo Hhi]. split_and!; [|done..].
  etrans; [|done]. rewrite <-(app_nil_r p) at 1. rewrite bytes_le_prefix.
  apply bytes_le_nil_l.
Qed.

(** The ordinal of an encoded key is that of its family. *)
Definition skey_ordinal (k : skey) : byte :=
  match k with
  | KMeta _ => ktStreamMeta | KIDMapping _ => ktStreamIDMapping
  | KTail _ => ktStreamTail | KRecord _ _ => ktRecordData
  | KProducer _ _ => ktProducerState | KWriterSeq _ => ktWriterSeq
  | KExpiry _ _ => ktExpiryDeadline | KDeletePending _ => ktDeletePending
  | KTombstone _ => ktPathTombstone | KRefCount _ => ktRefCount
  | KIDCounter => ktIDCounter
  end.

Lemma encode_skey_ordinal k : ∃ r, encode_skey k = skey_ordinal k :: r.
Proof. destruct k; eexists; reflexivity. Qed.

(** The prefix of a family with a leading id word selects that id. *)
Lemma recordPrefix_selects id k :
  is_u64 id → skey_wf k →
  recordPrefix id `prefix_of` encode_skey k ↔ ∃ seq, k = KRecord id seq.
Proof.
  intros Hid Hwf. split.
  - intros [r Hr]. destruct k; try discriminate Hr.
    simpl in Hwf. cbn [encode_skey] in Hr. unfold recordKey, recordPrefix in Hr.
    apply app_eq_split in Hr as [Ha _]; [|len_lia].
    apply app_eq_split in Ha as [_ Ha]; [|done].
    apply be64_inj in Ha as ->; [by eexists|naive_solver..].
  - intros [seq ->]. by exists (be64 seq).
Qed.

Lemma producerPrefix_selects id k :
  is_u64 id → skey_wf k →
  producerPrefix id `prefix_of` encode_skey k ↔ ∃ pid, k = KProducer id pid.
Proof.
  intros Hid Hwf. split.
  - intros [r Hr]. destruct k; try discriminate Hr.
    simpl in Hwf. cbn [encode_skey] in Hr. unfold producerKey, producerPrefix in Hr.
    apply app_eq_split in Hr as [Ha _]; [|len_lia].
    apply app_eq_split in Ha as [_ Ha]; [|done].
    apply be64_inj in Ha as ->; [by eexists|naive_solver..].
  - intros [pid ->]. by exists pid.
Qed.

Lemma recordKey_le id a b :
  is_u64 a → is_u64 b → bytes_le (recordKey id a) (recordKey id b) ↔ a ≤ b.
Proof. intros. unfold recordKey. by rewrite bytes_le_prefix, bytes_le_be64. Qed.

Lemma recordKey_lt id a b :
  is_u64 a → is_u64 b → bytes_lt (recordKey id a) (recordKey id b) ↔ a < b.
Proof. intros. unfold recordKey. by rewrite bytes_lt_prefix, bytes_lt_be64. Qed.

(** The scan of [readSegments*] and [backgroundDelete]: from a record key to the
    end of its stream's prefix, exactly the stream's records from that sequence
    number on. *)
Lemma record_scan_exact id s k :
  is_u64 id → is_u64 s → skey_wf k →
  in_range (recordKey id s) (recordPrefixEnd id) (encode_skey k) ↔
  ∃ seq, k = KRecord id seq ∧ s ≤ seq.
Proof.
  intros Hid Hs Hwf. unfold recordPrefixEnd.
  rewrite in_range_within_prefix by (by exists (be64 s)).
  rewrite recordPrefix_selects by done. split.
  - intros [[seq ->] Hle]. exists seq. split; [done|].
    destruct Hwf. by apply recordKey_le in Hle.
  - intros [seq [-> Hle]]. destruct Hwf. split; [by eexists|]. by apply recordKey_le.
Qed.

Lemma producer_scan_exact id k :
  is_u64 id → skey_wf k →
  in_range (producerPrefix id) (producerPrefixEnd id) (encode_skey k) ↔
  ∃ pid, k = KProducer id pid.
Proof.
  intros. unfold producerPrefixEnd. rewrite in_range_prefixEnd. by apply producerPrefix_selects.
Qed.

(** A scan of a whole family by its ordinal ([ktDeletePending], [ktStreamMeta]). *)
Lemma family_scan_exact o k :
  in_range [o] (prefixEnd [o]) (encode_skey k) ↔ skey_ordinal k = o.
Proof.
  rewrite in_range_prefixEnd. destruct (encode_skey_ordinal k) as [r ->]. split.
  - intros Hp. symmetry. by eapply prefix_cons_inv_1.
  - intros ->. apply prefix_cons, prefix_nil.
Qed.

(** The sweeper's scan covers exactly the index entries due at [now]. *)
Lemma expiry_scan_exact now k :
  0 ≤ now < 2^64 - 1 → skey_wf k →
  in_range [ktExpiryDeadline] (Some (expiryScanEnd now)) (encode_skey k) ↔
  ∃ d id, k = KExpiry d id ∧ d ≤ now.
Proof.
  intros Hnow Hwf. unfold in_range, expiryScanEnd.
  rewrite u64_small by (unfold is_u64; lia).
  assert (Hn : is_u64 (now + 1)) by (unfold is_u64; lia).
  split.
  - intros [Hlo Hhi].
    destruct k; try (exfalso; first [by apply Hlo | discriminate Hhi]).
    destruct Hwf. exists deadline, id. split; [done|].
    cbn [encode_skey] in Hhi. unfold expiryKey in Hhi. rewrite <-app_assoc, bytes_lt_prefix in Hhi.
    rewrite <-(app_nil_r (be64 (now + 1))) in Hhi.
    apply bytes_lt_app in Hhi as [Hhi|[_ []%bytes_lt_nil_r]]; [|len_lia].
    apply bytes_lt_be64 in Hhi; [lia|done..].
  - intros (d & id & -> & Hd). destruct Hwf. cbn [encode_skey]. unfold expiryKey.
    rewrite <-app_assoc. split.
    + apply bytes_le_cons. right. split; [done|apply bytes_le_nil_l].
    + rewrite bytes_lt_prefix, <-(app_nil_r (be64 (now + 1))).
      apply bytes_lt_app; [len_lia|]. left. apply bytes_lt_be64; [done..|lia].
Qed.

(** ** Properties *)

(** C34: the shared keyspace holds no collisions: two keys of any families are
    equal as bytes exactly when they are the same key of the same family. *)
Theorem keys_never_collide k1 k2 :
  skey_wf k1 → skey_wf k2 → encode_skey k1 = encode_skey k2 ↔ k1 = k2.
Proof. intros. split; [by apply encode_skey_inj|by intros ->]. Qed.

Lemma keys_never_collide_witness :
  encode_skey (KRecord 1 2) = encode_skey (KExpiry 1 2) ↔ KRecord 1 2 = KExpiry 1 2.
Proof. apply (keys_never_collide (KRecord 1 2) (KExpiry 1 2)); split; unfold is_u64; lia. Defined.

(** The range scans see exactly what they are for: a record scan the records
    of its stream from the given number on, a producer scan the producers of its
    stream, the sweeper's scan the index entries due by now. *)
Theorem scans_are_exact id from now k :
  is_u64 id → is_u64 from → 0 ≤ now < 2^64 - 1 → skey_wf k →
  (in_range (recordKey id from) (recordPrefixEnd id) (encode_skey k) ↔
     ∃ seq, k = KRecord id seq ∧ from ≤ seq) ∧
  (in_range (producerPrefix id) (producerPrefixEnd id) (encode_skey k) ↔
     ∃ pid, k = KProducer id pid) ∧
  (in_range [ktExpiryDeadline] (Some (expiryScanEnd now)) (encode_skey k) ↔
     ∃ d i, k = KExpiry d i ∧ d ≤ now).
Proof.
  intros. split_and!; [by apply record_scan_exact|by apply producer_scan_exact|
                       by apply expiry_scan_exact].
Qed.

Lemma scans_are_exact_witness :
  in_range (recordKey 1 2) (recordPrefixEnd 1) (encode_skey (KRecord 1 7)) ↔
    ∃ seq, KRecord 1 7 = KRecord 1 seq ∧ 2 ≤ seq.
Proof. apply (scans_are_exact 1 2 0 (KRecord 1 7)); unfold is_u64; simpl; unfold is_u64; lia. Defined.
