(* ===== verification/Meta.v ===== *)
(** * Stored values (internal/ds/meta.go)

    The hand-rolled binary formats of the values kept under each key family:
    stream metadata, stream tail, producer state, records, tombstones. *)

From S2P Require Import Prelude.
From S2P Require Import Bytes.

(** ** StreamMeta *)

Record StreamMeta : Type := mkStreamMeta {
  StreamID : Z;
  ContentType : bytes;
  TTLSeconds : Z;
  ExpiresAt : Z;
  Closed : bool;
  CreatedAtMs : Z;
  IsPrivate : bool;
  Deadline : Z;
  ForkedFrom : Z;
  ForkOffset : Z;
  ForkByte : Z }.

#[global] Instance StreamMeta_eq_decision : EqDecision StreamMeta.
Proof. solve_decision. Defined.

Definition streamMetaVersion : byte := x03.
Definition metaFlagClosed : Z := 1.
Definition metaFlagPrivate : Z := 2.

(** The header of the encoding: version, flags and the eight 64-bit words. *)
Definition Marshal_header (m : StreamMeta) : bytes :=
  let buf := [streamMetaVersion] in
  let flags := Z.lor (if Closed m then metaFlagClosed else 0)
                     (if IsPrivate m then metaFlagPrivate else 0) in
  let buf := buf ++ [byte_of_Z flags] in
  let buf := appendU64 buf (StreamID m) in
  let buf := appendU64 buf (TTLSeconds m) in
  let buf := appendU64 buf (u64 (ExpiresAt m)) in
  let buf := appendU64 buf (u64 (CreatedAtMs m)) in
  let buf := appendU64 buf (ForkedFrom m) in
  let buf := appendU64 buf (ForkOffset m) in
  let buf := appendU64 buf (ForkByte m) in
  appendU64 buf (Deadline m).

Definition Marshal (m : StreamMeta) : bytes :=
  let buf := appendU16 (Marshal_header m) (len (ContentType m) mod 2^16) in
  buf ++ ContentType m.

(** The closure [rdU64]: it reads at position [p] and returns the advanced
    position; its [false] result always makes the caller return [errBadMeta]. *)
Definition rdU64 (b : bytes) (p : nat) : result (Z * nat) :=
  if decide (length b < p + 8)%nat then Err errBadMeta
  else v ← BigEndian_Uint64 (drop p b); mret (v, (p + 8)%nat).

Definition unmarshalMeta (b : bytes) : result StreamMeta :=
  match b with
  | v :: f :: _ =>
      if decide (v = streamMetaVersion) then
        let flags := byte_to_Z f in
        '(sid, p) ← rdU64 b 2;
        '(ttl, p) ← rdU64 b p;
        '(exp, p) ← rdU64 b p;
        '(cre, p) ← rdU64 b p;
        '(ffrom, p) ← rdU64 b p;
        '(foff, p) ← rdU64 b p;
        '(fbyte, p) ← rdU64 b p;
        '(dl, p) ← rdU64 b p;
        if decide (length b < p + 2)%nat then Err errBadMeta else
        ctLen ← BigEndian_Uint16 (drop p b);
        let p := (p + 2)%nat in
        if decide (length b < p + Z.to_nat ctLen)%nat then Err errBadMeta else
        ct ← go_slice b p (p + Z.to_nat ctLen);
        mret {| StreamID := sid; ContentType := ct; TTLSeconds := ttl;
                ExpiresAt := i64 exp;
                Closed := negb (Z.land flags metaFlagClosed =? 0);
                CreatedAtMs := i64 cre;
                IsPrivate := negb (Z.land flags metaFlagPrivate =? 0);
                Deadline := dl; ForkedFrom := ffrom; ForkOffset := foff;
                ForkByte := fbyte |}
      else Err errBadMeta
  | _ => Err errBadMeta
  end.

(** ** StreamTail: seq, updated *)

Definition marshalTail (seq updated : Z) : bytes := be64 seq ++ be64 (u64 updated).

Definition unmarshalTail (b : bytes) : result (Z * Z) :=
  if decide (length b < 16)%nat then Err errBadMeta else
  seq ← BigEndian_Uint64 b;
  upd ← BigEndian_Uint64 (drop 8 b);
  mret (seq, i64 upd).

(** ** ProducerState: epoch, lastSeq, closedBy *)

Record producerState : Type := mkProducerState {
  epoch : Z;
  lastSeq : Z;
  closedBy : bool }.

#[global] Instance producerState_eq_decision : EqDecision producerState.
Proof. solve_decision. Defined.

Definition marshalProducer (s : producerState) : bytes :=
  be64 (epoch s) ++ be64 (lastSeq s) ++ [if closedBy s then x01 else x00].

Definition unmarshalProducer (b : bytes) : result producerState :=
  if decide (length b < 17)%nat then Err errBadMeta else
  e ← BigEndian_Uint64 b;
  l ← BigEndian_Uint64 (drop 8 b);
  c ← go_slice b 16 17;
  mret {| epoch := e; lastSeq := l; closedBy := negb (bool_decide (c = [x00])) |}.

(** ** Records and tombstones *)

Definition recFlagNone : byte := x00.

Definition marshalRecord (flags : byte) (data : bytes) : bytes := flags :: data.

Definition recordPayload (v : bytes) : bytes :=
  match v with [] => [] | _ :: data => data end.

Definition tombHardDelete : byte := x01.
Definition tombSoftDelete : byte := x02.

Definition tombstoneValue (reason : byte) (id : Z) : bytes := [reason] ++ be64 id.

(** ** Well-formed values: every field fits its Go type *)

Definition wf_meta (m : StreamMeta) : Prop :=
  is_u64 (StreamID m) ∧ is_u64 (TTLSeconds m) ∧ is_i64 (ExpiresAt m) ∧
  is_i64 (CreatedAtMs m) ∧ is_u64 (Deadline m) ∧ is_u64 (ForkedFrom m) ∧
  is_u64 (ForkOffset m) ∧ is_u64 (ForkByte m).

Definition wf_producerState (s : producerState) : Prop :=
  is_u64 (epoch s) ∧ is_u64 (lastSeq s).

(** ** Lemmas *)

Lemma rdU64_at b p v r :
  drop p b = be64 v ++ r → rdU64 b p = Ok (u64 v, (p + 8)%nat).
Proof.
  intros Hd. unfold rdU64.
  assert (length (drop p b) = 8 + length r)%nat by (rewrite Hd; len_lia).
  rewrite decide_False by len_lia. rewrite Hd, BigEndian_Uint64_be64. done.
Qed.

Lemma drop_be64 b p v r : drop p b = be64 v ++ r → drop (p + 8) b = r.
Proof.
  intros Hd. rewrite <-drop_drop, Hd. apply drop_app_length_eq. by rewrite length_be64.
Qed.

Lemma length_Marshal_header m : length (Marshal_header m) = 66%nat.
Proof. unfold Marshal_header, appendU64. len_lia. Qed.

Lemma length_Marshal m : length (Marshal m) = (68 + length (ContentType m))%nat.
Proof. unfold Marshal, appendU16. rewrite !length_app, length_Marshal_header. simpl. lia. Qed.

Lemma be_value_U16 v : 0 ≤ v < 2^16 →
  be_value [byte_of_Z (Z.shiftr v 8); byte_of_Z v] = v.
Proof.
  intros Hv. rewrite !be_value_cons, !byte_to_of_Z. simpl. unfold be_value.
  rewrite Z.shiftr_div_pow2 by lia. change (2^8) with 256. change (2^16) with 65536 in Hv.
  rewrite (Z.mod_small (v / 256)) by (split; [apply Z.div_pos; lia|apply Z.div_lt_upper_bound; lia]).
  pose proof (Z.div_mod v 256). lia.
Qed.

Lemma flags_decode (c p : bool) :
  let f := byte_to_Z (byte_of_Z (Z.lor (if c then metaFlagClosed else 0)
                                       (if p then metaFlagPrivate else 0))) in
  negb (Z.land f metaFlagClosed =? 0) = c ∧ negb (Z.land f metaFlagPrivate =? 0) = p.
Proof. destruct c, p; by vm_compute. Qed.

(** The byte layout of an encoded [StreamMeta]. *)
Lemma Marshal_layout m r :
  Marshal m ++ r =
  streamMetaVersion
  :: byte_of_Z (Z.lor (if Closed m then metaFlagClosed else 0)
                      (if IsPrivate m then metaFlagPrivate else 0))
  :: be64 (StreamID m) ++ be64 (TTLSeconds m) ++ be64 (u64 (ExpiresAt m))
  ++ be64 (u64 (CreatedAtMs m)) ++ be64 (ForkedFrom m) ++ be64 (ForkOffset m)
  ++ be64 (ForkByte m) ++ be64 (Deadline m)
  ++ [byte_of_Z (Z.shiftr (len (ContentType m) mod 2^16) 8);
      byte_of_Z (len (ContentType m) mod 2^16)]
  ++ ContentType m ++ r.
Proof.
  unfold Marshal, Marshal_header, appendU64, appendU16. by rewrite <-!app_assoc.
Qed.

(** What decoding an encoded value yields: the content type is cut to the
    length its 16-bit length field holds. *)
Definition meta_stored (m : StreamMeta) : StreamMeta :=
  {| StreamID := StreamID m;
     ContentType := take (Z.to_nat (len (ContentType m) mod 2^16)) (ContentType m);
     TTLSeconds := TTLSeconds m; ExpiresAt := ExpiresAt m; Closed := Closed m;
     CreatedAtMs := CreatedAtMs m; IsPrivate := IsPrivate m; Deadline := Deadline m;
     ForkedFrom := ForkedFrom m; ForkOffset := ForkOffset m; ForkByte := ForkByte m |}.

Lemma meta_stored_id m : len (ContentType m) < 2^16 → meta_stored m = m.
Proof.
  intros H. destruct m; unfold meta_stored; simpl in *.
  rewrite Z.mod_small by lia. rewrite Nat2Z.id, take_ge by lia. done.
Qed.

(** One step of the decoder: read a word, move on. *)
Ltac read_word H :=
  rewrite (rdU64_at _ _ _ _ H); run_result;
  apply drop_be64 in H; simpl Nat.add in H |- *.

Lemma unmarshalMeta_Marshal_app m r :
  wf_meta m → unmarshalMeta (Marshal m ++ r) = Ok (meta_stored m).
Proof.
  intros (?&?&?&?&?&?&?&?). pose proof (Marshal_layout m r) as HL.
  remember (Marshal m ++ r) as b eqn:Hb.
  assert (Hlen : length b = (68 + length (ContentType m) + length r)%nat)
    by (rewrite Hb, length_app, length_Marshal; lia).
  clear Hb. unfold unmarshalMeta. pose proof (f_equal (drop 2) HL) as Hd.
  cbn [drop] in Hd. rewrite HL at 1. rewrite decide_True by done.
  do 8 read_word Hd.
  rewrite decide_False by lia.
  unfold BigEndian_Uint16. rewrite go_slice_in_range by len_lia.
  rewrite Hd. run_result. rewrite drop_0.
  set (n := len (ContentType m) mod 2^16).
  assert (Hn : 0 ≤ n < 2^16) by (apply Z.mod_pos_bound; lia).
  assert (Hn2 : n ≤ len (ContentType m)) by (apply Z.mod_le; lia).
  change (take _ _) with [byte_of_Z (Z.shiftr n 8); byte_of_Z n].
  rewrite be_value_U16 by done. run_result.
  rewrite decide_False by lia. rewrite go_slice_in_range by lia.
  run_result. change 68%nat with (66 + 2)%nat. rewrite <-drop_drop, Hd.
  change (drop 2 _) with (ContentType m ++ r).
  assert (Hct : ∀ k, k = (68 + Z.to_nat n - 68)%nat →
    take k (ContentType m ++ r) = take (Z.to_nat n) (ContentType m)).
  { intros k ->. rewrite take_app_le by lia. f_equal. lia. }
  rewrite Hct by done.
  destruct (flags_decode (Closed m) (IsPrivate m)) as [Hc Hp]. cbv zeta in Hc, Hp.
  rewrite Hc, Hp, !u64_u64, !i64_u64, !u64_small by done. done.
Qed.

(** ** Decoding never panics and rejects truncated values *)

Lemma BigEndian_Uint64_enough b : (8 ≤ length b)%nat →
  BigEndian_Uint64 b = Ok (be_value (take 8 b)).
Proof. intros. unfold BigEndian_Uint64. by rewrite go_slice_in_range by lia. Qed.

Lemma rdU64_cases b p :
  ((length b < p + 8)%nat ∧ rdU64 b p = Err errBadMeta) ∨
  ∃ v, (p + 8 ≤ length b)%nat ∧ rdU64 b p = Ok (v, (p + 8)%nat).
Proof.
  unfold rdU64. case_decide; [by left|right].
  rewrite BigEndian_Uint64_enough by len_lia. eexists. split; [lia|reflexivity].
Qed.

(** The decoder succeeds exactly when the value is long enough for the
    length it announces; every other input is [errBadMeta]. *)
Lemma unmarshalMeta_total b :
  (∃ m, unmarshalMeta b = Ok m ∧ (68 + length (ContentType m) ≤ length b)%nat) ∨
  unmarshalMeta b = Err errBadMeta.
Proof.
  unfold unmarshalMeta. destruct b as [|v [|f b']]; [by right..|].
  case_decide; [|by right]. remember (v :: f :: b') as b eqn:Hb. clear Hb.
  do 8 (match goal with |- context [rdU64 ?b ?p] =>
          destruct (rdU64_cases b p) as [[? ->]|(? & ? & ->)]; run_result; [by right|]
        end).
  case_decide; [by right|]. unfold BigEndian_Uint16.
  rewrite go_slice_in_range by len_lia. run_result.
  case_decide; [by right|]. rewrite go_slice_in_range by lia. run_result.
  left. eexists. split; [done|]. simpl ContentType. len_lia.
Qed.

Lemma unmarshalTail_marshalTail seq upd :
  is_u64 seq → is_i64 upd → unmarshalTail (marshalTail seq upd) = Ok (seq, upd).
Proof.
  intros. unfold unmarshalTail, marshalTail. rewrite decide_False by len_lia.
  rewrite BigEndian_Uint64_be64, drop_app_length_eq by len_lia.
  rewrite BigEndian_Uint64_be64'. run_result. by rewrite u64_u64, u64_small, i64_u64.
Qed.

Lemma unmarshalProducer_marshalProducer s :
  wf_producerState s → unmarshalProducer (marshalProducer s) = Ok s.
Proof.
  intros [??]. unfold unmarshalProducer, marshalProducer. rewrite decide_False by len_lia.
  rewrite BigEndian_Uint64_be64, drop_app_length_eq by len_lia.
  rewrite BigEndian_Uint64_be64. run_result.
  rewrite go_slice_in_range by len_lia. rewrite app_assoc, drop_app_length_eq by len_lia.
  run_result. rewrite !u64_small by done. destruct s as [e l []]; done.
Qed.

Lemma recordPayload_marshalRecord f d : recordPayload (marshalRecord f d) = d.
Proof. done. Qed.

(** *** Trailing bytes are ignored, truncation is detected *)

Lemma go_slice_app b r lo hi s : go_slice b lo hi = Ok s → go_slice (b ++ r) lo hi = Ok s.
Proof.
  rewrite !go_slice_Ok. intros [? ->]. split; [len_lia|].
  rewrite drop_app_le by lia. by rewrite take_app_le by len_lia.
Qed.

Lemma BigEndian_Uint64_app b r v :
  BigEndian_Uint64 b = Ok v → BigEndian_Uint64 (b ++ r) = Ok v.
Proof.
  unfold BigEndian_Uint64. rewrite !result_bind_Ok. intros (s & Hs & ?).
  eexists. split; [by apply go_slice_app|done].
Qed.

Lemma rdU64_app b r p x : rdU64 b p = Ok x → rdU64 (b ++ r) p = Ok x.
Proof.
  unfold rdU64. case_decide; [done|]. rewrite decide_False by len_lia.
  rewrite !result_bind_Ok. intros (v & Hv & ?). exists v. split; [|done].
  rewrite drop_app_le by lia. by apply BigEndian_Uint64_app.
Qed.

Lemma unmarshalMeta_app b r m : unmarshalMeta b = Ok m → unmarshalMeta (b ++ r) = Ok m.
Proof.
  unfold unmarshalMeta. destruct b as [|v [|f b']]; [done..|].
  cbn [app]. case_decide; [|done]. change (v :: f :: b' ++ r) with ((v :: f :: b') ++ r).
  remember (v :: f :: b') as b eqn:Hb. clear Hb.
  do 8 (rewrite !result_bind_Ok; intros ([? ?] & ? & Hk); eexists;
        split; [by apply rdU64_app|]; revert Hk).
  case_decide; [done|]. rewrite decide_False by len_lia.
  rewrite !result_bind_Ok. intros (ctLen & Hn & Hk). exists ctLen. split.
  { unfold BigEndian_Uint16 in *. rewrite drop_app_le by lia.
    rewrite result_bind_Ok in Hn |- *. destruct Hn as (s & Hs & ?).
    eexists. split; [by apply go_slice_app|done]. }
  revert Hk. case_decide; [done|]. rewrite decide_False by len_lia.
  rewrite !result_bind_Ok. intros (s & Hs & ?).
  eexists. split; [by apply go_slice_app|done].
Qed.

Lemma unmarshalMeta_truncated m n :
  wf_meta m → len (ContentType m) < 2^16 → (n < length (Marshal m))%nat →
  unmarshalMeta (take n (Marshal m)) = Err errBadMeta.
Proof.
  intros Hwf Hct Hn.
  destruct (unmarshalMeta_total (take n (Marshal m))) as [(m' & Hm' & Hl)|]; [|done].
  exfalso. apply (unmarshalMeta_app _ (drop n (Marshal m))) in Hm'.
  rewrite take_drop, <-(app_nil_r (Marshal m)), unmarshalMeta_Marshal_app in Hm' by done.
  rewrite meta_stored_id in Hm' by done. simplify_eq.
  rewrite length_Marshal in Hn. len_lia.
Qed.

(** ** Properties *)

(** Stream metadata survives storage: decoding an encoded value gives it
    back, whatever bytes follow it, and every truncation of it is rejected. *)
Theorem meta_roundtrip m rest n :
  wf_meta m → len (ContentType m) < 2^16 → (n < length (Marshal m))%nat →
  unmarshalMeta (Marshal m ++ rest) = Ok m ∧
  unmarshalMeta (take n (Marshal m)) = Err errBadMeta.
Proof.
  intros. split; [|by apply unmarshalMeta_truncated].
  by rewrite unmarshalMeta_Marshal_app, meta_stored_id.
Qed.

(** Decoding stored metadata never panics: any byte string is either decoded,
    within its own length, or refused as bad metadata. *)
Theorem meta_decode_total b :
  (∃ m, unmarshalMeta b = Ok m ∧ (68 + length (ContentType m) ≤ length b)%nat) ∨
  unmarshalMeta b = Err errBadMeta.
Proof. apply unmarshalMeta_total. Qed.

(** The tail value and a producer's state survive storage. *)
Theorem tail_producer_roundtrip seq upd ps :
  is_u64 seq → is_i64 upd → wf_producerState ps →
  unmarshalTail (marshalTail seq upd) = Ok (seq, upd) ∧
  unmarshalProducer (marshalProducer ps) = Ok ps.
Proof.
  intros. split; [by apply unmarshalTail_marshalTail|by apply unmarshalProducer_marshalProducer].
Qed.

Definition sample_meta : StreamMeta :=
  {| StreamID := 7; ContentType := ["t"%byte; "x"%byte]; TTLSeconds := 30; ExpiresAt := -1;
     Closed := true; CreatedAtMs := 5; IsPrivate := true; Deadline := 40;
     ForkedFrom := 3; ForkOffset := 2; ForkByte := 1 |}.

Lemma meta_roundtrip_witness :
  unmarshalMeta (Marshal sample_meta ++ [x00]) = Ok sample_meta.
Proof.
  apply (meta_roundtrip sample_meta [x00] 0); [by split_and!|done|vm_compute; lia].
Defined.

Lemma tail_producer_roundtrip_witness :
  unmarshalTail (marshalTail 5 (-1)) = Ok (5, -1).
Proof.
  apply (tail_producer_roundtrip 5 (-1) {| epoch := 1; lastSeq := 2; closedBy := true |});
    [done|done|by split].
Defined.

(** The codecs are used through their lemmas. *)
#[global] Opaque Marshal unmarshalMeta marshalTail unmarshalTail
  marshalProducer unmarshalProducer.
