(* ===== verification/Decimal.v ===== *)
(** * Decimal integers

    What the program uses of Go's [strconv]: [ParseUint(s, 10, 64)] and
    [FormatUint(v, 10)]; and the strict parsers built on it for request headers
    ([parseStrictUint], [parseProducerInt], internal/ds/handlers.go). *)

From S2P Require Import Prelude.
From S2P Require Import Bytes.

(** ** Decimal digits *)

Definition is_digit (c : byte) : Prop := 48 ≤ byte_to_Z c ≤ 57.
#[global] Instance is_digit_dec c : Decision (is_digit c).
Proof. unfold is_digit. apply _. Defined.

(** The byte ['0' + d] and the value of a digit. *)
Definition digit (d : Z) : byte := byte_of_Z (48 + d).
Definition digit_val (c : byte) : Z := byte_to_Z c - 48.

Definition dec_value (s : bytes) : Z := foldl (λ v c, v * 10 + digit_val c) 0 s.

(** [strconv.ParseUint(s, 10, 64)]: a non-empty run of digits whose value fits
    in 64 bits; anything else is an error. *)
Definition ParseUint (s : bytes) : option Z :=
  if decide (s ≠ [] ∧ Forall is_digit s ∧ dec_value s < 2^64)
  then Some (dec_value s) else None.

(** [strconv.FormatUint(v, 10)]; 20 digits hold every 64-bit value. *)
Fixpoint dec_digits (fuel : nat) (v : Z) : bytes :=
  match fuel with
  | O => []
  | S n => if decide (v < 10) then [digit v] else dec_digits n (v / 10) ++ [digit (v mod 10)]
  end.
Definition FormatUint (v : Z) : bytes := dec_digits 20 v.

(** ** The parsers of the program *)

Definition parseStrictUint (s : bytes) : option Z :=
  if decide (s = []) then None
  else if decide (1 < length s ∧ head s = Some "0"%byte)%nat then None
  else if decide (Forall is_digit s) then ParseUint s
  else None.

Definition maxJSInt : Z := Z.shiftl 1 53 - 1.

Definition parseProducerInt (s : bytes) : option Z :=
  match parseStrictUint s with
  | None => None
  | Some n => if decide (maxJSInt < n) then None else Some n
  end.

(** ** Lemmas *)

Lemma digit_is_digit d : 0 ≤ d < 10 → is_digit (digit d).
Proof. intros. unfold is_digit, digit. rewrite byte_to_of_Z, Z.mod_small; lia. Qed.

Lemma digit_val_digit d : 0 ≤ d < 10 → digit_val (digit d) = d.
Proof. intros. unfold digit_val, digit. rewrite byte_to_of_Z, Z.mod_small; lia. Qed.

Lemma digit_digit_val c : digit (digit_val c) = c.
Proof. unfold digit, digit_val. rewrite Zplus_minus. apply byte_of_to_Z. Qed.

Lemma digit_val_range c : is_digit c → 0 ≤ digit_val c < 10.
Proof. unfold is_digit, digit_val. lia. Qed.

Lemma dec_value_snoc s c : dec_value (s ++ [c]) = dec_value s * 10 + digit_val c.
Proof. unfold dec_value. by rewrite foldl_app. Qed.

Lemma dec_value_app s t : dec_value (s ++ t) = dec_value s * 10 ^ len t + dec_value t.
Proof.
  induction t as [|c t IH] using rev_ind.
  { rewrite app_nil_r. change (dec_value []) with 0. simpl. lia. }
  rewrite app_assoc, !dec_value_snoc, IH, length_app, Nat2Z.inj_add, Z.pow_add_r by lia.
  simpl. lia.
Qed.

Lemma dec_value_bound s : Forall is_digit s → 0 ≤ dec_value s < 10 ^ len s.
Proof.
  induction s as [|c s IH] using rev_ind; [done|].
  rewrite Forall_app, Forall_singleton. intros [Hs Hc].
  apply IH in Hs. apply digit_val_range in Hc.
  rewrite dec_value_snoc, length_app, Nat2Z.inj_add, Z.pow_add_r by lia. simpl. lia.
Qed.

(** Equally long digit strings with the same value are equal. *)
Lemma dec_value_inj s t :
  Forall is_digit s → Forall is_digit t → length s = length t →
  dec_value s = dec_value t → s = t.
Proof.
  revert t. induction s as [|c s IH] using rev_ind; intros t Hs Ht Hl Hv.
  { by destruct t. }
  destruct t as [|d t _] using rev_ind; [by destruct s|].
  rewrite Forall_app, Forall_singleton in Hs, Ht. destruct Hs as [Hs Hc], Ht as [Ht Hd].
  rewrite !dec_value_snoc in Hv. apply digit_val_range in Hc, Hd as Hd'.
  rewrite !length_app in Hl. simpl in Hl.
  assert (digit_val c = digit_val d) by lia.
  rewrite (IH t), <-(digit_digit_val c), <-(digit_digit_val d) by (done || lia). congruence.
Qed.

(** The order of equally long digit strings is the order of their values. *)
Lemma bytes_cmp_dec_value s t :
  Forall is_digit s → Forall is_digit t → length s = length t →
  bytes_cmp s t = (dec_value s ?= dec_value t).
Proof.
  revert t. induction s as [|c s IH]; intros [|d t] Hs Ht Hl; try done.
  injection Hl as Hl. inversion_clear Hs as [|?? Hc Hs']. inversion_clear Ht as [|?? Hd Ht'].
  change (c :: s) with ([c] ++ s). change (d :: t) with ([d] ++ t).
  rewrite !dec_value_app. simpl. rewrite IH, <-Hl by done. unfold dec_value at 3 5. simpl.
  pose proof (dec_value_bound s Hs'). pose proof (dec_value_bound t Ht') as Hb.
  rewrite <-Hl in Hb. unfold digit_val.
  destruct (Z.compare_spec (byte_to_Z c) (byte_to_Z d)) as [->|E|E]; symmetry.
  - by rewrite Z.add_compare_mono_l.
  - apply Z.compare_lt_iff. nia.
  - apply Z.compare_gt_iff. nia.
Qed.

(** ** [FormatUint] writes the canonical decimal *)

(** No leading zero except in "0" itself. *)
Definition canonical (s : bytes) : Prop :=
  s ≠ [] ∧ Forall is_digit s ∧ ((1 < length s)%nat → head s ≠ Some "0"%byte).

Lemma canonical_pos s : canonical s → (1 < length s)%nat → 10 ^ (len s - 1) ≤ dec_value s.
Proof.
  intros (_ & Hd & Hz) Hl. specialize (Hz Hl). destruct s as [|c s]; [simpl in Hl; lia|].
  inversion_clear Hd as [|?? Hc Hs]. change (c :: s) with ([c] ++ s).
  rewrite dec_value_app. pose proof (dec_value_bound s Hs).
  assert (1 ≤ dec_value [c]).
  { unfold dec_value, digit_val. simpl. unfold is_digit in Hc.
    assert (byte_to_Z c ≠ 48); [|lia]. intros Hc'. apply Hz. simpl. f_equal.
    apply (inj byte_to_Z). rewrite Hc'. done. }
  rewrite length_app. simpl length. replace (Z.of_nat (1 + length s) - 1) with (len s) by lia.
  nia.
Qed.

Lemma dec_digits_canonical s fuel :
  canonical s → (length s ≤ fuel)%nat → dec_digits fuel (dec_value s) = s.
Proof.
  revert fuel. induction s as [|c s IH] using rev_ind; intros fuel Hcan Hf; [by destruct Hcan|].
  rewrite length_app in Hf. simpl in Hf. destruct fuel as [|fuel]; [lia|].
  pose proof Hcan as (_ & Hd & Hz). rewrite Forall_app, Forall_singleton in Hd.
  destruct Hd as [Hs Hc]. pose proof (digit_val_range _ Hc).
  cbn [dec_digits]. rewrite dec_value_snoc.
  destruct (decide (s = [])) as [->|Hne].
  { change (dec_value []) with 0. rewrite Z.mul_0_l, Z.add_0_l, decide_True by lia.
    by rewrite digit_digit_val. }
  assert (Hlen : (0 < length s)%nat) by (destruct s; [done|simpl; lia]).
  pose proof (canonical_pos _ Hcan ltac:(len_lia)) as Hpos.
  rewrite dec_value_snoc, length_app in Hpos. simpl in Hpos.
  assert (10 ^ 1 ≤ 10 ^ (Z.of_nat (length s + 1) - 1)) by (apply Z.pow_le_mono_r; lia).
  rewrite decide_False by lia.
  rewrite Z.div_add_l, Z.div_small, Z.add_0_r by lia.
  rewrite (Z.add_comm (_ * _)), Z.mod_add, Z.mod_small, digit_digit_val by lia.
  rewrite IH; [done| |lia].
  split_and!; [done..|]. intros Hl Hh. apply Hz; [len_lia|]. by destruct s.
Qed.

Lemma dec_digits_spec fuel v :
  0 ≤ v < 10 ^ Z.of_nat fuel → (0 < fuel)%nat →
  canonical (dec_digits fuel v) ∧ dec_value (dec_digits fuel v) = v ∧
  (1 ≤ v → head (dec_digits fuel v) ≠ Some "0"%byte).
Proof.
  revert v. induction fuel as [|fuel IH]; intros v Hv Hf; [lia|]. cbn [dec_digits].
  case_decide as Hs.
  - pose proof (digit_is_digit v ltac:(lia)). split_and!.
    + split_and!; [done|by apply Forall_singleton|simpl; lia].
    + unfold dec_value. simpl. by rewrite digit_val_digit by lia.
    + intros ? [= Heq]. apply (f_equal digit_val) in Heq.
      rewrite digit_val_digit in Heq by lia. change (digit_val _) with 0 in Heq at 1. lia.
  - rewrite Nat2Z.inj_succ, Z.pow_succ_r in Hv by lia.
    assert (Hdiv : 1 ≤ v / 10 < 10 ^ Z.of_nat fuel).
    { split; [apply Z.div_le_lower_bound; lia|apply Z.div_lt_upper_bound; lia]. }
    destruct fuel as [|fuel']; [simpl in Hv; lia|].
    destruct (IH (v / 10)) as ((Hne & Hd & Hz) & Hval & Hh); [lia..|].
    specialize (Hh ltac:(lia)). pose proof (Z.mod_pos_bound v 10 ltac:(lia)).
    pose proof (digit_is_digit (v mod 10) ltac:(lia)).
    assert (Hhd : head (dec_digits (S fuel') (v / 10) ++ [digit (v `mod` 10)]) ≠ Some "0"%byte).
    { by destruct (dec_digits (S fuel') (v / 10)). }
    split_and!.
    + split_and!; [by destruct (dec_digits (S fuel') (v / 10))| |done].
      apply Forall_app. split; [done|by apply Forall_singleton].
    + rewrite dec_value_snoc, Hval, digit_val_digit by lia. pose proof (Z.div_mod v 10). lia.
    + done.
Qed.

Lemma u64_lt_10_20 v : is_u64 v → 0 ≤ v < 10 ^ Z.of_nat 20.
Proof. unfold is_u64. change (10 ^ Z.of_nat 20) with 100000000000000000000. lia. Qed.

Lemma FormatUint_spec v :
  is_u64 v → canonical (FormatUint v) ∧ dec_value (FormatUint v) = v.
Proof.
  intros Hv. destruct (dec_digits_spec 20 v) as (?&?&_); [by apply u64_lt_10_20|lia|done].
Qed.

Lemma ParseUint_FormatUint v : is_u64 v → ParseUint (FormatUint v) = Some v.
Proof.
  intros Hv. destruct (FormatUint_spec v Hv) as [(?&?&_) Hval]. unfold ParseUint.
  rewrite Hval, decide_True; [done|]. destruct Hv. done.
Qed.

Lemma canonical_length s : canonical s → dec_value s < 2^64 → (length s ≤ 20)%nat.
Proof.
  intros Hc Hv. destruct (decide (1 < length s)%nat); [|lia].
  pose proof (canonical_pos s Hc ltac:(done)) as Hpos.
  destruct (decide (length s ≤ 20)%nat); [done|exfalso].
  assert (10 ^ 20 ≤ 10 ^ (len s - 1)) by (apply Z.pow_le_mono_r; lia). lia.
Qed.

(** The strict parser accepts the canonical decimal of each 64-bit value, and
    nothing else: no sign, no leading zero, no blank, no overflow. *)
Lemma parseStrictUint_iff s n :
  parseStrictUint s = Some n ↔ is_u64 n ∧ s = FormatUint n.
Proof.
  unfold parseStrictUint, ParseUint. split.
  - repeat case_decide; try done. intros [= <-]. destruct_and!.
    assert (canonical s) as Hcan.
    { split_and!; [done..|]. intros ? ?. auto. }
    split; [split; [by apply dec_value_bound|done]|].
    symmetry. apply dec_digits_canonical; [done|]. by apply canonical_length.
  - intros [Hn ->]. destruct (FormatUint_spec n Hn) as [(Hne & Hd & Hz) Hval].
    rewrite decide_False by done. rewrite decide_False by naive_solver.
    rewrite decide_True by done. rewrite Hval, decide_True; [done|]. destruct Hn. done.
Qed.

Lemma parseProducerInt_iff s n :
  parseProducerInt s = Some n ↔ 0 ≤ n < 2^53 ∧ s = FormatUint n.
Proof.
  unfold parseProducerInt. change maxJSInt with (2^53 - 1). split.
  - destruct (parseStrictUint s) as [m|] eqn:Hp; [|done]. apply parseStrictUint_iff in Hp.
    destruct Hp as [[??] ->]. case_decide; [done|]. intros [= ->]. split; [lia|done].
  - intros [Hn ->]. assert (Hp : parseStrictUint (FormatUint n) = Some n).
    { apply parseStrictUint_iff. split; [|done]. unfold is_u64. lia. }
    rewrite Hp, decide_False by lia. done.
Qed.

(** ** Properties *)

(** The integers of the protocol's headers are read strictly: a header value
    is accepted exactly when it is the canonical decimal form of a number in
    range (64 bits; below 2^53 for producer epochs and sequence numbers), so no
    two spellings mean the same number and nothing overflows. *)
Theorem header_integers_strict s n :
  (parseStrictUint s = Some n ↔ is_u64 n ∧ s = FormatUint n) ∧
  (parseProducerInt s = Some n ↔ 0 ≤ n < 2^53 ∧ s = FormatUint n).
Proof. split; [apply parseStrictUint_iff|apply parseProducerInt_iff]. Qed.
