(* ===== verification/Offset.v ===== *)
(** * Stream offsets (internal/ds/offset.go)

    The position of a reader, its fixed-width wire form, and the parser of the
    tokens clients send back. *)

From S2P Require Import Prelude.
From S2P Require Import Bytes.
From S2P Require Import Decimal.

Record Offset : Type := mkOffset { Seq : Z; Byte : Z }.

#[global] Instance Offset_eq_decision : EqDecision Offset.
Proof. solve_decision. Defined.

Definition offsetTokenLen : nat := 33.

(** The loop [for i := 15; i >= 0; i--] that fills a 16-byte buffer from its
    last byte: [acc] holds the bytes already written. *)
Fixpoint appendPad16_loop (i : nat) (v : Z) (acc : bytes) : bytes :=
  match i with
  | O => acc
  | S j => appendPad16_loop j (v / 10) (byte_of_Z (48 + v mod 10) :: acc)
  end.
Definition appendPad16 (dst : bytes) (v : Z) : bytes := dst ++ appendPad16_loop 16 v [].

Definition appendOffset (dst : bytes) (o : Offset) : bytes :=
  let dst := appendPad16 dst (Seq o) in
  let dst := dst ++ ["_"%byte] in
  appendPad16 dst (Byte o).

(** [Offset.String]. *)
Definition offset_String (o : Offset) : bytes := appendOffset [] o.

Definition tailOffset (nextSeq : Z) : Offset := {| Seq := nextSeq; Byte := 0 |}.

Record parsedOffset : Type := mkParsedOffset { off : Offset; isNow : bool }.

Definition sentinel_start : bytes := ["-"%byte; "1"%byte].
Definition sentinel_now : bytes := ["n"%byte; "o"%byte; "w"%byte].

Definition parseOffset (raw : bytes) : result parsedOffset :=
  if decide (raw = [] ∨ raw = sentinel_start)
  then Ok {| off := {| Seq := 0; Byte := 0 |}; isNow := false |}
  else if decide (raw = sentinel_now)
  then Ok {| off := {| Seq := 0; Byte := 0 |}; isNow := true |}
  else if decide (length raw ≠ offsetTokenLen ∨ raw !! 16%nat ≠ Some "_"%byte)
  then Err errBadOffset
  else
    let seqStr := take 16 raw in
    let byteStr := drop 17 raw in
    match ParseUint seqStr with
    | None => Err errBadOffset
    | Some seq =>
        match ParseUint byteStr with
        | None => Err errBadOffset
        | Some boff => Ok {| off := {| Seq := seq; Byte := boff |}; isNow := false |}
        end
    end.

(** The offsets whose two components fit in 16 decimal digits. *)
Definition offset_fits (o : Offset) : Prop :=
  0 ≤ Seq o < 10^16 ∧ 0 ≤ Byte o < 10^16.

(** The order of positions in a stream. *)
Definition offset_cmp (a b : Offset) : comparison :=
  match Seq a ?= Seq b with Eq => Byte a ?= Byte b | c => c end.

(** ** Lemmas *)

Definition pad16 (v : Z) : bytes := appendPad16_loop 16 v [].

Lemma appendPad16_loop_spec i v acc :
  0 ≤ v → ∃ s, appendPad16_loop i v acc = s ++ acc ∧ length s = i ∧
               Forall is_digit s ∧ dec_value s = v mod 10 ^ Z.of_nat i.
Proof.
  revert v acc. induction i as [|i IH]; intros v acc Hv.
  - exists []. simpl. by rewrite Z.mod_1_r.
  - cbn [appendPad16_loop].
    destruct (IH (v / 10) (byte_of_Z (48 + v `mod` 10) :: acc)) as (s & -> & Hl & Hd & Hval).
    { apply Z.div_pos; lia. }
    pose proof (Z.mod_pos_bound v 10 ltac:(lia)).
    exists (s ++ [digit (v mod 10)]). split_and!.
    + by rewrite <-app_assoc.
    + len_lia.
    + apply Forall_app. split; [done|]. apply Forall_singleton. by apply digit_is_digit.
    + rewrite dec_value_snoc, Hval, digit_val_digit by lia.
      rewrite Nat2Z.inj_succ, Z.pow_succ_r, Z.rem_mul_r by lia. lia.
Qed.

Lemma pad16_spec v :
  0 ≤ v → length (pad16 v) = 16%nat ∧ Forall is_digit (pad16 v) ∧
          dec_value (pad16 v) = v mod 10^16.
Proof.
  intros Hv. unfold pad16.
  destruct (appendPad16_loop_spec 16 v [] Hv) as (s & -> & ?&?&?). by rewrite app_nil_r.
Qed.

Lemma offset_String_layout o :
  offset_String o = pad16 (Seq o) ++ ["_"%byte] ++ pad16 (Byte o).
Proof. unfold offset_String, appendOffset, appendPad16. by rewrite <-app_assoc. Qed.

Lemma ParseUint_pad16 v : 0 ≤ v → ParseUint (pad16 v) = Some (v mod 10^16).
Proof.
  intros Hv. destruct (pad16_spec v Hv) as (Hl & Hd & Hval). unfold ParseUint.
  pose proof (Z.mod_pos_bound v (10^16) ltac:(lia)).
  rewrite Hval, decide_True; [done|]. split_and!; [|done|lia].
  intros Hnil. by rewrite Hnil in Hl.
Qed.

Lemma length_offset_String o :
  0 ≤ Seq o → 0 ≤ Byte o → length (offset_String o) = offsetTokenLen.
Proof.
  intros Hs Hb. rewrite offset_String_layout, !length_app.
  by destruct (pad16_spec _ Hs) as [-> _], (pad16_spec _ Hb) as [-> _].
Qed.

(** A string of 33 bytes is neither sentinel. *)
Lemma parseOffset_token a b :
  length a = 16%nat → length b = 16%nat →
  parseOffset (a ++ ["_"%byte] ++ b) =
  match ParseUint a, ParseUint b with
  | Some s, Some o => Ok {| off := {| Seq := s; Byte := o |}; isNow := false |}
  | _, _ => Err errBadOffset
  end.
Proof.
  intros Ha Hb. unfold parseOffset.
  assert (Hl : length (a ++ ["_"%byte] ++ b) = 33%nat) by len_lia.
  rewrite decide_False by (intros [H|H]; by rewrite H in Hl).
  rewrite decide_False by (intros H; by rewrite H in Hl).
  rewrite decide_False.
  2:{ intros [H|H]; [done|]. apply H. rewrite lookup_app_r, Ha by lia. done. }
  rewrite take_app_length_eq by done.
  rewrite (app_assoc a), drop_app_length_eq by len_lia.
  by destruct (ParseUint a), (ParseUint b).
Qed.

(** Parsing a minted token gives back its components modulo 10^16. *)
Lemma parseOffset_String_mod o :
  0 ≤ Seq o → 0 ≤ Byte o →
  parseOffset (offset_String o) =
  Ok {| off := {| Seq := Seq o mod 10^16; Byte := Byte o mod 10^16 |}; isNow := false |}.
Proof.
  intros Hs Hb. rewrite offset_String_layout, parseOffset_token;
    [|by apply pad16_spec..]. by rewrite !ParseUint_pad16.
Qed.

Lemma parseOffset_String o :
  offset_fits o → parseOffset (offset_String o) = Ok {| off := o; isNow := false |}.
Proof.
  intros [??]. rewrite parseOffset_String_mod by lia. rewrite !Z.mod_small by done.
  by destruct o.
Qed.

(** An accepted token that is not a sentinel is the wire form of the offset it
    denotes: every position has exactly one token. *)
Lemma parseOffset_canonical raw o :
  parseOffset raw = Ok {| off := o; isNow := false |} → raw ≠ [] → raw ≠ sentinel_start →
  raw = offset_String o ∧ offset_fits o.
Proof.
  intros Hp Hne Hst. unfold parseOffset in Hp.
  rewrite decide_False in Hp by naive_solver. case_decide; [done|].
  case_decide as Hlen; [done|].
  destruct (decide (length raw = offsetTokenLen)) as [Hl|]; [|tauto].
  destruct (decide (raw !! 16%nat = Some "_"%byte)) as [H16|]; [|tauto]. clear Hlen.
  unfold offsetTokenLen in Hl.
  destruct (ParseUint (take 16 raw)) as [s|] eqn:Es; [|done].
  destruct (ParseUint (drop 17 raw)) as [b|] eqn:Eb; [|done]. simplify_eq.
  unfold ParseUint in Es, Eb. case_decide as Hs; [|done]. case_decide as Hb; [|done].
  simplify_eq. destruct Hs as (_ & Hsd & _), Hb as (_ & Hbd & _).
  assert (Hfit : ∀ t, Forall is_digit t → length t = 16%nat →
    0 ≤ dec_value t < 10^16 ∧ pad16 (dec_value t) = t).
  { intros t Hd Hlt. pose proof (dec_value_bound t Hd) as Hv. rewrite Hlt in Hv.
    change (10 ^ Z.of_nat 16) with (10^16) in Hv. split; [done|].
    destruct (pad16_spec (dec_value t) ltac:(lia)) as (Hpl & Hpd & Hpv).
    apply dec_value_inj; [done..|congruence|]. rewrite Hpv. by apply Z.mod_small. }
  destruct (Hfit (take 16 raw)) as [? Hps]; [done|by rewrite length_take, Hl|].
  destruct (Hfit (drop 17 raw)) as [? Hpb]; [done|by rewrite length_drop, Hl|].
  split; [|done]. rewrite offset_String_layout. simpl Seq. simpl Byte. rewrite Hps, Hpb.
  change (["_"%byte] ++ drop 17 raw) with ("_"%byte :: drop 17 raw).
  by rewrite (take_drop_middle raw 16).
Qed.

(** Tokens sort as the positions they denote. *)
Lemma bytes_cmp_offset_String a b :
  offset_fits a → offset_fits b →
  bytes_cmp (offset_String a) (offset_String b) = offset_cmp a b.
Proof.
  intros [Ha1 Ha2] [Hb1 Hb2]. rewrite !offset_String_layout. unfold offset_cmp.
  destruct (pad16_spec (Seq a) ltac:(lia)) as (La & Da & Va).
  destruct (pad16_spec (Seq b) ltac:(lia)) as (Lb & Db & Vb).
  destruct (pad16_spec (Byte a) ltac:(lia)) as (Lc & Dc & Vc).
  destruct (pad16_spec (Byte b) ltac:(lia)) as (Ld & Dd & Vd).
  rewrite Z.mod_small in Va, Vb, Vc, Vd by done.
  rewrite bytes_cmp_app by congruence.
  rewrite bytes_cmp_dec_value, Va, Vb by congruence.
  destruct (Seq a ?= Seq b); [|done..].
  rewrite bytes_cmp_prefix, bytes_cmp_dec_value, Vc, Vd by congruence. done.
Qed.

(** ** Properties *)

(** Offset tokens are unambiguous: every position within 16 digits has
    exactly one token, and a token that is accepted (the sentinels apart) is that
    token. *)
Theorem offset_token_bijection o raw :
  offset_fits o → raw ≠ [] → raw ≠ sentinel_start →
  parseOffset raw = Ok {| off := o; isNow := false |} ↔ raw = offset_String o.
Proof.
  intros Ho Hne Hst. split; [by intros [-> _]%parseOffset_canonical|].
  intros ->. by apply parseOffset_String.
Qed.

(** Offset tokens compare as strings the way positions compare in the
    stream, as the protocol promises to clients. *)
Theorem offset_tokens_ordered a b :
  offset_fits a → offset_fits b →
  bytes_cmp (offset_String a) (offset_String b) = offset_cmp a b.
Proof. apply bytes_cmp_offset_String. Qed.

(** Past 10^16 the token of a position is that of another one: the padding
    keeps the low 16 digits. *)
Theorem offset_token_wraps o :
  0 ≤ Seq o → 0 ≤ Byte o →
  parseOffset (offset_String o) =
  Ok {| off := {| Seq := Seq o mod 10^16; Byte := Byte o mod 10^16 |}; isNow := false |}.
Proof. apply parseOffset_String_mod. Qed.

Lemma offset_token_bijection_witness :
  parseOffset (offset_String {| Seq := 12; Byte := 3 |})
    = Ok {| off := {| Seq := 12; Byte := 3 |}; isNow := false |}.
Proof.
  apply (offset_token_bijection {| Seq := 12; Byte := 3 |});
    [split; simpl; lia|by vm_compute|by vm_compute|done].
Defined.

Lemma offset_tokens_ordered_witness :
  bytes_cmp (offset_String {| Seq := 9; Byte := 0 |}) (offset_String {| Seq := 10; Byte := 0 |}) = Lt.
Proof.
  apply (offset_tokens_ordered {| Seq := 9; Byte := 0 |} {| Seq := 10; Byte := 0 |});
    split; simpl; lia.
Defined.

Lemma offset_token_wraps_witness :
  parseOffset (offset_String {| Seq := 10^16 + 5; Byte := 0 |})
    = Ok {| off := {| Seq := 5; Byte := 0 |}; isNow := false |}.
Proof. apply (offset_token_wraps {| Seq := 10^16 + 5; Byte := 0 |}); simpl; lia. Defined.
