(* ===== verification/Producer.v ===== *)
(** * Idempotent producers (internal/ds/producer.go)

    The validation of one append's Producer-* headers against the producer's
    persisted state, and what it guarantees over a producer's whole history:
    within an epoch the accepted sequence numbers are 0, 1, 2, ... with no gap
    and no repetition, and epochs only grow. *)

From S2P Require Import Prelude.
From S2P Require Import Bytes.
From S2P Require Import Meta.

Record producerHeaders : Type := mkProducerHeaders {
  ph_id : bytes;
  ph_epoch : Z;
  ph_seq : Z }.

#[global] Instance producerHeaders_eq_decision : EqDecision producerHeaders.
Proof. solve_decision. Defined.

Inductive producerActionKind : Type :=
| pAccept | pDuplicate | pStaleEpoch | pBadSeqStart | pGap.

#[global] Instance producerActionKind_eq_decision : EqDecision producerActionKind.
Proof. solve_decision. Defined.

Record producerAction : Type := mkProducerAction {
  kind : producerActionKind;
  newState : producerState;
  currentEpoch : Z;
  expectedSeq : Z;
  receivedSeq : Z }.

(** The zero value of [producerState], and actions as Go composite literals:
    the fields not named are zero. *)
Definition producerState0 : producerState :=
  {| epoch := 0; lastSeq := 0; closedBy := false |}.

Definition act_accept (st : producerState) : producerAction :=
  {| kind := pAccept; newState := st; currentEpoch := 0; expectedSeq := 0; receivedSeq := 0 |}.
Definition act_stale (e : Z) : producerAction :=
  {| kind := pStaleEpoch; newState := producerState0; currentEpoch := e;
     expectedSeq := 0; receivedSeq := 0 |}.
Definition act_gap (exp rcv : Z) : producerAction :=
  {| kind := pGap; newState := producerState0; currentEpoch := 0;
     expectedSeq := exp; receivedSeq := rcv |}.
Definition act_plain (k : producerActionKind) : producerAction :=
  {| kind := k; newState := producerState0; currentEpoch := 0;
     expectedSeq := 0; receivedSeq := 0 |}.

Definition validateProducer (st : producerState) (exists_ : bool) (h : producerHeaders)
  : producerAction :=
  if negb exists_ then
    if decide (ph_seq h ≠ 0) then act_gap 0 (ph_seq h)
    else act_accept {| epoch := ph_epoch h; lastSeq := 0; closedBy := false |}
  else if decide (ph_epoch h < epoch st) then act_stale (epoch st)
  else if decide (epoch st < ph_epoch h) then
    if decide (ph_seq h ≠ 0) then act_plain pBadSeqStart
    else act_accept {| epoch := ph_epoch h; lastSeq := 0; closedBy := false |}
  else if decide (ph_seq h ≤ lastSeq st) then act_plain pDuplicate
  else if decide (ph_seq h = u64 (lastSeq st + 1)) then
    act_accept {| epoch := ph_epoch h; lastSeq := ph_seq h; closedBy := false |}
  else act_gap (u64 (lastSeq st + 1)) (ph_seq h).

(** ** Reference: a producer's session

    The state a producer is entitled to next, as a relation on the accepted
    (epoch, seq) positions. *)
Definition position : Type := Z * Z.

(** [follows p q]: [q] is the only kind of position that may come after [p]. *)
Definition follows (p q : position) : Prop :=
  (q.1 = p.1 ∧ q.2 = p.2 + 1) ∨ (p.1 < q.1 ∧ q.2 = 0).

(** A legal history of accepted positions: it starts at sequence number 0 and
    each position follows the one before it. *)
Inductive session : list position → Prop :=
| session_nil : session []
| session_start e : session [(e, 0)]
| session_next ps p q : session (ps ++ [p]) → follows p q → session (ps ++ [p] ++ [q]).

(** Validate a sequence of requests of one producer id, keeping the state as the
    streamer does, and collect the accepted positions. *)
Definition producer_step (st : option producerState) (h : producerHeaders)
  : option producerState * bool :=
  let act := validateProducer (default producerState0 st) (bool_decide (is_Some st)) h in
  match kind act with
  | pAccept => (Some (newState act), true)
  | _ => (st, false)
  end.

Fixpoint producer_run (st : option producerState) (hs : list producerHeaders)
  : list position :=
  match hs with
  | [] => []
  | h :: hs' =>
      let '(st', acc) := producer_step st h in
      if acc then (ph_epoch h, ph_seq h) :: producer_run st' hs' else producer_run st' hs'
  end.

Definition wf_headers (h : producerHeaders) : Prop := is_u64 (ph_epoch h) ∧ is_u64 (ph_seq h).

(** ** Lemmas *)

(** The verdict on every branch, against a producer that has state. *)
Lemma validateProducer_existing st h :
  wf_producerState st → wf_headers h →
  let act := validateProducer st true h in
  match kind act with
  | pAccept => follows (epoch st, lastSeq st) (ph_epoch h, ph_seq h) ∧
               newState act = {| epoch := ph_epoch h; lastSeq := ph_seq h; closedBy := false |}
  | pDuplicate => ph_epoch h = epoch st ∧ ph_seq h ≤ lastSeq st
  | pStaleEpoch => ph_epoch h < epoch st ∧ currentEpoch act = epoch st
  | pBadSeqStart => epoch st < ph_epoch h ∧ ph_seq h ≠ 0
  | pGap => ph_epoch h = epoch st ∧ lastSeq st + 1 < ph_seq h ∧
            expectedSeq act = lastSeq st + 1 ∧ receivedSeq act = ph_seq h
  end.
Proof.
  intros [_ Hst] [_ Hh]. unfold validateProducer, is_u64 in *. cbn [negb].
  repeat case_decide; simpl; unfold follows; simpl; try lia.
  - split; [lia|]. f_equal. lia.
  - rewrite u64_small in * by (unfold is_u64; lia). split; [lia|]. done.
  - rewrite u64_small in * by (unfold is_u64; lia). lia.
Qed.

Lemma validateProducer_fresh st h :
  let act := validateProducer st false h in
  if decide (ph_seq h = 0)
  then kind act = pAccept ∧
       newState act = {| epoch := ph_epoch h; lastSeq := 0; closedBy := false |}
  else kind act = pGap ∧ expectedSeq act = 0 ∧ receivedSeq act = ph_seq h.
Proof. unfold validateProducer. simpl. repeat case_decide; naive_solver. Qed.

(** An accepted request is a duplicate from then on. *)
Lemma validateProducer_retry st ex h :
  wf_producerState st → wf_headers h →
  kind (validateProducer st ex h) = pAccept →
  kind (validateProducer (newState (validateProducer st ex h)) true h) = pDuplicate.
Proof.
  intros Hst Hh Hacc. assert (Hn : newState (validateProducer st ex h) =
    {| epoch := ph_epoch h; lastSeq := ph_seq h; closedBy := false |}).
  { destruct ex.
    - pose proof (validateProducer_existing st h Hst Hh) as Hv. simpl in Hv.
      rewrite Hacc in Hv. by destruct Hv.
    - pose proof (validateProducer_fresh st h) as Hv. simpl in Hv. case_decide as Hz.
      + destruct Hv as [_ ->]. by rewrite Hz.
      + destruct Hv as [Hk _]. congruence. }
  rewrite Hn. unfold validateProducer. cbn [negb]. simpl.
  rewrite !decide_False by lia. by rewrite decide_True by lia.
Qed.

Lemma producer_step_Some st h st' :
  wf_headers h → from_option wf_producerState True st →
  producer_step st h = (st', true) →
  st' = Some {| epoch := ph_epoch h; lastSeq := ph_seq h; closedBy := false |} ∧
  match st with
  | None => ph_seq h = 0
  | Some s => follows (epoch s, lastSeq s) (ph_epoch h, ph_seq h)
  end.
Proof.
  unfold producer_step. intros Hh Hst. destruct st as [s|]; simpl.
  - pose proof (validateProducer_existing s h Hst Hh) as Hv. simpl in Hv.
    destruct (kind _); try done. intros [= <-]. destruct Hv as [? ->]. done.
  - pose proof (validateProducer_fresh producerState0 h) as Hv. simpl in Hv.
    case_decide as Hz; destruct Hv as [-> Hv]; [|done].
    intros [= <-]. rewrite Hv, Hz. done.
Qed.

Lemma producer_step_false st h st' : producer_step st h = (st', false) → st' = st.
Proof. unfold producer_step. destruct (kind _); congruence. Qed.

(** From a state reached after accepting [p], every run continues the session. *)
Lemma producer_run_follows hs ps p s :
  Forall wf_headers hs → wf_producerState s → p = (epoch s, lastSeq s) →
  session (ps ++ [p]) → session (ps ++ [p] ++ producer_run (Some s) hs).
Proof.
  revert ps p s. induction hs as [|h hs IH]; intros ps p s Hhs Hs Hp Hses;
    [by rewrite app_nil_r|].
  inversion_clear Hhs as [|?? Hh Hhs']. cbn [producer_run].
  destruct (producer_step (Some s) h) as [st' [|]] eqn:Hstep.
  - apply producer_step_Some in Hstep as [-> Hf]; [|done..].
    pose proof (session_next _ _ _ Hses ltac:(rewrite Hp; exact Hf)) as Hses'.
    rewrite app_assoc in Hses'.
    pose proof (IH _ _ {| epoch := ph_epoch h; lastSeq := ph_seq h; closedBy := false |}
                  Hhs' Hh eq_refl Hses') as Hgoal.
    rewrite <-!app_assoc in Hgoal. exact Hgoal.
  - apply producer_step_false in Hstep as ->. by apply IH.
Qed.

Lemma producer_run_session hs : Forall wf_headers hs → session (producer_run None hs).
Proof.
  induction hs as [|h hs IH]; intros Hhs; [constructor|].
  inversion_clear Hhs as [|?? Hh Hhs']. cbn [producer_run].
  destruct (producer_step None h) as [st' [|]] eqn:Hstep.
  - apply producer_step_Some in Hstep as [-> Hz]; [|done..]. rewrite Hz.
    pose proof (producer_run_follows hs [] (ph_epoch h, 0)
      {| epoch := ph_epoch h; lastSeq := ph_seq h; closedBy := false |} Hhs' Hh) as Hf.
    simpl in Hf. rewrite Hz in Hf. apply Hf; [done|constructor].
  - apply producer_step_false in Hstep as ->. auto.
Qed.

(** The strict order on positions in which a session advances. *)
Definition pos_lt (p q : position) : Prop := p.1 < q.1 ∨ (p.1 = q.1 ∧ p.2 < q.2).

Lemma session_sorted ps : session ps → StronglySorted pos_lt ps.
Proof.
  induction 1 as [|e|ps p q Hs IH Hf]; [constructor|by repeat constructor|].
  assert (Hpq : pos_lt p q) by (destruct Hf; unfold pos_lt; lia).
  rewrite app_assoc. apply StronglySorted_app_2; [|done|by repeat constructor].
  intros x y Hx ->%list_elem_of_singleton.
  apply elem_of_app in Hx as [Hx| ->%list_elem_of_singleton]; [|done].
  pose proof (StronglySorted_app_1_elem_of _ _ _ x p IH Hx ltac:(by constructor)).
  unfold pos_lt in *. lia.
Qed.

Lemma session_NoDup ps : session ps → NoDup ps.
Proof.
  intros Hs%session_sorted. induction Hs as [|p ps Hs IH Hall]; constructor; [|done].
  intros Hin. rewrite Forall_forall in Hall. specialize (Hall p Hin).
  unfold pos_lt in Hall. lia.
Qed.

(** ** Properties *)

(** A producer's accepted appends form a session: within an epoch the
    accepted sequence numbers are 0, 1, 2, ... without gap or repetition, epochs
    only grow, and no position is accepted twice, whatever the producer sends. *)
Theorem producer_accepts_session hs :
  Forall wf_headers hs →
  session (producer_run None hs) ∧ NoDup (producer_run None hs) ∧
  StronglySorted pos_lt (producer_run None hs).
Proof.
  intros Hhs. pose proof (producer_run_session hs Hhs).
  split_and!; [done|by apply session_NoDup|by apply session_sorted].
Qed.

(** The verdict on a producer's request, on every branch: accepted exactly
    for the next number of the epoch or the start of a later one, a repetition is
    a duplicate, an older epoch is fenced, and the numbers reported in a refusal
    are the expected and the received one. *)
Theorem validateProducer_verdict st h :
  wf_producerState st → wf_headers h →
  let act := validateProducer st true h in
  match kind act with
  | pAccept => follows (epoch st, lastSeq st) (ph_epoch h, ph_seq h) ∧
               newState act = {| epoch := ph_epoch h; lastSeq := ph_seq h; closedBy := false |}
  | pDuplicate => ph_epoch h = epoch st ∧ ph_seq h ≤ lastSeq st
  | pStaleEpoch => ph_epoch h < epoch st ∧ currentEpoch act = epoch st
  | pBadSeqStart => epoch st < ph_epoch h ∧ ph_seq h ≠ 0
  | pGap => ph_epoch h = epoch st ∧ lastSeq st + 1 < ph_seq h ∧
            expectedSeq act = lastSeq st + 1 ∧ receivedSeq act = ph_seq h
  end.
Proof. apply validateProducer_existing. Qed.

Lemma producer_accepts_session_witness :
  session (producer_run None
    [{| ph_id := []; ph_epoch := 0; ph_seq := 0 |}; {| ph_id := []; ph_epoch := 0; ph_seq := 1 |};
     {| ph_id := []; ph_epoch := 0; ph_seq := 1 |}; {| ph_id := []; ph_epoch := 2; ph_seq := 0 |}]).
Proof.
  apply (producer_accepts_session
    [{| ph_id := []; ph_epoch := 0; ph_seq := 0 |}; {| ph_id := []; ph_epoch := 0; ph_seq := 1 |};
     {| ph_id := []; ph_epoch := 0; ph_seq := 1 |}; {| ph_id := []; ph_epoch := 2; ph_seq := 0 |}]).
  repeat (constructor; [split; unfold is_u64; simpl; lia|]). constructor.
Defined.

Lemma validateProducer_verdict_witness :
  follows (3, 4) (3, 5).
Proof.
  apply (validateProducer_verdict {| epoch := 3; lastSeq := 4; closedBy := false |}
           {| ph_id := []; ph_epoch := 3; ph_seq := 5 |}); split; unfold is_u64; simpl; lia.
Defined.
