(* ===== verification/ContigWatermark.v ===== *)
(** * The contiguous watermark (internal/ds/contigwatermark.go)

    [contigWatermark] folds out-of-order completions into the largest N such
    that 1..N are all complete. The specification is stated against the set of
    every sequence number ever marked, which the implementation does not keep. *)

From S2P Require Import Prelude.

Record contigWatermark : Type := mkContigWatermark {
  cw_set : gset Z;
  cw_value : Z }.

Definition newContigWatermark : contigWatermark := {| cw_set := ∅; cw_value := 0 |}.

(** The loop [for { if _, ok := w.set[v+1]; !ok { break }; delete(w.set, v+1); v++ }].
    Every iteration deletes an element, so [size s] iterations are enough. *)
Fixpoint mark_loop (fuel : nat) (v : Z) (s : gset Z) : Z * gset Z :=
  match fuel with
  | O => (v, s)
  | S n =>
      if decide (u64 (v + 1) ∈ s)
      then mark_loop n (u64 (v + 1)) (s ∖ {[ u64 (v + 1) ]})
      else (v, s)
  end.

Definition mark (w : contigWatermark) (seqs : list Z) : contigWatermark :=
  let s := foldl (λ s sq, {[ sq ]} ∪ s) (cw_set w) seqs in
  let '(v, s) := mark_loop (size s) (cw_value w) s in
  {| cw_set := s; cw_value := v |}.

Definition get (w : contigWatermark) : Z := cw_value w.

(** ** Specification *)

(** [v] is the largest contiguous prefix of [M]. *)
Definition prefix_of_set (M : gset Z) (v : Z) : Prop :=
  0 ≤ v ∧ (∀ x, 1 ≤ x ≤ v → x ∈ M) ∧ v + 1 ∉ M.

(** The sequence numbers a store hands out: positive 64-bit words. *)
Definition seqs_ok (M : gset Z) : Prop := ∀ x, x ∈ M → 1 ≤ x < 2^64.

(** The representation invariant, against the set [M] of all marks so far. *)
Definition cw_repr (w : contigWatermark) (M : gset Z) : Prop :=
  seqs_ok M ∧ prefix_of_set M (cw_value w) ∧ cw_set w ⊆ M ∧
  ∀ x, x ∈ M → x ∈ cw_set w ∨ x ≤ cw_value w.

(** ** Lemmas *)

Lemma prefix_of_set_unique M v1 v2 : prefix_of_set M v1 → prefix_of_set M v2 → v1 = v2.
Proof.
  intros (?&H1&N1) (?&H2&N2). destruct (Z.lt_trichotomy v1 v2) as [Hlt|[?|Hlt]]; [|done|].
  - destruct N1. apply H2. lia.
  - destruct N2. apply H1. lia.
Qed.

Lemma prefix_of_set_u64 M v : seqs_ok M → prefix_of_set M v → is_u64 v.
Proof.
  intros Hok (?&H&_). unfold is_u64. destruct (decide (v = 0)) as [->|]; [lia|].
  specialize (Hok v (H v ltac:(lia))). lia.
Qed.

(** The loop invariant: what is still missing from the prefix is in the set. *)
Definition loop_inv (M : gset Z) (v : Z) (s : gset Z) : Prop :=
  0 ≤ v < 2^64 ∧ (∀ x, 1 ≤ x ≤ v → x ∈ M) ∧ s ⊆ M ∧ ∀ x, x ∈ M → x ∈ s ∨ x ≤ v.

Lemma mark_loop_inv fuel M v s :
  seqs_ok M → (size s ≤ fuel)%nat → loop_inv M v s →
  let '(v', s') := mark_loop fuel v s in
  v ≤ v' ∧ loop_inv M v' s' ∧ v' + 1 ∉ M.
Proof.
  intros Hok. revert v s. induction fuel as [|n IH]; intros v s Hf Hinv; cbn [mark_loop].
  - assert (s = ∅) as -> by (apply leibniz_equiv, size_empty_inv; lia).
    split_and!; [lia|done|]. destruct Hinv as (_&_&_&H). intros Hin.
    destruct (H _ Hin); [set_solver|lia].
  - destruct Hinv as (Hv & Hpre & Hsub & Hall). case_decide as Hin.
    + assert (Hu : u64 (v + 1) = v + 1).
      { apply u64_small. specialize (Hok _ (Hsub _ Hin)).
        destruct (decide (v + 1 = 2^64)) as [E|]; [|unfold is_u64; lia].
        rewrite E in Hok. change (u64 (2^64)) with 0 in Hok. lia. }
      rewrite Hu in *.
      specialize (IH (v + 1) (s ∖ {[v + 1]})).
      destruct (mark_loop n (v + 1) (s ∖ {[v + 1]})) as [v' s'].
      destruct IH as (?&?&?).
      * assert (Hlt : s ∖ {[v + 1]} ⊂ s) by set_solver.
        apply subset_size in Hlt. lia.
      * specialize (Hok _ (Hsub _ Hin)). split_and!; [lia|lia| | |].
        -- intros x Hx. destruct (decide (x = v + 1)) as [->|]; [by apply Hsub|].
           apply Hpre. lia.
        -- set_solver.
        -- intros x Hx. destruct (Hall x Hx) as [Hs|]; [|right; lia].
           destruct (decide (x = v + 1)) as [->|]; [right; lia|left; set_solver].
      * split; [lia|]. by split.
    + split; [lia|]. split; [exact (conj Hv (conj Hpre (conj Hsub Hall)))|]. intros HM. specialize (Hok _ HM).
      rewrite u64_small in Hin by (unfold is_u64; lia).
      destruct (Hall _ HM); [done|lia].
Qed.

Lemma foldl_insert_set (s : gset Z) (seqs : list Z) :
  foldl (λ s sq, {[ sq ]} ∪ s) s seqs = list_to_set seqs ∪ s.
Proof.
  revert s. induction seqs as [|x seqs IH]; intros s; simpl; [set_solver|].
  rewrite IH. set_solver.
Qed.

Lemma newContigWatermark_repr : cw_repr newContigWatermark ∅.
Proof.
  split_and!; [by intros ?|split_and!; simpl; [lia|lia|set_solver]|done|set_solver].
Qed.

(** [mark] implements "add to the set of marks, report the contiguous prefix". *)
Lemma mark_repr w M seqs :
  cw_repr w M → seqs_ok (list_to_set seqs) →
  cw_repr (mark w seqs) (list_to_set seqs ∪ M) ∧ cw_value w ≤ cw_value (mark w seqs).
Proof.
  intros (Hok & Hpre & Hsub & Hall) Hs. unfold mark. rewrite foldl_insert_set.
  assert (Hok' : seqs_ok (list_to_set seqs ∪ M)).
  { intros x [?|?]%elem_of_union; auto. }
  pose proof (prefix_of_set_u64 _ _ Hok Hpre) as Hu.
  pose proof (mark_loop_inv _ (list_to_set seqs ∪ M) (cw_value w)
                (list_to_set seqs ∪ cw_set w) Hok' (le_n _)) as Hloop.
  destruct (mark_loop _ _ _) as [v s].
  destruct Hloop as (Hle & (Hv & Hp & Hsub' & Hall') & Hstop).
  { destruct Hpre as (?&Hpre&_). split_and!; [done|apply Hu|set_solver| |].
    - set_solver.
    - intros x [?|Hx]%elem_of_union; [set_solver|]. destruct (Hall x Hx); [set_solver|by right]. }
  split; [|done]. split_and!; [done| |done|done]. split_and!; simpl; [lia|done|done].
Qed.

(** The sequence of calls [mark b1; mark b2; ...] from a new watermark. *)
Definition mark_all (bs : list (list Z)) : contigWatermark := foldl mark newContigWatermark bs.

Lemma foldl_mark_repr w M bs :
  cw_repr w M → seqs_ok (list_to_set (concat bs)) →
  cw_repr (foldl mark w bs) (list_to_set (concat bs) ∪ M).
Proof.
  revert w M. induction bs as [|b bs IH]; intros w M Hw Hs; simpl in *.
  - by rewrite (left_id_L ∅ (∪)).
  - rewrite list_to_set_app_L in *.
    destruct (mark_repr w M b Hw) as [Hw' _]; [intros x ?; apply Hs; set_solver|].
    specialize (IH _ _ Hw' ltac:(intros x ?; apply Hs; set_solver)).
    replace (list_to_set b ∪ list_to_set (concat bs) ∪ M)
      with (list_to_set (concat bs) ∪ (list_to_set b ∪ M)) by set_solver. done.
Qed.

Lemma mark_all_spec bs :
  seqs_ok (list_to_set (concat bs)) →
  prefix_of_set (list_to_set (concat bs)) (get (mark_all bs)).
Proof.
  intros Hs. destruct (foldl_mark_repr _ _ bs newContigWatermark_repr Hs) as (_ & Hp & _).
  rewrite (right_id_L ∅ (∪)) in Hp. done.
Qed.

(** The watermark depends on what was marked, not on the order or the grouping. *)
Lemma mark_all_Permutation bs cs :
  seqs_ok (list_to_set (concat bs)) → concat bs ≡ₚ concat cs →
  get (mark_all bs) = get (mark_all cs).
Proof.
  intros Hs Hp. assert (Heq : list_to_set (C := gset Z) (concat bs) = list_to_set (concat cs))
    by (by apply leibniz_equiv, list_to_set_perm).
  eapply prefix_of_set_unique; [by apply mark_all_spec|].
  rewrite Heq in *. by apply mark_all_spec.
Qed.

(** ** Properties *)

(** C36: after any calls of [mark], in any order and any grouping, the watermark
    is the length of the contiguous prefix of everything marked: all sequence
    numbers up to it have been marked and the next one has not. *)
Theorem watermark_is_contiguous_prefix bs :
  seqs_ok (list_to_set (concat bs)) →
  prefix_of_set (list_to_set (concat bs)) (get (mark_all bs)) ∧
  (∀ cs, concat bs ≡ₚ concat cs → get (mark_all bs) = get (mark_all cs)).
Proof.
  intros Hs. split; [by apply mark_all_spec|]. intros. by apply mark_all_Permutation.
Qed.

Lemma watermark_is_contiguous_prefix_witness :
  prefix_of_set (list_to_set [2; 3; 1; 7]) (get (mark_all [[2; 3]; [1]; [7]])).
Proof.
  apply (watermark_is_contiguous_prefix [[2; 3]; [1]; [7]]).
  intros x. simpl. rewrite !elem_of_union, !elem_of_singleton, elem_of_empty. lia.
Defined.
