(* ===== verification/Storage.v ===== *)
(** * The persistence boundary (internal/ds/storage.go)

    [Storage] is the program's interface to its storage engine: point reads,
    atomic write batches, ordered range scans and the durable watermark. The
    operations are a type class; [StorageLaws] is what the program relies on,
    stated against an abstract view of the engine: a finite map from keys to
    values. Two instances: [fakeStore], the in-memory backend of the test suite
    (internal/ds/fakestore_test.go), and [faultyStore], the same map behind
    failing reads and writes. Every theorem about the engine is proved against
    the interface. *)

From S2P Require Import Prelude.
From S2P Require Import Bytes.

(** ** Mutations *)

Record Op : Type := mkOp { op_key : bytes; op_val : bytes; op_del : bool }.

#[global] Instance Op_eq_decision : EqDecision Op.
Proof. solve_decision. Defined.

(** The composite literals [Op{Key: k, Val: v}] and [Op{Key: k, Del: true}]. *)
Definition PutOp (k v : bytes) : Op := {| op_key := k; op_val := v; op_del := false |}.
Definition DelOp (k : bytes) : Op := {| op_key := k; op_val := []; op_del := true |}.

(** The effect of a batch on the contents of a store, in order. *)
Definition apply_op (m : gmap bytes bytes) (o : Op) : gmap bytes bytes :=
  if op_del o then delete (op_key o) m else <[op_key o := op_val o]> m.
Definition apply_ops (m : gmap bytes bytes) (ops : list Op) : gmap bytes bytes :=
  foldl apply_op m ops.

(** ** Scans *)

Definition kv : Type := bytes * bytes.

Definition kv_le (a b : kv) : Prop := bytes_le a.1 b.1.
#[global] Instance kv_le_dec : RelDecision kv_le.
Proof. intros a b. unfold kv_le. apply _. Defined.

Definition kv_lt (a b : kv) : Prop := bytes_lt a.1 b.1.

(** The entries of [m] in a half-open key range, in key order. *)
Definition range_items (m : gmap bytes bytes) (lo : bytes) (hi : option bytes) : list kv :=
  merge_sort kv_le (filter (λ p, in_range lo hi p.1) (map_to_list m)).

(** A forward iterator: the entries it will still deliver, then end of range or
    an error. *)
Record Iterator : Type := mkIterator { it_items : list kv; it_err : option error }.

Definition Next (it : Iterator) : result (option kv) * Iterator :=
  match it_items it with
  | p :: rest => (Ok (Some p), {| it_items := rest; it_err := it_err it |})
  | [] => (match it_err it with Some e => Err e | None => Ok None end, it)
  end.

(** ** The interface *)

Class Storage (S : Type) := {
  store_Get : S → bytes → result (option bytes);
  store_Commit : S → list Op → bool → S * option error;
  store_CommitAsync : S → list Op → S * result Z;
  store_DurableSeq : S → result Z;
  store_Scan : S → bytes → option bytes → result Iterator }.

(** What the program relies on. A batch is atomic whether or not its error is
    nil; a read that succeeds returns the current contents; a scan that is not
    cut short by an error delivers its whole range in key order. [healthy] is a
    store none of whose reads and writes fails. *)
Class StorageLaws (S : Type) `{Storage S} := {
  view : S → gmap bytes bytes;
  healthy : S → Prop;
  Get_view s k r : store_Get s k = Ok r → r = view s !! k;
  Commit_ok s ops d s' :
    store_Commit s ops d = (s', None) → view s' = apply_ops (view s) ops;
  Commit_atomic s ops d s' e :
    store_Commit s ops d = (s', Some e) →
    view s' = view s ∨ view s' = apply_ops (view s) ops;
  CommitAsync_ok s ops s' q :
    store_CommitAsync s ops = (s', Ok q) → view s' = apply_ops (view s) ops;
  CommitAsync_atomic s ops s' e :
    store_CommitAsync s ops = (s', Err e) →
    view s' = view s ∨ view s' = apply_ops (view s) ops;
  Scan_view s lo hi it :
    store_Scan s lo hi = Ok it →
    it_items it `prefix_of` range_items (view s) lo hi ∧
    (it_err it = None → it_items it = range_items (view s) lo hi);
  healthy_Get s k : healthy s → ∃ r, store_Get s k = Ok r;
  healthy_Scan s lo hi :
    healthy s → ∃ it, store_Scan s lo hi = Ok it ∧ it_err it = None;
  healthy_Commit s ops d :
    healthy s → ∃ s', store_Commit s ops d = (s', None) ∧ healthy s' }.

#[local] Obligation Tactic := idtac.

(** ** [fakeStore]: the in-memory backend *)

Record fakeStore : Type := mkFakeStore {
  fake_data : gmap bytes bytes;
  fake_seq : Z;
  fake_closed : bool }.

Definition newFakeStore : fakeStore :=
  {| fake_data := ∅; fake_seq := 0; fake_closed := false |}.

Definition fake_apply (f : fakeStore) (ops : list Op) : fakeStore * Z :=
  let seq := u64 (fake_seq f + 1) in
  ({| fake_data := apply_ops (fake_data f) ops; fake_seq := seq;
      fake_closed := fake_closed f |}, seq).

Definition fake_Get (f : fakeStore) (key : bytes) : result (option bytes) :=
  Ok (fake_data f !! key).
Definition fake_Commit (f : fakeStore) (ops : list Op) (_ : bool)
  : fakeStore * option error := (fst (fake_apply f ops), None).
Definition fake_CommitAsync (f : fakeStore) (ops : list Op) : fakeStore * result Z :=
  let '(f', seq) := fake_apply f ops in (f', Ok seq).
Definition fake_DurableSeq (f : fakeStore) : result Z :=
  if fake_closed f then Err errStoreClosed else Ok (fake_seq f).
Definition fake_Scan (f : fakeStore) (start : bytes) (end_ : option bytes)
  : result Iterator :=
  Ok {| it_items := range_items (fake_data f) start end_; it_err := None |}.

#[global] Instance fakeStore_storage : Storage fakeStore := {|
  store_Get := fake_Get; store_Commit := fake_Commit;
  store_CommitAsync := fake_CommitAsync; store_DurableSeq := fake_DurableSeq;
  store_Scan := fake_Scan |}.

#[global] Program Instance fakeStore_laws : StorageLaws fakeStore := {|
  view := fake_data; healthy := λ _, True |}.
Next Obligation. by intros ??? [= <-]. Qed.
Next Obligation. by intros ???? [= <-]. Qed.
Next Obligation. done. Qed.
Next Obligation. by intros ???? [= <- _]. Qed.
Next Obligation. done. Qed.
Next Obligation. by intros ???? [= <-]. Qed.
Next Obligation. intros. by eexists. Qed.
Next Obligation. intros. by eexists. Qed.
Next Obligation. intros. by eexists. Qed.

(** ** [faultyStore]: the same contents behind an engine that fails

    Reads of the keys in [bad_get] fail; when [bad_commit] is set, a write fails
    and either applied nothing or applied everything ([torn]). *)

Record faultyStore : Type := mkFaultyStore {
  faulty_data : gmap bytes bytes;
  bad_get : list bytes;
  bad_commit : bool;
  torn : bool }.

Definition faulty_write (f : faultyStore) (ops : list Op) : faultyStore * option error :=
  let applied := {| faulty_data := apply_ops (faulty_data f) ops; bad_get := bad_get f;
                    bad_commit := bad_commit f; torn := torn f |} in
  if bad_commit f then (if torn f then applied else f, Some (errStorage 1))
  else (applied, None).

#[global] Instance faultyStore_storage : Storage faultyStore := {|
  store_Get f k :=
    if decide (k ∈ bad_get f) then Err (errStorage 0) else Ok (faulty_data f !! k);
  store_Commit f ops _ := faulty_write f ops;
  store_CommitAsync f ops :=
    match faulty_write f ops with
    | (f', None) => (f', Ok 1) | (f', Some e) => (f', Err e)
    end;
  store_DurableSeq f := Ok 1;
  store_Scan f lo hi :=
    Ok {| it_items := range_items (faulty_data f) lo hi; it_err := None |} |}.

#[global] Program Instance faultyStore_laws : StorageLaws faultyStore := {|
  view := faulty_data; healthy f := bad_get f = [] ∧ bad_commit f = false |}.
Next Obligation. intros f k r. simpl. case_decide; [done|]. by intros [= <-]. Qed.
Next Obligation.
  intros f ops d f'. simpl. unfold faulty_write.
  destruct (bad_commit f), (torn f); simpl; intros; by simplify_eq.
Qed.
Next Obligation.
  intros f ops d f' e. simpl. unfold faulty_write.
  destruct (bad_commit f), (torn f); simpl; intros; simplify_eq; auto.
Qed.
Next Obligation.
  intros f ops f' q. simpl. unfold faulty_write.
  destruct (bad_commit f), (torn f); simpl; intros; by simplify_eq.
Qed.
Next Obligation.
  intros f ops f' e. simpl. unfold faulty_write.
  destruct (bad_commit f), (torn f); simpl; intros; simplify_eq; auto.
Qed.
Next Obligation. by intros ???? [= <-]. Qed.
Next Obligation. intros f k [Hb _]. simpl. rewrite Hb, decide_False by set_solver. eauto. Qed.
Next Obligation. intros. by eexists. Qed.
Next Obligation.
  intros f ops d [Hb Hc]. simpl. unfold faulty_write. rewrite Hc. by eexists.
Qed.

(** ** Lemmas: batches *)

Lemma apply_ops_app m a b : apply_ops m (a ++ b) = apply_ops (apply_ops m a) b.
Proof. apply foldl_app. Qed.

Lemma apply_ops_cons m o ops : apply_ops m (o :: ops) = apply_ops (apply_op m o) ops.
Proof. done. Qed.

Lemma apply_op_lookup_ne m o k : op_key o ≠ k → apply_op m o !! k = m !! k.
Proof.
  intros. unfold apply_op. destruct (op_del o); [by apply lookup_delete_ne|].
  by apply lookup_insert_ne.
Qed.

(** A batch leaves the keys it does not name alone. *)
Lemma apply_ops_lookup_ne m ops k :
  Forall (λ o, op_key o ≠ k) ops → apply_ops m ops !! k = m !! k.
Proof.
  revert m. induction ops as [|o ops IH]; intros m Hf; [done|].
  inversion_clear Hf. rewrite apply_ops_cons, IH by done. by apply apply_op_lookup_ne.
Qed.

(** The last operation on a key decides its value. *)
Lemma apply_ops_lookup_last m a o b k :
  op_key o = k → Forall (λ o, op_key o ≠ k) b →
  apply_ops m (a ++ o :: b) !! k = if op_del o then None else Some (op_val o).
Proof.
  intros <- Hb. rewrite apply_ops_app, apply_ops_cons, apply_ops_lookup_ne by done.
  unfold apply_op. destruct (op_del o); [apply lookup_delete_eq|apply lookup_insert_eq].
Qed.

(** ** Lemmas: ranges *)

Lemma elem_of_range_items m lo hi k v :
  (k, v) ∈ range_items m lo hi ↔ m !! k = Some v ∧ in_range lo hi k.
Proof.
  unfold range_items. rewrite merge_sort_Permutation, list_elem_of_filter, elem_of_map_to_list.
  simpl. naive_solver.
Qed.

#[global] Instance kv_le_transitive : Transitive kv_le.
Proof. intros a b c. unfold kv_le. apply bytes_le_transitive. Qed.
#[global] Instance kv_le_total : Total kv_le.
Proof. intros a b. unfold kv_le. apply bytes_le_total. Qed.

Lemma NoDup_range_items m lo hi : NoDup (range_items m lo hi).*1.
Proof.
  unfold range_items. rewrite merge_sort_Permutation.
  apply (NoDup_fmap_fst (filter _ _)).
  - intros x y1 y2. rewrite !list_elem_of_filter, !elem_of_map_to_list.
    intros [_ H1] [_ H2]. congruence.
  - apply NoDup_filter, NoDup_map_to_list.
Qed.

Lemma StronglySorted_le_lt (l : list kv) :
  StronglySorted kv_le l → NoDup l.*1 → StronglySorted kv_lt l.
Proof.
  induction 1 as [|p l Hs IH Hall]; intros Hnd; constructor; inversion_clear Hnd as [|?? Hn Hnd'].
  - auto.
  - rewrite Forall_forall in *. intros q Hq. specialize (Hall q Hq).
    unfold kv_le, kv_lt in *. rewrite bytes_le_lteq in Hall.
    destruct Hall as [|Heq]; [done|]. destruct Hn. rewrite Heq.
    by apply list_elem_of_fmap_2.
Qed.

Lemma range_items_sorted m lo hi : StronglySorted kv_lt (range_items m lo hi).
Proof.
  apply StronglySorted_le_lt; [|apply NoDup_range_items].
  apply StronglySorted_merge_sort; apply _.
Qed.

Lemma StronglySorted_kv_lt_NoDup (l : list kv) : StronglySorted kv_lt l → NoDup l.
Proof.
  induction 1 as [|p l Hs IH Hall]; constructor; [|done].
  intros Hin. rewrite Forall_forall in Hall. exact (irreflexivity bytes_lt _ (Hall p Hin)).
Qed.

(** A strictly sorted list with the right entries is the range. *)
Lemma range_items_unique m lo hi l :
  StronglySorted kv_lt l →
  (∀ k v, (k, v) ∈ l ↔ m !! k = Some v ∧ in_range lo hi k) →
  range_items m lo hi = l.
Proof.
  intros Hs Hl. apply (StronglySorted_unique_strong kv_lt).
  - intros p q _ _ H1 H2. exfalso. unfold kv_lt in *.
    exact (irreflexivity bytes_lt _ (transitivity H1 H2)).
  - apply range_items_sorted.
  - done.
  - apply NoDup_Permutation; [by eapply StronglySorted_kv_lt_NoDup, range_items_sorted|
                              by apply StronglySorted_kv_lt_NoDup|].
    intros [k v]. by rewrite elem_of_range_items, Hl.
Qed.
