(* ===== verification/Loads.v ===== *)
(** * Metadata loads (internal/ds/server.go, fork.go)

    The typed reads the server makes of the shared keyspace, and the
    representation predicates that tie the bytes in the store to the values
    they stand for: [keys_wf] (every key belongs to a family) and
    [stored_record], [stored_meta], [stored_tail]. *)

From S2P Require Import Prelude.
From S2P Require Import Bytes.
From S2P Require Import Keys.
From S2P Require Import Meta.
From S2P Require Import Storage.

Section loads.
  Context {S : Type} `{Storage S}.
  Implicit Types (s : S) (path : bytes) (id : Z).

Definition loadMeta s path : result (option StreamMeta) :=
  v ← store_Get s (metaKey path);
  match v with
  | None => mret None
  | Some b => m ← unmarshalMeta b; mret (Some m)
  end.

Definition loadTombstone s path : result (option (byte * Z)) :=
  v ← store_Get s (tombstoneKey path);
  match v with
  | None => mret None
  | Some b =>
      if decide (length b < 9)%nat then Err errBadMeta else
      w ← go_slice b 1 9;
      match b with
      | [] => Err panicSlice
      | r :: _ => mret (Some (r, be64Decode w))
      end
  end.

(** A missing tail reads as 0. *)
Definition loadTailSeq s id : result Z :=
  v ← store_Get s (tailKey id);
  match v with
  | None => mret 0
  | Some b => '(seq, _) ← unmarshalTail b; mret seq
  end.

Definition loadMetaByID s id : result (option (StreamMeta * bytes)) :=
  v ← store_Get s (idMappingKey id);
  match v with
  | None => mret None
  | Some path =>
      m ← loadMeta s path;
      mret (m ← m; Some (m, path))
  end.

(** Every failure of the read, decoding included, counts as zero forks. *)
Definition loadRefCount s id : Z :=
  match store_Get s (refCountKey id) with
  | Ok (Some v) => match parseU64Value v with Ok n => n | Err _ => 0 end
  | _ => 0
  end.

End loads.

(** ** Representation predicates *)

(** Every key of the store is the encoding of a well-formed typed key. *)
Definition keys_wf (m : gmap bytes bytes) : Prop :=
  ∀ k v, m !! k = Some v → ∃ sk, skey_wf sk ∧ k = encode_skey sk.

Definition stored_record (m : gmap bytes bytes) (id seq : Z) (payload : bytes) : Prop :=
  m !! recordKey id seq = Some (marshalRecord recFlagNone payload).

Definition stored_meta (m : gmap bytes bytes) (path : bytes) (sm : StreamMeta) : Prop :=
  wf_meta sm ∧ len (ContentType sm) < 2^16 ∧ m !! metaKey path = Some (Marshal sm).

Definition stored_tail (m : gmap bytes bytes) (id tail : Z) : Prop :=
  is_u64 tail ∧ ∃ upd, is_i64 upd ∧ m !! tailKey id = Some (marshalTail tail upd).

(** ** Lemmas *)

Section loads_lemmas.
  Context {S : Type} `{StorageLaws S}.
  Implicit Types (s : S).

Lemma unmarshalMeta_Marshal m :
  wf_meta m → len (ContentType m) < 2^16 → unmarshalMeta (Marshal m) = Ok m.
Proof.
  intros. rewrite <-(app_nil_r (Marshal m)), unmarshalMeta_Marshal_app by done.
  by rewrite meta_stored_id.
Qed.

Lemma loadMeta_stored s path m r :
  stored_meta (view s) path m → loadMeta s path = Ok r → r = Some m.
Proof.
  intros (?&?&Hm). unfold loadMeta. rewrite result_bind_Ok. intros (v & ->%Get_view & Hr).
  rewrite Hm in Hr. run_result in Hr. rewrite unmarshalMeta_Marshal in Hr by done.
  run_result in Hr. congruence.
Qed.

Lemma loadMeta_absent s path r :
  view s !! metaKey path = None → loadMeta s path = Ok r → r = None.
Proof.
  intros Hm. unfold loadMeta. rewrite result_bind_Ok. intros (v & ->%Get_view & Hr).
  rewrite Hm in Hr. run_result in Hr. congruence.
Qed.

Lemma loadTailSeq_stored s id t r :
  stored_tail (view s) id t → loadTailSeq s id = Ok r → r = t.
Proof.
  intros (?&upd&?&Hm). unfold loadTailSeq. rewrite result_bind_Ok.
  intros (v & ->%Get_view & Hr). rewrite Hm in Hr. simpl in Hr.
  rewrite unmarshalTail_marshalTail in Hr by done. run_result in Hr. congruence.
Qed.

Lemma loadTombstone_stored s path reason id r :
  is_u64 id → view s !! tombstoneKey path = Some (tombstoneValue reason id) →
  loadTombstone s path = Ok r → r = Some (reason, id).
Proof.
  intros Hid Hm. unfold loadTombstone. rewrite result_bind_Ok.
  intros (v & ->%Get_view & Hr). rewrite Hm in Hr. unfold tombstoneValue in Hr.
  rewrite decide_False in Hr by len_lia. rewrite go_slice_in_range in Hr by len_lia.
  run_result in Hr. rewrite drop_app_length_eq, take_ge in Hr by len_lia.
  rewrite be64Decode_value, be_value_be64, u64_small in Hr by (done || len_lia).
  simpl in Hr. congruence.
Qed.

Lemma loadTombstone_absent s path r :
  view s !! tombstoneKey path = None → loadTombstone s path = Ok r → r = None.
Proof.
  intros Hm. unfold loadTombstone. rewrite result_bind_Ok. intros (v & ->%Get_view & Hr).
  rewrite Hm in Hr. run_result in Hr. congruence.
Qed.

Lemma loadMetaByID_stored s id path m r :
  view s !! idMappingKey id = Some path → stored_meta (view s) path m →
  loadMetaByID s id = Ok r → r = Some (m, path).
Proof.
  intros Hp Hm. unfold loadMetaByID. rewrite result_bind_Ok. intros (v & ->%Get_view & Hr).
  rewrite Hp in Hr. run_result in Hr. rewrite result_bind_Ok in Hr. destruct Hr as (o & Ho & Hr).
  apply (loadMeta_stored _ _ _ _ Hm) in Ho as ->. run_result in Hr. congruence.
Qed.

(** The loads succeed on a healthy store with well-formed values. *)
Lemma loadMetaByID_healthy s id path m :
  healthy s → view s !! idMappingKey id = Some path → stored_meta (view s) path m →
  loadMetaByID s id = Ok (Some (m, path)).
Proof.
  intros Hh Hp (?&?&Hm). unfold loadMetaByID.
  destruct (healthy_Get s (idMappingKey id) Hh) as [r Hr]. rewrite Hr.
  apply Get_view in Hr. rewrite Hp in Hr. subst r. run_result. unfold loadMeta.
  destruct (healthy_Get s (metaKey path) Hh) as [r Hr]. rewrite Hr.
  apply Get_view in Hr. rewrite Hm in Hr. subst r. run_result.
  by rewrite unmarshalMeta_Marshal.
Qed.

End loads_lemmas.

(** *** Writes keep every key in its family *)

Definition op_wf (o : Op) : Prop := ∃ sk, skey_wf sk ∧ op_key o = encode_skey sk.

Lemma keys_wf_empty : keys_wf ∅.
Proof. intros k v Hk. by rewrite lookup_empty in Hk. Qed.

Lemma keys_wf_apply_op m o : keys_wf m → op_wf o → keys_wf (apply_op m o).
Proof.
  intros Hm (sk & Hsk & Ho) k v. unfold apply_op. destruct (op_del o).
  - intros [_ Hk]%lookup_delete_Some. by eapply Hm.
  - intros [[<- _]|[_ Hk]]%lookup_insert_Some; [by eexists|by eapply Hm].
Qed.

Lemma keys_wf_apply_ops m ops : keys_wf m → Forall op_wf ops → keys_wf (apply_ops m ops).
Proof.
  intros Hm Hops. revert m Hm. induction Hops as [|o ops Ho Hops IH]; intros m Hm; [done|].
  apply IH. by apply keys_wf_apply_op.
Qed.

Lemma op_wf_put sk v k : skey_wf sk → k = encode_skey sk → op_wf (PutOp k v).
Proof. intros. by exists sk. Qed.
Lemma op_wf_del sk k : skey_wf sk → k = encode_skey sk → op_wf (DelOp k).
Proof. intros. by exists sk. Qed.

(** *** What a record scan sees *)

Section scans.
  Context (m : gmap bytes bytes) (id : Z).
  Hypothesis Hwf : keys_wf m.
  Hypothesis Hid : is_u64 id.

Definition record_items (P : Z → bytes) (s e : Z) : list kv :=
  (λ i, (recordKey id i, marshalRecord recFlagNone (P i))) <$> seqZ s (e - s).

Lemma elem_of_record_items P s e k v :
  (k, v) ∈ record_items P s e ↔
  ∃ i, s ≤ i < e ∧ k = recordKey id i ∧ v = marshalRecord recFlagNone (P i).
Proof.
  unfold record_items. rewrite list_elem_of_fmap. split.
  - intros (i & [= -> ->] & Hi%elem_of_seqZ). exists i. split_and!; [lia|lia|done..].
  - intros (i & Hi & -> & ->). exists i. split; [done|]. apply elem_of_seqZ. lia.
Qed.

Lemma record_items_nil P s e : e ≤ s → record_items P s e = [].
Proof. intros. unfold record_items. by rewrite seqZ_nil by lia. Qed.

Lemma record_items_cons P s e :
  s < e → record_items P s e =
  (recordKey id s, marshalRecord recFlagNone (P s)) :: record_items P (s + 1) e.
Proof.
  intros. unfold record_items. rewrite seqZ_cons by lia. simpl.
  do 3 f_equal; lia.
Qed.

Lemma record_items_sorted P s e :
  0 ≤ s → e ≤ 2^64 → StronglySorted kv_lt (record_items P s e).
Proof.
  intros Hs He. remember (Z.to_nat (e - s)) as n eqn:Hn.
  revert s Hs Hn. induction n as [|n IH]; intros s Hs Hn.
  - rewrite record_items_nil by lia. constructor.
  - rewrite record_items_cons by lia. constructor; [apply IH; lia|].
    apply Forall_forall. intros [k v] (i & ? & -> & ->)%elem_of_record_items.
    apply recordKey_lt; unfold is_u64; lia.
Qed.

(** A scan from [s] yields the records [s .. e) that are present, in order,
    followed by records from [e] on. *)
Lemma record_scan_split P s e :
  0 ≤ s ≤ e → e < 2^64 → (∀ i, s ≤ i < e → stored_record m id i (P i)) →
  range_items m (recordKey id s) (recordPrefixEnd id) =
  record_items P s e ++ range_items m (recordKey id e) (recordPrefixEnd id).
Proof.
  intros Hs He HP. apply range_items_unique.
  - apply StronglySorted_app_2; [|by apply record_items_sorted; lia|apply range_items_sorted].
    intros [k1 v1] [k2 v2] (i & ? & -> & ->)%elem_of_record_items [Hm Hr]%elem_of_range_items.
    destruct (Hwf _ _ Hm) as (sk & Hsk & ->).
    apply record_scan_exact in Hr as (q & -> & ?); [|done|unfold is_u64; lia|done].
    apply recordKey_lt; [unfold is_u64; lia|by destruct Hsk|lia].
  - intros k v. rewrite elem_of_app, elem_of_record_items, elem_of_range_items. split.
    + intros [(i & ? & -> & ->)|[Hm Hr]].
      * split; [by apply HP|].
        apply (record_scan_exact id s (KRecord id i)); [done|unfold is_u64; lia| |by exists i; split; [|lia]].
        split; [done|unfold is_u64; lia].
      * split; [done|]. destruct (Hwf _ _ Hm) as (sk & Hsk & ->).
        apply record_scan_exact in Hr as (q & -> & ?); [|done|unfold is_u64; lia|done].
        apply record_scan_exact; [done|unfold is_u64; lia|done|]. exists q. split; [done|lia].
    + intros [Hm Hr]. destruct (Hwf _ _ Hm) as (sk & Hsk & ->).
      apply record_scan_exact in Hr as (q & -> & ?); [|done|unfold is_u64; lia|done].
      destruct (decide (q < e)).
      * left. exists q. split_and!; [lia|done|done|].
        specialize (HP q ltac:(lia)). unfold stored_record in HP.
        cbn [encode_skey] in Hm. congruence.
      * right. split; [done|]. apply record_scan_exact; [done|unfold is_u64; lia|done|].
        exists q. split; [done|lia].
Qed.

(** The entries of a scan from [e] are records of the stream at [e] or later. *)
Lemma record_scan_tail e :
  is_u64 e →
  Forall (λ p, ∃ q v, p = (recordKey id q, v) ∧ is_u64 q ∧ e ≤ q)
    (range_items m (recordKey id e) (recordPrefixEnd id)).
Proof.
  intros He. apply Forall_forall. intros [k v] [Hm Hr]%elem_of_range_items.
  destruct (Hwf _ _ Hm) as (sk & Hsk & ->).
  apply record_scan_exact in Hr as (q & -> & ?); [|done..].
  exists q, v. split_and!; [done|by destruct Hsk..|done].
Qed.

End scans.
