(* ===== verification/Batch.v ===== *)
(** * Typed write batches

    The batches the program writes consist of operations on keys of the families
    of Keys.v. A typed batch names the keys by family; [encode_batch] is the
    batch of [Op]s, and [batch_lookup] the effect on one key: the last operation
    on it decides. *)

From S2P Require Import Prelude.
From S2P Require Import Bytes.
From S2P Require Import Keys.
From S2P Require Import Storage.
From S2P Require Import Loads.

(** [(k, Some v)] writes [v], [(k, None)] deletes [k]. *)
Definition batch : Type := list (skey * option bytes).

Definition encode_entry (e : skey * option bytes) : Op :=
  match e.2 with
  | Some v => PutOp (encode_skey e.1) v
  | None => DelOp (encode_skey e.1)
  end.
Definition encode_batch (b : batch) : list Op := encode_entry <$> b.

Definition batch_wf (b : batch) : Prop := Forall (λ e, skey_wf e.1) b.

Fixpoint batch_lookup (b : batch) (k : skey) : option (option bytes) :=
  match b with
  | [] => None
  | (k', v) :: r =>
      match batch_lookup r k with
      | Some x => Some x
      | None => if decide (k' = k) then Some v else None
      end
  end.

(** ** Lemmas *)

Lemma op_key_encode_entry e : op_key (encode_entry e) = encode_skey e.1.
Proof. by destruct e as [? []]. Qed.

Lemma apply_op_encode m e k :
  skey_wf e.1 → skey_wf k →
  apply_op m (encode_entry e) !! encode_skey k =
  if decide (e.1 = k) then e.2 else m !! encode_skey k.
Proof.
  intros He Hk. case_decide as Heq.
  - subst k. destruct e as [k [v|]]; unfold apply_op; simpl;
      [apply lookup_insert_eq|apply lookup_delete_eq].
  - apply apply_op_lookup_ne. rewrite op_key_encode_entry.
    intros ?%encode_skey_inj; done.
Qed.

(** Rewrite a lookup of the key [k] with [lk : ∀ k, skey_wf k → ...]. *)
Ltac at_key lk k :=
  let E := fresh in pose proof (lk k) as E; cbn [encode_skey] in E; rewrite E; clear E.

(** The effect of a batch on a key. *)
Lemma apply_batch_lookup m b k :
  batch_wf b → skey_wf k →
  apply_ops m (encode_batch b) !! encode_skey k =
  default (m !! encode_skey k) (batch_lookup b k).
Proof.
  intros Hb Hk. revert m. induction Hb as [|[k' v] b Hk' Hb IH]; intros m; [done|].
  change (encode_batch ((k', v) :: b)) with (encode_entry (k', v) :: encode_batch b).
  rewrite apply_ops_cons, IH. simpl. destruct (batch_lookup b k); [done|].
  rewrite apply_op_encode by done. simpl. by case_decide.
Qed.

Lemma batch_lookup_app a b k :
  batch_lookup (a ++ b) k =
  match batch_lookup b k with Some x => Some x | None => batch_lookup a k end.
Proof.
  induction a as [|[k' v] a IH]; simpl; [by destruct (batch_lookup b k)|].
  rewrite IH. by destruct (batch_lookup b k).
Qed.

Lemma batch_lookup_None b k : k ∉ b.*1 → batch_lookup b k = None.
Proof.
  induction b as [|[k' v] b IH]; [done|]. simpl. rewrite not_elem_of_cons.
  intros [? ?]. rewrite IH by done. by rewrite decide_False by congruence.
Qed.

Lemma batch_lookup_Some b k v : NoDup b.*1 → (k, v) ∈ b → batch_lookup b k = Some v.
Proof.
  induction b as [|[k' v'] b IH]; [by intros _ ?%not_elem_of_nil|].
  simpl. intros Hnd Hin. apply NoDup_cons in Hnd as [Hn Hnd].
  apply elem_of_cons in Hin as [[= <- <-]|Hin].
  - rewrite batch_lookup_None by done. by rewrite decide_True.
  - by rewrite IH.
Qed.

Lemma encode_batch_app a b : encode_batch (a ++ b) = encode_batch a ++ encode_batch b.
Proof. apply fmap_app. Qed.

Lemma batch_wf_op_wf b : batch_wf b → Forall op_wf (encode_batch b).
Proof.
  intros Hb. apply Forall_fmap. eapply Forall_impl; [exact Hb|].
  intros [k v] Hk. exists k. split; [done|]. by rewrite op_key_encode_entry.
Qed.

Lemma keys_wf_apply_batch m b :
  keys_wf m → batch_wf b → keys_wf (apply_ops m (encode_batch b)).
Proof. intros. by apply keys_wf_apply_ops, batch_wf_op_wf. Qed.

(** *** Runs of records *)

(** The records [rs] of a stream, from sequence number [t] on. *)
Fixpoint record_batch (id t : Z) (val : bytes → bytes) (rs : list bytes) : batch :=
  match rs with
  | [] => []
  | r :: rest => (KRecord id t, Some (val r)) :: record_batch id (t + 1) val rest
  end.

Lemma record_batch_app id t val r1 r2 :
  record_batch id t val (r1 ++ r2) =
  record_batch id t val r1 ++ record_batch id (t + len r1) val r2.
Proof.
  revert t. induction r1 as [|r r1 IH]; intros t; simpl.
  - by rewrite Z.add_0_r.
  - rewrite IH. do 3 f_equal. lia.
Qed.

Lemma record_batch_wf id t val rs :
  is_u64 id → 0 ≤ t → t + len rs ≤ 2^64 → batch_wf (record_batch id t val rs).
Proof.
  intros Hid. revert t. induction rs as [|r rs IH]; intros t Ht Hl; constructor.
  - split; [done|unfold is_u64; simpl in *; lia].
  - apply IH; simpl in *; lia.
Qed.

Lemma record_batch_lookup id t val rs q :
  batch_lookup (record_batch id t val rs) (KRecord id q) =
  if decide (t ≤ q) then (λ r, Some (val r)) <$> rs !! Z.to_nat (q - t) else None.
Proof.
  revert t. induction rs as [|r rs IH]; intros t; simpl; [by case_decide|].
  rewrite IH. destruct (decide (t + 1 ≤ q)).
  - rewrite (decide_True (P := t ≤ q)) by lia.
    replace (Z.to_nat (q - t)) with (S (Z.to_nat (q - (t + 1)))) by lia. simpl.
    destruct (rs !! _); [done|]. simpl. rewrite decide_False; [done|]. intros [= ->]. lia.
  - case_decide as Hq.
    + simplify_eq. rewrite decide_True by lia. by rewrite Z.sub_diag.
    + rewrite decide_False; [done|]. intros ?. destruct Hq. f_equal. lia.
Qed.

Lemma record_batch_lookup_other id t val rs k :
  (∀ q, k ≠ KRecord id q) → batch_lookup (record_batch id t val rs) k = None.
Proof.
  intros Hk. revert t. induction rs as [|r rs IH]; intros t; simpl; [done|].
  rewrite IH, decide_False; [done|]. intros <-. by eapply Hk.
Qed.

(** *** One entry per map entry *)

Definition map_batch {V} (key : bytes → skey) (val : V → bytes) (m : gmap bytes V) : batch :=
  (λ p, (key p.1, Some (val p.2))) <$> map_to_list m.

Lemma map_batch_lookup {V} (key : bytes → skey) (val : V → bytes) (m : gmap bytes V) x :
  Inj (=) (=) key →
  batch_lookup (map_batch key val m) (key x) = (λ v, Some (val v)) <$> m !! x.
Proof.
  intros Hinj.
  assert (Hfst : (map_batch key val m).*1 = key <$> (map_to_list m).*1)
    by (unfold map_batch; rewrite <-!list_fmap_compose; done).
  destruct (m !! x) as [v|] eqn:Hx; simpl.
  - apply batch_lookup_Some.
    + rewrite Hfst. apply NoDup_fmap_2; [done|]. apply NoDup_fst_map_to_list.
    + apply list_elem_of_fmap. exists (x, v). by rewrite elem_of_map_to_list.
  - apply batch_lookup_None. rewrite Hfst. intros (y & Hy%Hinj & Hin)%list_elem_of_fmap. subst y.
    apply list_elem_of_fmap in Hin as ([y v] & -> & Hin%elem_of_map_to_list).
    simpl in Hx. congruence.
Qed.

Lemma map_batch_lookup_other {V} (key : bytes → skey) (val : V → bytes) (m : gmap bytes V) k :
  (∀ x, k ≠ key x) → batch_lookup (map_batch key val m) k = None.
Proof.
  intros Hk. apply batch_lookup_None. unfold map_batch. rewrite <-list_fmap_compose.
  intros ([y v] & Hy & _)%list_elem_of_fmap. by eapply Hk.
Qed.

Lemma map_batch_wf {V} (key : bytes → skey) (val : V → bytes) (m : gmap bytes V) :
  (∀ x, skey_wf (key x)) → batch_wf (map_batch key val m).
Proof. intros Hk. apply Forall_fmap. apply Forall_forall. intros. apply Hk. Qed.
