(* ===== verification/Mime.v ===== *)
(** * Content types (internal/ds/server.go: mediaType, contentTypeMatches, isJSONStream)

    The program compares content types through Go's [mime.ParseMediaType]. This
    file defines that function of the Go standard library, its parameter syntax
    included (quoted strings, duplicate parameters, trailing semicolons), since
    whether it fails decides which string two content types are compared by.
    Case folding and white space are those of ASCII: content types come from HTTP
    header values. *)

From Stdlib Require Strings.String.
From S2P Require Import Prelude.
From S2P Require Import Bytes.

(** The string constants. *)
Module Literals.
Import String.
Open Scope string_scope.
Definition contentTypeJSON : bytes := list_byte_of_string "application/json".
Definition defaultContentType : bytes := list_byte_of_string "application/octet-stream".
Definition text_prefix : bytes := list_byte_of_string "text/".
Definition json_with_charset : bytes := list_byte_of_string "Application/JSON; charset=utf-8;".
End Literals.
Export Literals.

(** ** Characters *)

Definition is_space (c : byte) : bool :=
  bool_decide (c ∈ [" "%byte; x09; x0a; x0b; x0c; x0d]).
Definition to_lower (c : byte) : byte :=
  let z := byte_to_Z c in
  if decide (65 ≤ z ≤ 90) then byte_of_Z (z + 32) else c.
Definition ToLower (s : bytes) : bytes := to_lower <$> s.

Definition is_tspecial (c : byte) : bool :=
  bool_decide (c ∈ ["("; ")"; "<"; ">"; "@"; ","; ";"; ":"; "\"; x22; "/"; "["; "]"; "?"; "="]%byte).
Definition is_token_char (c : byte) : bool :=
  bool_decide (32 < byte_to_Z c < 127) && negb (is_tspecial c).

Fixpoint TrimLeft (s : bytes) : bytes :=
  match s with
  | c :: r => if is_space c then TrimLeft r else s
  | [] => []
  end.
Definition TrimSpace (s : bytes) : bytes := reverse (TrimLeft (reverse (TrimLeft s))).

Definition CutPrefix (s : bytes) (c : byte) : option bytes :=
  match s with
  | x :: r => if decide (x = c) then Some r else None
  | [] => None
  end.

(** ** [mime.ParseMediaType] *)

Fixpoint consumeToken (v : bytes) : bytes * bytes :=
  match v with
  | c :: r => if is_token_char c then let '(t, rest) := consumeToken r in (c :: t, rest) else ([], v)
  | [] => ([], [])
  end.

(** The quoted string after its opening quote; [None] when it does not end. *)
Fixpoint consumeQuoted (v : bytes) : option (bytes * bytes) :=
  match v with
  | [] => None
  | r :: rest =>
      if decide (r = x22) then Some ([], rest) else
      match rest with
      | e :: rest' =>
          if decide (r = "\"%byte ∧ is_tspecial e = true)
          then (λ '(b, x), (e :: b, x)) <$> consumeQuoted rest'
          else if decide (r = x0d ∨ r = x0a) then None
          else (λ '(b, x), (r :: b, x)) <$> consumeQuoted rest
      | [] => None
      end
  end.

Definition consumeValue (v : bytes) : bytes * bytes :=
  match v with
  | [] => ([], [])
  | c :: r =>
      if decide (c = x22) then default ([], v) (consumeQuoted r) else consumeToken v
  end.

(** [None] is the source's empty key. *)
Definition consumeMediaParam (v : bytes) : option (bytes * bytes * bytes) :=
  rest ← CutPrefix (TrimLeft v) ";"%byte;
  let '(param, rest) := consumeToken (TrimLeft rest) in
  if decide (param = []) then None else
  rest ← CutPrefix (TrimLeft rest) "="%byte;
  let rest := TrimLeft rest in
  let '(value, rest2) := consumeValue rest in
  if decide (value = [] ∧ rest2 = rest) then None else
  Some (ToLower param, value, rest2).

(** The parameter loop: whether it ends without an error. Each parameter
    consumes input, so the length of the input bounds the loop. *)
Fixpoint params_ok (fuel : nat) (v : bytes) (params : gmap bytes bytes) : bool :=
  match fuel with
  | O => false
  | S n =>
      let v := TrimLeft v in
      if decide (v = []) then true else
      match consumeMediaParam v with
      | None => bool_decide (TrimSpace v = [";"%byte])
      | Some (key, value, rest) =>
          if decide (default value (params !! key) = value)
          then params_ok n rest (<[key := value]> params) else false
      end
  end.

Definition checkMediaTypeDisposition (s : bytes) : bool :=
  let '(typ, rest) := consumeToken s in
  if decide (typ = []) then false else
  match rest with
  | [] => true
  | c :: r =>
      if decide (c = "/"%byte) then
        let '(subtype, rest) := consumeToken r in
        bool_decide (subtype ≠ [] ∧ rest = [])
      else false
  end.

Fixpoint before_semicolon (v : bytes) : bytes :=
  match v with
  | c :: r => if decide (c = ";"%byte) then [] else c :: before_semicolon r
  | [] => []
  end.

(** The media type, or [None] for a non-nil error. *)
Definition ParseMediaType (v : bytes) : option bytes :=
  let base := before_semicolon v in
  let mediatype := TrimSpace (ToLower base) in
  if checkMediaTypeDisposition mediatype then
    let params := drop (length base) v in
    if params_ok (S (length params)) params ∅ then Some mediatype else None
  else None.

(** ** The program's use of it *)

Definition mediaType (ct : bytes) : bytes :=
  let ct := TrimSpace ct in
  if decide (ct = []) then [] else
  match ParseMediaType ct with
  | Some mt => mt
  | None => ToLower ct
  end.

Definition contentTypeMatches (configured req : bytes) : bool :=
  bool_decide (mediaType configured = mediaType req).

Definition isJSONStream (ct : bytes) : bool := bool_decide (mediaType ct = contentTypeJSON).

(** Server-sent events carry these as text, everything else in base64. *)
Definition isTextLike (ct : bytes) : bool :=
  let mt := mediaType ct in
  bool_decide (mt = contentTypeJSON ∨ text_prefix `prefix_of` mt).

(** ** Lemmas *)

Lemma contentTypeMatches_refl ct : contentTypeMatches ct ct = true.
Proof. by apply bool_decide_eq_true. Qed.

(** Streams of matching content types agree on whether they are JSON. *)
Lemma contentTypeMatches_json c1 c2 :
  contentTypeMatches c1 c2 = true → isJSONStream c1 = isJSONStream c2.
Proof. unfold contentTypeMatches, isJSONStream. rewrite bool_decide_eq_true. by intros ->. Qed.

(** *** Termination of the parameter loop *)

Lemma TrimLeft_length v : (length (TrimLeft v) ≤ length v)%nat.
Proof. induction v as [|c v IH]; simpl; [done|]. destruct (is_space c); simpl; lia. Qed.

Lemma consumeToken_length v t rest :
  consumeToken v = (t, rest) → length v = (length t + length rest)%nat.
Proof.
  revert t rest. induction v as [|c v IH]; intros t rest; simpl; [by intros [= <- <-]|].
  destruct (is_token_char c); [|by intros [= <- <-]].
  destruct (consumeToken v) as [t' rest'] eqn:E. intros [= <- <-]. simpl.
  by rewrite (IH t' rest').
Qed.

Lemma consumeQuoted_length n v t rest :
  (length v ≤ n)%nat → consumeQuoted v = Some (t, rest) → (length rest ≤ length v)%nat.
Proof.
  revert v t rest. induction n as [|n IH]; intros [|r v] t rest Hn; simpl in *; try done; [lia|].
  case_decide; [intros; simplify_eq; lia|]. destruct v as [|e v]; [done|].
  repeat case_decide; try done; intros ([b x] & Hq & [= -> ->])%fmap_Some;
    apply IH in Hq; simpl in *; lia.
Qed.

Lemma consumeValue_length v t rest : consumeValue v = (t, rest) → (length rest ≤ length v)%nat.
Proof.
  destruct v as [|c v]; simpl; [by intros [= <- <-]|]. case_decide.
  - destruct (consumeQuoted v) as [[b x]|] eqn:E; simpl; intros [= <- <-]; [|simpl; lia].
    apply (consumeQuoted_length (length v)) in E; simpl; lia.
  - intros Ht. apply (consumeToken_length (c :: v)) in Ht. simpl in *. lia.
Qed.

Lemma CutPrefix_length v c r : CutPrefix v c = Some r → length v = S (length r).
Proof. destruct v as [|x v]; simpl; [done|]. case_decide; [by intros [= ->]|done]. Qed.

Lemma consumeMediaParam_length v k x rest :
  consumeMediaParam v = Some (k, x, rest) → (length rest < length v)%nat.
Proof.
  unfold consumeMediaParam. rewrite bind_Some. intros (r1 & Hc1%CutPrefix_length & Hr).
  pose proof (TrimLeft_length v). destruct (consumeToken (TrimLeft r1)) as [p r2] eqn:Ht.
  apply consumeToken_length in Ht. pose proof (TrimLeft_length r1). case_decide; [done|].
  rewrite bind_Some in Hr. destruct Hr as (r3 & Hc3%CutPrefix_length & Hr).
  pose proof (TrimLeft_length r2). pose proof (TrimLeft_length r3).
  destruct (consumeValue (TrimLeft r3)) as [value r4] eqn:Hv. apply consumeValue_length in Hv.
  case_decide; [done|]. simplify_eq. lia.
Qed.

(** More fuel than the input is long changes nothing: the bound is never met. *)
Lemma params_ok_fuel n m v params :
  (length v < n)%nat → (length v < m)%nat → params_ok n v params = params_ok m v params.
Proof.
  revert m v params. induction n as [|n IH]; intros [|m] v params Hn Hm; try lia.
  simpl. case_decide; [done|].
  destruct (consumeMediaParam (TrimLeft v)) as [[[k x] rest]|] eqn:E; [|done].
  apply consumeMediaParam_length in E. pose proof (TrimLeft_length v).
  case_decide; [|done]. apply IH; lia.
Qed.

Example isJSONStream_with_charset : isJSONStream json_with_charset = true.
Proof. vm_compute. reflexivity. Qed.
