(* ===== verification/Read.v ===== *)
(** * Assembling reads (internal/ds/read.go, fork.go, json.go)

    [readRange] turns a position, a tail and a byte limit into a response body
    and the next position. It maps the range to segments (a fork reads its
    inherited prefix from its source's records), scans each segment, and stops
    at the limit: inside a record for binary streams, between messages for JSON.

    The logical content of a stream is a function [L] from sequence numbers to
    payloads; [log_at] says the store holds it, along the fork chain. *)

From S2P Require Import Prelude.
From S2P Require Import Bytes.
From S2P Require Import Keys.
From S2P Require Import Meta.
From S2P Require Import Offset.
From S2P Require Import Storage.
From S2P Require Import Loads.

(** ** Segments *)

Record segment : Type := mkSegment { seg_id : Z; seg_startSeq : Z; seg_endSeq : Z }.

#[global] Instance segment_eq_decision : EqDecision segment.
Proof. solve_decision. Defined.

Section reads.
  Context {S : Type} `{Storage S}.
  Implicit Types (s : S).

(** [resolveSegments], with the recursive call through [resolveSegmentsByID]
    written out; [fuel] bounds the length of the fork chain. *)
Fixpoint resolveSegments (fuel : nat) s (id forkedFrom forkOffset startSeq endSeq : Z)
  : result (list segment) :=
  if decide (endSeq ≤ startSeq) then mret []
  else if decide (forkedFrom = 0) then
    mret [{| seg_id := id; seg_startSeq := startSeq; seg_endSeq := endSeq |}]
  else
    segs ← (if decide (startSeq < forkOffset) then
              let inhEnd := if decide (forkOffset < endSeq) then forkOffset else endSeq in
              match fuel with
              | O => Err outOfFuel
              | Datatypes.S n =>
                  mm ← loadMetaByID s forkedFrom;
                  match mm with
                  | None => mret []
                  | Some (meta, _) =>
                      resolveSegments n s forkedFrom (ForkedFrom meta) (ForkOffset meta)
                        startSeq inhEnd
                  end
              end
            else mret []);
    if decide (forkOffset < endSeq) then
      let ownStart := if decide (startSeq < forkOffset) then forkOffset else startSeq in
      mret (segs ++ [{| seg_id := id; seg_startSeq := ownStart; seg_endSeq := endSeq |}])
    else mret segs.

Definition resolveSegmentsByID (fuel : nat) s (id startSeq endSeq : Z)
  : result (list segment) :=
  mm ← loadMetaByID s id;
  match mm with
  | None => mret []
  | Some (meta, _) =>
      resolveSegments fuel s id (ForkedFrom meta) (ForkOffset meta) startSeq endSeq
  end.

(** Sources have smaller ids than their forks, so the id bounds the chain. *)
Definition chain_fuel (id : Z) : nat := Z.to_nat id.

(** ** Binary bodies *)

(** The inner loop of [readSegmentsBinary] over one segment's iterator. The
    result is the buffer, the next offset and whether a record was split. *)
Fixpoint binary_loop (start : Offset) (endSeq limit : Z) (items : list kv)
    (err : option error) (buf : bytes) (next : Offset) : result (bytes * Offset * bool) :=
  if decide (len buf < limit) then
    match items with
    | [] => match err with Some e => Err e | None => mret (buf, next, false) end
    | (k, v) :: rest =>
        ks ← go_slice k 9 17;
        let recSeq := be64Decode ks in
        if decide (endSeq ≤ recSeq) then mret (buf, next, false) else
        let payload := recordPayload v in
        let skip := if decide (recSeq = Seq start) then Byte start else 0 in
        let skip := if decide (len payload < skip) then len payload else skip in
        let avail := drop (Z.to_nat skip) payload in
        let room := limit - len buf in
        if decide (len avail ≤ room) then
          binary_loop start endSeq limit rest err (buf ++ avail)
            {| Seq := u64 (recSeq + 1); Byte := 0 |}
        else
          mret (buf ++ take (Z.to_nat room) avail,
                {| Seq := recSeq; Byte := skip + room |}, true)
    end
  else mret (buf, next, false).

Fixpoint binary_segments s (start : Offset) (limit : Z) (segs : list segment)
    (buf : bytes) (next : Offset) : result (bytes * Offset) :=
  match segs with
  | [] => mret (buf, next)
  | seg :: segs' =>
      it ← store_Scan s (recordKey (seg_id seg) (seg_startSeq seg)) (recordPrefixEnd (seg_id seg));
      '(buf, next, stop) ←
        binary_loop start (seg_endSeq seg) limit (it_items it) (it_err it) buf next;
      if decide (stop = true ∨ limit ≤ len buf) then mret (buf, next)
      else binary_segments s start limit segs' buf next
  end.

Definition readSegmentsBinary s (segs : list segment) (start : Offset) (tailSeq limit : Z)
  : result (bytes * Offset * bool) :=
  '(buf, next) ← binary_segments s start limit segs [] start;
  mret (buf, next, bool_decide (tailSeq ≤ Seq next)).

(** ** JSON bodies *)

(** [appendJSONArray]: the records joined by commas between brackets. *)
Fixpoint json_join (first : bool) (records : list bytes) : bytes :=
  match records with
  | [] => []
  | r :: rest => (if first then [] else [","%byte]) ++ r ++ json_join false rest
  end.
Definition appendJSONArray (dst : bytes) (records : list bytes) : bytes :=
  dst ++ ["["%byte] ++ json_join true records ++ ["]"%byte].
Definition wrapJSONArray (records : list bytes) : bytes := appendJSONArray [] records.

(** The inner loop of [readSegmentsJSON]; the state is the messages collected,
    their total size and the next sequence number. *)
Fixpoint json_loop (endSeq limit : Z) (items : list kv) (err : option error)
    (recs : list bytes) (total nextSeq : Z) : result (list bytes * Z * Z * bool) :=
  match items with
  | [] => match err with Some e => Err e | None => mret (recs, total, nextSeq, false) end
  | (k, v) :: rest =>
      ks ← go_slice k 9 17;
      let recSeq := be64Decode ks in
      if decide (endSeq ≤ recSeq) then mret (recs, total, nextSeq, false) else
      let payload := recordPayload v in
      if decide (recs ≠ [] ∧ limit < total + len payload)
      then mret (recs, total, nextSeq, true)
      else
        let recs := recs ++ [payload] in
        let nextSeq := u64 (recSeq + 1) in
        let total := total + len payload in
        if decide (limit ≤ total) then mret (recs, total, nextSeq, true)
        else json_loop endSeq limit rest err recs total nextSeq
  end.

Fixpoint json_segments s (limit : Z) (segs : list segment)
    (recs : list bytes) (total nextSeq : Z) (stop : bool) : result (list bytes * Z) :=
  match segs with
  | [] => mret (recs, nextSeq)
  | seg :: segs' =>
      if stop then mret (recs, nextSeq) else
      it ← store_Scan s (recordKey (seg_id seg) (seg_startSeq seg)) (recordPrefixEnd (seg_id seg));
      '(recs, total, nextSeq, stop) ←
        json_loop (seg_endSeq seg) limit (it_items it) (it_err it) recs total nextSeq;
      json_segments s limit segs' recs total nextSeq stop
  end.

Definition readSegmentsJSON s (segs : list segment) (start : Offset) (tailSeq limit : Z)
  : result (bytes * Offset * bool) :=
  '(recs, nextSeq) ← json_segments s limit segs [] 0 (Seq start) false;
  mret (wrapJSONArray recs, {| Seq := nextSeq; Byte := 0 |}, bool_decide (tailSeq ≤ nextSeq)).

(** ** [readRange] *)

Definition readRange s (streamID forkedFrom forkOffset : Z) (isJSON : bool)
    (start : Offset) (tailSeq limit : Z) : result (bytes * Offset * bool) :=
  if decide (tailSeq ≤ Seq start) then
    mret (if isJSON then ["["%byte; "]"%byte] else [], start, true)
  else
    segs ← resolveSegments (chain_fuel streamID) s streamID forkedFrom forkOffset
             (Seq start) tailSeq;
    if isJSON then readSegmentsJSON s segs start tailSeq limit
    else readSegmentsBinary s segs start tailSeq limit.

(** [recordAt]: one record, wherever in the fork chain it lives. *)
Definition recordAt s (id seq : Z) : result (option bytes) :=
  segs ← resolveSegmentsByID (chain_fuel id) s id seq (u64 (seq + 1));
  match last segs with
  | None => mret None
  | Some seg =>
      v ← store_Get s (recordKey (seg_id seg) seq);
      mret (recordPayload <$> v)
  end.

End reads.

(** ** The logical content of a stream *)

(** [log_at m id ff fo L T]: the records [0 .. T) of the stream [id], forked from
    [ff] at [fo] (0 when it is not a fork), are [L 0 .. L (T-1)]. *)
Inductive log_at (m : gmap bytes bytes) (L : Z → bytes) : Z → Z → Z → Z → Prop :=
| log_root id fo T :
    is_u64 id → is_u64 T → (∀ i, 0 ≤ i < T → stored_record m id i (L i)) →
    log_at m L id 0 fo T
| log_fork id ff fo T path sm :
    is_u64 id → is_u64 T → 0 ≤ fo → 0 < ff < id →
    m !! idMappingKey ff = Some path → stored_meta m path sm →
    log_at m L ff (ForkedFrom sm) (ForkOffset sm) (fo `min` T) →
    (∀ i, fo ≤ i < T → stored_record m id i (L i)) →
    log_at m L id ff fo T.

(** The segments [segs] hold exactly the records [a .. b). *)
Inductive segs_cover (m : gmap bytes bytes) (L : Z → bytes) : list segment → Z → Z → Prop :=
| cover_nil a : segs_cover m L [] a a
| cover_cons id a b c segs :
    is_u64 id → a < b → (∀ i, a ≤ i < b → stored_record m id i (L i)) →
    segs_cover m L segs b c →
    segs_cover m L ({| seg_id := id; seg_startSeq := a; seg_endSeq := b |} :: segs) a c.

(** The payloads [a .. b). *)
Definition payloads (L : Z → bytes) (a b : Z) : list bytes := L <$> seqZ a (b - a).

(** The bytes between an offset and the tail. *)
Definition content_from (L : Z → bytes) (o : Offset) (T : Z) : bytes :=
  if decide (Seq o < T)
  then drop (Z.to_nat (Byte o)) (L (Seq o)) ++ concat (payloads L (Seq o + 1) T)
  else [].

(** The strict order in which a reader advances. *)
Definition offset_lt (a b : Offset) : Prop :=
  Seq a < Seq b ∨ (Seq a = Seq b ∧ Byte a < Byte b).

(** ** Lemmas: the logical content *)

Lemma log_at_mono m L id ff fo T T' :
  log_at m L id ff fo T → 0 ≤ T' ≤ T → log_at m L id ff fo T'.
Proof.
  intros Hl. revert T'.
  induction Hl as [id fo T ? ? Hr|id ff fo T path sm ? ? ? ? Hp Hm Hl IH Hr]; intros T' HT.
  - apply log_root; [done|unfold is_u64 in *; lia|]. intros. apply Hr. lia.
  - apply (log_fork _ _ _ _ _ _ path sm); try done; [unfold is_u64 in *; lia| |].
    + apply IH. lia.
    + intros. apply Hr. lia.
Qed.

Lemma segs_cover_app m L l1 l2 a b c :
  segs_cover m L l1 a b → segs_cover m L l2 b c → segs_cover m L (l1 ++ l2) a c.
Proof. induction 1; intros; simpl; [done|]. constructor; auto. Qed.

Lemma segs_cover_one m L id a b :
  is_u64 id → a < b → (∀ i, a ≤ i < b → stored_record m id i (L i)) →
  segs_cover m L [{| seg_id := id; seg_startSeq := a; seg_endSeq := b |}] a b.
Proof. intros. constructor; [done..|constructor]. Qed.

Lemma segs_cover_le m L segs a b : segs_cover m L segs a b → a ≤ b.
Proof. induction 1; lia. Qed.

Lemma content_from_done L o T : T ≤ Seq o → content_from L o T = [].
Proof. intros. unfold content_from. by rewrite decide_False by lia. Qed.

Lemma payloads_nil L a b : b ≤ a → payloads L a b = [].
Proof. intros. unfold payloads. by rewrite seqZ_nil by lia. Qed.

Lemma payloads_cons L a b : a < b → payloads L a b = L a :: payloads L (a + 1) b.
Proof.
  intros. unfold payloads. rewrite seqZ_cons by lia. simpl. do 3 f_equal; lia.
Qed.

Lemma payloads_app L a b c :
  a ≤ b ≤ c → payloads L a c = payloads L a b ++ payloads L b c.
Proof.
  intros. unfold payloads.
  replace (c - a) with ((b - a) + (c - b)) by lia.
  rewrite seqZ_app by lia. rewrite fmap_app. do 3 f_equal; lia.
Qed.

Lemma payloads_snoc L a b : a ≤ b → payloads L a (b + 1) = payloads L a b ++ [L b].
Proof.
  intros. rewrite (payloads_app L a b) by lia. f_equal.
  by rewrite payloads_cons, payloads_nil by lia.
Qed.

(** Reading one record off the front. *)
Lemma content_from_step L a B T :
  a < T → content_from L {| Seq := a; Byte := B |} T =
    drop (Z.to_nat B) (L a) ++ content_from L {| Seq := a + 1; Byte := 0 |} T.
Proof.
  intros. unfold content_from. simpl. rewrite decide_True by done. f_equal.
  case_decide; [by rewrite (payloads_cons L (a + 1))|by rewrite payloads_nil by lia].
Qed.

Lemma content_from_payloads L a T :
  content_from L {| Seq := a; Byte := 0 |} T = concat (payloads L a T).
Proof.
  unfold content_from. simpl. case_decide; [by rewrite (payloads_cons L a)|].
  by rewrite payloads_nil by lia.
Qed.

#[global] Instance offset_lt_trans : Transitive offset_lt.
Proof. intros [] [] []. unfold offset_lt. simpl. lia. Qed.

#[global] Instance offset_lt_irrefl : Irreflexive offset_lt.
Proof. intros []. unfold offset_lt, complement. simpl. lia. Qed.

(** ** Lemmas: segment resolution *)

Section read_lemmas.
  Context {S : Type} `{StorageLaws S}.
  Implicit Types (s : S).

Lemma resolveSegments_cover L s id ff fo T :
  log_at (view s) L id ff fo T → ∀ fuel a segs, 0 ≤ a ≤ T →
  resolveSegments fuel s id ff fo a T = Ok segs → segs_cover (view s) L segs a T.
Proof.
  induction 1 as [id fo T ? ? Hr|id ff fo T path sm ? ? ? ? Hp Hm Hl IH Hr];
    intros fuel a segs HaT Hres; destruct fuel as [|fuel]; simpl in Hres.
  1,2: case_decide; [ok_inv Hres; replace a with T by lia; constructor|];
    ok_inv Hres; apply segs_cover_one; [done|lia|intros; apply Hr; lia].
  - case_decide; [ok_inv Hres; replace a with T by lia; constructor|].
    rewrite decide_False in Hres by lia.
    destruct (decide (a < fo)); [done|]. run_result in Hres.
    rewrite decide_True in Hres by lia. ok_inv Hres. apply segs_cover_one; [done|lia|intros; apply Hr; lia].
  - case_decide; [ok_inv Hres; replace a with T by lia; constructor|].
    rewrite decide_False in Hres by lia. rewrite result_bind_Ok in Hres.
    destruct Hres as (inh & Hinh & Hres). destruct (decide (a < fo)) as [Haf|Haf].
    + rewrite result_bind_Ok in Hinh. destruct Hinh as (mm & Hmm & Hinh).
      rewrite (loadMetaByID_stored _ _ _ _ _ Hp Hm Hmm) in Hinh.
      replace (if decide (fo < T) then fo else T) with (fo `min` T) in Hinh
        by (case_decide; lia).
      apply IH in Hinh; [|lia].
      case_decide; ok_inv Hres.
      * apply (segs_cover_app _ _ _ _ _ (fo `min` T)); [done|].
        replace (fo `min` T) with fo by lia.
        apply segs_cover_one; [done|lia|intros; apply Hr; lia].
      * replace T with (fo `min` T) by lia. done.
    + ok_inv Hinh. rewrite decide_True in Hres by lia. ok_inv Hres.
      apply segs_cover_one; [done|lia|intros; apply Hr; lia].
Qed.

(** The walk along the fork chain ends: ids decrease towards the root. *)
Lemma resolveSegments_total L s id ff fo T :
  healthy s → log_at (view s) L id ff fo T → ∀ fuel a, (chain_fuel id ≤ fuel)%nat →
  ∃ segs, resolveSegments fuel s id ff fo a T = Ok segs.
Proof.
  intros Hh. unfold chain_fuel.
  induction 1 as [id fo T|id ff fo T path sm ? ? ? ? Hp Hm Hl IH Hr]; intros fuel a Hf.
  - destruct fuel; simpl; case_decide; eauto.
  - destruct fuel as [|fuel]; [lia|]. simpl. case_decide; [eauto|].
    rewrite decide_False by lia. destruct (decide (a < fo)).
    + rewrite (loadMetaByID_healthy _ _ _ _ Hh Hp Hm).
      run_result. replace (if decide (fo < T) then fo else T) with (fo `min` T) by (case_decide; lia).
      destruct (IH fuel a ltac:(lia)) as [inh ->]. simpl. case_decide; eauto.
    + simpl. case_decide; eauto.
Qed.

(** ** Lemmas: binary bodies *)

(** An iterator that fails delivers a prefix of the range: a loop that succeeds
    has not looked past the entries delivered. *)
Lemma binary_loop_prefix start e limit items more err buf next r :
  (err = None → more = []) →
  binary_loop start e limit items err buf next = Ok r →
  binary_loop start e limit (items ++ more) None buf next = Ok r.
Proof.
  intros Hmore. revert buf next. induction items as [|[k v] items IH]; intros buf next Hr.
  - destruct err; simpl in *; [case_decide; [done|]; destruct more as [|[]]; simpl;
      by rewrite decide_False|]. by rewrite Hmore.
  - simpl in *. case_decide; [|done]. revert Hr. rewrite !result_bind_Ok.
    intros (ks & Hks & Hr). exists ks. split; [done|].
    repeat case_decide; try done; by apply IH.
Qed.

(** The reader at record [a]: inside it only if it is the one the read began in. *)
Definition next_at (start : Offset) (a : Z) : Offset :=
  {| Seq := a; Byte := if decide (a = Seq start) then Byte start else 0 |}.

(** Not past record [e], and at its first byte if there. *)
Definition upto (start : Offset) (e : Z) (next : Offset) : Prop :=
  Seq next ≤ e ∧ (Seq next = e → next = next_at start e).

(** [buf'] extends [buf] by the content between two offsets, the limit obeyed. *)
Definition reads_to (L : Z → bytes) (T limit : Z) (buf : bytes) (o : Offset)
    (buf' : bytes) (o' : Offset) : Prop :=
  ∃ c, buf' = buf ++ c ∧ content_from L o T = c ++ content_from L o' T ∧
    (len buf ≤ limit → len buf' ≤ limit) ∧ (o' = o ∨ offset_lt o o').

Lemma reads_to_refl L T limit buf o : reads_to L T limit buf o buf o.
Proof. exists []. rewrite app_nil_r. auto. Qed.

Lemma reads_to_trans L T limit b1 o1 b2 o2 b3 o3 :
  reads_to L T limit b1 o1 b2 o2 → reads_to L T limit b2 o2 b3 o3 →
  reads_to L T limit b1 o1 b3 o3.
Proof.
  intros (c1 & -> & E1 & Hl1 & Ho1) (c2 & -> & E2 & Hl2 & Ho2).
  exists (c1 ++ c2). rewrite E1, E2, !app_assoc. split_and!; [done..|auto|].
  destruct Ho1 as [->|?]; [done|]. destruct Ho2 as [->|?]; [by right|].
  right. by etrans.
Qed.

(** Reading the sequence number back out of a record key. *)
Lemma recordKey_seq id q :
  is_u64 q → go_slice (recordKey id q) 9 17 = Ok (be64 q) ∧ be64Decode (be64 q) = q.
Proof.
  intros. rewrite go_slice_in_range by len_lia. unfold recordKey.
  rewrite drop_app_length_eq, take_ge by len_lia. split; [done|].
  by rewrite be64Decode_value, be_value_be64, u64_small by (done || len_lia).
Qed.

(** The entries a segment's scan delivers past its end. *)
Definition past (id e : Z) (items : list kv) : Prop :=
  Forall (λ p, ∃ q v, p = (recordKey id q, v) ∧ is_u64 q ∧ e ≤ q) items.

Lemma binary_loop_past id start e limit more buf next :
  past id e more → binary_loop start e limit more None buf next = Ok (buf, next, false).
Proof.
  intros Hp. destruct more as [|[k v] more]; simpl; case_decide; try done.
  inversion Hp as [|?? (q & v' & E & Hq & He) ?]; subst. injection E as -> ->.
  destruct (recordKey_seq id q Hq) as [-> E']. run_result. by rewrite E', decide_True.
Qed.

(** The case analysis of one binary record. *)
Lemma binary_record L start a T limit buf next :
  0 ≤ Byte start → Seq start ≤ a < T → len buf < limit → next = next_at start a →
  let skip := (if decide (a = Seq start) then Byte start else 0) `min` len (L a) in
  let avail := drop (Z.to_nat skip) (L a) in
  let room := limit - len buf in
  (len avail ≤ room → reads_to L T limit buf next (buf ++ avail) (next_at start (a + 1))) ∧
  (room < len avail →
     let next' := {| Seq := a; Byte := skip + room |} in
     let buf' := buf ++ take (Z.to_nat room) avail in
     reads_to L T limit buf next buf' next' ∧ len buf' = limit ∧ offset_lt next next').
Proof.
  intros HB Ha Hl -> skip avail room.
  assert (Hskip : drop (Z.to_nat (Byte (next_at start a))) (L a) = avail).
  { unfold avail, skip, next_at. simpl. set (B := if decide _ then _ else _).
    destruct (decide (B ≤ len (L a))); [by rewrite Z.min_l by lia|].
    rewrite Z.min_r, !drop_ge by lia. done. }
  assert (Hcont := content_from_step L a (Byte (next_at start a)) T ltac:(lia)).
  rewrite Hskip in Hcont. change {| Seq := a; Byte := _ |} with (next_at start a) in Hcont.
  split.
  - intros Hfit. exists avail. split_and!; [done| |unfold room in *; len_lia|].
    + rewrite Hcont. unfold next_at. rewrite (decide_False (P := a + 1 = Seq start)) by lia. done.
    + right. left. simpl. lia.
  - intros Hbig. subst room.
    assert (Hs : skip = if decide (a = Seq start) then Byte start else 0).
    { unfold avail in Hbig. rewrite length_drop in Hbig. unfold skip in *.
      case_decide; lia. }
    assert (0 ≤ skip) by (unfold skip; case_decide; lia).
    simpl. split_and!.
    + exists (take (Z.to_nat (limit - len buf)) avail). split_and!; [done| |len_lia|].
      * rewrite Hcont. rewrite (content_from_step _ _ (skip + _)) by lia.
        rewrite app_assoc. f_equal. unfold avail.
        rewrite Z2Nat.inj_add, <-drop_drop by lia. by rewrite take_drop.
      * right. right. unfold next_at. simpl. rewrite <-Hs. lia.
    + len_lia.
    + right. unfold next_at. simpl. rewrite <-Hs. lia.
Qed.

(** One segment: the loop reads content in order, moves on whenever it may, and
    stops short of the segment's end only at the limit. *)
Lemma binary_loop_spec L id start e T limit more :
  0 ≤ Byte start → 0 ≤ Seq start → e ≤ T < 2^64 → past id e more → ∀ n a buf next,
  n = Z.to_nat (e - a) → Seq start ≤ a ≤ e → next = next_at start a → len buf ≤ limit →
  ∃ buf' next' stop,
    binary_loop start e limit (record_items id L a e ++ more) None buf next
      = Ok (buf', next', stop) ∧
    reads_to L T limit buf next buf' next' ∧ upto start e next' ∧
    (a < e → len buf < limit → offset_lt next next') ∧
    (stop = true → len buf' = limit) ∧
    (stop = false → len buf' < limit → next' = next_at start e).
Proof.
  intros HB HS HT Hp. induction n as [|n IH]; intros a buf next Hn Ha Hnext Hl.
  - rewrite record_items_nil by lia. simpl. rewrite (binary_loop_past id) by done.
    exists buf, next, false. split_and!; [done|apply reads_to_refl| |lia|done|intros; subst; f_equal; lia].
    split; [subst; simpl; lia|]. intros. subst. by f_equal.
  - rewrite record_items_cons by lia. simpl. case_decide as Hroom.
    2: { exists buf, next, false. split_and!;
         [done|apply reads_to_refl| |lia|done|lia].
         split; [subst; simpl; lia|]. subst. simpl. by intros ->. }
    destruct (recordKey_seq id a ltac:(unfold is_u64; lia)) as [-> Hk]. run_result.
    rewrite Hk, decide_False by lia.
    destruct (binary_record L start a T limit buf next) as [Hfit Hbig]; [lia..|done|].
    replace (if decide (len (L a) < if decide (a = Seq start) then Byte start else 0)
             then len (L a) else if decide (a = Seq start) then Byte start else 0)
      with ((if decide (a = Seq start) then Byte start else 0) `min` len (L a))
      by (repeat case_decide; lia).
    set (avail := drop _ (L a)) in *.
    destruct (decide (len avail ≤ limit - len buf)) as [Hc|Hc].
    + rewrite u64_small by (unfold is_u64; lia).
      destruct (IH (a + 1) (buf ++ avail) (next_at start (a + 1)))
        as (buf' & next' & stop & Heq & Hr & Hle & Hadv & Hst & Hns);
        [lia|lia|done|rewrite length_app; lia|].
      exists buf', next', stop. split_and!; [| |done| |done|done].
      * rewrite <-Heq. f_equal. unfold next_at. by rewrite decide_False by lia.
      * eapply reads_to_trans; [by apply Hfit|done].
      * intros _ _. subst next. destruct Hr as (_ & _ & _ & _ & [->|Hr]).
        -- left. simpl. lia.
        -- etrans; [|exact Hr]. left. simpl. lia.
    + destruct Hbig as (? & ? & ?); [lia|].
      do 3 eexists. split_and!; [reflexivity|done|split; simpl; lia|done|done|done].
Qed.

(** One segment, as scanned from a store whose iterator may fail. *)
Lemma binary_segment_Ok L id start a e T limit s it buf next buf' next' stop :
  keys_wf (view s) → is_u64 id → 0 ≤ Byte start → 0 ≤ Seq start ≤ a → a ≤ e ≤ T → T < 2^64 →
  (∀ i, a ≤ i < e → stored_record (view s) id i (L i)) →
  store_Scan s (recordKey id a) (recordPrefixEnd id) = Ok it →
  next = next_at start a → len buf ≤ limit →
  binary_loop start e limit (it_items it) (it_err it) buf next = Ok (buf', next', stop) →
  reads_to L T limit buf next buf' next' ∧ upto start e next' ∧
  (a < e → len buf < limit → offset_lt next next') ∧
  (stop = true → len buf' = limit) ∧
  (stop = false → len buf' < limit → next' = next_at start e).
Proof.
  intros Hwf Hid HB HS He HT Hrec Hit Hnext Hl Hloop.
  destruct (Scan_view _ _ _ _ Hit) as [[more Hmore] Herr].
  apply (binary_loop_prefix _ _ _ _ more) in Hloop.
  2: { intros E. rewrite Herr in Hmore by done.
       apply (f_equal length) in Hmore. destruct more; [done|len_lia]. }
  rewrite <-Hmore, (record_scan_split _ _ Hwf Hid L a e) in Hloop by (done || lia).
  destruct (binary_loop_spec L id start e T limit
      (range_items (view s) (recordKey id e) (recordPrefixEnd id)) HB ltac:(lia) ltac:(lia)
      ltac:(apply record_scan_tail; [done..|unfold is_u64; lia]) _ a buf next eq_refl)
    as (? & ? & ? & Heq & ?); [lia|done..|].
  rewrite Heq in Hloop. by simplify_eq.
Qed.

(** All segments. *)
Lemma binary_segments_spec L start T limit s segs a c :
  keys_wf (view s) → 0 ≤ Byte start → 0 ≤ Seq start → T < 2^64 →
  segs_cover (view s) L segs a c → c ≤ T → ∀ buf next body next', Seq start ≤ a →
  next = next_at start a → len buf ≤ limit →
  binary_segments s start limit segs buf next = Ok (body, next') →
  reads_to L T limit buf next body next' ∧ upto start c next' ∧
  (a < c → len buf < limit → offset_lt next next') ∧
  (len body < limit → next' = next_at start c).
Proof.
  intros Hwf HB HS HT. induction 1 as [a|id a b c segs Hid Hab Hrec Hcov IH];
    intros Hc buf next body next' Ha Hnext Hl Hres; simpl in Hres.
  { ok_inv Hres. split_and!; [apply reads_to_refl|by subst|lia|done]. }
  pose proof (segs_cover_le _ _ _ _ _ Hcov).
  rewrite result_bind_Ok in Hres. destruct Hres as (it & Hit & Hres).
  rewrite result_bind_Ok in Hres. destruct Hres as ([[buf1 next1] stop] & Hloop & Hres).
  apply (binary_segment_Ok L id start a b T limit s) in Hloop
    as (Hr & Hle & Hadv & Hst & Hns); [|done || lia..].
  case_decide as Hstop.
  - ok_inv Hres. destruct Hle as [Hle Hle'].
    split_and!; [done|split; [lia|intros; replace c with b in * by lia; auto]|intros; auto|].
    intros Hlt. destruct Hstop as [->|?]; [specialize (Hst eq_refl); lia|lia].
  - assert (stop = false ∧ len buf1 < limit) as [-> Hlt]
      by (destruct stop; [tauto|split; [done|lia]]).
    specialize (Hns eq_refl Hlt). apply IH in Hres as (Hr' & ? & Hadv' & ?); [|done || lia..].
    split_and!; [by eapply reads_to_trans|done| |done].
    intros _ ?. specialize (Hadv Hab ltac:(lia)).
    destruct Hr' as (_ & _ & _ & _ & [->|?]); [done|by etrans].
Qed.

(** The walk and the scans of a healthy store succeed. *)
Lemma binary_loop_total start e limit items buf next :
  (∀ p, p ∈ items → ∃ ks, go_slice p.1 9 17 = Ok ks) →
  ∃ r, binary_loop start e limit items None buf next = Ok r.
Proof.
  revert buf next. induction items as [|[k v] items IH]; intros buf next Hk; simpl.
  { case_decide; by eexists. }
  case_decide; [|by eexists]. destruct (Hk (k, v)) as [ks Hks]; [left|]. simpl in Hks. rewrite Hks. run_result.
  repeat case_decide; try (by eexists); apply IH; intros; apply Hk; by right.
Qed.

Lemma scan_keys_ok s id a it :
  keys_wf (view s) → is_u64 id → is_u64 a →
  store_Scan s (recordKey id a) (recordPrefixEnd id) = Ok it → it_err it = None →
  ∀ p, p ∈ it_items it → ∃ ks, go_slice p.1 9 17 = Ok ks.
Proof.
  intros Hwf Hid Ha Hit Herr p Hp. destruct (Scan_view _ _ _ _ Hit) as [_ Heq].
  rewrite Heq in Hp by done. pose proof (record_scan_tail _ _ Hwf Hid a Ha) as Hf.
  rewrite Forall_forall in Hf. destruct (Hf _ Hp) as (q & v & -> & Hq & _).
  destruct (recordKey_seq id q Hq) as [? _]. by eexists.
Qed.

Lemma binary_segments_total L s start limit segs a c :
  healthy s → keys_wf (view s) → segs_cover (view s) L segs a c → 0 ≤ a → c < 2^64 →
  ∀ buf next, ∃ r, binary_segments s start limit segs buf next = Ok r.
Proof.
  intros Hh Hwf. induction 1 as [a|id a b c segs Hid Hab Hrec Hcov IH];
    intros Ha Hc buf next; simpl; [by eexists|].
  pose proof (segs_cover_le _ _ _ _ _ Hcov).
  destruct (healthy_Scan s (recordKey id a) (recordPrefixEnd id) Hh) as (it & Hit & Herr).
  rewrite Hit. run_result. rewrite Herr.
  destruct (binary_loop_total start b limit (it_items it) buf next) as [[[buf1 next1] stop] ->].
  { apply (scan_keys_ok s id a); [done..|unfold is_u64; lia|done|done]. }
  run_result. case_decide; [by eexists|]. apply IH; lia.
Qed.

(** ** Lemmas: JSON bodies *)

(** The bytes of the messages [a .. b). *)
Definition size (L : Z → bytes) (a b : Z) : Z := len (concat (payloads L a b)).

Lemma size_snoc L a b : a ≤ b → size L a (b + 1) = size L a b + len (L b).
Proof.
  intros. unfold size. rewrite payloads_snoc, concat_app by lia. simpl.
  rewrite app_nil_r, length_app. lia.
Qed.

Lemma size_nil L a b : b ≤ a → size L a b = 0.
Proof. intros. unfold size. by rewrite payloads_nil by lia. Qed.

Lemma payloads_eq_nil L a b : payloads L a b = [] ↔ b ≤ a.
Proof.
  split; [|apply payloads_nil]. intros Hn.
  destruct (decide (a < b)); [|lia]. by rewrite payloads_cons in Hn by lia.
Qed.

Lemma json_loop_prefix e limit items more err recs total nextSeq r :
  (err = None → more = []) →
  json_loop e limit items err recs total nextSeq = Ok r →
  json_loop e limit (items ++ more) None recs total nextSeq = Ok r.
Proof.
  intros Hmore. revert recs total nextSeq.
  induction items as [|[k v] items IH]; intros recs total nextSeq Hr.
  - destruct err; simpl in *; [done|]. by rewrite Hmore.
  - simpl in *. revert Hr. rewrite !result_bind_Ok.
    intros (ks & Hks & Hr). exists ks. split; [done|].
    repeat case_decide; try done; by apply IH.
Qed.

(** What a JSON read that began at [a0] and has reached [b] delivered, when it
    could have gone on to [e]. *)
Definition json_stops (L : Z → bytes) (limit a0 b e : Z) : Prop :=
  a0 < b ∧ (limit ≤ size L a0 b ∨ (b < e ∧ limit < size L a0 (b + 1))).

Lemma json_loop_spec L id a0 e limit more :
  0 ≤ a0 → e < 2^64 → past id e more → ∀ n a,
  n = Z.to_nat (e - a) → a0 ≤ a ≤ e → (a0 = a ∨ size L a0 a < limit) →
  ∃ b stop,
    json_loop e limit (record_items id L a e ++ more) None
      (payloads L a0 a) (size L a0 a) a = Ok (payloads L a0 b, size L a0 b, b, stop) ∧
    a ≤ b ≤ e ∧ (size L a0 b ≤ limit ∨ b ≤ a0 + 1) ∧
    (stop = true → json_stops L limit a0 b e) ∧
    (stop = false → b = e ∧ (a0 = b ∨ size L a0 b < limit)).
Proof.
  intros H0' He Hp. induction n as [|n IH]; intros a Hn Ha Hl.
  - exists a, false. rewrite record_items_nil by lia.
    split_and!; [|lia|lia|destruct Hl; [right; lia|left; lia]|done|intros _; split; [lia|done]].
    destruct more as [|[k v] more]; [done|]. simpl.
    inversion Hp as [|?? (q & v' & E & Hq & Hge) ?]; subst. injection E as -> ->.
    destruct (recordKey_seq id q Hq) as [-> E']. run_result. by rewrite E', decide_True.
  - rewrite record_items_cons by lia. simpl.
    destruct (recordKey_seq id a ltac:(unfold is_u64; lia)) as [-> Hk]. run_result.
    rewrite Hk, decide_False by lia. rewrite u64_small by (unfold is_u64; lia).
    rewrite <-payloads_snoc, <-size_snoc by lia.
    case_decide as Hbig; rewrite payloads_eq_nil in Hbig.
    + exists a, true. split_and!; [done|lia|lia| |intros _|done].
      * destruct Hl; [right; lia|left; lia].
      * split; [lia|]. right. split; [lia|]. lia.
    + case_decide as Hfull.
      * exists (a + 1), true. split_and!; [done|lia|lia| |intros _; split; [lia|by left]|done].
        destruct (decide (a ≤ a0)); [right; lia|left; lia].
      * destruct (IH (a + 1)) as (b & stop & -> & ?); [lia|lia|right; lia|].
        exists b, stop. destruct_and?. split_and!; (done || lia).
Qed.

Lemma json_segments_spec L a0 s limit segs a c T :
  keys_wf (view s) → 0 ≤ a0 → T < 2^64 → segs_cover (view s) L segs a c → c ≤ T → a0 ≤ a →
  (a0 = a ∨ size L a0 a < limit) → ∀ recs nextSeq,
  json_segments s limit segs (payloads L a0 a) (size L a0 a) a false = Ok (recs, nextSeq) →
  recs = payloads L a0 nextSeq ∧ a ≤ nextSeq ≤ c ∧
  (size L a0 nextSeq ≤ limit ∨ nextSeq ≤ a0 + 1) ∧
  (nextSeq = c ∨ json_stops L limit a0 nextSeq c).
Proof.
  intros Hwf H0' HT. induction 1 as [a|id a b c segs Hid Hab Hrec Hcov IH];
    intros Hc Ha Hl recs nextSeq Hres; simpl in Hres.
  { ok_inv Hres. split_and!; [done|lia|lia|destruct Hl; [right; lia|left; lia]|by left]. }
  pose proof (segs_cover_le _ _ _ _ _ Hcov).
  rewrite result_bind_Ok in Hres. destruct Hres as (it & Hit & Hres).
  rewrite result_bind_Ok in Hres. destruct Hres as ([[[recs1 total1] next1] stop] & Hloop & Hres).
  destruct (Scan_view _ _ _ _ Hit) as [[more Hmore] Herr].
  apply (json_loop_prefix _ _ _ more) in Hloop.
  2: { intros E. rewrite Herr in Hmore by done.
       apply (f_equal length) in Hmore. rewrite length_app in Hmore.
       destruct more; [done|simpl in Hmore; lia]. }
  rewrite <-Hmore, (record_scan_split _ _ Hwf Hid L a b) in Hloop by (done || lia).
  destruct (json_loop_spec L id a0 b limit
      (range_items (view s) (recordKey id b) (recordPrefixEnd id)) ltac:(lia) ltac:(lia)
      ltac:(apply record_scan_tail; [done..|unfold is_u64; lia]) _ a eq_refl)
    as (b' & stop' & Heq & Hle & Hsz & Hst & Hns); [lia|done|].
  rewrite Heq in Hloop. simplify_eq. destruct stop.
  - destruct (Hst eq_refl) as [? Hstop]. destruct segs; simpl in Hres; ok_inv Hres;
      (split_and!; [done|lia|lia|done|right; split; [done|]; destruct Hstop; [by left|right; lia]]).
  - destruct (Hns eq_refl) as [-> ?]. apply IH in Hres as (-> & ? & ? & ?); [|lia..|done].
    split_and!; (done || lia).
Qed.

Lemma json_loop_total e limit items recs total nextSeq :
  (∀ p, p ∈ items → ∃ ks, go_slice p.1 9 17 = Ok ks) →
  ∃ r, json_loop e limit items None recs total nextSeq = Ok r.
Proof.
  revert recs total nextSeq. induction items as [|[k v] items IH]; intros recs total nx Hk; simpl.
  { by eexists. }
  destruct (Hk (k, v)) as [ks Hks]; [left|]. simpl in Hks. rewrite Hks. run_result.
  repeat case_decide; try (by eexists); apply IH; intros; apply Hk; by right.
Qed.

Lemma json_segments_total L s limit segs a c :
  healthy s → keys_wf (view s) → segs_cover (view s) L segs a c → 0 ≤ a → c < 2^64 →
  ∀ recs total nextSeq stop, ∃ r, json_segments s limit segs recs total nextSeq stop = Ok r.
Proof.
  intros Hh Hwf. induction 1 as [a|id a b c segs Hid Hab Hrec Hcov IH];
    intros Ha Hc recs total nx stop; simpl; [by eexists|].
  pose proof (segs_cover_le _ _ _ _ _ Hcov). destruct stop; [by eexists|].
  destruct (healthy_Scan s (recordKey id a) (recordPrefixEnd id) Hh) as (it & Hit & Herr).
  rewrite Hit. run_result. rewrite Herr.
  destruct (json_loop_total b limit (it_items it) recs total nx) as [[[[??]?]?] ->].
  { apply (scan_keys_ok s id a); [done..|unfold is_u64; lia|done|done]. }
  run_result. apply IH; lia.
Qed.

(** ** [readRange] *)

(** What a binary read from [start] returns. *)
Record binary_read (L : Z → bytes) (start : Offset) (T limit : Z)
    (body : bytes) (next : Offset) (upToDate : bool) : Prop := {
  br_content : body ++ content_from L next T = content_from L start T;
  br_limit : len body ≤ limit;
  br_upToDate : upToDate = true ↔ T ≤ Seq next;
  br_short : len body < limit → upToDate = true;
  br_progress : Seq start < T → 0 < limit → offset_lt start next;
  br_next : Seq start < T → Seq next ≤ T ∧ (Seq next = T → Byte next = 0);
  br_idle : T ≤ Seq start → next = start }.

(** What a JSON read from [start] returns: the whole messages [Seq start .. n). *)
Record json_read (L : Z → bytes) (start : Offset) (T limit : Z)
    (body : bytes) (next : Offset) (upToDate : bool) : Prop := {
  jr_content : body = wrapJSONArray (payloads L (Seq start) (Seq next));
  jr_range : Seq start < T → Seq start < Seq next ≤ T ∧ Byte next = 0;
  jr_idle : T ≤ Seq start → next = start;
  jr_upToDate : upToDate = true ↔ T ≤ Seq next;
  jr_limit : size L (Seq start) (Seq next) ≤ limit ∨ Seq next ≤ Seq start + 1;
  jr_full : upToDate = false → limit < size L (Seq start) (Seq next + 1) ∨
                               limit ≤ size L (Seq start) (Seq next) }.

Lemma next_at_start start : next_at start (Seq start) = start.
Proof. destruct start. unfold next_at. simpl. by rewrite decide_True. Qed.

Lemma readRange_binary_read L s id ff fo start T limit body next upToDate :
  keys_wf (view s) → log_at (view s) L id ff fo T →
  0 ≤ Seq start → 0 ≤ Byte start → 0 ≤ limit → T < 2^64 →
  readRange s id ff fo false start T limit = Ok (body, next, upToDate) →
  binary_read L start T limit body next upToDate.
Proof.
  intros Hwf Hl HS HB H0' HT. unfold readRange. case_decide as Hend.
  { intros Hr. ok_inv Hr. split; simpl; [done|lia|intuition lia|done|lia|lia|done]. }
  rewrite result_bind_Ok. intros (segs & Hsegs & Hr).
  apply (resolveSegments_cover L) in Hsegs; [|done|lia].
  unfold readSegmentsBinary in Hr. rewrite result_bind_Ok in Hr.
  destruct Hr as ([buf next'] & Hr & Hret). ok_inv Hret.
  apply (binary_segments_spec L start T limit s segs (Seq start) T) in Hr
    as ((c & -> & Hc & Hlim & Ho) & Hle & Hadv & Hshort);
    [|done..|lia|lia|by rewrite next_at_start|simpl; lia].
  simpl in *. split; simpl.
  - done.
  - auto with lia.
  - apply bool_decide_eq_true.
  - intros Hlt. rewrite Hshort by done. apply bool_decide_eq_true. simpl. lia.
  - auto with lia.
  - intros ?. destruct Hle as [? Hle]. split; [done|]. intros HnT.
    rewrite Hle by done. simpl. by rewrite decide_False by lia.
  - lia.
Qed.

Lemma readRange_json_read L s id ff fo start T limit body next upToDate :
  keys_wf (view s) → log_at (view s) L id ff fo T → 0 ≤ Seq start → 0 ≤ limit → T < 2^64 →
  readRange s id ff fo true start T limit = Ok (body, next, upToDate) →
  json_read L start T limit body next upToDate.
Proof.
  intros Hwf Hl HS H0' HT. unfold readRange. case_decide as Hend.
  { intros Hr. ok_inv Hr. split; [by rewrite payloads_nil by lia|lia|done|intuition lia|lia|done]. }
  rewrite result_bind_Ok. intros (segs & Hsegs & Hr).
  apply (resolveSegments_cover L) in Hsegs; [|done|lia].
  unfold readSegmentsJSON in Hr. rewrite result_bind_Ok in Hr.
  destruct Hr as ([recs nextSeq] & Hr & Hret). ok_inv Hret.
  rewrite <-(payloads_nil L (Seq start) (Seq start)), <-(size_nil L (Seq start) (Seq start))
    in Hr by lia.
  apply (json_segments_spec L (Seq start) s limit segs (Seq start) T T) in Hr
    as (-> & ? & ? & Hstop); [|done || lia..|by left].
  unfold json_stops in Hstop.
  split; simpl; [done| |lia|apply bool_decide_eq_true|done|].
  - intros _. split; [|done]. destruct Hstop; lia.
  - rewrite bool_decide_eq_false. destruct Hstop as [->|[_ [?|[_ ?]]]]; [lia|by right|by left].
Qed.

Lemma readRange_total L s id ff fo isJSON start T limit :
  healthy s → keys_wf (view s) → log_at (view s) L id ff fo T → 0 ≤ Seq start → T < 2^64 →
  ∃ r, readRange s id ff fo isJSON start T limit = Ok r.
Proof.
  intros Hh Hwf Hl HS HT. unfold readRange. case_decide; [by eexists|].
  destruct (resolveSegments_total L s id ff fo T Hh Hl (chain_fuel id) (Seq start) ltac:(lia))
    as [segs Hsegs]. rewrite Hsegs. run_result.
  apply (resolveSegments_cover L) in Hsegs; [|done|lia].
  destruct isJSON; unfold readSegmentsJSON, readSegmentsBinary.
  - destruct (json_segments_total L s limit segs _ _ Hh Hwf Hsegs HS HT [] 0 (Seq start) false)
      as [[??] ->]. by eexists.
  - destruct (binary_segments_total L s start limit segs _ _ Hh Hwf Hsegs HS HT [] start)
      as [[??] ->]. by eexists.
Qed.

(** ** Properties *)

(** The offsets a binary read returns are never negative. *)
Lemma binary_loop_byte start e limit items err buf next r :
  0 ≤ Byte start → 0 ≤ Byte next → binary_loop start e limit items err buf next = Ok r →
  0 ≤ Byte r.1.2.
Proof.
  intros Hs. revert buf next. induction items as [|[k v] items IH]; intros buf next Hn Hr; simpl in Hr.
  - case_decide; [destruct err|]; ok_inv Hr; done.
  - case_decide as Hlt; [|by ok_inv Hr]. rewrite result_bind_Ok in Hr. destruct Hr as (ks & _ & Hr).
    case_decide; [by ok_inv Hr|].
    match type of Hr with context [decide (?a ≤ ?b)] => destruct (decide (a ≤ b)) end.
    + by apply IH in Hr.
    + ok_inv Hr. simpl. repeat case_decide; lia.
Qed.

Lemma binary_segments_byte s start limit segs buf next r :
  0 ≤ Byte start → 0 ≤ Byte next → binary_segments s start limit segs buf next = Ok r → 0 ≤ Byte r.2.
Proof.
  intros Hs. revert buf next. induction segs as [|seg segs IH]; intros buf next Hn Hr; simpl in Hr.
  { by ok_inv Hr. }
  rewrite result_bind_Ok in Hr. destruct Hr as (it & _ & Hr). rewrite result_bind_Ok in Hr.
  destruct Hr as ([[buf' next'] stop] & Hl & Hr). apply binary_loop_byte in Hl; [|done..]. simpl in Hl.
  case_decide; [by ok_inv Hr|by apply IH in Hr].
Qed.

Lemma readRange_byte s id ff fo start T limit body next utd :
  0 ≤ Byte start → readRange s id ff fo false start T limit = Ok (body, next, utd) → 0 ≤ Byte next.
Proof.
  intros Hs. unfold readRange. case_decide; [intros Hr; by ok_inv Hr|].
  rewrite result_bind_Ok. intros (segs & _ & Hr). unfold readSegmentsBinary in Hr.
  rewrite result_bind_Ok in Hr. destruct Hr as ([buf n] & Hr & Hret). ok_inv Hret.
  by apply binary_segments_byte in Hr.
Qed.

(** C9: a binary read of a stream, inherited prefix of a fork included, returns
    the stream's bytes from the requested offset on: the body followed by what
    remains after the returned offset is what was to be read. The body obeys the
    limit, a short body means the tail was reached, and a reader that was behind
    the tail always advances. On a store that does not fail the read succeeds
    (in particular the walk along the fork chain ends). *)
Theorem readRange_binary_correct L s id ff fo start T limit :
  keys_wf (view s) → log_at (view s) L id ff fo T →
  0 ≤ Seq start → 0 ≤ Byte start → 0 ≤ limit → T < 2^64 →
  (∀ body next upToDate,
     readRange s id ff fo false start T limit = Ok (body, next, upToDate) →
     binary_read L start T limit body next upToDate) ∧
  (healthy s → ∃ body next upToDate,
     readRange s id ff fo false start T limit = Ok (body, next, upToDate)).
Proof.
  intros. split; [intros; by eapply readRange_binary_read|].
  intros Hh. destruct (readRange_total L s id ff fo false start T limit) as [[[??]?] ?];
    [done..|eauto].
Qed.

(** C14: a JSON read returns whole messages, the array of exactly the messages
    from the requested one up to the returned one, as many as the limit allows
    and at least one when the reader is behind the tail. *)
Theorem readRange_json_correct L s id ff fo start T limit :
  keys_wf (view s) → log_at (view s) L id ff fo T →
  0 ≤ Seq start → 0 ≤ limit → T < 2^64 →
  (∀ body next upToDate,
     readRange s id ff fo true start T limit = Ok (body, next, upToDate) →
     json_read L start T limit body next upToDate) ∧
  (healthy s → ∃ body next upToDate,
     readRange s id ff fo true start T limit = Ok (body, next, upToDate)).
Proof.
  intros. split; [intros; by eapply readRange_json_read|].
  intros Hh. destruct (readRange_total L s id ff fo true start T limit) as [[[??]?] ?];
    [done..|eauto].
Qed.

End read_lemmas.

(** ** A forked stream, for the witnesses

    Stream 1 at "a" holds "xy", "z"; stream 2 forks it at record 1 and adds "w". *)
Module Sample.
Definition meta1 : StreamMeta :=
  {| StreamID := 1; ContentType := ["t"%byte]; TTLSeconds := 0; ExpiresAt := 0;
     Closed := false; CreatedAtMs := 0; IsPrivate := false; Deadline := 0;
     ForkedFrom := 0; ForkOffset := 0; ForkByte := 0 |}.
Definition log (i : Z) : bytes :=
  if decide (i = 0) then ["x"%byte; "y"%byte] else ["w"%byte].
Definition ops : list Op :=
  [PutOp (metaKey ["a"%byte]) (Marshal meta1); PutOp (idMappingKey 1) ["a"%byte];
   PutOp (recordKey 1 0) (marshalRecord recFlagNone ["x"%byte; "y"%byte]);
   PutOp (recordKey 1 1) (marshalRecord recFlagNone ["z"%byte]);
   PutOp (recordKey 2 1) (marshalRecord recFlagNone ["w"%byte])].
Definition store : fakeStore :=
  {| fake_data := apply_ops ∅ ops; fake_seq := 1; fake_closed := false |}.

Lemma store_keys_wf : keys_wf (view store).
Proof.
  apply keys_wf_apply_ops; [apply keys_wf_empty|]. unfold ops.
  repeat constructor; (eapply op_wf_put; [|first
    [exact (eq_refl : _ = encode_skey (KMeta _)) | exact (eq_refl : _ = encode_skey (KIDMapping _))
    |exact (eq_refl : _ = encode_skey (KRecord _ _))]]); unfold skey_wf, is_u64; lia || done.
Qed.

Lemma store_log : log_at (view store) log 2 1 1 2.
Proof.
  apply (log_fork _ _ _ _ _ _ ["a"%byte] meta1); [unfold is_u64; lia..|lia|lia|by vm_compute| | |].
  - split_and!; [|done|by vm_compute]. split_and!; done.
  - apply log_root; unfold is_u64; try lia. intros i Hi.
    assert (i = 0) as -> by lia. by vm_compute.
  - intros i Hi. assert (i = 1) as -> by lia. by vm_compute.
Qed.
End Sample.

Lemma readRange_binary_correct_witness :
  let o := {| Seq := 0; Byte := 1 |} in
  binary_read Sample.log o 2 10 ["y"%byte; "w"%byte] {| Seq := 2; Byte := 0 |} true.
Proof.
  apply (readRange_binary_correct Sample.log Sample.store 2 1 1);
    [apply Sample.store_keys_wf|apply Sample.store_log|done..|by vm_compute].
Defined.

Lemma readRange_json_correct_witness :
  json_read Sample.log {| Seq := 0; Byte := 0 |} 2 2
    (wrapJSONArray [["x"%byte; "y"%byte]]) {| Seq := 1; Byte := 0 |} false.
Proof.
  apply (readRange_json_correct Sample.log Sample.store 2 1 1);
    [apply Sample.store_keys_wf|apply Sample.store_log|done..|by vm_compute].
Defined.
