(* ===== verification/Json.v ===== *)
(** * JSON append bodies (internal/ds/json.go)

    A body appended to a JSON stream is validated, flattened one level when it is
    an array, and stored compacted. The program does this with the scanner of Go's
    encoding/json; this file defines that scanner for what the program uses of it
    ([json.Valid], [json.Compact], [json.Unmarshal] into a list of raw messages),
    its nesting limit included, and [flattenJSON] on top. *)

From S2P Require Import Prelude.
From S2P Require Import Bytes.
From S2P Require Import Decimal.
From S2P Require Import Read.

(** ** [bytes.TrimSpace]: the UTF-8 encodings of white space are cut off *)

Definition space_encodings : list bytes :=
  [[x09]; [x0a]; [x0b]; [x0c]; [x0d]; [x20]; [xc2; x85]; [xc2; xa0]; [xe1; x9a; x80];
   [xe2; x80; xa8]; [xe2; x80; xa9]; [xe2; x80; xaf]; [xe2; x81; x9f]; [xe3; x80; x80]]
  ++ ((λ c, [xe2; x80; c]) <$>
      [x80; x81; x82; x83; x84; x85; x86; x87; x88; x89; x8a]).

Fixpoint strip_prefix (p b : bytes) : option bytes :=
  match p, b with
  | [], _ => Some b
  | x :: p', y :: b' => if decide (x = y) then strip_prefix p' b' else None
  | _ :: _, [] => None
  end.

(** One encoding off the front. *)
Fixpoint strip_any (ps : list bytes) (b : bytes) : option bytes :=
  match ps with
  | [] => None
  | p :: ps' => match strip_prefix p b with Some r => Some r | None => strip_any ps' b end
  end.

Fixpoint trim_front (fuel : nat) (ps : list bytes) (b : bytes) : bytes :=
  match fuel with
  | O => b
  | S n => match strip_any ps b with Some r => trim_front n ps r | None => b end
  end.

Definition bytes_TrimSpace (b : bytes) : bytes :=
  let b := trim_front (length b) space_encodings b in
  reverse (trim_front (length b) (reverse <$> space_encodings) (reverse b)).

(** ** The scanner

    Each function reads one construct off the front of its input and returns it
    compacted, with what follows it. *)

Definition json_ws (c : byte) : bool := bool_decide (c ∈ [" "%byte; x09; x0a; x0d]).

Fixpoint skip_ws (b : bytes) : bytes :=
  match b with c :: r => if json_ws c then skip_ws r else b | [] => [] end.

Definition is_hex (c : byte) : bool :=
  let z := byte_to_Z c in
  bool_decide (48 ≤ z ≤ 57 ∨ 65 ≤ z ≤ 70 ∨ 97 ≤ z ≤ 102).
Definition hex4 (h1 h2 h3 h4 : byte) : bool := is_hex h1 && is_hex h2 && is_hex h3 && is_hex h4.
Definition simple_escape (c : byte) : bool :=
  bool_decide (c ∈ ["b"; "f"; "n"; "r"; "t"; "\"; "/"; x22]%byte).

(** A string after its opening quote; the result ends with the closing quote. *)
Fixpoint json_string (b : bytes) : result (bytes * bytes) :=
  match b with
  | [] => Err errInvalidJSON
  | c :: r =>
      if decide (c = x22) then mret ([c], r) else
      if decide (c = "\"%byte) then
        match r with
        | [] => Err errInvalidJSON
        | e :: r1 =>
            if simple_escape e then
              '(s, rest) ← json_string r1; mret (c :: e :: s, rest)
            else if decide (e = "u"%byte) then
              match r1 with
              | h1 :: h2 :: h3 :: h4 :: r2 =>
                  if hex4 h1 h2 h3 h4 then
                    '(s, rest) ← json_string r2;
                    mret (c :: e :: h1 :: h2 :: h3 :: h4 :: s, rest)
                  else Err errInvalidJSON
              | _ => Err errInvalidJSON
              end
            else Err errInvalidJSON
        end
      else if decide (byte_to_Z c < 32) then Err errInvalidJSON else
        '(s, rest) ← json_string r; mret (c :: s, rest)
  end.

Fixpoint digits (b : bytes) : bytes * bytes :=
  match b with
  | c :: r => if decide (is_digit c) then let '(d, rest) := digits r in (c :: d, rest) else ([], b)
  | [] => ([], [])
  end.

(** At least one digit. *)
Definition digits1 (b : bytes) : result (bytes * bytes) :=
  match digits b with ([], _) => Err errInvalidJSON | (d, rest) => mret (d, rest) end.

Definition json_int (b : bytes) : result (bytes * bytes) :=
  match b with
  | c :: r => if decide (c = "0"%byte) then mret ([c], r) else digits1 b
  | [] => Err errInvalidJSON
  end.
Definition json_frac (b : bytes) : result (bytes * bytes) :=
  match b with
  | c :: r => if decide (c = "."%byte) then '(d, rest) ← digits1 r; mret (c :: d, rest)
              else mret ([], b)
  | [] => mret ([], [])
  end.
Definition json_exp (b : bytes) : result (bytes * bytes) :=
  match b with
  | c :: r =>
      if decide (c = "e"%byte ∨ c = "E"%byte) then
        let '(sg, r1) := match r with
                         | g :: r1 => if decide (g = "+"%byte ∨ g = "-"%byte) then ([g], r1) else ([], r)
                         | [] => ([], r)
                         end in
        '(d, rest) ← digits1 r1; mret (c :: sg ++ d, rest)
      else mret ([], b)
  | [] => mret ([], [])
  end.
Definition json_minus (b : bytes) : bytes * bytes :=
  match b with
  | c :: r => if decide (c = "-"%byte) then ([c], r) else ([], b)
  | [] => ([], [])
  end.
Definition json_number (b : bytes) : result (bytes * bytes) :=
  let '(sg, b) := json_minus b in
  '(i, b) ← json_int b;
  '(f, b) ← json_frac b;
  '(e, b) ← json_exp b;
  mret (sg ++ i ++ f ++ e, b).

Definition json_true : bytes := ["t"; "r"; "u"; "e"]%byte.
Definition json_false : bytes := ["f"; "a"; "l"; "s"; "e"]%byte.
Definition json_null : bytes := ["n"; "u"; "l"; "l"]%byte.

(** Literals and numbers. *)
Definition json_scalar (b : bytes) : result (bytes * bytes) :=
  match strip_any [json_true] b, strip_any [json_false] b, strip_any [json_null] b with
  | Some r, _, _ => mret (json_true, r)
  | _, Some r, _ => mret (json_false, r)
  | _, _, Some r => mret (json_null, r)
  | None, None, None => json_number b
  end.

(** The nesting limit of the scanner. *)
Definition maxNestingDepth : Z := 10000.

(** After an opening bracket: the closing one, or a non-empty body. *)
Definition json_open (close : byte) (body : bytes → result (bytes * bytes)) (r : bytes)
  : result (bytes * bytes) :=
  match skip_ws r with
  | x :: r' => if decide (x = close) then mret ([x], r') else body (x :: r')
  | [] => Err errInvalidJSON
  end.

(** After a value inside brackets: the closing one, or a comma and more. *)
Definition json_next (close : byte) (body : bytes → result (bytes * bytes)) (r : bytes)
  : result (bytes * bytes) :=
  match skip_ws r with
  | y :: r' =>
      if decide (y = close) then mret ([y], r')
      else if decide (y = ","%byte) then '(m, rest) ← body (skip_ws r'); mret (y :: m, rest)
      else Err errInvalidJSON
  | [] => Err errInvalidJSON
  end.

(** After a key: a colon and the value. *)
Definition json_colon (body : bytes → result (bytes * bytes)) (r : bytes)
  : result (bytes * bytes) :=
  match skip_ws r with
  | y :: r' => if decide (y = ":"%byte) then '(v, rest) ← body (skip_ws r'); mret (y :: v, rest)
               else Err errInvalidJSON
  | [] => Err errInvalidJSON
  end.

(** [d] is the number of open objects and arrays. *)
Fixpoint json_value (fuel : nat) (d : Z) (b : bytes) : result (bytes * bytes) :=
  match fuel with
  | O => Err outOfFuel
  | S n =>
      match b with
      | [] => Err errInvalidJSON
      | c :: r =>
          if decide (c = "{"%byte) then
            if decide (maxNestingDepth < d + 1) then Err errInvalidJSON else
            '(m, rest) ← json_open "}"%byte (json_members n (d + 1)) r; mret (c :: m, rest)
          else if decide (c = "["%byte) then
            if decide (maxNestingDepth < d + 1) then Err errInvalidJSON else
            '(m, rest) ← json_open "]"%byte (json_elements n (d + 1)) r; mret (c :: m, rest)
          else if decide (c = x22) then '(s, rest) ← json_string r; mret (c :: s, rest)
          else json_scalar b
      end
  end
(** Members up to and with the closing brace; the input starts at a key. *)
with json_members (fuel : nat) (d : Z) (b : bytes) : result (bytes * bytes) :=
  match fuel with
  | O => Err outOfFuel
  | S n =>
      match b with
      | c :: r =>
          if decide (c = x22) then
            '(k, r1) ← json_string r;
            '(v, r2) ← json_colon (json_value n d) r1;
            '(t, rest) ← json_next "}"%byte (json_members n d) r2;
            mret (c :: k ++ v ++ t, rest)
          else Err errInvalidJSON
      | [] => Err errInvalidJSON
      end
  end
(** Elements up to and with the closing bracket; the input starts at a value. *)
with json_elements (fuel : nat) (d : Z) (b : bytes) : result (bytes * bytes) :=
  match fuel with
  | O => Err outOfFuel
  | S n =>
      '(v, r1) ← json_value n d b;
      '(t, rest) ← json_next "]"%byte (json_elements n d) r1;
      mret (v ++ t, rest)
  end.

(** Every call consumes input, except from elements to their first value. *)
Definition json_fuel (b : bytes) : nat := (2 * length b + 2)%nat.

(** ** What the program uses of encoding/json *)

(** [json.Compact]: one value, with white space around it. *)
Definition compactJSON (b : bytes) : result bytes :=
  '(v, rest) ← json_value (json_fuel b) 0 (skip_ws b);
  match skip_ws rest with [] => mret v | _ => Err errInvalidJSON end.

Definition json_Valid (b : bytes) : bool :=
  match compactJSON b with Ok _ => true | Err _ => false end.

(** The elements of an array as they stand in the input, from the first one on. *)
Fixpoint raw_elements (fuel : nat) (b : bytes) : result (list bytes) :=
  match fuel with
  | O => Err outOfFuel
  | S n =>
      '(_, r1) ← json_value (json_fuel b) 1 b;
      let el := take (length b - length r1) b in
      match skip_ws r1 with
      | y :: r2 =>
          if decide (y = "]"%byte) then mret [el]
          else if decide (y = ","%byte) then
            els ← raw_elements n (skip_ws r2);
            mret (el :: els)
          else Err errInvalidJSON
      | [] => Err errInvalidJSON
      end
  end.

(** [json.Unmarshal(b, &arr)] for an array [b]: validated as a whole first. *)
Definition json_Unmarshal_array (b : bytes) : result (list bytes) :=
  _ ← compactJSON b;
  match skip_ws b with
  | _ :: r =>
      match skip_ws r with
      | x :: r' => if decide (x = "]"%byte) then mret []
                   else raw_elements (json_fuel b) (x :: r')
      | [] => Err errInvalidJSON
      end
  | [] => Err errInvalidJSON
  end.

(** The loop that compacts the elements. *)
Fixpoint compact_all (els : list bytes) : result (list bytes) :=
  match els with
  | [] => mret []
  | el :: rest =>
      c ← match compactJSON el with Ok c => mret c | Err _ => Err errInvalidJSON end;
      cs ← compact_all rest;
      mret (c :: cs)
  end.

Definition flattenJSON (body : bytes) : result (list bytes) :=
  let trimmed := bytes_TrimSpace body in
  match trimmed with
  | [] => Err errInvalidJSON
  | c :: _ =>
      if decide (c = "["%byte) then
        match json_Unmarshal_array trimmed with
        | Err _ => Err errInvalidJSON
        | Ok [] => Err errEmptyArray
        | Ok arr => compact_all arr
        end
      else if json_Valid trimmed then
        match compactJSON trimmed with
        | Ok c => mret [c]
        | Err _ => Err errInvalidJSON
        end
      else Err errInvalidJSON
  end.

(** ** Lemmas: one construct off the front *)

(** The first byte, if there is one, satisfies [P]. *)
Definition starts (P : byte → Prop) (b : bytes) : Prop :=
  match b with c :: _ => P c | [] => True end.

(** What may follow a value: the end, white space, or a separator. *)
Definition delim_char (c : byte) : Prop := json_ws c = true ∨ c ∈ [","; "]"; "}"]%byte.
Abbreviation delim := (starts delim_char).

Lemma starts_weaken (P Q : byte → Prop) b : (∀ c, P c → Q c) → starts P b → starts Q b.
Proof. destruct b; simpl; auto. Qed.

Lemma starts_app (P : byte → Prop) a b :
  (a = [] → starts P b) → starts P a → starts P (a ++ b).
Proof. destruct a; simpl; auto. Qed.

Lemma delim_char_cases c :
  delim_char c → c ∈ [" "%byte; x09; x0a; x0d; ","%byte; "]"%byte; "}"%byte].
Proof. intros [Hc%bool_decide_eq_true|Hc]; set_solver. Qed.

(** Check a fact about the delimiters one by one. *)
Ltac each_delim H :=
  apply delim_char_cases in H; repeat (apply elem_of_cons in H as [->|H]); [..|by apply elem_of_nil in H].

Lemma skip_ws_split b : ∃ w, b = w ++ skip_ws b ∧ Forall (λ c, json_ws c = true) w.
Proof.
  induction b as [|c b (w & Hb & Hw)]; simpl; [by exists []|].
  destruct (json_ws c) eqn:Hc; [|by exists []].
  exists (c :: w). simpl. split; [by f_equal|by constructor].
Qed.

Lemma skip_ws_app w y z :
  Forall (λ c, json_ws c = true) w → json_ws y = false → skip_ws (w ++ y :: z) = y :: z.
Proof. induction 1 as [|c w Hc Hw IH]; simpl; intros Hy; [by rewrite Hy|rewrite Hc; auto]. Qed.

Lemma skip_ws_starts b : starts (λ c, json_ws c = false) (skip_ws b).
Proof. induction b as [|c b IH]; simpl; [done|]. by destruct (json_ws c) eqn:?. Qed.

Lemma skip_ws_id b : starts (λ c, json_ws c = false) b → skip_ws b = b.
Proof. destruct b as [|c b]; simpl; [done|]. by intros ->. Qed.

Lemma skip_ws_delim b y : json_ws y = false → delim_char y → ∀ z w,
  Forall (λ c, json_ws c = true) w → b = w ++ y :: z → delim b.
Proof.
  intros _ Hy z w Hw ->. apply starts_app; [by intros _|].
  destruct Hw; simpl; [done|by left].
Qed.

(** Both sides as one concatenation. *)
Ltac regroup := subst; repeat (rewrite <-!app_assoc || cbn [app]); done.

(** Decide the byte comparisons of a step. *)
Ltac decs := repeat first [rewrite decide_True by done | rewrite decide_False by done].

Lemma json_string_local n b s rest :
  (length b ≤ n)%nat → json_string b = Ok (s, rest) →
  b = s ++ rest ∧ s ≠ [] ∧ ∀ x, json_string (s ++ x) = Ok (s, x).
Proof.
  revert b s rest. induction n as [|n IH]; intros [|c r] s rest Hn H; simpl in Hn; try done; [lia|].
  assert (Hrec : ∀ r' pre s' rest', (length r' ≤ n)%nat → json_string r' = Ok (s', rest') →
    (∀ t, json_string (pre ++ t) = ('(u, v) ← json_string t; mret (pre ++ u, v))) →
    pre ++ r' = (pre ++ s') ++ rest' ∧ (∀ x, json_string ((pre ++ s') ++ x) = Ok (pre ++ s', x))).
  { intros r' pre s' rest' Hr' Hs' Hpre. apply IH in Hs' as (-> & _ & Hl); [|done].
    split; [by rewrite app_assoc|]. intros x. rewrite <-app_assoc, Hpre, Hl. done. }
  simpl in H. case_decide as Hq; [ok_inv H; by split_and!|].
  case_decide as Hb.
  - destruct r as [|e r1]; [done|]. destruct (simple_escape e) eqn:He.
    + apply result_bind_Ok in H as ([s' rest'] & Hs & H). ok_inv H.
      destruct (Hrec r1 ["\"%byte; e] s' rest) as [Heq Hl]; [simpl in *; lia|done| |].
      { intros t. cbn [app json_string]. decs. by rewrite He. }
      by split_and!.
    + case_decide as Hu; [|done].
      destruct r1 as [|h1 [|h2 [|h3 [|h4 r2]]]]; try done.
      destruct (hex4 h1 h2 h3 h4) eqn:Hh; [|done].
      apply result_bind_Ok in H as ([s' rest'] & Hs & H). ok_inv H.
      destruct (Hrec r2 ["\"%byte; "u"%byte; h1; h2; h3; h4] s' rest) as [Heq Hl];
        [simpl in *; lia|done| |by split_and!].
      intros t. cbn [app json_string]. decs. by rewrite He, Hh.
  - case_decide as Hc; [done|]. apply result_bind_Ok in H as ([s' rest'] & Hs & H). ok_inv H.
    destruct (Hrec r [c] s' rest) as [Heq Hl]; [simpl in *; lia|done| |by split_and!].
    intros t. cbn [app json_string]. by decs.
Qed.

Lemma digits_local b d rest :
  digits b = (d, rest) →
  b = d ++ rest ∧ starts is_digit d ∧
  ∀ x, starts (λ c, ¬ is_digit c) x → digits (d ++ x) = (d, x).
Proof.
  revert d rest. induction b as [|c b IH]; intros d rest H; simpl in H.
  - simplify_eq. split_and!; [done..|]. intros [|y x] Hx; simpl in *; [done|by rewrite decide_False].
  - case_decide as Hc.
    + destruct (digits b) as [d' rest'] eqn:E. simplify_eq.
      destruct (IH _ _ eq_refl) as (-> & _ & Hl). split_and!; [done..|].
      intros x Hx. simpl. by rewrite decide_True, Hl by done.
    + simplify_eq. split_and!; [done..|].
      intros [|y x] Hx; simpl in *; [done|by rewrite decide_False].
Qed.

Lemma digits1_local b d rest :
  digits1 b = Ok (d, rest) →
  b = d ++ rest ∧ d ≠ [] ∧ starts is_digit d ∧
  ∀ x, starts (λ c, ¬ is_digit c) x → digits1 (d ++ x) = Ok (d, x).
Proof.
  intros H. assert (digits b = (d, rest) ∧ d ≠ []) as [(-> & ? & Hl)%digits_local Hne].
  { unfold digits1 in H. destruct (digits b) as [[|c d'] r']; [done|]. by ok_inv H. }
  split_and!; [done..|]. intros x Hx. unfold digits1. rewrite Hl by done. by destruct d.
Qed.

Lemma json_int_local b i rest :
  json_int b = Ok (i, rest) →
  b = i ++ rest ∧ i ≠ [] ∧ starts is_digit i ∧
  ∀ x, starts (λ c, ¬ is_digit c) x → json_int (i ++ x) = Ok (i, x).
Proof.
  destruct b as [|c r]; simpl; [done|]. case_decide as Hc.
  - intros H. ok_inv H. split_and!; [done|done|by vm_compute|].
    done.
  - intros (Heq & Hne & Hd & Hl)%digits1_local. split_and!; [done..|].
    intros x Hx. rewrite <-(Hl x Hx). destruct i as [|c' i]; [done|].
    simpl in Heq. simplify_eq/=. by decs.
Qed.

Lemma json_frac_local b f rest :
  json_frac b = Ok (f, rest) →
  b = f ++ rest ∧ starts (λ c, c = "."%byte) f ∧
  ∀ x, starts (λ c, ¬ is_digit c ∧ c ≠ "."%byte) x → json_frac (f ++ x) = Ok (f, x).
Proof.
  assert (Hnil : ∀ x, starts (λ c, ¬ is_digit c ∧ c ≠ "."%byte) x → json_frac x = Ok ([], x)).
  { intros [|y x]; simpl; [done|]. intros [_ ?]. by rewrite decide_False. }
  destruct b as [|c r]; simpl; [intros H; ok_inv H; by split_and!|]. case_decide as Hc.
  - intros ([d r'] & (-> & _ & _ & Hl)%digits1_local & H)%result_bind_Ok. ok_inv H.
    split_and!; [done..|]. intros x Hx. simpl. rewrite Hl; [done|].
    by eapply starts_weaken; [|exact Hx]; intros ? [].
  - intros H. ok_inv H. by split_and!.
Qed.

Lemma json_exp_local b e rest :
  json_exp b = Ok (e, rest) →
  b = e ++ rest ∧ starts (λ c, c = "e"%byte ∨ c = "E"%byte) e ∧
  ∀ x, starts (λ c, ¬ is_digit c ∧ c ≠ "e"%byte ∧ c ≠ "E"%byte) x → json_exp (e ++ x) = Ok (e, x).
Proof.
  assert (Hnil : ∀ x, starts (λ c, ¬ is_digit c ∧ c ≠ "e"%byte ∧ c ≠ "E"%byte) x →
    json_exp x = Ok ([], x)).
  { intros [|y x]; simpl; [done|]. intros (_ & ? & ?). by rewrite decide_False by tauto. }
  destruct b as [|c r]; simpl; [intros H; ok_inv H; by split_and!|]. case_decide as Hc.
  - destruct (match r with [] => _ | _ => _ end) as [sg r1] eqn:Hsg.
    intros ([d r'] & (-> & Hne & Hd & Hl)%digits1_local & H)%result_bind_Ok. ok_inv H.
    assert (r = sg ++ d ++ rest ∧
      ∀ x, match sg ++ d ++ x with
           | g :: r1 => if decide (g = "+"%byte ∨ g = "-"%byte) then ([g], r1) else ([], sg ++ d ++ x)
           | [] => ([], sg ++ d ++ x) end = (sg, d ++ x)) as [-> Hs].
    { destruct r as [|g r]; simplify_eq/=; [by destruct d|]. case_decide as Hg; simplify_eq/=.
      - split; [done|]. intros x. by rewrite decide_True.
      - split; [done|]. intros x. destruct d as [|g' d]; [done|]. simplify_eq/=.
        rewrite decide_False; [done|]. intros [->| ->]; vm_compute in Hd; naive_solver. }
    split_and!; [by rewrite <-?app_assoc|done|]. intros x Hx. simpl.
    rewrite decide_True by done. rewrite <-app_assoc, Hs, Hl; [done|].
    by eapply starts_weaken; [|exact Hx]; intros ? [].
  - intros H. ok_inv H. by split_and!.
Qed.

(** What cannot continue a number. *)
Definition number_end (c : byte) : Prop :=
  ¬ is_digit c ∧ c ≠ "."%byte ∧ c ≠ "e"%byte ∧ c ≠ "E"%byte.

Lemma delim_number_end c : delim_char c → number_end c.
Proof.
  intros H. unfold number_end, is_digit. each_delim H; vm_compute; intuition congruence.
Qed.

Lemma json_minus_local b sg rest :
  json_minus b = (sg, rest) →
  b = sg ++ rest ∧ starts (λ c, c = "-"%byte) sg ∧
  ∀ x, starts (λ c, c ≠ "-"%byte) x → json_minus (sg ++ x) = (sg, x).
Proof.
  destruct b as [|c r]; simpl; [|case_decide]; intros; simplify_eq/=; (split_and!; [done..|]);
    intros [|y x]; simpl; intros; by decs.
Qed.

Lemma json_number_local b v rest :
  json_number b = Ok (v, rest) →
  b = v ++ rest ∧ v ≠ [] ∧ starts (λ c, c = "-"%byte ∨ is_digit c) v ∧
  ∀ x, delim x → json_number (v ++ x) = Ok (v, x).
Proof.
  unfold json_number at 1.
  destruct (json_minus b) as [sg b1] eqn:E. apply json_minus_local in E as (-> & Hsg & Hsgl).
  intros ([i b2] & (-> & Hne & Hi & Hil)%json_int_local & H)%result_bind_Ok.
  apply result_bind_Ok in H as ([f b3] & (-> & Hf & Hfl)%json_frac_local & H).
  apply result_bind_Ok in H as ([e b4] & (-> & He & Hel)%json_exp_local & H). ok_inv H.
  split_and!; [by rewrite <-!app_assoc|by destruct sg, i| |].
  { destruct sg; simpl in *; [|naive_solver]. destruct i; naive_solver. }
  intros x Hx.
  assert (Hend : starts number_end x) by (by eapply starts_weaken; [apply delim_number_end|]).
  assert (He' : starts (λ c, ¬ is_digit c ∧ c ≠ "."%byte) (e ++ x)).
  { apply starts_app; intros; (eapply starts_weaken; [|eassumption]);
      [by intros ? (? & ? & _)|]. intros ? [->| ->]; vm_compute; naive_solver. }
  assert (Hf' : starts (λ c, ¬ is_digit c) (f ++ e ++ x)).
  { apply starts_app; intros; (eapply starts_weaken; [|eassumption]); [by intros ? []|].
    intros ? ->. vm_compute. naive_solver. }
  unfold json_number. rewrite <-!app_assoc, Hsgl, Hil; [run_result; rewrite Hfl; [run_result|done]|done|].
  - rewrite Hel; [done|]. eapply starts_weaken; [|exact Hend]. by intros ? (? & _ & ? & ?).
  - destruct i as [|c i]; [done|]. simpl in *. intros ->. vm_compute in Hi. naive_solver.
Qed.

Lemma strip_prefix_spec p b r : strip_prefix p b = Some r ↔ b = p ++ r.
Proof.
  revert b. induction p as [|x p IH]; intros [|y b]; simpl; try naive_solver.
  case_decide; [rewrite IH|]; naive_solver.
Qed.

Lemma strip_any_1 p b r : strip_any [p] b = Some r ↔ b = p ++ r.
Proof.
  simpl. destruct (strip_prefix p b) as [r'|] eqn:E.
  - apply strip_prefix_spec in E. rewrite <-strip_prefix_spec, E.
    split; [intros [= ->]; by apply strip_prefix_spec|rewrite strip_prefix_spec; intros ?%app_inv_head; by subst].
  - split; [done|]. rewrite <-strip_prefix_spec. congruence.
Qed.

Lemma strip_any_1_None p c b : starts (λ x, x ≠ c) p → p ≠ [] → strip_any [p] (c :: b) = None.
Proof.
  intros Hp Hne. destruct (strip_any [p] (c :: b)) eqn:E; [|done].
  apply strip_any_1 in E. destruct p; by simplify_eq/=.
Qed.

(** Scalars begin with none of the structural characters. *)
Definition scalar_start (c : byte) : Prop :=
  c ∈ ["t"; "f"; "n"; "-"; "0"; "1"; "2"; "3"; "4"; "5"; "6"; "7"; "8"; "9"]%byte.

Lemma digit_scalar_start c : is_digit c → scalar_start c.
Proof.
  intros Hc. unfold scalar_start, is_digit in *.
  rewrite <-(byte_of_to_Z c). pose proof (byte_to_Z_range c).
  assert (byte_to_Z c ∈ [48;49;50;51;52;53;54;55;56;57]) as Hin by (set_unfold; lia).
  repeat (apply elem_of_cons in Hin as [->|Hin]; [vm_compute; set_solver|]).
  by apply elem_of_nil in Hin.
Qed.

Lemma json_scalar_local b v rest :
  json_scalar b = Ok (v, rest) →
  b = v ++ rest ∧ v ≠ [] ∧ starts scalar_start v ∧ ∀ x, delim x → json_scalar (v ++ x) = Ok (v, x).
Proof.
  unfold json_scalar at 1. intros H.
  destruct (strip_any [json_true] b) as [r|] eqn:Et;
    [|destruct (strip_any [json_false] b) as [r|] eqn:Ef;
      [|destruct (strip_any [json_null] b) as [r|] eqn:En]].
  1-3: match goal with E : strip_any _ _ = Some _ |- _ => apply strip_any_1 in E as -> end;
    run_result in H; injection H as <- <-;
    (split_and!; [done|done|vm_compute; set_solver|]); intros x _; done.
  apply json_number_local in H as (-> & Hne & Hs & Hl). split_and!; [done..| |].
  - eapply starts_weaken; [|exact Hs]. intros c [->|?]; [vm_compute; set_solver|by apply digit_scalar_start].
  - intros x Hx. rewrite <-Hl by done. unfold json_scalar. destruct v as [|c v]; [done|].
    simpl in Hs. cbn [app]. rewrite !strip_any_1_None; [done|..]; try done;
      simpl; intros <-; vm_compute in Hs; naive_solver.
Qed.

(** *** Relocation

    A construct that is read off the front is read in the same way off any input
    it starts, compacted or not, at any smaller depth, with any larger fuel. *)

Definition value_head (c : byte) : Prop :=
  c ∈ ["{"; "["; x22]%byte ∨ scalar_start c.

Lemma value_head_ok c : value_head c → json_ws c = false ∧ c ≠ "]"%byte ∧ c ≠ "}"%byte.
Proof.
  intros [Hc|Hc]; unfold scalar_start in *;
    repeat (apply elem_of_cons in Hc as [->|Hc]; [by vm_compute|]); by apply elem_of_nil in Hc.
Qed.

Definition located (f : nat → Z → bytes → result (bytes * bytes)) (P : bytes → Prop)
    (n : nat) (d : Z) (b out rest : bytes) : Prop :=
  ∃ c raw o, b = c :: raw ++ rest ∧ out = c :: o ∧ value_head c ∧
    ∀ m d' x, (n ≤ m)%nat → d' ≤ d → P x →
      f m d' (c :: raw ++ x) = Ok (out, x) ∧ f m d' (c :: o ++ x) = Ok (out, x).

Lemma delim_sep w y z :
  Forall (λ c, json_ws c = true) w → delim_char y → delim (w ++ y :: z).
Proof. destruct 1; simpl; [done|by left]. Qed.

Lemma skip_ws_app_cons w y z x :
  Forall (λ c, json_ws c = true) w → json_ws y = false →
  skip_ws ((w ++ y :: z) ++ x) = y :: z ++ x.
Proof. intros. rewrite <-app_assoc. by apply skip_ws_app. Qed.

Lemma skip_ws_app_head w c z x :
  Forall (λ c, json_ws c = true) w → value_head c → skip_ws (w ++ c :: z ++ x) = c :: z ++ x.
Proof. intros ? []%value_head_ok. by apply skip_ws_app. Qed.

Lemma skip_ws_id_cons c z : json_ws c = false → skip_ws (c :: z) = c :: z.
Proof. intros. by apply skip_ws_id. Qed.

Section combinators.
  Context (f : nat → Z → bytes → result (bytes * bytes)) (n : nat) (d : Z).

(** [g] reads [raw], and [out], off any input they start, up to [P]. *)
Definition relocates (g : nat → Z → bytes → result (bytes * bytes)) (P : bytes → Prop)
    (raw out : bytes) : Prop :=
  ∀ m d' x, (n ≤ m)%nat → d' ≤ d → P x →
    g m d' (raw ++ x) = Ok (out, x) ∧ g m d' (out ++ x) = Ok (out, x).

Lemma json_open_local close r out rest :
  json_ws close = false →
  json_open close (f n d) r = Ok (out, rest) →
  (∀ b out rest, f n d b = Ok (out, rest) → located f (λ _, True) n d b out rest) →
  ∃ raw, r = raw ++ rest ∧
    relocates (λ m d', json_open close (f m d')) (λ _, True) raw out.
Proof.
  intros Hclose Ho Hf. destruct (skip_ws_split r) as (w & Hr & Hw). unfold json_open in Ho.
  pose proof (skip_ws_starts r) as Hws. destruct (skip_ws r) as [|x r'] eqn:E; [done|].
  simpl in Hws. case_decide as Hx.
  - ok_inv Ho. exists (w ++ [close]). split; [regroup|].
    intros m d' x _ _ _. unfold json_open. rewrite skip_ws_app_cons by done.
    cbn [app]. rewrite skip_ws_id_cons by done. by decs.
  - apply Hf in Ho as (c & raw & o & Heq & -> & Hc & Hl). injection Heq as <- ->.
    exists (w ++ x :: raw). split; [regroup|].
    intros m d' y Hm Hd _. unfold json_open. rewrite skip_ws_app_cons by done.
    cbn [app]. rewrite skip_ws_id_cons by done. decs. by apply Hl.
Qed.

Lemma json_next_local close r out rest :
  json_ws close = false → delim_char close →
  json_next close (f n d) r = Ok (out, rest) →
  (∀ b out rest, f n d b = Ok (out, rest) → located f (λ _, True) n d b out rest) →
  ∃ raw, r = raw ++ rest ∧ (∀ x, delim (raw ++ x) ∧ delim (out ++ x)) ∧
    relocates (λ m d', json_next close (f m d')) (λ _, True) raw out.
Proof.
  intros Hclose Hdel Ho Hf. destruct (skip_ws_split r) as (w & Hr & Hw). unfold json_next in Ho.
  destruct (skip_ws r) as [|x r'] eqn:E; [done|].
  assert (Hsep : ∀ y z x, delim_char y → delim ((w ++ y :: z) ++ x) ∧ delim ((y :: z) ++ x)).
  { intros y z t Hy. rewrite <-app_assoc. split; [by apply delim_sep|done]. }
  case_decide as Hx; [|case_decide as Hx'; [|done]].
  - ok_inv Ho. exists (w ++ [close]). split; [regroup|].
    split; [intros; by apply Hsep|].
    intros m d' x _ _ _. unfold json_next. rewrite skip_ws_app_cons by done.
    cbn [app]. rewrite skip_ws_id_cons by done. by decs.
  - subst x. destruct (skip_ws_split r') as (w' & Hr' & Hw').
    apply result_bind_Ok in Ho as ([m rest'] & Ho & Heq). ok_inv Heq.
    apply Hf in Ho as (c & raw & o & Heq & -> & Hc & Hl). rewrite Heq in Hr'.
    exists (w ++ ","%byte :: w' ++ c :: raw). split; [regroup|].
    split; [intros; apply Hsep; right; set_solver|].
    intros k d' y Hk Hd _. unfold json_next. rewrite skip_ws_app_cons by done.
    cbn [app]. rewrite skip_ws_id_cons by done. decs.
    rewrite <-app_assoc. cbn [app]. rewrite skip_ws_app_head by done.
    rewrite (skip_ws_id_cons c) by by apply value_head_ok.
    destruct (Hl k d' y Hk Hd I) as [-> ->]. done.
Qed.

Lemma json_colon_local P r out rest :
  json_colon (f n d) r = Ok (out, rest) →
  (∀ b out rest, f n d b = Ok (out, rest) → located f P n d b out rest) →
  ∃ raw, r = raw ++ rest ∧ relocates (λ m d', json_colon (f m d')) P raw out.
Proof.
  intros Ho Hf. destruct (skip_ws_split r) as (w & Hr & Hw). unfold json_colon in Ho.
  destruct (skip_ws r) as [|x r'] eqn:E; [done|]. case_decide as Hx; [|done]. subst x.
  destruct (skip_ws_split r') as (w' & Hr' & Hw').
  apply result_bind_Ok in Ho as ([m rest'] & Ho & Heq). ok_inv Heq.
  apply Hf in Ho as (c & raw & o & Heq & -> & Hc & Hl). rewrite Heq in Hr'.
  exists (w ++ ":"%byte :: w' ++ c :: raw). split; [regroup|].
  intros k d' y Hk Hd HP. unfold json_colon. rewrite skip_ws_app_cons by done.
  cbn [app]. rewrite skip_ws_id_cons by done. decs.
  rewrite <-app_assoc. cbn [app]. rewrite skip_ws_app_head by done.
  rewrite (skip_ws_id_cons c) by by apply value_head_ok.
  destruct (Hl k d' y Hk Hd HP) as [-> ->]. done.
Qed.

End combinators.

Lemma json_local n d b out rest :
  (json_value n d b = Ok (out, rest) → located json_value delim n d b out rest) ∧
  (json_members n d b = Ok (out, rest) → located json_members (λ _, True) n d b out rest) ∧
  (json_elements n d b = Ok (out, rest) → located json_elements (λ _, True) n d b out rest).
Proof.
  revert d b out rest. induction n as [|n IH]; intros d b out rest; [done|].
  split_and!; intros H.
  - destruct b as [|c r]; [done|]. cbn [json_value] in H.
    case_decide as Hc1; [|case_decide as Hc2; [|case_decide as Hc3]].
    + subst. case_decide as Hd; [done|]. apply result_bind_Ok in H as ([m rest'] & Ho & H).
      ok_inv H. eapply (json_open_local json_members) in Ho as (raw & -> & Hl);
        [|done|intros; by apply IH].
      eexists _, raw, m. split_and!; [done..|left; set_solver|].
      intros [|k] d' x Hk Hd' _; [lia|].
      destruct (Hl k (d' + 1) x) as [E1 E2]; [lia..|done|].
      split; cbn [json_value]; decs; rewrite decide_False by lia; [by rewrite E1|by rewrite E2].
    + subst. case_decide as Hd; [done|]. apply result_bind_Ok in H as ([m rest'] & Ho & H).
      ok_inv H. eapply (json_open_local json_elements) in Ho as (raw & -> & Hl);
        [|done|intros; by apply IH].
      eexists _, raw, m. split_and!; [done..|left; set_solver|].
      intros [|k] d' x Hk Hd' _; [lia|].
      destruct (Hl k (d' + 1) x) as [E1 E2]; [lia..|done|].
      split; cbn [json_value]; decs; rewrite decide_False by lia; [by rewrite E1|by rewrite E2].
    + subst. apply result_bind_Ok in H as ([m rest'] & Hs & H). ok_inv H.
      eapply json_string_local in Hs as (-> & _ & Hl); [|done].
      eexists _, m, m. split_and!; [done..|left; set_solver|].
      intros [|k] d' x Hk Hd' _; [lia|]. split; cbn [json_value]; decs; by rewrite Hl.
    + apply json_scalar_local in H as (Heq & Hne & Hs & Hl). destruct out as [|c' o]; [done|].
      simplify_eq/=. eexists _, o, o. split_and!; [done..|by right|].
      intros [|k] d' x Hk Hd' Hx; [lia|]. specialize (Hl x Hx).
      split; cbn [json_value]; decs; exact Hl.
  - destruct b as [|c r]; [done|]. cbn [json_members] in H. case_decide as Hc; [|done]. subst.
    apply result_bind_Ok in H as ([k r1] & Hk & H).
    eapply json_string_local in Hk as (-> & _ & Hkl); [|done].
    apply result_bind_Ok in H as ([v r2] & Hv & H).
    eapply json_colon_local in Hv as (rawv & -> & Hvl); [|intros; by apply IH].
    apply result_bind_Ok in H as ([t r3] & Ht & H). ok_inv H.
    eapply (json_next_local json_members) in Ht as (rawt & -> & Hdel & Htl);
      [|done|right; set_solver|intros; by apply IH].
    eexists _, (k ++ rawv ++ rawt), _.
    split_and!; [by rewrite <-!app_assoc|done|left; set_solver|].
    intros [|m] d' x Hm Hd' _; [lia|].
    destruct (Hvl m d' (rawt ++ x)) as [E1 _]; [lia|lia|apply Hdel|].
    destruct (Hvl m d' (t ++ x)) as [_ E2]; [lia|lia|apply Hdel|].
    destruct (Htl m d' x) as [E3 E4]; [lia|lia|done|].
    split; cbn [json_members]; decs; rewrite <-!app_assoc, !Hkl; run_result.
    + rewrite E1. run_result. by rewrite E3.
    + rewrite E2. run_result. by rewrite E4.
  - cbn [json_elements] in H. apply result_bind_Ok in H as ([v r1] & Hv & H).
    apply result_bind_Ok in H as ([t r2] & Ht & H). ok_inv H.
    apply IH in Hv as (c & raw & o & -> & -> & Hc & Hvl).
    eapply (json_next_local json_elements) in Ht as (rawt & -> & Hdel & Htl);
      [|done|right; set_solver|intros; by apply IH].
    eexists _, (raw ++ rawt), _. split_and!; [by rewrite <-app_assoc|done|done|].
    intros [|m] d' x Hm Hd' _; [lia|].
    destruct (Hvl m d' (rawt ++ x)) as [E1 _]; [lia|lia|apply Hdel|].
    destruct (Hvl m d' (t ++ x)) as [_ E2]; [lia|lia|apply Hdel|].
    destruct (Htl m d' x) as [E3 E4]; [lia|lia|done|].
    split; cbn [json_elements]; rewrite <-!app_assoc.
    + rewrite E1. run_result. by rewrite E3.
    + rewrite E2. run_result. by rewrite E4.
Qed.

(** *** The fuel is never exhausted *)

Definition fuel_ok {A} (r : result A) : Prop := r ≠ Err outOfFuel.

Lemma fuel_ok_bind {A B} (r : result A) (f : A → result B) :
  fuel_ok r → (∀ a, r = Ok a → fuel_ok (f a)) → fuel_ok (r ≫= f).
Proof. unfold fuel_ok. destruct r; simpl; naive_solver. Qed.

Lemma json_string_fuel_ok n b : (length b ≤ n)%nat → fuel_ok (json_string b).
Proof.
  revert b. induction n as [|n IH]; intros [|c r] Hn; simpl in *; try done; [lia|].
  case_decide; [done|]. case_decide.
  - destruct r as [|e r]; [done|]. destruct (simple_escape e).
    + apply fuel_ok_bind; [apply IH; simpl in *; lia|by intros []].
    + case_decide; [|done]. destruct r as [|h1 [|h2 [|h3 [|h4 r]]]]; try done.
      destruct (hex4 _ _ _ _); [|done].
      apply fuel_ok_bind; [apply IH; simpl in *; lia|by intros []].
  - case_decide; [done|]. apply fuel_ok_bind; [apply IH; lia|by intros []].
Qed.

Lemma json_scalar_fuel_ok b : fuel_ok (json_scalar b).
Proof.
  assert (Hd : ∀ b, fuel_ok (digits1 b)) by (intros c; unfold digits1; by destruct (digits c) as [[] ?]).
  unfold json_scalar. repeat case_match; try done. unfold json_number.
  destruct (json_minus b) as [? b'].
  apply fuel_ok_bind; [destruct b'; simpl; [done|]; by case_decide|intros [] _].
  apply fuel_ok_bind; [|intros [] _; apply fuel_ok_bind; [|by intros []]].
  - unfold json_frac. case_match; [done|]. case_decide; [|done].
    apply fuel_ok_bind; [done|by intros []].
  - unfold json_exp. case_match; [done|]. case_decide; [|done]. case_match.
    apply fuel_ok_bind; [done|by intros []].
Qed.

Lemma skip_ws_length b : (length (skip_ws b) ≤ length b)%nat.
Proof. induction b as [|c b IH]; simpl; [done|]. destruct (json_ws c); simpl; lia. Qed.

Section fuel.
  Context (f : bytes → result (bytes * bytes)) (k : nat).
  Hypothesis Hf : ∀ b, (length b ≤ k)%nat → fuel_ok (f b).

Lemma json_open_fuel_ok close r : (length r ≤ k)%nat → fuel_ok (json_open close f r).
Proof.
  intros Hr. unfold json_open. pose proof (skip_ws_length r). destruct (skip_ws r); [done|].
  case_decide; [done|]. apply Hf. simpl in *. lia.
Qed.
Lemma json_next_fuel_ok close r : (length r ≤ S k)%nat → fuel_ok (json_next close f r).
Proof.
  intros Hr. unfold json_next. pose proof (skip_ws_length r). destruct (skip_ws r) as [|y r']; [done|].
  case_decide; [done|]. case_decide; [|done]. apply fuel_ok_bind; [|by intros []].
  apply Hf. pose proof (skip_ws_length r'). simpl in *. lia.
Qed.
Lemma json_colon_fuel_ok r : (length r ≤ S k)%nat → fuel_ok (json_colon f r).
Proof.
  intros Hr. unfold json_colon. pose proof (skip_ws_length r). destruct (skip_ws r) as [|y r']; [done|].
  case_decide; [|done]. apply fuel_ok_bind; [|by intros []].
  apply Hf. pose proof (skip_ws_length r'). simpl in *. lia.
Qed.
End fuel.

Lemma json_colon_length n d r v rest :
  json_colon (json_value n d) r = Ok (v, rest) → (S (length rest) ≤ length r)%nat.
Proof.
  intros H. eapply json_colon_local in H as (raw & -> & Hl); [|intros; by apply json_local].
  destruct raw as [|c raw]; [|rewrite length_app; simpl; lia]. exfalso.
  destruct (Hl n d []) as [Hc _]; [done|lia|done|]. done.
Qed.

Lemma json_fuel_ok n d b :
  ((2 * length b + 1 ≤ n)%nat → fuel_ok (json_value n d b)) ∧
  ((2 * length b + 1 ≤ n)%nat → fuel_ok (json_members n d b)) ∧
  ((2 * length b + 2 ≤ n)%nat → fuel_ok (json_elements n d b)).
Proof.
  revert d b. induction n as [|n IH]; intros d b; [lia|]. split_and!; intros Hn.
  - destruct b as [|c r]; [done|]. simpl in Hn. cbn [json_value]. repeat case_decide; try done.
    + apply fuel_ok_bind; [|by intros []]. apply (json_open_fuel_ok _ (length r)); [|done].
      intros b' Hb'. apply IH. lia.
    + apply fuel_ok_bind; [|by intros []]. apply (json_open_fuel_ok _ (length r)); [|done].
      intros b' Hb'. apply IH. lia.
    + apply fuel_ok_bind; [by eapply json_string_fuel_ok|by intros []].
    + apply json_scalar_fuel_ok.
  - destruct b as [|c r]; [done|]. simpl in Hn. cbn [json_members]. case_decide; [|done].
    apply fuel_ok_bind; [by eapply json_string_fuel_ok|]. intros [k r1] Hk.
    eapply json_string_local in Hk as (-> & Hk & _); [|done].
    assert (S (length r1) ≤ length (k ++ r1))%nat by (rewrite length_app; destruct k; simpl; [done|lia]).
    apply fuel_ok_bind.
    { apply (json_colon_fuel_ok _ (length r1)); [|lia]. intros b' Hb'. apply IH. lia. }
    intros [v r2] Hv%json_colon_length. apply fuel_ok_bind; [|by intros []].
    apply (json_next_fuel_ok _ (length r2)); [|lia]. intros b' Hb'. apply IH. lia.
  - cbn [json_elements]. apply fuel_ok_bind; [apply IH; lia|]. intros [v r1] Hv.
    apply json_local in Hv as (c & raw & o & -> & -> & _). simpl in Hn. rewrite length_app in Hn.
    apply fuel_ok_bind; [|by intros []].
    destruct r1 as [|x r1]; [done|]. simpl in Hn.
    apply (json_next_fuel_ok _ (length r1)); [|done]. intros b' Hb'. apply IH. lia.
Qed.

(** More fuel changes nothing. *)
Definition refines {A} (f g : bytes → result A) : Prop := ∀ b, fuel_ok (f b) → g b = f b.

Lemma refines_bind {A B} (r s : result A) (f g : A → result B) :
  (fuel_ok r → s = r) → (∀ a, fuel_ok (f a) → g a = f a) →
  fuel_ok (r ≫= f) → s ≫= g = r ≫= f.
Proof.
  unfold fuel_ok. intros Hr Hf H. destruct r as [a|e]; run_result in H.
  - rewrite Hr by done. by apply Hf.
  - rewrite Hr; [done|congruence].
Qed.

Lemma json_fuel_mono n m d :
  (n ≤ m)%nat →
  refines (json_value n d) (json_value m d) ∧
  refines (json_members n d) (json_members m d) ∧
  refines (json_elements n d) (json_elements m d).
Proof.
  assert (Hopen : ∀ c f g, refines f g → refines (json_open c f) (json_open c g)).
  { intros c f g Hfg b. unfold json_open. repeat case_match; auto. }
  assert (Hnext : ∀ c f g, refines f g → refines (json_next c f) (json_next c g)).
  { intros c f g Hfg b. unfold json_next. repeat case_match; auto.
    apply refines_bind; [auto|]. by intros []. }
  assert (Hcolon : ∀ f g, refines f g → refines (json_colon f) (json_colon g)).
  { intros f g Hfg b. unfold json_colon. repeat case_match; auto.
    apply refines_bind; [auto|]. by intros []. }
  revert m d. induction n as [|n IH]; intros m d Hm.
  { split_and!; intros b Hb; by destruct Hb. }
  destruct m as [|m]; [lia|].
  destruct (IH m d ltac:(lia)) as (Hv & Hmem & Hel).
  destruct (IH m (d + 1) ltac:(lia)) as (_ & Hmem1 & Hel1).
  split_and!; intros b.
  - cbn [json_value]. destruct b as [|c r]; [done|]. repeat case_decide; auto.
    + apply refines_bind; [by apply Hopen|by intros []].
    + apply refines_bind; [by apply Hopen|by intros []].
  - cbn [json_members]. destruct b as [|c r]; [done|]. case_decide; [|done].
    apply refines_bind; [done|]. intros [k r1]. apply refines_bind; [by apply Hcolon|].
    intros [v r2]. apply refines_bind; [by apply Hnext|by intros []].
  - cbn [json_elements]. apply refines_bind; [apply Hv|]. intros [v r2].
    apply refines_bind; [by apply Hnext|by intros []].
Qed.

Lemma json_value_fuel n m d b :
  (2 * length b + 1 ≤ n)%nat → (2 * length b + 1 ≤ m)%nat → json_value n d b = json_value m d b.
Proof.
  intros Hn Hm. destruct (decide (n ≤ m)%nat).
  - symmetry. by apply json_fuel_mono, json_fuel_ok.
  - apply json_fuel_mono, json_fuel_ok; lia.
Qed.

(** ** Lemmas: messages *)

(** A compact message that nests at most 9,999 levels: what fits into an array. *)
Definition element (r : bytes) : Prop := json_value (json_fuel r) 1 r = Ok (r, []).
#[global] Instance element_dec r : Decision (element r).
Proof. unfold element. apply _. Defined.

Lemma located_value d b out rest n :
  json_value n d b = Ok (out, rest) →
  starts value_head out ∧ out ≠ [] ∧ ∃ raw, b = raw ++ rest ∧
  ∀ m d' x, (2 * length out + 1 ≤ m)%nat → d' ≤ d → delim x →
    json_value (max m n) d' (raw ++ x) = Ok (out, x) ∧ json_value (max m n) d' (out ++ x) = Ok (out, x).
Proof.
  intros (c & raw & o & -> & -> & Hc & Hl)%json_local. split_and!; [done..|].
  exists (c :: raw). split; [done|]. intros m d' x Hm Hd Hx. apply (Hl _ d' x); [lia|done|done].
Qed.

(** A compacted value read again. *)
Lemma compact_again n d b out rest x m d' :
  json_value n d b = Ok (out, rest) → d' ≤ d → delim x → (2 * length (out ++ x) + 1 ≤ m)%nat →
  json_value m d' (out ++ x) = Ok (out, x).
Proof.
  intros (_ & _ & raw & -> & Hl)%located_value Hd Hx Hm.
  destruct (Hl m d' x) as [_ H]; [rewrite length_app in Hm; lia|done|done|].
  rewrite <-H. apply json_value_fuel; lia.
Qed.

Lemma element_read r x m d :
  element r → delim x → d ≤ 1 → (2 * length (r ++ x) + 1 ≤ m)%nat →
  json_value m d (r ++ x) = Ok (r, x).
Proof. intros. by eapply compact_again. Qed.

Lemma element_head r : element r → starts value_head r ∧ r ≠ [].
Proof. by intros (? & ? & _)%located_value. Qed.

Lemma head_skip_ws r x : starts value_head r → r ≠ [] → skip_ws (r ++ x) = r ++ x.
Proof. destruct r as [|c r]; [done|]. intros Hc _. apply skip_ws_id. by apply value_head_ok. Qed.

Lemma compactJSON_Ok b c :
  compactJSON b = Ok c → ∃ rest, json_value (json_fuel b) 0 (skip_ws b) = Ok (c, rest) ∧ skip_ws rest = [].
Proof.
  unfold compactJSON. intros ([v rest] & Hv & H)%result_bind_Ok.
  destruct (skip_ws rest) eqn:E; [|done]. ok_inv H. by exists rest.
Qed.

Lemma compactJSON_again n d b c rest : json_value n d b = Ok (c, rest) → 0 ≤ d → compactJSON c = Ok c.
Proof.
  intros H Hd. pose proof (located_value _ _ _ _ _ H) as (Hs & Hne & _).
  unfold compactJSON. pose proof (head_skip_ws c [] Hs Hne) as Hsk.
  pose proof (compact_again n d b c rest [] (json_fuel c) 0 H Hd I) as Hc.
  rewrite app_nil_r in Hsk, Hc. rewrite Hsk, Hc by (unfold json_fuel; lia). done.
Qed.

Lemma compact_all_Ok els cs :
  compact_all els = Ok cs ↔ Forall2 (λ el c, compactJSON el = Ok c) els cs.
Proof.
  revert cs. induction els as [|el els IH]; intros cs; simpl.
  - split; [intros H; ok_inv H; constructor|by inversion 1].
  - rewrite result_bind_Ok. split.
    + intros (c & Hc & (cs' & Hcs & H)%result_bind_Ok). ok_inv H.
      constructor; [by destruct (compactJSON el); ok_inv Hc|by apply IH].
    + inversion 1 as [|? c ? cs' Hc Hcs]; subst. exists c. rewrite Hc. split; [done|].
      apply result_bind_Ok. exists cs'. split; [by apply IH|done].
Qed.

Lemma compact_all_Err els e : compact_all els = Err e → e = errInvalidJSON.
Proof.
  induction els as [|el els IH]; simpl; [done|].
  destruct (compactJSON el); run_result; [|congruence]. destruct (compact_all els); run_result;
    [done|]. intros [= <-]. auto.
Qed.

(** The raw elements of an array compact to elements. *)
Lemma raw_elements_compact n b els cs :
  raw_elements n b = Ok els → compact_all els = Ok cs → Forall element cs ∧ cs ≠ [].
Proof.
  revert b els cs. induction n as [|n IH]; intros b els cs H Hcs; [done|]. simpl in H.
  apply result_bind_Ok in H as ([v r1] & Hv & H).
  assert (Hel : ∀ c, compactJSON (take (length b - length r1) b) = Ok c → element c).
  { intros c (rest & Hc & Hrest)%compactJSON_Ok.
    pose proof Hv as (c0 & raw & o & Hb & -> & Hc0 & Hl)%json_local.
    replace (take (length b - length r1) b) with (c0 :: raw) in Hc.
    2: { rewrite Hb. change (c0 :: raw ++ r1) with ((c0 :: raw) ++ r1).
         rewrite take_app_length_eq; [done|]. rewrite length_app. lia. }
    rewrite skip_ws_id in Hc by by apply value_head_ok.
    destruct (Hl (max (json_fuel b) (json_fuel (c0 :: raw))) 0 []) as [Hr _]; [lia|lia|done|].
    rewrite app_nil_r in Hr.
    erewrite json_value_fuel in Hr; [rewrite Hc in Hr|unfold json_fuel; lia|unfold json_fuel; lia].
    injection Hr as -> ->.
    unfold element. rewrite <-(app_nil_r (c0 :: o)) at 2.
    eapply compact_again; [exact Hv|lia|done|]. rewrite app_nil_r. unfold json_fuel. lia. }
  apply compact_all_Ok in Hcs.
  destruct (skip_ws r1) as [|y r2]; [done|]. case_decide; [|case_decide; [|done]].
  - ok_inv H. apply Forall2_cons_inv_l in Hcs as (c & cs' & Hc & ->%Forall2_nil_inv_l & ->).
    split; [|done]. constructor; [by apply Hel|done].
  - apply result_bind_Ok in H as (els' & Hels & H). ok_inv H.
    apply Forall2_cons_inv_l in Hcs as (c & cs' & Hc & Hn & ->).
    apply compact_all_Ok in Hn. split; [|done]. constructor; [by apply Hel|]. by eapply IH.
Qed.

(** Joined elements, read back. *)
Lemma json_join_delim rest x : delim (json_join false rest ++ "]"%byte :: x).
Proof. destruct rest; simpl; right; set_solver. Qed.

Lemma join_raw_elements r rest n :
  element r → Forall element rest → (length rest < n)%nat →
  raw_elements n (r ++ json_join false rest ++ ["]"%byte]) = Ok (r :: rest).
Proof.
  intros Hr Hrest. revert r Hr n. induction Hrest as [|r2 rest Hr2 Hrest IH]; intros r Hr [|n] Hn;
    simpl in Hn; try lia; cbn [raw_elements];
    (rewrite element_read; [|done|apply json_join_delim|lia|unfold json_fuel; lia]);
    run_result; rewrite take_app_length_eq by (rewrite length_app; lia).
  - done.
  - cbn [json_join app]. rewrite (skip_ws_id_cons ","%byte) by done. decs.
    rewrite <-app_assoc. apply element_head in Hr2 as Hh. destruct Hh.
    rewrite head_skip_ws by done. rewrite IH by (done || lia). done.
Qed.

Lemma join_json_elements r rest n d :
  element r → Forall element rest → d ≤ 1 →
  (2 * length (r ++ json_join false rest ++ ["]"%byte]) + 2 ≤ n)%nat →
  json_elements n d (r ++ json_join false rest ++ ["]"%byte])
    = Ok (r ++ json_join false rest ++ ["]"%byte], []).
Proof.
  intros Hr Hrest Hd. revert r Hr n. induction Hrest as [|r2 rest Hr2 Hrest IH];
    intros r Hr [|n] Hn; try lia; cbn [json_elements];
    (rewrite element_read; [|done|apply json_join_delim|lia|lia]); run_result.
  - done.
  - unfold json_next. cbn [json_join app]. rewrite (skip_ws_id_cons ","%byte) by done. decs.
    rewrite <-app_assoc. apply element_head in Hr2 as Hh. destruct Hh.
    rewrite head_skip_ws by done. rewrite IH; [done|done|].
    cbn [json_join app] in Hn. repeat (rewrite length_app in Hn || rewrite length_app || cbn [length] in * ). lia.
Qed.

(** Bodies that begin and end with a bracket have no white space around them. *)
Lemma TrimSpace_brackets b :
  bytes_TrimSpace ("["%byte :: b ++ ["]"%byte]) = "["%byte :: b ++ ["]"%byte].
Proof.
  unfold bytes_TrimSpace.
  assert (∀ n x, trim_front n space_encodings ("["%byte :: x) = "["%byte :: x) as -> by by intros [].
  rewrite reverse_cons, reverse_app. cbn [reverse rev_append app].
  assert (∀ n x, trim_front n (reverse <$> space_encodings) ("]"%byte :: x) = "]"%byte :: x) as ->
    by by intros [].
  change ("]"%byte :: reverse b ++ ["["%byte]) with ((["]"%byte] ++ reverse b) ++ ["["%byte]).
  by rewrite reverse_app, reverse_app, reverse_involutive.
Qed.

Lemma wrapJSONArray_cons r rest :
  wrapJSONArray (r :: rest) = "["%byte :: (r ++ json_join false rest) ++ ["]"%byte].
Proof. unfold wrapJSONArray, appendJSONArray. simpl. by rewrite <-app_assoc. Qed.

Lemma compactJSON_wrap r rest :
  element r → Forall element rest →
  compactJSON (wrapJSONArray (r :: rest)) = Ok (wrapJSONArray (r :: rest)).
Proof.
  intros Hr Hrest. rewrite wrapJSONArray_cons, <-app_assoc. unfold compactJSON.
  rewrite (skip_ws_id_cons "["%byte) by done. set (body := r ++ _).
  assert (∃ n, json_fuel ("["%byte :: body) = S n ∧ (2 * length body + 2 ≤ n)%nat) as (n & -> & Hn)
    by (exists (2 * length body + 3)%nat; unfold json_fuel; simpl; lia).
  cbn [json_value]. decs. unfold json_open.
  destruct (element_head r Hr) as [Hh Hne]. subst body. rewrite head_skip_ws by done.
  pose proof (join_json_elements r rest n (0 + 1) Hr Hrest ltac:(lia) Hn) as He.
  destruct r as [|c r]; [done|]. cbn [app]. cbn [app] in He.
  pose proof (value_head_ok c Hh) as (_ & ? & _). decs. rewrite He. done.
Qed.

Lemma Unmarshal_wrap r rest :
  element r → Forall element rest →
  json_Unmarshal_array (wrapJSONArray (r :: rest)) = Ok (r :: rest).
Proof.
  intros Hr Hrest. unfold json_Unmarshal_array. rewrite compactJSON_wrap by done. run_result.
  rewrite wrapJSONArray_cons, <-app_assoc, (skip_ws_id_cons "["%byte) by done.
  destruct (element_head r Hr) as [Hh Hne]. rewrite head_skip_ws by done.
  set (n := json_fuel _).
  assert (length rest < n)%nat as Hn.
  { subst n. unfold json_fuel. simpl. rewrite !length_app.
    assert (length rest ≤ length (json_join false rest))%nat; [|lia].
    clear. induction rest as [|x rest IH]; simpl; [done|]. rewrite length_app. lia. }
  pose proof (join_raw_elements r rest n Hr Hrest Hn) as He.
  destruct r as [|c r]; [done|]. cbn [app]. cbn [app] in He.
  pose proof (value_head_ok c Hh) as (_ & ? & _). decs. exact He.
Qed.

Lemma element_compact r : element r → compactJSON r = Ok r.
Proof. intros. by eapply compactJSON_again; [|instantiate (1 := 1); lia]. Qed.

Lemma compact_all_elements recs : Forall element recs → compact_all recs = Ok recs.
Proof.
  intros H. apply compact_all_Ok, Forall_Forall2_diag. eapply Forall_impl; [done|].
  apply element_compact.
Qed.

Lemma compactJSON_fuel_ok b : fuel_ok (compactJSON b).
Proof.
  unfold compactJSON. apply fuel_ok_bind; [|intros [] _; by case_match].
  apply json_fuel_ok. unfold json_fuel. pose proof (skip_ws_length b). lia.
Qed.

Lemma raw_elements_fuel_ok n b : (length b < n)%nat → fuel_ok (raw_elements n b).
Proof.
  revert b. induction n as [|n IH]; intros b Hn; [lia|]. cbn [raw_elements].
  apply fuel_ok_bind; [apply json_fuel_ok; unfold json_fuel; lia|].
  intros [v r1] (c & raw & o & -> & _)%json_local. simpl in Hn. rewrite length_app in Hn.
  pose proof (skip_ws_length r1). destruct (skip_ws r1) as [|y r2]; [done|].
  case_decide; [done|]. case_decide; [|done]. apply fuel_ok_bind; [|done].
  apply IH. pose proof (skip_ws_length r2). simpl in *. lia.
Qed.

Lemma Unmarshal_fuel_ok b : fuel_ok (json_Unmarshal_array b).
Proof.
  unfold json_Unmarshal_array. apply fuel_ok_bind; [apply compactJSON_fuel_ok|]. intros c _.
  pose proof (skip_ws_length b) as Hl. destruct (skip_ws b) as [|x r]; [done|].
  pose proof (skip_ws_length r). destruct (skip_ws r) as [|y r']; [done|]. case_decide; [done|].
  apply raw_elements_fuel_ok. unfold json_fuel. simpl in *. lia.
Qed.

(** What [flattenJSON] returns on success. *)
Lemma flattenJSON_Ok body recs :
  flattenJSON body = Ok recs →
  recs ≠ [] ∧ Forall (λ r, compactJSON r = Ok r) recs ∧
  (head (bytes_TrimSpace body) = Some "["%byte → Forall element recs).
Proof.
  unfold flattenJSON. destruct (bytes_TrimSpace body) as [|c t]; [done|]. case_decide as Hc.
  - destruct (json_Unmarshal_array (c :: t)) as [[|a arr]|] eqn:E; try done. intros Hall.
    assert (Forall element recs ∧ recs ≠ []) as [He Hne].
    { unfold json_Unmarshal_array in E. apply result_bind_Ok in E as (? & _ & E).
      destruct (skip_ws _) as [|? r]; [done|]. destruct (skip_ws r); [done|].
      case_decide; [done|]. by eapply raw_elements_compact. }
    split_and!; [done| |done]. eapply Forall_impl; [done|]. apply element_compact.
  - unfold json_Valid. destruct (compactJSON (c :: t)) as [v|] eqn:E; [|done]. intros H. ok_inv H.
    split_and!; [done| |by intros [= ->]]. apply Forall_singleton.
    apply compactJSON_Ok in E as (rest & Hv & _). by eapply compactJSON_again.
Qed.

(** ** Properties *)

(** C32: JSON mode stores messages, not bytes. What a body is stored as is never
    empty and compact already; the array a reader is sent for stored messages
    that nest at most 9,999 levels (every element of an array body does) decodes
    to exactly these messages again. *)
Theorem json_messages_roundtrip body recs :
  flattenJSON body = Ok recs →
  recs ≠ [] ∧ Forall (λ r, compactJSON r = Ok r) recs ∧
  (head (bytes_TrimSpace body) = Some "["%byte → Forall element recs) ∧
  ∀ older, Forall element (older ++ recs) →
    flattenJSON (wrapJSONArray (older ++ recs)) = Ok (older ++ recs).
Proof.
  intros H. apply flattenJSON_Ok in H as (Hne & Hc & He). split_and!; [done..|].
  intros older Hall. destruct (older ++ recs) as [|r rest] eqn:E;
    [by apply app_eq_nil in E as [_ ?]|].
  unfold flattenJSON. rewrite wrapJSONArray_cons, TrimSpace_brackets. decs.
  rewrite <-wrapJSONArray_cons. inversion_clear Hall.
  rewrite Unmarshal_wrap, compact_all_elements by (done || by constructor). done.
Qed.

(** The scanner always answers: its recursion bound is never met, and the
    only errors of [flattenJSON] are the two the handlers distinguish. *)
Theorem flattenJSON_total body :
  fuel_ok (compactJSON body) ∧ fuel_ok (json_Unmarshal_array body) ∧
  match flattenJSON body with
  | Ok recs => recs ≠ []
  | Err e => e = errInvalidJSON ∨ e = errEmptyArray
  end.
Proof.
  split_and!; [apply compactJSON_fuel_ok|apply Unmarshal_fuel_ok|].
  destruct (flattenJSON body) as [recs|e] eqn:E; [by apply flattenJSON_Ok in E as [? _]|].
  unfold flattenJSON in E. destruct (bytes_TrimSpace body); [simplify_eq; by left|].
  repeat case_match; simplify_eq; try (by left); try (by right).
  left. by eapply compact_all_Err.
Qed.

(** [[{"a": [1, 2]}, null]] and its messages. *)
Definition json_sample : bytes :=
  ["["; " "; "{"; x22; "a"; x22; ":"; " "; "["; "1"; ","; " "; "2"; "]"; "}"; ","; "n"; "u"; "l"; "l"; "]"]%byte.

Lemma json_messages_roundtrip_witness :
  flattenJSON (wrapJSONArray (default [] match flattenJSON json_sample with Ok r => Some r | _ => None end))
  = flattenJSON json_sample.
Proof.
  destruct (json_messages_roundtrip json_sample
    [["{"; x22; "a"; x22; ":"; "["; "1"; ","; "2"; "]"; "}"]; ["n"; "u"; "l"; "l"]]%byte)
    as (_ & _ & He & H); [vm_compute; reflexivity|].
  assert (E : flattenJSON json_sample =
    Ok [["{"; x22; "a"; x22; ":"; "["; "1"; ","; "2"; "]"; "}"]; ["n"; "u"; "l"; "l"]]%byte)
    by (vm_compute; reflexivity).
  rewrite E. apply (H []). apply He. vm_compute. reflexivity.
Defined.
