(* ===== verification/LiveCache.v ===== *)
(** * The in-memory record cache (internal/ds/livecache.go)

    A bounded window of the most recent records of a stream, kept for readers
    that are caught up. [cache_holds] ties the window to the stream's content;
    the operations keep it, and a read served from the window is the read the
    store would have served ([readRange]). *)

From S2P Require Import Prelude.
From S2P Require Import Bytes.
From S2P Require Import Keys.
From S2P Require Import Offset.
From S2P Require Import Storage.
From S2P Require Import Loads.
From S2P Require Import Read.

Record cachedRecord : Type := mkCached { cr_seq : Z; cr_payload : bytes }.

Record liveCache : Type := mkLiveCache {
  lc_recs : list cachedRecord;
  curBytes : Z;
  maxRecs : Z;
  maxBytes : Z;
  hits : Z }.

Definition newLiveCache (maxRecs maxBytes : Z) : liveCache :=
  {| lc_recs := []; curBytes := 0; maxRecs := maxRecs; maxBytes := maxBytes; hits := 0 |}.

(** The loop of [append] that adds the payloads. *)
Fixpoint push_all (recs : list cachedRecord) (cur seq : Z) (payloads : list bytes)
  : list cachedRecord * Z :=
  match payloads with
  | [] => (recs, cur)
  | p :: rest =>
      push_all (recs ++ [{| cr_seq := seq; cr_payload := p |}]) (cur + len p) (u64 (seq + 1)) rest
  end.

(** The eviction loop: drop from the front until within bounds, keep one. *)
Fixpoint evict (maxRecs maxBytes : Z) (recs : list cachedRecord) (cur : Z)
  : list cachedRecord * Z :=
  match recs with
  | r :: ((_ :: _) as rest) =>
      if decide (maxRecs < len recs ∨ maxBytes < cur)
      then evict maxRecs maxBytes rest (cur - len (cr_payload r))
      else (recs, cur)
  | _ => (recs, cur)
  end.

Definition append (c : liveCache) (firstSeq : Z) (payloads : list bytes) : liveCache :=
  match payloads with
  | [] => c
  | _ =>
      let '(recs, cur) :=
        match last (lc_recs c) with
        | Some r => if decide (firstSeq = u64 (cr_seq r + 1)) then (lc_recs c, curBytes c) else ([], 0)
        | None => (lc_recs c, curBytes c)
        end in
      let '(recs, cur) := push_all recs cur firstSeq payloads in
      let '(recs, cur) := evict (maxRecs c) (maxBytes c) recs cur in
      {| lc_recs := recs; curBytes := cur; maxRecs := maxRecs c; maxBytes := maxBytes c;
         hits := hits c |}
  end.

Definition reset (c : liveCache) : liveCache :=
  {| lc_recs := []; curBytes := 0; maxRecs := maxRecs c; maxBytes := maxBytes c;
     hits := hits c |}.

(** [recs[from:to]]. *)
Definition window (c : liveCache) (from to : Z) : list bytes :=
  cr_payload <$> take (Z.to_nat (to - from)) (drop (Z.to_nat from) (lc_recs c)).

Definition hit (c : liveCache) : liveCache :=
  {| lc_recs := lc_recs c; curBytes := curBytes c; maxRecs := maxRecs c;
     maxBytes := maxBytes c; hits := hits c + 1 |}.

(** [None] is the source's [ok = false]: fall back to the store. *)
Definition tryRead (c : liveCache) (isJSON : bool) (start : Offset) (tailSeq limit : Z)
  : liveCache * option (bytes * Offset * bool) :=
  if decide (Byte start ≠ 0 ∨ tailSeq ≤ Seq start) then (c, None) else
  match head (lc_recs c), last (lc_recs c) with
  | Some first, Some lst =>
      let n := len (lc_recs c) in
      let lo := cr_seq first in
      let hi := u64 (cr_seq lst + 1) in
      if decide (Seq start < lo ∨ hi < tailSeq) then (c, None) else
      let from := i64 (u64 (Seq start - lo)) in
      let to := i64 (u64 (tailSeq - lo)) in
      if decide (from < 0 ∨ n < to ∨ to ≤ from) then (c, None) else
      let recs := window c from to in
      let total := len (concat recs) in
      if decide (limit ≤ total) then (c, None) else
      let body := if isJSON then wrapJSONArray recs else concat recs in
      (hit c, Some (body, {| Seq := tailSeq; Byte := 0 |}, true))
  | _, _ => (c, None)
  end.

(** ** The window and the stream's content *)

(** The window is the records [a .. b) of the stream. *)
Record cache_holds (L : Z → bytes) (c : liveCache) (a b : Z) : Prop := {
  ch_range : 0 ≤ a ≤ b ∧ b < 2^63;
  ch_recs : lc_recs c = (λ i, {| cr_seq := i; cr_payload := L i |}) <$> seqZ a (b - a);
  ch_bytes : curBytes c = size L a b }.

(** The memory bounds: at most [maxRecs] records and [maxBytes] bytes, but for
    the newest record, which is always kept. *)
Definition cache_bounded (c : liveCache) : Prop :=
  len (lc_recs c) ≤ 1 ∨ (len (lc_recs c) ≤ maxRecs c ∧ curBytes c ≤ maxBytes c).

(** ** Lemmas *)

Section cache.
  Context (L : Z → bytes).

Definition cached_run (a b : Z) : list cachedRecord :=
  (λ i, {| cr_seq := i; cr_payload := L i |}) <$> seqZ a (b - a).

Lemma length_cached_run a b : len (cached_run a b) = 0 `max` (b - a).
Proof. unfold cached_run. rewrite length_fmap, length_seqZ. lia. Qed.

Lemma cached_run_cons a b :
  a < b → cached_run a b = {| cr_seq := a; cr_payload := L a |} :: cached_run (a + 1) b.
Proof. intros. unfold cached_run. rewrite seqZ_cons by lia. simpl. do 3 f_equal; lia. Qed.

Lemma cached_run_nil a b : b ≤ a → cached_run a b = [].
Proof. intros. unfold cached_run. by rewrite seqZ_nil by lia. Qed.

Lemma cached_run_snoc a b :
  a ≤ b → cached_run a (b + 1) = cached_run a b ++ [{| cr_seq := b; cr_payload := L b |}].
Proof.
  intros. unfold cached_run. replace (b + 1 - a) with ((b - a) + 1) by lia.
  rewrite seqZ_app, fmap_app by lia. f_equal. rewrite seqZ_cons, seqZ_nil by lia. simpl.
  do 3 f_equal; lia.
Qed.

Lemma cached_run_head a b : head (cached_run a b) =
  if decide (a < b) then Some {| cr_seq := a; cr_payload := L a |} else None.
Proof. case_decide; [by rewrite cached_run_cons|by rewrite cached_run_nil by lia]. Qed.

Lemma cached_run_last a b : last (cached_run a b) =
  if decide (a < b) then Some {| cr_seq := b - 1; cr_payload := L (b - 1) |} else None.
Proof.
  case_decide; [|by rewrite cached_run_nil by lia].
  replace b with (b - 1 + 1) at 1 by lia. by rewrite cached_run_snoc, last_snoc by lia.
Qed.

Lemma cached_run_payloads a b : cr_payload <$> cached_run a b = payloads L a b.
Proof. unfold cached_run, payloads. by rewrite <-list_fmap_compose. Qed.

Lemma cached_run_sub a b x y :
  a ≤ x ≤ y → y ≤ b →
  take (Z.to_nat (y - x)) (drop (Z.to_nat (x - a)) (cached_run a b)) = cached_run x y.
Proof.
  intros Hx Hy. unfold cached_run. rewrite <-fmap_drop, <-fmap_take. f_equal.
  replace (b - a) with ((x - a) + ((y - x) + (b - y))) by lia.
  rewrite !seqZ_app by lia. replace (a + (x - a)) with x by lia.
  rewrite drop_app_length_eq by (rewrite length_seqZ; lia).
  by rewrite take_app_length_eq by (rewrite length_seqZ; lia).
Qed.

Lemma size_cons a b : a < b → size L a b = len (L a) + size L (a + 1) b.
Proof. intros. unfold size. rewrite payloads_cons by lia. simpl. rewrite length_app. lia. Qed.

Lemma size_mono a b c : a ≤ b ≤ c → size L a b ≤ size L a c.
Proof.
  intros. unfold size. rewrite (payloads_app L a b c) by lia.
  rewrite concat_app, length_app. lia.
Qed.

Lemma push_all_spec a b g cur :
  0 ≤ a ≤ b → b ≤ g < 2^63 → cur = size L a b →
  push_all (cached_run a b) cur b (payloads L b g) = (cached_run a g, size L a g).
Proof.
  intros Ha Hg. remember (Z.to_nat (g - b)) as n eqn:Hn.
  revert b cur Ha Hg Hn. induction n as [|n IH]; intros b cur Ha Hg Hn ->.
  - replace g with b by lia. by rewrite payloads_nil by lia.
  - rewrite payloads_cons by lia. simpl. rewrite <-cached_run_snoc, <-size_snoc by lia.
    rewrite u64_small by (unfold is_u64; lia). apply IH; lia || done.
Qed.

Lemma evict_cons mr mb r r' rest cur :
  evict mr mb (r :: r' :: rest) cur =
  if decide (mr < len (r :: r' :: rest) ∨ mb < cur)
  then evict mr mb (r' :: rest) (cur - len (cr_payload r)) else (r :: r' :: rest, cur).
Proof. done. Qed.

Lemma evict_spec mr mb a g :
  a < g → ∃ a', evict mr mb (cached_run a g) (size L a g) = (cached_run a' g, size L a' g) ∧
    a ≤ a' < g ∧ (g - a' ≤ 1 ∨ (g - a' ≤ mr ∧ size L a' g ≤ mb)).
Proof.
  remember (Z.to_nat (g - a)) as n eqn:Hn. revert a Hn.
  induction n as [|n IH]; intros a Hn Ha; [lia|].
  destruct (decide (a + 1 < g)) as [H1|H1].
  - pose proof (length_cached_run a g) as Hlen.
    rewrite (cached_run_cons a g), (cached_run_cons (a + 1) g) in * by lia.
    rewrite evict_cons, Hlen. case_decide as Hb.
    + rewrite <-(cached_run_cons (a + 1) g) by lia. simpl cr_payload.
      replace (size L a g - len (L a)) with (size L (a + 1) g) by (rewrite (size_cons a g); lia).
      destruct (IH (a + 1)) as (a' & -> & ?); [lia..|]. exists a'. split; [done|lia].
    + exists a. rewrite <-(cached_run_cons (a + 1) g), <-(cached_run_cons a g) by lia.
      split; [done|lia].
  - exists a. split; [|lia]. rewrite (cached_run_cons a g), (cached_run_nil (a + 1)) by lia. done.
Qed.

(** The content is only appended to: a window of a shorter prefix stays valid. *)
Lemma append_holds c a b f g :
  cache_holds L c a b → 0 ≤ f < g → g < 2^63 →
  ∃ a', cache_holds L (append c f (payloads L f g)) a' g ∧ a `min` f ≤ a' < g ∧
    cache_bounded (append c f (payloads L f g)).
Proof.
  intros [Hab Hrecs Hcur] Hf Hg. unfold append.
  destruct (payloads L f g) as [|p0 ps] eqn:Hp; [apply payloads_eq_nil in Hp; lia|].
  rewrite <-Hp.
  fold (cached_run a b) in Hrecs.
  set (init := match last (lc_recs c) with Some _ => _ | None => _ end).
  assert (∃ x, init = (cached_run x f, size L x f) ∧ 0 ≤ x ≤ f ∧ a `min` f ≤ x) as (x & -> & Hx).
  { unfold init. rewrite Hrecs, Hcur, cached_run_last.
    repeat case_decide; simpl in *.
    - rewrite u64_small in * by (unfold is_u64; lia). exists a. replace f with b by lia.
      split; [done|lia].
    - exists f. rewrite cached_run_nil, size_nil by lia. split; [done|lia].
    - exists f. rewrite !cached_run_nil, !size_nil by lia. split; [done|lia]. }
  rewrite push_all_spec by (lia || done).
  destruct (evict_spec (maxRecs c) (maxBytes c) x g) as (a' & -> & ? & Hbound); [lia|].
  exists a'. split_and!; [split; [lia|done|done]|lia|lia|].
  unfold cache_bounded. cbn [lc_recs maxRecs maxBytes curBytes]. rewrite length_cached_run. lia.
Qed.

Lemma reset_holds c : cache_holds L (reset c) 0 0.
Proof. split; [lia|done|done]. Qed.

Lemma newLiveCache_holds mr mb : cache_holds L (newLiveCache mr mb) 0 0.
Proof. split; [lia|done|done]. Qed.

(** What a hit delivers. *)
Lemma tryRead_hit c a b isJSON start T limit c' r :
  cache_holds L c a b → 0 ≤ Seq start → T < 2^63 →
  tryRead c isJSON start T limit = (c', Some r) →
  c' = hit c ∧ Byte start = 0 ∧ a ≤ Seq start < T ∧ T ≤ b ∧ size L (Seq start) T < limit ∧
  r = (if isJSON then wrapJSONArray (payloads L (Seq start) T)
       else concat (payloads L (Seq start) T), {| Seq := T; Byte := 0 |}, true).
Proof.
  intros [Hab Hrecs Hcur] HS HT. unfold tryRead. fold (cached_run a b) in Hrecs.
  case_decide as Hc1; [done|]. rewrite Hrecs, cached_run_head, cached_run_last.
  case_decide as Hlt; [|done]. cbn [cr_seq]. case_decide as Hc2; [done|].
  rewrite u64_small in Hc2 by (unfold is_u64; lia).
  rewrite !u64_small, !i64_small by (unfold is_u64, is_i64; lia).
  case_decide; [done|]. unfold window. rewrite Hrecs.
  replace (T - a - (Seq start - a)) with (T - Seq start) by lia.
  rewrite cached_run_sub, cached_run_payloads by lia. fold (size L (Seq start) T).
  case_decide; [done|]. intros Hr. simplify_eq. split_and!; lia || done.
Qed.

End cache.

(** A read served by the cache is the one the store would have served. *)
Section against_store.
  Context {S : Type} `{StorageLaws S}.

Lemma binary_read_whole L start T limit body next upToDate :
  Byte start = 0 → Seq start < T → size L (Seq start) T < limit →
  binary_read L start T limit body next upToDate →
  body = concat (payloads L (Seq start) T) ∧ next = {| Seq := T; Byte := 0 |} ∧ upToDate = true.
Proof.
  intros HB Hlt Hsz [Hc Hlim Hutd Hshort Hprog Hnext _].
  destruct start as [a ?]; simpl in *; subst. rewrite content_from_payloads in Hc.
  assert (upToDate = true) as ->.
  { apply Hshort. unfold size in Hsz. rewrite <-Hc, length_app in Hsz. lia. }
  destruct (Hnext Hlt) as [? Hb]. assert (T ≤ Seq next) by by apply Hutd.
  rewrite content_from_done, app_nil_r in Hc by lia.
  destruct next as [n ?]; simpl in *. assert (n = T) as -> by lia.
  split_and!; [done|by rewrite Hb|done].
Qed.

Lemma json_read_whole L start T limit body next upToDate :
  Seq start < T → size L (Seq start) T < limit →
  json_read L start T limit body next upToDate →
  body = wrapJSONArray (payloads L (Seq start) T) ∧ next = {| Seq := T; Byte := 0 |} ∧
  upToDate = true.
Proof.
  intros Hlt Hsz [Hc Hrange _ Hutd Hlim Hfull]. destruct (Hrange Hlt) as [? Hb].
  assert (upToDate = true) as Hu.
  { destruct upToDate; [done|]. assert (¬ T ≤ Seq next) by (rewrite <-Hutd; done).
    pose proof (size_mono L (Seq start) (Seq next + 1) T ltac:(lia)).
    pose proof (size_mono L (Seq start) (Seq next) T ltac:(lia)).
    destruct (Hfull eq_refl); lia. }
  assert (T ≤ Seq next) by by apply Hutd.
  destruct next as [n ?]; simpl in *. assert (n = T) as -> by lia. by subst.
Qed.

(** The cache keeps a contiguous run of the stream's latest records within
    its memory bounds: appending the records [f .. g) to any window leaves a
    nonempty window that ends at [g] and holds the right payloads. *)
Theorem livecache_append_invariant L c a b f g :
  cache_holds L c a b → 0 ≤ f < g → g < 2^63 →
  let c' := append c f (payloads L f g) in
  (∃ a', a' < g ∧ cache_holds L c' a' g) ∧ cache_bounded c'.
Proof. intros Hc Hf Hg. destruct (append_holds L c a b f g Hc Hf Hg) as (a' & ? & [??] & ?). eauto. Qed.

(** C16: a read the cache serves is the read [readRange] serves for the same
    request, byte for byte and with the same next offset: the cache never
    changes what a reader sees. *)
Theorem livecache_read_equals_store L (s : S) c a b id ff fo isJSON start T limit c' body next utd :
  keys_wf (view s) → log_at (view s) L id ff fo T → cache_holds L c a b →
  0 ≤ Seq start → T < 2^63 →
  tryRead c isJSON start T limit = (c', Some (body, next, utd)) →
  (∀ r, readRange s id ff fo isJSON start T limit = Ok r → r = (body, next, utd)) ∧
  (healthy s → readRange s id ff fo isJSON start T limit = Ok (body, next, utd)).
Proof.
  intros Hwf Hl Hc HS HT Htry.
  apply (tryRead_hit L c a b) in Htry as (_ & HB & Ha & _ & Hsz & Heq); [|done..].
  assert (0 ≤ size L (Seq start) T) by (unfold size; lia).
  cut (∀ r, readRange s id ff fo isJSON start T limit = Ok r → r = (body, next, utd)).
  { intros Hr. split; [done|]. intros Hh.
    destruct (readRange_total L s id ff fo isJSON start T limit) as [r E]; [done..|lia|].
    by rewrite E, (Hr r E). }
  intros [[body' next'] utd'] E. destruct isJSON; simplify_eq.
  - apply (readRange_json_read L) in E; [|done..|lia|lia].
    by apply json_read_whole in E as (-> & -> & ->); [|lia..].
  - apply (readRange_binary_read L) in E; [|done..|lia|lia|lia].
    by apply binary_read_whole in E as (-> & -> & ->); [|lia..].
Qed.

End against_store.

Definition sample_cache : liveCache := append (newLiveCache 2 100) 0 (payloads Sample.log 0 2).

Lemma sample_cache_holds : cache_holds Sample.log sample_cache 0 2.
Proof. split; [lia|by vm_compute..]. Qed.

Lemma livecache_append_invariant_witness :
  ∃ a', a' < 5 ∧ cache_holds Sample.log (append sample_cache 2 (payloads Sample.log 2 5)) a' 5.
Proof.
  apply (livecache_append_invariant Sample.log sample_cache 0 2 2 5);
    [apply sample_cache_holds|lia..].
Defined.

Lemma livecache_read_equals_store_witness :
  readRange Sample.store 2 1 1 true {| Seq := 0; Byte := 0 |} 2 10 =
    Ok (wrapJSONArray (payloads Sample.log 0 2), {| Seq := 2; Byte := 0 |}, true).
Proof.
  apply (livecache_read_equals_store Sample.log Sample.store sample_cache 0 2
           2 1 1 true _ 2 10 (hit sample_cache));
    [apply Sample.store_keys_wf|apply Sample.store_log|apply sample_cache_holds|done|lia
    |by vm_compute|done].
Defined.
