(* ===== verification/Streamer.v ===== *)
(** * The streamer: group commit (internal/ds/streamer.go, commit.go)

    A streamer owns one live stream. It validates the queued appends of a burst
    in order against a pending view and lands their effects in one atomic batch.
    The definitions follow streamer.go; the synchronous committer of commit.go is
    here too, the shared one is in Committer.v. *)

From S2P Require Import Prelude.
From S2P Require Import Bytes.
From S2P Require Import Keys.
From S2P Require Import Meta.
From S2P Require Import Offset.
From S2P Require Import Producer.
From S2P Require Import Storage.
From S2P Require Import Loads.
From S2P Require Import Batch.
From S2P Require Import Mime.
From S2P Require Import Read.
From S2P Require Import LiveCache.

(** ** Requests and responses

    The reply channel of a request is its position in the list of responses. *)

Record appendReq : Type := mkAppendReq {
  rq_records : list bytes;
  rq_hasBody : bool;
  rq_contentType : bytes;
  rq_closeStream : bool;
  rq_streamSeq : option bytes;
  rq_producer : option producerHeaders }.

Record appendResp : Type := mkAppendResp {
  rs_status : Z;
  rs_nextOffset : Offset;
  rs_closed : bool;
  rs_producerEpoch : option Z;
  rs_producerSeq : option Z;
  rs_expectedSeq : option Z;
  rs_receivedSeq : option Z;
  rs_err : option error }.

#[global] Instance appendResp_eq_decision : EqDecision appendResp.
Proof. solve_decision. Defined.

Definition offset0 : Offset := {| Seq := 0; Byte := 0 |}.

(** The composite literals: fields not named are zero. *)
Definition resp_status (status : Z) : appendResp :=
  {| rs_status := status; rs_nextOffset := offset0; rs_closed := false;
     rs_producerEpoch := None; rs_producerSeq := None; rs_expectedSeq := None;
     rs_receivedSeq := None; rs_err := None |}.
Definition resp_tail (status tail : Z) (closed : bool) (pe ps : option Z) : appendResp :=
  {| rs_status := status; rs_nextOffset := tailOffset tail; rs_closed := closed;
     rs_producerEpoch := pe; rs_producerSeq := ps; rs_expectedSeq := None;
     rs_receivedSeq := None; rs_err := None |}.
Definition resp_stale (e : Z) : appendResp :=
  {| rs_status := 403; rs_nextOffset := offset0; rs_closed := false;
     rs_producerEpoch := Some e; rs_producerSeq := None; rs_expectedSeq := None;
     rs_receivedSeq := None; rs_err := None |}.
Definition resp_gap (exp rcv : Z) : appendResp :=
  {| rs_status := 409; rs_nextOffset := offset0; rs_closed := false;
     rs_producerEpoch := None; rs_producerSeq := None; rs_expectedSeq := Some exp;
     rs_receivedSeq := Some rcv; rs_err := None |}.
Definition resp_error (e : error) : appendResp :=
  {| rs_status := 500; rs_nextOffset := offset0; rs_closed := false;
     rs_producerEpoch := None; rs_producerSeq := None; rs_expectedSeq := None;
     rs_receivedSeq := None; rs_err := Some e |}.

(** ** State *)

Record streamer : Type := mkStreamer {
  st_path : bytes;
  st_id : Z;
  st_isJSON : bool;
  st_forkedFrom : Z;
  st_forkOffset : Z;
  st_meta : StreamMeta;
  st_producers : gmap bytes producerState;
  st_producerLoaded : gset bytes;
  st_writerSeq : bytes;
  st_writerSeqLoaded : bool;
  st_writeTail : Z;
  st_pending : Z;
  st_tail : Z;
  st_closed : bool;
  st_longPollReaders : Z;
  st_sseReaders : Z;
  st_cache : option liveCache;
  st_wakes : Z }.

Definition totalReaders (st : streamer) : Z := st_longPollReaders st + st_sseReaders st.

(** Assignments to the fields the operations change. *)
Definition set_meta (m : StreamMeta) (st : streamer) : streamer :=
  {| st_path := st_path st; st_id := st_id st; st_isJSON := st_isJSON st;
     st_forkedFrom := st_forkedFrom st; st_forkOffset := st_forkOffset st; st_meta := m;
     st_producers := st_producers st; st_producerLoaded := st_producerLoaded st;
     st_writerSeq := st_writerSeq st; st_writerSeqLoaded := st_writerSeqLoaded st;
     st_writeTail := st_writeTail st; st_pending := st_pending st; st_tail := st_tail st;
     st_closed := st_closed st; st_longPollReaders := st_longPollReaders st;
     st_sseReaders := st_sseReaders st; st_cache := st_cache st; st_wakes := st_wakes st |}.
Definition set_producers (p : gmap bytes producerState) (l : gset bytes) (st : streamer)
  : streamer :=
  {| st_path := st_path st; st_id := st_id st; st_isJSON := st_isJSON st;
     st_forkedFrom := st_forkedFrom st; st_forkOffset := st_forkOffset st;
     st_meta := st_meta st; st_producers := p; st_producerLoaded := l;
     st_writerSeq := st_writerSeq st; st_writerSeqLoaded := st_writerSeqLoaded st;
     st_writeTail := st_writeTail st; st_pending := st_pending st; st_tail := st_tail st;
     st_closed := st_closed st; st_longPollReaders := st_longPollReaders st;
     st_sseReaders := st_sseReaders st; st_cache := st_cache st; st_wakes := st_wakes st |}.
Definition set_writerSeq (w : bytes) (st : streamer) : streamer :=
  {| st_path := st_path st; st_id := st_id st; st_isJSON := st_isJSON st;
     st_forkedFrom := st_forkedFrom st; st_forkOffset := st_forkOffset st;
     st_meta := st_meta st; st_producers := st_producers st;
     st_producerLoaded := st_producerLoaded st; st_writerSeq := w; st_writerSeqLoaded := true;
     st_writeTail := st_writeTail st; st_pending := st_pending st; st_tail := st_tail st;
     st_closed := st_closed st; st_longPollReaders := st_longPollReaders st;
     st_sseReaders := st_sseReaders st; st_cache := st_cache st; st_wakes := st_wakes st |}.
Definition set_writeTail (t : Z) (st : streamer) : streamer :=
  {| st_path := st_path st; st_id := st_id st; st_isJSON := st_isJSON st;
     st_forkedFrom := st_forkedFrom st; st_forkOffset := st_forkOffset st;
     st_meta := st_meta st; st_producers := st_producers st;
     st_producerLoaded := st_producerLoaded st; st_writerSeq := st_writerSeq st;
     st_writerSeqLoaded := st_writerSeqLoaded st; st_writeTail := t;
     st_pending := st_pending st; st_tail := st_tail st; st_closed := st_closed st;
     st_longPollReaders := st_longPollReaders st; st_sseReaders := st_sseReaders st;
     st_cache := st_cache st; st_wakes := st_wakes st |}.
Definition set_pending (n : Z) (st : streamer) : streamer :=
  {| st_path := st_path st; st_id := st_id st; st_isJSON := st_isJSON st;
     st_forkedFrom := st_forkedFrom st; st_forkOffset := st_forkOffset st;
     st_meta := st_meta st; st_producers := st_producers st;
     st_producerLoaded := st_producerLoaded st; st_writerSeq := st_writerSeq st;
     st_writerSeqLoaded := st_writerSeqLoaded st; st_writeTail := st_writeTail st;
     st_pending := n; st_tail := st_tail st; st_closed := st_closed st;
     st_longPollReaders := st_longPollReaders st; st_sseReaders := st_sseReaders st;
     st_cache := st_cache st; st_wakes := st_wakes st |}.
Definition set_reader (t : Z) (c : bool) (cache : option liveCache) (wakes : Z) (st : streamer)
  : streamer :=
  {| st_path := st_path st; st_id := st_id st; st_isJSON := st_isJSON st;
     st_forkedFrom := st_forkedFrom st; st_forkOffset := st_forkOffset st;
     st_meta := st_meta st; st_producers := st_producers st;
     st_producerLoaded := st_producerLoaded st; st_writerSeq := st_writerSeq st;
     st_writerSeqLoaded := st_writerSeqLoaded st; st_writeTail := st_writeTail st;
     st_pending := st_pending st; st_tail := t; st_closed := c;
     st_longPollReaders := st_longPollReaders st; st_sseReaders := st_sseReaders st;
     st_cache := cache; st_wakes := wakes |}.

(** [*s.meta] with [Closed] and [Deadline] assigned. *)
Definition meta_with (m : StreamMeta) (closed : bool) (deadline : Z) : StreamMeta :=
  {| StreamID := StreamID m; ContentType := ContentType m; TTLSeconds := TTLSeconds m;
     ExpiresAt := ExpiresAt m; Closed := closed; CreatedAtMs := CreatedAtMs m;
     IsPrivate := IsPrivate m; Deadline := deadline; ForkedFrom := ForkedFrom m;
     ForkOffset := ForkOffset m; ForkByte := ForkByte m |}.

(** The configuration a streamer reads. *)
Record cacheConfig : Type := mkCacheConfig {
  DisableLiveCache : bool; LiveCacheMaxRecords : Z; LiveCacheMaxBytes : Z }.

Definition newStreamer (cfg : cacheConfig) (path : bytes) (meta : StreamMeta) (tailSeq : Z)
  : streamer :=
  {| st_path := path; st_id := StreamID meta; st_isJSON := isJSONStream (ContentType meta);
     st_forkedFrom := ForkedFrom meta; st_forkOffset := ForkOffset meta; st_meta := meta;
     st_producers := ∅; st_producerLoaded := ∅; st_writerSeq := []; st_writerSeqLoaded := false;
     st_writeTail := tailSeq; st_pending := 0; st_tail := tailSeq; st_closed := Closed meta;
     st_longPollReaders := 0; st_sseReaders := 0;
     st_cache := if decide (ForkedFrom meta = 0 ∧ DisableLiveCache cfg = false)
                 then Some (newLiveCache (LiveCacheMaxRecords cfg) (LiveCacheMaxBytes cfg))
                 else None;
     st_wakes := 0 |}.

(** ** Sliding expiry *)

Definition ttl_granularity (ttl : Z) : Z :=
  let gran := ttl / 4 in
  if decide (gran < 1) then 1 else if decide (600 < gran) then 600 else gran.

(** [slideTTL] as a function of the pending deadline. *)
Definition slideTTL (ttlSecs now deadline : Z) : Z :=
  if decide (ttlSecs = 0) then deadline else
  let nowTTL := u64 (u64 now + ttlSecs) in
  if decide (nowTTL < deadline) then deadline else u64 (nowTTL + ttl_granularity ttlSecs).

(** The refresh for a read; [None] is the source's nil. *)
Definition ttlRefreshOps (st : streamer) (nowUnix : Z) : option (streamer * list Op) :=
  let m := st_meta st in
  if decide (TTLSeconds m = 0) then None else
  let nowTTL := u64 (u64 nowUnix + TTLSeconds m) in
  if decide (nowTTL < Deadline m) then None else
  let d := u64 (nowTTL + ttl_granularity (TTLSeconds m)) in
  let ops := [PutOp (expiryKey d (st_id st)) (u64Value (TTLSeconds m))] in
  let ops := if decide (0 < Deadline m ∧ Deadline m ≠ d)
             then ops ++ [DelOp (expiryKey (Deadline m) (st_id st))] else ops in
  Some (set_meta (meta_with m (Closed m) d) st, ops).

(** ** The pending view of a burst *)

Record pendingBurst : Type := mkPending {
  pd_tail : Z;
  pd_closed : bool;
  pd_deadline : Z;
  pd_producers : option (gmap bytes producerState);
  pd_writerSeq : option bytes;
  pd_recordOps : list Op;
  pd_now : Z }.

Section streamer_ops.
  Context {S : Type} `{Storage S}.
  Implicit Types (s : S) (st : streamer).

Definition refreshTTLOnRead s st (now : Z) : S * streamer :=
  match ttlRefreshOps st now with
  | None => (s, st)
  | Some (st', ops) =>
      let '(s', err) := store_Commit s (ops ++ [PutOp (metaKey (st_path st)) (Marshal (st_meta st'))]) false in
      match err with
      | None => (s', st')
      | Some _ => (s', st)
      end
  end.

(** A failed or undecodable read counts as "no state", and is not retried. *)
Definition loadProducer s st (pid : bytes) : streamer * option producerState :=
  if decide (pid ∈ st_producerLoaded st) then (st, st_producers st !! pid) else
  let loaded := {[pid]} ∪ st_producerLoaded st in
  match store_Get s (producerKey (st_id st) pid) with
  | Ok (Some v) =>
      match unmarshalProducer v with
      | Ok ps => (set_producers (<[pid := ps]> (st_producers st)) loaded st, Some ps)
      | Err _ => (set_producers (st_producers st) loaded st, None)
      end
  | _ => (set_producers (st_producers st) loaded st, None)
  end.

Definition loadWriterSeq s st : streamer * bytes :=
  if st_writerSeqLoaded st then (st, st_writerSeq st) else
  match store_Get s (writerSeqKey (st_id st)) with
  | Ok (Some v) => (set_writerSeq v st, v)
  | _ => (set_writerSeq (st_writerSeq st) st, st_writerSeq st)
  end.

Definition effProducer s st (pend : pendingBurst) (pid : bytes) : streamer * option producerState :=
  match pd_producers pend ≫= (.!! pid) with
  | Some ps => (st, Some ps)
  | None => loadProducer s st pid
  end.

Definition effWriterSeq s st (pend : pendingBurst) : streamer * bytes :=
  match pd_writerSeq pend with
  | Some w => (st, w)
  | None => loadWriterSeq s st
  end.

(** *** Validation and acceptance of one append *)

Definition planAppendClosed s st (pend : pendingBurst) (req : appendReq)
  : streamer * pendingBurst * appendResp * bool :=
  if negb (rq_hasBody req) then
    (st, pend, resp_tail 204 (pd_tail pend) true None None, false)
  else
    let refuse st := (st, pend, resp_tail 409 (pd_tail pend) true None None, false) in
    match rq_producer req with
    | None => refuse st
    | Some h =>
        let '(st, ps) := effProducer s st pend (ph_id h) in
        let cur := default producerState0 ps in
        match kind (validateProducer cur (bool_decide (is_Some ps)) h) with
        | pDuplicate =>
            (st, pend, resp_tail 204 (pd_tail pend) true (Some (epoch cur)) (Some (lastSeq cur)),
             false)
        | _ => refuse st
        end
    end.

(** The producer check: a refusal, or the state to record ([None] without
    producer headers). *)
Definition planProducer s st (pend : pendingBurst) (req : appendReq)
  : streamer * (appendResp + option producerState) :=
  match rq_producer req with
  | None => (st, inr None)
  | Some h =>
      let '(st, ps) := effProducer s st pend (ph_id h) in
      let cur := default producerState0 ps in
      let act := validateProducer cur (bool_decide (is_Some ps)) h in
      (st, match kind act with
           | pStaleEpoch => inl (resp_stale (currentEpoch act))
           | pBadSeqStart => inl (resp_status 400)
           | pGap => inl (resp_gap (expectedSeq act) (receivedSeq act))
           | pDuplicate =>
               inl (resp_tail 204 (pd_tail pend) (pd_closed pend)
                      (Some (epoch cur)) (Some (lastSeq cur)))
           | pAccept =>
               let ns := newState act in
               inr (Some {| epoch := epoch ns; lastSeq := lastSeq ns;
                            closedBy := rq_closeStream req |})
           end)
  end.

(** The [for] loop that adds the record operations. *)
Fixpoint recordOps (id start : Z) (i : Z) (records : list bytes) : list Op :=
  match records with
  | [] => []
  | rec :: rest =>
      PutOp (recordKey id (u64 (start + i))) (marshalRecord recFlagNone rec)
      :: recordOps id start (i + 1) rest
  end.

Definition acceptAppend st (pend : pendingBurst) (req : appendReq) (newProd : option producerState)
  : pendingBurst * appendResp :=
  let start := pd_tail pend in
  let n := len (rq_records req) in
  let pend' :=
    {| pd_tail := u64 (start + n);
       pd_closed := if rq_closeStream req then true else pd_closed pend;
       pd_deadline := slideTTL (TTLSeconds (st_meta st)) (pd_now pend) (pd_deadline pend);
       pd_producers :=
         match newProd, rq_producer req with
         | Some ps, Some h => Some (<[ph_id h := ps]> (default ∅ (pd_producers pend)))
         | _, _ => pd_producers pend
         end;
       pd_writerSeq :=
         match rq_streamSeq req with Some w => Some w | None => pd_writerSeq pend end;
       pd_recordOps := pd_recordOps pend ++ recordOps (st_id st) start 0 (rq_records req);
       pd_now := pd_now pend |} in
  let status := if decide (is_Some (rq_producer req) ∧ 0 < n) then 200 else 204 in
  (pend', resp_tail status (u64 (start + n)) (pd_closed pend')
            (ph_epoch <$> rq_producer req) (ph_seq <$> rq_producer req)).

Definition planAppend s st (pend : pendingBurst) (req : appendReq)
  : streamer * pendingBurst * appendResp * bool :=
  if pd_closed pend then planAppendClosed s st pend req else
  if rq_hasBody req && negb (contentTypeMatches (ContentType (st_meta st)) (rq_contentType req))
  then (st, pend, resp_status 409, false) else
  let '(st, prod) := planProducer s st pend req in
  match prod with
  | inl resp => (st, pend, resp, false)
  | inr newProd =>
      let '(st, seq_ok) :=
        match rq_streamSeq req with
        | None => (st, true)
        | Some w =>
            let '(st, cur) := effWriterSeq s st pend in
            (st, negb (bool_decide (bytes_le w cur)))
        end in
      if seq_ok then
        let '(pend', resp) := acceptAppend st pend req newProd in (st, pend', resp, true)
      else (st, pend, resp_status 409, false)
  end.

(** *** One burst *)

Record cacheSeg : Type := mkCacheSeg { seg_firstSeq : Z; seg_payloads : list bytes }.

Record commitBurst : Type := mkCommitBurst {
  cb_pend : pendingBurst;
  cb_ops : list Op;
  cb_batch : list appendReq;
  cb_responses : list appendResp;
  cb_accepted : list bool;
  cb_metaChanged : bool;
  cb_seg : cacheSeg }.

(** The planning loop of [processBurst]. *)
Fixpoint planAll s st (pend : pendingBurst) (batch : list appendReq)
  : streamer * pendingBurst * list appendResp * list bool :=
  match batch with
  | [] => (st, pend, [], [])
  | req :: rest =>
      let '(st, pend, resp, acc) := planAppend s st pend req in
      let '(st, pend, resps, accs) := planAll s st pend rest in
      (st, pend, resp :: resps, acc :: accs)
  end.

Definition startPending st (now : Z) : pendingBurst :=
  {| pd_tail := st_writeTail st; pd_closed := Closed (st_meta st);
     pd_deadline := Deadline (st_meta st); pd_producers := None; pd_writerSeq := None;
     pd_recordOps := []; pd_now := now |}.

(** Whether an accepted request of the burst closes the stream. *)
Definition closeAccepted (batch : list appendReq) (accepted : list bool) : bool :=
  existsb (λ p, rq_closeStream p.1 && p.2) (zip batch accepted).

(** The batch of a burst; the producers come in the map's (unspecified) order. *)
Definition burstOps st (pend : pendingBurst) (metaChanged deadlineChanged : bool) : list Op :=
  let id := st_id st in
  pd_recordOps pend
  ++ [PutOp (tailKey id) (marshalTail (pd_tail pend) (pd_now pend))]
  ++ ((λ p, PutOp (producerKey id p.1) (marshalProducer p.2)) <$>
      map_to_list (default ∅ (pd_producers pend)))
  ++ match pd_writerSeq pend with Some w => [PutOp (writerSeqKey id) w] | None => [] end
  ++ (if deadlineChanged then
        [PutOp (expiryKey (pd_deadline pend) id) (u64Value (TTLSeconds (st_meta st)))]
        ++ (if decide (0 < Deadline (st_meta st))
            then [DelOp (expiryKey (Deadline (st_meta st)) id)] else [])
      else [])
  ++ (if metaChanged then
        [PutOp (metaKey (st_path st))
           (Marshal (meta_with (st_meta st) (pd_closed pend) (pd_deadline pend)))]
      else []).

Definition burstSeg st (baseSeq : Z) (pend : pendingBurst) : cacheSeg :=
  if decide (is_Some (st_cache st) ∧ pd_recordOps pend ≠ [] ∧ 0 < totalReaders st)
  then {| seg_firstSeq := baseSeq; seg_payloads := recordPayload ∘ op_val <$> pd_recordOps pend |}
  else {| seg_firstSeq := 0; seg_payloads := [] |}.

(** [processBurst] up to the call of the committer: [inl] are the responses of
    a burst that changes nothing. *)
Definition planBurst s st (now : Z) (batch : list appendReq)
  : streamer * (list appendResp + commitBurst) :=
  let baseSeq := st_writeTail st in
  let '(st, pend, responses, accepted) := planAll s st (startPending st now) batch in
  let metaChanged := closeAccepted batch accepted in
  let deadlineChanged := bool_decide (pd_deadline pend ≠ Deadline (st_meta st)) in
  if decide (pd_recordOps pend = [] ∧ metaChanged = false ∧ pd_writerSeq pend = None ∧
             pd_producers pend = None ∧ deadlineChanged = false)
  then (st, inl responses)
  else
    let metaChanged := metaChanged || deadlineChanged in
    (st, inr {| cb_pend := pend; cb_ops := burstOps st pend metaChanged deadlineChanged;
                cb_batch := batch; cb_responses := responses; cb_accepted := accepted;
                cb_metaChanged := metaChanged; cb_seg := burstSeg st baseSeq pend |}).

(** *** Publishing *)

Definition applyWriter st (pend : pendingBurst) (metaChanged : bool) : streamer :=
  let st := set_writeTail (pd_tail pend) st in
  let st := if metaChanged
            then set_meta (meta_with (st_meta st) (pd_closed pend) (pd_deadline pend)) st
            else st in
  let st := set_producers (default ∅ (pd_producers pend) ∪ st_producers st)
              (st_producerLoaded st) st in
  match pd_writerSeq pend with
  | Some w => set_writerSeq w st
  | None => st
  end.

(** The waker is told whenever a reader is parked. *)
Definition applyReader st (tail : Z) (closed : bool) (seg : cacheSeg) : streamer :=
  let cache :=
    (λ c, if decide (0 < totalReaders st)
          then LiveCache.append c (seg_firstSeq seg) (seg_payloads seg)
          else LiveCache.reset c) <$> st_cache st in
  set_reader tail (if closed then true else st_closed st) cache
    (if decide (0 < totalReaders st) then st_wakes st + 1 else st_wakes st) st.

Fixpoint failAccepted (responses : list appendResp) (accepted : list bool) (err : error)
  : list appendResp :=
  match responses, accepted with
  | r :: rs, a :: accs => (if a then resp_error err else r) :: failAccepted rs accs err
  | _, _ => responses
  end.

(** *** The synchronous committer (commit.go: syncCommitter.commit) *)

Definition syncCommit s st (c : commitBurst) : S * streamer * list appendResp :=
  let '(s', err) := store_Commit s (cb_ops c) true in
  match err with
  | Some e => (s', st, failAccepted (cb_responses c) (cb_accepted c) e)
  | None =>
      let st := applyWriter st (cb_pend c) (cb_metaChanged c) in
      let st := applyReader st (pd_tail (cb_pend c))
                  (cb_metaChanged c && pd_closed (cb_pend c)) (cb_seg c) in
      (s', st, cb_responses c)
  end.

Definition processBurst s st (now : Z) (batch : list appendReq)
  : S * streamer * list appendResp :=
  match planBurst s st now batch with
  | (st, inl responses) => (s, st, responses)
  | (st, inr c) => syncCommit s st c
  end.

End streamer_ops.
