(* ===== verification/StreamSpec.v ===== *)
(** * What one append promises: the specification of a stream

    A stream, seen from outside, is a sequence of records with a closure flag, an
    expiry deadline, the state of its producers and its last writer sequence.
    [spec_append] is the effect and the reply of one append on that state, with
    no bursts, caches, batches or keys; StreamerRefine.v proves that the streamer
    implements it. The lemmas here are about the specification; StreamLife.v turns them
    into what a client may rely on of the streamer. *)

From S2P Require Import Prelude.
From S2P Require Import Bytes.
From S2P Require Import Meta.
From S2P Require Import Offset.
From S2P Require Import Producer.
From S2P Require Import Mime.
From S2P Require Import Streamer.

Record astate : Type := mkAState {
  a_base : Z;                              (** first sequence number the stream owns *)
  a_log : list bytes;
  a_closed : bool;
  a_deadline : Z;
  a_producers : gmap bytes producerState;
  a_writerSeq : bytes }.

Definition a_tail (a : astate) : Z := a_base a + len (a_log a).

Definition with_deadline (d : Z) (a : astate) : astate :=
  {| a_base := a_base a; a_log := a_log a; a_closed := a_closed a; a_deadline := d;
     a_producers := a_producers a; a_writerSeq := a_writerSeq a |}.

Section spec.
  (** The stream's fixed configuration. *)
  Context (contentType : bytes) (ttl : Z).

(** What the producer headers of a request decide: the reply of a request that
    must not take effect, or the producers' state if it does. *)
Definition spec_producer (a : astate) (req : appendReq)
  : appendResp + gmap bytes producerState :=
  match rq_producer req with
  | None => inr (a_producers a)
  | Some h =>
      let cur := a_producers a !! ph_id h in
      let act := validateProducer (default producerState0 cur) (bool_decide (is_Some cur)) h in
      match kind act with
      | pStaleEpoch => inl (resp_stale (currentEpoch act))
      | pBadSeqStart => inl (resp_status 400)
      | pGap => inl (resp_gap (expectedSeq act) (receivedSeq act))
      | pDuplicate =>
          inl (resp_tail 204 (a_tail a) (a_closed a)
                 (epoch <$> cur) (lastSeq <$> cur))
      | pAccept =>
          inr (<[ph_id h := {| epoch := epoch (newState act); lastSeq := lastSeq (newState act);
                               closedBy := rq_closeStream req |}]> (a_producers a))
      end
  end.

(** A closed stream takes nothing: a close without data is acknowledged again,
    a retransmission is acknowledged as a duplicate, anything else conflicts. *)
Definition spec_closed (a : astate) (req : appendReq) : appendResp :=
  let conflict := resp_tail 409 (a_tail a) true None None in
  if rq_hasBody req then
    match rq_producer req with
    | None => conflict
    | Some h =>
        let cur := a_producers a !! ph_id h in
        let act := validateProducer (default producerState0 cur) (bool_decide (is_Some cur)) h in
        if decide (kind act = pDuplicate)
        then resp_tail 204 (a_tail a) true (epoch <$> cur) (lastSeq <$> cur)
        else conflict
    end
  else resp_tail 204 (a_tail a) true None None.

(** The effect of an accepted append. *)
Definition spec_accept (now : Z) (a : astate) (req : appendReq)
    (prods : gmap bytes producerState) : astate :=
  {| a_base := a_base a;
     a_log := a_log a ++ rq_records req;
     a_closed := a_closed a || rq_closeStream req;
     a_deadline := slideTTL ttl now (a_deadline a);
     a_producers := prods;
     a_writerSeq := default (a_writerSeq a) (rq_streamSeq req) |}.

Definition spec_ack (a' : astate) (req : appendReq) : appendResp :=
  resp_tail (if decide (is_Some (rq_producer req) ∧ rq_records req ≠ []) then 200 else 204)
    (a_tail a') (a_closed a') (ph_epoch <$> rq_producer req) (ph_seq <$> rq_producer req).

(** [Some] is a request that takes effect. *)
Definition spec_effect (now : Z) (a : astate) (req : appendReq) : appendResp + astate :=
  if a_closed a then inl (spec_closed a req) else
  if rq_hasBody req && negb (contentTypeMatches contentType (rq_contentType req))
  then inl (resp_status 409) else
  match spec_producer a req with
  | inl resp => inl resp
  | inr prods =>
      match rq_streamSeq req with
      | Some w => if decide (bytes_lt (a_writerSeq a) w)
                  then inr (spec_accept now a req prods) else inl (resp_status 409)
      | None => inr (spec_accept now a req prods)
      end
  end.

Definition spec_append (now : Z) (a : astate) (req : appendReq) : astate * appendResp :=
  match spec_effect now a req with
  | inl resp => (a, resp)
  | inr a' => (a', spec_ack a' req)
  end.

Definition takes_effect (now : Z) (a : astate) (req : appendReq) : bool :=
  match spec_effect now a req with inl _ => false | inr _ => true end.

(** A sequence of appends, one at a time. *)
Fixpoint spec_run (now : Z) (a : astate) (reqs : list appendReq) : astate * list appendResp :=
  match reqs with
  | [] => (a, [])
  | req :: rest =>
      let '(a1, resp) := spec_append now a req in
      let '(a2, resps) := spec_run now a1 rest in
      (a2, resp :: resps)
  end.

(** Which of them take effect. *)
Fixpoint spec_accepted (now : Z) (a : astate) (reqs : list appendReq) : list bool :=
  match reqs with
  | [] => []
  | req :: rest => takes_effect now a req :: spec_accepted now (spec_append now a req).1 rest
  end.

(** The records a sequence of requests carries. *)
Definition total_records (reqs : list appendReq) : Z := len (concat (rq_records <$> reqs)).

(** ** Lemmas *)

Lemma total_records_cons req reqs :
  total_records (req :: reqs) = len (rq_records req) + total_records reqs.
Proof. unfold total_records. rewrite fmap_cons. simpl concat. rewrite length_app. lia. Qed.

Lemma total_records_nonneg reqs : 0 ≤ total_records reqs.
Proof. unfold total_records. lia. Qed.

Lemma spec_effect_accept now a req a' :
  spec_effect now a req = inr a' →
  a_closed a = false ∧
  (∃ prods, spec_producer a req = inr prods ∧ a' = spec_accept now a req prods) ∧
  (∀ w, rq_streamSeq req = Some w → bytes_lt (a_writerSeq a) w).
Proof.
  unfold spec_effect. destruct (a_closed a); [done|]. destruct (_ && _); [done|].
  destruct (spec_producer a req) as [|prods] eqn:E; [done|].
  destruct (rq_streamSeq req) as [w|] eqn:Hw; [case_decide; [|done]|]; intros [= <-];
    (split_and!; [done|by eexists|]); intros; by simplify_eq.
Qed.

Lemma spec_append_log now a req a' resp :
  spec_append now a req = (a', resp) →
  a_base a' = a_base a ∧ (a' = a ∨ a_log a' = a_log a ++ rq_records req).
Proof.
  unfold spec_append. destruct (spec_effect now a req) as [r|a1] eqn:E.
  - intros [= <- <-]. auto.
  - intros [= <- <-]. apply spec_effect_accept in E as (_ & (prods & _ & ->) & _). simpl. auto.
Qed.

Lemma spec_append_refused now a req :
  takes_effect now a req = false → (spec_append now a req).1 = a.
Proof. unfold takes_effect, spec_append. by destruct (spec_effect now a req). Qed.

Lemma spec_append_tail now a req :
  a_tail a ≤ a_tail (spec_append now a req).1 ≤ a_tail a + len (rq_records req).
Proof.
  destruct (spec_append now a req) as [a' resp] eqn:E.
  apply spec_append_log in E as [Hb [->|Hl]]; simpl; unfold a_tail; [lia|].
  rewrite Hb, Hl, length_app. lia.
Qed.

Lemma spec_append_keeps_open now a req :
  rq_closeStream req && takes_effect now a req = false →
  a_closed (spec_append now a req).1 = a_closed a.
Proof.
  unfold takes_effect, spec_append. destruct (spec_effect now a req) as [|a'] eqn:E; [done|].
  rewrite andb_true_r. intros Hc. apply spec_effect_accept in E as (_ & (? & _ & ->) & _).
  simpl. rewrite Hc. apply orb_false_r.
Qed.

Lemma spec_run_keeps_open now a reqs :
  closeAccepted reqs (spec_accepted now a reqs) = false →
  a_closed (spec_run now a reqs).1 = a_closed a.
Proof.
  revert a. induction reqs as [|req reqs IH]; intros a; simpl; [done|].
  unfold closeAccepted. simpl. rewrite orb_false_iff. intros [Hc Hr].
  apply spec_append_keeps_open in Hc. apply IH in Hr.
  destruct (spec_append now a req) as [a1 o]. simpl in *.
  destruct (spec_run now a1 reqs). simpl in *. congruence.
Qed.

Lemma spec_run_app now a r1 r2 :
  spec_run now a (r1 ++ r2) =
  let '(a1, o1) := spec_run now a r1 in
  let '(a2, o2) := spec_run now a1 r2 in (a2, o1 ++ o2).
Proof.
  revert a. induction r1 as [|req r1 IH]; intros a; simpl; [by destruct (spec_run now a r2)|].
  destruct (spec_append now a req) as [a1 o]. rewrite IH.
  destruct (spec_run now a1 r1) as [a2 o1]. by destruct (spec_run now a2 r2).
Qed.

Lemma spec_run_base now a reqs : a_base (spec_run now a reqs).1 = a_base a.
Proof.
  revert a. induction reqs as [|req reqs IH]; intros a; simpl; [done|].
  destruct (spec_append now a req) as [a1 o] eqn:E. apply spec_append_log in E as [Hb _].
  specialize (IH a1). destruct (spec_run now a1 reqs). simpl in *. by rewrite IH.
Qed.

Lemma spec_append_closed now a req a' resp :
  a_closed a = true → spec_append now a req = (a', resp) → a' = a ∧ resp = spec_closed a req.
Proof.
  intros Hc. unfold spec_append, spec_effect. rewrite Hc. by intros [= <- <-].
Qed.

(** Records are only ever added at the end. *)
Lemma spec_run_log_prefix now a reqs :
  a_log a `prefix_of` a_log (spec_run now a reqs).1.
Proof.
  revert a. induction reqs as [|req reqs IH]; intros a; simpl; [done|].
  destruct (spec_append now a req) as [a1 o] eqn:E. specialize (IH a1).
  destruct (spec_run now a1 reqs) as [a2 os]. simpl in *.
  apply spec_append_log in E as [_ [->|Hl]]; [done|].
  etrans; [|exact IH]. rewrite Hl. by apply prefix_app_r.
Qed.

(** A closed stream never changes again. *)
Lemma spec_run_closed now a reqs : a_closed a = true → (spec_run now a reqs).1 = a.
Proof.
  intros Hc. induction reqs as [|req reqs IH]; simpl; [done|].
  destruct (spec_append now a req) as [a1 o] eqn:E.
  apply spec_append_closed in E as [-> _]; [|done].
  by destruct (spec_run now a reqs) as [a2 os].
Qed.

Lemma spec_producer_wf a req prods :
  map_Forall (λ _, wf_producerState) (a_producers a) →
  from_option wf_headers True (rq_producer req) →
  spec_producer a req = inr prods → map_Forall (λ _, wf_producerState) prods.
Proof.
  unfold spec_producer. intros Ha Hh. destruct (rq_producer req) as [h|]; [|by intros [= <-]].
  destruct (a_producers a !! ph_id h) as [ps|] eqn:Hps; simpl in Hh |- *.
  - pose proof (validateProducer_existing ps h (Ha _ _ Hps) Hh) as Hv. simpl in Hv.
    destruct (kind _); try done. intros [= <-]. destruct Hv as [_ Hn]. rewrite Hn.
    apply map_Forall_insert_2; done.
  - pose proof (validateProducer_fresh producerState0 h) as Hv. simpl in Hv.
    case_decide as Hz; destruct Hv as [Hk Hn]; rewrite Hk; [|done].
    intros [= <-]. rewrite Hn. apply map_Forall_insert_2; [|done]. destruct Hh. done.
Qed.

(** *** Expiry *)

Lemma ttl_granularity_bounds t : 1 ≤ ttl_granularity t ≤ 600.
Proof. unfold ttl_granularity. repeat case_decide; lia. Qed.

(** Within range, a slide moves the deadline to at least a full window from now,
    and at most a granule further; otherwise it leaves it alone. *)
Lemma slideTTL_cases t now d :
  0 < t → 0 ≤ now → now + t + 600 < 2^64 →
  (slideTTL t now d = d ∧ now + t < d) ∨
  (slideTTL t now d = now + t + ttl_granularity t ∧ d ≤ now + t).
Proof.
  intros Ht Hn Hb. pose proof (ttl_granularity_bounds t). unfold slideTTL.
  rewrite decide_False, (u64_small now), !u64_small by (unfold is_u64; lia).
  case_decide; [left|right]; split; lia.
Qed.

Lemma slideTTL_no_ttl now d : slideTTL 0 now d = d.
Proof. done. Qed.

Definition ttl_in_range (now : Z) : Prop := 0 ≤ ttl ∧ 0 ≤ now ∧ now + ttl + 600 < 2^64.

(** A slide never brings the deadline nearer, and never takes one away. *)
Lemma slideTTL_bounds now d :
  ttl_in_range now → is_u64 d →
  is_u64 (slideTTL ttl now d) ∧ (slideTTL ttl now d ≠ d → 0 < slideTTL ttl now d) ∧ d ≤ slideTTL ttl now d.
Proof.
  intros (Ht & Hn & Hb) Hd.
  destruct (decide (ttl = 0)) as [->|]; [rewrite slideTTL_no_ttl; split_and!; lia || done|].
  pose proof (ttl_granularity_bounds ttl).
  destruct (slideTTL_cases ttl now d) as [[-> ?]|[-> ?]]; unfold is_u64 in *; lia.
Qed.

Lemma spec_append_deadline now a req :
  ttl_in_range now → is_u64 (a_deadline a) →
  let d := a_deadline (spec_append now a req).1 in
  is_u64 d ∧ (d ≠ a_deadline a → 0 < d) ∧ a_deadline a ≤ d.
Proof.
  intros Ht Ha. unfold spec_append.
  destruct (spec_effect now a req) as [|a'] eqn:E; simpl; [split_and!; lia || done|].
  apply spec_effect_accept in E as (_ & (prods & _ & ->) & _). by apply slideTTL_bounds.
Qed.

Lemma spec_run_deadline now a reqs :
  ttl_in_range now → is_u64 (a_deadline a) →
  let d := a_deadline (spec_run now a reqs).1 in
  is_u64 d ∧ (d ≠ a_deadline a → 0 < d) ∧ a_deadline a ≤ d.
Proof.
  intros Ht. revert a. induction reqs as [|req reqs IH]; intros a Ha; simpl;
    [split_and!; lia || done|].
  pose proof (spec_append_deadline now a req Ht Ha) as (? & ? & ?).
  destruct (spec_append now a req) as [a1 o]. simpl in *.
  destruct (IH a1) as (? & ? & ?); [done|]. destruct (spec_run now a1 reqs). simpl in *.
  unfold is_u64 in *. split_and!; lia.
Qed.

Lemma spec_run_tail now a reqs :
  a_tail a ≤ a_tail (spec_run now a reqs).1 ≤ a_tail a + total_records reqs.
Proof.
  revert a. induction reqs as [|req reqs IH]; intros a; [simpl; pose proof (total_records_nonneg []); lia|].
  rewrite total_records_cons. simpl. pose proof (spec_append_tail now a req).
  destruct (spec_append now a req) as [a1 o]. specialize (IH a1). simpl in *.
  destruct (spec_run now a1 reqs). simpl in *. lia.
Qed.

(** A retransmission of an append that took effect finds its own state. *)
Lemma spec_retry now now' a req h a' :
  map_Forall (λ _, wf_producerState) (a_producers a) →
  rq_producer req = Some h → wf_headers h → rq_hasBody req = true →
  spec_effect now a req = inr a' →
  spec_append now' a' req =
    (a', resp_tail 204 (a_tail a') (a_closed a') (Some (ph_epoch h)) (Some (ph_seq h))).
Proof.
  intros Hwf Hh Hwh Hb Heff.
  assert (contentTypeMatches contentType (rq_contentType req) = true) as Hct.
  { revert Heff. unfold spec_effect. rewrite Hb. destruct (a_closed a); [done|].
    by destruct (contentTypeMatches _ _). }
  apply spec_effect_accept in Heff as (Hc & (prods & Hp & ->) & _).
  unfold spec_producer in Hp. rewrite Hh in Hp.
  set (cur := a_producers a !! ph_id h) in *.
  destruct (kind (validateProducer (default producerState0 cur) (bool_decide (is_Some cur)) h))
    eqn:Hk; try done. simplify_eq.
  assert (Hcur : wf_producerState (default producerState0 cur)).
  { destruct cur as [ps|] eqn:E; [by eapply Hwf|split; unfold is_u64; simpl; lia]. }
  pose proof (validateProducer_retry _ _ _ Hcur Hwh Hk) as Hretry.
  assert (Hn : newState (validateProducer (default producerState0 cur) (bool_decide (is_Some cur)) h)
    = {| epoch := ph_epoch h; lastSeq := ph_seq h; closedBy := false |}).
  { pose proof (producer_step_Some cur h) as Hs. unfold producer_step in Hs. rewrite Hk in Hs.
    edestruct Hs as [Heq _]; [done|by destruct cur|done|]. by injection Heq. }
  rewrite Hn in Hretry |- *. simpl epoch. simpl lastSeq.
  assert (Hdup : kind (validateProducer {| epoch := ph_epoch h; lastSeq := ph_seq h;
    closedBy := rq_closeStream req |} true h) = pDuplicate) by exact Hretry.
  unfold spec_append, spec_effect. destruct (a_closed (spec_accept now a req _)) eqn:Hcl.
  - unfold spec_closed. rewrite Hb, Hh. simpl a_producers. rewrite lookup_insert_eq. simpl.
    rewrite Hdup. by rewrite decide_True.
  - rewrite Hb, Hct. simpl andb. unfold spec_producer. rewrite Hh. simpl a_producers.
    rewrite lookup_insert_eq. simpl default. rewrite bool_decide_true by done.
    rewrite Hdup. by rewrite Hcl.
Qed.

(** *** Exactly once *)

Definition wf_req (req : appendReq) : Prop := from_option wf_headers True (rq_producer req).

(** The producer has reached (or passed) the position [(e, q)]. *)
Definition reached (a : astate) (pid : bytes) (e q : Z) : Prop :=
  ∃ ps, a_producers a !! pid = Some ps ∧ (e < epoch ps ∨ (e = epoch ps ∧ q ≤ lastSeq ps)).

Lemma spec_append_wf now a req :
  map_Forall (λ _, wf_producerState) (a_producers a) → wf_req req →
  map_Forall (λ _, wf_producerState) (a_producers (spec_append now a req).1).
Proof.
  intros Ha Hr. unfold spec_append. destruct (spec_effect now a req) as [r|a'] eqn:E; [done|].
  apply spec_effect_accept in E as (_ & (prods & Hp & ->) & _). simpl.
  by eapply spec_producer_wf.
Qed.

Lemma spec_append_reached now a req pid e q :
  map_Forall (λ _, wf_producerState) (a_producers a) → wf_req req →
  reached a pid e q → reached (spec_append now a req).1 pid e q.
Proof.
  intros Ha Hr (ps & Hps & Hpos). unfold spec_append.
  destruct (spec_effect now a req) as [r|a'] eqn:E; [by exists ps|].
  apply spec_effect_accept in E as (_ & (prods & Hp & ->) & _). simpl.
  unfold spec_producer in Hp. unfold wf_req in Hr.
  destruct (rq_producer req) as [h|]; [|simplify_eq; by exists ps].
  destruct (kind _) eqn:Hk; try done. simplify_eq. unfold reached. simpl.
  destruct (decide (pid = ph_id h)) as [->|Hne].
  - rewrite Hps in *. simpl in *. rewrite lookup_insert_eq. eexists. split; [done|].
    pose proof (validateProducer_existing ps h (Ha _ _ Hps) Hr) as Hv.
    simpl in Hv. rewrite Hk in Hv. destruct Hv as [Hf Hn]. rewrite Hn. simpl.
    unfold follows in Hf. simpl in Hf. lia.
  - rewrite lookup_insert_ne by done. by exists ps.
Qed.

Lemma spec_run_reached now a reqs pid e q :
  map_Forall (λ _, wf_producerState) (a_producers a) → Forall wf_req reqs →
  reached a pid e q →
  reached (spec_run now a reqs).1 pid e q ∧
  map_Forall (λ _, wf_producerState) (a_producers (spec_run now a reqs).1).
Proof.
  intros Ha Hr. revert a Ha. induction Hr as [|req reqs Hreq Hr IH]; intros a Ha Hreach; [done|].
  simpl. pose proof (spec_append_wf now a req Ha Hreq).
  pose proof (spec_append_reached now a req pid e q Ha Hreq Hreach).
  destruct (spec_append now a req) as [a1 o]. destruct (IH a1) as [??]; [done..|].
  by destruct (spec_run now a1 reqs).
Qed.

Lemma spec_run_wf now a reqs :
  map_Forall (λ _, wf_producerState) (a_producers a) → Forall wf_req reqs →
  map_Forall (λ _, wf_producerState) (a_producers (spec_run now a reqs).1).
Proof.
  intros Ha Hr. revert a Ha. induction Hr as [|req reqs Hreq Hr IH]; intros a Ha; [done|].
  simpl. pose proof (spec_append_wf now a req Ha Hreq) as Ha1.
  destruct (spec_append now a req) as [a1 o]. specialize (IH a1 Ha1).
  by destruct (spec_run now a1 reqs).
Qed.

(** An accepted request puts its producer at the request's position. *)
Lemma spec_effect_reached now a req h a' :
  map_Forall (λ _, wf_producerState) (a_producers a) →
  rq_producer req = Some h → wf_headers h → spec_effect now a req = inr a' →
  reached a' (ph_id h) (ph_epoch h) (ph_seq h).
Proof.
  intros Ha Hh Hwh Heff. apply spec_effect_accept in Heff as (_ & (prods & Hp & ->) & _).
  unfold spec_producer in Hp. rewrite Hh in Hp.
  set (cur := a_producers a !! ph_id h) in *.
  destruct (kind (validateProducer (default producerState0 cur) (bool_decide (is_Some cur)) h))
    eqn:Hk; try done. simplify_eq. unfold reached. simpl. rewrite lookup_insert_eq.
  pose proof (producer_step_Some cur h) as Hs. unfold producer_step in Hs. rewrite Hk in Hs.
  edestruct Hs as [Heq _]; [done| |done|].
  { destruct cur eqn:E; [by eapply Ha|done]. }
  injection Heq as ->. eexists. split; [done|]. simpl. lia.
Qed.

(** Once reached, a position is never accepted again. *)
Lemma reached_refused now a req h :
  map_Forall (λ _, wf_producerState) (a_producers a) →
  rq_producer req = Some h → wf_headers h →
  reached a (ph_id h) (ph_epoch h) (ph_seq h) → ∃ resp, spec_effect now a req = inl resp.
Proof.
  intros Ha Hh Hwh (ps & Hps & Hpos). destruct (spec_effect now a req) as [r|a'] eqn:E; [by eexists|].
  exfalso. apply spec_effect_accept in E as (_ & (prods & Hp & _) & _).
  unfold spec_producer in Hp. rewrite Hh, Hps in Hp.
  rewrite bool_decide_true in Hp by done. simpl in Hp.
  pose proof (validateProducer_existing ps h (Ha _ _ Hps) Hwh) as Hv. simpl in Hv.
  destruct (kind _); try done. destruct Hv as [Hf _]. unfold follows in Hf. simpl in Hf. lia.
Qed.

(** An accepted request is past every position its producer has reached. *)
Lemma accepted_passes now a req h a' e q :
  map_Forall (λ _, wf_producerState) (a_producers a) →
  rq_producer req = Some h → wf_headers h → spec_effect now a req = inr a' →
  reached a (ph_id h) e q → e < ph_epoch h ∨ (e = ph_epoch h ∧ q < ph_seq h).
Proof.
  intros Ha Hh Hwh Heff (ps & Hps & Hpos).
  apply spec_effect_accept in Heff as (_ & (prods & Hp & _) & _).
  unfold spec_producer in Hp. rewrite Hh, Hps in Hp.
  rewrite bool_decide_true in Hp by done. simpl in Hp.
  pose proof (validateProducer_existing ps h (Ha _ _ Hps) Hwh) as Hv. simpl in Hv.
  destruct (kind _); try done. destruct Hv as [Hf _]. unfold follows in Hf. simpl in Hf. lia.
Qed.

(** A closed stream answers 204 or 409. *)
Lemma spec_closed_status a req : rs_status (spec_closed a req) ∈ [204; 409].
Proof. unfold spec_closed. repeat case_match; set_solver. Qed.

End spec.
