(* ===== verification/StreamerRefine.v ===== *)
(** * The streamer implements the specification

    [stream_rep] says the store holds a stream in an abstract state, [mem_rep]
    that a streamer's memory agrees with it, [published] that its reader-visible
    state does. A burst through the synchronous committer has the effect and the
    replies of its appends one at a time, or, when the write fails, no effect on
    the streamer and an error for exactly the appends that would have taken
    effect. *)

From S2P Require Import Prelude.
From S2P Require Import Bytes.
From S2P Require Import Keys.
From S2P Require Import Meta.
From S2P Require Import Offset.
From S2P Require Import Producer.
From S2P Require Import Storage.
From S2P Require Import Loads.
From S2P Require Import Batch.
From S2P Require Import Mime.
From S2P Require Import Read.
From S2P Require Import LiveCache.
From S2P Require Import Streamer.
From S2P Require Import StreamSpec.

(** ** Representation *)

(** The store [m] holds the stream at [path], configured by [sm], in state [a]. *)
Record stream_rep (m : gmap bytes bytes) (path : bytes) (sm : StreamMeta) (a : astate) : Prop := {
  sr_meta : stored_meta m path (meta_with sm (a_closed a) (a_deadline a));
  sr_tail : stored_tail m (StreamID sm) (a_tail a);
  sr_records : ∀ i r, a_log a !! i = Some r → stored_record m (StreamID sm) (a_base a + Z.of_nat i) r;
  sr_producers : ∀ pid, m !! producerKey (StreamID sm) pid = marshalProducer <$> a_producers a !! pid;
  sr_writerSeq : default [] (m !! writerSeqKey (StreamID sm)) = a_writerSeq a;
  sr_expiry : ∀ d, is_u64 d →
    (is_Some (m !! expiryKey d (StreamID sm)) ↔ d = a_deadline a ∧ 0 < d) }.

(** The state is within the ranges of the program's integers. *)
Record astate_wf (a : astate) : Prop := {
  aw_base : 0 ≤ a_base a;
  aw_deadline : is_u64 (a_deadline a);
  aw_producers : map_Forall (λ _, wf_producerState) (a_producers a) }.

(** What the streamer has cached of the durable state. *)
Record caches_rep (st : streamer) (a : astate) : Prop := {
  cr_loaded : ∀ pid, pid ∈ st_producerLoaded st → st_producers st !! pid = a_producers a !! pid;
  cr_unloaded : ∀ pid, pid ∉ st_producerLoaded st → st_producers st !! pid = None;
  cr_writerSeq : st_writerSeq st = if st_writerSeqLoaded st then a_writerSeq a else [] }.

(** The goroutine-owned state agrees with [a]. *)
Record mem_rep (st : streamer) (path : bytes) (sm : StreamMeta) (a : astate) : Prop := {
  mr_path : st_path st = path;
  mr_id : st_id st = StreamID sm;
  mr_meta : st_meta st = meta_with sm (a_closed a) (a_deadline a);
  mr_writeTail : st_writeTail st = a_tail a;
  mr_caches : caches_rep st a }.

(** The stream's content by sequence number. *)
Definition content (a : astate) (i : Z) : bytes :=
  default [] (a_log a !! Z.to_nat (i - a_base a)).

(** Readers see [a]: the tail, the closure flag and the cached records. *)
Record published (st : streamer) (a : astate) : Prop := {
  pb_tail : st_tail st = a_tail a;
  pb_closed : st_closed st = a_closed a;
  pb_cache : ∀ c, st_cache st = Some c →
    ∃ lo hi, cache_holds (content a) c lo hi ∧ a_base a ≤ lo ∧ hi ≤ a_tail a }.

(** The pending view [pend], over the state [a0] the burst started from, is [a]. *)
Record pend_rep (sm : StreamMeta) (st : streamer) (a0 : astate) (pend : pendingBurst) (a : astate)
  : Prop := {
  pr_base : a_base a = a_base a0;
  pr_log : ∃ rs, a_log a = a_log a0 ++ rs ∧
    pd_recordOps pend =
      encode_batch (record_batch (StreamID sm) (a_tail a0) (marshalRecord recFlagNone) rs);
  pr_tail : pd_tail pend = a_tail a;
  pr_closed : pd_closed pend = a_closed a;
  pr_deadline : pd_deadline pend = a_deadline a;
  pr_producers : a_producers a = default ∅ (pd_producers pend) ∪ a_producers a0;
  pr_loaded : ∀ pid, is_Some (default ∅ (pd_producers pend) !! pid) → pid ∈ st_producerLoaded st;
  pr_writerSeq : a_writerSeq a = default (a_writerSeq a0) (pd_writerSeq pend) }.

Definition reads_ok {S} `{Storage S} (s : S) : Prop := ∀ k, ∃ v, store_Get s k = Ok v.

(** ** Lemmas *)

(** Loading state into the caches touches nothing else. *)
Record loads_only (st st' : streamer) : Prop := {
  lo_path : st_path st' = st_path st;
  lo_id : st_id st' = st_id st;
  lo_meta : st_meta st' = st_meta st;
  lo_writeTail : st_writeTail st' = st_writeTail st;
  lo_pending : st_pending st' = st_pending st;
  lo_tail : st_tail st' = st_tail st;
  lo_closed : st_closed st' = st_closed st;
  lo_cache : st_cache st' = st_cache st;
  lo_readers : totalReaders st' = totalReaders st;
  lo_loaded : st_producerLoaded st ⊆ st_producerLoaded st' }.

#[global] Instance loads_only_preorder : PreOrder loads_only.
Proof.
  split; [by intros st; split|].
  intros x y z [] []. split; try congruence. set_solver.
Qed.

Section refine.
  Context {S : Type} `{StorageLaws S}.
  Context (path : bytes) (sm : StreamMeta).
  Implicit Types (s : S) (st : streamer) (a : astate).
  Local Abbreviation id := (StreamID sm).
  Hypothesis Hid : is_u64 (StreamID sm).

Lemma reads_ok_get s k : reads_ok s → store_Get s k = Ok (view s !! k).
Proof. intros Hr. destruct (Hr k) as [v E]. by rewrite E, (Get_view _ _ _ E). Qed.

(** *** Loads from the store agree with the abstract state *)

Lemma loadProducer_rep s st a pid :
  reads_ok s → stream_rep (view s) path sm a → astate_wf a → st_id st = id → caches_rep st a →
  ∃ st', loadProducer s st pid = (st', a_producers a !! pid) ∧ caches_rep st' a ∧
    pid ∈ st_producerLoaded st' ∧ loads_only st st'.
Proof.
  intros Hr Hrep Hwf Hid' [Hl Hu Hw]. unfold loadProducer.
  case_decide as Hin.
  { exists st. split_and!; [by rewrite Hl|by split|done|done]. }
  rewrite reads_ok_get, Hid', (sr_producers _ _ _ _ Hrep) by done.
  destruct (a_producers a !! pid) as [ps|] eqn:Hps; simpl.
  - rewrite unmarshalProducer_marshalProducer by by eapply (aw_producers _ Hwf).
    eexists. split; [done|]. split_and!; [|simpl; set_solver|by split; simpl; try set_solver].
    split; simpl; [|..].
    + intros q Hq. destruct (decide (q = pid)) as [->|]; [by rewrite lookup_insert_eq|].
      rewrite lookup_insert_ne by done. apply Hl. set_solver.
    + intros q Hq. rewrite lookup_insert_ne by set_solver. apply Hu. set_solver.
    + done.
  - eexists. split; [done|]. split_and!; [|simpl; set_solver|by split; simpl; try set_solver].
    split; simpl; [|..|done].
    + intros q Hq. destruct (decide (q = pid)) as [->|]; [by rewrite Hu, Hps|].
      apply Hl. set_solver.
    + intros q Hq. apply Hu. set_solver.
Qed.

Lemma loadWriterSeq_rep s st a :
  reads_ok s → stream_rep (view s) path sm a → st_id st = id → caches_rep st a →
  ∃ st', loadWriterSeq s st = (st', a_writerSeq a) ∧ caches_rep st' a ∧ loads_only st st'.
Proof.
  intros Hr Hrep Hid' [Hl Hu Hw]. unfold loadWriterSeq.
  destruct (st_writerSeqLoaded st) eqn:Hloaded.
  { exists st. split_and!; [by rewrite Hw|split; [done..|by rewrite Hloaded]|done]. }
  rewrite reads_ok_get, Hid' by done. pose proof (sr_writerSeq _ _ _ _ Hrep) as Hws.
  eexists. destruct (view s !! _); simpl in Hws; subst.
  - split_and!; [done|by split|by split].
  - rewrite Hw, Hws. split_and!; [done|by split|by split].
Qed.

(** *** Effective state within a burst *)

Lemma pend_rep_loads st st' a0 pend a :
  loads_only st st' → pend_rep sm st a0 pend a → pend_rep sm st' a0 pend a.
Proof. intros Hlo []. split; try done. intros pid Hp. apply (lo_loaded _ _ Hlo). auto. Qed.

Lemma effProducer_rep s st a0 pend a pid :
  reads_ok s → stream_rep (view s) path sm a0 → astate_wf a0 → st_id st = id →
  caches_rep st a0 → pend_rep sm st a0 pend a →
  ∃ st', effProducer s st pend pid = (st', a_producers a !! pid) ∧ caches_rep st' a0 ∧
    pid ∈ st_producerLoaded st' ∧ loads_only st st'.
Proof.
  intros Hr Hrep Hwf Hid' Hc Hp. unfold effProducer.
  rewrite (pr_producers _ _ _ _ _ Hp). pose proof (pr_loaded _ _ _ _ _ Hp pid) as Hl.
  replace (pd_producers pend ≫= (.!! pid)) with (default ∅ (pd_producers pend) !! pid)
    by (destruct (pd_producers pend); [done|apply lookup_empty]).
  destruct (default ∅ (pd_producers pend) !! pid) as [ps|] eqn:Hps.
  - exists st. erewrite lookup_union_Some_l by done. split_and!; [done..|auto|done].
  - rewrite lookup_union_r by done. by apply loadProducer_rep.
Qed.

Lemma effWriterSeq_rep s st a0 pend a :
  reads_ok s → stream_rep (view s) path sm a0 → st_id st = id →
  caches_rep st a0 → pend_rep sm st a0 pend a →
  ∃ st', effWriterSeq s st pend = (st', a_writerSeq a) ∧ caches_rep st' a0 ∧ loads_only st st'.
Proof.
  intros Hr Hrep Hid' Hc Hp. unfold effWriterSeq. rewrite (pr_writerSeq _ _ _ _ _ Hp).
  destruct (pd_writerSeq pend) as [w|]; simpl; [by exists st|]. by apply loadWriterSeq_rep.
Qed.

(** *** Planning one append *)

Lemma recordOps_batch sid t i rs :
  0 ≤ t + i → t + i + len rs ≤ 2^64 →
  recordOps sid t i rs = encode_batch (record_batch sid (t + i) (marshalRecord recFlagNone) rs).
Proof.
  revert i. induction rs as [|r rs IH]; intros i Hi Hl; simpl in *; [done|].
  rewrite u64_small by (unfold is_u64; lia). rewrite IH by lia.
  by rewrite Z.add_assoc.
Qed.

Lemma planAppendClosed_rep s st a0 pend a req :
  reads_ok s → stream_rep (view s) path sm a0 → astate_wf a0 → st_id st = id →
  caches_rep st a0 → pend_rep sm st a0 pend a →
  ∃ st', planAppendClosed s st pend req = (st', pend, spec_closed a req, false) ∧
    caches_rep st' a0 ∧ loads_only st st'.
Proof.
  intros Hr Hrep Hwf Hid' Hc Hp. unfold planAppendClosed, spec_closed.
  rewrite (pr_tail _ _ _ _ _ Hp). destruct (rq_hasBody req); simpl; [|by exists st].
  destruct (rq_producer req) as [h|]; [|by exists st].
  destruct (effProducer_rep s st a0 pend a (ph_id h)) as (st' & -> & ? & _ & ?); [done..|].
  exists st'. destruct (a_producers a !! ph_id h) as [ps|]; simpl;
    destruct (kind _) eqn:E; try rewrite (decide_True (P := _ = pDuplicate)) by done;
    try rewrite (decide_False (P := _ = pDuplicate)) by congruence; try done.
  exfalso. pose proof (validateProducer_fresh producerState0 h) as Hv. simpl in Hv.
  case_decide; destruct Hv; congruence.
Qed.

Lemma planProducer_rep s st a0 pend a req :
  reads_ok s → stream_rep (view s) path sm a0 → astate_wf a0 → st_id st = id →
  caches_rep st a0 → pend_rep sm st a0 pend a →
  ∃ st' v, planProducer s st pend req = (st', v) ∧ caches_rep st' a0 ∧ loads_only st st' ∧
    match v with
    | inl resp => spec_producer a req = inl resp
    | inr np => spec_producer a req = inr
        match np, rq_producer req with
        | Some ps, Some h => <[ph_id h := ps]> (a_producers a)
        | _, _ => a_producers a
        end ∧ (is_Some np ↔ is_Some (rq_producer req)) ∧
        ∀ h, rq_producer req = Some h → ph_id h ∈ st_producerLoaded st'
    end.
Proof.
  intros Hr Hrep Hwf Hid' Hc Hp. unfold planProducer, spec_producer.
  destruct (rq_producer req) as [h|]; [|by exists st, (inr None)].
  destruct (effProducer_rep s st a0 pend a (ph_id h)) as (st' & -> & ? & ? & ?); [done..|].
  eexists st', _. split; [done|]. split; [done|]. split; [done|].
  destruct (kind (validateProducer _ _ h)) eqn:E; try done.
  - split_and!; [done|done|]. by intros ? [= <-].
  - rewrite (pr_tail _ _ _ _ _ Hp), (pr_closed _ _ _ _ _ Hp).
    destruct (a_producers a !! ph_id h) as [ps|]; [done|].
    exfalso. pose proof (validateProducer_fresh producerState0 h) as Hv. simpl in *.
    case_decide; destruct Hv; congruence.
Qed.

Lemma seq_check_rep s st a0 pend a req :
  reads_ok s → stream_rep (view s) path sm a0 → st_id st = id →
  caches_rep st a0 → pend_rep sm st a0 pend a →
  ∃ st',
    match rq_streamSeq req with
    | None => (st, true)
    | Some w => let '(st, cur) := effWriterSeq s st pend in (st, negb (bool_decide (bytes_le w cur)))
    end = (st', match rq_streamSeq req with
                | None => true | Some w => bool_decide (bytes_lt (a_writerSeq a) w) end) ∧
    caches_rep st' a0 ∧ loads_only st st'.
Proof.
  intros Hr Hrep Hid' Hc Hp. destruct (rq_streamSeq req) as [w|]; [|by exists st].
  destruct (effWriterSeq_rep s st a0 pend a) as (st' & -> & ? & ?); [done..|].
  exists st'. split; [|done]. f_equal. case_bool_decide as Hle; case_bool_decide as Hlt; try done.
  - by apply bytes_le_not_lt in Hle.
  - by rewrite bytes_le_not_lt in Hle.
Qed.

Lemma acceptAppend_rep st now a0 pend a req newProd prods :
  st_id st = id → st_meta st = meta_with sm (a_closed a0) (a_deadline a0) →
  0 ≤ a_base a0 → a_tail a + len (rq_records req) < 2^64 → pd_now pend = now →
  pend_rep sm st a0 pend a →
  prods = match newProd, rq_producer req with
          | Some ps, Some h => <[ph_id h := ps]> (a_producers a)
          | _, _ => a_producers a
          end →
  (∀ h, rq_producer req = Some h → ph_id h ∈ st_producerLoaded st) →
  ∃ pend', acceptAppend st pend req newProd =
    (pend', spec_ack (spec_accept (TTLSeconds sm) now a req prods) req) ∧
    pend_rep sm st a0 pend' (spec_accept (TTLSeconds sm) now a req prods) ∧
    pd_now pend' = now.
Proof.
  intros Hid' Hm Hb Hbound Hnow [Hbase (rs & Hlog & Hops) Htail Hcl Hdl Hpr Hld Hws] Hprods Hloaded.
  assert (Ht : u64 (pd_tail pend + len (rq_records req)) = a_tail a + len (rq_records req)).
  { rewrite Htail. apply u64_small. unfold is_u64, a_tail in *. lia. }
  assert (Hcl' : (if rq_closeStream req then true else pd_closed pend)
                 = a_closed a || rq_closeStream req)
    by (rewrite Hcl; by destruct (rq_closeStream req), (a_closed a)).
  assert (Htail' : a_tail (spec_accept (TTLSeconds sm) now a req prods)
                   = a_tail a + len (rq_records req))
    by (unfold a_tail; simpl; rewrite length_app; lia).
  unfold acceptAppend, spec_ack. rewrite Ht, Htail'.
  eexists. split; [f_equal|split; [|done]].
  { simpl. rewrite Hcl'. f_equal. repeat case_decide; try done.
    - exfalso. destruct (rq_records req); simpl in *; [lia|naive_solver].
    - exfalso. destruct (rq_records req); simpl in *; [naive_solver|]. naive_solver lia. }
  split; simpl; [done| |by rewrite Htail'|done|by rewrite Hm, Hdl, Hnow| | |].
  - exists (rs ++ rq_records req). split; [by rewrite Hlog, app_assoc|].
    rewrite Hops, record_batch_app, encode_batch_app, Hid', Htail. f_equal.
    assert (a_tail a = a_tail a0 + len rs) as Heq
      by (unfold a_tail; rewrite Hbase, Hlog, length_app; lia).
    rewrite recordOps_batch by (unfold a_tail in *; lia). by rewrite Heq, Z.add_0_r.
  - subst prods. destruct newProd as [ps|], (rq_producer req) as [h|]; simpl; try done.
    by rewrite Hpr, insert_union_l.
  - intros pid. destruct newProd as [ps|], (rq_producer req) as [h|]; simpl; try apply Hld.
    intros [? [[<- _]|[_ ?]]%lookup_insert_Some]; [by apply Hloaded|apply Hld; by eexists].
  - rewrite Hws. by destruct (rq_streamSeq req).
Qed.

Lemma planAppend_rep s st now a0 pend a req :
  reads_ok s → stream_rep (view s) path sm a0 → astate_wf a0 → st_id st = id →
  st_meta st = meta_with sm (a_closed a0) (a_deadline a0) →
  caches_rep st a0 → pend_rep sm st a0 pend a → pd_now pend = now →
  a_tail a + len (rq_records req) < 2^64 →
  ∃ st' pend' acc,
    planAppend s st pend req =
      (st', pend', (spec_append (ContentType sm) (TTLSeconds sm) now a req).2, acc) ∧
    caches_rep st' a0 ∧ loads_only st st' ∧
    pend_rep sm st' a0 pend' (spec_append (ContentType sm) (TTLSeconds sm) now a req).1 ∧
    pd_now pend' = now ∧
    acc = takes_effect (ContentType sm) (TTLSeconds sm) now a req.
Proof.
  intros Hr Hrep Hwf Hid' Hm Hc Hp Hnow Hbound.
  unfold planAppend, takes_effect, spec_append, spec_effect. rewrite (pr_closed _ _ _ _ _ Hp).
  destruct (a_closed a).
  { destruct (planAppendClosed_rep s st a0 pend a req) as (st' & -> & ? & ?); [done..|].
    exists st', pend, false. split_and!; try done. by eapply pend_rep_loads. }
  rewrite Hm. simpl ContentType. destruct (rq_hasBody req && _).
  { exists st, pend, false. by split_and!. }
  destruct (planProducer_rep s st a0 pend a req) as (st1 & v & -> & Hc1 & Hlo1 & Hv); [done..|].
  pose proof (pend_rep_loads _ _ _ _ _ Hlo1 Hp) as Hp1.
  destruct v as [resp|np]; [rewrite Hv; by exists st1, pend, false|].
  destruct Hv as (-> & Hnp & Hloaded).
  destruct (seq_check_rep s st1 a0 pend a req) as (st2 & -> & Hc2 & Hlo2);
    [done|done|by rewrite (lo_id _ _ Hlo1)|done|done|].
  pose proof (pend_rep_loads _ _ _ _ _ Hlo2 Hp1) as Hp2.
  assert (Hlo : loads_only st st2) by by etrans.
  destruct (acceptAppend_rep st2 now a0 pend a req np _ ltac:(by rewrite (lo_id _ _ Hlo))
    ltac:(by rewrite (lo_meta _ _ Hlo)) (aw_base _ Hwf) Hbound Hnow Hp2 eq_refl) as
    (pend' & Hacc & Hp' & Hnow').
  { intros h Hh. apply (lo_loaded _ _ Hlo2). auto. }
  rewrite Hacc.
  destruct (rq_streamSeq req) as [w|]; [case_bool_decide; [rewrite decide_True by done|
    rewrite decide_False by done; exists st2, pend, false; by split_and!]|];
    (exists st2, pend', true; by split_and!).
Qed.

(** *** Planning a burst *)

Local Abbreviation run := (spec_run (ContentType sm) (TTLSeconds sm)).
Local Abbreviation accepts := (spec_accepted (ContentType sm) (TTLSeconds sm)).

Lemma planAll_rep s now a0 batch : ∀ st pend a,
  reads_ok s → stream_rep (view s) path sm a0 → astate_wf a0 → st_id st = id →
  st_meta st = meta_with sm (a_closed a0) (a_deadline a0) →
  caches_rep st a0 → pend_rep sm st a0 pend a → pd_now pend = now →
  a_tail a + total_records batch < 2^64 →
  ∃ st' pend',
    planAll s st pend batch = (st', pend', (run now a batch).2, accepts now a batch) ∧
    caches_rep st' a0 ∧ loads_only st st' ∧ pend_rep sm st' a0 pend' (run now a batch).1 ∧
    pd_now pend' = now.
Proof.
  induction batch as [|req batch IH]; intros st pend a Hr Hrep Hwf Hid' Hm Hc Hp Hnow Hbound.
  { by exists st, pend. }
  rewrite total_records_cons in Hbound. pose proof (total_records_nonneg batch).
  destruct (planAppend_rep s st now a0 pend a req)
    as (st1 & pend1 & acc & Heq & Hc1 & Hlo1 & Hp1 & Hnow1 & ->); [done..|lia|].
  pose proof (spec_append_tail (ContentType sm) (TTLSeconds sm) now a req) as Ht.
  simpl. rewrite Heq. destruct (spec_append _ _ now a req) as [a1 o]. simpl in *.
  rewrite <-(lo_id _ _ Hlo1) in Hid'. rewrite <-(lo_meta _ _ Hlo1) in Hm.
  destruct (IH st1 pend1 a1) as (st2 & pend2 & -> & Hc2 & Hlo2 & Hp2 & Hnow2);
    [done..|lia|].
  exists st2, pend2. destruct (run now a1 batch) as [a2 os]. simpl in *.
  split_and!; try done. by etrans.
Qed.

Lemma startPending_rep st now a :
  mem_rep st path sm a → pend_rep sm st a (startPending st now) a.
Proof.
  intros [Hpath Hid' Hm Ht Hc]. split; simpl; rewrite ?Hm; try done.
  - exists []. by rewrite app_nil_r.
  - by rewrite (left_id_L ∅ (∪)).
  - intros pid. rewrite lookup_empty. by intros [].
Qed.

(** *** The batch of a burst *)

Definition burst_batch (old new : astate) (pend : pendingBurst) (rs : list bytes)
    (metaChanged deadlineChanged : bool) : batch :=
  record_batch id (a_tail old) (marshalRecord recFlagNone) rs
  ++ [(KTail id, Some (marshalTail (a_tail new) (pd_now pend)))]
  ++ map_batch (KProducer id) marshalProducer (default ∅ (pd_producers pend))
  ++ match pd_writerSeq pend with Some w => [(KWriterSeq id, Some w)] | None => [] end
  ++ (if deadlineChanged then
        (KExpiry (a_deadline new) id, Some (u64Value (TTLSeconds sm)))
        :: (if decide (0 < a_deadline old) then [(KExpiry (a_deadline old) id, None)] else [])
      else [])
  ++ (if metaChanged then
        [(KMeta path, Some (Marshal (meta_with sm (a_closed new) (a_deadline new))))] else []).

Lemma burstOps_batch st a pend a' mc dc :
  st_path st = path → st_id st = id → st_meta st = meta_with sm (a_closed a) (a_deadline a) →
  pend_rep sm st a pend a' →
  ∃ rs, a_log a' = a_log a ++ rs ∧
    burstOps st pend mc dc = encode_batch (burst_batch a a' pend rs mc dc).
Proof.
  intros Hpath Hid' Hm [Hbase (rs & Hlog & Hops) Htail Hcl Hdl Hpr Hld Hws].
  exists rs. split; [done|]. unfold burstOps, burst_batch.
  rewrite Hops, Hid', Hm, Hpath, Htail, Hcl, Hdl. unfold encode_batch. rewrite !fmap_app.
  f_equal. f_equal. f_equal; [unfold map_batch; by rewrite <-list_fmap_compose|].
  f_equal; [by destruct (pd_writerSeq pend)|].
  f_equal; [destruct dc; [simpl; by case_decide|done]|by destruct mc].
Qed.

(** The keys a burst may touch: those of its stream. *)
Definition stream_key (p : bytes) (i : Z) (k : skey) : Prop :=
  match k with
  | KMeta q => q = p
  | KTail j | KWriterSeq j | KRecord j _ | KProducer j _ | KExpiry _ j => j = i
  | _ => False
  end.

Lemma burst_batch_keys old new pend rs mc dc :
  Forall (λ e, stream_key path id e.1) (burst_batch old new pend rs mc dc).
Proof.
  unfold burst_batch. rewrite !Forall_app. split_and!.
  - generalize (a_tail old). induction rs as [|r rs IH]; intros t; constructor; [done|apply IH].
  - by repeat constructor.
  - apply Forall_fmap, Forall_forall. by intros [pid ps] _.
  - destruct (pd_writerSeq pend); by repeat constructor.
  - destruct dc; [|done]. case_decide; by repeat constructor.
  - destruct mc; by repeat constructor.
Qed.

Lemma burst_batch_wf old new pend rs mc dc :
  0 ≤ a_tail old → a_tail old + len rs ≤ 2^64 → is_u64 (a_deadline old) → is_u64 (a_deadline new) →
  batch_wf (burst_batch old new pend rs mc dc).
Proof.
  intros. unfold burst_batch, batch_wf. rewrite !Forall_app. split_and!.
  - by apply record_batch_wf.
  - by forall_list.
  - by apply map_batch_wf.
  - destruct (pd_writerSeq pend); by forall_list.
  - destruct dc; [|done]. case_decide; by forall_list.
  - destruct mc; by forall_list.
Qed.

(** Look a key up in a burst's batch, piece by piece. *)
Ltac burst_lookup :=
  unfold burst_batch; rewrite !batch_lookup_app;
  repeat match goal with
  | |- context [batch_lookup (record_batch _ _ _ _) (KRecord _ _)] =>
      rewrite record_batch_lookup
  | |- context [batch_lookup (record_batch _ _ _ _) _] =>
      rewrite record_batch_lookup_other by done
  | |- context [batch_lookup (map_batch _ _ _) (KProducer _ _)] =>
      rewrite map_batch_lookup by (by intros ?? [= ->])
  | |- context [batch_lookup (map_batch _ _ _) _] =>
      rewrite map_batch_lookup_other by done
  end.

Lemma burst_lookup_meta old new pend rs mc dc :
  batch_lookup (burst_batch old new pend rs mc dc) (KMeta path) =
  if mc then Some (Some (Marshal (meta_with sm (a_closed new) (a_deadline new)))) else None.
Proof.
  burst_lookup. destruct mc, dc, (pd_writerSeq pend); simpl; repeat case_decide; try done;
    simpl; by repeat case_decide.
Qed.

Lemma burst_lookup_tail old new pend rs mc dc :
  batch_lookup (burst_batch old new pend rs mc dc) (KTail id) =
  Some (Some (marshalTail (a_tail new) (pd_now pend))).
Proof.
  burst_lookup. destruct mc, dc, (pd_writerSeq pend); simpl; repeat case_decide; try done;
    simpl; by repeat case_decide.
Qed.

Lemma burst_lookup_writerSeq old new pend rs mc dc :
  batch_lookup (burst_batch old new pend rs mc dc) (KWriterSeq id) = Some <$> pd_writerSeq pend.
Proof.
  burst_lookup. destruct mc, dc, (pd_writerSeq pend); simpl; repeat case_decide; try done;
    simpl; by repeat case_decide.
Qed.

Lemma burst_lookup_record old new pend rs mc dc q :
  batch_lookup (burst_batch old new pend rs mc dc) (KRecord id q) =
  if decide (a_tail old ≤ q)
  then (λ r, Some (marshalRecord recFlagNone r)) <$> rs !! Z.to_nat (q - a_tail old) else None.
Proof.
  burst_lookup. destruct mc, dc, (pd_writerSeq pend); simpl;
    destruct (decide (0 < a_deadline old)); simpl; done.
Qed.

Lemma burst_lookup_producer old new pend rs mc dc pid :
  batch_lookup (burst_batch old new pend rs mc dc) (KProducer id pid) =
  (λ v, Some (marshalProducer v)) <$> default ∅ (pd_producers pend) !! pid.
Proof.
  burst_lookup. simpl. destruct mc, dc, (pd_writerSeq pend); simpl;
    destruct (decide (0 < a_deadline old)); simpl; by destruct (default ∅ (pd_producers pend) !! pid).
Qed.

Lemma burst_lookup_expiry old new pend rs mc dc d :
  (dc = true → a_deadline new ≠ a_deadline old) →
  batch_lookup (burst_batch old new pend rs mc dc) (KExpiry d id) =
  if dc then
    if decide (d = a_deadline new) then Some (Some (u64Value (TTLSeconds sm)))
    else if decide (d = a_deadline old ∧ 0 < d) then Some None else None
  else None.
Proof.
  intros Hne. burst_lookup. destruct mc, dc, (pd_writerSeq pend); simpl; try done;
    specialize (Hne eq_refl); destruct (decide (0 < a_deadline old)); simpl;
    repeat case_decide; try done; simplify_eq; naive_solver.
Qed.

(** *** The store after the batch *)


Lemma burst_rep m old new pend rs mc dc :
  stream_rep m path sm old → astate_wf old → is_u64 (a_deadline new) →
  a_base new = a_base old → a_log new = a_log old ++ rs → a_tail new < 2^64 →
  a_producers new = default ∅ (pd_producers pend) ∪ a_producers old →
  a_writerSeq new = default (a_writerSeq old) (pd_writerSeq pend) →
  is_i64 (pd_now pend) →
  (mc = false → a_closed new = a_closed old ∧ a_deadline new = a_deadline old) →
  (dc = true → a_deadline new ≠ a_deadline old) → (dc = false → a_deadline new = a_deadline old) →
  (a_deadline new ≠ a_deadline old → 0 < a_deadline new) →
  stream_rep (apply_ops m (encode_batch (burst_batch old new pend rs mc dc))) path sm new.
Proof.
  intros [Hm Ht Hrec Hprod Hws Hexp] [Hb Hdl Hpw] Hdn Hbase Hlog Hbound Hpn Hwn Hnow Hmc Hdc Hdc' Hpos.
  assert (Hlen : a_tail new = a_tail old + len rs)
    by (unfold a_tail; rewrite Hbase, Hlog, length_app; lia).
  assert (Ht0 : 0 ≤ a_tail old) by (unfold a_tail; lia).
  assert (Hbwf : batch_wf (burst_batch old new pend rs mc dc))
    by (apply burst_batch_wf; lia || done).
  assert (Hlk : ∀ k, skey_wf k →
    apply_ops m (encode_batch (burst_batch old new pend rs mc dc)) !! encode_skey k =
    default (m !! encode_skey k) (batch_lookup (burst_batch old new pend rs mc dc) k))
    by (intros; by apply apply_batch_lookup).
  split.
  - destruct Hm as (Hwm & Hct & Hm). split_and!; [|done|].
    + unfold wf_meta in *. simpl in *. tauto.
    + at_key Hlk (KMeta path); [|done]. rewrite burst_lookup_meta. destruct mc; [done|].
      destruct (Hmc eq_refl) as [-> ->]. done.
  - split; [unfold is_u64; lia|]. exists (pd_now pend). split; [done|].
    at_key Hlk (KTail id); [|done]. by rewrite burst_lookup_tail.
  - intros i r Hi. rewrite Hbase. unfold stored_record.
    assert (Hilt : Z.of_nat i < len (a_log new)) by (apply lookup_lt_Some in Hi; lia).
    at_key Hlk (KRecord id (a_base old + Z.of_nat i));
      [|split; [done|unfold is_u64, a_tail in *; lia]]. rewrite burst_lookup_record.
    rewrite Hlog in Hi. apply lookup_app_Some in Hi as [Hi|[Hi1 Hi2]].
    + rewrite decide_False by (apply lookup_lt_Some in Hi; unfold a_tail; lia). by apply Hrec.
    + rewrite decide_True by (unfold a_tail; lia).
      replace (Z.to_nat (a_base old + Z.of_nat i - a_tail old)) with (i - length (a_log old))%nat
        by (unfold a_tail; lia). by rewrite Hi2.
  - intros pid. at_key Hlk (KProducer id pid); [|done]. rewrite burst_lookup_producer, Hpn.
    destruct (default ∅ (pd_producers pend) !! pid) as [ps|] eqn:Hps; simpl.
    + by erewrite lookup_union_Some_l by done.
    + rewrite lookup_union_r by done. apply Hprod.
  - at_key Hlk (KWriterSeq id); [|done]. rewrite burst_lookup_writerSeq, Hwn.
    by destruct (pd_writerSeq pend).
  - intros d Hd. at_key Hlk (KExpiry d id); [|done]. rewrite burst_lookup_expiry by done.
    specialize (Hexp d Hd). destruct dc.
    + specialize (Hdc eq_refl). case_decide as Hd1; [|case_decide as Hd2]; simpl.
      * split; [intros _; subst d; auto|by eexists].
      * rewrite is_Some_alt. naive_solver.
      * rewrite Hexp. lia.
    + rewrite (Hdc' eq_refl). apply Hexp.
Qed.

(** *** The streamer after the burst *)

Lemma set_path_applyWriter st pend mc :
  let st' := applyWriter st pend mc in
  st_path st' = st_path st ∧ st_id st' = st_id st ∧ st_writeTail st' = pd_tail pend ∧
  st_meta st' = (if mc then meta_with (st_meta st) (pd_closed pend) (pd_deadline pend)
                 else st_meta st) ∧
  st_producers st' = default ∅ (pd_producers pend) ∪ st_producers st ∧
  st_producerLoaded st' = st_producerLoaded st ∧
  st_writerSeq st' = default (st_writerSeq st) (pd_writerSeq pend) ∧
  st_writerSeqLoaded st' = (if pd_writerSeq pend then true else st_writerSeqLoaded st) ∧
  st_tail st' = st_tail st ∧ st_closed st' = st_closed st ∧ st_cache st' = st_cache st ∧
  totalReaders st' = totalReaders st ∧ st_pending st' = st_pending st.
Proof. destruct mc, (pd_writerSeq pend) eqn:E; unfold applyWriter; rewrite E; by split_and!. Qed.

Lemma applyWriter_rep st old pend new mc :
  st_path st = path → st_id st = id →
  st_meta st = meta_with sm (a_closed old) (a_deadline old) → caches_rep st old →
  pend_rep sm st old pend new →
  (mc = false → a_closed new = a_closed old ∧ a_deadline new = a_deadline old) →
  mem_rep (applyWriter st pend mc) path sm new.
Proof.
  intros Hpath Hid' Hm [Hl Hu Hw] [Hbase _ Htail Hcl Hdl Hpr Hld Hws] Hmc.
  destruct (set_path_applyWriter st pend mc)
    as (E1 & E2 & E3 & E4 & E5 & E6 & E7 & E8 & _).
  split; [congruence|congruence| |congruence|split].
  - rewrite E4, Hm, Hcl, Hdl. destruct mc; [done|]. by destruct (Hmc eq_refl) as [-> ->].
  - intros pid. rewrite E5, E6, Hpr. intros Hin.
    destruct (default ∅ (pd_producers pend) !! pid) as [ps|] eqn:Hps.
    + by erewrite !lookup_union_Some_l by done.
    + rewrite !lookup_union_r by done. auto.
  - intros pid. rewrite E5, E6. intros Hn. apply lookup_union_None. split; [|auto].
    destruct (default ∅ (pd_producers pend) !! pid) eqn:Hps; [|done].
    destruct Hn. apply Hld. by rewrite Hps.
  - rewrite E7, E8, Hws, Hw. by destruct (pd_writerSeq pend).
Qed.

Lemma applyReader_mem st tail closed seg a :
  mem_rep st path sm a → mem_rep (applyReader st tail closed seg) path sm a.
Proof. intros [? ? ? ? []]. by split. Qed.

Lemma astate_wf_run now a batch :
  ttl_in_range (TTLSeconds sm) now → astate_wf a → Forall wf_req batch →
  astate_wf (run now a batch).1.
Proof.
  intros Ht [Hb Hd Hp] Hr. split; [by rewrite spec_run_base| |by apply spec_run_wf].
  by apply spec_run_deadline.
Qed.

Lemma planAll_now s st pend batch : pd_now (planAll s st pend batch).1.1.2 = pd_now pend.
Proof.
  revert st pend. induction batch as [|req rest IH]; intros st pend; [done|]. simpl.
  assert (Hn : pd_now (planAppend s st pend req).1.1.2 = pd_now pend).
  { unfold planAppend, planAppendClosed, acceptAppend. repeat (case_match; simpl); done || congruence. }
  destruct (planAppend s st pend req) as [[[st1 p1] r] acc]. pose proof (IH st1 p1) as Hl.
  destruct (planAll s st1 p1 rest) as [[[st2 p2] rs] accs]. simpl in *. congruence.
Qed.

(** *** One burst, up to the committer *)

(** What the plan of a burst amounts to. *)
Lemma planBurst_rep s st now a batch :
  reads_ok s → stream_rep (view s) path sm a → astate_wf a → mem_rep st path sm a →
  is_i64 now → ttl_in_range (TTLSeconds sm) now → a_tail a + total_records batch < 2^64 →
  Forall wf_req batch →
  let a' := (run now a batch).1 in
  let replies := (run now a batch).2 in
  ∃ st', loads_only st st' ∧ mem_rep st' path sm a ∧
    match planBurst s st now batch with
    | (st1, inl resps) => st1 = st' ∧ resps = replies ∧ a' = a
    | (st1, inr c) => st1 = st' ∧ cb_responses c = replies ∧ cb_accepted c = accepts now a batch ∧
        pend_rep sm st' a (cb_pend c) a' ∧
        (cb_metaChanged c = false → a_closed a' = a_closed a ∧ a_deadline a' = a_deadline a) ∧
        ∃ rs b, cb_ops c = encode_batch b ∧ a_log a' = a_log a ++ rs ∧
          batch_wf b ∧ Forall (λ e, stream_key path id e.1) b ∧
          stream_rep (apply_ops (view s) (cb_ops c)) path sm a'
    end.
Proof.
  intros Hr Hrep Hwf Hmem Hnow Httl Hbound Hreqs. simpl.
  pose proof (startPending_rep st now a Hmem) as Hp0.
  pose proof (spec_run_tail (ContentType sm) (TTLSeconds sm) now a batch) as Htl.
  pose proof (spec_run_deadline (ContentType sm) (TTLSeconds sm) now a batch Httl
                (aw_deadline _ Hwf)) as (Hd' & Hdpos & _).
  pose proof (spec_run_keeps_open (ContentType sm) (TTLSeconds sm) now a batch) as Hopen.
  destruct Hmem as [Hpath Hid' Hm Ht Hc]. unfold planBurst.
  destruct (planAll_rep s now a batch st (startPending st now) a)
    as (st' & pend & -> & Hc' & Hlo & Hp & Hnow'); [done..|].
  assert (Hmem' : mem_rep st' path sm a) by (split; destruct Hlo; congruence || done).
  destruct (run now a batch) as [a' replies]. simpl in *.
  exists st'. split; [done|]. split; [done|].
  assert (Hdc : bool_decide (pd_deadline pend ≠ Deadline (st_meta st'))
                = bool_decide (a_deadline a' ≠ a_deadline a)).
  { rewrite (lo_meta _ _ Hlo), Hm, (pr_deadline _ _ _ _ _ Hp). done. }
  rewrite Hdc. destruct (decide (pd_recordOps pend = [] ∧ _)) as [Hnothing|_].
  - destruct Hnothing as (Hro & Hmc & Hws & Hpr & Hdl%bool_decide_eq_false).
    split_and!; [done..|]. specialize (Hopen Hmc).
    destruct Hp as [Hbase (rs & Hlog & Hops) _ _ _ Hprods _ Hwseq].
    rewrite Hro in Hops. rewrite Hpr in Hprods. rewrite Hws in Hwseq.
    destruct rs; [|done]. rewrite app_nil_r in Hlog.
    simpl in Hprods, Hwseq. rewrite (left_id_L ∅ (∪)) in Hprods. assert (a_deadline a' = a_deadline a) by (destruct (decide (a_deadline a' = a_deadline a)); tauto).
    destruct a, a'; simpl in *; congruence.
  - simpl. split_and!; [done..| |].
    { intros [Hmc Hdl%bool_decide_eq_false]%orb_false_iff. split; [auto|].
      destruct (decide (a_deadline a' = a_deadline a)); [done|tauto]. }
    destruct (burstOps_batch st' a pend a'
      (closeAccepted batch (accepts now a batch) || bool_decide (a_deadline a' ≠ a_deadline a))
      (bool_decide (a_deadline a' ≠ a_deadline a))) as (rs & Hlog & ->);
      [apply Hmem'|apply Hmem'|apply Hmem'|done|].
    eexists rs, _. split; [done|]. split; [done|].
    assert (a_tail a' = a_tail a + len rs)
      by (unfold a_tail; rewrite (pr_base _ _ _ _ _ Hp), Hlog, length_app; lia).
    split; [|split; [apply burst_batch_keys|]].
    { pose proof (aw_base _ Hwf). apply burst_batch_wf; [unfold a_tail; lia|lia|apply Hwf|done]. }
    apply burst_rep; try done; [apply Hp|lia|apply Hp|apply Hp|by rewrite Hnow'| |..].
    + intros [Hmc Hdl%bool_decide_eq_false]%orb_false_iff. split; [auto|].
      destruct (decide (a_deadline a' = a_deadline a)); [done|tauto].
    + by intros ?%bool_decide_eq_true.
    + intros Hdl%bool_decide_eq_false. destruct (decide (a_deadline a' = a_deadline a)); tauto.
Qed.

(** *** Publishing to readers *)

Lemma content_app a a' rs i :
  a_base a' = a_base a → a_log a' = a_log a ++ rs → a_base a ≤ i < a_tail a →
  content a' i = content a i.
Proof.
  intros Hb Hl Hi. unfold content. rewrite Hb, Hl, lookup_app_l; [done|unfold a_tail in Hi; lia].
Qed.

Lemma cache_holds_ext (L1 L2 : Z → bytes) c lo hi :
  (∀ i, lo ≤ i < hi → L1 i = L2 i) → cache_holds L1 c lo hi → cache_holds L2 c lo hi.
Proof.
  intros HL [Hr Hrecs Hb]. split; [done| |].
  - rewrite Hrecs. apply list_fmap_ext. intros j x Hx.
    apply lookup_seqZ in Hx as [-> ?]. by rewrite HL by lia.
  - rewrite Hb. unfold size, payloads. do 2 f_equal. f_equal. apply list_fmap_ext.
    intros j x Hx. apply lookup_seqZ in Hx as [-> ?]. by apply HL; lia.
Qed.

Lemma payloads_content a a' rs :
  a_base a' = a_base a → a_log a' = a_log a ++ rs →
  payloads (content a') (a_tail a) (a_tail a') = rs.
Proof.
  intros Hb Hl. apply list_eq. intros i. unfold payloads. rewrite list_lookup_fmap.
  assert (a_tail a' = a_tail a + len rs) as ->
    by (unfold a_tail; rewrite Hb, Hl, length_app; lia).
  destruct (decide (i < length rs)%nat) as [Hi|Hi].
  - rewrite lookup_seqZ_lt by lia. simpl. unfold content, a_tail. rewrite Hb, Hl.
    replace (Z.to_nat (a_base a + len (a_log a) + Z.of_nat i - a_base a)) with (length (a_log a) + i)%nat by lia.
    rewrite lookup_app_r by lia.
    replace (length (a_log a) + i - length (a_log a))%nat with i by lia.
    destruct (lookup_lt_is_Some_2 rs i Hi) as [r ->]. done.
  - rewrite lookup_seqZ_ge by lia. simpl. symmetry. apply lookup_ge_None_2. lia.
Qed.

Lemma recordPayload_batch sid t rs :
  recordPayload ∘ op_val <$> encode_batch (record_batch sid t (marshalRecord recFlagNone) rs) = rs.
Proof. revert t. induction rs as [|r rs IH]; intros t; simpl; [done|]. by f_equal. Qed.

(** What the segment of a burst may be: its records, or nothing. *)
Definition seg_of (a a' : astate) (seg : cacheSeg) : Prop :=
  seg_payloads seg = [] ∨
  (seg_firstSeq seg = a_tail a ∧ ∃ rs, a_log a' = a_log a ++ rs ∧ seg_payloads seg = rs ∧ rs ≠ []).

Lemma burstSeg_of st a pend a' :
  pend_rep sm st a pend a' → seg_of a a' (burstSeg st (a_tail a) pend).
Proof.
  intros Hp. unfold burstSeg. case_decide as Hd; [|by left]. right. split; [done|].
  destruct (pr_log _ _ _ _ _ Hp) as (rs & Hlog & Hops). exists rs. split; [done|]. simpl.
  rewrite Hops, recordPayload_batch. split; [done|]. intros ->. destruct Hd as (_ & Hro & _).
  by rewrite Hops in Hro.
Qed.

Lemma applyReader_published st a a' seg (closed : bool) :
  published st a → seg_of a a' seg → 0 ≤ a_base a → a_base a' = a_base a →
  (∃ rs, a_log a' = a_log a ++ rs) → a_tail a' < 2^63 →
  a_closed a' = (if closed then true else a_closed a) →
  published (applyReader st (a_tail a') closed seg) a'.
Proof.
  intros [Ht Hc Hcache] Hseg Hb0 Hb [rs Hlog] Hbound Hcl. split; simpl; [done|by rewrite Hcl, Hc|].
  intros c' Hc'. apply fmap_Some in Hc' as (c & Hcc & ->).
  assert (a_tail a' = a_tail a + len rs) as Htl
    by (unfold a_tail; rewrite Hb, Hlog, length_app; lia).
  case_decide as Hread.
  2: { exists (a_base a'), (a_base a'). split; [|unfold a_tail; lia].
       split; [unfold a_tail in *; lia|by rewrite seqZ_nil by lia|by rewrite size_nil by lia]. }
  destruct (Hcache c Hcc) as (lo & hi & Hholds & Hlo & Hhi).
  assert (cache_holds (content a') c lo hi) as Hholds'.
  { eapply cache_holds_ext; [|done]. intros i Hi. symmetry. eapply content_app; [done..|lia]. }
  destruct Hseg as [Hnil|(Hfirst & rs' & Hlog' & Hpay & Hne)].
  { rewrite Hnil. exists lo, hi. split; [done|lia]. }
  assert (rs' = rs) as -> by (rewrite Hlog in Hlog'; by apply app_inv_head in Hlog').
  rewrite Hpay, Hfirst.
  assert (0 < len rs) by (destruct rs; [done|simpl; lia]).
  destruct (append_holds (content a') c lo hi (a_tail a) (a_tail a')) as (lo' & Hh & Hlt & _);
    [done|unfold a_tail in *; lia|lia|].
  rewrite (payloads_content a a' rs Hb Hlog) in Hh.
  exists lo', (a_tail a'). split; [done|]. split; [unfold a_tail in *; lia|lia].
Qed.

Lemma published_loads st st' a : loads_only st st' → published st a → published st' a.
Proof.
  intros Hlo [Ht Hc Hcache]. split.
  - by rewrite (lo_tail _ _ Hlo).
  - by rewrite (lo_closed _ _ Hlo).
  - by rewrite (lo_cache _ _ Hlo).
Qed.

(** Reading the state of a stream off the store, the streamer and its readers. *)
Record stream_ok (s : S) (st : streamer) (a : astate) : Prop := {
  so_store : stream_rep (view s) path sm a;
  so_mem : mem_rep st path sm a;
  so_readers : published st a;
  so_wf : astate_wf a }.

(** What is assumed of one burst. *)
Record burst_ok (a : astate) (now : Z) (batch : list appendReq) : Prop := {
  bo_now : is_i64 now;
  bo_ttl : ttl_in_range (TTLSeconds sm) now;
  bo_room : a_tail a + total_records batch < 2^63;
  bo_reqs : Forall wf_req batch }.

(** A burst that is planned and waits for its commit. *)
Record planned (m : gmap bytes bytes) (st : streamer) (a : astate) (now : Z) (batch : list appendReq)
    (c : commitBurst) : Prop := {
  pl_batch : cb_batch c = batch;
  pl_now : pd_now (cb_pend c) = now;
  pl_responses : cb_responses c = (run now a batch).2;
  pl_accepted : cb_accepted c = accepts now a batch;
  pl_pend : pend_rep sm st a (cb_pend c) (run now a batch).1;
  pl_meta : cb_metaChanged c = false →
    a_closed (run now a batch).1 = a_closed a ∧ a_deadline (run now a batch).1 = a_deadline a;
  pl_seg : seg_of a (run now a batch).1 (cb_seg c);
  pl_log : ∃ rs, a_log (run now a batch).1 = a_log a ++ rs;
  pl_ops : ∃ b, cb_ops c = encode_batch b ∧ batch_wf b ∧ Forall (λ e, stream_key path id e.1) b;
  pl_store : stream_rep (apply_ops m (cb_ops c)) path sm (run now a batch).1 }.

(** The first half of a burst. *)
Lemma planBurst_planned s st now a batch :
  reads_ok s → stream_ok s st a → burst_ok a now batch →
  let '(st', r) := planBurst s st now batch in
  mem_rep st' path sm a ∧ published st' a ∧
  match r with
  | inl resps => run now a batch = (a, resps)
  | inr c => planned (view s) st' a now batch c
  end.
Proof.
  intros Hr [Hrep Hmem Hpub Hwf] [Hnow Httl Hroom Hreqs].
  destruct (planBurst_rep s st now a batch) as (st1 & Hlo & Hmem1 & Hplan); [done..|lia|done|].
  pose proof (published_loads _ _ _ Hlo Hpub) as Hpub1. pose proof (mr_writeTail _ _ _ _ Hmem) as Hwt.
  destruct (planBurst s st now batch) as [st2 [resps|c]] eqn:Hpb.
  - destruct Hplan as (-> & -> & Ha). split_and!; [done..|]. destruct (run now a batch). simpl in *. congruence.
  - destruct Hplan as (-> & Hresp & Hacc & Hp & Hmc & rs & b & Hb & Hlog & Hbwf & Hkeys & Hrep').
    assert (Hfix : cb_batch c = batch ∧ pd_now (cb_pend c) = now ∧ cb_seg c = burstSeg st1 (st_writeTail st) (cb_pend c)).
    { unfold planBurst in Hpb. pose proof (planAll_now s st (startPending st now) batch) as Hn.
      destruct (planAll _ _ _ _) as [[[st3 pend] resps] accs].
      destruct (decide _) in Hpb; [done|]. by simplify_eq. }
    destruct Hfix as (? & ? & Hseg). split_and!; [done..|]. split; try done; [|by eexists|by exists b].
    rewrite Hseg, Hwt. by apply burstSeg_of.
Qed.

(** And the second: the commit, whatever the store does. *)
Lemma syncCommit_planned s st now a batch c :
  mem_rep st path sm a → published st a → astate_wf a → burst_ok a now batch →
  planned (view s) st a now batch c →
  let a' := (run now a batch).1 in
  let replies := (run now a batch).2 in
  let '(s', st', resps) := syncCommit s st c in
  (stream_ok s' st' a' ∧ resps = replies) ∨
  (∃ ops e, store_Commit s ops true = (s', Some e) ∧
     mem_rep st' path sm a ∧ published st' a ∧
     resps = failAccepted replies (accepts now a batch) e ∧
     (view s' = view s ∨ stream_rep (view s') path sm a')).
Proof.
  intros Hmem Hpub Hwf [Hnow Httl Hroom Hreqs] [_ _ Hresp Hacc Hp Hmc Hseg Hlog _ Hrep']. simpl.
  pose proof (astate_wf_run now a batch Httl Hwf Hreqs) as Hwf'.
  pose proof (spec_run_tail (ContentType sm) (TTLSeconds sm) now a batch) as Htl.
  pose proof (spec_run_base (ContentType sm) (TTLSeconds sm) now a batch) as Hbase.
  pose proof (spec_run_closed (ContentType sm) (TTLSeconds sm) now a batch) as Hclosed.
  unfold syncCommit. destruct (store_Commit s (cb_ops c) true) as [s' [e|]] eqn:Hcommit.
  - right. exists (cb_ops c), e. split_and!; try done; [by rewrite Hresp, Hacc|].
    destruct (Commit_atomic _ _ _ _ _ Hcommit) as [?|Hv]; [by left|right; by rewrite Hv].
  - left. apply Commit_ok in Hcommit as Hv. split; [|done].
    split; [by rewrite Hv|apply applyReader_mem| |done].
    + eapply applyWriter_rep; try done; apply Hmem.
    + rewrite (pr_tail _ _ _ _ _ Hp). apply (applyReader_published _ a); try done; [|apply Hwf|lia|].
      * destruct (set_path_applyWriter st (cb_pend c) (cb_metaChanged c))
          as (_ & _ & _ & _ & _ & _ & _ & _ & E1 & E2 & E3 & _).
        destruct Hpub. split; [congruence|congruence|by rewrite E3].
      * rewrite (pr_closed _ _ _ _ _ Hp).
        destruct (cb_metaChanged c); [|by destruct (Hmc eq_refl)].
        simpl. destruct (a_closed (run now a batch).1) eqn:Hc'; [done|].
        destruct (a_closed a) eqn:Ha; [|done]. rewrite (Hclosed eq_refl) in Hc'. congruence.
Qed.

Lemma syncCommit_rep s st now a batch :
  reads_ok s → stream_ok s st a → burst_ok a now batch →
  let a' := (run now a batch).1 in
  let replies := (run now a batch).2 in
  let '(s', st', resps) := processBurst s st now batch in
  (stream_ok s' st' a' ∧ resps = replies) ∨
  (∃ ops e, store_Commit s ops true = (s', Some e) ∧
     mem_rep st' path sm a ∧ published st' a ∧
     resps = failAccepted replies (accepts now a batch) e ∧
     (view s' = view s ∨ stream_rep (view s') path sm a')).
Proof.
  intros Hr Hok Hb. pose proof Hok as [Hrep _ _ Hwf]. unfold processBurst.
  pose proof (planBurst_planned s st now a batch Hr Hok Hb) as Hplan.
  destruct (planBurst s st now batch) as [st1 [resps|c]]; destruct Hplan as (Hmem & Hpub & Hplan).
  - rewrite Hplan. left. split; [by split|done].
  - by apply (syncCommit_planned s st1 now a batch c).
Qed.

(** *** The other streams' writes *)

(** The stores agree on what belongs to the stream. *)
Definition stream_same (m m' : gmap bytes bytes) : Prop :=
  ∀ k, skey_wf k → stream_key path id k → m' !! encode_skey k = m !! encode_skey k.

Lemma stream_rep_same m m' a :
  stream_same m m' → 0 ≤ a_base a → a_tail a < 2^64 → stream_rep m path sm a → stream_rep m' path sm a.
Proof.
  intros Hs Hb Hbound [Hm Ht Hrec Hprod Hws Hexp]. split.
  - destruct Hm as (? & ? & Hm). split_and!; [done..|]. at_key Hs (KMeta path); [done|done|done].
  - destruct Ht as (Hu & now & Hnow & Ht). split; [done|]. exists now. split; [done|].
    by at_key Hs (KTail id).
  - intros i r Hi. pose proof (lookup_lt_Some _ _ _ Hi). unfold stored_record.
    at_key Hs (KRecord id (a_base a + Z.of_nat i)); [by apply Hrec|
      split; [done|unfold is_u64, a_tail in *; lia]|done].
  - intros pid. at_key Hs (KProducer id pid); [apply Hprod|done|done].
  - by at_key Hs (KWriterSeq id).
  - intros d Hd. at_key Hs (KExpiry d id); [by apply Hexp|done|done].
Qed.

Lemma planned_same m m' st a now batch c :
  stream_same m m' → 0 ≤ a_base a → a_tail (run now a batch).1 < 2^64 →
  planned m st a now batch c → planned m' st a now batch c.
Proof.
  intros Hs Hb Hbound [? ? ? ? ? ? ? ? (b & Hops & Hbwf & Hkeys) Hrep]. split; try done; [by exists b|].
  eapply stream_rep_same; [|by rewrite spec_run_base|done|exact Hrep]. intros k Hk Hown.
  rewrite Hops, !apply_batch_lookup by done. by rewrite Hs.
Qed.

(** *** A healthy store *)

Lemma healthy_reads_ok s : healthy s → reads_ok s.
Proof. intros Hh k. by apply healthy_Get. Qed.

Lemma processBurst_healthy s st now batch :
  healthy s → healthy (processBurst s st now batch).1.1.
Proof.
  intros Hh. unfold processBurst. destruct (planBurst s st now batch) as [st1 [resps|c]]; [done|].
  unfold syncCommit. destruct (healthy_Commit s (cb_ops c) true Hh) as (s' & -> & ?). done.
Qed.

Lemma processBurst_healthy_rep s st now a batch :
  healthy s → stream_ok s st a → burst_ok a now batch →
  let '(s', st', resps) := processBurst s st now batch in
  stream_ok s' st' (run now a batch).1 ∧ resps = (run now a batch).2.
Proof.
  intros Hh Hok Hb. pose proof (syncCommit_rep s st now a batch (healthy_reads_ok s Hh) Hok Hb) as Hc.
  simpl in Hc. destruct (processBurst s st now batch) as [[s' st'] resps].
  destruct Hc as [|(ops & e & He & _)]; [done|].
  destruct (healthy_Commit s ops true Hh) as (s2 & E & _). by rewrite He in E.
Qed.

Lemma refreshTTLOnRead_healthy s st now : healthy s → healthy (refreshTTLOnRead s st now).1.
Proof.
  intros Hh. unfold refreshTTLOnRead. destruct (ttlRefreshOps st now) as [[st1 ops]|]; [|done].
  match goal with |- context [store_Commit s ?o false] =>
    by destruct (healthy_Commit s o false Hh) as (s' & -> & ?) end.
Qed.

(** The bursts a streamer processes over its life. *)
Fixpoint processAll s st (bursts : list (Z * list appendReq)) : S * streamer * list appendResp :=
  match bursts with
  | [] => (s, st, [])
  | (now, batch) :: rest =>
      let '(s, st, resps) := processBurst s st now batch in
      let '(s, st, more) := processAll s st rest in
      (s, st, resps ++ more)
  end.

(** The same appends one at a time, whatever bursts they came in. *)
Fixpoint run_bursts a (bursts : list (Z * list appendReq)) : astate * list appendResp :=
  match bursts with
  | [] => (a, [])
  | (now, batch) :: rest =>
      let '(a, resps) := run now a batch in
      let '(a, more) := run_bursts a rest in
      (a, resps ++ more)
  end.

Lemma processAll_rep s st a bursts :
  healthy s → stream_ok s st a →
  Forall (λ b, is_i64 b.1 ∧ ttl_in_range (TTLSeconds sm) b.1 ∧ Forall wf_req b.2) bursts →
  a_tail a + total_records (concat bursts.*2) < 2^63 →
  let '(s', st', resps) := processAll s st bursts in
  stream_ok s' st' (run_bursts a bursts).1 ∧ resps = (run_bursts a bursts).2 ∧ healthy s'.
Proof.
  intros Hh Hok Hf. revert s st a Hh Hok.
  induction Hf as [|[now batch] bursts (Hnow & Httl & Hreqs) Hf IH]; intros s st a Hh Hok Hroom;
    [done|]. simpl in *.
  assert (Htot : total_records (batch ++ concat bursts.*2)
                 = total_records batch + total_records (concat bursts.*2))
    by (unfold total_records; rewrite fmap_app, concat_app, length_app; lia).
  change (list_fmap _ _ snd bursts) with (bursts.*2) in Hroom. rewrite Htot in Hroom.
  pose proof (total_records_nonneg (concat bursts.*2)).
  pose proof (processBurst_healthy_rep s st now a batch Hh Hok) as Hstep.
  pose proof (processBurst_healthy s st now batch Hh) as Hh'.
  pose proof (spec_run_tail (ContentType sm) (TTLSeconds sm) now a batch) as Htl.
  destruct (processBurst s st now batch) as [[s1 st1] resps].
  destruct Hstep as [Hok1 ->]; [split; [done..|lia|done]|].
  specialize (IH s1 st1 (run now a batch).1 Hh' Hok1 ltac:(lia)).
  destruct (run now a batch) as [a1 replies]. simpl in *.
  destruct (processAll s1 st1 bursts) as [[s2 st2] more].
  destruct (run_bursts a1 bursts) as [a2 os]. simpl in *. destruct IH as (? & -> & ?).
  by split_and!.
Qed.

(** *** What the store holds can be read back *)

Lemma stream_rep_log_at m a :
  stream_rep m path sm a → a_base a = 0 → a_tail a < 2^64 →
  log_at m (content a) id 0 (ForkOffset sm) (a_tail a).
Proof.
  intros Hrep Hb Hbound. apply log_root; [done|unfold is_u64, a_tail in *; lia|].
  intros i Hi. unfold content, a_tail in *. rewrite Hb in *.
  destruct (lookup_lt_is_Some_2 (a_log a) (Z.to_nat (i - 0))) as [r Hr]; [lia|].
  rewrite Hr. apply (sr_records _ _ _ _ Hrep) in Hr. rewrite Hb in Hr. simpl.
  by replace (0 + Z.of_nat (Z.to_nat (i - 0))) with i in Hr by lia.
Qed.

Lemma processBurst_view s st now batch :
  let s' := (processBurst s st now batch).1.1 in
  view s' = view s ∨
  ∃ c, (planBurst s st now batch).2 = inr c ∧ view s' = apply_ops (view s) (cb_ops c).
Proof.
  simpl. unfold processBurst. destruct (planBurst s st now batch) as [st1 [resps|c]]; [by left|].
  unfold syncCommit. destruct (store_Commit s (cb_ops c) true) as [s' [e|]] eqn:Hc; simpl.
  - apply Commit_atomic in Hc as [?|?]; [by left|right; eauto].
  - apply Commit_ok in Hc. right. eauto.
Qed.

Lemma processBurst_batch s st now a batch :
  reads_ok s → stream_ok s st a → burst_ok a now batch →
  ∃ b, batch_wf b ∧ Forall (λ e, stream_key path id e.1) b ∧
    view (processBurst s st now batch).1.1 = apply_ops (view s) (encode_batch b).
Proof.
  intros Hr [Hrep Hmem _ Hwf] [Hnow Httl Hroom Hreqs].
  destruct (processBurst_view s st now batch) as [Hv|(c & Hc & Hv)]; rewrite Hv;
    [exists []; split_and!; [constructor..|done]|].
  destruct (planBurst_rep s st now a batch) as (st1 & _ & _ & Hplan); [done..|lia|done|].
  destruct (planBurst s st now batch) as [st2 ?]. simpl in Hc. subst.
  destruct Hplan as (_ & _ & _ & _ & _ & rs & b & -> & _ & ? & ? & _). by exists b.
Qed.

(** *** The refresh for a read *)

Definition refresh_batch (a : astate) (d : Z) : batch :=
  [(KExpiry d id, Some (u64Value (TTLSeconds sm)))]
  ++ (if decide (0 < a_deadline a) then [(KExpiry (a_deadline a) id, None)] else [])
  ++ [(KMeta path, Some (Marshal (meta_with sm (a_closed a) d)))].

Lemma refresh_batch_wf a d : is_u64 (a_deadline a) → is_u64 d → batch_wf (refresh_batch a d).
Proof. intros. unfold refresh_batch, batch_wf. case_decide; simpl; by forall_list. Qed.

Lemma refresh_batch_keys a d : Forall (λ e, stream_key path id e.1) (refresh_batch a d).
Proof. unfold refresh_batch. case_decide; by repeat constructor. Qed.

Lemma refresh_lookup_expiry a d k :
  d ≠ a_deadline a →
  batch_lookup (refresh_batch a d) (KExpiry k id) =
  if decide (k = d) then Some (Some (u64Value (TTLSeconds sm)))
  else if decide (k = a_deadline a ∧ 0 < k) then Some None else None.
Proof.
  intros Hne. unfold refresh_batch. destruct (decide (0 < a_deadline a)); simpl;
    repeat case_decide; try done; simplify_eq; naive_solver.
Qed.

(** A store that changed at a stream's deadline and stored configuration only. *)
Lemma refresh_rep m a d :
  stream_rep m path sm a → astate_wf a → is_u64 d → 0 < d → d ≠ a_deadline a → a_tail a < 2^64 →
  stream_rep (apply_ops m (encode_batch (refresh_batch a d))) path sm (with_deadline d a).
Proof.
  intros [Hm Ht Hrec Hprod Hws Hexp] [Hb Hdl Hpw] Hd Hpos Hne Hbound.
  assert (Hlk : ∀ k, skey_wf k →
    apply_ops m (encode_batch (refresh_batch a d)) !! encode_skey k =
    default (m !! encode_skey k) (batch_lookup (refresh_batch a d) k))
    by (intros; apply apply_batch_lookup; [by apply refresh_batch_wf|done]).
  assert (Hother : ∀ k, skey_wf k → match k with KExpiry _ _ | KMeta _ => False | _ => True end →
    apply_ops m (encode_batch (refresh_batch a d)) !! encode_skey k = m !! encode_skey k).
  { intros k Hk Ho. rewrite Hlk by done. unfold refresh_batch. destruct k; try done; by case_decide. }
  split; cbn [with_deadline a_base a_log a_closed a_deadline a_producers a_writerSeq]; try change (a_tail (with_deadline d a)) with (a_tail a).
  - destruct Hm as (Hwm & Hct & Hm). split_and!; [|done|]; [unfold wf_meta in *; simpl in *; tauto|].
    at_key Hlk (KMeta path); [|done]. unfold refresh_batch. case_decide; simpl; by rewrite decide_True.
  - destruct Ht as (Hu & now & Hnow & Ht). split; [done|]. exists now. split; [done|].
    by at_key Hother (KTail id).
  - intros i r Hi. unfold stored_record. pose proof (lookup_lt_Some _ _ _ Hi).
    at_key Hother (KRecord id (a_base a + Z.of_nat i)); [by apply Hrec|
      split; [done|unfold is_u64, a_tail in *; lia]|done].
  - intros pid. at_key Hother (KProducer id pid); [apply Hprod|done..].
  - by at_key Hother (KWriterSeq id).
  - intros d2 Hd2. at_key Hlk (KExpiry d2 id); [|done]. specialize (Hexp d2 Hd2).
    rewrite refresh_lookup_expiry by done. case_decide as Hd1; [|case_decide as Hd3]; simpl.
    + split; [by intros _; subst|by eexists].
    + split; [by intros []|by intros []].
    + rewrite Hexp. lia.
Qed.

(** The operations of a refresh are those of a slide, when there is one. *)
Lemma ttlRefreshOps_slide st now a :
  st_path st = path → st_id st = id → st_meta st = meta_with sm (a_closed a) (a_deadline a) →
  ttl_in_range (TTLSeconds sm) now → is_u64 (a_deadline a) →
  let d := slideTTL (TTLSeconds sm) now (a_deadline a) in
  match ttlRefreshOps st now with
  | None => d = a_deadline a
  | Some (st', ops) =>
      d ≠ a_deadline a ∧ st' = set_meta (meta_with sm (a_closed a) d) st ∧
      ops ++ [PutOp (metaKey (st_path st)) (Marshal (st_meta st'))] = encode_batch (refresh_batch a d)
  end.
Proof.
  intros Hpath Hid' Hm Httl Hdl. simpl. unfold ttlRefreshOps. rewrite Hm, Hpath, Hid'.
  change (TTLSeconds (meta_with _ _ _)) with (TTLSeconds sm). cbn [Deadline meta_with Closed].
  pose proof (ttl_granularity_bounds (TTLSeconds sm)) as Hg. destruct Httl as (Ht0 & Hn & Hb).
  unfold slideTTL. destruct (decide (TTLSeconds sm = 0)) as [_|Hne]; [done|].
  destruct (decide (u64 (u64 now + TTLSeconds sm) < a_deadline a)) as [|Hge]; [done|].
  rewrite (u64_small now), (u64_small (now + _)) in * by (unfold is_u64; lia).
  set (d := u64 _). assert (Hd : d ≠ a_deadline a) by (unfold d; rewrite u64_small; unfold is_u64; lia).
  split_and!; [done|done|]. unfold refresh_batch.
  destruct (decide (0 < a_deadline a)) as [Hp|Hp];
    [rewrite decide_True by (split; congruence || done)|rewrite decide_False by tauto]; done.
Qed.

(** What a refresh does, whatever the store does: the deadline slides in the store
    and in memory, or in neither as the streamer sees it. *)
Lemma refreshTTLOnRead_rep s st now a :
  stream_ok s st a → ttl_in_range (TTLSeconds sm) now → a_tail a < 2^63 →
  let a' := with_deadline (slideTTL (TTLSeconds sm) now (a_deadline a)) a in
  let '(s', st') := refreshTTLOnRead s st now in
  (∃ b, batch_wf b ∧ Forall (λ e, stream_key path id e.1) b ∧
     (view s' = view s ∨ view s' = apply_ops (view s) (encode_batch b))) ∧
  (stream_ok s' st' a' ∨
   ∃ ops e, store_Commit s ops false = (s', Some e) ∧ st' = st ∧
     (view s' = view s ∨ stream_rep (view s') path sm a')).
Proof.
  intros Hok Httl Hroom. pose proof Hok as [Hrep [Hpath Hid' Hm Ht Hc] [Hp1 Hp2 Hp3] Hwf].
  pose proof (aw_deadline _ Hwf) as Hdl.
  pose proof (slideTTL_bounds (TTLSeconds sm) now _ Httl Hdl) as (Hd & Hpos & _).
  pose proof (ttlRefreshOps_slide st now a Hpath Hid' Hm Httl Hdl) as Hops. simpl.
  unfold refreshTTLOnRead. destruct (ttlRefreshOps st now) as [[st1 ops]|].
  2: { rewrite Hops. split; [exists []; split_and!; [constructor..|by left]|left; by destruct a]. }
  destruct Hops as (Hne & -> & ->). set (d := slideTTL _ _ _) in *.
  pose proof (refresh_rep (view s) a d Hrep Hwf Hd (Hpos Hne) Hne ltac:(lia)) as Hrep'.
  destruct (store_Commit s _ false) as [s' [e|]] eqn:Hcom.
  - apply Commit_atomic in Hcom as Hv. split; [|right; eexists _, e; split_and!; [done|done|]].
    + exists (refresh_batch a d). split_and!; [by apply refresh_batch_wf|apply refresh_batch_keys|done].
    + destruct Hv as [->| ->]; [by left|by right].
  - apply Commit_ok in Hcom as Hv. split; [|left; split].
    + exists (refresh_batch a d). split_and!; [by apply refresh_batch_wf|apply refresh_batch_keys|by right].
    + by rewrite Hv.
    + split; try done. by destruct Hc.
    + by split.
    + by destruct Hwf.
Qed.

(** ** Properties *)

(** C1: group commit is atomic and order-preserving. Whatever the store does, a
    burst either has exactly the effect and the replies of its appends performed
    one after another, durable before it is visible to readers and before it is
    acknowledged; or the write failed, and then the streamer and its readers are
    as before, the appends that would have taken effect get an error, the others
    the reply they would have had, and the store holds all of the burst or none
    of it. *)
Theorem processBurst_refines s st now a batch :
  reads_ok s → stream_ok s st a → burst_ok a now batch →
  let a' := (run now a batch).1 in
  let replies := (run now a batch).2 in
  let '(s', st', resps) := processBurst s st now batch in
  (stream_ok s' st' a' ∧ resps = replies) ∨
  (∃ ops e, store_Commit s ops true = (s', Some e) ∧
     mem_rep st' path sm a ∧ published st' a ∧
     resps = failAccepted replies (accepts now a batch) e ∧
     (view s' = view s ∨ stream_rep (view s') path sm a')).
Proof. apply syncCommit_rep. Qed.

(** Grouping is invisible. Over a streamer's whole life on a store that does
    not fail, the replies and the final state are those of the appends one at a
    time: how they were folded into bursts makes no difference. *)
Theorem bursts_refine_sequence s st a bursts :
  healthy s → stream_ok s st a →
  Forall (λ b, is_i64 b.1 ∧ ttl_in_range (TTLSeconds sm) b.1 ∧ Forall wf_req b.2) bursts →
  a_tail a + total_records (concat bursts.*2) < 2^63 →
  let '(s', st', resps) := processAll s st bursts in
  stream_ok s' st' (run_bursts a bursts).1 ∧ resps = (run_bursts a bursts).2.
Proof.
  intros Hh Hok Hf Hroom. pose proof (processAll_rep s st a bursts Hh Hok Hf Hroom) as Hc.
  destruct (processAll s st bursts) as [[??]?]. tauto.
Qed.

(** Streams do not interfere. A burst writes only its own stream's keys:
    every other key of the store keeps its value, committed or not, and every key
    stays in its family. *)
Theorem burst_isolation s st now a batch k :
  reads_ok s → stream_ok s st a → burst_ok a now batch → skey_wf k → ¬ stream_key path id k →
  let s' := (processBurst s st now batch).1.1 in
  view s' !! encode_skey k = view s !! encode_skey k ∧
  (keys_wf (view s) → keys_wf (view s')).
Proof.
  intros Hr Hok Hb Hk Hn. simpl.
  destruct (processBurst_batch s st now a batch) as (b & Hwf & Hkeys & ->); [done..|].
  split; [|intros; by apply keys_wf_apply_batch].
  rewrite apply_batch_lookup by done. rewrite batch_lookup_None; [done|].
  intros (e & -> & He)%list_elem_of_fmap. rewrite Forall_forall in Hkeys. auto.
Qed.


End refine.

(** ** A fresh stream, for the witnesses *)
Module FreshStream.
Definition meta : StreamMeta :=
  {| StreamID := 1; ContentType := ["t"%byte]; TTLSeconds := 0; ExpiresAt := 0;
     Closed := false; CreatedAtMs := 0; IsPrivate := false; Deadline := 0;
     ForkedFrom := 0; ForkOffset := 0; ForkByte := 0 |}.
Definition path : bytes := ["a"%byte].
Definition entries : batch :=
  [(KMeta path, Some (Marshal meta)); (KTail 1, Some (marshalTail 0 0))].
Definition store : fakeStore :=
  {| fake_data := apply_ops ∅ (encode_batch entries); fake_seq := 1; fake_closed := false |}.
Definition cfg : cacheConfig :=
  {| DisableLiveCache := false; LiveCacheMaxRecords := 512; LiveCacheMaxBytes := 1024 |}.
Definition st : streamer := newStreamer cfg path meta 0.
Definition state : astate :=
  {| a_base := 0; a_log := []; a_closed := false; a_deadline := 0; a_producers := ∅;
     a_writerSeq := [] |}.
Definition request : appendReq :=
  {| rq_records := [["x"%byte; "y"%byte]]; rq_hasBody := true; rq_contentType := ["t"%byte];
     rq_closeStream := true; rq_streamSeq := None;
     rq_producer := Some {| ph_id := ["p"%byte]; ph_epoch := 0; ph_seq := 0 |} |}.

Lemma entries_wf : batch_wf entries.
Proof. unfold entries, batch_wf. by forall_list. Qed.

Lemma lookup_absent k :
  skey_wf k → batch_lookup entries k = None → view store !! encode_skey k = None.
Proof.
  intros Hk Hn. change (view store) with (apply_ops ∅ (encode_batch entries)).
  rewrite apply_batch_lookup, Hn; [done|apply entries_wf|done].
Qed.

Lemma healthy_store : healthy store.
Proof. exact I. Qed.

Lemma meta_id_wf : is_u64 (StreamID meta).
Proof. done. Qed.

Lemma ok : stream_ok path meta store st state.
Proof.
  split.
  - split.
    + split_and!; [by split_and!|done|]. by vm_compute.
    + split; [done|]. exists 0. split; [done|by vm_compute].
    + done.
    + intros pid. at_key lookup_absent (KProducer (StreamID meta) pid); done.
    + at_key lookup_absent (KWriterSeq (StreamID meta)); done.
    + intros d Hd. at_key lookup_absent (KExpiry d (StreamID meta)); [|done|done].
      rewrite is_Some_alt. simpl. lia.
  - split; [done..|]. by split.
  - split; [done..|]. intros c [= <-]. exists 0, 0. split; [apply newLiveCache_holds|done].
  - split; [done|done|apply map_Forall_empty].
Qed.

Lemma burst : burst_ok meta state 100 [request].
Proof.
  split; [done|done|done|]. constructor; [|constructor]. by split.
Qed.

Lemma fresh_keys_wf : keys_wf (view store).
Proof. apply keys_wf_apply_batch; [apply keys_wf_empty|apply entries_wf]. Qed.
End FreshStream.

Lemma processBurst_refines_witness :
  let '(s', st', resps) :=
    processBurst FreshStream.store FreshStream.st 100 [FreshStream.request; FreshStream.request] in
  stream_ok FreshStream.path FreshStream.meta s' st'
    (spec_run ["t"%byte] 0 100 FreshStream.state [FreshStream.request; FreshStream.request]).1 ∨
  ∃ ops e, store_Commit FreshStream.store ops true = (s', Some e).
Proof.
  assert (burst_ok FreshStream.meta FreshStream.state 100 [FreshStream.request; FreshStream.request]).
  { split; [done|done|done|]. by repeat (constructor; [by split|]). }
  pose proof (processBurst_refines FreshStream.path FreshStream.meta FreshStream.meta_id_wf
    FreshStream.store FreshStream.st 100 FreshStream.state
    [FreshStream.request; FreshStream.request]
    (healthy_reads_ok _ FreshStream.healthy_store) FreshStream.ok ltac:(assumption)) as Ht.
  cbv zeta in Ht.
  destruct (processBurst _ _ _ _) as [[s' st'] resps].
  destruct Ht as [[? _]|(ops & e & ? & _)]; [by left|right; eauto].
Defined.

Lemma bursts_refine_sequence_witness :
  let '(s', st', resps) :=
    processAll FreshStream.store FreshStream.st [(100, [FreshStream.request]); (101, [FreshStream.request])] in
  stream_ok FreshStream.path FreshStream.meta s' st'
    (run_bursts FreshStream.meta FreshStream.state
       [(100, [FreshStream.request]); (101, [FreshStream.request])]).1 ∧
  (rs_status <$> resps) = [200; 204].
Proof.
  pose proof (bursts_refine_sequence FreshStream.path FreshStream.meta FreshStream.meta_id_wf
    FreshStream.store FreshStream.st FreshStream.state
    [(100, [FreshStream.request]); (101, [FreshStream.request])] FreshStream.healthy_store FreshStream.ok) as Ht.
  lapply Ht; [clear Ht; intros Ht; lapply Ht; [clear Ht; intros Ht|done]|].
  - destruct (processAll _ _ _) as [[s' st'] resps] eqn:E. destruct Ht as [? ->].
    split; [done|]. by vm_compute.
  - by repeat (constructor; [split_and!; [done|done|by constructor; [by split|]]|]).
Defined.

Lemma burst_isolation_witness :
  view (processBurst FreshStream.store FreshStream.st 100 [FreshStream.request]).1.1
    !! encode_skey (KTail 2) = view FreshStream.store !! encode_skey (KTail 2).
Proof.
  apply (burst_isolation FreshStream.path FreshStream.meta FreshStream.meta_id_wf
    FreshStream.store FreshStream.st 100 FreshStream.state);
    [apply healthy_reads_ok, FreshStream.healthy_store|apply FreshStream.ok|apply FreshStream.burst|done|done].
Defined.

