(* ===== verification/StreamLife.v ===== *)
(** * The life of a stream: exactly once, and append only

    What a client may rely on of the streamer (internal/ds/streamer.go), over any
    sequence of bursts and respawns: a producer's append takes effect at most once, also
    across respawns, its records are stored in place and in order, records stay where they
    are, and a closed stream is final. The statements are about [processBurst] and the
    flags of [planAll] on a store that does not fail; the proofs go through the
    specification of StreamSpec.v. *)

From S2P Require Import Prelude.
From S2P Require Import Bytes.
From S2P Require Import Keys.
From S2P Require Import Meta.
From S2P Require Import Offset.
From S2P Require Import Producer.
From S2P Require Import Storage.
From S2P Require Import Loads.
From S2P Require Import Batch.
From S2P Require Import Read.
From S2P Require Import LiveCache.
From S2P Require Import Streamer.
From S2P Require Import StreamSpec.
From S2P Require Import StreamerRefine.

(** ** Lives *)

(** A burst, or the streamer's retirement and its respawn from the store. *)
Inductive life_event : Type :=
| LBurst (now : Z) (batch : list appendReq)
| LRespawn (cfg : cacheConfig).

(** A request of a burst: whether it took effect, and its reply. *)
Record life_entry : Type := mkEntry { le_req : appendReq; le_took : bool; le_resp : appendResp }.

Definition entries_of (batch : list appendReq) (took : list bool) (resps : list appendResp) : list life_entry :=
  (λ x, mkEntry x.1.1 x.1.2 x.2) <$> zip (zip batch took) resps.

Section life.
  Context {S : Type} `{Storage S}.
  Implicit Types (s : S) (st : streamer).

(** What [getOrSpawn] makes of a stream that is not resident. *)
Definition respawn s st (cfg : cacheConfig) : streamer :=
  match loadMeta s (st_path st), loadTailSeq s (st_id st) with
  | Ok (Some meta), Ok tail => newStreamer cfg (st_path st) meta tail
  | _, _ => st
  end.

(** The flags are those the planner gives the requests of the burst. *)
Fixpoint stream_life s st (evs : list life_event) : S * streamer * list life_entry :=
  match evs with
  | [] => (s, st, [])
  | LBurst now batch :: evs =>
      let took := (planAll s st (startPending st now) batch).2 in
      let '(s1, st1, resps) := processBurst s st now batch in
      let '(s2, st2, more) := stream_life s1 st1 evs in
      (s2, st2, entries_of batch took resps ++ more)
  | LRespawn cfg :: evs => stream_life s (respawn s st cfg) evs
  end.

End life.

(** The requests of a life, with their times. *)
Definition life_steps (evs : list life_event) : list (Z * appendReq) :=
  evs ≫= λ ev, match ev with LBurst now batch => (now,.) <$> batch | LRespawn _ => [] end.

(** The records that were taken. *)
Definition taken_records (L : list life_entry) : list bytes :=
  concat ((λ x, if le_took x then rq_records (le_req x) else []) <$> L).

(** Of two requests of one producer that took effect, the later is at a later position: a
    higher epoch, or the same epoch and a higher sequence number. *)
Definition producers_advance (L : list life_entry) : Prop :=
  ∀ i j x y h h', (i < j)%nat → L !! i = Some x → L !! j = Some y →
    le_took x = true → le_took y = true →
    rq_producer (le_req x) = Some h → rq_producer (le_req y) = Some h' → ph_id h = ph_id h' →
    ph_epoch h < ph_epoch h' ∨ (ph_epoch h = ph_epoch h' ∧ ph_seq h < ph_seq h').

(** ** Lemmas: the specification, step by step *)

Section steps.
  Context (contentType : bytes) (ttl : Z).
  Local Abbreviation spec_effect := (spec_effect contentType ttl).
  Local Abbreviation spec_append := (spec_append contentType ttl).
  Local Abbreviation takes_effect := (takes_effect contentType ttl).
  Local Abbreviation spec_run := (spec_run contentType ttl).
  Local Abbreviation spec_accepted := (spec_accepted contentType ttl).

Fixpoint spec_steps (a : astate) (steps : list (Z * appendReq)) : astate * list life_entry :=
  match steps with
  | [] => (a, [])
  | (now, req) :: steps =>
      let '(a1, resp) := spec_append now a req in
      let '(a2, more) := spec_steps a1 steps in
      (a2, mkEntry req (takes_effect now a req) resp :: more)
  end.

Lemma spec_steps_app a l1 l2 :
  spec_steps a (l1 ++ l2) =
  let '(a1, m1) := spec_steps a l1 in let '(a2, m2) := spec_steps a1 l2 in (a2, m1 ++ m2).
Proof.
  revert a. induction l1 as [|[now req] l1 IH]; intros a; simpl; [by destruct (spec_steps a l2)|].
  destruct (spec_append now a req) as [a1 o]. rewrite IH.
  destruct (spec_steps a1 l1) as [a2 m1]. by destruct (spec_steps a2 l2).
Qed.

Lemma spec_steps_burst now batch a :
  spec_steps a ((now,.) <$> batch) =
  ((spec_run now a batch).1, entries_of batch (spec_accepted now a batch) (spec_run now a batch).2).
Proof.
  revert a. induction batch as [|req batch IH]; intros a; [done|]. rewrite fmap_cons. simpl.
  destruct (spec_append now a req) as [a1 o]. rewrite IH. simpl. by destruct (spec_run now a1 batch).
Qed.

Definition steps_wf (steps : list (Z * appendReq)) : Prop := Forall (λ x, wf_req x.2) steps.

(** Once reached, a position is passed by every later request that takes effect. *)
Lemma steps_pass steps : ∀ a pid e q,
  map_Forall (λ _, wf_producerState) (a_producers a) → steps_wf steps → reached a pid e q →
  ∀ j y h, (spec_steps a steps).2 !! j = Some y → le_took y = true → rq_producer (le_req y) = Some h →
    ph_id h = pid → e < ph_epoch h ∨ (e = ph_epoch h ∧ q < ph_seq h).
Proof.
  induction steps as [|[now req] steps IH]; intros a pid e q Ha Hw Hreach j y h; [done|].
  apply Forall_cons in Hw as [Hreq Hw]. simpl in Hreq. simpl.
  pose proof (spec_append_wf contentType ttl now a req Ha Hreq) as Ha1.
  pose proof (spec_append_reached contentType ttl now a req pid e q Ha Hreq Hreach) as Hr1.
  destruct (spec_append now a req) as [a1 o]. simpl in Ha1, Hr1. specialize (IH a1 pid e q Ha1 Hw Hr1).
  destruct (spec_steps a1 steps) as [a2 more]. destruct j as [|j]; [|by apply (IH j)].
  intros [= <-] Htook Hh <-. simpl in *. unfold StreamSpec.takes_effect in Htook.
  destruct (spec_effect now a req) as [|a'] eqn:E; [done|]. unfold wf_req in Hreq. rewrite Hh in Hreq.
  eapply accepted_passes; [exact Ha|exact Hh|exact Hreq|exact E|]. exact Hreach.
Qed.

Lemma steps_advance steps : ∀ a,
  map_Forall (λ _, wf_producerState) (a_producers a) → steps_wf steps →
  producers_advance (spec_steps a steps).2.
Proof.
  induction steps as [|[now req] steps IH]; intros a Ha Hw; [by intros ???????|].
  apply Forall_cons in Hw as [Hreq Hw]. simpl in Hreq. simpl.
  pose proof (spec_append_wf contentType ttl now a req Ha Hreq) as Ha1.
  destruct (spec_append now a req) as [a1 o] eqn:Ea. simpl in Ha1. specialize (IH a1 Ha1 Hw).
  pose proof (steps_pass steps a1) as Hpass.
  destruct (spec_steps a1 steps) as [a2 more]. intros [|i] [|j] x y h h' Hlt; simpl; try lia.
  - intros [= <-] Hj Hx Hy Hh Hh' Hid. simpl in *. unfold StreamSpec.takes_effect in Hx.
    unfold StreamSpec.spec_append in Ea. destruct (spec_effect now a req) as [|a'] eqn:E; [done|].
    injection Ea as -> _. unfold wf_req in Hreq. rewrite Hh in Hreq.
    eapply (Hpass (ph_id h)); [done|done| |exact Hj|done|exact Hh'|done].
    eapply spec_effect_reached; [exact Ha|exact Hh|exact Hreq|exact E].
  - intros Hi Hj. apply (IH i j x y h h'); [lia|done..].
Qed.

(** The log grows by the records of the requests that take effect. *)
Lemma steps_log steps : ∀ a,
  let '(a', L) := spec_steps a steps in
  a_base a' = a_base a ∧ a_log a' = a_log a ++ taken_records L.
Proof.
  induction steps as [|[now req] steps IH]; intros a; simpl; [by rewrite app_nil_r|].
  unfold StreamSpec.spec_append, StreamSpec.takes_effect.
  destruct (spec_effect now a req) as [r|a1] eqn:E.
  - specialize (IH a). destruct (spec_steps a steps) as [a2 more]. by destruct IH as [-> ->].
  - apply spec_effect_accept in E as (_ & (prods & _ & ->) & _).
    specialize (IH (spec_accept ttl now a req prods)). destruct (spec_steps _ steps) as [a2 more].
    destruct IH as [-> ->]. split; [done|]. unfold taken_records. simpl. by rewrite <-app_assoc.
Qed.

(** Nothing takes effect on a closed stream. *)
Lemma steps_closed steps a :
  a_closed a = true →
  (spec_steps a steps).1 = a ∧
  Forall (λ x, le_took x = false ∧ rs_status (le_resp x) ∈ [204; 409]) (spec_steps a steps).2.
Proof.
  intros Hc. induction steps as [|[now req] steps IH]; simpl; [done|].
  unfold StreamSpec.spec_append, StreamSpec.takes_effect.
  assert (spec_effect now a req = inl (spec_closed a req)) as -> by (unfold StreamSpec.spec_effect; by rewrite Hc).
  destruct (spec_steps a steps) as [a2 more]. simpl in *. destruct IH as [-> IH]. split; [done|]. constructor; [|done].
  split; [done|apply spec_closed_status].
Qed.

Lemma steps_wf_preserved steps : ∀ a,
  map_Forall (λ _, wf_producerState) (a_producers a) → steps_wf steps →
  map_Forall (λ _, wf_producerState) (a_producers (spec_steps a steps).1).
Proof.
  induction steps as [|[now req] steps IH]; intros a Ha Hw; simpl; [done|].
  apply Forall_cons in Hw as [Hreq Hw]. simpl in Hreq.
  pose proof (spec_append_wf contentType ttl now a req Ha Hreq) as Ha1.
  destruct (spec_append now a req) as [a1 o]. specialize (IH a1 Ha1 Hw). by destruct (spec_steps a1 steps).
Qed.

(** Right after an append took effect, its retransmission is refused as a duplicate. *)
Lemma steps_retry steps : ∀ a x h now,
  map_Forall (λ _, wf_producerState) (a_producers a) → steps_wf steps →
  last (spec_steps a steps).2 = Some x → le_took x = true →
  rq_producer (le_req x) = Some h → rq_hasBody (le_req x) = true →
  let a' := (spec_steps a steps).1 in
  takes_effect now a' (le_req x) = false ∧
  spec_append now a' (le_req x) =
    (a', resp_tail 204 (a_tail a') (a_closed a') (Some (ph_epoch h)) (Some (ph_seq h))).
Proof.
  induction steps as [|[now0 req] steps IH]; intros a x h now Ha Hw Hl Ht Hh Hb; [done|].
  apply Forall_cons in Hw as [Hreq Hw]. simpl in Hreq. simpl in *.
  pose proof (spec_append_wf contentType ttl now0 a req Ha Hreq) as Ha1.
  destruct (spec_append now0 a req) as [a1 o] eqn:Ea. simpl in Ha1.
  destruct steps as [|step steps].
  - simpl in *. injection Hl as <-. simpl in *. unfold StreamSpec.takes_effect in Ht.
    unfold StreamSpec.spec_append in Ea. destruct (spec_effect now0 a req) as [|a'] eqn:E; [done|].
    injection Ea as -> _. unfold wf_req in Hreq. rewrite Hh in Hreq.
    assert (spec_append now a1 req
      = (a1, resp_tail 204 (a_tail a1) (a_closed a1) (Some (ph_epoch h)) (Some (ph_seq h)))) as Er
      by (eapply spec_retry; [exact Ha|exact Hh|exact Hreq|exact Hb|exact E]). split; [|done].
    destruct (reached_refused contentType ttl now a1 req h) as [resp Hr];
      [done..|eapply spec_effect_reached; [exact Ha|exact Hh|exact Hreq|exact E]|]. unfold StreamSpec.takes_effect. by rewrite Hr.
  - specialize (IH a1 x h now Ha1 Hw). destruct (spec_steps a1 (step :: steps)) as [a2 more] eqn:E.
    simpl in *. apply IH; try done. destruct more; [|done].
    destruct step as [now1 req1]. simpl in E. destruct (spec_append now1 a1 req1).
    destruct (spec_steps _ steps). done.
Qed.

End steps.

(** ** Lemmas: the streamer *)

Section refined.
  Context {S : Type} `{StorageLaws S}.
  Context (path : bytes) (sm : StreamMeta).
  Implicit Types (s : S) (st : streamer) (a : astate).
  Local Abbreviation id := (StreamID sm).
  Local Abbreviation steps := (spec_steps (ContentType sm) (TTLSeconds sm)).
  Hypothesis Hid : is_u64 (StreamID sm).

(** What is assumed of a life: times in range, well-formed headers. *)
Definition event_in_range (ev : life_event) : Prop :=
  match ev with
  | LBurst now batch => is_i64 now ∧ ttl_in_range (TTLSeconds sm) now ∧ Forall wf_req batch
  | LRespawn _ => True
  end.

(** A request that does not take effect leaves the pending burst alone. *)
Lemma planAppend_refused s st pend req :
  let '(_, pend', _, took) := planAppend s st pend req in took = false → pend' = pend.
Proof. unfold planAppend, planAppendClosed. repeat case_match; simplify_eq; done. Qed.

Lemma planAll_refused s batch : ∀ st pend,
  let '(_, pend', _, took) := planAll s st pend batch in Forall (λ b, b = false) took → pend' = pend.
Proof.
  induction batch as [|req batch IH]; intros st pend; simpl; [done|].
  pose proof (planAppend_refused s st pend req) as Hr.
  destruct (planAppend s st pend req) as [[[st1 p1] r] took]. specialize (IH st1 p1).
  destruct (planAll s st1 p1 batch) as [[[st2 p2] rs] tooks]. intros [-> Ht]%Forall_cons.
  rewrite (IH Ht). by apply Hr.
Qed.

Lemma closeAccepted_refused batch took : Forall (λ b, b = false) took → closeAccepted batch took = false.
Proof.
  intros Ht. unfold closeAccepted. revert batch. induction Ht as [|b took -> _ IH]; intros [|req batch]; try done.
  simpl. rewrite andb_false_r. apply IH.
Qed.

(** A burst none of whose requests takes effect does not touch the store. *)
Lemma processBurst_refused s st now batch a :
  reads_ok s → stream_ok path sm s st a → burst_ok sm a now batch →
  Forall (λ b, b = false) (planAll s st (startPending st now) batch).2 →
  (processBurst s st now batch).1.1 = s.
Proof.
  intros Hr [Hrep Hmem _ Hwf] [Hnow Httl Hroom Hreqs] Ht.
  pose proof (startPending_rep path sm st now a Hmem) as Hp0.
  destruct Hmem as [Hpath Hid' Hm Htl Hc].
  destruct (planAll_rep path sm Hid s now a batch st (startPending st now) a)
    as (st' & pend & E & _ & Hlo & _); [done..|lia|].
  pose proof (planAll_refused s batch st (startPending st now)) as Hp.
  unfold processBurst, planBurst. rewrite E in *. rewrite (Hp Ht), (closeAccepted_refused _ _ Ht). simpl in *.
  rewrite (lo_meta _ _ Hlo). rewrite bool_decide_false by (by intros []). by rewrite decide_True.
Qed.

Lemma newStreamer_rep cfg a :
  astate_wf a → a_tail a < 2^63 →
  let st := newStreamer cfg path (meta_with sm (a_closed a) (a_deadline a)) (a_tail a) in
  mem_rep st path sm a ∧ published st a.
Proof.
  intros [Hb _ _] Ht. unfold a_tail in Ht. split.
  - by split.
  - split; [done..|]. intros c Hc. simpl in Hc. case_decide; [|done]. apply (inj Some) in Hc as <-.
    exists (a_base a), (a_base a). split; [|unfold a_tail; lia].
    split; [lia|by rewrite seqZ_nil by lia|by rewrite size_nil by lia].
Qed.

(** A streamer made anew from the store is as good as the old one. *)
Lemma respawn_ok s st a cfg :
  reads_ok s → stream_ok path sm s st a → a_tail a < 2^63 → stream_ok path sm s (respawn s st cfg) a.
Proof.
  intros Hr [Hrep Hmem Hpub Hwf] Ht. pose proof (sr_meta _ _ _ _ Hrep) as (Hwm & Hct & Hm).
  pose proof (sr_tail _ _ _ _ Hrep) as (Hu & upd & Hupd & Htl).
  unfold respawn, loadMeta, loadTailSeq. rewrite (mr_path _ _ _ _ Hmem), (mr_id _ _ _ _ Hmem).
  rewrite !reads_ok_get by done. simpl. rewrite Hm, Htl. simpl.
  rewrite unmarshalMeta_Marshal by done. rewrite unmarshalTail_marshalTail by done. simpl.
  destruct (newStreamer_rep cfg a Hwf Ht) as [? ?]. by split.
Qed.

Lemma processBurst_took s st now a batch :
  reads_ok s → stream_ok path sm s st a → burst_ok sm a now batch →
  (planAll s st (startPending st now) batch).2 = spec_accepted (ContentType sm) (TTLSeconds sm) now a batch.
Proof.
  intros Hr [Hrep Hmem _ Hwf] [Hnow Httl Hroom Hreqs].
  pose proof (startPending_rep path sm st now a Hmem) as Hp0. destruct Hmem as [Hpath Hid' Hm Htl Hc].
  destruct (planAll_rep path sm Hid s now a batch st (startPending st now) a) as (st' & pend & -> & _); [done..|lia|done].
Qed.

Lemma life_steps_room now batch evs :
  total_records (life_steps (LBurst now batch :: evs)).*2 = total_records batch + total_records (life_steps evs).*2.
Proof.
  change (life_steps (LBurst now batch :: evs)) with (((now,.) <$> batch) ++ life_steps evs).
  rewrite fmap_app, <-list_fmap_compose. unfold compose. simpl. rewrite list_fmap_id.
  unfold total_records. rewrite fmap_app, concat_app, length_app. lia.
Qed.

(** The life of the streamer is that of the specification. *)
Lemma stream_life_rep evs : ∀ s st a,
  healthy s → stream_ok path sm s st a → Forall event_in_range evs →
  a_tail a + total_records (life_steps evs).*2 < 2^63 →
  let '(s', st', L) := stream_life s st evs in
  stream_ok path sm s' st' (steps a (life_steps evs)).1 ∧ L = (steps a (life_steps evs)).2 ∧ healthy s'.
Proof.
  induction evs as [|[now batch|cfg] evs IH]; intros s st a Hh Hok Hf Hroom; [done| |];
    apply Forall_cons in Hf as [Hev Hf].
  - destruct Hev as (Hnow & Httl & Hreqs). cbn [stream_life].
    rewrite life_steps_room in Hroom. pose proof (total_records_nonneg (life_steps evs).*2).
    change (life_steps (LBurst now batch :: evs)) with (((now,.) <$> batch) ++ life_steps evs).
    assert (Hb : burst_ok sm a now batch) by (split; [done..|lia|done]).
    rewrite (processBurst_took s st now a batch) by (done || by apply healthy_reads_ok).
    pose proof (processBurst_healthy_rep path sm Hid s st now a batch Hh Hok Hb) as Hstep.
    pose proof (processBurst_healthy s st now batch Hh) as Hh'.
    pose proof (spec_run_tail (ContentType sm) (TTLSeconds sm) now a batch) as Htl.
    destruct (processBurst s st now batch) as [[s1 st1] resps]. destruct Hstep as [Hok1 ->].
    specialize (IH s1 st1 _ Hh' Hok1 Hf ltac:(lia)).
    rewrite spec_steps_app, spec_steps_burst.
    destruct (stream_life s1 st1 evs) as [[s2 st2] more].
    destruct (steps _ (life_steps evs)) as [a2 more2]. simpl in *. destruct IH as (? & -> & ?). by split_and!.
  - cbn [stream_life]. change (life_steps (LRespawn cfg :: evs)) with (life_steps evs) in *.
    apply IH; [done| |done|done]. pose proof (total_records_nonneg (life_steps evs).*2).
    apply respawn_ok; [by apply healthy_reads_ok|done|lia].
Qed.

Lemma life_steps_wf evs : Forall event_in_range evs → steps_wf (life_steps evs).
Proof.
  intros Hf. unfold steps_wf, life_steps. apply Forall_bind. eapply Forall_impl; [exact Hf|].
  intros [now batch|cfg]; [|constructor]. intros (_ & _ & Hr). by apply Forall_fmap.
Qed.

(** The store of a closed stream does not change. *)
Lemma stream_life_closed evs : ∀ s st a,
  healthy s → stream_ok path sm s st a → Forall event_in_range evs →
  a_tail a + total_records (life_steps evs).*2 < 2^63 →
  a_closed a = true → (stream_life s st evs).1.1 = s.
Proof.
  induction evs as [|[now batch|cfg] evs IH]; intros s st a Hh Hok Hf Hroom Hc; [done| |];
    apply Forall_cons in Hf as [Hev Hf]; cbn [stream_life].
  - destruct Hev as (Hnow & Httl & Hreqs).
    rewrite life_steps_room in Hroom. pose proof (total_records_nonneg (life_steps evs).*2).
    pose proof (total_records_nonneg batch).
    assert (Hb : burst_ok sm a now batch) by (split; [done..|lia|done]).
    pose proof (processBurst_refused s st now batch a (healthy_reads_ok _ Hh) Hok Hb) as Hs.
    rewrite (processBurst_took s st now a batch (healthy_reads_ok _ Hh) Hok Hb) in Hs.
    pose proof (processBurst_healthy_rep path sm Hid s st now a batch Hh Hok Hb) as Hstep.
    rewrite spec_run_closed in Hstep by done.
    destruct (processBurst s st now batch) as [[s1 st1] resps]. simpl in Hs. destruct Hstep as [Hok1 _].
    assert (s1 = s) as ->.
    { apply Hs. clear -Hc. induction batch as [|req batch IHb]; simpl; constructor.
      - unfold takes_effect, spec_effect. by rewrite Hc.
      - unfold spec_append, spec_effect. by rewrite Hc. }
    specialize (IH s st1 a Hh Hok1 Hf ltac:(lia) Hc). by destruct (stream_life s st1 evs) as [[s2 st2] more].
  - change (life_steps (LRespawn cfg :: evs)) with (life_steps evs) in *.
    pose proof (total_records_nonneg (life_steps evs).*2).
    apply (IH s _ a); [done| |done..]. apply respawn_ok; [by apply healthy_reads_ok|done|lia].
Qed.

(** ** Properties *)

(** C10: exactly once, on the streamer. Over any sequence of bursts and of respawns of the
    streamer from its store, the requests of one producer that take effect are at strictly
    increasing positions (epoch, then sequence number), so no retransmission of one ever
    takes effect again, whatever comes in between; the tail moves by exactly the records
    of the requests that took effect, and each of them is in the store, in order, each
    at its own sequence number; and a retransmission that comes right after its append is
    acknowledged with 204, the same producer position and the tail, also when the append
    closed the stream, and changes nothing. *)
Theorem append_exactly_once s st a evs :
  healthy s → stream_ok path sm s st a → Forall event_in_range evs →
  a_tail a + total_records (life_steps evs).*2 < 2^63 →
  let '(s', st', L) := stream_life s st evs in
  let new := taken_records L in
  producers_advance L ∧
  st_writeTail st' = st_writeTail st + len new ∧ st_tail st' = st_writeTail st' ∧
  (∀ i r, new !! i = Some r →
     view s' !! recordKey id (st_writeTail st + Z.of_nat i) = Some (marshalRecord recFlagNone r)) ∧
  (∀ x h now, last L = Some x → le_took x = true → rq_producer (le_req x) = Some h →
     rq_hasBody (le_req x) = true → event_in_range (LBurst now [le_req x]) →
     st_writeTail st' + len (rq_records (le_req x)) < 2^63 →
     let '(s2, st2, resps) := processBurst s' st' now [le_req x] in
     resps = [resp_tail 204 (st_writeTail st') (st_closed st') (Some (ph_epoch h)) (Some (ph_seq h))] ∧
     s2 = s' ∧ st_writeTail st2 = st_writeTail st' ∧ st_tail st2 = st_tail st').
Proof.
  intros Hh Hok Hf Hroom. pose proof (stream_life_rep evs s st a Hh Hok Hf Hroom) as Hlife.
  destruct (stream_life s st evs) as [[s' st'] L]. destruct Hlife as (Hok' & -> & Hh').
  pose proof (life_steps_wf evs Hf) as Hw. pose proof (aw_producers _ (so_wf _ _ _ _ _ Hok)) as Hp.
  pose proof (steps_log (ContentType sm) (TTLSeconds sm) (life_steps evs) a) as Hlog.
  pose proof (steps_advance (ContentType sm) (TTLSeconds sm) (life_steps evs) a Hp Hw) as Hadv.
  pose proof (steps_retry (ContentType sm) (TTLSeconds sm) (life_steps evs) a) as Hretry.
  destruct (steps a (life_steps evs)) as [a' L]. destruct Hlog as [Hbase Hlog]. simpl in *.
  pose proof Hok' as [Hrep' Hmem' Hpub' _]. pose proof Hok as [_ Hmem _ _].
  pose proof (mr_writeTail _ _ _ _ Hmem') as Hwt'. pose proof (mr_writeTail _ _ _ _ Hmem) as Hwt.
  assert (Ht' : a_tail a' = a_tail a + len (taken_records L))
    by (unfold a_tail; rewrite Hbase, Hlog, length_app; lia).
  split_and!; [done|lia|rewrite (pb_tail _ _ Hpub'); done| |].
  - intros i r Hi. rewrite Hwt. unfold a_tail.
    replace (a_base a + len (a_log a) + Z.of_nat i) with (a_base a' + Z.of_nat (length (a_log a) + i)%nat) by lia.
    apply (sr_records _ _ _ _ Hrep'). rewrite Hlog, lookup_app_r by lia. by replace (_ + i - _)%nat with i by lia.
  - intros x h now Hx Htook Hhd Hbody (Hnow & Httl & Hreqs) Hr.
    destruct (Hretry x h now Hp Hw Hx Htook Hhd Hbody) as [Hno Hresp].
    assert (Hb : burst_ok sm a' now [le_req x]).
    { split; [done..| |done]. rewrite total_records_cons. unfold total_records. simpl. lia. }
    pose proof (processBurst_healthy_rep path sm Hid s' st' now a' [le_req x] Hh' Hok' Hb) as Hburst.
    pose proof (processBurst_refused s' st' now [le_req x] a' (healthy_reads_ok _ Hh') Hok' Hb) as Hsame.
    rewrite (processBurst_took s' st' now a' [le_req x] (healthy_reads_ok _ Hh') Hok' Hb) in Hsame.
    simpl in Hburst, Hsame. rewrite Hno in Hsame. rewrite Hresp in Hburst.
    destruct (processBurst s' st' now [le_req x]) as [[s2 st2] resps]. simpl in *.
    destruct Hburst as [[_ Hm2 Hp2 _] ->]. rewrite Hwt', (pb_closed _ _ Hpub').
    split_and!; [done|by apply Hsame; constructor|apply Hm2|].
    by rewrite (pb_tail _ _ Hp2), (pb_tail _ _ Hpub').
Qed.

(** C31: a stream only grows, and once closed it is final. Over any sequence of bursts and
    respawns no record is changed or removed: every record the store had below the tail is
    there unchanged, and neither tail moves back; a closed stream stays closed, takes
    nothing, answers every request 204 or 409, and not even its store changes. *)
Theorem append_only s st a evs :
  healthy s → stream_ok path sm s st a → Forall event_in_range evs →
  a_tail a + total_records (life_steps evs).*2 < 2^63 →
  let '(s', st', L) := stream_life s st evs in
  (∀ q, a_base a ≤ q < st_writeTail st →
     is_Some (view s !! recordKey id q) ∧ view s' !! recordKey id q = view s !! recordKey id q) ∧
  st_writeTail st ≤ st_writeTail st' ∧ st_tail st ≤ st_tail st' ∧
  (st_closed st = true →
     st_closed st' = true ∧ s' = s ∧ st_writeTail st' = st_writeTail st ∧ st_tail st' = st_tail st ∧
     Forall (λ x, le_took x = false ∧ rs_status (le_resp x) ∈ [204; 409]) L).
Proof.
  intros Hh Hok Hf Hroom. pose proof (stream_life_rep evs s st a Hh Hok Hf Hroom) as Hlife.
  pose proof (stream_life_closed evs s st a Hh Hok Hf Hroom) as Hsame.
  rewrite <-(pb_closed _ _ (so_readers _ _ _ _ _ Hok)) in Hsame.
  destruct (stream_life s st evs) as [[s' st'] L]. destruct Hlife as (Hok' & -> & Hh').
  pose proof (steps_log (ContentType sm) (TTLSeconds sm) (life_steps evs) a) as Hlog.
  pose proof (steps_closed (ContentType sm) (TTLSeconds sm) (life_steps evs) a) as Hclosed.
  destruct (steps a (life_steps evs)) as [a' L]. destruct Hlog as [Hbase Hlog]. simpl in *.
  pose proof Hok' as [Hrep' Hmem' Hpub' _]. pose proof Hok as [Hrep Hmem Hpub _].
  rewrite (mr_writeTail _ _ _ _ Hmem'), (mr_writeTail _ _ _ _ Hmem), (pb_tail _ _ Hpub'), (pb_tail _ _ Hpub),
    (pb_closed _ _ Hpub'), (pb_closed _ _ Hpub) in *.
  assert (Ht' : a_tail a' = a_tail a + len (taken_records L))
    by (unfold a_tail; rewrite Hbase, Hlog, length_app; lia).
  split_and!; [|lia..|].
  - intros q Hq. unfold a_tail in Hq.
    destruct (lookup_lt_is_Some_2 (a_log a) (Z.to_nat (q - a_base a))) as [r Hr]; [lia|].
    pose proof (sr_records _ _ _ _ Hrep _ _ Hr) as H1. unfold stored_record in H1.
    pose proof (sr_records _ _ _ _ Hrep' (Z.to_nat (q - a_base a)) r) as H2. unfold stored_record in H2.
    rewrite Hlog, lookup_app_l in H2 by (by eapply lookup_lt_Some). specialize (H2 Hr).
    rewrite Hbase in H2. replace (a_base a + Z.of_nat (Z.to_nat (q - a_base a))) with q in H1, H2 by lia.
    by rewrite H1, H2.
  - intros Hc. destruct (Hclosed Hc) as [-> ?]. by split_and!; [|apply Hsame|..].
Qed.

End refined.

(** ** Witnesses *)

Module LifeRun.
(** An append that closes the stream, its retransmission, a respawn, another retransmission. *)
Definition evs : list life_event :=
  [LBurst 100 [FreshStream.request; FreshStream.request]; LRespawn FreshStream.cfg; LBurst 101 [FreshStream.request]].
Lemma in_range : Forall (event_in_range FreshStream.meta) evs.
Proof. repeat constructor; done. Qed.
End LifeRun.

Lemma append_exactly_once_witness :
  let '(s', st', L) := stream_life FreshStream.store FreshStream.st LifeRun.evs in
  (le_took <$> L) = [true; false; false] ∧ st_writeTail st' = 1 ∧
  view s' !! recordKey 1 0 = Some (marshalRecord recFlagNone ["x"%byte; "y"%byte]).
Proof.
  pose proof (append_exactly_once FreshStream.path FreshStream.meta FreshStream.meta_id_wf
    FreshStream.store FreshStream.st FreshStream.state LifeRun.evs FreshStream.healthy_store FreshStream.ok
    LifeRun.in_range eq_refl) as Ht.
  assert (Hc : (le_took <$> (stream_life FreshStream.store FreshStream.st LifeRun.evs).2) = [true; false; false] ∧
    taken_records (stream_life FreshStream.store FreshStream.st LifeRun.evs).2 = [["x"%byte; "y"%byte]])
    by (vm_compute; split; reflexivity).
  destruct (stream_life FreshStream.store FreshStream.st LifeRun.evs) as [[s' st'] L].
  cbn [snd] in Hc. destruct Hc as [Hc Hr]. cbv zeta in Ht. rewrite Hr in Ht.
  destruct Ht as (_ & Htl & _ & Hrec & _). split; [exact Hc|]. split; [exact Htl|].
  exact (Hrec 0%nat _ eq_refl).
Defined.

Lemma append_only_witness :
  let '(_, st', L) := stream_life FreshStream.store FreshStream.st LifeRun.evs in
  st_writeTail FreshStream.st ≤ st_writeTail st' ∧ st_tail FreshStream.st ≤ st_tail st'.
Proof.
  pose proof (append_only FreshStream.path FreshStream.meta FreshStream.meta_id_wf
    FreshStream.store FreshStream.st FreshStream.state LifeRun.evs FreshStream.healthy_store FreshStream.ok
    LifeRun.in_range eq_refl) as Ht.
  destruct (stream_life FreshStream.store FreshStream.st LifeRun.evs) as [[s' st'] L].
  destruct Ht as (_ & H1 & H2 & _). split; [exact H1|exact H2].
Defined.
