(* ===== verification/Committer.v ===== *)
(** * The shared committer and the durability notifier (internal/ds/commit.go, durability.go)

    In notifier mode a streamer hands its planned burst to one shared queue. A
    flush goroutine folds the queued bursts of all streams into one asynchronous
    commit and subscribes each to the notifier; the poller runs the callbacks of
    the bursts that have become durable, which publish them to readers and
    acknowledge them. The operations are functions; [step] interleaves the
    goroutines: streamers, flusher, poller (its look at the waiters, the call of
    [DurableSeq] and what it makes of the answer are steps of their own), shutdown,
    parked readers, and the engine with its other writers. [w_batches] keeps the
    batches the engine took with the numbers it gave them, [w_polls] the watermarks
    it reported. *)

From S2P Require Import Prelude.
From S2P Require Import Bytes.
From S2P Require Import Keys.
From S2P Require Import Meta.
From S2P Require Import Producer.
From S2P Require Import Storage.
From S2P Require Import Batch.
From S2P Require Import Streamer.
From S2P Require Import StreamSpec.
From S2P Require Import StreamerRefine.

(** ** State *)

(** [job_id] is the position of the job in the order of submission (the source
    has no such field: it only names the job); [job_st] is the streamer's
    address. *)
Record commitJob : Type := mkCommitJob {
  job_id : Z;
  job_st : Z;
  job_c : commitBurst;
  job_targetTail : Z;
  job_targetClosed : bool }.

Record sharedCommitter : Type := mkSharedCommitter {
  sc_batchMax : nat;
  sc_pending : list commitJob;
  sc_flushing : bool;
  sc_closed : bool }.

(** A waiter's callback is the closure over its job. *)
Record durWaiter : Type := mkDurWaiter { target : Z; cb : commitJob }.

Record durabilityNotifier : Type := mkDurabilityNotifier {
  dn_waiters : list durWaiter;
  dn_lastDurable : Z;
  dn_closed : bool }.

(** Where the flush goroutine is: not running, about to call [CommitAsync], or
    subscribing the jobs of a batch that got sequence number [seq]. *)
Inductive flusher : Type :=
| FIdle
| FCommit (jobs : list commitJob)
| FSubscribe (seq : Z) (jobs : list commitJob).

(** Where the poller is: waiting for its ticker or a wake, about to ask the engine, or
    about to act on the answer it got. *)
Inductive poller : Type :=
| PIdle
| PAsk
| PGot (r : result Z).

(** A finished job: the error its callback was given, and for a success the
    target it waited for. *)
Record outcome : Type := mkOutcome { oc_job : commitJob; oc_err : option error; oc_target : Z }.

Record world (S : Type) : Type := mkWorld {
  w_store : S;
  w_streamers : gmap Z streamer;
  w_sc : sharedCommitter;
  w_dn : durabilityNotifier;
  w_flush : flusher;
  w_firing : list (durWaiter * option error);  (** callbacks the poller has taken and not run *)
  w_done : list outcome;                       (** the replies sent, in order *)
  w_nextJob : Z;
  w_poll : poller;
  w_lastSeq : Z;                               (** the last sequence number of the engine *)
  w_batches : list (Z * list commitJob);       (** the batches the engine took, with the number it gave each *)
  w_polls : list Z }.                          (** the durable watermarks the engine reported *)
Arguments mkWorld {S}.
Arguments w_store {S}. Arguments w_streamers {S}. Arguments w_sc {S}. Arguments w_dn {S}.
Arguments w_flush {S}. Arguments w_firing {S}. Arguments w_done {S}. Arguments w_nextJob {S}.
Arguments w_poll {S}. Arguments w_lastSeq {S}. Arguments w_batches {S}. Arguments w_polls {S}.

(** The jobs whose batch reached the engine. *)
Definition w_applied {S} (w : world S) : list commitJob := concat (w_batches w).*2.

(** Live readers come and go. *)
Definition set_parked (longPoll sse : Z) (st : streamer) : streamer :=
  {| st_path := st_path st; st_id := st_id st; st_isJSON := st_isJSON st;
     st_forkedFrom := st_forkedFrom st; st_forkOffset := st_forkOffset st;
     st_meta := st_meta st; st_producers := st_producers st;
     st_producerLoaded := st_producerLoaded st; st_writerSeq := st_writerSeq st;
     st_writerSeqLoaded := st_writerSeqLoaded st; st_writeTail := st_writeTail st;
     st_pending := st_pending st; st_tail := st_tail st; st_closed := st_closed st;
     st_longPollReaders := longPoll; st_sseReaders := sse; st_cache := st_cache st;
     st_wakes := st_wakes st |}.

(** ** The notifier *)

(** [sort.Search]: binary search for the smallest index in [i, j) at which [f]
    holds, [f] being monotone. *)
Fixpoint sort_Search (fuel : nat) (f : nat → bool) (i j : nat) : nat :=
  match fuel with
  | O => i
  | S n =>
      if decide (i < j)%nat then
        let h := ((i + j) / 2)%nat in
        if f h then sort_Search n f i h else sort_Search n f (h + 1) j
      else i
  end.

Definition subscribe_index (ws : list durWaiter) (t : Z) : nat :=
  sort_Search (length ws + 1)
    (λ i, match ws !! i with Some w => bool_decide (t < target w) | None => true end)
    0 (length ws).

Definition insert_waiter (w : durWaiter) (ws : list durWaiter) : list durWaiter :=
  let i := subscribe_index ws (target w) in take i ws ++ w :: drop i ws.

(** [subscribe]: [inl] is the closed notifier, which calls back at once. *)
Definition subscribe (n : durabilityNotifier) (w : durWaiter) : error + durabilityNotifier :=
  if dn_closed n then inl errStoreClosed
  else inr {| dn_waiters := insert_waiter w (dn_waiters n);
              dn_lastDurable := dn_lastDurable n; dn_closed := false |}.

(** The waiters at the front whose target is durable, and the rest. *)
Fixpoint split_ready (durable : Z) (ws : list durWaiter) : list durWaiter * list durWaiter :=
  match ws with
  | w :: rest =>
      if decide (target w ≤ durable)
      then let '(r, k) := split_ready durable rest in (w :: r, k)
      else ([], ws)
  | [] => ([], [])
  end.

(** [fire]: the callbacks to run, in order. *)
Definition fire (n : durabilityNotifier) (durable : Z)
  : durabilityNotifier * list (durWaiter * option error) :=
  let '(ready, rest) := split_ready durable (dn_waiters n) in
  ({| dn_waiters := rest;
      dn_lastDurable := if decide (dn_lastDurable n < durable) then durable else dn_lastDurable n;
      dn_closed := dn_closed n |}, (λ w, (w, None)) <$> ready).

Definition closeAll (n : durabilityNotifier) (err : error)
  : durabilityNotifier * list (durWaiter * option error) :=
  if dn_closed n then (n, [])
  else ({| dn_waiters := []; dn_lastDurable := dn_lastDurable n; dn_closed := true |},
        (λ w, (w, Some err)) <$> dn_waiters n).

(** ** The committer *)

Definition takeBatchLocked (sc : sharedCommitter) : list commitJob * sharedCommitter :=
  let rest := if decide (length (sc_pending sc) ≤ sc_batchMax sc)%nat then []
              else drop (sc_batchMax sc) (sc_pending sc) in
  let jobs := if decide (length (sc_pending sc) ≤ sc_batchMax sc)%nat then sc_pending sc
              else take (sc_batchMax sc) (sc_pending sc) in
  (jobs, {| sc_batchMax := sc_batchMax sc; sc_pending := rest;
            sc_flushing := sc_flushing sc; sc_closed := sc_closed sc |}).

(** The batch of a flush: the bursts' operations, in order. *)
Definition flushOps (jobs : list commitJob) : list Op :=
  concat ((λ j, cb_ops (job_c j)) <$> jobs).

(** The replies of a finished job. *)
Definition job_replies (j : commitJob) (err : option error) : list appendResp :=
  match err with
  | None => cb_responses (job_c j)
  | Some e => failAccepted (cb_responses (job_c j)) (cb_accepted (job_c j)) e
  end.

Section committer.
  Context {S : Type} `{Storage S}.
  Implicit Types (w : world S).

(** The callback of a job (and [failJob]): publish on success, reply, and give
    up the claim that keeps the streamer resident. *)
Definition finish w (o : outcome) : world S :=
  let f st :=
    let st := match oc_err o with
              | None => applyReader st (job_targetTail (oc_job o)) (job_targetClosed (oc_job o))
                          (cb_seg (job_c (oc_job o)))
              | Some _ => st
              end in
    set_pending (st_pending st - 1) st in
  {| w_store := w_store w; w_streamers := alter f (job_st (oc_job o)) (w_streamers w);
     w_sc := w_sc w; w_dn := w_dn w; w_flush := w_flush w; w_firing := w_firing w;
     w_done := w_done w ++ [o]; w_nextJob := w_nextJob w; w_poll := w_poll w;
     w_lastSeq := w_lastSeq w; w_batches := w_batches w; w_polls := w_polls w |}.

Definition failJob w (err : error) (j : commitJob) : world S :=
  finish w {| oc_job := j; oc_err := Some err; oc_target := 0 |}.
Definition failJobs w (err : error) (jobs : list commitJob) : world S :=
  foldl (λ w j, failJob w err j) w jobs.

Definition set_sc w (sc : sharedCommitter) (fl : flusher) : world S :=
  {| w_store := w_store w; w_streamers := w_streamers w; w_sc := sc; w_dn := w_dn w;
     w_flush := fl; w_firing := w_firing w; w_done := w_done w; w_nextJob := w_nextJob w;
     w_poll := w_poll w; w_lastSeq := w_lastSeq w; w_batches := w_batches w; w_polls := w_polls w |}.
Definition set_poll w (p : poller) (polls : list Z) : world S :=
  {| w_store := w_store w; w_streamers := w_streamers w; w_sc := w_sc w; w_dn := w_dn w;
     w_flush := w_flush w; w_firing := w_firing w; w_done := w_done w; w_nextJob := w_nextJob w;
     w_poll := p; w_lastSeq := w_lastSeq w; w_batches := w_batches w; w_polls := w_polls w ++ polls |}.
Definition set_dn w (n : durabilityNotifier) (firing : list (durWaiter * option error)) : world S :=
  {| w_store := w_store w; w_streamers := w_streamers w; w_sc := w_sc w; w_dn := n;
     w_flush := w_flush w; w_firing := firing; w_done := w_done w; w_nextJob := w_nextJob w;
     w_poll := w_poll w; w_lastSeq := w_lastSeq w; w_batches := w_batches w; w_polls := w_polls w |}.
Definition set_streamer w (a : Z) (st : streamer) (next : Z) : world S :=
  {| w_store := w_store w; w_streamers := <[a := st]> (w_streamers w); w_sc := w_sc w;
     w_dn := w_dn w; w_flush := w_flush w; w_firing := w_firing w; w_done := w_done w;
     w_nextJob := next; w_poll := w_poll w; w_lastSeq := w_lastSeq w; w_batches := w_batches w;
     w_polls := w_polls w |}.
Definition set_store w (s : S) (seq : Z) (batches : list (Z * list commitJob)) (fl : flusher) : world S :=
  {| w_store := s; w_streamers := w_streamers w; w_sc := w_sc w; w_dn := w_dn w;
     w_flush := fl; w_firing := w_firing w; w_done := w_done w; w_nextJob := w_nextJob w;
     w_poll := w_poll w; w_lastSeq := seq; w_batches := w_batches w ++ batches; w_polls := w_polls w |}.

(** [sharedCommitter.commit], on the streamer's goroutine. *)
Definition commit w (a : Z) (st : streamer) (c : commitBurst) : world S :=
  let st := applyWriter st (cb_pend c) (cb_metaChanged c) in
  let job := {| job_id := w_nextJob w; job_st := a; job_c := c;
                job_targetTail := pd_tail (cb_pend c);
                job_targetClosed := cb_metaChanged c && pd_closed (cb_pend c) |} in
  let w := set_streamer w a (set_pending (st_pending st + 1) st) (w_nextJob w + 1) in
  let sc := w_sc w in
  if sc_closed sc then failJob w errStoreClosed job else
  let sc := {| sc_batchMax := sc_batchMax sc; sc_pending := sc_pending sc ++ [job];
               sc_flushing := sc_flushing sc; sc_closed := sc_closed sc |} in
  if sc_flushing sc then set_sc w sc (w_flush w) else
  let '(batch, sc) :=
    takeBatchLocked {| sc_batchMax := sc_batchMax sc; sc_pending := sc_pending sc;
                       sc_flushing := true; sc_closed := sc_closed sc |} in
  set_sc w sc (FCommit batch).

(** [runFlush]: the call of [CommitAsync]. *)
Definition flush_commit w (jobs : list commitJob) : world S :=
  match store_CommitAsync (w_store w) (flushOps jobs) with
  | (s', Ok seq) => set_store w s' seq [(seq, jobs)] (FSubscribe seq jobs)
  | (s', Err e) => failJobs (set_store w s' (w_lastSeq w) [] (FSubscribe (w_lastSeq w) [])) e jobs
  end.

(** [runFlush]: one [subscribe]. *)
Definition flush_subscribe w (seq : Z) (j : commitJob) (jobs : list commitJob) : world S :=
  let w := set_sc w (w_sc w) (FSubscribe seq jobs) in
  match subscribe (w_dn w) {| target := seq; cb := j |} with
  | inl e => failJob w e j
  | inr n => set_dn w n (w_firing w)
  end.

(** [runFlush]: the end of one round. *)
Definition flush_next w : world S :=
  let sc := w_sc w in
  if decide (sc_pending sc = []) then
    set_sc w {| sc_batchMax := sc_batchMax sc; sc_pending := sc_pending sc;
                sc_flushing := false; sc_closed := sc_closed sc |} FIdle
  else let '(jobs, sc) := takeBatchLocked sc in set_sc w sc (FCommit jobs).

(** [poll], when waiters are outstanding and no callback is left to run: the call of
    [DurableSeq], outside the lock... *)
Definition poll_ask w : world S :=
  let r := store_DurableSeq (w_store w) in
  set_poll w (PGot r) match r with Ok d => [d] | Err _ => [] end.

(** ...and what is made of its answer. *)
Definition poll_act w (r : result Z) : world S :=
  let w := set_poll w PIdle [] in
  match r with
  | Ok d => let '(n, ready) := fire (w_dn w) d in set_dn w n ready
  | Err e => let '(n, ready) := closeAll (w_dn w) e in set_dn w n ready
  end.

(** One callback of the poller. *)
Definition run_callback w (d : durWaiter) (err : option error)
    (rest : list (durWaiter * option error)) : world S :=
  finish (set_dn w (w_dn w) rest) {| oc_job := cb d; oc_err := err; oc_target := target d |}.

(** [sharedCommitter.close] up to the wait for the flush goroutine. *)
Definition close_committer w : world S :=
  let sc := w_sc w in
  failJobs (set_sc w {| sc_batchMax := sc_batchMax sc; sc_pending := [];
                        sc_flushing := sc_flushing sc; sc_closed := true |} (w_flush w))
    errStoreClosed (sc_pending sc).

(** The poller's end, after [notifier.shutdown]. *)
Definition stop_notifier w : world S :=
  let '(n, ready) := closeAll (w_dn w) errStoreClosed in set_dn w n ready.

(** ** Interleaving

    What the engine is assumed to do is in the premises of [step_flush]: the
    sequence numbers it assigns do not decrease. Between any two steps the engine, or
    another of its writers, may change the store in any way ([step_engine]): batches
    become durable, deletions and creations commit, calls fail or succeed.
    [step_burst] assumes that the stream's sequence numbers have not run out. *)
Inductive step : world S → world S → Prop :=
| step_spawn w a st :
    w_streamers w !! a = None → st_tail st = st_writeTail st → 0 ≤ st_writeTail st →
    st_pending st = 0 →
    step w (set_streamer w a st (w_nextJob w))
| step_burst w a st now batch st' c :
    w_streamers w !! a = Some st →
    st_writeTail st + total_records batch < 2^64 →
    planBurst (w_store w) st now batch = (st', inr c) →
    step w (commit w a st' c)
| step_quiet w a st now batch st' resps :
    w_streamers w !! a = Some st →
    planBurst (w_store w) st now batch = (st', inl resps) →
    step w (set_streamer w a st' (w_nextJob w))
| step_readers w a st longPoll sse :
    w_streamers w !! a = Some st →
    step w (set_streamer w a (set_parked longPoll sse st) (w_nextJob w))
| step_flush w jobs :
    w_flush w = FCommit jobs →
    (∀ s' q, store_CommitAsync (w_store w) (flushOps jobs) = (s', Ok q) → w_lastSeq w ≤ q) →
    step w (flush_commit w jobs)
| step_subscribe w seq j jobs :
    w_flush w = FSubscribe seq (j :: jobs) → step w (flush_subscribe w seq j jobs)
| step_next w seq :
    w_flush w = FSubscribe seq [] → step w (flush_next w)
| step_engine w s' :
    step w (set_store w s' (w_lastSeq w) [] (w_flush w))
| step_poll w :
    w_poll w = PIdle → w_firing w = [] → dn_waiters (w_dn w) ≠ [] → step w (set_poll w PAsk [])
| step_ask w :
    w_poll w = PAsk → step w (poll_ask w)
| step_act w r :
    w_poll w = PGot r → step w (poll_act w r)
| step_callback w d err rest :
    w_firing w = (d, err) :: rest → step w (run_callback w d err rest)
| step_close w : step w (close_committer w)
| step_stop w :
    sc_closed (w_sc w) = true → w_flush w = FIdle → w_poll w = PIdle → w_firing w = [] →
    step w (stop_notifier w).

Definition initial (s : S) (batchMax : nat) : world S :=
  {| w_store := s; w_streamers := ∅;
     w_sc := {| sc_batchMax := batchMax; sc_pending := []; sc_flushing := false;
                sc_closed := false |};
     w_dn := {| dn_waiters := []; dn_lastDurable := 0; dn_closed := false |};
     w_flush := FIdle; w_firing := []; w_done := []; w_nextJob := 0; w_poll := PIdle; w_lastSeq := 0;
     w_batches := []; w_polls := [] |}.

Definition reachable (s : S) (batchMax : nat) (w : world S) : Prop :=
  rtc step (initial s batchMax) w.

End committer.

(** ** Lemmas: lists *)

Lemma StronglySorted_remove {A} (R : A → A → Prop) l1 x l2 :
  StronglySorted R (l1 ++ x :: l2) → StronglySorted R (l1 ++ l2).
Proof.
  induction l1 as [|y l1 IH]; simpl; intros Hs; inversion_clear Hs as [|?? Hs' Hf]; [done|].
  constructor; [by apply IH|]. rewrite !Forall_app, Forall_cons in *. tauto.
Qed.

Lemma StronglySorted_snoc {A} (R : A → A → Prop) l x :
  StronglySorted R l → Forall (λ y, R y x) l → StronglySorted R (l ++ [x]).
Proof.
  induction 1 as [|y l Hs IH Hf]; simpl; intros Hall; [by repeat constructor|].
  inversion_clear Hall. constructor; [by apply IH|]. apply Forall_app. split; [done|].
  by constructor.
Qed.

Lemma sort_Search_S n f i j :
  sort_Search (S n) f i j =
  if decide (i < j)%nat then
    if f ((i + j) / 2)%nat then sort_Search n f i ((i + j) / 2)%nat
    else sort_Search n f ((i + j) / 2 + 1)%nat j
  else i.
Proof. reflexivity. Qed.

(** Binary search finds the boundary of a monotone predicate. *)
Lemma sort_Search_spec fuel f i j n :
  (j - i < fuel)%nat → (i ≤ n ≤ j)%nat →
  (∀ k, (k < n)%nat → f k = false) → (∀ k, (n ≤ k < j)%nat → f k = true) →
  sort_Search fuel f i j = n.
Proof.
  revert i j. induction fuel as [|fuel IH]; intros i j Hf Hn Hlo Hhi; [lia|].
  rewrite sort_Search_S. destruct (decide (i < j)%nat) as [Hij|]; [|lia].
  assert (i ≤ (i + j) / 2 < j)%nat.
  { split; [apply Nat.div_le_lower_bound; lia|apply Nat.Div0.div_lt_upper_bound; lia]. }
  destruct (f ((i + j) / 2)%nat) eqn:E.
  - apply IH; [lia| |done|intros; apply Hhi; lia].
    destruct (decide (n ≤ (i + j) / 2)%nat); [lia|]. rewrite Hlo in E by lia. done.
  - apply IH; [lia| |done|done].
    destruct (decide ((i + j) / 2 < n)%nat); [lia|]. rewrite Hhi in E by lia. done.
Qed.

(** A waiter whose target is the largest goes last, after its equals. *)
Lemma insert_waiter_last w ws :
  Forall (λ x, target x ≤ target w) ws → insert_waiter w ws = ws ++ [w].
Proof.
  intros Hf. unfold insert_waiter, subscribe_index.
  rewrite (sort_Search_spec _ _ 0 (length ws) (length ws)); [|lia|lia| |intros; lia].
  - by rewrite take_ge, drop_ge by lia.
  - intros k Hk. destruct (lookup_lt_is_Some_2 ws k Hk) as [x Hx]. rewrite Hx.
    apply bool_decide_eq_false. rewrite Forall_lookup in Hf. specialize (Hf _ _ Hx). simpl in Hf. lia.
Qed.

(** In general the list stays sorted, equal targets in order of arrival. *)
Lemma insert_waiter_sorted w a b :
  Forall (λ x, target x ≤ target w) a → Forall (λ x, target w < target x) b →
  insert_waiter w (a ++ b) = a ++ w :: b.
Proof.
  intros Ha Hb. unfold insert_waiter, subscribe_index.
  rewrite (sort_Search_spec _ _ 0 (length (a ++ b)) (length a)).
  - by rewrite take_app_length, drop_app_length.
  - lia.
  - rewrite length_app. lia.
  - intros k Hk. destruct (lookup_lt_is_Some_2 a k Hk) as [x Hx].
    rewrite lookup_app_l, Hx by done. apply bool_decide_eq_false.
    rewrite Forall_lookup in Ha. specialize (Ha _ _ Hx). simpl in Ha. lia.
  - intros k Hk. rewrite lookup_app_r by lia.
    destruct (b !! (k - length a)%nat) as [x|] eqn:Hx; [|done]. apply bool_decide_eq_true.
    rewrite Forall_lookup in Hb. by specialize (Hb _ _ Hx).
Qed.

Lemma split_ready_spec d ws :
  let '(r, k) := split_ready d ws in ws = r ++ k ∧ Forall (λ w, target w ≤ d) r.
Proof.
  induction ws as [|w ws IH]; simpl; [done|]. case_decide; [|done].
  destruct (split_ready d ws) as [r k]. destruct IH as [-> ?]. split; [done|by constructor].
Qed.

(** ** Lemmas: the queue of jobs *)

(** The jobs handed over and not yet replied to, in the order in which they will be. *)
Definition flush_jobs (f : flusher) : list commitJob :=
  match f with FIdle => [] | FCommit js => js | FSubscribe _ js => js end.
Definition outstanding {S} (w : world S) : list commitJob :=
  (cb ∘ fst <$> w_firing w) ++ (cb <$> dn_waiters (w_dn w)) ++ flush_jobs (w_flush w)
  ++ sc_pending (w_sc w).

(** The jobs acknowledged as durable, in order. *)
Definition acked (done : list outcome) : list commitJob :=
  oc_job <$> filter (λ o, oc_err o = None) done.

(** The target tails of one streamer's jobs. *)
Definition tails_of (a : Z) (jobs : list commitJob) : list Z :=
  job_targetTail <$> filter (λ j, job_st j = a) jobs.

(** One streamer and its jobs: its reader tail, the tails it has promised, and
    its writer tail ascend; nothing acknowledged is beyond the reader tail; the
    [pending] count is the number of its jobs. *)
Record streamer_inv (st : streamer) (a : Z) (done : list outcome) (out : list commitJob) : Prop := {
  si_chain : StronglySorted Z.le (st_tail st :: tails_of a out ++ [st_writeTail st]);
  si_acked : Forall (λ t, t ≤ st_tail st) (tails_of a (acked done));
  si_pending : st_pending st = len (tails_of a out);
  si_nonneg : 0 ≤ st_writeTail st }.

Record queue_inv (sts : gmap Z streamer) (done : list outcome) (out : list commitJob) (next : Z)
  : Prop := {
  q_next : 0 ≤ next;
  q_ids : job_id <$> (oc_job <$> done) ++ out ≡ₚ seqZ 0 next;
  q_order : StronglySorted Z.lt (job_id <$> acked done ++ out);
  q_known : Forall (λ j, is_Some (sts !! job_st j)) ((oc_job <$> done) ++ out);
  q_streamers : ∀ a st, sts !! a = Some st → streamer_inv st a done out }.

Lemma tails_of_app a l1 l2 : tails_of a (l1 ++ l2) = tails_of a l1 ++ tails_of a l2.
Proof. unfold tails_of. by rewrite filter_app, fmap_app. Qed.

Lemma tails_of_cons a j l :
  tails_of a (j :: l) = (if decide (job_st j = a) then [job_targetTail j] else []) ++ tails_of a l.
Proof. unfold tails_of. rewrite filter_cons. by case_decide. Qed.

Lemma acked_snoc done o :
  acked (done ++ [o]) = acked done ++ match oc_err o with None => [oc_job o] | Some _ => [] end.
Proof.
  unfold acked. rewrite filter_app, fmap_app. f_equal. rewrite filter_cons, filter_nil.
  destruct (oc_err o); by rewrite ?decide_False, ?decide_True by done.
Qed.

(** *** The queue invariant, operation by operation *)

Lemma queue_push sts done out next j st :
  queue_inv sts done out next → job_id j = next → is_Some (sts !! job_st j) →
  (∀ st0, sts !! job_st j = Some st0 →
     st_tail st = st_tail st0 ∧ st_writeTail st = job_targetTail j ∧
     st_writeTail st0 ≤ job_targetTail j ∧ st_pending st = st_pending st0 + 1) →
  queue_inv (<[job_st j := st]> sts) done (out ++ [j]) (next + 1).
Proof.
  intros [Hn Hids Hord Hknown Hst] Hid [st0 Hst0] Hrel. specialize (Hrel _ Hst0).
  assert (Hlt : ∀ i, i ∈ job_id <$> (oc_job <$> done) ++ out → i < next).
  { intros i. rewrite Hids, elem_of_seqZ. lia. }
  split; [lia| | | |].
  - rewrite app_assoc, fmap_app, Hids, seqZ_app by lia. simpl. by rewrite Hid, Z.add_0_l.
  - rewrite app_assoc, fmap_app. apply StronglySorted_snoc; [done|].
    apply Forall_forall. intros i Hi. rewrite Hid. apply Hlt.
    rewrite fmap_app in Hi |- *. apply elem_of_app in Hi as [Hi|Hi]; apply elem_of_app; [left|by right].
    unfold acked in Hi. rewrite !list_elem_of_fmap in *. destruct Hi as (x & -> & Hx).
    exists x. split; [done|]. apply list_elem_of_fmap in Hx as (o & -> & Ho).
    apply list_elem_of_filter in Ho as [_ Ho]. apply list_elem_of_fmap. eauto.
  - rewrite app_assoc. apply Forall_app.
    split; [|constructor; [by rewrite lookup_insert_eq|constructor]].
    eapply Forall_impl; [exact Hknown|]. intros k Hk. simpl in Hk |- *.
    destruct (decide (job_st k = job_st j)) as [->|]; [by rewrite lookup_insert_eq|].
    by rewrite lookup_insert_ne.
  - intros a st1 [[<- <-]|[Hne Ha]]%lookup_insert_Some.
    + destruct (Hst _ _ Hst0) as [Hch Hack Hp Hnn]. destruct Hrel as (Et & Ew & Hle & Ep).
      assert (Htl : tails_of (job_st j) (out ++ [j]) = tails_of (job_st j) out ++ [job_targetTail j])
        by (rewrite tails_of_app, tails_of_cons, decide_True by done; done).
      split; rewrite ?Htl, ?Et, ?Ew; [|done|rewrite Ep, Hp, length_app; simpl; lia|lia].
      inversion_clear Hch as [|?? Hs Hf]. rewrite Forall_app, Forall_singleton in Hf.
      destruct Hf as [Hf Hfw].
      constructor.
      * rewrite <-app_assoc. apply StronglySorted_app in Hs as (Hc & Hs1 & _).
        apply StronglySorted_app_2; [|done|by repeat constructor].
        intros x y Hx Hy. specialize (Hc x (st_writeTail st0) Hx ltac:(by constructor)).
        simpl in Hy.
        rewrite !elem_of_cons, elem_of_nil in Hy. destruct Hy as [->|[->|[]]]; lia.
      * rewrite !Forall_app, !Forall_singleton. split_and!; [done|lia|lia].
    + destruct (Hst _ _ Ha) as [Hch Hack Hp Hnn].
      assert (Htl : tails_of a (out ++ [j]) = tails_of a out)
        by (rewrite tails_of_app, tails_of_cons, decide_False, app_nil_r by done; done).
      by split; rewrite ?Htl.
Qed.

(** Replying to a job: the first in line when it succeeds, any when it fails. *)
Definition finish_streamers (sts : gmap Z streamer) (o : outcome) : gmap Z streamer :=
  alter (λ st,
    set_pending (st_pending
      (match oc_err o with
       | None => applyReader st (job_targetTail (oc_job o)) (job_targetClosed (oc_job o))
                   (cb_seg (job_c (oc_job o)))
       | Some _ => st end) - 1)
      (match oc_err o with
       | None => applyReader st (job_targetTail (oc_job o)) (job_targetClosed (oc_job o))
                   (cb_seg (job_c (oc_job o)))
       | Some _ => st end)) (job_st (oc_job o)) sts.

Lemma queue_finish sts done l1 l2 next o :
  queue_inv sts done (l1 ++ oc_job o :: l2) next → (oc_err o = None → l1 = []) →
  queue_inv (finish_streamers sts o) (done ++ [o]) (l1 ++ l2) next.
Proof.
  intros [Hn Hids Hord Hknown Hst] Hl1. split; [done| | | |].
  - rewrite <-Hids. apply fmap_Permutation. rewrite fmap_app, <-app_assoc. simpl.
    apply Permutation_app_head. apply Permutation_middle.
  - rewrite acked_snoc. destruct (oc_err o) as [e|].
    + rewrite app_nil_r. rewrite app_assoc, fmap_app in Hord |- *. simpl in Hord.
      by apply StronglySorted_remove in Hord.
    + rewrite (Hl1 eq_refl) in *. by rewrite <-app_assoc.
  - eapply Forall_impl; [|intros j Hj; unfold finish_streamers; rewrite lookup_alter_is_Some; exact Hj].
    rewrite !Forall_app, Forall_cons in Hknown. rewrite fmap_app, !Forall_app. simpl.
    rewrite Forall_singleton. tauto.
  - intros a st Ha. unfold finish_streamers in Ha. apply lookup_alter_Some in Ha as [(Heq & st0 & Ha & ->)|[Hne Ha]].
    + destruct (Hst _ _ Ha) as [Hch Hack Hp Hnn]. subst a.
      rewrite tails_of_app, tails_of_cons, decide_True in Hch, Hp by done.
      destruct (oc_err o) as [e|] eqn:Herr.
      * split; simpl; rewrite ?acked_snoc, ?Herr, ?app_nil_r, ?tails_of_app; [|done| |done].
        -- rewrite <-app_assoc in Hch. simpl in Hch.
           rewrite <-app_assoc. exact (StronglySorted_remove _ (st_tail st0 :: _) _ _ Hch).
        -- rewrite Hp. rewrite !length_app. simpl. lia.
      * rewrite (Hl1 eq_refl) in *. simpl in Hch, Hp. inversion_clear Hch as [|?? Hs Hf].
        inversion_clear Hf as [|?? Hle _].
        split; simpl; rewrite ?acked_snoc, ?Herr; [done| |lia|done].
        rewrite tails_of_app, tails_of_cons, decide_True by done. simpl.
        rewrite Forall_app, Forall_singleton. split; [|lia].
        eapply Forall_impl; [exact Hack|]. simpl. lia.
    + destruct (Hst _ _ Ha) as [Hch Hack Hp Hnn].
      assert (Htl : tails_of a (l1 ++ oc_job o :: l2) = tails_of a (l1 ++ l2))
        by (rewrite !tails_of_app, tails_of_cons, decide_False by done; done).
      rewrite Htl in *. split; try done. rewrite acked_snoc, tails_of_app.
      destruct (oc_err o); [by rewrite app_nil_r|].
      rewrite tails_of_cons, decide_False, app_nil_r by done. done.
Qed.

Lemma queue_update sts done out next a st0 st :
  queue_inv sts done out next → sts !! a = Some st0 →
  st_tail st = st_tail st0 → st_writeTail st = st_writeTail st0 →
  st_pending st = st_pending st0 → queue_inv (<[a := st]> sts) done out next.
Proof.
  intros [Hn Hids Hord Hknown Hst] Ha Et Ew Ep. split; try done.
  - eapply Forall_impl; [exact Hknown|]. intros k Hk. simpl in Hk |- *.
    destruct (decide (job_st k = a)) as [->|]; [by rewrite lookup_insert_eq|].
    by rewrite lookup_insert_ne.
  - intros b st1 [[<- <-]|[Hne Hb]]%lookup_insert_Some; [|by apply Hst].
    destruct (Hst _ _ Ha). split; by rewrite ?Et, ?Ew, ?Ep.
Qed.

Lemma queue_spawn sts done out next a st :
  queue_inv sts done out next → sts !! a = None →
  st_tail st = st_writeTail st → 0 ≤ st_writeTail st → st_pending st = 0 →
  queue_inv (<[a := st]> sts) done out next.
Proof.
  intros [Hn Hids Hord Hknown Hst] Ha Et Hnn Ep.
  assert (Hnone : ∀ l, Forall (λ j, job_st j ≠ a) l → tails_of a l = []).
  { induction 1 as [|j l Hj _ IH]; [done|]. by rewrite tails_of_cons, decide_False. }
  split; try done.
  - eapply Forall_impl; [exact Hknown|]. intros k Hk. simpl in Hk |- *.
    destruct (decide (job_st k = a)) as [->|]; [by rewrite lookup_insert_eq|].
    by rewrite lookup_insert_ne.
  - intros b st1 [[<- <-]|[Hne Hb]]%lookup_insert_Some; [|by apply Hst].
    assert (Hother : Forall (λ j, job_st j ≠ a) ((oc_job <$> done) ++ out)).
    { eapply Forall_impl; [exact Hknown|]. intros j [? Hj] Heq. simpl in *.
      rewrite Heq in Hj. congruence. }
    apply Forall_app in Hother as [Hdone Hout].
    assert (tails_of a out = []) as Ho by by apply Hnone.
    assert (tails_of a (acked done) = []) as Hac.
    { apply Hnone. rewrite Forall_forall in Hdone |- *. intros j Hj. apply Hdone.
      unfold acked in Hj. apply list_elem_of_fmap in Hj as (o & -> & Ho').
      apply list_elem_of_filter in Ho' as [_ Ho']. apply list_elem_of_fmap. eauto. }
    split; rewrite ?Ho, ?Hac; simpl; [|by constructor|done|done].
    repeat constructor. lia.
Qed.

(** *** Planning does not touch what readers and the committer see *)

Record plan_frame (st st' : streamer) : Prop := {
  pf_tail : st_tail st' = st_tail st;
  pf_writeTail : st_writeTail st' = st_writeTail st;
  pf_pending : st_pending st' = st_pending st }.

#[global] Instance plan_frame_preorder : PreOrder plan_frame.
Proof. split; [by intros st; split|]. intros x y z [] []. split; congruence. Qed.

Section plan_frame.
  Context {S : Type} `{Storage S}.
  Implicit Types (s : S).

Lemma loadProducer_frame s st pid : plan_frame st (loadProducer s st pid).1.
Proof.
  unfold loadProducer. case_decide; [done|].
  destruct (store_Get _ _) as [[v|]|]; [destruct (unmarshalProducer v)|..]; by split.
Qed.

Lemma effProducer_frame s st pend pid : plan_frame st (effProducer s st pend pid).1.
Proof.
  unfold effProducer. destruct (_ ≫= _); [done|]. apply loadProducer_frame.
Qed.

Lemma effWriterSeq_frame s st pend : plan_frame st (effWriterSeq s st pend).1.
Proof.
  unfold effWriterSeq, loadWriterSeq. destruct (pd_writerSeq pend); [done|].
  destruct (st_writerSeqLoaded st); [done|].
  destruct (store_Get _ _) as [[v|]|]; by split.
Qed.

Lemma planAppendClosed_frame s st pend req :
  plan_frame st (planAppendClosed s st pend req).1.1.1 ∧
  (planAppendClosed s st pend req).1.1.2 = pend.
Proof.
  unfold planAppendClosed. destruct (rq_hasBody req); simpl; [|done].
  destruct (rq_producer req) as [h|]; [|done].
  pose proof (effProducer_frame s st pend (ph_id h)) as Hf.
  destruct (effProducer s st pend (ph_id h)) as [st' ps]. by destruct (kind _).
Qed.

Lemma planAppend_frame s st pend req :
  let '(st', pend', _, _) := planAppend s st pend req in
  plan_frame st st' ∧
  (pd_tail pend' = pd_tail pend ∨ pd_tail pend' = u64 (pd_tail pend + len (rq_records req))).
Proof.
  unfold planAppend. destruct (pd_closed pend).
  { pose proof (planAppendClosed_frame s st pend req) as [Hf Hp].
    destruct (planAppendClosed s st pend req) as [[[st' pend'] ?] ?]. simpl in *. subst. auto. }
  destruct (_ && _); [split; [done|by left]|].
  assert (∃ st1 prod, planProducer s st pend req = (st1, prod) ∧ plan_frame st st1)
    as (st1 & prod & Heq & Hf1).
  { unfold planProducer. destruct (rq_producer req) as [h|]; [|by eexists _, _].
    pose proof (effProducer_frame s st pend (ph_id h)) as Hf.
    destruct (effProducer s st pend (ph_id h)) as [st' ps]. by eexists _, _. }
  rewrite Heq. destruct prod as [resp|np]; [auto|].
  assert (∃ st2 b, match rq_streamSeq req with
    | None => (st1, true)
    | Some w => let '(st, cur) := effWriterSeq s st1 pend in (st, negb (bool_decide (bytes_le w cur)))
    end = (st2, b) ∧ plan_frame st1 st2) as (st2 & b & -> & Hf2).
  { destruct (rq_streamSeq req); [|by eexists _, _].
    pose proof (effWriterSeq_frame s st1 pend) as Hf.
    destruct (effWriterSeq s st1 pend). by eexists _, _. }
  assert (plan_frame st st2) by by etrans. destruct b; [|auto].
  destruct (acceptAppend st2 pend req np) as [pend' resp] eqn:E.
  unfold acceptAppend in E. injection E as <- _. simpl. auto.
Qed.

Lemma planAll_frame s batch : ∀ st pend,
  0 ≤ pd_tail pend → pd_tail pend + total_records batch < 2^64 →
  let '(st', pend', _, _) := planAll s st pend batch in
  plan_frame st st' ∧ pd_tail pend ≤ pd_tail pend'.
Proof.
  induction batch as [|req batch IH]; intros st pend H0' Hb; simpl; [done|].
  rewrite total_records_cons in Hb. pose proof (total_records_nonneg batch).
  pose proof (planAppend_frame s st pend req) as Hf.
  destruct (planAppend s st pend req) as [[[st1 pend1] ?] ?]. destruct Hf as [Hf Ht].
  rewrite u64_small in Ht by (unfold is_u64; lia).
  specialize (IH st1 pend1 ltac:(lia) ltac:(lia)).
  destruct (planAll s st1 pend1 batch) as [[[st2 pend2] ?] ?]. destruct IH as [? ?].
  split; [by etrans|lia].
Qed.

Lemma planBurst_frame s st now batch st' r :
  planBurst s st now batch = (st', r) → 0 ≤ st_writeTail st →
  st_writeTail st + total_records batch < 2^64 →
  plan_frame st st' ∧ ∀ c, r = inr c → st_writeTail st ≤ pd_tail (cb_pend c).
Proof.
  unfold planBurst. intros Hp H0' Hb.
  pose proof (planAll_frame s batch st (startPending st now) H0' Hb) as Hf.
  destruct (planAll s st (startPending st now) batch) as [[[st1 pend] ?] ?].
  destruct Hf as [Hf Ht]. destruct (decide _) in Hp; simplify_eq; split; try done.
  intros c [= <-]. done.
Qed.

Lemma planBurst_quiet_frame s st now batch st' r :
  planBurst s st now batch = (st', r) → plan_frame st st'.
Proof.
  unfold planBurst. assert (∀ pend, plan_frame st (planAll s st pend batch).1.1.1) as Hall.
  { revert st. induction batch as [|req batch IH]; intros st pend; simpl; [done|].
    pose proof (planAppend_frame s st pend req) as Hf.
    destruct (planAppend s st pend req) as [[[st1 pend1] ?] ?]. destruct Hf as [Hf _].
    specialize (IH st1 pend1). destruct (planAll s st1 pend1 batch) as [[[st2 pend2] ?] ?].
    simpl in *. by etrans. }
  specialize (Hall (startPending st now)).
  destruct (planAll s st (startPending st now) batch) as [[[st1 pend] ?] ?]. simpl in *.
  destruct (decide _); by intros [= <- _].
Qed.

End plan_frame.

(** ** The invariant *)

Section invariant.
  Context {S : Type} `{StorageLaws S}.
  Implicit Types (w : world S).

(** The jobs whose operations have not reached the engine yet. *)
Definition unsent w : list commitJob :=
  match w_flush w with FCommit js => js | _ => [] end ++ sc_pending (w_sc w).

(** The engine took the job in the batch it gave number [q]. *)
Definition taken w (q : Z) (j : commitJob) : Prop := ∃ jobs, (q, jobs) ∈ w_batches w ∧ j ∈ jobs.

(** The engine has reported [q] durable. *)
Definition reported w (q : Z) : Prop := ∃ d, d ∈ w_polls w ∧ q ≤ d.

Record control_inv w : Prop := {
  iv_sorted : StronglySorted Z.le (target <$> dn_waiters (w_dn w));
  iv_targets : Forall (λ x, target x ≤ w_lastSeq w) (dn_waiters (w_dn w));
  iv_seq : ∀ q j js, w_flush w = FSubscribe q (j :: js) → q = w_lastSeq w;
  iv_done : Forall (λ o, oc_err o = None → oc_target o ≤ dn_lastDurable (w_dn w)) (w_done w);
  iv_firing : Forall (λ p, p.2 = None → target p.1 ≤ dn_lastDurable (w_dn w)) (w_firing w);
  iv_flushing : sc_flushing (w_sc w) = true ↔ w_flush w ≠ FIdle;
  iv_idle : sc_flushing (w_sc w) = false → sc_pending (w_sc w) = [];
  iv_closed : dn_closed (w_dn w) = true → dn_waiters (w_dn w) = [];
  iv_applied : StronglySorted Z.lt (job_id <$> w_applied w ++ unsent w);
  iv_applied_old : Forall (λ j, job_id j < w_nextJob w) (w_applied w ++ unsent w);
  iv_subscribing : ∀ q js, w_flush w = FSubscribe q js → Forall (taken w q) js;
  iv_waiting : Forall (λ x, taken w (target x) (cb x)) (dn_waiters (w_dn w));
  iv_fires : Forall (λ p, p.2 = None → taken w (target p.1) (cb p.1) ∧ reported w (target p.1)) (w_firing w);
  iv_acked : Forall (λ o, oc_err o = None → taken w (oc_target o) (oc_job o) ∧ reported w (oc_target o)) (w_done w);
  iv_got : ∀ d, w_poll w = PGot (Ok d) → d ∈ w_polls w;
  iv_polling : w_poll w ≠ PIdle → w_firing w = [] }.

Record inv w : Prop := {
  iv_queue : queue_inv (w_streamers w) (w_done w) (outstanding w) (w_nextJob w);
  iv_control : control_inv w }.

(** What finishing jobs leaves alone. *)
Record same_control w w' : Prop := {
  sc_w_store : w_store w' = w_store w;
  sc_w_sc : w_sc w' = w_sc w;
  sc_w_dn : w_dn w' = w_dn w;
  sc_w_flush : w_flush w' = w_flush w;
  sc_w_firing : w_firing w' = w_firing w;
  sc_w_next : w_nextJob w' = w_nextJob w;
  sc_w_poll : w_poll w' = w_poll w;
  sc_w_seq : w_lastSeq w' = w_lastSeq w;
  sc_w_batches : w_batches w' = w_batches w;
  sc_w_polls : w_polls w' = w_polls w }.

#[global] Instance same_control_preorder : PreOrder same_control.
Proof. split; [by intros w; split|]. intros x y z [] []. split; congruence. Qed.

Lemma finish_control w o : same_control w (finish w o).
Proof. by split. Qed.

Lemma same_control_outstanding w w' : same_control w w' → outstanding w' = outstanding w.
Proof. intros []. unfold outstanding. congruence. Qed.

Lemma failJobs_spec jobs : ∀ w e l1 l2,
  queue_inv (w_streamers w) (w_done w) (l1 ++ jobs ++ l2) (w_nextJob w) →
  let w' := failJobs w e jobs in
  same_control w w' ∧ queue_inv (w_streamers w') (w_done w') (l1 ++ l2) (w_nextJob w') ∧
  (∃ l, w_done w' = w_done w ++ l ∧ Forall (λ o, oc_err o ≠ None) l).
Proof.
  induction jobs as [|j jobs IH]; intros w e l1 l2 Hq; simpl.
  { split_and!; [done|done|]. exists []. by rewrite app_nil_r. }
  apply (queue_finish _ _ l1 (jobs ++ l2) _ {| oc_job := j; oc_err := Some e; oc_target := 0 |})
    in Hq; [|done].
  destruct (IH (failJob w e j) e l1 l2) as (Hc & Hq' & l & Hd & Hl); [exact Hq|].
  split_and!; [|done|].
  { exact (transitivity (finish_control w {| oc_job := j; oc_err := Some e; oc_target := 0 |}) Hc). }
  eexists (_ :: l). split; [etrans; [exact Hd|]; simpl; by rewrite <-app_assoc|].
  by constructor.
Qed.

Lemma acked_app d1 d2 : acked (d1 ++ d2) = acked d1 ++ acked d2.
Proof. unfold acked. by rewrite filter_app, fmap_app. Qed.

Lemma acked_failed l : Forall (λ o, oc_err o ≠ None) l → acked l = [].
Proof.
  unfold acked. induction 1 as [|o l Ho _ IH]; [done|]. by rewrite filter_cons, decide_False.
Qed.

(** Failing jobs changes nothing the control invariant speaks of. *)
Lemma control_failed w w' l :
  same_control w w' → w_done w' = w_done w ++ l → Forall (λ o, oc_err o ≠ None) l →
  control_inv w → control_inv w'.
Proof.
  intros [Es Esc Edn Ef Efi En Ep Eq Eb Epo] Hd Hl []. split;
    unfold unsent, w_applied, taken, reported in *;
    rewrite ?Es, ?Esc, ?Edn, ?Ef, ?Efi, ?En, ?Ep, ?Eq, ?Eb, ?Epo, ?Hd; try done;
    (apply Forall_app; split; [done|]; eapply Forall_impl; [exact Hl|]; by intros o Ho ?).
Qed.

Lemma failJobs_inv w e jobs l1 l2 :
  queue_inv (w_streamers w) (w_done w) (l1 ++ jobs ++ l2) (w_nextJob w) →
  control_inv w → l1 ++ l2 = outstanding w → inv (failJobs w e jobs).
Proof.
  intros Hq Hc Ho. destruct (failJobs_spec jobs w e l1 l2 Hq) as (Hs & Hq' & l & Hd & Hl).
  split; [|by eapply control_failed].
  rewrite (same_control_outstanding _ _ Hs), <-Ho. exact Hq'.
Qed.

Lemma takeBatchLocked_split sc jobs sc' :
  takeBatchLocked sc = (jobs, sc') →
  sc_pending sc = jobs ++ sc_pending sc' ∧ sc_flushing sc' = sc_flushing sc ∧
  sc_closed sc' = sc_closed sc ∧ sc_batchMax sc' = sc_batchMax sc.
Proof.
  unfold takeBatchLocked. intros [= <- <-]. simpl. split_and!; [|done..].
  case_decide; [by rewrite app_nil_r|by rewrite take_drop].
Qed.

Lemma inv_initial (s : S) n : inv (initial s n).
Proof. split; split; simpl; try done; by constructor. Qed.

(** *** Every step preserves it *)

Lemma applyWriter_frame st pend mc :
  st_tail (applyWriter st pend mc) = st_tail st ∧
  st_writeTail (applyWriter st pend mc) = pd_tail pend ∧
  st_pending (applyWriter st pend mc) = st_pending st.
Proof. unfold applyWriter. by destruct mc, (pd_writerSeq pend). Qed.

Lemma control_next w n : w_nextJob w ≤ n → control_inv w → ∀ a st,
  control_inv (set_streamer w a st n).
Proof.
  intros Hn [] a st. split; try done. simpl.
  eapply Forall_impl; [exact iv_applied_old0|]. simpl. lia.
Qed.

(** The queue grows by [job] while [w_streamers] has already been updated. *)
Lemma control_push w sc fl job :
  control_inv w → job_id job = w_nextJob w - 1 →
  Forall (λ j, job_id j < w_nextJob w - 1) (w_applied w ++ unsent w) →
  sc_flushing sc = true → fl ≠ FIdle →
  (match fl with FCommit js => js | _ => [] end ++ sc_pending sc = unsent w ++ [job]) →
  (∀ q js, fl = FSubscribe q js → fl = w_flush w) →
  control_inv (set_sc w sc fl).
Proof.
  intros [] Hid Hold Hfl Hne Hunsent Hsub.
  assert (Hunsent' : unsent (set_sc w sc fl) = unsent w ++ [job]) by exact Hunsent.
  split; try done.
  - cbn. intros q j js E. eapply iv_seq0. by rewrite <-(Hsub _ _ E).
  - simpl. by rewrite Hfl.
  - rewrite Hunsent', app_assoc, fmap_app.
    apply StronglySorted_snoc; [done|]. apply Forall_fmap.
    eapply Forall_impl; [exact Hold|]. simpl. intros. lia.
  - rewrite Hunsent', app_assoc. apply Forall_app. split; [done|].
    constructor; [simpl; lia|constructor].
  - cbn. intros q js E. apply iv_subscribing0. by rewrite <-(Hsub _ _ E).
Qed.

Lemma inv_commit w a st0 st c :
  inv w → w_streamers w !! a = Some st0 → plan_frame st0 st →
  st_writeTail st0 ≤ pd_tail (cb_pend c) → inv (commit w a st c).
Proof.
  intros [Hq Hc] Ha [Et Ew Ep] Hle.
  destruct (applyWriter_frame st (cb_pend c) (cb_metaChanged c)) as (Et' & Ew' & Ep').
  unfold commit. set (st1 := set_pending _ _).
  set (job := {| job_id := w_nextJob w; job_st := a; job_c := c;
                 job_targetTail := pd_tail (cb_pend c);
                 job_targetClosed := cb_metaChanged c && pd_closed (cb_pend c) |}).
  set (w1 := set_streamer w a st1 (w_nextJob w + 1)).
  assert (Hc1 : control_inv w1) by (apply control_next; [lia|done]).
  assert (Hq1 : queue_inv (w_streamers w1) (w_done w1) (outstanding w ++ [job]) (w_nextJob w1)).
  { apply (queue_push _ _ _ _ job st1); [done|done|by exists st0|].
    simpl. intros st2 E. rewrite Ha in E. simplify_eq. split_and!; congruence || lia. }
  assert (Hold : Forall (λ j, job_id j < w_nextJob w1 - 1) (w_applied w1 ++ unsent w1)).
  { simpl. rewrite Z.add_simpl_r. apply (iv_applied_old _ Hc). }
  change (w_sc w1) with (w_sc w). cbn [sc_flushing sc_batchMax sc_pending sc_closed].
  destruct (sc_closed (w_sc w)).
  { apply (failJobs_inv w1 errStoreClosed [job] (outstanding w) []); [done|done|].
    by rewrite app_nil_r. }
  destruct (sc_flushing (w_sc w)) eqn:Hfl.
  - assert (w_flush w ≠ FIdle) by by apply (iv_flushing _ Hc).
    split.
    + replace (outstanding _) with (outstanding w ++ [job]); [done|].
      unfold outstanding. simpl. by rewrite <-!app_assoc.
    + apply (control_push w1 _ _ job); simpl; try done; [lia|].
      unfold unsent. simpl. by rewrite app_assoc.
  - assert (w_flush w = FIdle) as Hidle.
    { destruct (decide (sc_flushing (w_sc w) = true)) as [E|E]; [congruence|].
      rewrite (iv_flushing _ Hc) in E. destruct (w_flush w); [done|by destruct E..]. }
    pose proof (iv_idle _ Hc Hfl) as Hpend.
    destruct (takeBatchLocked _) as [jobs sc] eqn:Htake.
    apply takeBatchLocked_split in Htake as (Hsplit & Hflag & _). simpl in Hsplit, Hflag.
    split.
    + replace (outstanding _) with (outstanding w ++ [job]); [done|].
      unfold outstanding. simpl. rewrite Hidle, <-Hsplit, Hpend. simpl. by rewrite <-!app_assoc.
    + apply (control_push w1 _ _ job); simpl; try done; [lia|].
      unfold unsent. simpl. by rewrite Hidle, <-Hsplit, Hpend.
Qed.

Lemma inv_set_streamer w a st0 st :
  inv w → w_streamers w !! a = Some st0 → plan_frame st0 st →
  inv (set_streamer w a st (w_nextJob w)).
Proof.
  intros [Hq Hc] Ha []. split; [|by apply control_next].
  eapply queue_update; [exact Hq|exact Ha|done..].
Qed.

Lemma inv_spawn w a st :
  inv w → w_streamers w !! a = None → st_tail st = st_writeTail st → 0 ≤ st_writeTail st →
  st_pending st = 0 → inv (set_streamer w a st (w_nextJob w)).
Proof.
  intros [Hq Hc] ????. split; [|by apply control_next]. by apply queue_spawn.
Qed.

Lemma w_applied_store w s' q batches fl :
  w_applied (set_store w s' q batches fl) = w_applied w ++ concat batches.*2.
Proof. unfold w_applied. simpl. by rewrite fmap_app, concat_app. Qed.

Lemma taken_more w w' l q j : w_batches w' = w_batches w ++ l → taken w q j → taken w' q j.
Proof. intros E (jobs & Hb & Hj). exists jobs. rewrite E. split; [apply elem_of_app; by left|done]. Qed.

Lemma inv_flush w jobs :
  inv w → w_flush w = FCommit jobs →
  (∀ s' q, store_CommitAsync (w_store w) (flushOps jobs) = (s', Ok q) → w_lastSeq w ≤ q) →
  inv (flush_commit w jobs).
Proof.
  intros [Hq Hc] Hfl Hseq. unfold flush_commit.
  assert (Hun : unsent w = jobs ++ sc_pending (w_sc w)) by (unfold unsent; by rewrite Hfl).
  destruct (store_CommitAsync (w_store w) (flushOps jobs)) as [s' [q|e]] eqn:Hcommit.
  - specialize (Hseq _ _ eq_refl). destruct Hc. set (w1 := set_store _ _ _ _ _). split.
    + replace (outstanding _) with (outstanding w); [done|].
      unfold outstanding. simpl. by rewrite Hfl.
    + assert (Hmore : ∀ q j, taken w q j → taken w1 q j) by (intros ??; by eapply taken_more).
      assert (Happ : w_applied w1 ++ unsent w1 = w_applied w ++ unsent w).
      { unfold w1. rewrite w_applied_store, Hun, <-app_assoc. cbn. by rewrite app_nil_r. }
      split; rewrite ?Happ; try done.
      * eapply Forall_impl; [exact iv_targets0|]. simpl. lia.
      * by intros ??? [= -> ->].
      * cbn. rewrite iv_flushing0, Hfl. done.
      * intros ? js [= <- <-]. apply Forall_forall. intros j Hj. exists jobs.
        split; [apply elem_of_app; right; apply list_elem_of_here|done].
      * eapply Forall_impl; [exact iv_waiting0|]. auto.
      * eapply Forall_impl; [exact iv_fires0|]. intros x Hx E. by destruct (Hx E); auto.
      * eapply Forall_impl; [exact iv_acked0|]. intros x Hx E. by destruct (Hx E); auto.
  - set (w1 := set_store w s' (w_lastSeq w) [] (FSubscribe (w_lastSeq w) [])).
    apply (failJobs_inv w1 e jobs ((cb ∘ fst <$> w_firing w) ++ (cb <$> dn_waiters (w_dn w)))
             (sc_pending (w_sc w))).
    + unfold outstanding in Hq. rewrite Hfl in Hq. simpl in *. by rewrite <-!app_assoc.
    + assert (Hmore : ∀ q j, taken w q j → taken w1 q j) by (intros ??; by eapply taken_more).
      assert (Happ : w_applied w1 = w_applied w) by (unfold w1; by rewrite w_applied_store, app_nil_r).
      destruct Hc. rewrite Hun in *.
      split; rewrite ?Happ; try done.
      * cbn. rewrite iv_flushing0, Hfl. done.
      * change (unsent w1) with (sc_pending (w_sc w)).
        rewrite !fmap_app in *. apply StronglySorted_app in iv_applied0 as (Hlt & Ha & Hj).
        apply StronglySorted_app in Hj as (_ & _ & Hp).
        apply StronglySorted_app_2; [|done|done]. intros x y Hx Hy. apply Hlt; [done|].
        apply elem_of_app. by right.
      * change (unsent w1) with (sc_pending (w_sc w)). rewrite !Forall_app in *. tauto.
      * by intros ?? [= <- <-].
      * eapply Forall_impl; [exact iv_waiting0|]. auto.
      * eapply Forall_impl; [exact iv_fires0|]. intros x Hx E. by destruct (Hx E); auto.
      * eapply Forall_impl; [exact iv_acked0|]. intros x Hx E. by destruct (Hx E); auto.
    + unfold outstanding. simpl. by rewrite <-app_assoc.
Qed.

Lemma inv_engine w s' : inv w → inv (set_store w s' (w_lastSeq w) [] (w_flush w)).
Proof.
  intros [Hq Hc]. split; [done|]. set (w1 := set_store _ _ _ _ _).
  assert (Hmore : ∀ q j, taken w q j → taken w1 q j) by (intros ??; by eapply taken_more).
  assert (Happ : w_applied w1 = w_applied w) by (unfold w1; by rewrite w_applied_store, app_nil_r).
  destruct Hc. split; rewrite ?Happ; try done.
  - intros q js E. eapply Forall_impl; [by eapply iv_subscribing0|]. auto.
  - eapply Forall_impl; [exact iv_waiting0|]. auto.
  - eapply Forall_impl; [exact iv_fires0|]. intros x Hx E. by destruct (Hx E); auto.
  - eapply Forall_impl; [exact iv_acked0|]. intros x Hx E. by destruct (Hx E); auto.
Qed.

Lemma inv_subscribe w seq j jobs :
  inv w → w_flush w = FSubscribe seq (j :: jobs) → inv (flush_subscribe w seq j jobs).
Proof.
  intros [Hq Hc] Hfl. unfold flush_subscribe.
  set (w1 := set_sc w (w_sc w) (FSubscribe seq jobs)).
  pose proof (iv_seq _ Hc _ _ _ Hfl) as ->.
  pose proof (iv_subscribing _ Hc _ _ Hfl) as [Hj Hjs]%Forall_cons.
  assert (Hc1 : control_inv w1).
  { destruct Hc. unfold unsent in *. rewrite Hfl in *. split; simpl; try done.
    - by intros ??? [= -> _].
    - rewrite iv_flushing0. done.
    - by intros ?? [= <- <-]. }
  unfold subscribe. change (w_dn w1) with (w_dn w). destruct (dn_closed (w_dn w)) eqn:Hcl.
  - apply (failJobs_inv w1 errStoreClosed [j]
             ((cb ∘ fst <$> w_firing w) ++ (cb <$> dn_waiters (w_dn w)))
             (jobs ++ sc_pending (w_sc w))); [|done|].
    + unfold outstanding in Hq. rewrite Hfl in Hq. simpl in *. by rewrite <-!app_assoc.
    + unfold outstanding. simpl. by rewrite <-app_assoc.
  - rewrite insert_waiter_last by apply Hc. split.
    + replace (outstanding _) with (outstanding w); [done|].
      unfold outstanding. simpl. rewrite Hfl, fmap_app. simpl. by rewrite <-!app_assoc.
    + pose proof (iv_targets _ Hc) as Ht. pose proof (iv_sorted _ Hc) as Hs.
      destruct Hc1. split; simpl; try done.
      * rewrite fmap_app. apply StronglySorted_snoc; [done|]. by apply Forall_fmap.
      * apply Forall_app. split; [done|]. by constructor.
      * apply Forall_app. split; [done|]. by constructor.
Qed.

Lemma inv_next w seq : inv w → w_flush w = FSubscribe seq [] → inv (flush_next w).
Proof.
  intros [Hq Hc] Hfl. unfold flush_next. case_decide as Hp.
  - split.
    + replace (outstanding _) with (outstanding w); [done|].
      unfold outstanding. simpl. by rewrite Hfl.
    + destruct Hc. unfold unsent in *. rewrite Hfl in *. by split.
  - destruct (takeBatchLocked (w_sc w)) as [jobs sc] eqn:Htake.
    apply takeBatchLocked_split in Htake as (Hsplit & Hflag & _ & _). split.
    + replace (outstanding _) with (outstanding w); [done|].
      unfold outstanding. simpl. by rewrite Hfl, Hsplit.
    + destruct Hc. unfold unsent in *. rewrite Hfl, ?Hsplit in *. simpl in *.
      assert (sc_flushing (w_sc w) = true) as Hf by by apply iv_flushing0.
      split; simpl; try done; rewrite Hflag, Hf; done.
Qed.

(** Callbacks are taken from the waiters. *)
Lemma control_fire w n ready :
  control_inv w → w_firing w = [] → w_poll w = PIdle →
  dn_waiters (w_dn w) = ready.*1 ++ dn_waiters n →
  dn_lastDurable (w_dn w) ≤ dn_lastDurable n →
  Forall (λ p, p.2 = None → target p.1 ≤ dn_lastDurable n ∧ reported w (target p.1)) ready →
  (dn_closed n = true → dn_waiters n = []) →
  control_inv (set_dn w n ready).
Proof.
  intros [] Hfi Hpoll Hw Hd Hready Hcl. split; simpl; try done.
  - rewrite Hw, fmap_app in iv_sorted0. by apply StronglySorted_app in iv_sorted0 as (_ & _ & ?).
  - rewrite Hw, Forall_app in iv_targets0. tauto.
  - eapply Forall_impl; [exact iv_done0|]. simpl. intros o Ho ?. specialize (Ho ltac:(done)). lia.
  - eapply Forall_impl; [exact Hready|]. intros o Ho ?. by apply Ho.
  - rewrite Hw, Forall_app in iv_waiting0. tauto.
  - rewrite Hw, Forall_app in iv_waiting0. destruct iv_waiting0 as [Hr _].
    rewrite Forall_fmap in Hr. rewrite !Forall_forall in *. intros p Hp E.
    split; [by apply Hr|by apply Hready].
Qed.

Lemma inv_fired w n ready :
  inv w → w_firing w = [] → w_poll w = PIdle → dn_waiters (w_dn w) = ready.*1 ++ dn_waiters n →
  dn_lastDurable (w_dn w) ≤ dn_lastDurable n →
  Forall (λ p, p.2 = None → target p.1 ≤ dn_lastDurable n ∧ reported w (target p.1)) ready →
  (dn_closed n = true → dn_waiters n = []) → inv (set_dn w n ready).
Proof.
  intros [Hq Hc] Hfi Hpoll Hw ???. split; [|by apply control_fire].
  replace (outstanding _) with (outstanding w); [done|].
  unfold outstanding. simpl. by rewrite Hfi, Hw, fmap_app, <-list_fmap_compose, <-!app_assoc.
Qed.

Lemma inv_closeAll w err :
  inv w → w_firing w = [] → w_poll w = PIdle →
  inv (let '(n, ready) := closeAll (w_dn w) err in set_dn w n ready).
Proof.
  intros Hi Hfi Hp. unfold closeAll. destruct (dn_closed (w_dn w)) eqn:Hcl.
  - apply inv_fired; try done. intros. by apply Hi.
  - apply inv_fired; simpl; try done.
    + by rewrite app_nil_r, <-list_fmap_compose, list_fmap_id.
    + apply Forall_fmap, Forall_forall. by intros.
Qed.

Lemma inv_set_poll w p polls :
  inv w → (∀ d, p = PGot (Ok d) → d ∈ w_polls w ++ polls) → (p ≠ PIdle → w_firing w = []) →
  inv (set_poll w p polls).
Proof.
  intros [Hq Hc] Hp Hf. split; [done|]. set (w1 := set_poll w p polls).
  assert (Hrep : ∀ q, reported w q → reported w1 q).
  { intros q (d & Hd & Hle). exists d. split; [apply elem_of_app; by left|done]. }
  destruct Hc. split; try done.
  - eapply Forall_impl; [exact iv_fires0|]. intros x Hx E. by destruct (Hx E); auto.
  - eapply Forall_impl; [exact iv_acked0|]. intros x Hx E. by destruct (Hx E); auto.
Qed.

Lemma inv_ask w : inv w → w_poll w = PAsk → inv (poll_ask w).
Proof.
  intros Hi Hp. apply inv_set_poll; [done| |].
  - intros d [= ->]. apply elem_of_app. right. apply list_elem_of_here.
  - intros _. apply (iv_polling _ (iv_control _ Hi)). by rewrite Hp.
Qed.

Lemma inv_act w r : inv w → w_poll w = PGot r → inv (poll_act w r).
Proof.
  intros Hi Hp. unfold poll_act. set (w1 := set_poll w PIdle []).
  assert (Hfi : w_firing w1 = []) by (apply (iv_polling _ (iv_control _ Hi)); by rewrite Hp).
  assert (Hi1 : inv w1) by (by apply inv_set_poll).
  destruct r as [d|e]; [|by apply inv_closeAll].
  assert (Hd : ∀ q, q ≤ d → reported w1 q).
  { intros q Hle. exists d. split; [|done]. apply elem_of_app. left. by apply (iv_got _ (iv_control _ Hi)). }
  unfold fire. pose proof (split_ready_spec d (dn_waiters (w_dn w1))) as Hsp.
  destruct (split_ready d (dn_waiters (w_dn w1))) as [ready rest]. destruct Hsp as [Hw Hr].
  apply inv_fired; simpl; try done.
  - by rewrite <-list_fmap_compose, list_fmap_id.
  - case_decide; simpl in *; lia.
  - apply Forall_fmap. eapply Forall_impl; [exact Hr|]. simpl. intros x Hx _.
    split; [case_decide; simpl in *; lia|by apply Hd].
  - intros Hcl. pose proof (iv_closed _ (iv_control _ Hi1) Hcl) as Hnil.
    rewrite Hnil in Hw. by destruct ready, rest.
Qed.

Lemma inv_callback w d err rest :
  inv w → w_firing w = (d, err) :: rest → inv (run_callback w d err rest).
Proof.
  intros [Hq Hc] Hfi. unfold run_callback. split.
  - apply (queue_finish _ _ [] _ _ {| oc_job := cb d; oc_err := err; oc_target := target d |});
      [|done]. unfold outstanding in Hq. rewrite Hfi in Hq. exact Hq.
  - destruct Hc. rewrite Hfi in *. apply Forall_cons in iv_firing0 as [??].
    apply Forall_cons in iv_fires0 as [??]. split; simpl; try done.
    + apply Forall_app. split; [done|]. by constructor.
    + apply Forall_app. split; [done|]. by constructor.
    + intros Hp. by specialize (iv_polling0 Hp).
Qed.

Lemma inv_close w : inv w → inv (close_committer w).
Proof.
  intros [Hq Hc]. unfold close_committer. set (w1 := set_sc _ _ _).
  apply (failJobs_inv w1 errStoreClosed (sc_pending (w_sc w))
    ((cb ∘ fst <$> w_firing w) ++ (cb <$> dn_waiters (w_dn w)) ++ flush_jobs (w_flush w)) []).
  - unfold outstanding in Hq. simpl. by rewrite app_nil_r, <-!app_assoc.
  - destruct Hc. split; simpl; try done.
    + unfold unsent in *. simpl. rewrite app_nil_r. rewrite app_assoc, fmap_app in iv_applied0.
      by apply StronglySorted_app in iv_applied0 as (_ & ? & _).
    + unfold unsent in *. simpl. rewrite app_nil_r. rewrite app_assoc, Forall_app in iv_applied_old0.
      tauto.
  - unfold outstanding. simpl. by rewrite !app_nil_r.
Qed.

Lemma inv_step w w' : step w w' → inv w → inv w'.
Proof.
  intros Hstep Hi.
  destruct Hstep as [w a st|w a st now batch st' c Ha Hb Hp|w a st now batch st' resps Ha Hp
    |w a st lp sse Ha|w jobs|w seq j jobs|w seq|w s'|w Hp Hfi _|w|w r|w d err rest|w|w _ _ Hp Hfi].
  - by apply inv_spawn.
  - assert (0 ≤ st_writeTail st) by apply (q_streamers _ _ _ _ (iv_queue _ Hi) _ _ Ha).
    apply planBurst_frame in Hp as [? Hle]; [|done..]. by eapply inv_commit; [..|apply Hle].
  - apply planBurst_quiet_frame in Hp. by eapply inv_set_streamer.
  - by eapply inv_set_streamer.
  - by apply inv_flush.
  - by apply inv_subscribe.
  - by eapply inv_next.
  - by apply inv_engine.
  - by apply inv_set_poll.
  - by apply inv_ask.
  - by apply inv_act.
  - by eapply inv_callback.
  - by apply inv_close.
  - by apply inv_closeAll.
Qed.

Lemma reachable_inv s n w : reachable s n w → inv w.
Proof.
  unfold reachable. intros Hr. pose proof (inv_initial s n) as Hi. revert Hi.
  induction Hr as [|x y z Hxy _ IH]; [done|]. intros Hi. apply IH. by eapply inv_step.
Qed.

(** *** The reader-visible tail *)

Lemma finish_tail w o a st :
  w_streamers w !! a = Some st →
  ∃ st', w_streamers (finish w o) !! a = Some st' ∧
    (st_tail st' = st_tail st ∨
     (oc_err o = None ∧ job_st (oc_job o) = a ∧ st_tail st' = job_targetTail (oc_job o))).
Proof.
  intros Ha. simpl. destruct (decide (job_st (oc_job o) = a)) as [<-|Hne].
  - rewrite lookup_alter_eq, Ha. simpl. eexists. split; [done|].
    destruct (oc_err o); simpl; auto.
  - rewrite lookup_alter_ne by done. eauto.
Qed.

Lemma failJobs_tail jobs : ∀ w e a st,
  w_streamers w !! a = Some st →
  ∃ st', w_streamers (failJobs w e jobs) !! a = Some st' ∧ st_tail st' = st_tail st.
Proof.
  induction jobs as [|j jobs IH]; intros w e a st Ha; simpl; [eauto|].
  destruct (finish_tail w {| oc_job := j; oc_err := Some e; oc_target := 0 |} a st Ha)
    as (st1 & H1 & [E1|[? _]]); [|done].
  destruct (IH (failJob w e j) e a st1 H1) as (st2 & H2 & E2). exists st2. split; [done|congruence].
Qed.

Lemma commit_tail w b st0 st c a st1 :
  w_streamers w !! b = Some st0 → st_tail st = st_tail st0 →
  w_streamers w !! a = Some st1 →
  ∃ st', w_streamers (commit w b st c) !! a = Some st' ∧ st_tail st' = st_tail st1.
Proof.
  intros Hb Et Ha. unfold commit.
  destruct (applyWriter_frame st (cb_pend c) (cb_metaChanged c)) as (Et' & _ & _).
  set (st2 := set_pending _ _). set (w1 := set_streamer w b st2 _).
  assert (∃ st', w_streamers w1 !! a = Some st' ∧ st_tail st' = st_tail st1) as (st' & H' & E').
  { simpl. destruct (decide (b = a)) as [<-|].
    - rewrite lookup_insert_eq. eexists. split; [done|]. simpl. simplify_eq. congruence.
    - rewrite lookup_insert_ne by done. eauto. }
  destruct (sc_closed (w_sc w1)).
  { rewrite <-E'. by apply (failJobs_tail [_]). }
  destruct (sc_flushing _); [by exists st'|]. destruct (takeBatchLocked _). by exists st'.
Qed.

Lemma step_tail w w' a st :
  inv w → step w w' → w_streamers w !! a = Some st →
  ∃ st', w_streamers w' !! a = Some st' ∧ st_tail st ≤ st_tail st'.
Proof.
  intros Hi Hstep Ha.
  assert (Hsame : ∀ sts : gmap Z streamer, (∃ st', sts !! a = Some st' ∧ st_tail st' = st_tail st) →
    ∃ st', sts !! a = Some st' ∧ st_tail st ≤ st_tail st') by (intros ? (st' & ? & E); exists st'; split; [done|lia]).
  assert (Hset : ∀ b st0 st1 n, w_streamers w !! b = Some st0 → st_tail st1 = st_tail st0 →
    ∃ st', w_streamers (set_streamer w b st1 n) !! a = Some st' ∧ st_tail st' = st_tail st).
  { intros b st0 st1 n Hb Et. simpl. destruct (decide (b = a)) as [<-|].
    - rewrite lookup_insert_eq. eexists. split; [done|]. congruence.
    - rewrite lookup_insert_ne by done. eauto. }
  destruct Hstep as [w b st0 Hb|w b st0 now batch st1 c Hb Hbd Hp|w b st0 now batch st1 resps Hb Hp
    |w b st0 lp sse Hb|w jobs Hfl|w seq j jobs|w seq|w s'|w|w|w r|w d err rest Hfi|w|w _ _ _ Hfi].
  - exists st. simpl. rewrite lookup_insert_ne by congruence. done.
  - apply Hsame. apply planBurst_frame in Hp as [[Et _ _] _]; [|apply (q_streamers _ _ _ _ (iv_queue _ Hi) _ _ Hb)|done].
    by eapply commit_tail.
  - apply Hsame. apply planBurst_quiet_frame in Hp as [Et _ _]. by eapply Hset.
  - apply Hsame. by eapply Hset.
  - apply Hsame. unfold flush_commit. destruct (store_CommitAsync _ _) as [s' [q|e]]; [eauto|].
    by apply failJobs_tail.
  - apply Hsame. unfold flush_subscribe. destruct (subscribe _ _); [|eauto].
    by apply (failJobs_tail [_]).
  - apply Hsame. unfold flush_next. case_decide; [eauto|]. destruct (takeBatchLocked _). eauto.
  - apply Hsame. eauto.
  - apply Hsame. eauto.
  - apply Hsame. eauto.
  - apply Hsame. unfold poll_act. destruct r; [destruct (fire _ _)|destruct (closeAll _ _)]; eauto.
  - destruct (finish_tail (set_dn w (w_dn w) rest)
      {| oc_job := cb d; oc_err := err; oc_target := target d |} a st Ha) as (st' & H' & Hor).
    exists st'. split; [done|]. destruct Hor as [->|(_ & Hst & ->)]; [lia|]. simpl in *.
    pose proof (si_chain _ _ _ _ (q_streamers _ _ _ _ (iv_queue _ Hi) _ _ Ha)) as Hch.
    unfold outstanding in Hch. rewrite Hfi in Hch. simpl in Hch.
    rewrite tails_of_cons, decide_True in Hch by done. simpl in Hch.
    inversion_clear Hch as [|?? _ Hf]. by inversion_clear Hf.
  - apply Hsame. unfold close_committer. by apply failJobs_tail.
  - apply Hsame. unfold stop_notifier. destruct (closeAll _ _). eauto.
Qed.

(** ** Properties *)

(** C7: every append handed to the shared committer is answered exactly once,
    through any interleaving of streams, flushes, polls, failures and shutdown:
    the jobs answered and the jobs still on their way are together the jobs
    submitted, each once; and a job that waits in the queue always has a flush
    under way that will take it. *)
Theorem shared_commit_answers_once (s : S) n w :
  reachable s n w →
  (job_id <$> (oc_job <$> w_done w) ++ outstanding w) ≡ₚ seqZ 0 (w_nextJob w) ∧
  (sc_pending (w_sc w) ≠ [] → w_flush w ≠ FIdle).
Proof.
  intros Hr. destruct (reachable_inv s n w Hr) as [Hq Hc]. split; [apply Hq|].
  intros Hp Hidle. destruct (sc_flushing (w_sc w)) eqn:E.
  - by apply (iv_flushing _ Hc) in E.
  - by apply (iv_idle _ Hc) in E.
Qed.


(** Readers see every acknowledged append and never move back: at any moment
    a streamer's reader-visible tail covers all of its acknowledged appends and
    none of its unacknowledged ones, the count that keeps the streamer resident
    is the number of its unanswered appends, and no step of any goroutine lowers
    the tail. *)
Theorem shared_commit_read_after_ack (s : S) n w a st :
  reachable s n w → w_streamers w !! a = Some st →
  Forall (λ j, job_st j = a → job_targetTail j ≤ st_tail st) (acked (w_done w)) ∧
  Forall (λ j, job_st j = a → st_tail st ≤ job_targetTail j ≤ st_writeTail st) (outstanding w) ∧
  st_pending st = len (filter (λ j, job_st j = a) (outstanding w)) ∧
  (∀ w', step w w' → ∃ st', w_streamers w' !! a = Some st' ∧ st_tail st ≤ st_tail st').
Proof.
  intros Hr Ha. pose proof (reachable_inv s n w Hr) as Hi. destruct (iv_queue _ Hi).
  destruct (q_streamers0 _ _ Ha) as [Hch Hack Hp _].
  assert (Htl : ∀ l j, j ∈ l → job_st j = a → job_targetTail j ∈ tails_of a l).
  { intros l j Hj Hst. unfold tails_of. apply list_elem_of_fmap. exists j.
    split; [done|]. by apply list_elem_of_filter. }
  split_and!.
  - rewrite Forall_forall in Hack. apply Forall_forall. intros j Hj Hst. apply Hack. by apply Htl.
  - apply Forall_forall. intros j Hj Hst. specialize (Htl _ _ Hj Hst).
    inversion_clear Hch as [|?? Hs Hf]. apply Forall_app in Hf as [Hf _].
    rewrite Forall_forall in Hf. split; [by apply Hf|].
    apply StronglySorted_app in Hs as (Hle & _ & _). apply Hle; [done|by constructor].
  - rewrite Hp. unfold tails_of. by rewrite length_fmap.
  - intros w' Hstep. by eapply step_tail.
Qed.

End invariant.

(** ** A run, for the witnesses *)
Module CommitRun.
Definition request : appendReq :=
  {| rq_records := [["x"%byte; "y"%byte]]; rq_hasBody := true; rq_contentType := ["t"%byte];
     rq_closeStream := false; rq_streamSeq := None;
     rq_producer := Some {| ph_id := ["p"%byte]; ph_epoch := 0; ph_seq := 0 |} |}.

Section run.
  Context {S : Type} `{Storage S}.

(** A streamer at address 7 that hands one burst to the committer. *)
Definition spawned (s : S) : world S := set_streamer (initial s 1) 7 FreshStream.st 0.
Definition handed (s : S) : world S :=
  match planBurst s FreshStream.st 100 [request] with
  | (st, inr c) => commit (spawned s) 7 st c
  | (_, inl _) => spawned s
  end.
Definition flushed (s : S) : world S :=
  match w_flush (handed s) with
  | FCommit jobs => flush_commit (handed s) jobs
  | _ => handed s
  end.
Definition subscribed (s : S) : world S :=
  match w_flush (flushed s) with
  | FSubscribe seq (j :: jobs) => flush_subscribe (flushed s) seq j jobs
  | _ => flushed s
  end.
Definition asking (s : S) : world S := set_poll (subscribed s) PAsk [].
Definition answered (s : S) : world S := poll_ask (asking s).
Definition polled (s : S) : world S :=
  match w_poll (answered s) with PGot r => poll_act (answered s) r | _ => answered s end.
Definition acknowledged (s : S) : world S :=
  match w_firing (polled s) with
  | (d, err) :: rest => run_callback (polled s) d err rest
  | [] => polled s
  end.
End run.

Definition job : commitJob :=
  match w_flush (handed FreshStream.store) with
  | FCommit (j :: _) => j
  | _ => {| job_id := 0; job_st := 0; job_targetTail := 0; job_targetClosed := false;
            job_c := {| cb_pend := startPending FreshStream.st 0; cb_ops := []; cb_batch := [];
                        cb_responses := []; cb_accepted := []; cb_metaChanged := false;
                        cb_seg := {| seg_firstSeq := 0; seg_payloads := [] |} |} |}
  end.

Lemma spawned_reachable : reachable FreshStream.store 1 (spawned FreshStream.store).
Proof.
  eapply rtc_l; [|apply rtc_refl]. apply step_spawn; [done|done|vm_compute; done|done].
Qed.

(** Each step does what its name says; the checks compute only the outcome's shape. *)
Lemma handed_step : step (spawned FreshStream.store) (handed FreshStream.store).
Proof.
  assert (Hs : match (planBurst FreshStream.store FreshStream.st 100 [request]).2 with
               | inr _ => True | inl _ => False end) by (vm_compute; exact I).
  unfold handed. destruct (planBurst FreshStream.store FreshStream.st 100 [request])
    as [st [r|c]] eqn:E; [destruct Hs|].
  apply (step_burst (spawned FreshStream.store) 7 FreshStream.st 100 [request]);
    [done|by vm_compute|exact E].
Qed.

Lemma flushed_step : step (handed FreshStream.store) (flushed FreshStream.store).
Proof.
  assert (Hs : match w_flush (handed FreshStream.store) with FCommit _ => True | _ => False end)
    by (vm_compute; exact I).
  assert (Hseq : w_lastSeq (handed FreshStream.store) = 0) by (vm_compute; reflexivity).
  unfold flushed. destruct (w_flush (handed FreshStream.store)) as [|jobs|] eqn:E; try destruct Hs.
  apply step_flush; [done|]. intros s' q Hq. rewrite Hseq.
  apply (f_equal snd) in Hq. cbn in Hq. injection Hq as <-. apply u64_range.
Qed.

Lemma subscribed_step : step (flushed FreshStream.store) (subscribed FreshStream.store).
Proof.
  assert (Hs : match w_flush (flushed FreshStream.store) with
               | FSubscribe _ (_ :: _) => True | _ => False end) by (vm_compute; exact I).
  unfold subscribed. destruct (w_flush (flushed FreshStream.store)) as [| |seq [|j jobs]] eqn:E;
    try destruct Hs. by apply step_subscribe.
Qed.

Lemma asking_step : step (subscribed FreshStream.store) (asking FreshStream.store).
Proof.
  assert (Hs : length (dn_waiters (w_dn (subscribed FreshStream.store))) = 1%nat)
    by (vm_compute; reflexivity).
  assert (Hf : length (w_firing (subscribed FreshStream.store)) = 0%nat)
    by (vm_compute; reflexivity).
  assert (Hp : w_poll (subscribed FreshStream.store) = PIdle) by (vm_compute; reflexivity).
  unfold asking. generalize dependent (subscribed FreshStream.store). intros w Hs Hf Hp.
  apply step_poll; [exact Hp|by apply nil_length_inv|]. intros E. rewrite E in Hs. discriminate Hs.
Qed.

Lemma answered_step : step (asking FreshStream.store) (answered FreshStream.store).
Proof. unfold answered. apply step_ask. reflexivity. Qed.

Lemma polled_step : step (answered FreshStream.store) (polled FreshStream.store).
Proof.
  unfold polled. pose proof (step_act (answered FreshStream.store)) as Hs.
  unfold answered, poll_ask in *. cbn [w_poll set_poll] in *. apply Hs. reflexivity.
Qed.

Lemma acknowledged_step : step (polled FreshStream.store) (acknowledged FreshStream.store).
Proof.
  assert (Hs : length (w_firing (polled FreshStream.store)) = 1%nat) by (vm_compute; reflexivity).
  unfold acknowledged. destruct (w_firing (polled FreshStream.store)) as [|[d err] rest] eqn:E;
    [done|]. by apply step_callback.
Qed.

Lemma acknowledged_reachable : reachable FreshStream.store 1 (acknowledged FreshStream.store).
Proof.
  unfold reachable. etrans; [apply spawned_reachable|].
  eapply rtc_l; [apply handed_step|]. eapply rtc_l; [apply flushed_step|].
  eapply rtc_l; [apply subscribed_step|]. eapply rtc_l; [apply asking_step|].
  eapply rtc_l; [apply answered_step|]. eapply rtc_l; [apply polled_step|].
  eapply rtc_l; [apply acknowledged_step|]. apply rtc_refl.
Qed.
End CommitRun.

Lemma shared_commit_answers_once_witness :
  (job_id <$> (oc_job <$> w_done (CommitRun.acknowledged FreshStream.store))
     ++ outstanding (CommitRun.acknowledged FreshStream.store)) ≡ₚ [0].
Proof.
  assert (seqZ 0 (w_nextJob (CommitRun.acknowledged FreshStream.store)) = [0]) as <-
    by (by vm_compute).
  apply (shared_commit_answers_once FreshStream.store 1
           (CommitRun.acknowledged FreshStream.store)).
  apply CommitRun.acknowledged_reachable.
Defined.


Lemma shared_commit_read_after_ack_witness :
  ∃ st, w_streamers (CommitRun.acknowledged FreshStream.store) !! 7 = Some st ∧
    st_pending st = 0 ∧ st_tail st = 1.
Proof.
  assert (Hs : st_tail <$> w_streamers (CommitRun.acknowledged FreshStream.store) !! 7 = Some 1)
    by (vm_compute; reflexivity).
  destruct (w_streamers (CommitRun.acknowledged FreshStream.store) !! 7) as [st|] eqn:E; [|done].
  injection Hs as Hs. exists st. split; [done|]. split; [|done].
  destruct (shared_commit_read_after_ack FreshStream.store 1
    (CommitRun.acknowledged FreshStream.store) 7 st CommitRun.acknowledged_reachable E)
    as (_ & _ & -> & _). vm_compute. reflexivity.
Defined.

(** ** A failed asynchronous commit

    The store refuses the batch of a producer's first append: the append is
    answered with an error and nothing is stored. The streamer, though, has
    already recorded the producer's state, so the retry is taken for a duplicate:
    it is acknowledged, and its data is lost. *)
Module FailedCommit.
Definition store : faultyStore :=
  {| faulty_data := fake_data FreshStream.store; bad_get := []; bad_commit := true; torn := false |}.
Definition failed : world faultyStore := CommitRun.flushed store.
Definition retry : list appendResp :=
  match w_streamers failed !! 7 with
  | Some st =>
      match planBurst store st 101 [CommitRun.request] with
      | (_, inl resps) => resps
      | (_, inr _) => []
      end
  | None => []
  end.
End FailedCommit.

(** A failed asynchronous commit is not rolled back: the append is refused
    with status 500 and stores nothing, and its retry is acknowledged as a
    duplicate (204, next offset 1) although no record exists. *)
Theorem failed_async_commit_loses_append :
  (rs_status <$> concat ((λ o, job_replies (oc_job o) (oc_err o)) <$> w_done FailedCommit.failed))
    = [500] ∧
  view (w_store FailedCommit.failed) = view FailedCommit.store ∧
  view (w_store FailedCommit.failed) !! recordKey 1 0 = None ∧
  ((λ r, (rs_status r, rs_nextOffset r)) <$> FailedCommit.retry)
    = [(204, {| Offset.Seq := 1; Offset.Byte := 0 |})].
Proof. split_and!; vm_compute; reflexivity. Qed.
