(* ===== verification/Registry.v ===== *)
(** * The registry of resident streamers (internal/ds/registry.go)

    The registry is split over 64 shards by a hash of the path, so that requests
    for different streams rarely meet on one lock. A streamer is a pointer here,
    and the operations run under their shard's lock, so each is one step. The
    theorem: the shards together are one finite map. *)

From S2P Require Import Prelude.
From S2P Require Import Bytes.

Definition registryShardCount : Z := 64.
Definition spawnLockShardCount : Z := 64.

(** One step of the hash, on [uint32]. *)
Definition fnv1a_step (h : Z) (c : byte) : Z := u32 (Z.lxor h (byte_to_Z c) * 16777619).
Definition fnv1a (s : bytes) : Z := foldl fnv1a_step 2166136261 s.

(** The index [fnv1a(path) % n]; shards and spawn locks are indexed by it. *)
Definition shard_index (path : bytes) : nat := Z.to_nat (fnv1a path mod registryShardCount).
Definition lockFor (path : bytes) : nat := Z.to_nat (fnv1a path mod spawnLockShardCount).

Section registry.
  (** Pointers to streamers. *)
  Context {P : Type} `{EqDecision P}.

Local Abbreviation streamerRegistry := (list (gmap bytes P)).

Definition newStreamerRegistry : streamerRegistry := replicate (Z.to_nat registryShardCount) ∅.

Definition shardFor (r : streamerRegistry) (path : bytes) : gmap bytes P :=
  default ∅ (r !! shard_index path).

Definition reg_get (r : streamerRegistry) (path : bytes) : option P := shardFor r path !! path.
Definition reg_set (r : streamerRegistry) (path : bytes) (st : P) : streamerRegistry :=
  alter (<[path := st]>) (shard_index path) r.
Definition deleteIfCurrent (r : streamerRegistry) (path : bytes) (st : P) : streamerRegistry :=
  match reg_get r path with
  | Some cur => if decide (cur = st) then alter (delete path) (shard_index path) r else r
  | None => r
  end.
Definition deleteAndReturn (r : streamerRegistry) (path : bytes) : streamerRegistry * option P :=
  match reg_get r path with
  | Some st => (alter (delete path) (shard_index path) r, Some st)
  | None => (r, None)
  end.
(** Within a shard the order is the map's. *)
Definition drain (r : streamerRegistry) : streamerRegistry * list P :=
  ((λ _, ∅) <$> r, concat ((λ sh, (map_to_list sh).*2) <$> r)).

(** ** The map the shards stand for *)

Record reg_rep (r : streamerRegistry) (m : gmap bytes P) : Prop := {
  rr_length : length r = Z.to_nat registryShardCount;
  rr_shard : ∀ i sh path, r !! i = Some sh →
    sh !! path = if decide (i = shard_index path) then m !! path else None }.

Lemma shard_index_lt path : (shard_index path < Z.to_nat registryShardCount)%nat.
Proof.
  unfold shard_index, registryShardCount. pose proof (Z.mod_pos_bound (fnv1a path) 64). lia.
Qed.

Lemma reg_get_rep r m path : reg_rep r m → reg_get r path = m !! path.
Proof.
  intros [Hl Hs]. unfold reg_get, shardFor.
  destruct (lookup_lt_is_Some_2 r (shard_index path)) as [sh Hsh];
    [rewrite Hl; apply shard_index_lt|].
  rewrite Hsh. simpl. erewrite Hs by done. by rewrite decide_True.
Qed.

Lemma alter_rep r m path f m' :
  reg_rep r m →
  (∀ sh p, shard_index p = shard_index path →
     (∀ q, shard_index q = shard_index path → sh !! q = m !! q) → f sh !! p = m' !! p) →
  (∀ sh p, shard_index p ≠ shard_index path → sh !! p = None → f sh !! p = None) →
  (∀ p, shard_index p ≠ shard_index path → m' !! p = m !! p) →
  reg_rep (alter f (shard_index path) r) m'.
Proof.
  intros [Hl Hs] Hin Hout Hother. split; [by rewrite length_alter|].
  intros i sh p Hi. destruct (decide (i = shard_index path)) as [->|Hne].
  - rewrite list_lookup_alter_eq in Hi. apply fmap_Some in Hi as (sh0 & Hsh0 & ->).
    case_decide as Hp.
    + apply Hin; [done|]. intros q Hq. rewrite (Hs _ _ _ Hsh0), Hq. by rewrite decide_True.
    + apply Hout; [done|]. rewrite (Hs _ _ _ Hsh0). by rewrite decide_False.
  - rewrite list_lookup_alter_ne in Hi by done. rewrite (Hs _ _ _ Hi). case_decide; [|done].
    symmetry. apply Hother. congruence.
Qed.

Lemma newStreamerRegistry_rep : reg_rep newStreamerRegistry ∅.
Proof.
  split; [by apply length_replicate|]. intros i sh path [-> _]%lookup_replicate.
  rewrite !lookup_empty. by case_decide.
Qed.

Lemma reg_set_rep r m path st : reg_rep r m → reg_rep (reg_set r path st) (<[path := st]> m).
Proof.
  intros Hr. apply (alter_rep r m); [done|..].
  - intros sh p Hp Hsh. destruct (decide (p = path)) as [->|]; [by rewrite !lookup_insert_eq|].
    rewrite !lookup_insert_ne by done. auto.
  - intros sh p Hp Hn. rewrite lookup_insert_ne; [done|]. by intros ->.
  - intros p Hp. rewrite lookup_insert_ne; [done|]. by intros ->.
Qed.

Lemma delete_rep r m path :
  reg_rep r m → reg_rep (alter (delete path) (shard_index path) r) (delete path m).
Proof.
  intros Hr. apply (alter_rep r m); [done|..].
  - intros sh p Hp Hsh. destruct (decide (p = path)) as [->|]; [by rewrite !lookup_delete_eq|].
    rewrite !lookup_delete_ne by done. auto.
  - intros sh p Hp Hn. rewrite lookup_delete_ne; [done|]. by intros ->.
  - intros p Hp. rewrite lookup_delete_ne; [done|]. by intros ->.
Qed.

(** The shards are disjoint and cover the map. *)
Lemma elem_of_concat_shards r m st :
  reg_rep r m → st ∈ (drain r).2 ↔ ∃ path, m !! path = Some st.
Proof.
  intros [Hl Hs]. simpl. rewrite list_elem_of_In, in_concat. split.
  - intros (l & Hl' & Hin). apply list_elem_of_In in Hl', Hin.
    apply list_elem_of_fmap in Hl' as (sh & -> & [i Hi]%list_elem_of_lookup).
    apply list_elem_of_fmap in Hin as ([p x] & -> & Hp%elem_of_map_to_list).
    exists p. rewrite (Hs _ _ _ Hi) in Hp. by case_decide.
  - intros (path & Hp).
    destruct (lookup_lt_is_Some_2 r (shard_index path)) as [sh Hsh];
      [rewrite Hl; apply shard_index_lt|].
    exists (map_to_list sh).*2. split; apply list_elem_of_In.
    + apply list_elem_of_fmap. exists sh. split; [done|]. by eapply list_elem_of_lookup_2.
    + apply list_elem_of_fmap. exists (path, st). split; [done|]. apply elem_of_map_to_list.
      rewrite (Hs _ _ _ Hsh). by rewrite decide_True.
Qed.

(** Sharding is invisible. On shards that stand for a map, every operation of
    the registry is the operation of the map; in particular a stale unregister
    never removes a newer streamer of the same path, and draining yields exactly
    the resident streamers and leaves none. *)
Theorem registry_is_a_map r m path st :
  reg_rep r m →
  reg_get r path = m !! path ∧
  reg_rep (reg_set r path st) (<[path := st]> m) ∧
  reg_rep (deleteIfCurrent r path st) (if decide (m !! path = Some st) then delete path m else m) ∧
  (deleteAndReturn r path).2 = m !! path ∧
  reg_rep (deleteAndReturn r path).1 (delete path m) ∧
  (∀ x, x ∈ (drain r).2 ↔ ∃ p, m !! p = Some x) ∧
  reg_rep (drain r).1 ∅.
Proof.
  intros Hr. unfold deleteIfCurrent, deleteAndReturn. rewrite (reg_get_rep _ _ _ Hr).
  split_and!; [done|by apply reg_set_rep| | | |intros; by apply elem_of_concat_shards|].
  - destruct (m !! path) as [cur|] eqn:E; [|by rewrite decide_False].
    destruct (decide (cur = st)) as [->|].
    + rewrite decide_True by done. by apply delete_rep.
    + by rewrite decide_False by congruence.
  - by destruct (m !! path).
  - destruct (m !! path) eqn:E; simpl; [by apply delete_rep|]. by rewrite delete_id.
  - destruct Hr as [Hl _]. split; unfold drain; cbn [fst]; [by rewrite length_fmap|].
    intros i sh p (? & -> & _)%list_lookup_fmap_Some. rewrite lookup_empty. by case_decide.
Qed.

End registry.

Lemma registry_is_a_map_witness :
  reg_get (reg_set newStreamerRegistry ["/"; "a"]%byte 7) ["/"; "a"]%byte = Some 7 ∧
  reg_rep (deleteIfCurrent (reg_set newStreamerRegistry ["/"; "a"]%byte 7) ["/"; "a"]%byte 8)
    (<[["/"; "a"]%byte := 7]> ∅).
Proof.
  destruct (registry_is_a_map (reg_set newStreamerRegistry ["/"; "a"]%byte 7)
    (<[["/"; "a"]%byte := 7]> ∅) ["/"; "a"]%byte 8) as (Hg & _ & Hd & _).
  { apply reg_set_rep, newStreamerRegistry_rep. }
  split; [rewrite Hg; by rewrite lookup_insert_eq|exact Hd].
Defined.
