(* ===== verification/State.v ===== *)
(** * The State Protocol (internal/state/message.go, materializer.go)

    A JSON stream may carry change messages (insert, update, delete of an entity
    of a type) and control messages (snapshot boundaries, reset). The
    materializer folds them into entity state, skipping malformed messages. *)

From Stdlib Require Strings.String.
From S2P Require Import Prelude.

(** ** Messages *)

Module StateLiterals.
Import String.
Open Scope string_scope.
Definition OpInsert : bytes := list_byte_of_string "insert".
Definition OpUpdate : bytes := list_byte_of_string "update".
Definition OpDelete : bytes := list_byte_of_string "delete".
Definition ControlSnapshotStart : bytes := list_byte_of_string "snapshot-start".
Definition ControlSnapshotEnd : bytes := list_byte_of_string "snapshot-end".
Definition ControlReset : bytes := list_byte_of_string "reset".
Definition user : bytes := list_byte_of_string "user".
End StateLiterals.
Export StateLiterals.

(** The empty string is an unset field. *)
Record Headers : Type := mkHeaders {
  Operation : bytes; Control : bytes; Txid : bytes; Timestamp : bytes; HOffset : bytes }.

(** [Value] and [OldValue] are raw JSON; empty when missing. *)
Record Message : Type := mkMessage {
  MType : bytes; MKey : bytes; Value : bytes; OldValue : bytes; MHeaders : Headers }.

Definition IsControl (m : Message) : bool := bool_decide (Control (MHeaders m) ≠ []).

Inductive stateError : Type :=
| errMissingType | errMissingKey | errBadOperation (op : bytes)
| errMissingValue (op : bytes) | errBadControl (c : bytes) | errAmbiguousHeaders.

#[global] Instance stateError_eq_decision : EqDecision stateError.
Proof. solve_decision. Defined.

Definition Validate (m : Message) : option stateError :=
  let op := Operation (MHeaders m) in
  let c := Control (MHeaders m) in
  if decide (op ≠ [] ∧ c ≠ []) then Some errAmbiguousHeaders else
  if IsControl m then
    if decide (c = ControlSnapshotStart ∨ c = ControlSnapshotEnd ∨ c = ControlReset)
    then None else Some (errBadControl c)
  else if decide (MType m = []) then Some errMissingType
  else if decide (MKey m = []) then Some errMissingKey
  else if decide (op = OpInsert ∨ op = OpUpdate) then
    if decide (Value m = []) then Some (errMissingValue op) else None
  else if decide (op = OpDelete) then None
  else Some (errBadOperation op).

(** ** The materializer *)

Record Materializer : Type := mkMaterializer {
  types : gmap bytes (gmap bytes bytes);
  inSnapshot : bool }.

Definition NewMaterializer : Materializer := {| types := ∅; inSnapshot := false |}.

(** A valid message's effect. A change message creates its type's collection
    even when it deletes. *)
Definition apply_valid (m : Materializer) (msg : Message) : Materializer :=
  if IsControl msg then
    let c := Control (MHeaders msg) in
    if decide (c = ControlReset) then {| types := ∅; inSnapshot := false |}
    else if decide (c = ControlSnapshotStart) then {| types := types m; inSnapshot := true |}
    else if decide (c = ControlSnapshotEnd) then {| types := types m; inSnapshot := false |}
    else m
  else
    let coll := default ∅ (types m !! MType msg) in
    let op := Operation (MHeaders msg) in
    let coll' :=
      if decide (op = OpInsert ∨ op = OpUpdate) then <[MKey msg := Value msg]> coll
      else if decide (op = OpDelete) then delete (MKey msg) coll
      else coll in
    {| types := <[MType msg := coll']> (types m); inSnapshot := inSnapshot m |}.

Definition Apply (m : Materializer) (msg : Message) : Materializer * option stateError :=
  match Validate msg with
  | Some e => (m, Some e)
  | None => (apply_valid m msg, None)
  end.

Fixpoint ApplyAll (m : Materializer) (msgs : list Message) : Materializer * list stateError :=
  match msgs with
  | [] => (m, [])
  | msg :: rest =>
      let '(m1, err) := Apply m msg in
      let '(m2, errs) := ApplyAll m1 rest in
      (m2, option_list err ++ errs)
  end.

Definition Reset (m : Materializer) : Materializer := {| types := ∅; inSnapshot := false |}.
Definition InSnapshot (m : Materializer) : bool := inSnapshot m.
Definition Snapshot (m : Materializer) : gmap bytes (gmap bytes bytes) := types m.

(** ** What the state is: the last write of every entity *)

Definition entity (m : Materializer) (t k : bytes) : option bytes := types m !! t ≫= (.!! k).

(** The effect of one message on one entity: [None] leaves it alone. *)
Definition entity_effect (t k : bytes) (msg : Message) : option (option bytes) :=
  match Validate msg with
  | Some _ => None
  | None =>
      if IsControl msg then
        if decide (Control (MHeaders msg) = ControlReset) then Some None else None
      else if decide (MType msg = t ∧ MKey msg = k) then
        if decide (Operation (MHeaders msg) = OpDelete) then Some None else Some (Some (Value msg))
      else None
  end.

(** The last effect in a history. *)
Fixpoint last_effect (t k : bytes) (msgs : list Message) : option (option bytes) :=
  match msgs with
  | [] => None
  | msg :: rest =>
      match last_effect t k rest with Some e => Some e | None => entity_effect t k msg end
  end.

Definition valid (msg : Message) : Prop := Validate msg = None.
#[global] Instance valid_dec msg : Decision (valid msg).
Proof. unfold valid. apply _. Defined.

(** ** Lemmas *)

Lemma Apply_entity m msg t k :
  entity (Apply m msg).1 t k = default (entity m t k) (entity_effect t k msg).
Proof.
  unfold Apply, entity_effect. destruct (Validate msg) eqn:Hv; [done|]. cbn [fst].
  unfold apply_valid. destruct (IsControl msg) eqn:Hc.
  - repeat case_decide; done.
  - unfold entity. cbn [types].
    assert (Hop : Operation (MHeaders msg) = OpInsert ∨ Operation (MHeaders msg) = OpUpdate ∨
                  Operation (MHeaders msg) = OpDelete).
    { unfold Validate in Hv. rewrite Hc in Hv. repeat case_decide; try done; tauto. }
    assert (HiD : OpInsert ≠ OpDelete) by done. assert (HuD : OpUpdate ≠ OpDelete) by done.
    destruct (decide (MType msg = t)) as [->|Hne].
    2: { rewrite lookup_insert_ne by done. rewrite decide_False by tauto. done. }
    rewrite lookup_insert_eq. cbn [mbind option_bind].
    replace (types m !! t ≫= (.!! k)) with (default ∅ (types m !! t) !! k)
      by (destruct (types m !! t); [done|apply lookup_empty]).
    destruct (decide (MKey msg = k)) as [->|Hne].
    + rewrite (decide_True (P := t = t ∧ k = k)) by done. destruct Hop as [E|[E|E]]; rewrite E.
      * rewrite decide_True by tauto. rewrite decide_False by done. apply lookup_insert_eq.
      * rewrite decide_True by tauto. rewrite decide_False by done. apply lookup_insert_eq.
      * rewrite decide_False by naive_solver. rewrite decide_True, decide_True by done.
        apply lookup_delete_eq.
    + rewrite (decide_False (P := t = t ∧ MKey msg = k)) by tauto.
      repeat case_decide; rewrite ?lookup_insert_ne, ?lookup_delete_ne by done; done.
Qed.

Lemma ApplyAll_cons m msg rest :
  (ApplyAll m (msg :: rest)).1 = (ApplyAll (Apply m msg).1 rest).1.
Proof. simpl. destruct (Apply m msg) as [m1 err]. simpl. by destruct (ApplyAll m1 rest). Qed.

Lemma ApplyAll_entity m msgs t k :
  entity (ApplyAll m msgs).1 t k = default (entity m t k) (last_effect t k msgs).
Proof.
  revert m. induction msgs as [|msg rest IH]; intros m; [done|].
  rewrite ApplyAll_cons, IH, Apply_entity. simpl. by destruct (last_effect t k rest).
Qed.

Lemma ApplyAll_errors m msgs :
  (ApplyAll m msgs).2 = omap Validate msgs.
Proof.
  revert m. induction msgs as [|msg rest IH]; intros m; [done|]. simpl.
  unfold Apply. destruct (Validate msg) eqn:Hv; specialize (IH (Apply m msg).1);
    unfold Apply in IH; rewrite Hv in IH; simpl in IH;
    destruct (ApplyAll _ rest); simpl in *; by f_equal.
Qed.

Lemma ApplyAll_valid m msgs : (ApplyAll m msgs).1 = (ApplyAll m (filter valid msgs)).1.
Proof.
  revert m. induction msgs as [|msg rest IH]; intros m; [done|].
  rewrite ApplyAll_cons, IH, filter_cons. case_decide as Hv; [by rewrite ApplyAll_cons|].
  unfold Apply. by destruct (Validate msg) eqn:E.
Qed.

(** ** Properties *)

(** The materialised state of a history is its last write per entity: the
    value of the last valid insert or update of that type and key since the last
    reset and the last delete. One error is returned per malformed message, in
    order, and a malformed message changes nothing. *)
Theorem materializer_last_write m msgs t k :
  entity (ApplyAll m msgs).1 t k = default (entity m t k) (last_effect t k msgs) ∧
  (ApplyAll m msgs).2 = omap Validate msgs ∧
  (ApplyAll m msgs).1 = (ApplyAll m (filter valid msgs)).1.
Proof. split_and!; [apply ApplyAll_entity|apply ApplyAll_errors|apply ApplyAll_valid]. Qed.

(** The worked example of the protocol: two inserts and an update. *)
Definition headers_op (op : bytes) : Headers :=
  {| Operation := op; Control := []; Txid := []; Timestamp := []; HOffset := [] |}.
Definition change (k v op : bytes) : Message :=
  {| MType := user; MKey := k; Value := v; OldValue := []; MHeaders := headers_op op |}.

Example spec_example :
  entity (ApplyAll NewMaterializer
    [change ["1"] ["a"] OpInsert; change ["2"] ["b"] OpInsert; change ["3"] [] OpInsert;
     change ["1"] ["c"] OpUpdate])%byte.1 user ["1"%byte] = Some ["c"%byte].
Proof. vm_compute. reflexivity. Qed.
