(* ===== verification/Server.v ===== *)
(** * The server: streams by path (internal/ds/server.go, handlers.go)

    The server keeps the id counter and the registry of resident streamers over
    the store. Operations that hold [metaMu] (create, fork, delete, expiry) and
    the spawn of a streamer are single steps on this state. The clock is an
    argument: [now] in seconds, [nowMs] in milliseconds. *)

From S2P Require Import Prelude.
From S2P Require Import Bytes.
From S2P Require Import Keys.
From S2P Require Import Meta.
From S2P Require Import Offset.
From S2P Require Import Storage.
From S2P Require Import Loads.
From S2P Require Import Mime.
From S2P Require Import Json.
From S2P Require Import Streamer.

(** ** State *)

Record server (S : Type) : Type := mkServer {
  srv_store : S;
  srv_cfg : cacheConfig;
  srv_nextID : Z;
  srv_registry : gmap bytes streamer;   (** the resident streamers, Registry.v *)
  srv_deleting : list Z }.              (** background deletions started *)
Arguments mkServer {S}.
Arguments srv_store {S}. Arguments srv_cfg {S}. Arguments srv_nextID {S}.
Arguments srv_registry {S}. Arguments srv_deleting {S}.

Definition set_store {S : Type} (s : S) (srv : server S) : server S :=
  mkServer s (srv_cfg srv) (srv_nextID srv) (srv_registry srv) (srv_deleting srv).
Definition set_nextID {S : Type} (id : Z) (srv : server S) : server S :=
  mkServer (srv_store srv) (srv_cfg srv) id (srv_registry srv) (srv_deleting srv).
Definition set_registry {S : Type} (r : gmap bytes streamer) (srv : server S) : server S :=
  mkServer (srv_store srv) (srv_cfg srv) (srv_nextID srv) r (srv_deleting srv).
Definition startBackgroundDelete {S : Type} (id : Z) (srv : server S) : server S :=
  mkServer (srv_store srv) (srv_cfg srv) (srv_nextID srv) (srv_registry srv)
    (srv_deleting srv ++ [id]).

(** ** Results of creation *)

(** The [msg] of a 400 response. *)
Inductive createMsg : Type :=
| msgNone | msgInvalidJSON | msgInvalidForkOffset | msgForkBeyondLength | msgInvalidSubOffset
| msgSubOffsetRequiresFork | msgSubOffsetEmptySource | msgOvershootsCount | msgOvershootsLength
| msgInvalidBody.

Record createResult : Type := mkCreateResult {
  cr_status : Z;
  cr_msg : createMsg;
  cr_contentType : bytes;
  cr_nextOffset : Offset;
  cr_closed : bool }.

(** The composite literals: fields not named are zero. *)
Definition create_status (status : Z) : createResult :=
  {| cr_status := status; cr_msg := msgNone; cr_contentType := []; cr_nextOffset := offset0;
     cr_closed := false |}.
Definition create_bad (msg : createMsg) : createResult :=
  {| cr_status := 400; cr_msg := msg; cr_contentType := []; cr_nextOffset := offset0;
     cr_closed := false |}.
Definition create_ok (status : Z) (ct : bytes) (tail : Z) (closed : bool) : createResult :=
  {| cr_status := status; cr_msg := msgNone; cr_contentType := ct;
     cr_nextOffset := tailOffset tail; cr_closed := closed |}.

(** Early returns: [inl] is the result the function returns at once. *)
#[global] Instance early_ret : MRet (sum createResult) := λ A a, inr a.
#[global] Instance early_bind : MBind (sum createResult) := λ A B f r,
  match r with inl e => inl e | inr a => f a end.

(** [if err != nil { return createResult{status: 500} }] *)
Definition or500 {A} (r : result A) : createResult + A :=
  match r with Ok a => inr a | Err _ => inl (create_status 500) end.
(** [if c { return res }] *)
Definition return_if (c : bool) (res : createResult) : createResult + unit :=
  if c then inl res else inr tt.

Definition boolU64 (set : bool) (v : Z) : Z := if set then v else 0.
Definition boolI64 (set : bool) (v : Z) : Z := if set then v else 0.

Record createParams : Type := mkCreateParams {
  cp_path : bytes;
  cp_contentType : bytes;
  cp_ttl : Z;
  cp_ttlSet : bool;
  cp_expiresAt : Z;
  cp_expiresSet : bool;
  cp_closed : bool;
  cp_body : bytes }.

(** The initial records a body stands for. *)
Definition createRecords (contentType body : bytes) : createResult + list bytes :=
  if decide (body = []) then mret []
  else if isJSONStream contentType then
    match flattenJSON body with
    | Ok recs => mret recs
    | Err errEmptyArray => mret []
    | Err _ => inl (create_bad msgInvalidJSON)
    end
  else mret [body].

(** The operations for the records of a new stream, from [start] on. *)
Definition recordPuts (id start : Z) (records : list bytes) : list Op := recordOps id start 0 records.

(** A stream about to be created: its metadata, tail and batch. *)
Record newStream : Type := mkNewStream { nw_meta : StreamMeta; nw_tail : Z; nw_ops : list Op }.

Section server_ops.
  Context {S : Type} `{Storage S}.
  Implicit Types (srv : server S).

(** ** Creation *)

Definition newMeta (id nowUnix nowMs : Z) (p : createParams) : StreamMeta :=
  {| StreamID := id; ContentType := cp_contentType p;
     TTLSeconds := boolU64 (cp_ttlSet p) (cp_ttl p);
     ExpiresAt := boolI64 (cp_expiresSet p) (cp_expiresAt p);
     Closed := cp_closed p; CreatedAtMs := nowMs; IsPrivate := false;
     Deadline :=
       if cp_ttlSet p then u64 (u64 nowUnix + cp_ttl p + 1)
       else if decide (cp_expiresSet p = true ∧ 0 < cp_expiresAt p) then u64 (cp_expiresAt p) else 0;
     ForkedFrom := 0; ForkOffset := 0; ForkByte := 0 |}.

(** The operations every new stream has, after its records. *)
Definition streamPuts (path : bytes) (meta : StreamMeta) (tail nowUnix ttl : Z) : list Op :=
  let id := StreamID meta in
  [PutOp (metaKey path) (Marshal meta);
   PutOp (idMappingKey id) path;
   PutOp (tailKey id) (marshalTail tail nowUnix);
   PutOp idCounterKey (u64Value (u64 (id + 1)))]
  ++ (if decide (0 < Deadline meta) then [PutOp (expiryKey (Deadline meta) id) (u64Value ttl)] else []).

(** [createStream] up to its commit. *)
Definition createPlan srv (nowUnix nowMs : Z) (p : createParams) : createResult + newStream :=
  let s := srv_store srv in
  tomb ← or500 (loadTombstone s (cp_path p));
  _ ← return_if (match tomb with Some (r, _) => bool_decide (r = tombSoftDelete) | None => false end)
        (create_status 409);
  existing ← or500 (loadMeta s (cp_path p));
  match existing with
  | Some meta =>
      let reqTTL := boolU64 (cp_ttlSet p) (cp_ttl p) in
      let reqExpires := boolI64 (cp_expiresSet p) (cp_expiresAt p) in
      let matches := contentTypeMatches (ContentType meta) (cp_contentType p)
        && bool_decide (TTLSeconds meta = reqTTL) && bool_decide (ExpiresAt meta = reqExpires)
        && bool_decide (Closed meta = cp_closed p) in
      _ ← return_if (negb matches) (create_status 409);
      tailSeq ← or500 (loadTailSeq s (StreamID meta));
      inl (create_ok 200 (ContentType meta) tailSeq (Closed meta))
  | None =>
      records ← createRecords (cp_contentType p) (cp_body p);
      let id := srv_nextID srv in
      let meta := newMeta id nowUnix nowMs p in
      let n := len records in
      mret {| nw_meta := meta; nw_tail := n;
              nw_ops := recordPuts id 0 records
                        ++ streamPuts (cp_path p) meta n nowUnix (boolU64 (cp_ttlSet p) (cp_ttl p)) |}
  end.

(** The commit that ends [createStream] and [createFork]. *)
Definition commitNew srv (plan : createResult + newStream) : server S * createResult :=
  match plan with
  | inl res => (srv, res)
  | inr nw =>
      let '(s', err) := store_Commit (srv_store srv) (nw_ops nw) true in
      match err with
      | Some _ => (set_store s' srv, create_status 500)
      | None =>
          (set_nextID (u64 (StreamID (nw_meta nw) + 1)) (set_store s' srv),
           create_ok 201 (ContentType (nw_meta nw)) (nw_tail nw) (Closed (nw_meta nw)))
      end
  end.

Definition createStream srv (nowUnix nowMs : Z) (p : createParams) : server S * createResult :=
  commitNew srv (createPlan srv nowUnix nowMs p).

(** ** Lookup *)

(** [getOrSpawn]: the resident streamer, or a new one from durable state. *)
Definition getOrSpawn srv (path : bytes) : server S * result (option streamer) :=
  match srv_registry srv !! path with
  | Some st => (srv, Ok (Some st))
  | None =>
      let s := srv_store srv in
      match loadMeta s path with
      | Err e => (srv, Err e)
      | Ok None => (srv, Ok None)
      | Ok (Some meta) =>
          match loadTailSeq s (StreamID meta) with
          | Err e => (srv, Err e)
          | Ok tailSeq =>
              let st := newStreamer (srv_cfg srv) path meta tailSeq in
              (set_registry (<[path := st]> (srv_registry srv)) srv, Ok (Some st))
          end
      end
  end.

(** One turn of a resident streamer's goroutine: a burst is processed
    and answered ([run], its [reqs] case). *)
Definition burst srv (p : bytes) (now : Z) (batch : list appendReq) : server S * list appendResp :=
  match srv_registry srv !! p with
  | None => (srv, [])
  | Some st =>
      let '(s', st', resps) := processBurst (srv_store srv) st now batch in
      (set_registry (<[p:=st']> (srv_registry srv)) (set_store s' srv), resps)
  end.

(** And its [touch] case: a read was made since the last one. A clock reading is
    taken when the signal is served, and a stream that is not resident gets none. *)
Definition readRefresh srv (p : bytes) (now : Z) : server S :=
  match srv_registry srv !! p with
  | None => srv
  | Some st =>
      let '(s', st') := refreshTTLOnRead (srv_store srv) st now in
      set_registry (<[p:=st']> (srv_registry srv)) (set_store s' srv)
  end.

(** The tail and closure of a stream, from memory when it is resident. *)
Definition liveState srv (path : bytes) : result (option (Z * bool * option streamer)) :=
  match srv_registry srv !! path with
  | Some st => Ok (Some (st_tail st, st_closed st, Some st))
  | None =>
      meta ← loadMeta (srv_store srv) path;
      match meta with
      | None => mret None
      | Some m =>
          tailSeq ← loadTailSeq (srv_store srv) (StreamID m);
          mret (Some (tailSeq, Closed m, None))
      end
  end.

(** ** Start *)

(** The ids of the deletions a crash interrupted. *)
Definition resumeDeletions (s : S) : list Z :=
  match store_Scan s [ktDeletePending] (prefixEnd [ktDeletePending]) with
  | Err _ => []
  | Ok it =>
      omap (λ p : kv, if decide (9 ≤ length p.1)%nat then Some (be64Decode (take 8 (drop 1 p.1))) else None)
        (it_items it)
  end.

Definition NewServer (s : S) (cfg : cacheConfig) : result (server S) :=
  v ← store_Get s idCounterKey;
  let nextID := match v with
                | Some b => match parseU64Value b with
                            | Ok id => if decide (1 ≤ id) then id else 1
                            | Err _ => 1
                            end
                | None => 1
                end in
  mret (mkServer s cfg nextID ∅ (resumeDeletions s)).

End server_ops.
