(* ===== verification/Expiry.v ===== *)
(** * Deletion and expiry (internal/ds/expiry.go, handlers.go, fork.go)

    A stream without forks is hard-deleted: its addressable state goes in one
    batch that leaves a deletion cursor behind, and its records are reclaimed in
    the background (Deleter.v). A stream with forks is soft-deleted by a
    tombstone. Deleting a fork releases its source, and deletes the source in turn
    when it was soft-deleted and nothing refers to it any more. *)

From S2P Require Import Prelude.
From S2P Require Import Bytes.
From S2P Require Import Keys.
From S2P Require Import Meta.
From S2P Require Import Storage.
From S2P Require Import Loads.
From S2P Require Import Streamer.
From S2P Require Import Server.

Section expiry_ops.
  Context {S : Type} `{Storage S}.
  Implicit Types (srv : server S).

(** [removeStreamer]: the resident streamer of the path, if any, is retired. *)
Definition removeStreamer srv (path : bytes) : server S :=
  set_registry (delete path (srv_registry srv)) srv.

Definition removeStreamerLocked srv (path : bytes) (ops : list Op) : server S * option error :=
  let srv := removeStreamer srv path in
  let '(s', err) := store_Commit (srv_store srv) ops true in
  (set_store s' srv, err).

Definition deleteOps (path : bytes) (meta : StreamMeta) : list Op :=
  let id := StreamID meta in
  [DelOp (metaKey path); DelOp (idMappingKey id); DelOp (tailKey id); DelOp (writerSeqKey id);
   DelOp (refCountKey id); DelOp (tombstoneKey path); PutOp (deletePendingKey id) (u64Value 0)]
  ++ (if decide (0 < Deadline meta) then [DelOp (expiryKey (Deadline meta) id)] else []).

(** [dropForkRef]; [del] is [deleteStreamLocked], which calls it back. Errors
    are dropped. *)
Definition dropForkRef (del : server S → bytes → StreamMeta → server S * option error)
    srv (sourceID : Z) : server S :=
  let count := loadRefCount (srv_store srv) sourceID in
  let count := if decide (0 < count) then count - 1 else count in
  let srv := set_store (store_Commit (srv_store srv)
                          [PutOp (refCountKey sourceID) (u64Value count)] true).1 srv in
  if decide (0 < count) then srv else
  match loadMetaByID (srv_store srv) sourceID with
  | Ok (Some (meta, srcPath)) =>
      match loadTombstone (srv_store srv) srcPath with
      | Ok (Some _) => (del srv srcPath meta).1
      | _ => srv
      end
  | _ => srv
  end.

(** [fuel] bounds the chain of sources a deletion runs up. *)
Fixpoint deleteStreamLocked (fuel : nat) srv (path : bytes) (meta : StreamMeta)
  : server S * option error :=
  match fuel with
  | O => (srv, Some outOfFuel)
  | Datatypes.S n =>
      let '(srv, err) := removeStreamerLocked srv path (deleteOps path meta) in
      match err with
      | Some e => (srv, Some e)
      | None =>
          let srv := startBackgroundDelete (StreamID meta) srv in
          if decide (ForkedFrom meta = 0) then (srv, None)
          else (dropForkRef (deleteStreamLocked n) srv (ForkedFrom meta), None)
      end
  end.

(** A source has a smaller id than its forks. *)
Definition cascade_fuel (meta : StreamMeta) : nat := Datatypes.S (Z.to_nat (StreamID meta)).

Definition softDeleteLocked srv (path : bytes) (meta : StreamMeta) : server S * option error :=
  removeStreamerLocked srv path
    [PutOp (tombstoneKey path) (tombstoneValue tombSoftDelete (StreamID meta))].

Definition deleteStream srv (path : bytes) : server S * option error :=
  match loadTombstone (srv_store srv) path with
  | Err e => (srv, Some e)
  | Ok tomb =>
      if match tomb with Some (r, _) => bool_decide (r = tombSoftDelete) | None => false end
      then (srv, Some ErrGone)
      else
        match loadMeta (srv_store srv) path with
        | Err e => (srv, Some e)
        | Ok None => (srv, Some ErrNotFound)
        | Ok (Some meta) =>
            if decide (0 < loadRefCount (srv_store srv) (StreamID meta))
            then softDeleteLocked srv path meta
            else deleteStreamLocked (cascade_fuel meta) srv path meta
        end
  end.

(** ** The sweeper *)

Definition dropStaleExpiry srv (key : bytes) : server S :=
  set_store (store_Commit (srv_store srv) [DelOp key] false).1 srv.

Definition expireIfDue srv (deadline id : Z) (key : bytes) (now : Z) : server S :=
  match store_Get (srv_store srv) (idMappingKey id) with
  | Err _ => srv
  | Ok None => dropStaleExpiry srv key
  | Ok (Some path) =>
      match loadMeta (srv_store srv) path with
      | Err _ => srv
      | Ok None => dropStaleExpiry srv key
      | Ok (Some meta) =>
          if decide (StreamID meta ≠ id ∨ Deadline meta ≠ deadline) then dropStaleExpiry srv key
          else if decide (now < i64 deadline) then srv
          else (deleteStreamLocked (cascade_fuel meta) srv path meta).1
      end
  end.

Record due : Type := mkDue { due_deadline : Z; due_id : Z; due_key : bytes }.

Definition due_entry (p : kv) : option due :=
  if decide (17 ≤ length p.1)%nat
  then Some {| due_deadline := be64Decode (take 8 (drop 1 p.1));
               due_id := be64Decode (take 8 (drop 9 p.1)); due_key := p.1 |}
  else None.

(** The scan collects the due entries first; a scan error ends the collection. *)
Definition sweepOnce srv (now : Z) : server S :=
  match store_Scan (srv_store srv) [ktExpiryDeadline] (Some (expiryScanEnd (u64 now))) with
  | Err _ => srv
  | Ok it =>
      foldl (λ srv d, expireIfDue srv (due_deadline d) (due_id d) (due_key d) now)
        srv (omap due_entry (it_items it))
  end.

End expiry_ops.
