(* ===== verification/Deleter.v ===== *)
(** * Background deletion (internal/ds/deleter.go)

    The records and the producer state of a deleted stream are reclaimed in
    bounded durable chunks. The cursor under the stream's deletion key moves with
    every chunk, so a crash loses at most the running chunk: deletion resumes
    where it stopped. Each step below is one commit, so that other operations may
    run between steps. *)

From S2P Require Import Prelude.
From S2P Require Import Bytes.
From S2P Require Import Keys.
From S2P Require Import Meta.
From S2P Require Import Storage.
From S2P Require Import Loads.
From S2P Require Import Batch.
From S2P Require Import Read.

Definition deleteChunk : nat := 1000.

(** The loop of [collectKeys]. *)
Fixpoint collect_items (limit : nat) (items : list kv) (err : option error)
    (keys : list bytes) (lastSeq : Z) : result (list bytes * Z) :=
  match limit with
  | O => mret (keys, lastSeq)
  | S n =>
      match items with
      | [] => match err with Some e => Err e | None => mret (keys, lastSeq) end
      | (k, _) :: rest =>
          collect_items n rest err (keys ++ [k])
            (if decide (17 ≤ length k)%nat then be64Decode (take 8 (drop 9 k)) else lastSeq)
      end
  end.

(** Where a background deletion stands. *)
Inductive phase : Type :=
| PRecords (cursor : Z)
| PProducers
| PDone
| PFailed.

#[global] Instance phase_eq_decision : EqDecision phase.
Proof. solve_decision. Defined.

Section deleter_ops.
  Context {S : Type} `{Storage S}.
  Implicit Types (s : S).

Definition collectKeys s (start : bytes) (end_ : option bytes) (limit : nat)
  : result (list bytes * Z) :=
  it ← store_Scan s start end_;
  collect_items limit (it_items it) (it_err it) [] 0.

(** The cursor a deletion starts from. *)
Definition delete_start s (id : Z) : phase :=
  PRecords
    match store_Get s (deletePendingKey id) with
    | Ok (Some v) => match parseU64Value v with Ok c => c | Err _ => 0 end
    | _ => 0
    end.

(** One iteration of the loops of [backgroundDelete]. *)
Definition delete_step s (id : Z) (ph : phase) : S * phase :=
  match ph with
  | PRecords cursor =>
      match collectKeys s (recordKey id cursor) (recordPrefixEnd id) deleteChunk with
      | Err _ => (s, PFailed)
      | Ok ([], _) => (s, PProducers)
      | Ok (keys, lastSeq) =>
          let cursor := u64 (lastSeq + 1) in
          let '(s', err) :=
            store_Commit s ((DelOp <$> keys) ++ [PutOp (deletePendingKey id) (u64Value cursor)]) true in
          match err with
          | Some _ => (s', PFailed)
          | None => (s', PRecords cursor)
          end
      end
  | PProducers =>
      match collectKeys s (producerPrefix id) (producerPrefixEnd id) deleteChunk with
      | Err _ | Ok ([], _) =>
          let '(s', err) := store_Commit s [DelOp (deletePendingKey id)] true in
          (s', match err with Some _ => PFailed | None => PDone end)
      | Ok (keys, _) =>
          let '(s', err) := store_Commit s (DelOp <$> keys) true in
          (s', match err with Some _ => PFailed | None => PProducers end)
      end
  | PDone | PFailed => (s, ph)
  end.

Fixpoint delete_run (fuel : nat) s (id : Z) (ph : phase) : S * phase :=
  match fuel with
  | O => (s, ph)
  | Datatypes.S n => let '(s', ph') := delete_step s id ph in delete_run n s' id ph'
  end.

Definition backgroundDelete (fuel : nat) s (id : Z) : S * phase :=
  delete_run fuel s id (delete_start s id).

End deleter_ops.

(** ** What deletion reclaims *)

Definition reclaimed_key (id : Z) (k : skey) : bool :=
  match k with
  | KRecord i _ | KProducer i _ | KDeletePending i => bool_decide (i = id)
  | _ => false
  end.

(** [m'] is [m] without the records, the producers and the cursor of [id]. *)
Definition reclaimed (m m' : gmap bytes bytes) (id : Z) : Prop :=
  keys_wf m' ∧ ∀ k, skey_wf k →
    m' !! encode_skey k = if reclaimed_key id k then None else m !! encode_skey k.

(** The stream's keys that are still to go. *)
Definition garbage (m : gmap bytes bytes) (id : Z) : gmap bytes bytes :=
  filter (λ p, recordPrefix id `prefix_of` p.1 ∨ producerPrefix id `prefix_of` p.1) m.

(** ** Lemmas *)

Lemma recordKey_inj_seq id q1 q2 :
  recordKey id q1 = recordKey id q2 → is_u64 q1 → is_u64 q2 → q1 = q2.
Proof. intros H ??. apply app_inv_head in H. by apply be64_inj. Qed.

Lemma collect_items_keys limit items keys lastSeq :
  ∃ last, collect_items limit items None keys lastSeq = Ok (keys ++ (take limit items).*1, last).
Proof.
  revert items keys lastSeq. induction limit as [|n IH]; intros [|[k v] rest] keys lastSeq; simpl.
  1-3: by exists lastSeq; rewrite app_nil_r.
  edestruct IH as (last & ->). exists last. by rewrite <-app_assoc.
Qed.

Lemma recordKey_decode id q :
  is_u64 q → be64Decode (take 8 (drop 9 (recordKey id q))) = q.
Proof.
  intros. unfold recordKey. rewrite drop_app_length_eq, take_ge by len_lia.
  by rewrite be64Decode_value, be_value_be64, u64_small by (done || len_lia).
Qed.

Lemma collect_items_cons n k v rest keys l :
  (17 ≤ length k)%nat →
  collect_items (S n) ((k, v) :: rest) None keys l
  = collect_items n rest None (keys ++ [k]) (be64Decode (take 8 (drop 9 k))).
Proof. intros. simpl. by rewrite decide_True. Qed.

Lemma collect_items_record n id q v rest keys l :
  is_u64 q →
  collect_items (S n) ((recordKey id q, v) :: rest) None keys l
  = collect_items n rest None (keys ++ [recordKey id q]) q.
Proof.
  intros Hq. rewrite collect_items_cons by (rewrite length_recordKey; lia).
  by rewrite recordKey_decode.
Qed.

(** The sequence number returned is that of the last record collected. *)
Lemma collect_items_last id limit items keys lastSeq :
  Forall (λ p, ∃ q v, p = (recordKey id q, v) ∧ is_u64 q) items → (0 < limit)%nat → items ≠ [] →
  ∃ q v, last (take limit items) = Some (recordKey id q, v) ∧ is_u64 q ∧
    collect_items limit items None keys lastSeq = Ok (keys ++ (take limit items).*1, q).
Proof.
  intros Hf. revert limit keys lastSeq. induction Hf as [|p rest (q & v & -> & Hq) Hf IH];
    intros [|n] keys lastSeq Hn Hne; [lia|done|lia|].
  rewrite collect_items_record by done. rewrite firstn_cons.
  destruct (decide (n = 0%nat ∨ rest = [])) as [Hend|Hgo].
  - assert (take n rest = [] ∧ collect_items n rest None (keys ++ [recordKey id q]) q
      = Ok (keys ++ [recordKey id q], q)) as [-> ->].
    { destruct Hend as [->| ->]; [done|]. by destruct n. }
    by exists q, v.
  - destruct (IH n (keys ++ [recordKey id q]) q) as (q' & v' & Hl & Hq' & ->); [lia|tauto|].
    exists q', v'. split_and!; [|done|].
    + rewrite last_cons, Hl. done.
    + rewrite fmap_cons, <-app_assoc. done.
Qed.

Lemma apply_dels m keys k :
  apply_ops m (DelOp <$> keys) !! k = if decide (k ∈ keys) then None else m !! k.
Proof.
  revert m. induction keys as [|x keys IH]; intros m; [by rewrite decide_False by set_solver|].
  rewrite fmap_cons, apply_ops_cons, IH. unfold apply_op, DelOp. cbn [op_del op_key].
  destruct (decide (k ∈ keys)); [by rewrite decide_True by set_solver|].
  destruct (decide (k = x)) as [->|].
  - rewrite decide_True by set_solver. apply lookup_delete_eq.
  - rewrite decide_False by set_solver. by apply lookup_delete_ne.
Qed.

Lemma garbage_key_record id q v m :
  garbage m id !! recordKey id q = Some v ↔ m !! recordKey id q = Some v.
Proof.
  unfold garbage. rewrite map_lookup_filter_Some. split; [tauto|]. intros. split; [done|].
  left. by exists (be64 q).
Qed.

Lemma garbage_key_producer id pid v m :
  garbage m id !! producerKey id pid = Some v ↔ m !! producerKey id pid = Some v.
Proof.
  unfold garbage. rewrite map_lookup_filter_Some. split; [tauto|]. intros. split; [done|].
  right. by exists pid.
Qed.

(** Deleting garbage makes progress; other writes make no garbage. *)
Lemma garbage_shrinks m m' id k v :
  garbage m id !! k = Some v → m' !! k = None →
  (∀ k, k ≠ deletePendingKey id → m' !! k = m !! k ∨ m' !! k = None) →
  (base.size (garbage m' id) < base.size (garbage m id))%nat.
Proof.
  intros Hk Hk' Hm. apply map_subset_size, map_subset_alt. split.
  - apply map_subseteq_spec. intros x y. unfold garbage. rewrite !map_lookup_filter_Some.
    intros [Hx Hp]. split; [|done].
    destruct (Hm x) as [<-|?]; [|done|congruence]. intros ->. by destruct Hp as [[? [=]]|[? [=]]].
  - exists k. split; [|by eexists]. apply map_lookup_filter_None. by left.
Qed.

Lemma sorted_take_drop (l : list kv) n p x :
  StronglySorted kv_lt l → last (take n l) = Some p → x ∈ drop n l → kv_lt p x.
Proof.
  intros Hs Hp Hx. rewrite <-(take_drop n l) in Hs.
  eapply StronglySorted_app_1_elem_of; [exact Hs| |done].
  apply last_Some in Hp as (l' & ->). set_solver.
Qed.

Section deleter_proofs.
  Context {S : Type} `{StorageLaws S}.
  Context (id : Z) (m0 : gmap bytes bytes).
  Hypothesis Hid : is_u64 id.
  Implicit Types (s : S).

(** No record below [c] is left. *)
Definition no_records (m : gmap bytes bytes) (c : Z) : Prop :=
  ∀ q, is_u64 q → q < c → m !! recordKey id q = None.

(** The stored cursor is behind: what is below it is gone. *)
Definition cursor_ok (m : gmap bytes bytes) : Prop :=
  ∀ v, m !! deletePendingKey id = Some v → ∃ c, is_u64 c ∧ v = u64Value c ∧ no_records m c.

Definition phase_ok (m : gmap bytes bytes) (ph : phase) : Prop :=
  match ph with
  | PRecords c => is_u64 c ∧ no_records m c
  | PProducers => no_records m (2^64)
  | PDone => ∀ k, skey_wf k → reclaimed_key id k = true → m !! encode_skey k = None
  | PFailed => False
  end.

Record del_inv (m : gmap bytes bytes) (ph : phase) : Prop := {
  di_keys : keys_wf m;
  di_rest : ∀ k, skey_wf k → reclaimed_key id k = false → m !! encode_skey k = m0 !! encode_skey k;
  di_phase : phase_ok m ph;
  di_cursor : cursor_ok m }.

Definition del_measure (m : gmap bytes bytes) (ph : phase) : nat :=
  match ph with
  | PRecords _ => 2 + base.size (garbage m id)
  | PProducers => 1 + base.size (garbage m id)
  | PDone | PFailed => 0
  end.


Lemma healthy_scan_items s lo hi :
  healthy s → ∃ it, store_Scan s lo hi = Ok it ∧ it_err it = None ∧
    it_items it = range_items (view s) lo hi.
Proof.
  intros Hh. destruct (healthy_Scan s lo hi Hh) as (it & E & Herr).
  exists it. split_and!; [done..|]. apply Scan_view in E as [_ Hit]. auto.
Qed.

Lemma no_records_mono m m' c :
  no_records m c → (∀ q, m' !! recordKey id q = m !! recordKey id q ∨ m' !! recordKey id q = None) →
  no_records m' c.
Proof. intros Hn Hm q Hq Hlt. destruct (Hm q) as [->| ->]; [by apply Hn|done]. Qed.

(** A chunk: delete some of the stream's keys and move the cursor, perhaps. *)
Definition goes (sk : skey) : Prop := reclaimed_key id sk = true ∧ sk ≠ KDeletePending id.
Definition going (k : bytes) : Prop := ∃ sk, k = encode_skey sk ∧ skey_wf sk ∧ goes sk.

Lemma going_not_pending keys : Forall going keys → deletePendingKey id ∉ keys.
Proof.
  intros Hf Hin. rewrite Forall_forall in Hf. destruct (Hf _ Hin) as (sk & He & Hsk & _ & Hne).
  by apply (encode_skey_inj (KDeletePending id)) in He.
Qed.

Lemma chunk_inv m m' keys ph ph' (cur : option Z) k0 v0 :
  del_inv m ph → phase_ok m' ph' →
  Forall going keys → k0 ∈ keys → garbage m id !! k0 = Some v0 →
  m' = apply_ops m ((DelOp <$> keys) ++ from_option (λ c, [PutOp (deletePendingKey id) (u64Value c)]) [] cur) →
  (∀ c, cur = Some c → is_u64 c ∧ no_records m' c) →
  del_inv m' ph' ∧ (base.size (garbage m' id) < base.size (garbage m id))%nat.
Proof.
  intros [Hk Hrest _ Hcur] Hph Hkeys Hk0 Hg0 Hm' Hc.
  pose proof (going_not_pending keys Hkeys) as Hpk.
  assert (Hlk : ∀ k, k ≠ deletePendingKey id → m' !! k = if decide (k ∈ keys) then None else m !! k).
  { intros k Hne. subst m'. rewrite apply_ops_app, apply_ops_lookup_ne, apply_dels; [done|].
    destruct cur; simpl; [|done]. by apply Forall_singleton. }
  assert (Hpend : m' !! deletePendingKey id =
    match cur with Some c => Some (u64Value c) | None => m !! deletePendingKey id end).
  { subst m'. destruct cur as [c|]; simpl.
    - by rewrite (apply_ops_lookup_last _ _ _ []).
    - rewrite app_nil_r, apply_dels. by rewrite decide_False. }
  split; [split|].
  - subst m'. apply keys_wf_apply_ops; [done|]. apply Forall_app. split.
    + apply Forall_fmap. eapply Forall_impl; [exact Hkeys|]. intros k (sk & -> & Hsk & _).
      by exists sk.
    + destruct cur; simpl; [|done]. apply Forall_singleton. by exists (KDeletePending id).
  - intros k Hwf Hre. rewrite Hlk.
    2: { intros He. apply (encode_skey_inj k (KDeletePending id)) in He as ->; [|done..].
         simpl in Hre. by rewrite bool_decide_eq_true_2 in Hre. }
    rewrite decide_False; [by apply Hrest|]. intros Hin. rewrite Forall_forall in Hkeys.
    destruct (Hkeys _ Hin) as (sk & He & Hsk & Hre' & _). apply encode_skey_inj in He as ->; [|done..].
    congruence.
  - done.
  - intros v. rewrite Hpend. destruct cur as [c|]; intros Hv.
    { apply (inj Some) in Hv. destruct (Hc c eq_refl). by exists c. } destruct (Hcur v Hv) as (c & ? & -> & Hn). exists c. split_and!; [done..|].
    eapply no_records_mono; [exact Hn|]. intros q. rewrite Hlk by done. case_decide; auto.
  - eapply garbage_shrinks; [exact Hg0| |].
    + rewrite Hlk; [by rewrite decide_True|]. intros ->. done.
    + intros k Hne. rewrite Hlk by done. case_decide; auto.
Qed.

Lemma record_in_scan m c q v :
  keys_wf m → is_u64 c → is_u64 q → c ≤ q → m !! recordKey id q = Some v →
  (recordKey id q, v) ∈ range_items m (recordKey id c) (recordPrefixEnd id).
Proof.
  intros Hwf Hc Hq Hle Hv. apply elem_of_range_items. split; [done|].
  by apply (record_scan_exact id c (KRecord id q)); [done|done|done|exists q].
Qed.

Lemma scan_keys_reclaimed m c n :
  keys_wf m → is_u64 c →
  Forall going
    (take n (range_items m (recordKey id c) (recordPrefixEnd id))).*1.
Proof.
  intros Hwf Hc. apply Forall_fmap, Forall_take.
  eapply Forall_impl; [by apply record_scan_tail|].
  intros p (q & v & -> & Hq & _). exists (KRecord id q). split_and!; [done|done|].
  split; [by apply bool_decide_eq_true_2|done].
Qed.

Lemma delete_records_eq s c keys lastSeq :
  collectKeys s (recordKey id c) (recordPrefixEnd id) deleteChunk = Ok (keys, lastSeq) → keys ≠ [] →
  healthy s → ∃ s', delete_step s id (PRecords c) = (s', PRecords (u64 (lastSeq + 1))) ∧ healthy s' ∧
    view s' = apply_ops (view s)
      ((DelOp <$> keys) ++ [PutOp (deletePendingKey id) (u64Value (u64 (lastSeq + 1)))]).
Proof.
  intros Hc Hne Hh.
  destruct (healthy_Commit s ((DelOp <$> keys) ++
    [PutOp (deletePendingKey id) (u64Value (u64 (lastSeq + 1)))]) true Hh) as (s' & E & Hh').
  exists s'. split_and!; [|done|by apply Commit_ok in E]. cbn [delete_step]. rewrite Hc.
  destruct keys; [done|]. by rewrite E.
Qed.

Lemma delete_step_records s c :
  healthy s → del_inv (view s) (PRecords c) →
  let r := delete_step s id (PRecords c) in
  healthy r.1 ∧ del_inv (view r.1) r.2 ∧
  (del_measure (view r.1) r.2 < del_measure (view s) (PRecords c))%nat.
Proof.
  intros Hh Hinv. pose proof Hinv as [Hk Hrest [Hc Hn] Hcur]. destruct (healthy_scan_items s (recordKey id c) (recordPrefixEnd id) Hh)
    as (it & Hit & Herr & Hitems).
  pose proof (record_scan_tail (view s) id Hk Hid c Hc) as Htail. rewrite <-Hitems in Htail.
  pose proof (scan_keys_reclaimed (view s) c deleteChunk Hk Hc) as Hkeys. rewrite <-Hitems in Hkeys.
  pose proof (λ q v Hq Hle, record_in_scan (view s) c q v Hk Hc Hq Hle) as Hscan.
  pose proof (range_items_sorted (view s) (recordKey id c) (recordPrefixEnd id)) as Hsorted.
  rewrite <-Hitems in Hsorted. setoid_rewrite <-Hitems in Hscan.
  destruct (decide (it_items it = [])) as [Hnil|Hne].
  { cbn [delete_step]. unfold collectKeys. rewrite Hit. cbn [mbind result_bind].
    rewrite Herr, Hnil. cbn. rewrite Hnil in Hscan.
    split_and!; [done| |lia]. split; [done..| |done].
    intros q Hq _. destruct (decide (q < c)); [by apply Hn|].
    destruct (view s !! recordKey id q) as [v|] eqn:Hv; [|done].
    pose proof (Hscan q v Hq ltac:(lia) Hv) as Hin. by apply elem_of_nil in Hin. }
  destruct (collect_items_last id deleteChunk (it_items it) [] 0) as (q & v & Hlast & Hq & Hcol);
    [|unfold deleteChunk; lia|done|].
  { eapply Forall_impl; [exact Htail|]. intros p (q & v & -> & Hq & _). by exists q, v. }
  apply last_Some_elem_of in Hlast as Hin.
  assert (Hv : view s !! recordKey id q = Some v).
  { apply elem_of_take in Hin as (i & Hi & _). apply list_elem_of_lookup_2 in Hi.
    rewrite Hitems in Hi. by apply elem_of_range_items in Hi as [? _]. }
  assert (Hkin : recordKey id q ∈ (take deleteChunk (it_items it)).*1).
  { apply list_elem_of_fmap. by exists (recordKey id q, v). }
  assert (Hbelow : ∀ q' v', is_u64 q' → q' ≤ q → view s !! recordKey id q' = Some v' →
    recordKey id q' ∈ (take deleteChunk (it_items it)).*1).
  { intros q' v' Hq' Hle Hv'. destruct (decide (q' < c)); [by rewrite Hn in Hv'|].
    apply (Hscan q' v' Hq' ltac:(lia)) in Hv'. rewrite <-(take_drop deleteChunk (it_items it)) in Hv'.
    apply elem_of_app in Hv' as [Hv'|Hv']; [apply list_elem_of_fmap; by exists (recordKey id q', v')|].
    eapply sorted_take_drop in Hv'; [|done..]. apply recordKey_lt in Hv'; [lia|done..]. }
  destruct (delete_records_eq s c (take deleteChunk (it_items it)).*1 q) as (s' & -> & Hh' & Hview);
    [|intros E; rewrite E in Hkin; by apply elem_of_nil in Hkin|done|].
  { unfold collectKeys. rewrite Hit. cbn [mbind result_bind]. by rewrite Herr, Hcol. }
  split; [done|]. cbn [fst snd].
  assert (Hnew : no_records (view s') (u64 (q + 1))).
  { intros q' Hq' Hlt. rewrite Hview, apply_ops_app, apply_ops_lookup_ne, apply_dels
      by by apply Forall_singleton.
    case_decide as Hd; [done|]. destruct (view s !! recordKey id q') as [v'|] eqn:Hv'; [|done].
    destruct Hd. eapply Hbelow; [done| |done].
    destruct (decide (q + 1 < 2^64)); [rewrite u64_small in Hlt by (unfold is_u64 in *; lia); lia|].
    unfold is_u64 in *. lia. }
  pose proof (u64_range (q + 1)) as Hr.
  destruct (chunk_inv (view s) (view s') _ _ (PRecords (u64 (q + 1))) (Some (u64 (q + 1)))
    (recordKey id q) v Hinv (conj Hr Hnew) Hkeys Hkin) as [? Hsz];
    [by apply garbage_key_record|done|by intros ? [= <-]|].
  split; [done|]. simpl. lia.
Qed.

Lemma producer_scan m n :
  keys_wf m →
  Forall going (take n (range_items m (producerPrefix id) (producerPrefixEnd id))).*1.
Proof.
  intros Hwf. apply Forall_fmap, Forall_take, Forall_forall. intros [k v] [Hm Hr]%elem_of_range_items.
  destruct (Hwf _ _ Hm) as (sk & Hsk & ->). apply producer_scan_exact in Hr as (pid & ->); [|done..].
  exists (KProducer id pid). split_and!; [done..|]. split; [by apply bool_decide_eq_true_2|done].
Qed.

Lemma producer_in_scan m pid v :
  m !! producerKey id pid = Some v →
  (producerKey id pid, v) ∈ range_items m (producerPrefix id) (producerPrefixEnd id).
Proof.
  intros Hv. apply elem_of_range_items. split; [done|].
  apply (producer_scan_exact id (KProducer id pid)); [done..|by exists pid].
Qed.

(** The last step: the cursor goes. *)
Lemma finish_inv m :
  del_inv m PProducers → (∀ pid, m !! producerKey id pid = None) →
  del_inv (apply_ops m [DelOp (deletePendingKey id)]) PDone.
Proof.
  intros [Hk Hrest Hn Hcur] Hp.
  assert (Hlk : ∀ k, apply_ops m [DelOp (deletePendingKey id)] !! k =
    if decide (k = deletePendingKey id) then None else m !! k).
  { intros k. pose proof (apply_dels m [deletePendingKey id] k) as E. simpl fmap in E. rewrite E.
    destruct (decide (k = deletePendingKey id)) as [->|]; [by rewrite decide_True by set_solver|].
    by rewrite decide_False by set_solver. }
  split.
  - apply keys_wf_apply_ops; [done|]. apply Forall_singleton. by exists (KDeletePending id).
  - intros k Hwf Hre. rewrite Hlk, decide_False; [by apply Hrest|]. intros He.
    apply (encode_skey_inj k (KDeletePending id)) in He as ->; [|done..].
    simpl in Hre. by rewrite bool_decide_eq_true_2 in Hre.
  - intros k Hwf Hre. rewrite Hlk. case_decide; [done|].
    destruct k; try done; apply bool_decide_eq_true in Hre; subst; cbn [encode_skey].
    + destruct Hwf as [_ Hq]. apply Hn; [done|unfold is_u64 in Hq; lia].
    + apply Hp.
    + done.
  - intros v. rewrite Hlk. by rewrite decide_True.
Qed.

Lemma delete_step_producers s :
  healthy s → del_inv (view s) PProducers →
  let r := delete_step s id PProducers in
  healthy r.1 ∧ del_inv (view r.1) r.2 ∧
  (del_measure (view r.1) r.2 < del_measure (view s) PProducers)%nat.
Proof.
  intros Hh Hinv. pose proof Hinv as [Hk Hrest Hn Hcur]. cbn [delete_step]. unfold collectKeys.
  destruct (healthy_scan_items s (producerPrefix id) (producerPrefixEnd id) Hh) as (it & -> & Herr & Hitems).
  cbn [mbind result_bind]. rewrite Herr.
  destruct (collect_items_keys deleteChunk (it_items it) [] 0) as (l & ->). rewrite app_nil_l.
  pose proof (producer_scan (view s) deleteChunk Hk) as Hkeys. rewrite <-Hitems in Hkeys.
  pose proof (producer_in_scan (view s)) as Hscan. setoid_rewrite <-Hitems in Hscan.
  destruct (decide (it_items it = [])) as [Hnil|Hne].
  - destruct (healthy_Commit s [DelOp (deletePendingKey id)] true Hh) as (s' & E & Hh').
    rewrite Hnil, take_nil. cbn [fmap list_fmap]. rewrite E. cbn [fst snd]. split; [done|].
    apply Commit_ok in E. rewrite E. split; [|simpl; lia]. apply finish_inv; [done|].
    intros pid. destruct (view s !! producerKey id pid) eqn:Hv; [|done].
    apply Hscan in Hv. rewrite Hnil in Hv. by apply elem_of_nil in Hv.
  - assert (∃ k0 v0, (k0, v0) ∈ take deleteChunk (it_items it) ∧ (k0, v0) ∈ it_items it)
      as (k0 & v0 & Hk0 & Hin).
    { destruct (it_items it) as [|[k0 v0] rest]; [done|]. exists k0, v0.
      split; [|apply list_elem_of_here]. change deleteChunk with (Datatypes.S 999).
      rewrite firstn_cons. apply list_elem_of_here. }
    apply (list_elem_of_fmap_2 fst) in Hk0. cbn [fst] in Hk0.
    assert (Hg : garbage (view s) id !! k0 = Some v0).
    { rewrite Hitems in Hin. apply elem_of_range_items in Hin as [Hm Hr].
      destruct (Hk _ _ Hm) as (sk & Hsk & ->). apply producer_scan_exact in Hr as (pid & ->); [|done..].
      by apply garbage_key_producer. }
    revert Hkeys Hk0. generalize ((take deleteChunk (it_items it)).*1). intros keys Hkeys Hk0.
    destruct (healthy_Commit s (DelOp <$> keys) true Hh) as (s' & E & Hh').
    destruct keys as [|k1 keys']; [by apply elem_of_nil in Hk0|]. rewrite E. cbn [fst snd].
    split; [done|]. apply Commit_ok in E.
    destruct (chunk_inv (view s) (view s') (k1 :: keys') PProducers PProducers None k0 v0 Hinv)
      as [? Hsz]; [|done|done|done|by rewrite E, app_nil_r|done|split; [done|simpl; lia]].
    eapply no_records_mono; [exact Hn|]. intros q. rewrite E, apply_dels. case_decide; auto.
Qed.

Lemma delete_step_inv s ph :
  healthy s → del_inv (view s) ph → ph ≠ PDone →
  let r := delete_step s id ph in
  healthy r.1 ∧ del_inv (view r.1) r.2 ∧
  (del_measure (view r.1) r.2 < del_measure (view s) ph)%nat.
Proof.
  intros Hh Hinv Hne. destruct ph; [by apply delete_step_records|by apply delete_step_producers|done|].
  by destruct Hinv as [_ _ [] _].
Qed.

Lemma delete_run_inv n s ph :
  healthy s → del_inv (view s) ph →
  let r := delete_run n s id ph in
  healthy r.1 ∧ del_inv (view r.1) r.2 ∧
  ((del_measure (view s) ph ≤ n)%nat → r.2 = PDone).
Proof.
  revert s ph. induction n as [|n IH]; intros s ph Hh Hinv; simpl.
  - split_and!; [done..|]. intros Hm. destruct ph; simpl in Hm; [lia|lia|done|].
    by destruct Hinv as [_ _ [] _].
  - destruct (decide (ph = PDone)) as [->|Hne].
    + cbn [delete_step]. destruct (IH s PDone Hh Hinv) as (? & ? & Hd). split_and!; [done..|].
      intros _. apply Hd. simpl. lia.
    + destruct (delete_step_inv s ph Hh Hinv Hne) as (Hh' & Hinv' & Hlt).
      destruct (delete_step s id ph) as [s' ph']. cbn [fst snd] in *.
      destruct (IH s' ph' Hh' Hinv') as (? & ? & Hd). split_and!; [done..|].
      intros Hm. apply Hd. lia.
Qed.

(** A start, or a restart, from a store whose cursor is behind. *)
Lemma delete_start_inv s ph :
  healthy s → del_inv (view s) ph → del_inv (view s) (delete_start s id).
Proof.
  intros Hh [Hk Hrest _ Hcur]. split; [done..| |done]. unfold delete_start.
  destruct (healthy_Get s (deletePendingKey id) Hh) as [r Hr]. rewrite Hr. apply Get_view in Hr.
  assert (Hzero : is_u64 0 ∧ no_records (view s) 0)
    by (split; [done|]; intros q Hq; unfold is_u64 in Hq; lia).
  destruct r as [v|]; [|done]. destruct (Hcur v) as (c & Hc & -> & Hn); [done|].
  rewrite parseU64Value_be64, u64_small by done. done.
Qed.

Lemma delete_measure_start s : del_measure (view s) (delete_start s id) = (2 + base.size (garbage (view s) id))%nat.
Proof. done. Qed.

End deleter_proofs.

(** A deletion about to start, or to resume. *)
Record deletion_pending (m : gmap bytes bytes) (id : Z) : Prop := {
  dp_id : is_u64 id;
  dp_keys : keys_wf m;
  dp_cursor : cursor_ok id m }.

Section deleter_properties.
  Context {S : Type} `{StorageLaws S}.
  Implicit Types (s : S).

Lemma pending_inv s id :
  healthy s → deletion_pending (view s) id → del_inv id (view s) (view s) (delete_start s id).
Proof.
  intros Hh [Hid Hk Hc]. unshelve eapply delete_start_inv; [exact (PRecords 0)|done|].
  split; [done..| |done]. split; [done|]. intros q Hq. unfold is_u64 in Hq. lia.
Qed.

Lemma backgroundDelete_reclaims n fuel s id :
  healthy s → deletion_pending (view s) id →
  let s1 := (backgroundDelete n s id).1 in
  (2 + base.size (garbage (view s1) id) ≤ fuel)%nat →
  ∃ s2, backgroundDelete fuel s1 id = (s2, PDone) ∧ healthy s2 ∧ reclaimed (view s) (view s2) id.
Proof.
  intros Hh Hp s1 Hfuel. pose proof (dp_id _ _ Hp) as Hid.
  destruct (delete_run_inv id (view s) Hid n s _ Hh (pending_inv s id Hh Hp)) as (Hh1 & Hinv1 & _).
  fold (backgroundDelete n s id) in Hh1, Hinv1. fold s1 in Hh1, Hinv1.
  pose proof (delete_start_inv id (view s) s1 _ Hh1 Hinv1) as Hstart.
  destruct (delete_run_inv id (view s) Hid fuel s1 _ Hh1 Hstart) as (Hh2 & Hinv2 & Hdone).
  fold (backgroundDelete fuel s1 id) in Hh2, Hinv2, Hdone.
  rewrite (Hdone Hfuel) in Hinv2. exists (backgroundDelete fuel s1 id).1. split_and!; [|done|].
  - rewrite <-(Hdone Hfuel). by destruct (backgroundDelete fuel s1 id).
  - destruct Hinv2 as [Hk Hrest Hall _]. split; [done|]. intros k Hwf.
    destruct (reclaimed_key id k) eqn:E; [by apply Hall|by apply Hrest].
Qed.

(** C12: deletion is resumable and exact. On a store that does not fail, interrupt
    a background deletion after any number of chunks and start it again: it ends,
    within two commits more than the stream has keys left, with every record and
    producer state of the stream reclaimed and its cursor gone, and every other
    key of the store as it was. *)
Theorem deletion_resumes n fuel s id :
  healthy s → deletion_pending (view s) id →
  let s1 := (backgroundDelete n s id).1 in
  (2 + base.size (garbage (view s1) id) ≤ fuel)%nat →
  ∃ s2, backgroundDelete fuel s1 id = (s2, PDone) ∧ reclaimed (view s) (view s2) id.
Proof.
  intros Hh Hp s1 Hfuel.
  destruct (backgroundDelete_reclaims n fuel s id Hh Hp Hfuel) as (s2 & ? & _ & ?). by exists s2.
Qed.

End deleter_properties.

(** A deleted stream with two records and a producer, beside another stream. *)
Module DeleteSample.
Definition entries : batch :=
  [(KRecord 1 0, Some [x00; "a"%byte]); (KRecord 1 1, Some [x00; "b"%byte]);
   (KProducer 1 ["p"%byte], Some []); (KDeletePending 1, Some (u64Value 0));
   (KRecord 2 0, Some [x00; "c"%byte])].
Definition store : fakeStore :=
  {| fake_data := apply_ops ∅ (encode_batch entries); fake_seq := 1; fake_closed := false |}.

Lemma deletes_wf : batch_wf entries.
Proof. unfold entries, batch_wf. by forall_list. Qed.

Lemma pending : deletion_pending (view store) 1.
Proof.
  split; [done|apply keys_wf_apply_batch; [apply keys_wf_empty|apply deletes_wf]|].
  intros v Hv. exists 0. split; [done|]. split; [|intros q Hq; unfold is_u64 in Hq; lia].
  assert (view store !! deletePendingKey 1 = Some (u64Value 0)) as E by (vm_compute; reflexivity).
  rewrite Hv in E. by apply (inj Some) in E.
Qed.
End DeleteSample.

Lemma deletion_resumes_witness :
  ∃ s2, backgroundDelete 6 (backgroundDelete 1 DeleteSample.store 1).1 1 = (s2, PDone) ∧
    reclaimed (view DeleteSample.store) (view s2) 1.
Proof.
  apply (deletion_resumes 1 6 DeleteSample.store 1); [exact I|apply DeleteSample.pending|].
  vm_compute. lia.
Defined.
