(* ===== verification/Fork.v ===== *)
(** * Forks (internal/ds/fork.go)

    A fork is a stream of its own whose first records are its source's: it stores
    the source's id and the sequence number where it diverges, and reads below
    that number go to the source (Read.v). A divergence inside a binary record
    copies the record's prefix into the fork. The source is kept alive by a
    reference count. *)

From S2P Require Import Prelude.
From S2P Require Import Bytes.
From S2P Require Import Keys.
From S2P Require Import Meta.
From S2P Require Import Decimal.
From S2P Require Import Offset.
From S2P Require Import Storage.
From S2P Require Import Loads.
From S2P Require Import Mime.
From S2P Require Import Read.
From S2P Require Import Json.
From S2P Require Import Streamer.
From S2P Require Import Server.

(** The empty string is an absent header. *)
Record forkParams : Type := mkForkParams {
  fp_path : bytes;
  fp_sourcePath : bytes;
  fp_forkOffsetRaw : bytes;
  fp_subOffsetRaw : bytes;
  fp_subOffsetSet : bool;
  fp_contentType : bytes;
  fp_ttl : Z;
  fp_ttlSet : bool;
  fp_expiresAt : Z;
  fp_expiresSet : bool;
  fp_closed : bool;
  fp_body : bytes }.

(** The inheritance table of expiry. *)
Definition forkTTL (src : StreamMeta) (p : forkParams) : Z * Z :=
  if fp_ttlSet p then (fp_ttl p, 0)
  else if fp_expiresSet p then (0, fp_expiresAt p)
  else if decide (0 < TTLSeconds src) then (TTLSeconds src, 0)
  else if decide (0 < ExpiresAt src) then (0, ExpiresAt src)
  else (0, 0).

Definition forkBodyRecords (contentType body : bytes) : result (list bytes) :=
  if isJSONStream contentType then
    match flattenJSON body with
    | Err errEmptyArray => Ok []
    | r => r
    end
  else Ok [body].

(** The fork offset, the source's tail by default. *)
Definition forkOffsetOf (p : forkParams) (sourceTail : Z) : createResult + Offset :=
  if decide (fp_forkOffsetRaw p = []) then mret {| Seq := sourceTail; Byte := 0 |}
  else match parseOffset (fp_forkOffsetRaw p) with
       | Err _ => inl (create_bad msgInvalidForkOffset)
       | Ok po => mret (if isNow po then {| Seq := sourceTail; Byte := 0 |} else off po)
       end.

Definition subOffsetOf (p : forkParams) (sourceTail : Z) : createResult + Z :=
  if fp_subOffsetSet p then
    match parseStrictUint (fp_subOffsetRaw p) with
    | None => inl (create_bad msgInvalidSubOffset)
    | Some n =>
        if decide (0 < n ∧ fp_forkOffsetRaw p = []) then inl (create_bad msgSubOffsetRequiresFork)
        else if decide (0 < n ∧ sourceTail = 0) then inl (create_bad msgSubOffsetEmptySource)
        else mret n
    end
  else mret 0.

(** The result of a handler that panics: net/http drops the connection, no status
    is sent. *)
Definition create_panic : createResult := create_status 0.

Section fork_ops.
  Context {S : Type} `{Storage S}.
  Implicit Types (srv : server S) (s : S).

(** The divergence [(divSeq, divByte)]. *)
Definition divergence s (sourceID sourceTail : Z) (sourceJSON : bool) (forkOff : Offset)
    (subOffset : Z) : createResult + (Z * Z) :=
  if sourceJSON then
    let divSeq := u64 (Seq forkOff + subOffset) in
    _ ← return_if (bool_decide (sourceTail < divSeq)) (create_bad msgOvershootsCount);
    mret (divSeq, 0)
  else
    let combined := u64 (Byte forkOff + subOffset) in
    if decide (0 < combined) then
      _ ← return_if (bool_decide (sourceTail ≤ Seq forkOff)) (create_bad msgOvershootsLength);
      payload ← or500 (recordAt s sourceID (Seq forkOff));
      match payload with
      | None => inl (create_bad msgOvershootsLength)
      | Some payload =>
          _ ← return_if (bool_decide (len payload < combined)) (create_bad msgOvershootsLength);
          mret (if decide (combined = len payload) then (u64 (Seq forkOff + 1), 0)
                else (Seq forkOff, combined))
      end
    else mret (Seq forkOff, Byte forkOff).

(** The new fork's metadata. *)
Definition forkMeta (id sourceID divSeq divByte : Z) (contentType : bytes) (ttlSecs expiresAt : Z)
    (closed : bool) (nowUnix nowMs : Z) : StreamMeta :=
  {| StreamID := id; ContentType := contentType; TTLSeconds := ttlSecs; ExpiresAt := expiresAt;
     Closed := closed; CreatedAtMs := nowMs; IsPrivate := false;
     Deadline := if decide (0 < ttlSecs) then u64 (u64 nowUnix + ttlSecs + 1)
                 else if decide (0 < expiresAt) then u64 expiresAt else 0;
     ForkedFrom := sourceID; ForkOffset := divSeq; ForkByte := divByte |}.

(** The records of a new fork: the copied prefix of a split record, then the
    body; with the tail they end at. *)
Definition forkRecords s (sourceID divSeq divByte : Z) (contentType body : bytes)
  : createResult + list bytes :=
  prefix ← (if decide (0 < divByte) then
              payload ← or500 (recordAt s sourceID divSeq);
              match payload with
              | None => inl (create_status 500)
              | Some payload =>
                  match go_slice payload 0 (Z.to_nat divByte) with
                  | Ok b => mret [b]
                  | Err _ => inl create_panic
                  end
              end
            else mret []);
  records ← (if decide (body = []) then mret []
             else match forkBodyRecords contentType body with
                  | Ok recs => mret recs
                  | Err _ => inl (create_bad msgInvalidBody)
                  end);
  mret (prefix ++ records).

(** [createFork] once the source is found. *)
Definition forkPlan srv (nowUnix nowMs : Z) (p : forkParams) (src : StreamMeta)
  : createResult + newStream :=
  let s := srv_store srv in
  let sourceID := StreamID src in
  sourceTail ← or500 (loadTailSeq s sourceID);
  let sourceJSON := isJSONStream (ContentType src) in
  _ ← return_if (bool_decide (fp_contentType p ≠ []) &&
                 negb (contentTypeMatches (ContentType src) (fp_contentType p))) (create_status 409);
  let contentType := if decide (fp_contentType p = []) then ContentType src else fp_contentType p in
  forkOff ← forkOffsetOf p sourceTail;
  _ ← return_if (bool_decide (sourceTail < Seq forkOff ∨ (Seq forkOff = sourceTail ∧ 0 < Byte forkOff)))
        (create_bad msgForkBeyondLength);
  subOffset ← subOffsetOf p sourceTail;
  '(divSeq, divByte) ← divergence s sourceID sourceTail sourceJSON forkOff subOffset;
  existing ← or500 (loadMeta s (fp_path p));
  let '(ttlSecs, expiresAt) := forkTTL src p in
  match existing with
  | Some ex =>
      let matches := bool_decide (ForkedFrom ex = sourceID) && bool_decide (ForkOffset ex = divSeq)
        && bool_decide (ForkByte ex = divByte) && contentTypeMatches (ContentType ex) contentType
        && bool_decide (TTLSeconds ex = ttlSecs) && bool_decide (ExpiresAt ex = expiresAt)
        && bool_decide (Closed ex = fp_closed p) in
      _ ← return_if (negb matches) (create_status 409);
      tailSeq ← or500 (loadTailSeq s (StreamID ex));
      inl (create_ok 200 (ContentType ex) tailSeq (Closed ex))
  | None =>
      let id := srv_nextID srv in
      let meta := forkMeta id sourceID divSeq divByte contentType ttlSecs expiresAt (fp_closed p)
                    nowUnix nowMs in
      records ← forkRecords s sourceID divSeq divByte contentType (fp_body p);
      let tail := u64 (divSeq + len records) in
      mret {| nw_meta := meta; nw_tail := tail;
              nw_ops := recordPuts id divSeq records
                        ++ streamPuts (fp_path p) meta tail nowUnix ttlSecs
                        ++ [PutOp (refCountKey sourceID) (u64Value (u64 (loadRefCount s sourceID + 1)))] |}
  end.

Definition soft_deleted (tomb : option (byte * Z)) : bool :=
  match tomb with Some (r, _) => bool_decide (r = tombSoftDelete) | None => false end.

Definition createFork srv (nowUnix nowMs : Z) (p : forkParams) : server S * createResult :=
  let s := srv_store srv in
  commitNew srv (
    tomb ← or500 (loadTombstone s (fp_path p));
    _ ← return_if (soft_deleted tomb) (create_status 409);
    tomb ← or500 (loadTombstone s (fp_sourcePath p));
    _ ← return_if (soft_deleted tomb) (create_status 409);
    src ← or500 (loadMeta s (fp_sourcePath p));
    match src with
    | None => inl (create_status 404)
    | Some src => forkPlan srv nowUnix nowMs p src
    end).

End fork_ops.
