(* ===== verification/Public.v ===== *)
(** * The embeddable surface (internal/ds/public.go, server.go)

    The methods an in-process caller uses: metadata, creation, deletion, append
    and close, the catch-up cursor, the materialisation of State Protocol
    streams. They wrap the operations of the other files; the status codes of
    the HTTP surface become errors. The live cursor is in Live.v. *)

From S2P Require Import Prelude.
From S2P Require Import Bytes.
From S2P Require Import Meta.
From S2P Require Import Offset.
From S2P Require Import Storage.
From S2P Require Import Loads.
From S2P Require Import Mime.
From S2P Require Import Read.
From S2P Require Import State.
From S2P Require Import Streamer.
From S2P Require Import Server.
From S2P Require Import Expiry.
From S2P Require Import Fork.

Record StreamInfo : Type := mkStreamInfo {
  si_StreamID : Z;
  si_ContentType : bytes;
  si_IsJSON : bool;
  si_Closed : bool;
  si_Tail : Z;
  si_ForkedFrom : Z;
  si_ForkOffset : Z;
  si_TTLSeconds : Z;
  si_ExpiresAt : Z }.

Definition createResultToOffset (res : createResult) : result Offset :=
  if decide (cr_status res = 201 ∨ cr_status res = 200) then Ok (cr_nextOffset res)
  else if decide (cr_status res = 409) then Err ErrConflict
  else if decide (cr_status res = 404) then Err ErrNotFound
  else if decide (cr_status res = 400) then Err ErrBadRequest
  else Err errInternal.

(** The offset that comes with an error is kept: [ErrStreamClosed] has the tail. *)
Definition appendRespToOffset (resp : appendResp) : Offset * option error :=
  let s := rs_status resp in
  if decide (s = 200 ∨ s = 204) then (rs_nextOffset resp, None)
  else if decide (s = 409) then (rs_nextOffset resp, Some ErrStreamClosed)
  else if decide (s = 404) then (offset0, Some ErrNotFound)
  else if decide (s = 400) then (offset0, Some ErrBadRequest)
  else (offset0, Some (match rs_err resp with Some e => e | None => errAppendFailed s end)).

(** A catch-up cursor; [cu_start] moves. *)
Record Cursor : Type := mkCursor {
  cu_path : bytes;
  cu_id : Z;
  cu_forkedFrom : Z;
  cu_forkOffset : Z;
  cu_isJSON : bool;
  cu_start : Offset }.

Definition set_start (o : Offset) (c : Cursor) : Cursor :=
  {| cu_path := cu_path c; cu_id := cu_id c; cu_forkedFrom := cu_forkedFrom c;
     cu_forkOffset := cu_forkOffset c; cu_isJSON := cu_isJSON c; cu_start := o |}.

Section public_ops.
  Context {S : Type} `{Storage S}.
  Implicit Types (srv : server S).

Definition Info srv (path : bytes) : result StreamInfo :=
  tomb ← loadTombstone (srv_store srv) path;
  if soft_deleted tomb then Err ErrGone else
  meta ← loadMeta (srv_store srv) path;
  match meta with
  | None => Err ErrNotFound
  | Some meta =>
      live ← liveState srv path;
      let '(tail, closed) := match live with Some (t, c, _) => (t, c) | None => (0, false) end in
      mret {| si_StreamID := StreamID meta; si_ContentType := ContentType meta;
              si_IsJSON := isJSONStream (ContentType meta); si_Closed := closed; si_Tail := tail;
              si_ForkedFrom := ForkedFrom meta; si_ForkOffset := ForkOffset meta;
              si_TTLSeconds := TTLSeconds meta; si_ExpiresAt := ExpiresAt meta |}
  end.

Definition CreateStream srv (nowUnix nowMs : Z) (path contentType : bytes)
  : server S * result Offset :=
  let contentType := if decide (contentType = []) then defaultContentType else contentType in
  let '(srv, res) := createStream srv nowUnix nowMs
    {| cp_path := path; cp_contentType := contentType; cp_ttl := 0; cp_ttlSet := false;
       cp_expiresAt := 0; cp_expiresSet := false; cp_closed := false; cp_body := [] |} in
  (srv, createResultToOffset res).

Definition CreateFork srv (nowUnix nowMs : Z) (path sourcePath : bytes) (at_ : Offset)
  : server S * result Offset :=
  let '(srv, res) := createFork srv nowUnix nowMs
    {| fp_path := path; fp_sourcePath := sourcePath; fp_forkOffsetRaw := offset_String at_;
       fp_subOffsetRaw := []; fp_subOffsetSet := false; fp_contentType := []; fp_ttl := 0;
       fp_ttlSet := false; fp_expiresAt := 0; fp_expiresSet := false; fp_closed := false;
       fp_body := [] |} in
  (srv, createResultToOffset res).

Definition DeleteStream srv (path : bytes) : server S * option error := deleteStream srv path.

(** ** Appends *)

(** A request through the stream's streamer, alone in its burst ([None]: the
    stream is no more). What concurrent requests add is in StreamerRefine.v: a
    burst answers as its requests one at a time. *)
Definition submitAppend srv (now : Z) (path : bytes) (req : appendReq)
  : server S * option appendResp :=
  let '(srv, r) := getOrSpawn srv path in
  match r with
  | Err e => (srv, Some (resp_error e))
  | Ok None => (srv, None)
  | Ok (Some _) => let '(srv, resps) := burst srv path now [req] in (srv, head resps)
  end.

(** The streamer an append goes to: residency proves that the stream is not
    soft-deleted, otherwise the tombstone is looked up first. *)
Definition resolveAppend srv (path : bytes) : server S * result (option streamer) :=
  match srv_registry srv !! path with
  | Some st => (srv, Ok (Some st))
  | None =>
      match loadTombstone (srv_store srv) path with
      | Err e => (srv, Err e)
      | Ok tomb => if soft_deleted tomb then (srv, Err ErrGone) else getOrSpawn srv path
      end
  end.

Definition appendOrClose srv (now : Z) (path : bytes) (records : list bytes) (closeStream : bool)
  : server S * (Offset * option error) :=
  let '(srv, r) := resolveAppend srv path in
  match r with
  | Err e => (srv, (offset0, Some e))
  | Ok None => (srv, (offset0, Some ErrNotFound))
  | Ok (Some st) =>
      let hasBody := bool_decide (records ≠ []) in
      let '(srv, resp) := submitAppend srv now path
        {| rq_records := records; rq_hasBody := hasBody;
           rq_contentType := if hasBody then ContentType (st_meta st) else [];
           rq_closeStream := closeStream; rq_streamSeq := None; rq_producer := None |} in
      (srv, match resp with
            | None => (offset0, Some ErrNotFound)
            | Some resp => appendRespToOffset resp
            end)
  end.

Definition Append srv (now : Z) (path : bytes) (records : list bytes) :=
  appendOrClose srv now path records false.
Definition CloseStream srv (now : Z) (path : bytes) := appendOrClose srv now path [] true.

(** ** Catch-up reads *)

Definition Read srv (path : bytes) (from : Offset) : result Cursor :=
  info ← Info srv path;
  mret {| cu_path := path; cu_id := si_StreamID info; cu_forkedFrom := si_ForkedFrom info;
          cu_forkOffset := si_ForkOffset info; cu_isJSON := si_IsJSON info; cu_start := from |}.

(** [Cursor.Next] with a context that is not done: the chunk, the offset after it
    and whether there may be more. A stream that is no more reads as empty. *)
Definition Cursor_Next srv (maxRead : Z) (c : Cursor) : Cursor * result (bytes * Offset * bool) :=
  match liveState srv (cu_path c) with
  | Err e => (c, Err e)
  | Ok live =>
      let tail := match live with Some (t, _, _) => t | None => 0 end in
      match readRange (srv_store srv) (cu_id c) (cu_forkedFrom c) (cu_forkOffset c) (cu_isJSON c)
              (cu_start c) tail maxRead with
      | Err e => (c, Err e)
      | Ok (body, next, upToDate) => (set_start next c, Ok (body, next, negb upToDate))
      end
  end.

(** A caller's loop: [Next] until there is no more; the chunks in order and the
    offset reached. *)
Fixpoint drain (fuel : nat) srv (maxRead : Z) (c : Cursor) : result (list bytes * Offset) :=
  match fuel with
  | O => Err outOfFuel
  | Datatypes.S n =>
      let '(c, r) := Cursor_Next srv maxRead c in
      '(body, next, more) ← r;
      if (more : bool) then '(chunks, last) ← drain n srv maxRead c; mret (body :: chunks, last)
      else mret ([body], next)
  end.

(** [Materialize]: the loop of [drain], with each chunk's messages applied.
    [json.Unmarshal] into a list of messages is the parameter [decode]. *)
Section materialize.
  Context (decode : bytes → option (list Message)).

Definition decodeStateMessages (body : bytes) : result (list Message) :=
  if decide (body = []) then mret []
  else match decode body with Some msgs => Ok msgs | None => Err ErrNotStateProtocolStream end.

Fixpoint materialize_loop (fuel : nat) srv (maxRead : Z) (c : Cursor) (mat : Materializer)
  : result (Materializer * Offset) :=
  match fuel with
  | O => Err outOfFuel
  | Datatypes.S n =>
      let '(c, r) := Cursor_Next srv maxRead c in
      '(body, next, more) ← r;
      msgs ← decodeStateMessages body;
      let mat := (ApplyAll mat msgs).1 in
      if (more : bool) then materialize_loop n srv maxRead c mat else mret (mat, next)
  end.

Definition Materialize (fuel : nat) srv (maxRead : Z) (path : bytes) : result (Materializer * Offset) :=
  cur ← Read srv path offset0;
  materialize_loop fuel srv maxRead cur NewMaterializer.

End materialize.

(** ** Tailing *)

(** [Tail]: the streamer is spawned before the tombstone is looked at. *)
Definition Tail srv (path : bytes) : server S * result streamer :=
  let '(srv, r) := getOrSpawn srv path in
  (srv, st ← r;
        match st with
        | Some st => mret st
        | None =>
            tomb ← loadTombstone (srv_store srv) path;
            if soft_deleted tomb then Err ErrGone else Err ErrNotFound
        end).

End public_ops.
