(* ===== verification/Catalog.v ===== *)
(** * The catalogue of streams: the server's invariant

    What the store holds between two operations of the server, seen as a map
    from paths to streams: each stream's configuration and abstract state
    (StreamSpec.v), and whether it was soft-deleted. [cat_ok] ties the catalogue
    to the bytes in the store: metadata, tail, records, id mapping, tombstone,
    expiry index, reference counts, the id counter and the deletion cursors. The
    lemmas are the effects of the server's batches on it: a new stream, a
    deletion, a released reference, a soft deletion, a burst. *)

From S2P Require Import Prelude.
From S2P Require Import Bytes.
From S2P Require Import Keys.
From S2P Require Import Meta.
From S2P Require Import Storage.
From S2P Require Import Loads.
From S2P Require Import Batch.
From S2P Require Import Read.
From S2P Require Import Streamer.
From S2P Require Import StreamSpec.
From S2P Require Import StreamerRefine.
From S2P Require Import Deleter.

(** ** The catalogue *)

Record entry : Type := mkEntry {
  e_meta : StreamMeta;      (** the configuration; closure and deadline are the state's *)
  e_state : astate;
  e_gone : bool }.          (** soft-deleted *)

Abbreviation catalog := (gmap bytes entry).

Definition e_id (e : entry) : Z := StreamID (e_meta e).
Definition e_source (e : entry) : Z := ForkedFrom (e_meta e).

(** The metadata as it is stored. *)
Definition e_stored (e : entry) : StreamMeta :=
  meta_with (e_meta e) (a_closed (e_state e)) (a_deadline (e_state e)).

(** The number of forks of a stream. *)
Definition forks (C : catalog) (id : Z) : Z :=
  Z.of_nat (base.size (filter (λ p : bytes * entry, e_source p.2 = id) C)).

(** The reference count the store holds; every failure counts as zero. *)
Definition refs (m : gmap bytes bytes) (id : Z) : Z :=
  match m !! refCountKey id with
  | Some v => match parseU64Value v with Ok n => n | Err _ => 0 end
  | None => 0
  end.

(** The keys a stream owns, reference counts apart. *)
Definition own_key (p : bytes) (i : Z) (k : skey) : bool :=
  match k with
  | KMeta q | KTombstone q => bool_decide (q = p)
  | KIDMapping j | KTail j | KWriterSeq j | KRecord j _ | KProducer j _ | KExpiry _ j
  | KDeletePending j => bool_decide (j = i)
  | KRefCount _ | KIDCounter => false
  end.

(** The id word of a key. *)
Definition key_id (k : skey) : option Z :=
  match k with
  | KIDMapping j | KTail j | KWriterSeq j | KRecord j _ | KProducer j _ | KExpiry _ j
  | KDeletePending j | KRefCount j => Some j
  | KMeta _ | KTombstone _ | KIDCounter => None
  end.

(** The stream [e] is at [p], all its parts in place. *)
Record entry_ok (m : gmap bytes bytes) (next : Z) (p : bytes) (e : entry) : Prop := {
  eo_rep : stream_rep m p (e_meta e) (e_state e);
  eo_wf : astate_wf (e_state e);
  eo_bound : a_tail (e_state e) < 2^63;
  eo_id : 0 < e_id e < next;
  eo_mapping : m !! idMappingKey (e_id e) = Some p;
  eo_tomb : m !! tombstoneKey p =
    if e_gone e then Some (tombstoneValue tombSoftDelete (e_id e)) else None;
  eo_base : a_base (e_state e) = ForkOffset (e_meta e);
  eo_source : 0 ≤ e_source e < e_id e;
  eo_root : e_source e = 0 → ForkOffset (e_meta e) = 0 }.

Definition live (C : catalog) (id : Z) : Prop := ∃ p e, C !! p = Some e ∧ e_id e = id.

Section catalogue.
  (** Where the running background deletions stand. *)
  Context {R : gmap Z phase}.

(** A deletion that was started is of a stream that is no more. *)
Definition started_ok (next : Z) (C : catalog) (id : Z) : Prop := is_u64 id ∧ id < next ∧ ¬ live C id.

(** Every record and producer state is of a stream, or waits to be reclaimed. *)
Definition owned (m : gmap bytes bytes) (C : catalog) : Prop :=
  ∀ id k, is_u64 id → skey_wf k → reclaimed_key id k = true → is_Some (m !! encode_skey k) →
    live C id ∨ is_Some (m !! deletePendingKey id).

(** [owed] is a stream whose reference count is about to be decremented (0 for
    none): the count is one too high. *)
Record cat_ok (m : gmap bytes bytes) (next : Z) (C : catalog) (owed : Z) : Prop := {
  co_keys : keys_wf m;
  co_next : 1 ≤ next < 2^64;
  co_counter : m !! idCounterKey = Some (u64Value next) ∨ (m !! idCounterKey = None ∧ next = 1);
  co_entry : ∀ p e, C !! p = Some e → entry_ok m next p e;
  co_absent : ∀ p, C !! p = None → m !! metaKey p = None ∧ m !! tombstoneKey p = None;
  co_mapped : ∀ id p, is_u64 id → m !! idMappingKey id = Some p →
    ∃ e, C !! p = Some e ∧ e_id e = id;
  co_fresh : ∀ k i, skey_wf k → key_id k = Some i → next ≤ i → m !! encode_skey k = None;
  co_refs : ∀ p e, C !! p = Some e →
    refs m (e_id e) = forks C (e_id e) + (if decide (e_id e = owed) then 1 else 0);
  co_cursor : ∀ id, is_u64 id → cursor_ok id m;
  co_pending : ∀ id, is_u64 id → is_Some (m !! deletePendingKey id) → ¬ live C id;
  co_running : ∀ id ph, R !! id = Some ph → started_ok next C id ∧ phase_ok id m ph;
  co_owned : owned m C }.

(** A soft-deleted stream is kept for the forks it has. *)
Definition gone_kept (C : catalog) : Prop :=
  ∀ p e, C !! p = Some e → e_gone e = true → 0 < forks C (e_id e).

(** ** Lemmas: the catalogue *)

Lemma forks_nonneg C id : 0 ≤ forks C id.
Proof. unfold forks. lia. Qed.

Lemma forks_mono C C' id : C' ⊆ C → forks C' id ≤ forks C id.
Proof. intros Hs. unfold forks. apply inj_le, map_subseteq_size, map_filter_subseteq_mono, Hs. Qed.

Lemma forks_insert_new C p e id :
  C !! p = None →
  forks (<[p:=e]> C) id = forks C id + (if decide (e_source e = id) then 1 else 0).
Proof.
  intros Hp. unfold forks. case_decide as Hd.
  - rewrite map_filter_insert_True by done.
    rewrite map_size_insert_None by (apply map_lookup_filter_None; by left). lia.
  - rewrite map_filter_insert_False by done. rewrite delete_id by done. lia.
Qed.

Lemma forks_delete C p e id :
  C !! p = Some e →
  forks (delete p C) id = forks C id - (if decide (e_source e = id) then 1 else 0).
Proof.
  intros Hp. rewrite <-(insert_delete_id C p e) at 2 by done.
  rewrite forks_insert_new by apply lookup_delete_eq. lia.
Qed.

Lemma forks_update C p e e' id :
  C !! p = Some e → e_source e' = e_source e → forks (<[p:=e']> C) id = forks C id.
Proof.
  intros Hp He. rewrite <-insert_delete_eq, forks_insert_new by apply lookup_delete_eq.
  rewrite (forks_delete C p e) by done. rewrite He. lia.
Qed.

Lemma forks_pos C id : 0 < forks C id → ∃ p e, C !! p = Some e ∧ e_source e = id.
Proof.
  unfold forks. intros Hs.
  destruct (decide (filter (λ p : bytes * entry, e_source p.2 = id) C = ∅)) as [E|Hne].
  - rewrite E, map_size_empty in Hs. lia.
  - apply map_choose in Hne as (p & e & Hp). apply map_lookup_filter_Some in Hp as [? ?]. eauto.
Qed.

(** ** Lemmas: frames *)

Lemma own_key_other p i q j k :
  own_key p i k = true → p ≠ q → i ≠ j → own_key q j k = false.
Proof.
  intros Hk Hp Hi. destruct k; try done; simpl in *; rewrite bool_decide_eq_true in Hk; subst;
    by apply bool_decide_eq_false.
Qed.

Lemma stream_rep_frame m m' p sm a :
  stream_rep m p sm a → is_u64 (StreamID sm) → 0 ≤ a_base a → a_tail a < 2^64 →
  (∀ k, skey_wf k → stream_key p (StreamID sm) k → m' !! encode_skey k = m !! encode_skey k) →
  stream_rep m' p sm a.
Proof.
  intros [Hm Ht Hr Hp Hw He] Hid Hb Hbound Hk. split.
  - destruct Hm as (?&?&?). split_and!; [done..|]. by at_key Hk (KMeta p).
  - destruct Ht as (?&u&?&?). split; [done|]. exists u. split; [done|]. by at_key Hk (KTail (StreamID sm)).
  - intros i r Hi. unfold stored_record.
    pose proof (lookup_lt_Some _ _ _ Hi). unfold a_tail in Hbound.
    at_key Hk (KRecord (StreamID sm) (a_base a + Z.of_nat i));
      [by apply Hr|split; [done|unfold is_u64; lia]|done].
  - intros pid. by at_key Hk (KProducer (StreamID sm) pid).
  - by at_key Hk (KWriterSeq (StreamID sm)).
  - intros d Hd. at_key Hk (KExpiry d (StreamID sm)); [by apply He|by split|done].
Qed.

Lemma stream_key_own p i k : stream_key p i k → own_key p i k = true.
Proof. destruct k; simpl; try done; intros ->; by apply bool_decide_eq_true. Qed.

Lemma entry_ok_frame m m' next next' p e :
  entry_ok m next p e → next ≤ next' → next < 2^64 →
  (∀ k, skey_wf k → own_key p (e_id e) k = true → m' !! encode_skey k = m !! encode_skey k) →
  entry_ok m' next' p e.
Proof.
  intros [Hrep Hwf Hb Hid Hmap Htomb Hbase Hsrc Hroot] Hn Hb64 Hk.
  assert (is_u64 (e_id e)) by (unfold is_u64; lia).
  split; try done.
  - eapply stream_rep_frame; [done|done|apply Hwf|lia|]. intros k Hwk Hsk.
    apply Hk; [done|]. by apply stream_key_own.
  - lia.
  - at_key Hk (KIDMapping (e_id e)); [done|done|]. by apply bool_decide_eq_true.
  - at_key Hk (KTombstone p); [done|done|]. by apply bool_decide_eq_true.
Qed.

Lemma batch_untouched m b k :
  batch_wf b → skey_wf k → k ∉ b.*1 →
  apply_ops m (encode_batch b) !! encode_skey k = m !! encode_skey k.
Proof. intros. rewrite apply_batch_lookup, batch_lookup_None; done. Qed.

(** A batch on the keys of one stream, the counter and reference counts. *)
Definition local_batch (p : bytes) (i : Z) (b : batch) : Prop :=
  batch_wf b ∧ Forall (λ x, own_key p i x.1 = true ∨ x.1 = KIDCounter ∨ ∃ j, x.1 = KRefCount j) b.

Lemma local_batch_frame m p i b q j k :
  local_batch p i b → skey_wf k → own_key q j k = true → p ≠ q → i ≠ j →
  apply_ops m (encode_batch b) !! encode_skey k = m !! encode_skey k.
Proof.
  intros [Hwf Hloc] Hk Hown Hp Hi. apply batch_untouched; [done..|].
  intros (x & -> & Hx)%list_elem_of_fmap. rewrite Forall_forall in Hloc.
  destruct (Hloc x Hx) as [Ho|[Ho|[? Ho]]].
  - by rewrite (own_key_other q j p i) in Ho by congruence.
  - rewrite Ho in Hown. done.
  - rewrite Ho in Hown. done.
Qed.

Lemma refs_eq m m' id :
  m' !! refCountKey id = m !! refCountKey id → refs m' id = refs m id.
Proof. unfold refs. by intros ->. Qed.

Lemma refs_put m id n : m !! refCountKey id = Some (u64Value n) → refs m id = u64 n.
Proof. unfold refs. intros ->. by rewrite parseU64Value_be64. Qed.

Section cat_facts.
  Context (m : gmap bytes bytes) (next : Z) (C : catalog) (owed : Z).
  Hypothesis Hok : cat_ok m next C owed.

Lemma cat_id p e : C !! p = Some e → is_u64 (e_id e) ∧ 0 < e_id e < next.
Proof.
  intros Hp. pose proof (eo_id _ _ _ _ (co_entry _ _ _ _ Hok p e Hp)).
  pose proof (co_next _ _ _ _ Hok). unfold is_u64. lia.
Qed.

Lemma cat_id_inj p q e e' : C !! p = Some e → C !! q = Some e' → e_id e = e_id e' → p = q.
Proof.
  intros Hp Hq E. pose proof (eo_mapping _ _ _ _ (co_entry _ _ _ _ Hok p e Hp)) as H1.
  pose proof (eo_mapping _ _ _ _ (co_entry _ _ _ _ Hok q e' Hq)) as H2.
  rewrite E in H1. rewrite H1 in H2. by apply (inj Some) in H2.
Qed.

Lemma cat_not_live id : next ≤ id → ¬ live C id.
Proof. intros Hn (p & e & Hp & <-). pose proof (cat_id p e Hp). lia. Qed.

Lemma cat_source_live p e : C !! p = Some e → 0 ≤ e_source e < next.
Proof.
  intros Hp. pose proof (co_entry _ _ _ _ Hok p e Hp) as He.
  pose proof (eo_source _ _ _ _ He). pose proof (eo_id _ _ _ _ He). lia.
Qed.

Lemma forks_fresh id : next ≤ id → forks C id = 0.
Proof.
  intros Hn. pose proof (forks_nonneg C id).
  destruct (decide (forks C id = 0)) as [|Hne]; [done|].
  destruct (forks_pos C id) as (p & e & Hp & Hs); [lia|].
  pose proof (cat_source_live p e Hp). lia.
Qed.

(** A stream has fewer forks than ids were given out. *)
Lemma forks_bound id : forks C id < next.
Proof.
  unfold forks. set (F := filter _ C).
  assert (Hsub : e_id <$> (map_to_list F).*2 ⊆+ seqZ 1 (next - 1)).
  { apply NoDup_submseteq.
    - rewrite <-list_fmap_compose. apply NoDup_fmap_2_strong; [|apply NoDup_map_to_list].
      intros [p e] [q e'] Hp Hq E. apply elem_of_map_to_list in Hp, Hq. simpl in E.
      unfold F in Hp, Hq. apply map_lookup_filter_Some in Hp as [Hp _], Hq as [Hq _].
      rewrite (cat_id_inj p q e e') in * by done. congruence.
    - intros i (e & -> & He)%list_elem_of_fmap.
      apply list_elem_of_fmap in He as ([p e'] & -> & Hp%elem_of_map_to_list).
      unfold F in Hp. apply map_lookup_filter_Some in Hp as [Hp _].
      apply elem_of_seqZ. pose proof (cat_id p e' Hp). simpl. lia. }
  apply submseteq_length in Hsub. rewrite !length_fmap, length_seqZ in Hsub.
  rewrite length_map_to_list in Hsub. pose proof (co_next _ _ _ _ Hok).
  lia.
Qed.

End cat_facts.

(** ** The batches of the server, typed *)

(** A hard deletion (Expiry.v: deleteOps). *)
Definition remove_batch (p : bytes) (sm : StreamMeta) : batch :=
  let id := StreamID sm in
  [(KMeta p, None); (KIDMapping id, None); (KTail id, None); (KWriterSeq id, None);
   (KRefCount id, None); (KTombstone p, None); (KDeletePending id, Some (u64Value 0))]
  ++ (if decide (0 < Deadline sm) then [(KExpiry (Deadline sm) id, None)] else []).

(** A new stream (Server.v: recordPuts, streamPuts), with the new count of its
    source if it is a fork (Fork.v). *)
Definition new_batch (p : bytes) (sm : StreamMeta) (start : Z) (rs : list bytes) (tail upd ttl : Z)
    (src : option (Z * Z)) : batch :=
  let id := StreamID sm in
  record_batch id start (marshalRecord recFlagNone) rs
  ++ [(KMeta p, Some (Marshal sm)); (KIDMapping id, Some p); (KTail id, Some (marshalTail tail upd));
      (KIDCounter, Some (u64Value (u64 (id + 1))))]
  ++ (if decide (0 < Deadline sm) then [(KExpiry (Deadline sm) id, Some (u64Value ttl))] else [])
  ++ match src with Some (j, n) => [(KRefCount j, Some (u64Value n))] | None => [] end.

(** Decide the lookup of a key in a literal batch. *)
Ltac lookup_cases :=
  cbn [batch_lookup fst snd];
  repeat match goal with
  | |- context [decide (?a = ?b)] => destruct (decide (a = b)); simplify_eq; cbn [batch_lookup fst snd]
  | |- context [decide ?P] => destruct (decide P); cbn [batch_lookup fst snd]
  end; try done; try naive_solver.

Lemma remove_lookup p sm k :
  batch_lookup (remove_batch p sm) k =
  match k with
  | KMeta q | KTombstone q => if decide (q = p) then Some None else None
  | KIDMapping j | KTail j | KWriterSeq j | KRefCount j =>
      if decide (j = StreamID sm) then Some None else None
  | KDeletePending j => if decide (j = StreamID sm) then Some (Some (u64Value 0)) else None
  | KExpiry d j => if decide (j = StreamID sm ∧ d = Deadline sm ∧ 0 < d) then Some None else None
  | KRecord _ _ | KProducer _ _ | KIDCounter => None
  end.
Proof.
  unfold remove_batch. generalize (u64Value 0). intros v. rewrite batch_lookup_app.
  destruct k, (decide (0 < Deadline sm)); lookup_cases.
Qed.

Lemma new_lookup p sm start rs tail upd ttl src k :
  batch_lookup (new_batch p sm start rs tail upd ttl src) k =
  match k with
  | KMeta q => if decide (q = p) then Some (Some (Marshal sm)) else None
  | KIDMapping j => if decide (j = StreamID sm) then Some (Some p) else None
  | KTail j => if decide (j = StreamID sm) then Some (Some (marshalTail tail upd)) else None
  | KIDCounter => Some (Some (u64Value (u64 (StreamID sm + 1))))
  | KExpiry d j =>
      if decide (j = StreamID sm ∧ d = Deadline sm ∧ 0 < d) then Some (Some (u64Value ttl)) else None
  | KRefCount j =>
      match src with
      | Some (i, n) => if decide (j = i) then Some (Some (u64Value n)) else None
      | None => None
      end
  | KRecord j q =>
      if decide (j = StreamID sm ∧ start ≤ q)
      then (λ r, Some (marshalRecord recFlagNone r)) <$> rs !! Z.to_nat (q - start) else None
  | KTombstone _ | KProducer _ _ | KWriterSeq _ | KDeletePending _ => None
  end.
Proof.
  unfold new_batch. rewrite !batch_lookup_app.
  generalize (Marshal sm), (marshalTail tail upd), (u64Value (u64 (StreamID sm + 1))), (u64Value ttl).
  intros v1 v2 v3 v4.
  assert (Hrec : ∀ j q, batch_lookup (record_batch (StreamID sm) start (marshalRecord recFlagNone) rs)
      (KRecord j q) = if decide (j = StreamID sm ∧ start ≤ q)
      then (λ r, Some (marshalRecord recFlagNone r)) <$> rs !! Z.to_nat (q - start) else None).
  { intros j q. destruct (decide (j = StreamID sm)) as [->|Hj].
    - rewrite record_batch_lookup. destruct (decide (start ≤ q)); [by rewrite decide_True|].
      rewrite decide_False; [done|naive_solver].
    - rewrite decide_False by naive_solver. apply batch_lookup_None. revert Hj. clear.
      intros Hj (x & Hx & Hin)%list_elem_of_fmap. revert start Hin.
      induction rs as [|r rs' IH]; intros start Hin; [by apply elem_of_nil in Hin|].
      apply elem_of_cons in Hin as [->|Hin]; [simpl in Hx; congruence|by eapply IH]. }
  destruct src as [[i n]|]; [generalize (u64Value n); intros v5|];
    destruct k, (decide (0 < Deadline sm));
    try (rewrite Hrec); try (rewrite record_batch_lookup_other by done); lookup_cases.
Qed.

Lemma remove_local p sm : is_u64 (StreamID sm) → is_u64 (Deadline sm) →
  local_batch p (StreamID sm) (remove_batch p sm).
Proof.
  intros Hid Hd. unfold remove_batch. split.
  - unfold batch_wf. apply Forall_app. split; [by forall_list|]. case_decide; by forall_list.
  - apply Forall_app. split.
    + repeat (constructor; [first [left; by apply bool_decide_eq_true|right; right; by eexists]|]).
      constructor.
    + case_decide; repeat (constructor; [left; by apply bool_decide_eq_true|]); constructor.
Qed.

Lemma new_local p sm start rs tail upd ttl src :
  is_u64 (StreamID sm) → is_u64 (Deadline sm) → 0 ≤ start → start + len rs ≤ 2^64 →
  from_option (λ x : Z * Z, is_u64 x.1) True src →
  local_batch p (StreamID sm) (new_batch p sm start rs tail upd ttl src).
Proof.
  intros Hid Hd H0 Hlen Hsrc. unfold new_batch. split.
  - unfold batch_wf. rewrite !Forall_app. split_and!.
    + by apply record_batch_wf.
    + by forall_list.
    + case_decide; by forall_list.
    + destruct src as [[]|]; by forall_list.
  - rewrite !Forall_app. split_and!.
    + clear. revert start. induction rs as [|r rs IH]; intros start; constructor; [|apply IH].
      left. by apply bool_decide_eq_true.
    + repeat (constructor; [first [left; by apply bool_decide_eq_true|right; left; done]|]). constructor.
    + case_decide; repeat (constructor; [left; by apply bool_decide_eq_true|]); constructor.
    + destruct src as [[j n]|]; [|done]. constructor; [|done]. right; right. by eexists.
Qed.

(** ** Effects on the catalogue *)

Lemma e_stored_id e : StreamID (e_stored e) = e_id e.
Proof. done. Qed.

Lemma entry_deadline m next p e : entry_ok m next p e → is_u64 (Deadline (e_stored e)).
Proof. intros He. apply (aw_deadline _ (eo_wf _ _ _ _ He)). Qed.

Lemma cursor_ok_frame m m' id :
  cursor_ok id m → m' !! deletePendingKey id = m !! deletePendingKey id →
  (∀ q, is_u64 q → m' !! recordKey id q = m !! recordKey id q ∨ m' !! recordKey id q = None) →
  cursor_ok id m'.
Proof.
  intros Hc Hp Hr v. rewrite Hp. intros Hv. destruct (Hc v Hv) as (c & Hcu & -> & Hn).
  exists c. split_and!; [done..|]. intros q Hq Hlt. destruct (Hr q Hq) as [E|E]; rewrite E; auto.
Qed.

Lemma phase_ok_frame m m' id ph :
  phase_ok id m ph → is_u64 id →
  (∀ k, skey_wf k → reclaimed_key id k = true → m' !! encode_skey k = m !! encode_skey k) →
  phase_ok id m' ph.
Proof.
  intros Hp Hid Hk.
  assert (Hn : ∀ c, no_records id m c → no_records id m' c).
  { intros c Hn q Hq Hlt. at_key Hk (KRecord id q); [by apply Hn|done|by apply bool_decide_eq_true]. }
  destruct ph; simpl in *; [destruct Hp; auto|by apply Hn| |done].
  intros k Hw Hr. rewrite Hk by done. by apply Hp.
Qed.

Lemma reclaimed_key_id id k : reclaimed_key id k = true → key_id k = Some id ∧ ∀ j, k ≠ KIDMapping j.
Proof. destruct k; simpl; try done; rewrite bool_decide_eq_true; intros ->; done. Qed.

Section cat_remove.
  Context (m : gmap bytes bytes) (next : Z) (C : catalog) (p : bytes) (e : entry).
  Hypothesis Hok : cat_ok m next C 0.
  Hypothesis Hp : C !! p = Some e.
  Local Abbreviation b := (remove_batch p (e_stored e)).
  Local Abbreviation m' := (apply_ops m (encode_batch b)).

Lemma remove_effect : local_batch p (e_id e) b ∧
  ∀ k, skey_wf k → m' !! encode_skey k = default (m !! encode_skey k) (batch_lookup b k).
Proof.
  pose proof (co_entry _ _ _ _ Hok p e Hp) as He.
  assert (Hl : local_batch p (e_id e) b).
  { apply remove_local; [by eapply cat_id|by eapply entry_deadline]. }
  split; [done|]. intros. by apply apply_batch_lookup; [apply Hl|].
Qed.

Lemma live_delete id : live (delete p C) id → live C id ∧ id ≠ e_id e.
Proof.
  intros (q & e' & [Hne Hq]%lookup_delete_Some & <-). split; [by exists q, e'|].
  intros E. apply Hne. symmetry. by eapply cat_id_inj.
Qed.

(** A deletion takes the stream out; its source's count is then one too high. *)
Lemma cat_remove : cat_ok m' next (delete p C) (e_source e).
Proof.
  destruct remove_effect as [Hloc Hlk].
  pose proof (co_entry _ _ _ _ Hok p e Hp) as He. pose proof (cat_id _ _ _ _ Hok p e Hp) as [Hid Hidn].
  split.
  - apply keys_wf_apply_batch; [apply Hok|apply Hloc].
  - apply Hok.
  - at_key Hlk KIDCounter; [|done]. rewrite remove_lookup. apply Hok.
  - intros q e' [Hne Hq]%lookup_delete_Some.
    eapply entry_ok_frame; [by apply Hok|done|by apply Hok|]. intros k Hk Hown.
    eapply local_batch_frame; [done..|]. intros E. apply Hne. by eapply cat_id_inj.
  - intros q Hq. at_key Hlk (KMeta q); [|done]. at_key Hlk (KTombstone q); [|done].
    rewrite !remove_lookup. destruct (decide (q = p)) as [|Hne]; [done|].
    apply (co_absent _ _ _ _ Hok). by rewrite lookup_delete_ne in Hq by done.
  - intros id q Hiu. at_key Hlk (KIDMapping id); [|done]. rewrite remove_lookup, e_stored_id.
    destruct (decide (id = e_id e)) as [|Hne]; [done|]. intros Hm.
    apply (co_mapped _ _ _ _ Hok) in Hm as (e' & Hq & <-); [|done]. exists e'. split; [|done].
    rewrite lookup_delete_ne; [done|]. intros ->. congruence.
  - intros k i Hk Hi Hn. rewrite Hlk by done. rewrite remove_lookup, e_stored_id.
    pose proof (co_fresh _ _ _ _ Hok k i Hk Hi Hn). destruct k; simplify_eq/=;
      rewrite ?decide_False by lia; done.
  - intros q e' [Hne Hq]%lookup_delete_Some.
    assert (Hids : e_id e' ≠ e_id e) by (intros E; apply Hne; symmetry; by eapply cat_id_inj).
    rewrite (refs_eq m) by (at_key Hlk (KRefCount (e_id e')); [by rewrite remove_lookup, decide_False|by eapply cat_id]).
    rewrite (co_refs _ _ _ _ Hok q e' Hq), (forks_delete C p e) by done.
    pose proof (cat_id _ _ _ _ Hok q e' Hq) as [_ ?].
    rewrite (decide_False (P := e_id e' = 0)) by lia. repeat case_decide; congruence || lia.
  - intros id Hiu. destruct (decide (id = e_id e)) as [->|Hne].
    + intros v. at_key Hlk (KDeletePending (e_id e)); [|done].
      rewrite remove_lookup, decide_True by done. intros Hv. apply (inj Some) in Hv. exists 0.
      split_and!; [done|done|]. intros q Hq. unfold is_u64 in Hq. lia.
    + eapply cursor_ok_frame; [by apply Hok| |].
      * at_key Hlk (KDeletePending id); [|done]. by rewrite remove_lookup, decide_False.
      * intros q Hq. left. at_key Hlk (KRecord id q); [|done]. by rewrite remove_lookup.
  - intros id Hiu. at_key Hlk (KDeletePending id); [|done]. rewrite remove_lookup, e_stored_id.
    destruct (decide (id = e_id e)) as [->|Hne]; intros Hs [Hl ?]%live_delete; [done|].
    by eapply (co_pending _ _ _ _ Hok).
  - intros id ph Hr. destruct (co_running _ _ _ _ Hok id ph Hr) as [(Hiu & Hin & Hl) Hph].
    split; [split_and!; [done..|]; by intros [? _]%live_delete|].
    eapply phase_ok_frame; [done..|]. intros k Hk Hrk. rewrite Hlk by done. rewrite remove_lookup, e_stored_id.
    assert (id ≠ e_id e) by (intros ->; apply Hl; by exists p, e).
    destruct k; try done; simpl in Hrk; apply bool_decide_eq_true in Hrk; subst; try done.
    by rewrite decide_False.
  - intros id k Hiu Hk Hrk Hs. destruct (decide (id = e_id e)) as [->|Hne].
    + right. at_key Hlk (KDeletePending (e_id e)); [|done].
      rewrite remove_lookup, decide_True by done. by eexists.
    + at_key Hlk (KDeletePending id); [|done]. rewrite remove_lookup, decide_False by done. simpl.
      rewrite Hlk in Hs by done. rewrite remove_lookup in Hs.
      destruct (co_owned _ _ _ _ Hok id k Hiu Hk Hrk) as [(q & f & Hq & Hf)|?]; [|left|by right].
      * destruct k; try done; simpl in Hrk; apply bool_decide_eq_true in Hrk; subst; try done.
        by rewrite decide_False in Hs.
      * exists q, f. split; [|done]. rewrite lookup_delete_ne; [done|]. intros ->. congruence.
Qed.

End cat_remove.

(** Writes to the keys of streams that are no more. *)
Definition dead_key (next : Z) (C : catalog) (k : skey) : Prop :=
  (∃ i, key_id k = Some i ∧ ¬ live C i ∧ i < next) ∧ ∀ j, k ≠ KIDMapping j.

Lemma cat_dead m m' next C owed :
  cat_ok m next C owed → keys_wf m' →
  (∀ k, skey_wf k → m' !! encode_skey k = m !! encode_skey k ∨ dead_key next C k) →
  (∀ id, is_u64 id → cursor_ok id m') →
  (∀ id ph, R !! id = Some ph → phase_ok id m ph → phase_ok id m' ph) → owned m' C →
  cat_ok m' next C owed.
Proof.
  intros Hok Hkw Hk Hcur Hrun Hown'.
  assert (Hlk : ∀ k, skey_wf k → ¬ dead_key next C k → m' !! encode_skey k = m !! encode_skey k)
    by (intros k Hw Hn; by destruct (Hk k Hw)).
  assert (Hnone : ∀ k, key_id k = None → ¬ dead_key next C k)
    by (intros k Hn [(i & Hi & _) _]; congruence).
  assert (Hlive : ∀ k i, key_id k = Some i → live C i → ¬ dead_key next C k)
    by (intros k i Hi Hl [(j & Hj & Hnl & _) _]; naive_solver).
  split; try done; try apply Hok.
  - at_key Hlk KIDCounter; [apply Hok|done|by apply Hnone].
  - intros p e Hp. eapply entry_ok_frame; [by apply Hok|done|by apply Hok|].
    intros k Hw Hown. apply Hlk; [done|]. destruct (key_id k) as [i|] eqn:Hi; [|by apply Hnone].
    assert (i = e_id e) as -> by (destruct k; simpl in *; rewrite ?bool_decide_eq_true in Hown; congruence).
    eapply Hlive; [done|]. by exists p, e.
  - intros p Hp. at_key Hlk (KMeta p); [|done|by apply Hnone].
    at_key Hlk (KTombstone p); [|done|by apply Hnone]. by apply Hok.
  - intros id p Hid. at_key Hlk (KIDMapping id); [by apply Hok|done|]. intros [_ Hne]. by eapply Hne.
  - intros k i Hw Hi Hn. rewrite Hlk; [by eapply (co_fresh _ _ _ _ Hok)|done|].
    intros [(j & Hj & _ & ?) _]. simplify_eq. lia.
  - intros p e Hp. rewrite (refs_eq m); [by eapply (co_refs _ _ _ _ Hok)|].
    at_key Hlk (KRefCount (e_id e)); [done|by eapply cat_id|]. eapply Hlive; [done|by exists p, e].
  - intros id Hid Hs Hl. eapply (co_pending _ _ _ _ Hok id Hid); [|done].
    revert Hs. at_key Hlk (KDeletePending id); [done|done|]. by eapply Hlive.
  - intros id ph Hr. destruct (co_running _ _ _ _ Hok id ph Hr). split; [done|by apply Hrun].
Qed.

(** The new reference count of a stream. *)
Lemma cat_put_refs m next C owed owed' j n :
  cat_ok m next C owed → is_u64 j → j < next →
  (∀ p e, C !! p = Some e →
     (if decide (e_id e = j) then u64 n else refs m (e_id e))
     = forks C (e_id e) + (if decide (e_id e = owed') then 1 else 0)) →
  cat_ok (apply_ops m [PutOp (refCountKey j) (u64Value n)]) next C owed'.
Proof.
  intros Hok Hj Hjn Hrefs. set (m' := apply_ops _ _).
  assert (Hlk : ∀ k, skey_wf k → k ≠ KRefCount j → m' !! encode_skey k = m !! encode_skey k).
  { intros k Hw Hne. apply apply_ops_lookup_ne, Forall_singleton.
    intros E%(encode_skey_inj (KRefCount j) k); done. }
  assert (Hj' : m' !! refCountKey j = Some (u64Value n)) by apply lookup_insert_eq.
  split; try apply Hok.
  - apply keys_wf_apply_ops; [apply Hok|]. apply Forall_singleton. by exists (KRefCount j).
  - at_key Hlk KIDCounter; [apply Hok|done..].
  - intros p e Hp. eapply entry_ok_frame; [by apply Hok|done|by apply Hok|].
    intros k Hw Hown. apply Hlk; [done|]. by intros ->.
  - intros p Hp. at_key Hlk (KMeta p); [|done..]. at_key Hlk (KTombstone p); [|done..]. by apply Hok.
  - intros id p Hid. at_key Hlk (KIDMapping id); [by apply Hok|done..].
  - intros k i Hw Hi Hn. rewrite Hlk; [by eapply (co_fresh _ _ _ _ Hok)|done|].
    intros ->. simplify_eq/=. lia.
  - intros p e Hp. rewrite <-(Hrefs p e Hp). case_decide as Hd.
    + rewrite Hd. by apply refs_put.
    + apply refs_eq. at_key Hlk (KRefCount (e_id e)); [done|by eapply cat_id|congruence].
  - intros id Hid. eapply cursor_ok_frame; [by apply Hok| |].
    + by at_key Hlk (KDeletePending id).
    + intros q Hq. left. by at_key Hlk (KRecord id q).
  - intros id Hid. at_key Hlk (KDeletePending id); [|done..].
    apply (co_pending _ _ _ _ Hok id Hid).
  - intros id ph Hr. destruct (co_running _ _ _ _ Hok id ph Hr) as [Hs Hph]. split; [done|].
    eapply phase_ok_frame; [done|apply Hs|]. intros k Hk Hrk. apply Hlk; [done|]. by intros ->.
  - intros id k Hid Hk Hrk. rewrite Hlk; [|done|by intros ->].
    at_key Hlk (KDeletePending id); [|done..]. by apply (co_owned _ _ _ _ Hok).
Qed.

(** One stream's state changes in place. *)
Lemma cat_update m m' next C owed p e e' :
  cat_ok m next C owed → C !! p = Some e → keys_wf m' →
  (∀ k, skey_wf k → own_key p (e_id e) k = false → m' !! encode_skey k = m !! encode_skey k) →
  m' !! deletePendingKey (e_id e) = m !! deletePendingKey (e_id e) →
  e_id e' = e_id e → e_source e' = e_source e → entry_ok m' next p e' →
  cat_ok m' next (<[p:=e']> C) owed.
Proof.
  intros Hok Hp Hkw Hlk Hpend Hid Hsrc He'. pose proof (cat_id _ _ _ _ Hok p e Hp) as [Hiu Hin].
  assert (Hown : ∀ k i, key_id k = Some i → i ≠ e_id e → own_key p (e_id e) k = false)
    by (intros [] ? [= ->] ?; simpl; rewrite ?bool_decide_eq_false; done).
  assert (Hlive : ∀ id, live (<[p:=e']> C) id ↔ live C id).
  { intros id. split; intros (q & f & Hq & <-).
    - apply lookup_insert_Some in Hq as [[<- <-]|[? ?]]; [exists p, e; by rewrite Hid|by exists q, f].
    - destruct (decide (q = p)) as [->|]; [exists p, e'|exists q, f].
      + rewrite lookup_insert_eq. split; [done|]. rewrite Hid. congruence.
      + by rewrite lookup_insert_ne. }
  assert (Hnp : ¬ is_Some (m !! deletePendingKey (e_id e))).
  { intros Hs. eapply (co_pending _ _ _ _ Hok); [done..|]. by exists p, e. }
  split; try done; try apply Hok.
  - at_key Hlk KIDCounter; [apply Hok|done..].
  - intros q f [[<- <-]|[Hne Hq]]%lookup_insert_Some; [done|].
    eapply entry_ok_frame; [by apply Hok|done|by apply Hok|]. intros k Hw Hk. apply Hlk; [done|].
    eapply own_key_other; [done|congruence|]. intros E. apply Hne. by eapply cat_id_inj.
  - intros q [Hq Hne]%lookup_insert_None.
    at_key Hlk (KMeta q); [|done|by apply bool_decide_eq_false].
    at_key Hlk (KTombstone q); [|done|by apply bool_decide_eq_false]. by apply Hok.
  - intros id q Hiu' Hm. destruct (decide (id = e_id e)) as [->|Hne].
    + rewrite <-Hid in Hm. rewrite (eo_mapping _ _ _ _ He') in Hm. apply (inj Some) in Hm as <-.
      exists e'. by rewrite lookup_insert_eq.
    + revert Hm. at_key Hlk (KIDMapping id); [|done|by eapply Hown]. intros Hm.
      apply (co_mapped _ _ _ _ Hok) in Hm as (f & Hq & Hf); [|done]. exists f. split; [|done].
      rewrite lookup_insert_ne; [done|]. intros ->. congruence.
  - intros k i Hw Hi Hn. rewrite Hlk; [by eapply (co_fresh _ _ _ _ Hok)|done|].
    eapply Hown; [done|lia].
  - assert (Hr : ∀ q f, C !! q = Some f → refs m' (e_id f) =
      forks (<[p:=e']> C) (e_id f) + (if decide (e_id f = owed) then 1 else 0)).
    { intros q f Hq. rewrite (forks_update C p e) by done. rewrite <-(co_refs _ _ _ _ Hok q f Hq).
      apply refs_eq. at_key Hlk (KRefCount (e_id f)); [done|by eapply cat_id|done]. }
    intros q f [[<- <-]|[Hne Hq]]%lookup_insert_Some; [|by eapply Hr]. rewrite Hid. by eapply Hr.
  - intros id Hiu'. destruct (decide (id = e_id e)) as [->|Hne].
    + intros v Hv. rewrite Hpend in Hv. destruct Hnp. by eexists.
    + eapply cursor_ok_frame; [by apply Hok| |].
      * at_key Hlk (KDeletePending id); [done|done|by eapply Hown].
      * intros q Hq. left. at_key Hlk (KRecord id q); [done|done|by eapply Hown].
  - intros id Hiu'. rewrite Hlive. destruct (decide (id = e_id e)) as [->|Hne].
    + rewrite Hpend. intros Hs. done.
    + at_key Hlk (KDeletePending id); [|done|by eapply Hown].
      apply (co_pending _ _ _ _ Hok id Hiu').
  - intros id ph Hr. destruct (co_running _ _ _ _ Hok id ph Hr) as [(? & ? & Hnl) Hph].
    split; [split_and!; [done..|]; by rewrite Hlive|].
    eapply phase_ok_frame; [done..|]. intros k Hk Hrk. apply reclaimed_key_id in Hrk as [Hrk _].
    apply Hlk; [done|]. eapply Hown; [done|]. intros ->. apply Hnl. by exists p, e.
  - intros id k Hiu' Hk Hrk Hs. rewrite Hlive. destruct (decide (id = e_id e)) as [->|Hne].
    + left. by exists p, e.
    + at_key Hlk (KDeletePending id); [|done|by eapply Hown].
      apply (co_owned _ _ _ _ Hok id k Hiu' Hk Hrk). rewrite Hlk in Hs; [done..|].
      apply reclaimed_key_id in Hrk as [Hrk _]. by eapply Hown.
Qed.

(** The stream a creation leaves. *)
Definition new_entry (sm : StreamMeta) (rs : list bytes) : entry :=
  {| e_meta := sm;
     e_state := {| a_base := ForkOffset sm; a_log := rs; a_closed := Closed sm;
                   a_deadline := Deadline sm; a_producers := ∅; a_writerSeq := [] |};
     e_gone := false |}.

(** What creation is given: metadata for the next id, and the new count of a live
    source if the stream is a fork. *)
Record new_ok (next : Z) (C : catalog) (sm : StreamMeta) (rs : list bytes) (upd : Z)
    (src : option (Z * Z)) : Prop := {
  no_id : StreamID sm = next;
  no_next : next + 1 < 2^64;
  no_meta : wf_meta sm ∧ len (ContentType sm) < 2^16;
  no_upd : is_i64 upd;
  no_bound : ForkOffset sm + len rs < 2^63;
  no_src : match src with
           | None => ForkedFrom sm = 0 ∧ ForkOffset sm = 0
           | Some (j, n) => ForkedFrom sm = j ∧ live C j ∧ n = forks C j + 1
           end }.

Section cat_new.
  Context (m : gmap bytes bytes) (next : Z) (C : catalog) (p : bytes) (sm : StreamMeta)
    (rs : list bytes) (upd ttl : Z) (src : option (Z * Z)).
  Hypothesis Hok : cat_ok m next C 0.
  Hypothesis Hp : C !! p = None.
  Hypothesis Hnew : new_ok next C sm rs upd src.
  Local Abbreviation tail := (ForkOffset sm + len rs).
  Local Abbreviation b := (new_batch p sm (ForkOffset sm) rs tail upd ttl src).
  Local Abbreviation m' := (apply_ops m (encode_batch b)).
  Local Abbreviation e := (new_entry sm rs).

Lemma new_id_wf : is_u64 (StreamID sm) ∧ is_u64 (StreamID sm + 1) ∧ 0 < StreamID sm.
Proof. destruct Hnew as [-> ? _ _ _ _]. pose proof (co_next _ _ _ _ Hok). unfold is_u64. lia. Qed.

Lemma new_src_live : from_option (λ x : Z * Z, is_u64 x.1 ∧ 0 < x.1 < next) True src.
Proof.
  pose proof (no_src _ _ _ _ _ _ Hnew) as Hs. destruct src as [[j n]|]; [|done].
  destruct Hs as (_ & (q & f & Hq & <-) & _). by eapply cat_id.
Qed.

Lemma new_effect : local_batch p (StreamID sm) b ∧
  ∀ k, skey_wf k → m' !! encode_skey k = default (m !! encode_skey k) (batch_lookup b k).
Proof.
  destruct (no_meta _ _ _ _ _ _ Hnew) as [Hm _]. pose proof (no_bound _ _ _ _ _ _ Hnew).
  unfold wf_meta in Hm. destruct_and!.
  assert (Hl : local_batch p (StreamID sm) b).
  { apply new_local; try done; [unfold is_u64 in *; lia|lia|].
    pose proof new_src_live. destruct src; naive_solver. }
  split; [done|]. intros. by apply apply_batch_lookup; [apply Hl|].
Qed.

Lemma meta_with_same : meta_with sm (Closed sm) (Deadline sm) = sm.
Proof. by destruct sm. Qed.

Lemma fresh_key k : skey_wf k → key_id k = Some (StreamID sm) → m !! encode_skey k = None.
Proof.
  intros Hk Hi. eapply (co_fresh _ _ _ _ Hok); [done..|]. by rewrite (no_id _ _ _ _ _ _ Hnew).
Qed.

Lemma new_entry_ok : entry_ok m' (next + 1) p e.
Proof.
  destruct new_effect as [Hloc Hlk]. destruct new_id_wf as (Hid & _ & Hpos).
  pose proof (no_bound _ _ _ _ _ _ Hnew) as Hb.
  destruct (no_meta _ _ _ _ _ _ Hnew) as [Hm Hct]. pose proof Hm as Hm'.
  unfold wf_meta in Hm'. destruct Hm' as (_ & _ & _ & _ & Hdl & Hff & Hfo & _).
  split; simpl; try done.
  - split; simpl.
    + rewrite meta_with_same. split_and!; [done..|]. at_key Hlk (KMeta p); [|done].
      by rewrite new_lookup, decide_True.
    + split; [unfold a_tail, is_u64 in *; simpl; lia|]. exists upd.
      split; [apply Hnew|]. at_key Hlk (KTail (StreamID sm)); [|done].
      by rewrite new_lookup, decide_True.
    + intros i r Hi. unfold stored_record. pose proof (lookup_lt_Some _ _ _ Hi).
      at_key Hlk (KRecord (StreamID sm) (ForkOffset sm + Z.of_nat i));
        [|split; [done|unfold is_u64 in *; lia]].
      rewrite new_lookup, decide_True by lia.
      replace (Z.to_nat _) with i by lia. by rewrite Hi.
    + intros pid. at_key Hlk (KProducer (StreamID sm) pid); [|done]. rewrite new_lookup.
      by apply (fresh_key (KProducer (StreamID sm) pid)).
    + at_key Hlk (KWriterSeq (StreamID sm)); [|done]. rewrite new_lookup. simpl.
      pose proof (fresh_key (KWriterSeq (StreamID sm)) Hid eq_refl) as E. cbn [encode_skey] in E.
      by rewrite E.
    + intros d Hd. at_key Hlk (KExpiry d (StreamID sm)); [|done]. rewrite new_lookup.
      pose proof (fresh_key (KExpiry d (StreamID sm)) (conj Hd Hid) eq_refl) as E.
      cbn [encode_skey] in E. rewrite E.
      case_decide as Hc; simpl; rewrite is_Some_alt; naive_solver.
  - split; simpl; [unfold is_u64 in Hfo; lia|done|apply map_Forall_empty].
  - unfold e_id. simpl. rewrite (no_id _ _ _ _ _ _ Hnew) in *. lia.
  - unfold e_id. cbn [e_meta new_entry]. at_key Hlk (KIDMapping (StreamID sm)); [|done].
    by rewrite new_lookup, decide_True.
  - at_key Hlk (KTombstone p); [|done]. rewrite new_lookup. simpl.
    by apply (co_absent _ _ _ _ Hok).
  - unfold e_source, e_id. simpl. pose proof (no_src _ _ _ _ _ _ Hnew) as Hs.
    pose proof new_src_live as Hl. rewrite (no_id _ _ _ _ _ _ Hnew) in *.
    destruct src as [[j n]|]; simpl in *; [destruct Hs as (-> & _); lia|lia].
  - unfold e_source. simpl. pose proof (no_src _ _ _ _ _ _ Hnew) as Hs. pose proof new_src_live as Hl.
    destruct src as [[j n]|]; simpl in *; [destruct Hs as (-> & _); lia|by destruct Hs].
Qed.

Lemma live_insert id : live (<[p:=e]> C) id ↔ live C id ∨ id = next.
Proof.
  split.
  - intros (q & f & [[<- <-]|[? ?]]%lookup_insert_Some & <-); [right; apply Hnew|].
    left. by exists q, f.
  - intros [(q & f & Hq & <-)| ->].
    + exists q, f. split; [|done]. rewrite lookup_insert_ne; [done|]. intros ->. congruence.
    + exists p, e. rewrite lookup_insert_eq. split; [done|]. apply Hnew.
Qed.

Lemma new_refs q f : C !! q = Some f → refs m' (e_id f) = forks (<[p:=e]> C) (e_id f).
Proof.
  destruct new_effect as [_ Hlk]. pose proof (no_src _ _ _ _ _ _ Hnew) as Hs.
  pose proof new_src_live as Hl. intros Hq.
  pose proof (cat_id _ _ _ _ Hok q f Hq) as [Hiu Hin]. rewrite forks_insert_new by done.
  pose proof (co_refs _ _ _ _ Hok q f Hq) as Hr.
  rewrite (decide_False (P := e_id f = 0)) in Hr by lia.
  unfold e_source. simpl. destruct src as [[j n]|]; simpl in Hl.
  - destruct Hs as (-> & _ & ->). destruct (decide (e_id f = j)) as [<-|Hne].
    + rewrite decide_True by done. rewrite (refs_put _ _ (forks C (e_id f) + 1)).
      * pose proof (forks_bound _ _ _ _ Hok (e_id f)). pose proof (co_next _ _ _ _ Hok).
        pose proof (forks_nonneg C (e_id f)). apply u64_small. unfold is_u64. lia.
      * at_key Hlk (KRefCount (e_id f)); [|done]. by rewrite new_lookup, decide_True.
    + rewrite (decide_False (P := j = e_id f)) by done. rewrite (refs_eq m); [lia|].
      at_key Hlk (KRefCount (e_id f)); [|done]. by rewrite new_lookup, decide_False.
  - rewrite (decide_False (P := ForkedFrom sm = e_id f)) by lia. rewrite (refs_eq m); [lia|].
    at_key Hlk (KRefCount (e_id f)); [|done]. by rewrite new_lookup.
Qed.

Lemma new_refs_self : refs m' next = forks (<[p:=e]> C) next.
Proof.
  destruct new_effect as [_ Hlk]. pose proof new_src_live as Hl.
  pose proof (no_id _ _ _ _ _ _ Hnew) as Hid. destruct new_id_wf as (Hiu & _).
  assert (m' !! refCountKey next = None) as E.
  { at_key Hlk (KRefCount next); [|by rewrite <-Hid]. rewrite new_lookup.
    assert (m !! refCountKey next = None) as -> by (rewrite <-Hid; by apply (fresh_key (KRefCount (StreamID sm)))).
    destruct src as [[j n]|]; [|done]. simpl in Hl. by rewrite decide_False by lia. }
  unfold refs. rewrite E, forks_insert_new by done. rewrite (forks_fresh _ _ _ _ Hok) by done.
  pose proof (eo_source _ _ _ _ new_entry_ok). rewrite decide_False; [done|].
  unfold e_id in *. simpl in *. lia.
Qed.

(** A creation adds the stream. *)
Lemma cat_new : cat_ok m' (next + 1) (<[p:=e]> C) 0.
Proof.
  destruct new_effect as [Hloc Hlk]. destruct new_id_wf as (Hiu & Hiu1 & Hpos).
  pose proof (no_id _ _ _ _ _ _ Hnew) as Hid. pose proof (co_next _ _ _ _ Hok).
  split.
  - apply keys_wf_apply_batch; [apply Hok|apply Hloc].
  - pose proof (no_next _ _ _ _ _ _ Hnew). lia.
  - left. at_key Hlk KIDCounter; [|done]. rewrite new_lookup. simpl. rewrite Hid, u64_small; [done|].
    by rewrite <-Hid.
  - intros q f [[<- <-]|[Hne Hq]]%lookup_insert_Some; [apply new_entry_ok|].
    eapply entry_ok_frame; [by apply Hok|lia|lia|]. intros k Hk Hown.
    eapply local_batch_frame; [done..|]. pose proof (cat_id _ _ _ _ Hok q f Hq). lia.
  - intros q [Hq Hne]%lookup_insert_None. at_key Hlk (KMeta q); [|done]. at_key Hlk (KTombstone q); [|done].
    rewrite !new_lookup, decide_False by congruence. by apply Hok.
  - intros id q Hi. at_key Hlk (KIDMapping id); [|done]. rewrite new_lookup.
    case_decide as Hd; simpl; intros Hm.
    + apply (inj Some) in Hm as <-. exists e. by rewrite lookup_insert_eq.
    + apply (co_mapped _ _ _ _ Hok) in Hm as (f & Hq & Hf); [|done]. exists f. split; [|done].
      rewrite lookup_insert_ne; [done|]. intros ->. congruence.
  - intros k i Hk Hi Hn. rewrite Hlk by done. rewrite new_lookup.
    pose proof (co_fresh _ _ _ _ Hok k i Hk Hi ltac:(lia)) as Hnone. pose proof new_src_live as Hl.
    destruct k; simplify_eq/=; rewrite ?decide_False by lia; try done.
    destruct src as [[j n]|]; [|done]. simpl in Hl. by rewrite decide_False by lia.
  - intros q f [[<- <-]|[Hne Hq]]%lookup_insert_Some.
    + unfold e_id. simpl. rewrite Hid, new_refs_self, decide_False by lia. lia.
    + rewrite (new_refs q f Hq). pose proof (cat_id _ _ _ _ Hok q f Hq).
      rewrite decide_False by lia. lia.
  - intros id Hi. destruct (decide (id = StreamID sm)) as [->|Hne].
    + intros v. at_key Hlk (KDeletePending (StreamID sm)); [|done]. rewrite new_lookup. simpl.
      pose proof (fresh_key (KDeletePending (StreamID sm)) Hiu eq_refl) as E. cbn [encode_skey] in E.
      rewrite E. done.
    + eapply cursor_ok_frame; [by apply (co_cursor _ _ _ _ Hok)| |].
      * at_key Hlk (KDeletePending id); [|done]. by rewrite new_lookup.
      * intros q Hq. left. at_key Hlk (KRecord id q); [|done]. rewrite new_lookup, decide_False; naive_solver.
  - intros id Hi. at_key Hlk (KDeletePending id); [|done]. rewrite new_lookup. simpl.
    rewrite live_insert. intros Hs [Hl| ->]; [by eapply (co_pending _ _ _ _ Hok)|].
    pose proof (fresh_key (KDeletePending (StreamID sm)) Hiu eq_refl) as E. cbn [encode_skey] in E.
    rewrite Hid in E. rewrite E in Hs. by destruct Hs.
  - intros id ph Hr. destruct (co_running _ _ _ _ Hok id ph Hr) as [(? & ? & Hnl) Hph].
    split; [split_and!; [done|lia|]; rewrite live_insert; intros [?| ->]; [done|lia]|].
    eapply phase_ok_frame; [done..|]. intros k Hk Hrk. rewrite Hlk by done. rewrite new_lookup.
    destruct k; try done; simpl in Hrk; apply bool_decide_eq_true in Hrk; subst.
    by rewrite decide_False by lia.
  - intros id k Hi Hk Hrk Hs. rewrite live_insert. at_key Hlk (KDeletePending id); [|done].
    rewrite new_lookup. simpl. destruct (decide (id = next)) as [->|Hne]; [by left; right|].
    destruct (co_owned _ _ _ _ Hok id k Hi Hk Hrk); [|by left; left|by right].
    rewrite Hlk in Hs by done. rewrite new_lookup in Hs.
    destruct k; try done; simpl in Hrk; apply bool_decide_eq_true in Hrk; subst.
    by rewrite decide_False in Hs by lia.
Qed.

End cat_new.

End catalogue.
Arguments cat_ok R m next C owed : clear implicits.
