(* ===== verification/Lifecycle.v ===== *)
(** * The life of streams: what creation, deletion and expiry do

    The operations of Server.v and Expiry.v refine operations on the catalogue
    (Catalog.v). [server_ok srv C] says that the server's store, counter,
    resident streamers and started deletions stand for the catalogue [C]; every
    operation maps it to the catalogue the specification gives, and returns the
    result the specification gives. *)

From S2P Require Import Prelude.
From S2P Require Import Bytes.
From S2P Require Import Keys.
From S2P Require Import Meta.
From S2P Require Import Offset.
From S2P Require Import Storage.
From S2P Require Import Loads.
From S2P Require Import Batch.
From S2P Require Import Mime.
From S2P Require Import Json.
From S2P Require Import Read.
From S2P Require Import LiveCache.
From S2P Require Import Streamer.
From S2P Require Import StreamSpec.
From S2P Require Import StreamerRefine.
From S2P Require Import Deleter.
From S2P Require Import Server.
From S2P Require Import Expiry.
From S2P Require Import Catalog.

(** ** The invariant *)

Section server_ok.
  Context {S : Type} `{StorageLaws S}.
  (** Where the running background deletions stand. *)
  Context (R : gmap Z phase).
  Implicit Types (srv : server S) (s : S) (C : catalog).

(** [owed] as in [cat_ok]. *)
Record core_ok srv C (owed : Z) : Prop := {
  sv_healthy : healthy (srv_store srv);
  sv_cat : cat_ok R (view (srv_store srv)) (srv_nextID srv) C owed;
  sv_resident : ∀ p st, srv_registry srv !! p = Some st →
    ∃ e, C !! p = Some e ∧ e_gone e = false ∧
      mem_rep st p (e_meta e) (e_state e) ∧ published st (e_state e);
  sv_deleting : Forall (started_ok (srv_nextID srv) C) (srv_deleting srv) }.

Definition server_ok srv C : Prop := core_ok srv C 0 ∧ gone_kept C.

(** ** Loads of a catalogued store *)

Lemma healthy_get s k : healthy s → store_Get s k = Ok (view s !! k).
Proof.
  intros Hh. destruct (healthy_Get s k Hh) as [r Hr]. rewrite Hr. by apply Get_view in Hr as ->.
Qed.

Lemma healthy_commit s ops d s' err :
  healthy s → store_Commit s ops d = (s', err) →
  err = None ∧ healthy s' ∧ view s' = apply_ops (view s) ops.
Proof.
  intros Hh E. destruct (healthy_Commit s ops d Hh) as (s2 & E2 & Hh2). rewrite E in E2.
  simplify_eq. split_and!; [done..|]. by apply Commit_ok in E.
Qed.

Lemma loadRefCount_healthy s id : healthy s → loadRefCount s id = refs (view s) id.
Proof.
  intros Hh. unfold loadRefCount, refs. rewrite healthy_get by done.
  by destruct (view s !! refCountKey id).
Qed.

Section loads_ok.
  Context s (next : Z) C (owed : Z).
  Hypothesis Hh : healthy s.
  Hypothesis Hok : cat_ok R (view s) next C owed.

Lemma loadMeta_cat p : loadMeta s p = Ok (e_stored <$> C !! p).
Proof.
  unfold loadMeta. rewrite healthy_get by done. run_result.
  destruct (C !! p) as [e|] eqn:Hp; simpl.
  - destruct (sr_meta _ _ _ _ (eo_rep _ _ _ _ (co_entry _ _ _ _ Hok p e Hp))) as (?&?&->).
    by rewrite unmarshalMeta_Marshal.
  - by destruct (co_absent _ _ _ _ Hok p Hp) as [-> _].
Qed.

Lemma loadTombstone_cat p :
  loadTombstone s p =
    Ok (e ← C !! p; if e_gone e then Some (tombSoftDelete, e_id e) else None).
Proof.
  destruct (loadTombstone s p) as [r|err] eqn:E.
  - f_equal. destruct (C !! p) as [e|] eqn:Hp; simpl.
    + pose proof (eo_tomb _ _ _ _ (co_entry _ _ _ _ Hok p e Hp)) as Ht.
      pose proof (cat_id _ _ _ _ Hok p e Hp) as [? _]. destruct (e_gone e).
      * by eapply loadTombstone_stored.
      * by eapply loadTombstone_absent.
    + eapply loadTombstone_absent; [|done]. by apply (co_absent _ _ _ _ Hok).
  - exfalso. revert E. unfold loadTombstone. rewrite healthy_get by done. run_result.
    destruct (C !! p) as [e|] eqn:Hp.
    + rewrite (eo_tomb _ _ _ _ (co_entry _ _ _ _ Hok p e Hp)). destruct (e_gone e); [|done].
      unfold tombstoneValue. rewrite decide_False by len_lia. rewrite go_slice_in_range by len_lia.
      done.
    + by destruct (co_absent _ _ _ _ Hok p Hp) as [_ ->].
Qed.

Lemma loadTailSeq_cat p e : C !! p = Some e → loadTailSeq s (e_id e) = Ok (a_tail (e_state e)).
Proof.
  intros Hp. destruct (sr_tail _ _ _ _ (eo_rep _ _ _ _ (co_entry _ _ _ _ Hok p e Hp)))
    as (? & u & ? & Ht).
  unfold loadTailSeq. rewrite healthy_get by done. unfold e_id. rewrite Ht. run_result.
  by rewrite unmarshalTail_marshalTail.
Qed.

Lemma loadMetaByID_live p e : C !! p = Some e → loadMetaByID s (e_id e) = Ok (Some (e_stored e, p)).
Proof.
  intros Hp. unfold loadMetaByID. rewrite healthy_get by done.
  rewrite (eo_mapping _ _ _ _ (co_entry _ _ _ _ Hok p e Hp)). run_result.
  by rewrite loadMeta_cat, Hp.
Qed.

Lemma loadMetaByID_dead id : is_u64 id → ¬ live C id → loadMetaByID s id = Ok None.
Proof.
  intros Hid Hl. unfold loadMetaByID. rewrite healthy_get by done.
  destruct (view s !! idMappingKey id) as [p|] eqn:E; [|done].
  apply (co_mapped _ _ _ _ Hok) in E as (e & Hp & He); [|done]. destruct Hl. by exists p, e.
Qed.

End loads_ok.

(** ** Creation *)

(** What [createStream] is given, in the ranges of its types. *)
Record create_wf srv (nowUnix nowMs : Z) (p : createParams) : Prop := {
  cw_now : is_i64 nowUnix ∧ is_i64 nowMs;
  cw_ttl : is_u64 (cp_ttl p);
  cw_expires : is_i64 (cp_expiresAt p);
  cw_contentType : len (cp_contentType p) < 2^16;
  cw_next : srv_nextID srv + 1 < 2^64;
  cw_records : ∀ rs, createRecords (cp_contentType p) (cp_body p) = inr rs → len rs < 2^63 }.

(** The answer to the creation of a path that is taken: the stream's own state if
    it was asked for in the same terms, a conflict otherwise. *)
Definition create_again (e : entry) (p : createParams) : createResult :=
  let m := e_stored e in
  if e_gone e then create_status 409
  else if contentTypeMatches (ContentType m) (cp_contentType p)
       && bool_decide (TTLSeconds m = boolU64 (cp_ttlSet p) (cp_ttl p))
       && bool_decide (ExpiresAt m = boolI64 (cp_expiresSet p) (cp_expiresAt p))
       && bool_decide (Closed m = cp_closed p)
  then create_ok 200 (ContentType m) (a_tail (e_state e)) (Closed m)
  else create_status 409.

Lemma streamPuts_batch p sm start rs tail upd ttl :
  0 ≤ start → start + len rs ≤ 2^64 →
  recordPuts (StreamID sm) start rs ++ streamPuts p sm tail upd ttl
  = encode_batch (new_batch p sm start rs tail upd ttl None).
Proof.
  intros. unfold new_batch, streamPuts, recordPuts.
  rewrite (recordOps_batch (StreamID sm) start 0 rs) by lia. rewrite Z.add_0_r.
  rewrite !encode_batch_app. f_equal. rewrite app_assoc. by case_decide.
Qed.

(** A commit of a new stream. *)
Lemma commitNew_ok srv C nw p rs upd ttl src :
  server_ok srv C → C !! p = None →
  new_ok (srv_nextID srv) C (nw_meta nw) rs upd src →
  nw_tail nw = ForkOffset (nw_meta nw) + len rs →
  nw_ops nw = encode_batch (new_batch p (nw_meta nw) (ForkOffset (nw_meta nw)) rs (nw_tail nw) upd ttl src) →
  let '(srv', res) := commitNew srv (inr nw) in
  server_ok srv' (<[p:=new_entry (nw_meta nw) rs]> C) ∧
  srv_nextID srv' = srv_nextID srv + 1 ∧
  res = create_ok 201 (ContentType (nw_meta nw)) (nw_tail nw) (Closed (nw_meta nw)).
Proof.
  intros [[Hh Hcat Hres Hdel] Hkept] Hp Hnew Htail Hops. unfold commitNew.
  destruct (store_Commit (srv_store srv) (nw_ops nw) true) as [s' err] eqn:E.
  apply healthy_commit in E as (-> & Hh' & Hv); [|done].
  pose proof (no_id _ _ _ _ _ _ Hnew) as Hid. pose proof (no_next _ _ _ _ _ _ Hnew) as Hn.
  pose proof (co_next _ _ _ _ Hcat).
  assert (Hu : u64 (StreamID (nw_meta nw) + 1) = srv_nextID srv + 1)
    by (rewrite Hid; apply u64_small; unfold is_u64; lia).
  split_and!; [|done|done]. split; [split|]; simpl.
  - done.
  - rewrite Hu, Hv, Hops, Htail. by apply cat_new.
  - intros q st Hq. destruct (Hres q st Hq) as (e & He & ? & ? & ?). exists e.
    split_and!; [|done..]. rewrite lookup_insert_ne; [done|]. intros ->. congruence.
  - rewrite Hu. eapply Forall_impl; [exact Hdel|]. intros id (? & ? & Hl). split_and!; [done|lia|].
    rewrite (live_insert _ _ _ _ _ _ _ Hp Hnew). intros [?| ->]; [done|lia].
  - intros q e [[<- <-]|[? He]]%lookup_insert_Some Hg; [done|].
    rewrite forks_insert_new by done. pose proof (Hkept q e He Hg). case_decide; lia.
Qed.

Lemma createStream_ok srv C nowUnix nowMs p :
  server_ok srv C → create_wf srv nowUnix nowMs p →
  let '(srv', res) := createStream srv nowUnix nowMs p in
  match C !! cp_path p with
  | Some e => srv' = srv ∧ res = create_again e p
  | None =>
      match createRecords (cp_contentType p) (cp_body p) with
      | inl bad => srv' = srv ∧ res = bad
      | inr rs =>
          server_ok srv' (<[cp_path p := new_entry (newMeta (srv_nextID srv) nowUnix nowMs p) rs]> C) ∧
          srv_nextID srv' = srv_nextID srv + 1 ∧
          res = create_ok 201 (cp_contentType p) (len rs) (cp_closed p)
      end
  end.
Proof.
  intros Hs Hw. pose proof Hs as [[Hh Hcat _ _] _]. unfold createStream, createPlan.
  rewrite (loadTombstone_cat _ _ _ _ Hh Hcat), (loadMeta_cat _ _ _ _ Hh Hcat).
  destruct (C !! cp_path p) as [e|] eqn:Hp; simpl.
  - unfold create_again. destruct (e_gone e); simpl.
    { done. }
    destruct (_ && _); simpl; [|done].
    change (StreamID (e_meta e)) with (e_id e). by rewrite (loadTailSeq_cat _ _ _ _ Hh Hcat _ _ Hp).
  - destruct (createRecords (cp_contentType p) (cp_body p)) as [bad|rs] eqn:Hr; simpl; [done|].
    destruct Hw as [[Hn1 Hn2] Httl Hexp Hct Hnext Hrs]. specialize (Hrs rs Hr).
    pose proof (co_next _ _ _ _ Hcat).
    eapply (commitNew_ok srv C {| nw_meta := newMeta (srv_nextID srv) nowUnix nowMs p |}
      _ rs nowUnix _ None); cbn [nw_meta nw_tail nw_ops]; [done|done| |done|].
    + split; simpl; try done; try lia. split; [|done]. unfold wf_meta. simpl.
      split_and!; try done; [unfold is_u64; lia|by destruct (cp_ttlSet p)|by destruct (cp_expiresSet p)|].
      destruct (cp_ttlSet p); [apply u64_range|]. case_decide; [apply u64_range|done].
    + apply (streamPuts_batch (cp_path p) (newMeta (srv_nextID srv) nowUnix nowMs p) 0 rs); simpl; lia.
Qed.

(** ** Deletion *)

(** Releasing a reference to [sid] (0: to nothing): nothing more happens when the
    source is no more, is in use, or has other forks; else it goes too, and
    releases its own source. *)
Inductive released C : Z → catalog → Prop :=
| released_none sid : ¬ live C sid → released C sid C
| released_kept sid p e :
    C !! p = Some e → e_id e = sid → e_gone e = false ∨ 0 < forks C sid → released C sid C
| released_gone sid p e C' :
    C !! p = Some e → e_id e = sid → e_gone e = true → forks C sid = 0 →
    released (delete p C) (e_source e) C' → released C sid C'.

Lemma deleteOps_batch p m : deleteOps p m = encode_batch (remove_batch p m).
Proof. unfold deleteOps, remove_batch. rewrite encode_batch_app. f_equal. by case_decide. Qed.

(** Every soft-deleted stream is referred to, the one at [x] apart. *)
Definition kept_but (x : option bytes) C (owed : Z) : Prop :=
  ∀ p e, Some p ≠ x → C !! p = Some e → e_gone e = true →
    0 < forks C (e_id e) + (if decide (e_id e = owed) then 1 else 0).

Lemma kept_but_none C next m : cat_ok R m next C 0 → kept_but None C 0 ↔ gone_kept C.
Proof.
  intros Hcat. unfold kept_but, gone_kept. split; intros Hk p e.
  - intros Hp Hg. specialize (Hk p e ltac:(done) Hp Hg). pose proof (cat_id _ _ _ _ Hcat p e Hp).
    rewrite decide_False in Hk by lia. lia.
  - intros _ Hp Hg. specialize (Hk p e Hp Hg). case_decide; lia.
Qed.

Lemma removed_ok srv C p e s' :
  core_ok srv C 0 → kept_but (Some p) C 0 → C !! p = Some e →
  healthy s' → view s' = apply_ops (view (srv_store srv)) (deleteOps p (e_stored e)) →
  core_ok (startBackgroundDelete (e_id e) (set_store s' (removeStreamer srv p))) (delete p C) (e_source e) ∧
  kept_but None (delete p C) (e_source e).
Proof.
  intros [Hh Hcat Hres Hdel] Hk Hp Hh' Hv. split; [split|]; simpl.
  - done.
  - rewrite Hv, deleteOps_batch. by apply cat_remove.
  - intros q st [Hne Hq]%lookup_delete_Some. destruct (Hres q st Hq) as (f & ? & ?).
    exists f. by rewrite lookup_delete_ne.
  - pose proof (cat_id _ _ _ _ Hcat p e Hp) as [? ?].
    apply Forall_app. split; [|apply Forall_singleton].
    + eapply Forall_impl; [exact Hdel|]. intros id (? & ? & Hl). split_and!; [done..|].
      by intros [? _]%(live_delete _ _ _ _ _ Hcat Hp).
    + split_and!; [done|lia|]. by intros [_ ?]%(live_delete _ _ _ _ _ Hcat Hp).
  - intros q f _ [Hne Hq]%lookup_delete_Some Hg. rewrite (forks_delete C p e) by done.
    specialize (Hk q f ltac:(congruence) Hq Hg). pose proof (cat_id _ _ _ _ Hcat q f Hq) as [_ ?].
    rewrite decide_False in Hk by lia. repeat case_decide; lia || congruence.
Qed.

(** The new count a release writes. *)
Lemma counted_ok srv C sid s' count :
  core_ok srv C sid → is_u64 sid → sid < srv_nextID srv →
  count = (let n := refs (view (srv_store srv)) sid in if decide (0 < n) then n - 1 else n) →
  healthy s' → view s' = apply_ops (view (srv_store srv)) [PutOp (refCountKey sid) (u64Value count)] →
  core_ok (set_store s' srv) C 0 ∧ (live C sid → count = forks C sid).
Proof.
  intros [Hh Hcat Hres Hdel] Hsid Hn Hc Hh' Hv.
  assert (Hcount : ∀ p e, C !! p = Some e → e_id e = sid → count = forks C sid).
  { intros p e Hp <-. pose proof (co_refs _ _ _ _ Hcat p e Hp) as Hr.
    rewrite decide_True in Hr by done. pose proof (forks_nonneg C (e_id e)).
    rewrite Hc, Hr. simpl. rewrite decide_True by lia. lia. }
  split; [split; simpl; try done|].
  - rewrite Hv. eapply cat_put_refs; [done..|]. intros p e Hp.
    pose proof (cat_id _ _ _ _ Hcat p e Hp) as [_ ?]. rewrite (decide_False (P := e_id e = 0)) by lia.
    case_decide as Hd.
    + rewrite (Hcount p e Hp Hd), <-Hd. pose proof (forks_bound _ _ _ _ Hcat (e_id e)).
      pose proof (forks_nonneg C (e_id e)). pose proof (co_next _ _ _ _ Hcat).
      rewrite u64_small by (unfold is_u64; lia). lia.
    + rewrite (co_refs _ _ _ _ Hcat p e Hp), decide_False by done. lia.
  - intros (p & e & Hp & He). by eapply Hcount.
Qed.

Lemma dropForkRef_ok del srv C sid :
  core_ok srv C sid → kept_but None C sid → is_u64 sid → 0 < sid < srv_nextID srv →
  (∀ srv1 p e, core_ok srv1 C 0 → kept_but (Some p) C 0 → C !! p = Some e → e_id e = sid →
     ∃ C', released (delete p C) (e_source e) C' ∧ server_ok (del srv1 p (e_stored e)).1 C' ∧
       srv_nextID (del srv1 p (e_stored e)).1 = srv_nextID srv1) →
  ∃ C', released C sid C' ∧ server_ok (dropForkRef del srv sid) C' ∧
    srv_nextID (dropForkRef del srv sid) = srv_nextID srv.
Proof.
  intros Hok Hk Hsid [Hpos Hn] Hdel. pose proof Hok as [Hh Hcat _ _].
  unfold dropForkRef. rewrite loadRefCount_healthy by done.
  set (count := let n := refs (view (srv_store srv)) sid in if decide (0 < n) then n - 1 else n).
  change (if decide (0 < refs (view (srv_store srv)) sid) then _ else _) with count. cbv zeta.
  destruct (store_Commit _ _ true) as [s' err] eqn:E. cbn [fst].
  apply healthy_commit in E as (-> & Hh' & Hv); [|done].
  destruct (counted_ok srv C sid s' count Hok Hsid Hn eq_refl Hh' Hv) as [Hok' Hcount].
  pose proof (sv_cat _ _ _ Hok') as Hcat'. cbn [srv_store set_store srv_nextID] in *.
  assert (Hkeep : 0 < count ∨ ¬ live C sid ∨ (∃ p e, C !! p = Some e ∧ e_id e = sid ∧ e_gone e = false) →
    server_ok (set_store s' srv) C).
  { intros Hor. split; [done|]. intros p e Hp Hg. specialize (Hk p e ltac:(done) Hp Hg).
    case_decide as Hd; [|lia]. destruct Hor as [?|[Hl|(q & f & Hq & Hf & Hfg)]].
    - rewrite Hd, <-Hcount; [done|]. by exists p, e.
    - destruct Hl. by exists p, e.
    - assert (q = p) as -> by (eapply cat_id_inj; [exact Hcat|done..|congruence]). congruence. }
  destruct (decide (live C sid)) as [Hl|Hl].
  - specialize (Hcount Hl). destruct Hl as (p & e & Hp & He). case_decide as Hc.
    + exists C. split_and!; [eapply released_kept; [done..|right; lia]|auto|done].
    + pose proof (forks_nonneg C sid).
      pose proof (loadMetaByID_live s' _ _ _ Hh' Hcat' p e Hp) as Hl.
      rewrite He in Hl. rewrite Hl, (loadTombstone_cat _ _ _ _ Hh' Hcat'), Hp. simpl.
      destruct (e_gone e) eqn:Hg; simpl.
      * destruct (Hdel (set_store s' srv) p e) as (C' & Hr & Hs & Hnx); [done| |done..|].
        { intros q f Hne Hq Hqg. specialize (Hk q f ltac:(done) Hq Hqg).
          destruct (decide (e_id f = sid)) as [Hd|]; [|case_decide; lia].
          destruct Hne. f_equal. eapply cat_id_inj; [exact Hcat|done..|congruence]. }
        exists C'. split_and!; [|done..]. eapply released_gone; [done..|lia|done].
      * exists C. split_and!; [eapply released_kept; [done..|by left]| |done].
        apply Hkeep. right; right. by exists p, e.
  - exists C. split_and!; [by apply released_none| |].
    + case_decide; [by auto|]. rewrite (loadMetaByID_dead s' _ _ _ Hh' Hcat' sid Hsid Hl). auto.
    + case_decide; [done|]. by rewrite (loadMetaByID_dead s' _ _ _ Hh' Hcat' sid Hsid Hl).
Qed.

Lemma deleteStreamLocked_ok fuel : ∀ srv C p e,
  core_ok srv C 0 → kept_but (Some p) C 0 → C !! p = Some e → (Z.to_nat (e_id e) < fuel)%nat →
  ∃ C', released (delete p C) (e_source e) C' ∧
    let r := deleteStreamLocked fuel srv p (e_stored e) in
    r.2 = None ∧ server_ok r.1 C' ∧ srv_nextID r.1 = srv_nextID srv.
Proof.
  induction fuel as [|fuel IH]; intros srv C p e Hok Hk Hp Hfuel; [lia|].
  pose proof Hok as [Hh Hcat _ _]. pose proof (co_entry _ _ _ _ Hcat p e Hp) as He.
  pose proof (eo_source _ _ _ _ He) as Hsrc. pose proof (eo_id _ _ _ _ He) as Hid.
  pose proof (co_next _ _ _ _ Hcat). cbn [deleteStreamLocked]. unfold removeStreamerLocked.
  destruct (store_Commit _ _ true) as [s' err] eqn:E. cbn [removeStreamer set_registry srv_store] in E.
  apply healthy_commit in E as (-> & Hh' & Hv); [|done].
  destruct (removed_ok srv C p e s' Hok Hk Hp Hh' Hv) as [Hok1 Hk1].
  change (StreamID (e_stored e)) with (e_id e). change (ForkedFrom (e_stored e)) with (e_source e).
  set (srv1 := startBackgroundDelete _ _) in *.
  destruct (decide (e_source e = 0)) as [Hz|Hz]; cbn [fst snd].
  - rewrite Hz in *. exists (delete p C). split; [|split_and!; [done| |done]].
    + apply released_none. intros (q & f & Hq & Hf).
      pose proof (cat_id _ _ _ _ (sv_cat _ _ _ Hok1) q f Hq). lia.
    + split; [done|]. by eapply kept_but_none; [apply Hok1|].
  - destruct (dropForkRef_ok (deleteStreamLocked fuel) srv1 (delete p C) (e_source e))
      as (C' & Hr & Hs & Hn); [done|done|unfold is_u64; lia|simpl; lia| |].
    { intros srv2 q f Hok2 Hk2 Hq Hf.
      destruct (IH srv2 (delete p C) q f Hok2 Hk2 Hq) as (C' & ? & ? & ? & ?); [lia|].
      by exists C'. }
    exists C'. by split_and!.
Qed.

(** A stream is marked; its streamer is retired. *)
Definition gone_entry (e : entry) : entry :=
  {| e_meta := e_meta e; e_state := e_state e; e_gone := true |}.

Lemma softDelete_ok srv C p e :
  server_ok srv C → C !! p = Some e → 0 < forks C (e_id e) →
  let '(srv', err) := softDeleteLocked srv p (e_stored e) in
  err = None ∧ server_ok srv' (<[p:=gone_entry e]> C) ∧ srv_nextID srv' = srv_nextID srv.
Proof.
  intros [[Hh Hcat Hres Hdel] Hkept] Hp Hf. unfold softDeleteLocked, removeStreamerLocked.
  destruct (store_Commit _ _ true) as [s' err] eqn:E. cbn [removeStreamer set_registry srv_store] in E.
  apply healthy_commit in E as (-> & Hh' & Hv); [|done].
  pose proof (cat_id _ _ _ _ Hcat p e Hp) as [Hid Hidn].
  pose proof (co_entry _ _ _ _ Hcat p e Hp) as He.
  assert (Hlk : ∀ k, skey_wf k → k ≠ KTombstone p → view s' !! encode_skey k = view (srv_store srv) !! encode_skey k).
  { intros k Hw Hne. rewrite Hv. apply apply_ops_lookup_ne, Forall_singleton.
    intros Eq%(encode_skey_inj (KTombstone p) k); done. }
  assert (Hlive : ∀ id, live (<[p:=gone_entry e]> C) id → live C id).
  { intros id (q & f & [[<- <-]|[? ?]]%lookup_insert_Some & <-); [by exists p, e|by exists q, f]. }
  split_and!; [done| |done]. split; [split|]; simpl.
  - done.
  - eapply cat_update; [done|done| | | |done|done|].
    + rewrite Hv. apply keys_wf_apply_ops; [apply Hcat|]. apply Forall_singleton. by exists (KTombstone p).
    + intros k Hw Ho. apply Hlk; [done|]. intros ->. simpl in Ho. by rewrite bool_decide_eq_true_2 in Ho.
    + by at_key Hlk (KDeletePending (e_id e)).
    + destruct He as [Hrep Hwf Hb Hi Hmap Htomb Hbase Hsrc Hroot]. split; try done.
      * eapply stream_rep_frame; [exact Hrep|done|apply Hwf|simpl; lia|]. intros k Hw Hs. apply Hlk; [done|]. by intros ->.
      * change (e_id (gone_entry e)) with (e_id e). by at_key Hlk (KIDMapping (e_id e)).
      * rewrite Hv. apply lookup_insert_eq.
  - intros q st [Hne Hq]%lookup_delete_Some. destruct (Hres q st Hq) as (f & ? & ?).
    exists f. by rewrite lookup_insert_ne.
  - eapply Forall_impl; [exact Hdel|]. intros id (? & ? & Hl). split_and!; [done..|]. by intros ?%Hlive.
  - intros q f Hq Hg. rewrite (forks_update C p e) by done.
    apply lookup_insert_Some in Hq as [[<- <-]|[? Hq]]; [done|by eapply Hkept].
Qed.

(** What deleting the stream at [p] does to the catalogue. *)
Inductive deleted C (p : bytes) : option error → catalog → Prop :=
| deleted_absent : C !! p = None → deleted C p (Some ErrNotFound) C
| deleted_gone e : C !! p = Some e → e_gone e = true → deleted C p (Some ErrGone) C
| deleted_soft e :
    C !! p = Some e → e_gone e = false → 0 < forks C (e_id e) →
    deleted C p None (<[p:=gone_entry e]> C)
| deleted_hard e C' :
    C !! p = Some e → e_gone e = false → forks C (e_id e) = 0 →
    released (delete p C) (e_source e) C' → deleted C p None C'.

Lemma deleteStream_ok srv C p :
  server_ok srv C →
  let '(srv', err) := deleteStream srv p in
  ∃ C', deleted C p err C' ∧ server_ok srv' C' ∧ srv_nextID srv' = srv_nextID srv.
Proof.
  intros Hs. pose proof Hs as [[Hh Hcat Hres Hdel] Hkept]. unfold deleteStream.
  rewrite (loadTombstone_cat _ _ _ _ Hh Hcat), (loadMeta_cat _ _ _ _ Hh Hcat).
  destruct (C !! p) as [e|] eqn:Hp; cbn -[deleteStreamLocked cascade_fuel].
  2: { exists C. split_and!; [by apply deleted_absent|done..]. }
  destruct (e_gone e) eqn:Hg; cbn -[deleteStreamLocked cascade_fuel].
  { exists C. split_and!; [by eapply deleted_gone|done..]. }
  change (StreamID (e_meta e)) with (e_id e). rewrite loadRefCount_healthy by done.
  pose proof (cat_id _ _ _ _ Hcat p e Hp) as [? ?].
  rewrite (co_refs _ _ _ _ Hcat p e Hp), (decide_False (P := e_id e = 0)), Z.add_0_r by lia. case_decide as Hf.
  - pose proof (softDelete_ok srv C p e Hs Hp Hf) as Hsd.
    destruct (softDeleteLocked _ _ _) as [srv' err]. destruct Hsd as (-> & ? & ?).
    exists (<[p:=gone_entry e]> C). split_and!; [by eapply deleted_soft|done..].
  - destruct (deleteStreamLocked_ok (cascade_fuel (e_stored e)) srv C p e) as (C' & Hr & Hres').
    + apply Hs.
    + intros q f _. by apply (kept_but_none C _ _ Hcat).
    + done.
    + unfold cascade_fuel, e_id. simpl. lia.
    + destruct (deleteStreamLocked _ _ _ _) as [srv' err]. cbn [fst snd] in Hres'.
      destruct Hres' as (-> & ? & ?). exists C'. split_and!; [|done..].
      eapply deleted_hard; [done..| |done]. pose proof (forks_nonneg C (e_id e)). lia.
Qed.

(** ** Expiry *)

(** A release takes out soft-deleted streams only. *)
Lemma released_keeps C sid C' :
  released C sid C' →
  C' ⊆ C ∧ ∀ p e, C !! p = Some e → e_gone e = false → C' !! p = Some e.
Proof.
  induction 1 as [C sid|C sid p e|C sid p e C' Hp He Hg Hf Hr [IH1 IH2]]; [done|done|]. split.
  - etrans; [exact IH1|]. apply delete_subseteq.
  - intros q f Hq Hqg. apply IH2; [|done]. rewrite lookup_delete_ne; [done|]. intros ->. congruence.
Qed.

Lemma released_only C sid C' :
  released C sid C' →
  ∀ p e, C !! p = Some e → C' !! p = None → e_gone e = true ∧ forks C' (e_id e) = 0.
Proof.
  induction 1 as [C sid|C sid p e|C sid p e C' Hp He Hg Hf Hr IH]; intros q f Hq Hq'; [congruence..|].
  destruct (decide (p = q)) as [<-|Hne].
  - assert (f = e) as -> by congruence. split; [done|]. apply released_keeps in Hr as [Hsub _].
    assert (C' ⊆ C) as Hm%(forks_mono _ _ (e_id e)) by (etrans; [exact Hsub|apply delete_subseteq]).
    pose proof (forks_nonneg C' (e_id e)). rewrite He in *. lia.
  - apply (IH q f); [by rewrite lookup_delete_ne|done].
Qed.

(** Writes that change no stream's state and no stream's record of expiry. *)
Lemma core_ok_store srv C s' :
  server_ok srv C → healthy s' → cat_ok R (view s') (srv_nextID srv) C 0 →
  server_ok (set_store s' srv) C.
Proof. intros [[Hh Hcat Hres Hdel] Hk] Hh' Hc. split; [|done]. by split. Qed.

Lemma dropStaleExpiry_ok srv C d id :
  server_ok srv C → is_u64 d → is_u64 id → 
  (∀ p e, C !! p = Some e → e_id e = id → a_deadline (e_state e) ≠ d) →
  server_ok (dropStaleExpiry srv (expiryKey d id)) C.
Proof.
  intros Hs Hd Hid Hstale. pose proof Hs as [[Hh Hcat _ _] _]. unfold dropStaleExpiry.
  destruct (store_Commit _ _ false) as [s' err] eqn:E. apply healthy_commit in E as (_ & Hh' & Hv); [|done].
  cbn [fst]. apply core_ok_store; [done..|]. rewrite Hv. change (apply_ops ?m [DelOp ?k]) with (delete k m).
  destruct (view (srv_store srv) !! expiryKey d id) as [v|] eqn:Hk; [|by rewrite delete_id].
  set (m := view (srv_store srv)) in *.
  assert (Hdead : ¬ live C id).
  { intros (p & e & Hp & He). eapply Hstale; [done..|].
    pose proof (sr_expiry _ _ _ _ (eo_rep _ _ _ _ (co_entry _ _ _ _ Hcat p e Hp)) d Hd) as Hx.
    change (StreamID (e_meta e)) with (e_id e) in Hx. rewrite He, Hk in Hx.
    symmetry. by apply Hx. }
  assert (Hn : id < srv_nextID srv).
  { destruct (decide (id < srv_nextID srv)); [done|].
    pose proof (co_fresh _ _ _ _ Hcat (KExpiry d id) id (conj Hd Hid) eq_refl ltac:(lia)) as Hf.
    cbn [encode_skey] in Hf. congruence. }
  assert (Hlk : ∀ k, skey_wf k → k ≠ KExpiry d id →
    delete (expiryKey d id) m !! encode_skey k = m !! encode_skey k).
  { intros k Hw Hne. apply lookup_delete_ne. by intros Eq%(encode_skey_inj (KExpiry d id) k). }
  eapply cat_dead; [done| | | | |].
  - intros k v' [_ Hk']%lookup_delete_Some. by eapply (co_keys _ _ _ _ Hcat).
  - intros k Hw. destruct (decide (k = KExpiry d id)) as [->|]; [right|by left; apply Hlk].
    split; [|done]. by exists id.
  - intros i Hi. eapply cursor_ok_frame; [by apply (co_cursor _ _ _ _ Hcat)| |].
    + by at_key Hlk (KDeletePending i).
    + intros q Hq. left. by at_key Hlk (KRecord i q).
  - intros i ph Hr Hph. eapply phase_ok_frame; [done|by eapply (co_running _ _ _ _ Hcat)|].
    intros k Hw Hrk. apply Hlk; [done|]. by intros ->.
  - intros i k Hi Hw Hrk. rewrite Hlk; [|done|by intros ->].
    at_key Hlk (KDeletePending i); [|done..]. by apply (co_owned _ _ _ _ Hcat).
Qed.

(** What the expiry of one index entry, due at [d], does. *)
Record expired (d id now : Z) C C' : Prop := {
  ex_sub : C' ⊆ C;
  ex_kept : ∀ p e, C !! p = Some e → e_gone e = false →
    ¬ (e_id e = id ∧ a_deadline (e_state e) = d ∧ d ≤ now) → C' !! p = Some e;
  ex_only : ∀ p e, C !! p = Some e → C' !! p = None →
    (e_id e = id ∧ a_deadline (e_state e) = d ∧ d ≤ now) ∨ (e_gone e = true ∧ forks C' (e_id e) = 0);
  ex_due : d ≤ now → ∀ p e, C !! p = Some e → e_id e = id → a_deadline (e_state e) = d → C' !! p = None }.

Lemma expireIfDue_ok srv C d id now :
  server_ok srv C → is_u64 d → is_u64 id → 0 ≤ now < 2^63 → d < 2^63 →
  ∃ C', server_ok (expireIfDue srv d id (expiryKey d id) now) C' ∧ expired d id now C C' ∧
    srv_nextID (expireIfDue srv d id (expiryKey d id) now) = srv_nextID srv.
Proof.
  intros Hs Hd Hid Hnow Hd63. pose proof Hs as [[Hh Hcat Hres Hdel] Hkept]. unfold expireIfDue.
  rewrite healthy_get by done.
  assert (Hno : (∀ p e, C !! p = Some e → e_id e = id → a_deadline (e_state e) ≠ d) →
    ∃ C', server_ok (dropStaleExpiry srv (expiryKey d id)) C' ∧ expired d id now C C' ∧
      srv_nextID (dropStaleExpiry srv (expiryKey d id)) = srv_nextID srv).
  { intros Hst. exists C. split_and!; [by apply dropStaleExpiry_ok| |done].
    split; [done|done|by intros ? ? -> ?|]. intros _ p e Hp He Hx. by destruct (Hst p e Hp He). }
  destruct (view (srv_store srv) !! idMappingKey id) as [p|] eqn:Hm.
  2: { apply Hno. intros p e Hp He. exfalso.
       pose proof (eo_mapping _ _ _ _ (co_entry _ _ _ _ Hcat p e Hp)) as Hm'. congruence. }
  apply (co_mapped _ _ _ _ Hcat) in Hm as (e & Hp & He); [|done].
  rewrite (loadMeta_cat _ _ _ _ Hh Hcat), Hp. cbn [fmap option_fmap option_map].
  assert (Huniq : ∀ q f, C !! q = Some f → e_id f = id → q = p ∧ f = e).
  { intros q f Hq Hf. assert (q = p) as -> by (eapply cat_id_inj; [exact Hcat|done..|congruence]).
    split; [done|congruence]. }
  change (StreamID (e_stored e)) with (e_id e). change (Deadline (e_stored e)) with (a_deadline (e_state e)).
  destruct (decide (e_id e ≠ id ∨ a_deadline (e_state e) ≠ d)) as [Hne|Heq].
  { apply Hno. intros q f Hq Hf. destruct (Huniq q f Hq Hf) as [-> ->]. destruct Hne; [done|done]. }
  assert (a_deadline (e_state e) = d) as Hdl by (destruct (decide (a_deadline (e_state e) = d)); [done|tauto]).
  rewrite i64_small by (unfold is_i64, is_u64 in *; lia).
  destruct (decide (now < d)) as [Hlt|Hge].
  { exists C. split_and!; [done| |done]. split; [done|done|by intros ? ? -> ?|lia]. }
  destruct (deleteStreamLocked_ok (cascade_fuel (e_stored e)) srv C p e) as (C' & Hr & Hres' & Hs' & Hn');
    [apply Hs|intros q f _; by apply (kept_but_none C _ _ Hcat)|done|unfold cascade_fuel, e_id; simpl; lia|].
  pose proof (released_only _ _ _ Hr) as Honly.
  apply released_keeps in Hr as [Hsub Hkeep]. exists C'. split_and!; [done| |done]. split.
  - etrans; [exact Hsub|]. apply delete_subseteq.
  - intros q f Hq Hg Hnd. apply Hkeep; [|done]. rewrite lookup_delete_ne; [done|].
    intros ->. assert (f = e) as -> by congruence. apply Hnd. split_and!; [done..|lia].
  - intros q f Hq Hq'. destruct (decide (p = q)) as [<-|Hne].
    + left. assert (f = e) as -> by congruence. split_and!; [done..|lia].
    + right. apply (Honly q); [by rewrite lookup_delete_ne|done].
  - intros _ q f Hq Hf _. destruct (Huniq q f Hq Hf) as [-> ->].
    destruct (C' !! p) as [g|] eqn:Hg; [|done]. eapply lookup_weaken in Hg; [|exact Hsub].
    by rewrite lookup_delete_eq in Hg.
Qed.

Lemma due_entry_expiry d id v :
  is_u64 d → is_u64 id →
  due_entry (expiryKey d id, v) =
    Some {| due_deadline := d; due_id := id; due_key := expiryKey d id |}.
Proof.
  intros Hd Hid. unfold due_entry. cbn [fst]. rewrite decide_True by (rewrite length_expiryKey; lia).
  unfold expiryKey. do 2 f_equal.
  - rewrite <-app_assoc, drop_app_length_eq, take_app_length_eq by len_lia.
    by rewrite be64Decode_value, be_value_be64, u64_small by (done || len_lia).
  - rewrite drop_app_length_eq, take_ge by len_lia.
    by rewrite be64Decode_value, be_value_be64, u64_small by (done || len_lia).
Qed.

Definition due_ok (now : Z) (x : due) : Prop :=
  is_u64 (due_deadline x) ∧ is_u64 (due_id x) ∧ due_deadline x ≤ now ∧
  due_key x = expiryKey (due_deadline x) (due_id x).

Definition due_of (x : due) (e : entry) : Prop :=
  e_id e = due_id x ∧ a_deadline (e_state e) = due_deadline x.

Lemma expire_all_ok now ds : 0 ≤ now < 2^63 → Forall (due_ok now) ds → ∀ srv C,
  server_ok srv C →
  let srv' := foldl (λ srv d, expireIfDue srv (due_deadline d) (due_id d) (due_key d) now) srv ds in
  ∃ C', server_ok srv' C' ∧ srv_nextID srv' = srv_nextID srv ∧ C' ⊆ C ∧
    (∀ p e, C !! p = Some e → e_gone e = false → Forall (λ x, ¬ due_of x e) ds → C' !! p = Some e) ∧
    (∀ p e, C !! p = Some e → Exists (λ x, due_of x e) ds → C' !! p = None) ∧
    (∀ p e, C !! p = Some e → C' !! p = None →
       Exists (λ x, due_of x e) ds ∨ (e_gone e = true ∧ forks C' (e_id e) = 0)).
Proof.
  intros Hnow Hds. induction Hds as [|x ds (Hd & Hid & Hle & Hkey) Hds IH]; intros srv C Hs; simpl.
  - exists C. split_and!; [done..| |]; [intros p e _ Hex; by apply Exists_nil in Hex|congruence].
  - rewrite Hkey. destruct (expireIfDue_ok srv C (due_deadline x) (due_id x) now Hs Hd Hid Hnow ltac:(lia))
      as (C1 & Hs1 & [Hsub Hkept Honly Hdue] & Hn1).
    destruct (IH _ C1 Hs1) as (C' & Hs' & Hn' & Hsub' & Hkept' & Hdue' & Honly').
    exists C'. split_and!; [done|congruence|by etrans| | |].
    + intros p e Hp Hg [Hx Hf]%Forall_cons. apply Hkept'; [|done..]. apply Hkept; [done..|].
      unfold due_of in Hx. tauto.
    + intros p e Hp Hex. destruct (C1 !! p) as [f|] eqn:Hp1.
      * assert (f = e) as -> by (eapply lookup_weaken in Hp1; [|exact Hsub]; congruence).
        apply (Hdue' p e Hp1). apply Exists_cons in Hex as [[He Hx]|?]; [|done].
        rewrite (Hdue Hle p e Hp He Hx) in Hp1. done.
      * destruct (C' !! p) as [f|] eqn:Hp'; [|done].
        eapply lookup_weaken in Hp'; [|exact Hsub']. congruence.
    + intros p e Hp Hp'. destruct (C1 !! p) as [f|] eqn:Hp1.
      * assert (f = e) as -> by (eapply lookup_weaken in Hp1; [|exact Hsub]; congruence).
        destruct (Honly' p e Hp1 Hp'); [left; by right|by right].
      * destruct (Honly p e Hp Hp1) as [(? & ? & _)|[Hg Hf]]; [by left; left|right]. split; [done|].
        pose proof (forks_mono _ _ (e_id e) Hsub'). pose proof (forks_nonneg C' (e_id e)). lia.
Qed.

Lemma sweep_dues m now items :
  keys_wf m → 0 ≤ now < 2^63 → items = range_items m [ktExpiryDeadline] (Some (expiryScanEnd now)) →
  (∀ x, x ∈ omap due_entry items ↔
     due_ok now x ∧ is_Some (m !! expiryKey (due_deadline x) (due_id x))).
Proof.
  intros Hwf Hnow -> x. rewrite list_elem_of_omap. split.
  - intros ([k v] & [Hm Hr]%elem_of_range_items & Hx).
    destruct (Hwf _ _ Hm) as (sk & Hsk & ->).
    apply expiry_scan_exact in Hr as (d & id & -> & Hle); [|lia|done]. destruct Hsk as [? ?].
    cbn [encode_skey] in *. rewrite due_entry_expiry in Hx by done. apply (inj Some) in Hx as <-.
    split; [by split_and!|by exists v].
  - intros [(Hd & Hid & Hle & Hkey) [v Hv]]. exists (expiryKey (due_deadline x) (due_id x), v).
    rewrite due_entry_expiry by done. split.
    + apply elem_of_range_items. split; [done|].
      apply (expiry_scan_exact now (KExpiry (due_deadline x) (due_id x))); [lia|done|].
      by exists (due_deadline x), (due_id x).
    + rewrite <-Hkey. by destruct x.
Qed.

Definition is_due (now : Z) (e : entry) : Prop := 0 < a_deadline (e_state e) ≤ now.

Lemma sweepOnce_ok srv C now :
  server_ok srv C → 0 ≤ now < 2^63 →
  ∃ C', server_ok (sweepOnce srv now) C' ∧ srv_nextID (sweepOnce srv now) = srv_nextID srv ∧
    C' ⊆ C ∧
    (∀ p e, C !! p = Some e → is_due now e → C' !! p = None) ∧
    (∀ p e, C !! p = Some e → e_gone e = false → ¬ is_due now e → C' !! p = Some e) ∧
    (∀ p e, C !! p = Some e →
       (C' !! p = Some e ↔ ¬ is_due now e ∧ (e_gone e = true → 0 < forks C' (e_id e)))).
Proof.
  intros Hs Hnow. pose proof Hs as [[Hh Hcat _ _] _]. unfold sweepOnce.
  rewrite (u64_small now) by (unfold is_u64; lia).
  destruct (healthy_Scan (srv_store srv) [ktExpiryDeadline] (Some (expiryScanEnd now)) Hh)
    as (it & Hit & Herr). rewrite Hit. apply Scan_view in Hit as [_ Hit]. specialize (Hit Herr).
  pose proof (sweep_dues _ now _ (co_keys _ _ _ _ Hcat) Hnow Hit) as Hds.
  destruct (expire_all_ok now (omap due_entry (it_items it)) Hnow) with (srv := srv) (C := C)
    as (C' & Hs' & Hn & Hsub & Hkept & Hdue & Honly); [|done|].
  { apply Forall_forall. intros x [? _]%Hds. done. }
  assert (Hidx : ∀ p e d, C !! p = Some e → is_u64 d →
    is_Some (view (srv_store srv) !! expiryKey d (e_id e)) ↔ d = a_deadline (e_state e) ∧ 0 < d).
  { intros p e d Hp. apply (sr_expiry _ _ _ _ (eo_rep _ _ _ _ (co_entry _ _ _ _ Hcat p e Hp))). }
  assert (Hex : ∀ p e, C !! p = Some e → Exists (λ x, due_of x e) (omap due_entry (it_items it)) ↔ is_due now e).
  { intros p e Hp. rewrite Exists_exists. split.
    - intros (x & [(Hd & _ & Hle & _) Hsome]%Hds & Hx1 & Hx2). rewrite <-Hx1 in Hsome.
      apply (Hidx p e _ Hp Hd) in Hsome as [? ?]. unfold is_due. lia.
    - intros [H1 H2]. pose proof (co_entry _ _ _ _ Hcat p e Hp) as He.
      pose proof (aw_deadline _ (eo_wf _ _ _ _ He)). pose proof (cat_id _ _ _ _ Hcat p e Hp) as [? _].
      exists {| due_deadline := a_deadline (e_state e); due_id := e_id e;
        due_key := expiryKey (a_deadline (e_state e)) (e_id e) |}.
      split; [|done]. apply Hds. split; [by split_and!|]. by apply (Hidx p e). }
  assert (Hgone : ∀ p e, C !! p = Some e → is_due now e → C' !! p = None)
    by (intros p e Hp Hd; by apply (Hdue p e Hp), (Hex p e Hp)).
  exists C'. split_and!; [done..| |].
  - intros p e Hp Hg Hnd. apply Hkept; [done..|]. apply Forall_Exists_neg.
    by intros ?%(Hex p e Hp).
  - intros p e Hp. split.
    + intros Hp'. split; [intros Hd; by rewrite (Hgone p e Hp Hd) in Hp'|]. destruct Hs' as [_ Hk].
      by apply (Hk p e Hp').
    + intros [Hnd Hk]. destruct (C' !! p) as [f|] eqn:Hp'.
      * eapply lookup_weaken in Hp'; [|exact Hsub]. congruence.
      * destruct (Honly p e Hp Hp') as [?%(Hex p e Hp)|[Hg Hf]]; [done|]. specialize (Hk Hg). lia.
Qed.

(** ** Appends *)

Definition with_state (e : entry) (a : astate) : entry :=
  {| e_meta := e_meta e; e_state := a; e_gone := e_gone e |}.

Lemma newStreamer_ok cfg p e :
  astate_wf (e_state e) → a_tail (e_state e) < 2^63 →
  mem_rep (newStreamer cfg p (e_stored e) (a_tail (e_state e))) p (e_meta e) (e_state e) ∧
  published (newStreamer cfg p (e_stored e) (a_tail (e_state e))) (e_state e).
Proof.
  intros [Hb _ _] Ht. unfold a_tail in Ht. split.
  - by split.
  - split; [done..|]. intros c Hc. simpl in Hc. case_decide; [|done]. apply (inj Some) in Hc as <-.
    exists (a_base (e_state e)), (a_base (e_state e)). split; [|unfold a_tail; lia].
    split; [lia|by rewrite seqZ_nil by lia|by rewrite size_nil by lia].
Qed.

Lemma core_ok_spawn srv C p e st :
  server_ok srv C → C !! p = Some e → e_gone e = false →
  mem_rep st p (e_meta e) (e_state e) → published st (e_state e) →
  server_ok (set_registry (<[p:=st]> (srv_registry srv)) srv) C.
Proof.
  intros [[Hh Hcat Hres Hdel] Hk] Hp Hg Hm Hpub. split; [split|]; try done.
  intros q st' Hq. simpl in Hq.
  apply lookup_insert_Some in Hq as [[<- <-]|[? Hq]]; [by exists e|by apply Hres].
Qed.

Lemma getOrSpawn_ok srv C p :
  server_ok srv C → from_option e_gone false (C !! p) = false →
  let '(srv', r) := getOrSpawn srv p in
  server_ok srv' C ∧ srv_store srv' = srv_store srv ∧ srv_nextID srv' = srv_nextID srv ∧
  match C !! p with
  | None => r = Ok None
  | Some e => ∃ st, r = Ok (Some st) ∧ srv_registry srv' !! p = Some st ∧
      mem_rep st p (e_meta e) (e_state e) ∧ published st (e_state e)
  end.
Proof.
  intros Hs Hg. pose proof Hs as [[Hh Hcat Hres _] _]. unfold getOrSpawn.
  destruct (srv_registry srv !! p) as [st|] eqn:Hst.
  - split_and!; [done..|]. destruct (Hres p st Hst) as (e & -> & _ & ? & ?). by exists st.
  - rewrite (loadMeta_cat _ _ _ _ Hh Hcat). destruct (C !! p) as [e|] eqn:Hp; simpl; [|done].
    change (StreamID (e_meta e)) with (e_id e). rewrite (loadTailSeq_cat _ _ _ _ Hh Hcat p e Hp).
    pose proof (co_entry _ _ _ _ Hcat p e Hp) as He.
    destruct (newStreamer_ok (srv_cfg srv) p e) as [Hm Hpub]; [apply He|apply He|].
    split_and!; [by eapply core_ok_spawn|done..|].
    eexists. split_and!; [done|by apply lookup_insert_eq|done..].
Qed.

Lemma burst_entry_ok m next p e a' m' b :
  entry_ok m next p e → next < 2^64 → is_u64 (e_id e) → stream_rep m' p (e_meta e) a' → astate_wf a' →
  a_base a' = a_base (e_state e) → a_tail a' < 2^63 →
  batch_wf b → Forall (λ x, stream_key p (e_id e) x.1) b → m' = apply_ops m (encode_batch b) →
  entry_ok m' next p (with_state e a').
Proof.
  intros [Hrep Hwf Hb Hi Hmap Htomb Hbase Hsrc Hroot] Hn Hid Hrep' Hwf' Hbase' Hb' Hbwf Hkeys ->.
  assert (Hlk : ∀ k, skey_wf k → ¬ stream_key p (e_id e) k →
    apply_ops m (encode_batch b) !! encode_skey k = m !! encode_skey k).
  { intros k Hw Hns. apply batch_untouched; [done..|].
    intros (x & -> & Hx)%list_elem_of_fmap. rewrite Forall_forall in Hkeys. by apply Hns, Hkeys. }
  split; try done.
  - change (e_id (with_state e a')) with (e_id e). at_key Hlk (KIDMapping (e_id e)); [done|done|by intros []].
  - change (e_id (with_state e a')) with (e_id e). at_key Hlk (KTombstone p); [done|done|by intros []].
  - simpl. congruence.
Qed.

(** One turn of a resident streamer's goroutine: it writes only keys of its stream,
    and leaves the stream, its memory and its readers agreeing on [a']. *)
Lemma turn_server_ok srv C p e st s' st' a' b :
  server_ok srv C → C !! p = Some e → srv_registry srv !! p = Some st →
  healthy s' → stream_ok p (e_meta e) s' st' a' →
  a_base a' = a_base (e_state e) → a_tail a' < 2^63 →
  batch_wf b → Forall (λ x, stream_key p (e_id e) x.1) b →
  view s' = apply_ops (view (srv_store srv)) (encode_batch b) →
  server_ok (set_registry (<[p:=st']> (srv_registry srv)) (set_store s' srv)) (<[p:=with_state e a']> C).
Proof.
  intros [[Hh Hcat Hres Hdel] Hkept] Hp Hst Hh' [Hrep' Hmem' Hpub' Hwf'] Hbase Hb63 Hbwf Hkeys Hv.
  destruct (Hres p st Hst) as (e' & He' & Hg & _). assert (e' = e) as -> by congruence.
  pose proof (co_entry _ _ _ _ Hcat p e Hp) as He. pose proof (cat_id _ _ _ _ Hcat p e Hp) as [Hid _].
  assert (Hlive : ∀ id, live (<[p:=with_state e a']> C) id → live C id).
  { intros id (q & f & [[<- <-]|[? ?]]%lookup_insert_Some & <-); [by exists p, e|by exists q, f]. }
  split; [split|]; simpl.
  - done.
  - assert (Hlk : ∀ k, skey_wf k → ¬ stream_key p (e_id e) k →
      view s' !! encode_skey k = view (srv_store srv) !! encode_skey k).
    { intros k Hw Hns. rewrite Hv. apply batch_untouched; [done..|].
      intros (x & -> & Hx)%list_elem_of_fmap. rewrite Forall_forall in Hkeys. by apply Hns, Hkeys. }
    eapply cat_update; [done|done| | | |done|done|].
    + rewrite Hv. apply keys_wf_apply_batch; [apply Hcat|done].
    + intros k Hw Ho. apply Hlk; [done|]. intros Hsk%stream_key_own. congruence.
    + at_key Hlk (KDeletePending (e_id e)); [done|done|by intros []].
    + pose proof (co_next _ _ _ _ Hcat). eapply (burst_entry_ok _ _ p e a' _ b He); [lia|done..].
  - intros q st2 [[<- <-]|[Hne Hq]]%lookup_insert_Some.
    + exists (with_state e a'). by rewrite lookup_insert_eq.
    + destruct (Hres q st2 Hq) as (f & ? & ?). exists f. by rewrite lookup_insert_ne.
  - eapply Forall_impl; [exact Hdel|]. intros id (? & ? & Hl). split_and!; [done..|]. by intros ?%Hlive.
  - intros q f Hq Hqg. rewrite (forks_update C p e) by done.
    apply lookup_insert_Some in Hq as [[<- <-]|[? Hq]]; [|by eapply Hkept].
    simpl in Hqg. congruence.
Qed.

(** A resident streamer stands for its stream. *)
Lemma resident_ok srv C p e st :
  server_ok srv C → C !! p = Some e → srv_registry srv !! p = Some st →
  is_u64 (e_id e) ∧ stream_ok p (e_meta e) (srv_store srv) st (e_state e).
Proof.
  intros [[_ Hcat Hres _] _] Hp Hst. destruct (Hres p st Hst) as (e' & He' & _ & Hmem & Hpub).
  assert (e' = e) as -> by congruence. pose proof (co_entry _ _ _ _ Hcat p e Hp) as He.
  split; [apply (cat_id _ _ _ _ Hcat p e Hp)|]. split; [apply He|done|done|apply He].
Qed.

Lemma burst_server_ok srv C p e st now batch :
  server_ok srv C → C !! p = Some e → srv_registry srv !! p = Some st →
  burst_ok (e_meta e) (e_state e) now batch →
  let '(srv', resps) := burst srv p now batch in
  let r := spec_run (ContentType (e_meta e)) (TTLSeconds (e_meta e)) now (e_state e) batch in
  server_ok srv' (<[p:=with_state e r.1]> C) ∧ resps = r.2 ∧ srv_nextID srv' = srv_nextID srv.
Proof.
  intros Hs Hp Hst Hb. destruct (resident_ok _ _ _ _ _ Hs Hp Hst) as [Hid Hok].
  pose proof Hs as [[Hh _ _ _] _]. unfold burst. rewrite Hst.
  pose proof (processBurst_healthy_rep _ _ Hid _ _ _ _ _ Hh Hok Hb) as Hstep.
  pose proof (processBurst_healthy (srv_store srv) st now batch Hh) as Hh'.
  destruct (processBurst_batch _ _ Hid _ _ _ _ _ (healthy_reads_ok _ Hh) Hok Hb) as (b & Hbwf & Hkeys & Hv).
  pose proof (spec_run_tail (ContentType (e_meta e)) (TTLSeconds (e_meta e)) now (e_state e) batch).
  pose proof (spec_run_base (ContentType (e_meta e)) (TTLSeconds (e_meta e)) now (e_state e) batch).
  destruct (processBurst _ _ _ _) as [[s' st'] resps]. cbn [fst snd] in *.
  destruct Hstep as [Hok' ->]. split_and!; [|done|done].
  eapply turn_server_ok; try done. destruct Hb; lia.
Qed.

(** The refresh for a read slides the deadline of the stream, and nothing else. *)
Lemma readRefresh_ok srv C p e st now :
  server_ok srv C → C !! p = Some e → srv_registry srv !! p = Some st →
  ttl_in_range (TTLSeconds (e_meta e)) now →
  let a := e_state e in
  let a' := with_deadline (slideTTL (TTLSeconds (e_meta e)) now (a_deadline a)) a in
  server_ok (readRefresh srv p now) (<[p:=with_state e a']> C) ∧
  srv_nextID (readRefresh srv p now) = srv_nextID srv.
Proof.
  intros Hs Hp Hst Httl. destruct (resident_ok _ _ _ _ _ Hs Hp Hst) as [Hid Hok].
  pose proof Hs as [[Hh Hcat _ _] _]. pose proof (co_entry _ _ _ _ Hcat p e Hp) as He.
  unfold readRefresh. rewrite Hst.
  pose proof (refreshTTLOnRead_rep _ _ Hid _ _ _ _ Hok Httl (eo_bound _ _ _ _ He)) as Hr.
  pose proof (refreshTTLOnRead_healthy (srv_store srv) st now Hh) as Hh'.
  destruct (refreshTTLOnRead _ _ _) as [s' st']. cbn [fst] in Hh'. destruct Hr as [(b & Hbwf & Hkeys & Hv) Hr].
  split; [|done]. destruct Hr as [Hok'|(ops & x & Hc & _)]; [|destruct (healthy_Commit _ ops false Hh) as (? & E & _); by rewrite Hc in E].
  destruct Hv as [Hv|Hv].
  - eapply (turn_server_ok _ _ _ _ _ _ _ _ []); try done; [apply He|constructor].
  - eapply turn_server_ok; try done. apply He.
Qed.

End server_ok.

(** ** Background deletion *)

Section background.
  Context {S : Type} `{StorageLaws S}.
  Implicit Types (srv : server S) (s : S) (C : catalog) (R : gmap Z phase).

Lemma cat_rerun R R' m next C owed :
  cat_ok R m next C owed →
  (∀ id ph, R' !! id = Some ph → started_ok next C id ∧ phase_ok id m ph) →
  cat_ok R' m next C owed.
Proof. intros [] ?. by split. Qed.

Lemma server_rerun R R' srv C :
  server_ok R srv C →
  (∀ id ph, R' !! id = Some ph →
     started_ok (srv_nextID srv) C id ∧ phase_ok id (view (srv_store srv)) ph) →
  server_ok R' srv C.
Proof. intros [[Hh Hcat Hres Hdel] Hk] HR. split; [|done]. split; [done| |done..]. by eapply cat_rerun. Qed.

(** The writes of a step that is not the last. *)
Lemma delete_step_shape s id ph s' ph' :
  healthy s → keys_wf (view s) → is_u64 id → (∀ c, ph = PRecords c → is_u64 c) →
  delete_step s id ph = (s', ph') → ph' ≠ PDone →
  ∃ keys cur, Forall (going id) keys ∧ view s' = apply_ops (view s)
    ((DelOp <$> keys) ++ from_option (λ c, [PutOp (deletePendingKey id) (u64Value c)]) [] cur).
Proof.
  intros Hh Hk Hid Hc E Hne.
  assert (Hsame : s' = s → ∃ keys cur, Forall (going id) keys ∧ view s' = apply_ops (view s)
    ((DelOp <$> keys) ++ from_option (λ c, [PutOp (deletePendingKey id) (u64Value c)]) [] cur))
    by (intros ->; exists [], None; by split).
  destruct ph as [c| | |]; [| |by simplify_eq/=; auto..].
  - specialize (Hc c eq_refl). revert E. cbn [delete_step]. unfold collectKeys.
    destruct (healthy_scan_items s (recordKey id c) (recordPrefixEnd id) Hh) as (it & -> & Herr & Hit).
    cbn [mbind result_bind]. rewrite Herr.
    destruct (collect_items_keys deleteChunk (it_items it) [] 0) as (l & ->). rewrite app_nil_l.
    pose proof (scan_keys_reclaimed id Hid (view s) c deleteChunk Hk Hc) as Hf. rewrite <-Hit in Hf.
    revert Hf. generalize ((take deleteChunk (it_items it)).*1). intros keys Hf.
    destruct keys as [|k keys]; [intros; simplify_eq; auto|].
    destruct (store_Commit _ _ true) as [s1 err] eqn:E. apply healthy_commit in E as (-> & _ & Hv); [|done].
    intros; simplify_eq. exists (k :: keys), (Some (u64 (l + 1))). by split.
  - revert E. cbn [delete_step]. unfold collectKeys.
    destruct (healthy_scan_items s (producerPrefix id) (producerPrefixEnd id) Hh) as (it & -> & Herr & Hit).
    cbn [mbind result_bind]. rewrite Herr.
    destruct (collect_items_keys deleteChunk (it_items it) [] 0) as (l & ->). rewrite app_nil_l.
    pose proof (producer_scan id Hid (view s) deleteChunk Hk) as Hf. rewrite <-Hit in Hf.
    revert Hf. generalize ((take deleteChunk (it_items it)).*1). intros keys Hf.
    destruct keys as [|k keys].
    + destruct (store_Commit _ _ true) as [s1 err] eqn:E. apply healthy_commit in E as (-> & _ & Hv); [|done].
      intros; by simplify_eq.
    + destruct (store_Commit _ _ true) as [s1 err] eqn:E. apply healthy_commit in E as (-> & _ & Hv); [|done].
      intros; simplify_eq. exists (k :: keys), None. split; [done|]. by rewrite app_nil_r.
Qed.

Lemma chunk_owned m keys cur id k :
  is_u64 id → Forall (going id) keys →
  let m' := apply_ops m
    ((DelOp <$> keys) ++ from_option (λ c, [PutOp (deletePendingKey id) (u64Value c)]) [] cur) in
  (is_Some (m' !! k) → is_Some (m !! k) ∨ k = deletePendingKey id) ∧
  (is_Some (m !! deletePendingKey id) → is_Some (m' !! deletePendingKey id)).
Proof.
  intros Hid Hf m'. pose proof (going_not_pending id Hid keys Hf) as Hpk. subst m'.
  rewrite apply_ops_app. destruct cur as [c|]; simpl.
  - split; [|intros _; eexists; apply lookup_insert_eq].
    destruct (decide (k = deletePendingKey id)) as [->|Hne]; [by right|].
    unfold apply_op. cbn [op_del op_key op_val PutOp]. rewrite lookup_insert_ne by done. rewrite apply_dels.
    case_decide; [by intros []|by left].
  - rewrite !apply_dels, (decide_False (P := deletePendingKey id ∈ keys)) by done.
    split; [|done]. case_decide; [by intros []|by left].
Qed.

(** A chunk of the deletion of [id] reclaims keys of [id] only. *)
Lemma chunk_cat R s next C id ph :
  healthy s → cat_ok R (view s) next C 0 → started_ok next C id → phase_ok id (view s) ph →
  let '(s', ph') := delete_step s id ph in
  healthy s' ∧ cat_ok (<[id:=ph']> R) (view s') next C 0.
Proof.
  intros Hh Hcat Hst Hph. pose proof Hst as (Hid & Hn & Hl).
  destruct (decide (ph = PDone)) as [->|Hne].
  { cbn [delete_step]. split; [done|]. eapply cat_rerun; [done|].
    intros i q [[<- <-]|[? Hi]]%lookup_insert_Some; [done|by eapply co_running]. }
  assert (Hinv : del_inv id (view s) (view s) ph)
    by (split; [apply Hcat|done|done|by apply (co_cursor _ _ _ _ Hcat)]).
  destruct (delete_step_inv id (view s) Hid s ph Hh Hinv Hne) as (Hh' & [Hk' Hrest Hph' Hcur] & _).
  destruct (delete_step s id ph) as [s' ph'] eqn:Estep. cbn [fst snd] in *. split; [done|].
  assert (Hother : ∀ j k, j ≠ id → reclaimed_key j k = true → reclaimed_key id k = false).
  { intros j k Hj Hr. apply reclaimed_key_id in Hr as [Hr _].
    destruct (reclaimed_key id k) eqn:E; [|done]. apply reclaimed_key_id in E as [E _]. congruence. }
  eapply cat_rerun.
  - eapply (cat_dead (R := delete id R)); [eapply cat_rerun; [done|]|done| | | |].
    + intros j q [_ Hj]%lookup_delete_Some. by eapply co_running.
    + intros k Hw. destruct (reclaimed_key id k) eqn:E; [right|by left; apply Hrest].
      apply reclaimed_key_id in E as [E ?]. split; [|done]. by exists id.
    + intros j Hj. destruct (decide (j = id)) as [->|Hji]; [done|].
      eapply cursor_ok_frame; [by apply (co_cursor _ _ _ _ Hcat)| |].
      * at_key Hrest (KDeletePending j); [done|done|]. by apply bool_decide_eq_false.
      * intros q Hq. left. at_key Hrest (KRecord j q); [done|done|]. by apply bool_decide_eq_false.
    + intros j q [Hji Hj]%lookup_delete_Some Hq. eapply phase_ok_frame; [done|by eapply co_running|].
      intros k Hw Hr. apply Hrest; [done|]. by eapply (Hother j).
    + intros j k Hj Hw Hr Hs. destruct (decide (j = id)) as [->|Hji].
      * right. destruct (decide (ph' = PDone)) as [->|Hnd]; [by rewrite (Hph' k Hw Hr) in Hs; destruct Hs|].
        destruct (delete_step_shape s id ph s' ph') as (keys & cur & Hf & Hv); try done;
          [apply Hcat|by intros c ->; apply Hph|].
        destruct (chunk_owned (view s) keys cur id (encode_skey k) Hid Hf) as [H1 H2].
        rewrite <-Hv in H1, H2. destruct (H1 Hs) as [Hs'| <-]; [|done].
        destruct (co_owned _ _ _ _ Hcat id k Hj Hw Hr Hs'); [done|by apply H2].
      * rewrite Hrest in Hs by (done || by eapply (Hother j)).
        at_key Hrest (KDeletePending j); [by apply (co_owned _ _ _ _ Hcat j k)|done|by apply bool_decide_eq_false].
  - intros j q [[<- <-]|[? Hj]]%lookup_insert_Some; [done|].
    destruct (co_running _ _ _ _ Hcat j q Hj) as [Hs Hq]. split; [done|].
    eapply phase_ok_frame; [done|apply Hs|]. intros k Hw Hr. apply Hrest; [done|]. by eapply (Hother j).
Qed.

Lemma chunk_server_ok R srv C id ph :
  server_ok R srv C → started_ok (srv_nextID srv) C id → phase_ok id (view (srv_store srv)) ph →
  let '(s', ph') := delete_step (srv_store srv) id ph in
  server_ok (<[id:=ph']> R) (set_store s' srv) C.
Proof.
  intros [[Hh Hcat Hres Hdel] Hk] Hst Hph.
  pose proof (chunk_cat R (srv_store srv) (srv_nextID srv) C id ph Hh Hcat Hst Hph) as Hc.
  destruct (delete_step _ _ _) as [s' ph']. destruct Hc. split; [|done]. by split.
Qed.

Lemma start_phase_ok R srv C id :
  server_ok R srv C → started_ok (srv_nextID srv) C id →
  phase_ok id (view (srv_store srv)) (delete_start (srv_store srv) id).
Proof.
  intros [[Hh Hcat _ _] _] (Hid & _). unfold delete_start. rewrite healthy_get by done.
  destruct (view (srv_store srv) !! deletePendingKey id) as [v|] eqn:E.
  - destruct (co_cursor _ _ _ _ Hcat id Hid v E) as (c & Hc & -> & Hn).
    rewrite parseU64Value_be64, u64_small by done. done.
  - split; [done|]. intros q Hq. unfold is_u64 in Hq. lia.
Qed.

(** ** Restart *)

Lemma resumeDeletions_ok s :
  healthy s → keys_wf (view s) →
  ∀ id, id ∈ resumeDeletions s ↔ is_u64 id ∧ is_Some (view s !! deletePendingKey id).
Proof.
  intros Hh Hwf id. unfold resumeDeletions.
  destruct (healthy_scan_items s [ktDeletePending] (prefixEnd [ktDeletePending]) Hh)
    as (it & -> & _ & Hit). rewrite Hit, list_elem_of_omap.
  assert (Hdec : ∀ i, is_u64 i → be64Decode (take 8 (drop 1 (deletePendingKey i))) = i).
  { intros i Hi. unfold deletePendingKey. rewrite drop_app_length_eq, take_ge by len_lia.
    by rewrite be64Decode_value, be_value_be64, u64_small by (done || len_lia). }
  assert (Hlen : ∀ i, (9 ≤ length (deletePendingKey i))%nat) by (intros; unfold deletePendingKey; len_lia).
  split.
  - intros ([k v] & [Hm Hr]%elem_of_range_items & Hx). destruct (Hwf _ _ Hm) as (sk & Hsk & ->).
    apply family_scan_exact in Hr. destruct sk; try discriminate Hr. cbn [encode_skey fst] in *.
    rewrite decide_True, Hdec in Hx by done. apply (inj Some) in Hx as <-. split; [done|by exists v].
  - intros [Hid [v Hv]]. exists (deletePendingKey id, v). split.
    + apply elem_of_range_items. split; [done|]. by apply (family_scan_exact ktDeletePending (KDeletePending id)).
    + cbn [fst]. by rewrite decide_True, Hdec.
Qed.

Lemma NewServer_ok R srv C cfg :
  server_ok R srv C →
  ∃ srv', NewServer (srv_store srv) cfg = Ok srv' ∧ server_ok ∅ srv' C ∧
    srv_nextID srv' = srv_nextID srv ∧ srv_store srv' = srv_store srv ∧ srv_cfg srv' = cfg ∧
    ∀ id, id ∈ srv_deleting srv' ↔ is_u64 id ∧ is_Some (view (srv_store srv) !! deletePendingKey id).
Proof.
  intros [[Hh Hcat Hres Hdel] Hk]. unfold NewServer. rewrite healthy_get by done. run_result.
  pose proof (co_next _ _ _ _ Hcat) as Hn. pose proof (resumeDeletions_ok _ Hh (co_keys _ _ _ _ Hcat)) as Hr.
  set (next := match view (srv_store srv) !! idCounterKey with Some _ => _ | None => _ end).
  assert (next = srv_nextID srv) as ->.
  { unfold next. destruct (co_counter _ _ _ _ Hcat) as [->|[-> ->]]; [|done].
    rewrite parseU64Value_be64, u64_small by (unfold is_u64; lia). by rewrite decide_True by lia. }
  eexists. split_and!; [done| |done..]. split; [|done]. split; simpl.
  - done.
  - eapply cat_rerun; [done|]. intros id ph Hi. by rewrite lookup_empty in Hi.
  - intros p st Hp. by rewrite lookup_empty in Hp.
  - apply Forall_forall. intros id [Hid Hs]%Hr. split_and!; [done| |by eapply co_pending].
    destruct (decide (id < srv_nextID srv)); [done|].
    pose proof (co_fresh _ _ _ _ Hcat (KDeletePending id) id Hid eq_refl ltac:(lia)) as Hf.
    cbn [encode_skey] in Hf. rewrite Hf in Hs. by destruct Hs.
Qed.

End background.

(** ** The empty server *)

Section empty.
  Context {S : Type} `{StorageLaws S}.

Lemma empty_ok (s : S) cfg :
  healthy s → view s = ∅ → server_ok ∅ (mkServer s cfg 1 ∅ []) ∅.
Proof.
  intros Hh Hv. split; [split|]; simpl.
  - done.
  - rewrite Hv. split.
    + apply keys_wf_empty.
    + done.
    + right. by rewrite lookup_empty.
    + intros p e Hp. by rewrite lookup_empty in Hp.
    + intros p _. by rewrite !lookup_empty.
    + intros id p _ Hm. by rewrite lookup_empty in Hm.
    + intros k i _ _ _. apply lookup_empty.
    + intros p e Hp. by rewrite lookup_empty in Hp.
    + intros id _ v Hp. by rewrite lookup_empty in Hp.
    + intros id _ [v Hp]. by rewrite lookup_empty in Hp.
    + intros id ph Hp. by rewrite lookup_empty in Hp.
    + intros id k _ _ _ [v Hp]. by rewrite lookup_empty in Hp.
  - intros p st Hp. by rewrite lookup_empty in Hp.
  - constructor.
  - intros p e Hp. by rewrite lookup_empty in Hp.
Qed.

(** ** Properties *)

Context (R : gmap Z phase).
Implicit Types (srv : server S) (C : catalog).

(** C20: creation is idempotent and never overwrites. On a path that is taken the
    server changes nothing and answers 200 with the stream's own tail and closure
    when the request asks for what exists, 409 otherwise (a soft-deleted path
    always conflicts); on a free path the new stream holds exactly the records of
    the body, gets the next id, and the server's invariant is kept. *)
Theorem createStream_correct srv C nowUnix nowMs p :
  server_ok R srv C → create_wf srv nowUnix nowMs p →
  let '(srv', res) := createStream srv nowUnix nowMs p in
  match C !! cp_path p with
  | Some e => srv' = srv ∧ res = create_again e p
  | None =>
      match createRecords (cp_contentType p) (cp_body p) with
      | inl bad => srv' = srv ∧ res = bad
      | inr rs =>
          server_ok R srv' (<[cp_path p := new_entry (newMeta (srv_nextID srv) nowUnix nowMs p) rs]> C) ∧
          srv_nextID srv' = srv_nextID srv + 1 ∧
          res = create_ok 201 (cp_contentType p) (len rs) (cp_closed p)
      end
  end.
Proof. apply createStream_ok. Qed.

(** C21: deletion keeps what forks need and takes the rest. Deleting a stream that
    has forks marks it and keeps its data; deleting one that has none removes it,
    and removes in turn every soft-deleted source up the chain that nothing refers
    to any more; nothing else changes, absent and soft-deleted paths are errors,
    and the recursion ends. *)
Theorem deleteStream_correct srv C p :
  server_ok R srv C →
  let '(srv', err) := deleteStream srv p in
  ∃ C', deleted C p err C' ∧ server_ok R srv' C' ∧ srv_nextID srv' = srv_nextID srv.
Proof. apply deleteStream_ok. Qed.

(** C24: one sweep removes exactly what it should. A stream stays, unchanged, if and only
    if its deadline has not passed and, when it is soft-deleted, a fork of it stays too;
    so every due stream goes, whether live or soft-deleted and even while forks refer to
    it, and of the others only the soft-deleted sources that lose their last fork. Nothing
    appears, no id is given out, and the server's invariant holds again. *)
Theorem sweepOnce_correct srv C now :
  server_ok R srv C → 0 ≤ now < 2^63 →
  ∃ C', server_ok R (sweepOnce srv now) C' ∧ srv_nextID (sweepOnce srv now) = srv_nextID srv ∧
    C' ⊆ C ∧
    (∀ p e, C !! p = Some e → is_due now e → C' !! p = None) ∧
    (∀ p e, C !! p = Some e → e_gone e = false → ¬ is_due now e → C' !! p = Some e) ∧
    (∀ p e, C !! p = Some e →
       (C' !! p = Some e ↔ ¬ is_due now e ∧ (e_gone e = true → 0 < forks C' (e_id e)))).
Proof. apply sweepOnce_ok. Qed.

(** C23: a restart loses nothing. A server started on the store another one left
    has the same streams in the same states, gives out no id twice, and resumes
    exactly the deletions that were not finished. *)
Theorem restart_recovers srv C cfg :
  server_ok R srv C →
  ∃ srv', NewServer (srv_store srv) cfg = Ok srv' ∧ server_ok ∅ srv' C ∧
    srv_nextID srv' = srv_nextID srv ∧ srv_store srv' = srv_store srv ∧ srv_cfg srv' = cfg ∧
    ∀ id, id ∈ srv_deleting srv' ↔ is_u64 id ∧ is_Some (view (srv_store srv) !! deletePendingKey id).
Proof. apply NewServer_ok. Qed.

End empty.

(** A server with one stream, that expires, for the witnesses. *)
Module LifeSample.
Definition cfg : cacheConfig :=
  {| DisableLiveCache := false; LiveCacheMaxRecords := 512; LiveCacheMaxBytes := 1024 |}.
Definition path : bytes := ["a"%byte].
Definition srv0 : server fakeStore := mkServer newFakeStore cfg 1 ∅ [].
Definition params : createParams :=
  {| cp_path := path; cp_contentType := ["t"%byte]; cp_ttl := 5; cp_ttlSet := true;
     cp_expiresAt := 0; cp_expiresSet := false; cp_closed := false; cp_body := ["x"%byte; "y"%byte] |}.
Definition entry1 : entry := new_entry (newMeta 1 100 100000 params) [["x"%byte; "y"%byte]].
Definition C1 : catalog := <[path := entry1]> ∅.
Definition srv1 : server fakeStore := (createStream srv0 100 100000 params).1.

Lemma srv0_ok : server_ok ∅ srv0 ∅.
Proof. by apply empty_ok. Qed.

Lemma params_wf : create_wf srv0 100 100000 params.
Proof. split; [by split|done..|]. intros rs Hrs. vm_compute in Hrs. by injection Hrs as <-. Qed.

Lemma srv1_ok : server_ok ∅ srv1 C1 ∧ srv_nextID srv1 = 2.
Proof.
  pose proof (createStream_ok ∅ srv0 ∅ 100 100000 params srv0_ok params_wf) as Hc.
  unfold srv1. destruct (createStream srv0 100 100000 params) as [srv' res].
  rewrite lookup_empty in Hc.
  assert (createRecords (cp_contentType params) (cp_body params) = inr [["x"%byte; "y"%byte]]) as E
    by (vm_compute; reflexivity).
  rewrite E in Hc. destruct Hc as (? & ? & _). done.
Qed.
End LifeSample.

Lemma createStream_correct_witness :
  (createStream LifeSample.srv1 200 200000 LifeSample.params).1 = LifeSample.srv1 ∧
  cr_status (createStream LifeSample.srv1 200 200000 LifeSample.params).2 = 200.
Proof.
  destruct LifeSample.srv1_ok as [Hs Hn].
  pose proof (createStream_correct ∅ LifeSample.srv1 LifeSample.C1 200 200000 LifeSample.params Hs) as Hc.
  destruct (createStream LifeSample.srv1 200 200000 LifeSample.params) as [srv' res].
  unfold LifeSample.C1 in Hc at 1. change (cp_path LifeSample.params) with LifeSample.path in Hc.
  rewrite lookup_insert_eq in Hc. destruct Hc as [-> ->].
  - split; [by split|done..|by rewrite Hn|].
    intros rs Hrs. vm_compute in Hrs. by injection Hrs as <-.
  - split; [done|]. vm_compute. reflexivity.
Defined.

Lemma deleteStream_correct_witness :
  ∃ srv', deleteStream LifeSample.srv1 LifeSample.path = (srv', None) ∧ server_ok ∅ srv' ∅.
Proof.
  destruct LifeSample.srv1_ok as [Hs Hn].
  pose proof (deleteStream_correct ∅ LifeSample.srv1 LifeSample.C1 LifeSample.path Hs) as Hc.
  destruct (deleteStream LifeSample.srv1 LifeSample.path) as [srv' err]. exists srv'.
  destruct Hc as (C' & Hd & Hs' & _).
  assert (Hp : LifeSample.C1 !! LifeSample.path = Some LifeSample.entry1) by apply lookup_insert_eq.
  destruct Hd as [Hno|e He Hg|e He Hg Hf|e C' He Hg Hf Hr]; rewrite Hp in *; simplify_eq.
  - exfalso. vm_compute in Hf. discriminate Hf.
  - split; [done|]. inversion Hr as [? Hl|? q f Hq|? q f C2 Hq]; subst.
    + unfold LifeSample.C1 in Hs'. by rewrite delete_insert_id in Hs'.
    + exfalso. unfold LifeSample.C1 in Hq. by rewrite delete_insert_id in Hq.
    + exfalso. unfold LifeSample.C1 in Hq. by rewrite delete_insert_id in Hq.
Defined.

Lemma sweepOnce_correct_witness :
  ∃ C', server_ok ∅ (sweepOnce LifeSample.srv1 106) C' ∧ C' !! LifeSample.path = None.
Proof.
  destruct LifeSample.srv1_ok as [Hs Hn].
  destruct (sweepOnce_correct ∅ LifeSample.srv1 LifeSample.C1 106 Hs) as (C' & Hs' & _ & _ & Hdue & _);
    [done|]. exists C'. split; [done|]. apply (Hdue _ LifeSample.entry1); [apply lookup_insert_eq|].
  vm_compute. by split.
Defined.

Lemma restart_recovers_witness :
  ∃ srv', NewServer (srv_store LifeSample.srv1) LifeSample.cfg = Ok srv' ∧ server_ok ∅ srv' LifeSample.C1.
Proof.
  destruct LifeSample.srv1_ok as [Hs Hn].
  destruct (restart_recovers ∅ LifeSample.srv1 LifeSample.C1 LifeSample.cfg Hs) as (srv' & ? & ? & _).
  by exists srv'.
Defined.
