(* ===== verification/ForkSpec.v ===== *)
(** * What a fork holds

    A stream's full content is its own records after those of its source below
    the divergence ([reads]); the store holds it along the fork chain. Creating a
    fork adds a stream whose content is the source's up to the requested
    position, byte for byte, followed by the records of the request's body. *)

From S2P Require Import Prelude.
From S2P Require Import Bytes.
From S2P Require Import Keys.
From S2P Require Import Meta.
From S2P Require Import Decimal.
From S2P Require Import Offset.
From S2P Require Import Storage.
From S2P Require Import Loads.
From S2P Require Import Batch.
From S2P Require Import Mime.
From S2P Require Import Read.
From S2P Require Import Json.
From S2P Require Import Streamer.
From S2P Require Import StreamSpec.
From S2P Require Import StreamerRefine.
From S2P Require Import Deleter.
From S2P Require Import Server.
From S2P Require Import Expiry.
From S2P Require Import Fork.
From S2P Require Import Catalog.
From S2P Require Import Lifecycle.

(** ** Full contents *)

(** [L] is the content of the stream, its source's included. *)
Inductive reads (C : catalog) : entry → (Z → bytes) → Prop :=
| reads_root e : e_source e = 0 → reads C e (content (e_state e))
| reads_fork e p src L :
    e_source e ≠ 0 → C !! p = Some src → e_id src = e_source e → reads C src L →
    a_base (e_state e) ≤ a_tail (e_state src) →
    reads C e (λ i, if decide (i < a_base (e_state e)) then L i else content (e_state e) i).

(** ** Lemmas *)

Lemma log_at_ext m L L' id ff fo T :
  (∀ i, 0 ≤ i < T → L i = L' i) → log_at m L id ff fo T → log_at m L' id ff fo T.
Proof.
  intros HL Hl. revert HL.
  induction Hl as [id fo T ? ? Hr|id ff fo T path sm ? ? ? ? Hp Hm Hl IH Hr]; intros HL.
  - apply log_root; [done..|]. intros i Hi. rewrite <-HL by done. by apply Hr.
  - apply (log_fork _ _ _ _ _ _ path sm); try done.
    + apply IH. intros i Hi. apply HL. lia.
    + intros i Hi. rewrite <-HL by lia. by apply Hr.
Qed.

Section fork_spec.
  Context {S : Type} `{StorageLaws S}.
  Context {R : gmap Z phase}.
  Implicit Types (srv : server S) (s : S) (C : catalog).

Lemma own_record m next p e i :
  entry_ok m next p e → a_base (e_state e) ≤ i < a_tail (e_state e) →
  stored_record m (e_id e) i (content (e_state e) i).
Proof.
  intros He Hi. unfold content, a_tail in *.
  destruct (lookup_lt_is_Some_2 (a_log (e_state e)) (Z.to_nat (i - a_base (e_state e)))) as [r Hr]; [lia|].
  rewrite Hr. apply (sr_records _ _ _ _ (eo_rep _ _ _ _ He)) in Hr.
  by replace (a_base (e_state e) + Z.of_nat (Z.to_nat (i - a_base (e_state e)))) with i in Hr by lia.
Qed.

(** What the catalogue says a stream reads as is what the store holds. *)
Lemma reads_log_at m next C owed p e L :
  cat_ok R m next C owed → C !! p = Some e → reads C e L →
  log_at m L (e_id e) (e_source e) (ForkOffset (e_meta e)) (a_tail (e_state e)).
Proof.
  intros Hcat Hp Hr. revert p Hp.
  induction Hr as [e Hz|e q src L Hnz Hq Hsrc Hr IH Hle]; intros p Hp;
    pose proof (co_entry _ _ _ _ Hcat p e Hp) as He;
    pose proof (cat_id _ _ _ _ Hcat p e Hp) as [Hid Hidn];
    pose proof (eo_bound _ _ _ _ He) as Hb; pose proof (aw_base _ (eo_wf _ _ _ _ He)) as Hb0.
  - rewrite Hz. apply (stream_rep_log_at p (e_meta e)); [done|apply He| |lia].
    rewrite (eo_base _ _ _ _ He). by apply (eo_root _ _ _ _ He).
  - pose proof (eo_source _ _ _ _ He). pose proof (co_entry _ _ _ _ Hcat q src Hq) as Hs.
    specialize (IH q Hq). rewrite Hsrc in IH. pose proof (eo_base _ _ _ _ He) as Hbase.
    unfold a_tail in Hb. rewrite Hbase in *.
    apply (log_fork _ _ _ _ _ _ q (e_stored src)).
    + done.
    + unfold is_u64, a_tail. lia.
    + done.
    + lia.
    + rewrite <-Hsrc. by apply (eo_mapping _ _ _ _ Hs).
    + apply (sr_meta _ _ _ _ (eo_rep _ _ _ _ Hs)).
    + assert (0 ≤ ForkOffset (e_meta e) `min` a_tail (e_state e) ≤ a_tail (e_state src))
        by (unfold a_tail in *; lia).
      eapply log_at_ext; [|by eapply log_at_mono]. intros i Hi. simpl. by rewrite decide_True by lia.
    + intros i Hi. rewrite decide_False by lia. apply (own_record m next p e); [done|]. lia.
Qed.

Lemma segs_cover_single m L segs q :
  segs_cover m L segs q (q + 1) → ∃ id, is_u64 id ∧ stored_record m id q (L q) ∧
    segs = [{| seg_id := id; seg_startSeq := q; seg_endSeq := q + 1 |}].
Proof.
  assert (Hnil : ∀ l a, segs_cover m L l a (q + 1) → q + 1 ≤ a → l = []).
  { intros l a Hc Ha. destruct Hc as [|id a b c l' ? ? ? Hc]; [done|].
    apply segs_cover_le in Hc. lia. }
  intros Hc. remember (q + 1) as t eqn:Ht. destruct Hc as [|id a b c segs' Hid Hab Hr Hrest]; [lia|].
  pose proof (segs_cover_le _ _ _ _ _ Hrest). assert (b = a + 1) as -> by lia. subst c.
  exists id. split_and!; [done|apply Hr; lia|]. f_equal. by apply Hnil in Hrest.
Qed.

Lemma recordAt_ok s next C p e L q :
  healthy s → cat_ok R (view s) next C 0 → C !! p = Some e → reads C e L →
  0 ≤ q < a_tail (e_state e) → recordAt s (e_id e) q = Ok (Some (L q)).
Proof.
  intros Hh Hcat Hp Hr Hq. pose proof (reads_log_at _ _ _ _ _ _ _ Hcat Hp Hr) as Hl.
  pose proof (eo_bound _ _ _ _ (co_entry _ _ _ _ Hcat p e Hp)).
  unfold recordAt, resolveSegmentsByID. rewrite u64_small by (unfold is_u64; lia).
  rewrite (loadMetaByID_live R _ _ _ _ Hh Hcat p e Hp). run_result.
  change (ForkedFrom (e_stored e)) with (e_source e).
  change (ForkOffset (e_stored e)) with (ForkOffset (e_meta e)).
  apply (log_at_mono _ _ _ _ _ _ (q + 1)) in Hl; [|lia].
  destruct (resolveSegments_total _ _ _ _ _ _ Hh Hl (chain_fuel (e_id e)) q) as [segs E]; [done|].
  rewrite E. run_result. eapply resolveSegments_cover in E; [|exact Hl|lia].
  apply segs_cover_single in E as (id & Hid & Hrec & ->). simpl.
  rewrite healthy_get by done. rewrite Hrec. done.
Qed.

(** ** The divergence *)

Definition sub_small (p : forkParams) : Prop :=
  ∀ n, parseStrictUint (fp_subOffsetRaw p) = Some n → n < 2^63.

Lemma parseOffset_fits raw po : parseOffset raw = Ok po → offset_fits (off po).
Proof.
  intros Hp. destruct (decide (raw = [] ∨ raw = sentinel_start)) as [Hs|Hns].
  { unfold parseOffset in Hp. rewrite decide_True in Hp by done. injection Hp as <-. done. }
  destruct po as [o [|]].
  - unfold parseOffset in Hp. rewrite decide_False in Hp by done.
    case_hyp Hp. done.
  - apply parseOffset_canonical in Hp as [_ ?]; tauto.
Qed.

Lemma forkOffsetOf_ok p tail :
  0 ≤ tail < 2^63 →
  match forkOffsetOf p tail with
  | inl res => cr_status res = 400
  | inr o => 0 ≤ Seq o ∧ 0 ≤ Byte o < 2^62
  end.
Proof.
  intros Ht. unfold forkOffsetOf. case_decide; simpl; [lia|].
  destruct (parseOffset (fp_forkOffsetRaw p)) as [po|e] eqn:E; simpl; [|done].
  destruct (isNow po); simpl; [lia|]. apply parseOffset_fits in E as [? ?]. lia.
Qed.

Lemma subOffsetOf_ok p tail :
  sub_small p →
  match subOffsetOf p tail with
  | inl res => cr_status res = 400
  | inr n => 0 ≤ n < 2^63
  end.
Proof.
  intros Hs. unfold subOffsetOf. destruct (fp_subOffsetSet p); simpl; [|lia].
  destruct (parseStrictUint (fp_subOffsetRaw p)) as [n|] eqn:E; simpl; [|done].
  specialize (Hs n E). apply parseStrictUint_iff in E as [[? ?] _].
  repeat case_decide; simpl; done || lia.
Qed.

(** The content below the divergence [(dS, dB)] is that below the requested
    position: [sub] messages, or [sub] bytes, after [o]. *)
Definition diverges (L : Z → bytes) (tail : Z) (json : bool) (o : Offset) (sub dS dB : Z) : Prop :=
  0 ≤ dS ≤ tail ∧ is_u64 dB ∧ (0 < dB → dS < tail ∧ dB < len (L dS)) ∧
  if json then dS = Seq o + sub ∧ dB = 0
  else Byte o + sub = 0 ∧ dS = Seq o ∧ dB = 0 ∨
       Seq o < tail ∧ Byte o + sub ≤ len (L (Seq o)) ∧
       concat (payloads L 0 dS) ++ take (Z.to_nat dB) (L dS)
       = concat (payloads L 0 (Seq o)) ++ take (Z.to_nat (Byte o + sub)) (L (Seq o)).

Lemma divergence_ok s id tail json o sub L :
  (∀ q, 0 ≤ q < tail → recordAt s id q = Ok (Some (L q))) →
  0 ≤ Seq o ≤ tail → tail < 2^63 → 0 ≤ Byte o < 2^62 → (Seq o = tail → Byte o = 0) → 0 ≤ sub < 2^63 →
  match divergence s id tail json o sub with
  | inl res => cr_status res = 400
  | inr (dS, dB) => diverges L tail json o sub dS dB
  end.
Proof.
  intros HL Ho Ht HB Hend Hsub. unfold divergence, diverges, is_u64. destruct json.
  - rewrite u64_small by (unfold is_u64; lia). case_bool_decide; simpl; [done|].
    split_and!; lia.
  - rewrite u64_small by (unfold is_u64; lia). destruct (decide (0 < Byte o + sub)) as [Hc|Hc].
    2: { simpl. split_and!; lia. }
    case_bool_decide; simpl; [done|]. rewrite HL by lia. simpl.
    case_bool_decide; simpl; [done|]. case_decide as Hw; simpl.
    + rewrite u64_small by (unfold is_u64; lia). split_and!; try lia. right. split_and!; [lia|lia|].
      rewrite take_0, app_nil_r, payloads_snoc, concat_app by lia. simpl.
      rewrite app_nil_r, take_ge by lia. done.
    + split_and!; try lia. right. split_and!; [lia|lia|done].
Qed.

Definition forkPrefix (L : Z → bytes) (dS dB : Z) : list bytes :=
  if decide (0 < dB) then [take (Z.to_nat dB) (L dS)] else [].

Definition fork_body (ct body : bytes) (recs : list bytes) : Prop :=
  if decide (body = []) then recs = [] else forkBodyRecords ct body = Ok recs.

Lemma forkRecords_ok s id tail json o sub dS dB ct body L :
  (∀ q, 0 ≤ q < tail → recordAt s id q = Ok (Some (L q))) → diverges L tail json o sub dS dB →
  match forkRecords s id dS dB ct body with
  | inl res => cr_status res = 400
  | inr rs => ∃ recs, fork_body ct body recs ∧ rs = forkPrefix L dS dB ++ recs
  end.
Proof.
  intros HL (HdS & [HdB _] & Hin & _). unfold forkRecords, forkPrefix, fork_body.
  assert (E : (if decide (0 < dB) then
            payload ← or500 (recordAt s id dS);
            match payload with
            | None => inl (create_status 500)
            | Some payload => match go_slice payload 0 (Z.to_nat dB) with Ok b => mret [b] | Err _ => inl create_panic end
            end
          else mret []) = inr (if decide (0 < dB) then [take (Z.to_nat dB) (L dS)] else [])).
  { case_decide; [|done]. rewrite HL by lia. simpl. rewrite go_slice_in_range by lia.
    by rewrite drop_0, Nat.sub_0_r. }
  rewrite E. cbn [mbind early_bind]. destruct (decide (body = [])); simpl; [by exists []|].
  destruct (forkBodyRecords ct body) as [recs|]; simpl; [by exists recs|done].
Qed.

(** ** Creation of forks *)

Record fork_wf srv C (nowUnix nowMs : Z) (p : forkParams) : Prop := {
  fw_now : is_i64 nowUnix ∧ is_i64 nowMs;
  fw_ttl : is_u64 (fp_ttl p);
  fw_expires : is_i64 (fp_expiresAt p);
  fw_contentType : len (fp_contentType p) < 2^16;
  fw_next : srv_nextID srv + 1 < 2^64;
  fw_sub : sub_small p;
  fw_room : ∀ e ct recs, C !! fp_sourcePath p = Some e → fork_body ct (fp_body p) recs →
    a_tail (e_state e) + 1 + len recs < 2^63 }.

Definition fork_contentType (src : entry) (p : forkParams) : bytes :=
  if decide (fp_contentType p = []) then ContentType (e_meta src) else fp_contentType p.

(** What a request for a fork may come to: the answer, the catalogue and the next
    id after it. *)
Inductive fork_outcome C (L : Z → bytes) (next nowUnix nowMs : Z) (p : forkParams)
  : createResult → catalog → Z → Prop :=
| fork_blocked e :
    C !! fp_path p = Some e ∨ C !! fp_sourcePath p = Some e → e_gone e = true →
    fork_outcome C L next nowUnix nowMs p (create_status 409) C next
| fork_no_source :
    C !! fp_sourcePath p = None →
    fork_outcome C L next nowUnix nowMs p (create_status 404) C next
| fork_refused src res :
    C !! fp_sourcePath p = Some src → cr_status res = 400 ∨ cr_status res = 409 →
    fork_outcome C L next nowUnix nowMs p res C next
| fork_again src e :
    C !! fp_sourcePath p = Some src → C !! fp_path p = Some e → e_source e = e_id src →
    fork_outcome C L next nowUnix nowMs p
      (create_ok 200 (ContentType (e_meta e)) (a_tail (e_state e)) (a_closed (e_state e))) C next
| fork_created src o sub dS dB recs :
    C !! fp_path p = None → C !! fp_sourcePath p = Some src → e_gone src = false →
    forkOffsetOf p (a_tail (e_state src)) = inr o → subOffsetOf p (a_tail (e_state src)) = inr sub →
    diverges L (a_tail (e_state src)) (isJSONStream (ContentType (e_meta src))) o sub dS dB →
    fork_body (fork_contentType src p) (fp_body p) recs →
    let sm := forkMeta next (e_id src) dS dB (fork_contentType src p)
                (forkTTL (e_stored src) p).1 (forkTTL (e_stored src) p).2 (fp_closed p) nowUnix nowMs in
    let rs := forkPrefix L dS dB ++ recs in
    fork_outcome C L next nowUnix nowMs p
      (create_ok 201 (fork_contentType src p) (dS + len rs) (fp_closed p))
      (<[fp_path p := new_entry sm rs]> C) (next + 1).

Lemma forkTTL_wf src p :
  wf_meta src → is_u64 (fp_ttl p) → is_i64 (fp_expiresAt p) →
  is_u64 (forkTTL src p).1 ∧ is_i64 (forkTTL src p).2.
Proof.
  intros (_ & ? & ? & _) ? ?. unfold forkTTL.
  destruct (fp_ttlSet p); [done|]. destruct (fp_expiresSet p); [done|]. by repeat case_decide.
Qed.

Lemma forkPuts_batch p sm start rs tail upd ttl j n :
  0 ≤ start → start + len rs ≤ 2^64 →
  recordPuts (StreamID sm) start rs ++ streamPuts p sm tail upd ttl ++ [PutOp (refCountKey j) (u64Value n)]
  = encode_batch (new_batch p sm start rs tail upd ttl (Some (j, n))).
Proof.
  intros. unfold new_batch, streamPuts, recordPuts.
  rewrite (recordOps_batch (StreamID sm) start 0 rs) by lia. rewrite Z.add_0_r.
  rewrite !encode_batch_app. f_equal. rewrite <-app_assoc. by case_decide.
Qed.

(** The commit of a fork. *)
Lemma fork_commit_ok srv C p sm rs upd ttl j :
  server_ok R srv C → C !! p = None →
  new_ok (srv_nextID srv) C sm rs upd (Some (j, forks C j + 1)) → 0 ≤ ForkOffset sm →
  let '(srv', res) := commitNew srv (inr
    {| nw_meta := sm; nw_tail := ForkOffset sm + len rs;
       nw_ops := recordPuts (StreamID sm) (ForkOffset sm) rs
                 ++ streamPuts p sm (ForkOffset sm + len rs) upd ttl
                 ++ [PutOp (refCountKey j) (u64Value (forks C j + 1))] |}) in
  server_ok R srv' (<[p:=new_entry sm rs]> C) ∧ srv_nextID srv' = srv_nextID srv + 1 ∧
  res = create_ok 201 (ContentType sm) (ForkOffset sm + len rs) (Closed sm).
Proof.
  intros Hs Hp Hnew H0'. eapply (commitNew_ok R srv C); cbn [nw_meta nw_tail nw_ops]; [done..| |].
  - done.
  - apply forkPuts_batch; [done|]. pose proof (no_bound _ _ _ _ _ _ Hnew). lia.
Qed.

Lemma forkMeta_new_ok srv C nowUnix nowMs p src dS dB rs :
  server_ok R srv C → fork_wf srv C nowUnix nowMs p → C !! fp_sourcePath p = Some src →
  0 ≤ dS → is_u64 dB → dS + len rs < 2^63 →
  new_ok (srv_nextID srv) C
    (forkMeta (srv_nextID srv) (e_id src) dS dB (fork_contentType src p) (forkTTL (e_stored src) p).1
       (forkTTL (e_stored src) p).2 (fp_closed p) nowUnix nowMs)
    rs nowUnix (Some (e_id src, forks C (e_id src) + 1)).
Proof.
  intros [[Hh Hcat _ _] _] [[Hn1 Hn2] Httl Hexp Hct Hnext Hsub Hroom] Hsrc HdS HdB Hb.
  pose proof (co_entry _ _ _ _ Hcat _ _ Hsrc) as He.
  pose proof (sr_meta _ _ _ _ (eo_rep _ _ _ _ He)) as (Hmw & Hmc & _).
  destruct (forkTTL_wf (e_stored src) p Hmw Httl Hexp) as [Hw1 Hw2].
  pose proof (cat_id _ _ _ _ Hcat _ _ Hsrc) as [Hsid Hsn]. pose proof (co_next _ _ _ _ Hcat).
  split; simpl; [done|done| |done|lia|].
  - split; [|unfold fork_contentType; by case_decide].
    unfold wf_meta. simpl. split_and!; try done; try (unfold is_u64 in *; lia).
    case_decide; [apply u64_range|]. case_decide; [apply u64_range|done].
  - split_and!; [done|by exists (fp_sourcePath p), src|done].
Qed.

(** A fork of a live, readable source. *)
Lemma forkPlan_ok srv C nowUnix nowMs p src L :
  server_ok R srv C → fork_wf srv C nowUnix nowMs p →
  C !! fp_sourcePath p = Some src → e_gone src = false → reads C src L →
  from_option e_gone false (C !! fp_path p) = false →
  let '(srv', res) := commitNew srv (forkPlan srv nowUnix nowMs p (e_stored src)) in
  ∃ C' next', fork_outcome C L (srv_nextID srv) nowUnix nowMs p res C' next' ∧
    server_ok R srv' C' ∧ srv_nextID srv' = next'.
Proof.
  intros Hs [Hnow Httl Hexp Hct Hnext Hsub Hroom] Hsrc Hg Hr Hpg. pose proof Hs as [[Hh Hcat _ _] _].
  pose proof (co_entry _ _ _ _ Hcat _ _ Hsrc) as He. pose proof (eo_bound _ _ _ _ He) as Hb.
  pose proof (aw_base _ (eo_wf _ _ _ _ He)) as Hb0.
  set (T := a_tail (e_state src)) in *. assert (0 ≤ T) by (unfold T, a_tail; lia).
  assert (Hrec : ∀ q, 0 ≤ q < T → recordAt (srv_store srv) (e_id src) q = Ok (Some (L q)))
    by (intros q Hq; by eapply recordAt_ok).
  assert (Href : ∀ res, cr_status res = 400 ∨ cr_status res = 409 → ∃ C' next',
    fork_outcome C L (srv_nextID srv) nowUnix nowMs p res C' next' ∧ server_ok R srv C' ∧
    srv_nextID srv = next')
    by (intros res Hres; exists C, (srv_nextID srv); split_and!; [by eapply fork_refused|done..]).
  unfold forkPlan. change (StreamID (e_stored src)) with (e_id src).
  change (ContentType (e_stored src)) with (ContentType (e_meta src)).
  rewrite (loadTailSeq_cat R _ _ _ _ Hh Hcat _ _ Hsrc), (loadMeta_cat R _ _ _ _ Hh Hcat).
  fold T. cbn [or500 mbind early_bind].
  destruct (bool_decide (fp_contentType p ≠ []) && _); [apply Href; by right|].
  cbn [return_if mbind early_bind]. fold (fork_contentType src p).
  pose proof (forkOffsetOf_ok p T ltac:(lia)) as Hoff.
  destruct (forkOffsetOf p T) as [res|o] eqn:Eo; [apply Href; by left|].
  cbn [mbind early_bind]. destruct Hoff as [HoS HoB].
  case_bool_decide as Hbeyond; cbn [return_if mbind early_bind]; [apply Href; by left|].
  pose proof (subOffsetOf_ok p T Hsub) as Hso.
  destruct (subOffsetOf p T) as [res|sub] eqn:Es; [apply Href; by left|].
  cbn [mbind early_bind].
  pose proof (divergence_ok (srv_store srv) (e_id src) T (isJSONStream (ContentType (e_meta src))) o sub L
    Hrec ltac:(lia) ltac:(lia) ltac:(lia) ltac:(lia) ltac:(lia)) as Hdiv.
  destruct (divergence _ _ _ _ _ _) as [res|[dS dB]]; [apply Href; by left|]. cbn [mbind early_bind].
  destruct (forkTTL (e_stored src) p) as [ttl exp] eqn:Ettl.
  destruct (C !! fp_path p) as [e|] eqn:Hp; cbn [fmap option_fmap option_map].
  - destruct (negb _) eqn:Em; cbn [return_if mbind early_bind]; [apply Href; by right|].
    change (StreamID (e_stored e)) with (e_id e). rewrite (loadTailSeq_cat R _ _ _ _ Hh Hcat _ _ Hp).
    cbn. exists C, (srv_nextID srv). split_and!; [|done..].
    eapply fork_again; [done..|]. apply negb_false_iff in Em. rewrite !andb_true_iff in Em.
    destruct Em as [[[[[[Em _] _] _] _] _] _]. by apply bool_decide_eq_true in Em.
  - pose proof (forkRecords_ok _ _ T _ o sub dS dB (fork_contentType src p) (fp_body p) L Hrec Hdiv) as Hrs.
    destruct (forkRecords _ _ _ _ _ _) as [res|rs]; [apply Href; by left|]. cbn [mbind early_bind].
    destruct Hrs as (recs & Hbody & ->). set (rs := forkPrefix L dS dB ++ recs).
    pose proof Hdiv as (HdS & HdB & Hin & _).
    assert (Hlen : dS + len rs ≤ T + 1 + len recs).
    { unfold rs, forkPrefix. rewrite length_app. case_decide; simpl; lia. }
    pose proof (Hroom src _ recs Hsrc Hbody) as Hroom'. fold T in Hroom'.
    assert (u64 (dS + len rs) = dS + len rs) as -> by (apply u64_small; unfold is_u64; lia).
    pose proof (co_next _ _ _ _ Hcat). pose proof (forks_bound _ _ _ _ Hcat (e_id src)).
    pose proof (forks_nonneg C (e_id src)). pose proof (cat_id _ _ _ _ Hcat _ _ Hsrc) as [Hsid Hsn].
    assert (u64 (loadRefCount (srv_store srv) (e_id src) + 1) = forks C (e_id src) + 1) as ->.
    { rewrite loadRefCount_healthy by done. rewrite (co_refs _ _ _ _ Hcat _ _ Hsrc).
      rewrite decide_False by lia. rewrite u64_small by (unfold is_u64; lia). lia. }
    pose proof (forkMeta_new_ok srv C nowUnix nowMs p src dS dB rs Hs
      (Build_fork_wf _ _ _ _ _ Hnow Httl Hexp Hct Hnext Hsub Hroom) Hsrc ltac:(lia) HdB ltac:(lia)) as Hnew.
    rewrite Ettl in Hnew. cbn [fst snd] in Hnew.
    pose proof (fork_commit_ok srv C (fp_path p) _ rs nowUnix ttl (e_id src) Hs Hp Hnew (proj1 HdS)) as Hc.
    cbn [ForkOffset StreamID forkMeta] in Hc.
    match goal with |- context [commitNew srv ?x] => destruct (commitNew srv x) as [srv' res] eqn:Ec end.
    unfold mret, early_ret in Ec.
    rewrite Ec in Hc. destruct Hc as (Hs' & Hn' & ->).
    eexists _, _. split_and!; [|exact Hs'|exact Hn'].
    pose proof (fork_created C L (srv_nextID srv) nowUnix nowMs p src o sub dS dB recs Hp Hsrc Hg Eo Es Hdiv Hbody) as Hf.
    rewrite Ettl in Hf. exact Hf.
Qed.

Lemma createFork_ok srv C nowUnix nowMs p L :
  server_ok R srv C → fork_wf srv C nowUnix nowMs p →
  (∀ src, C !! fp_sourcePath p = Some src → reads C src L) →
  let '(srv', res) := createFork srv nowUnix nowMs p in
  ∃ C' next', fork_outcome C L (srv_nextID srv) nowUnix nowMs p res C' next' ∧
    server_ok R srv' C' ∧ srv_nextID srv' = next'.
Proof.
  intros Hs Hw Hr. pose proof Hs as [[Hh Hcat _ _] _]. unfold createFork.
  rewrite !(loadTombstone_cat R _ _ _ _ Hh Hcat), !(loadMeta_cat R _ _ _ _ Hh Hcat).
  cbn [or500 mbind early_bind].
  destruct (from_option e_gone false (C !! fp_path p)) eqn:Hpg.
  { destruct (C !! fp_path p) as [e|] eqn:Hp; [|done]. simpl in Hpg. cbn [mbind option_bind].
    rewrite Hpg. cbn. exists C, (srv_nextID srv). split_and!; [|done..]. eapply fork_blocked; eauto. }
  assert (soft_deleted (e ← C !! fp_path p; if e_gone e then Some (tombSoftDelete, e_id e) else None)
    = false) as -> by (destruct (C !! fp_path p) as [e|]; [|done]; simpl in *; by rewrite Hpg).
  cbn [return_if mbind early_bind].
  destruct (C !! fp_sourcePath p) as [src|] eqn:Hsrc; cbn [mbind option_bind].
  2: { cbn. exists C, (srv_nextID srv). split_and!; [by apply fork_no_source|done..]. }
  destruct (e_gone src) eqn:Hg.
  { cbn. exists C, (srv_nextID srv). split_and!; [|done..]. eapply fork_blocked; eauto. }
  cbn [soft_deleted return_if mbind early_bind fmap option_fmap option_map].
  apply (forkPlan_ok srv C nowUnix nowMs p src L); auto.
Qed.

(** ** The content of a new fork *)

Lemma reads_insert C p e f L :
  C !! p = None → reads C f L → reads (<[p:=e]> C) f L.
Proof.
  intros Hp. induction 1 as [f Hz|f q src L Hnz Hq Hs Hr IH Hle]; [by apply reads_root|].
  eapply reads_fork; [done| |done..]. rewrite lookup_insert_ne; [done|]. intros ->. congruence.
Qed.

Lemma payloads_ext (L L' : Z → bytes) a b :
  (∀ i, a ≤ i < b → L i = L' i) → payloads L a b = payloads L' a b.
Proof.
  intros HL. unfold payloads. apply list_fmap_ext. intros j x Hx.
  apply lookup_seqZ in Hx as [-> ?]. apply HL. lia.
Qed.

Lemma payloads_log a : payloads (content a) (a_base a) (a_tail a) = a_log a.
Proof.
  apply list_eq. intros i. unfold payloads, a_tail. rewrite list_lookup_fmap.
  destruct (decide (i < length (a_log a))%nat) as [Hi|Hi].
  - rewrite lookup_seqZ_lt by lia. simpl. unfold content.
    replace (Z.to_nat (a_base a + Z.of_nat i - a_base a)) with i by lia.
    by destruct (lookup_lt_is_Some_2 (a_log a) i Hi) as [r ->].
  - rewrite lookup_seqZ_ge by lia. simpl. symmetry. apply lookup_ge_None_2. lia.
Qed.

Lemma fork_content C L e p src :
  C !! p = Some src → e_id src = e_source e → e_source e ≠ 0 → reads C src L →
  0 ≤ a_base (e_state e) ≤ a_tail (e_state src) →
  ∃ L', reads C e L' ∧
    payloads L' 0 (a_tail (e_state e)) = payloads L 0 (a_base (e_state e)) ++ a_log (e_state e).
Proof.
  intros Hp Hid Hnz Hr Hb. eexists. split; [by eapply reads_fork; [..|apply Hb]|].
  rewrite (payloads_app _ 0 (a_base (e_state e))) by (unfold a_tail; lia). f_equal.
  - apply payloads_ext. intros i Hi. by rewrite decide_True by lia.
  - rewrite <-(payloads_log (e_state e)). apply payloads_ext.
    intros i Hi. by rewrite decide_False by lia.
Qed.

(** The content of the fork [e] of [src], which reads as [L]: what was asked for,
    then the body's records. *)
Definition inherits C (L : Z → bytes) (src : entry) (p : forkParams) (C' : catalog) : Prop :=
  ∃ o sub recs e L',
    forkOffsetOf p (a_tail (e_state src)) = inr o ∧
    subOffsetOf p (a_tail (e_state src)) = inr sub ∧
    fork_body (fork_contentType src p) (fp_body p) recs ∧
    C' !! fp_path p = Some e ∧ e_source e = e_id src ∧ reads C' e L' ∧
    let T' := a_tail (e_state e) in
    if isJSONStream (ContentType (e_meta src))
    then payloads L' 0 T' = payloads L 0 (Seq o + sub) ++ recs
    else concat (payloads L' 0 T') =
         concat (payloads L 0 (Seq o)) ++ take (Z.to_nat (Byte o + sub)) (L (Seq o)) ++ concat recs.

Lemma fork_created_inherits C L next nowUnix nowMs p res C' next' src :
  fork_outcome C L next nowUnix nowMs p res C' next' → cr_status res = 201 →
  C !! fp_sourcePath p = Some src → 0 < e_id src → reads C src L → inherits C L src p C'.
Proof.
  intros Ho Hst Hsrc Hid Hr.
  destruct Ho as [| |? ? _ [?|?]| |src' o sub dS dB recs Hp Hsrc' Hg Eo Es Hdiv Hbody sm rs];
    try done; try congruence.
  assert (src' = src) as -> by congruence. destruct Hdiv as (HdS & HdB & Hin & Hdiv).
  set (e := new_entry sm rs).
  assert (Hsrc1 : <[fp_path p:=e]> C !! fp_sourcePath p = Some src)
    by (rewrite lookup_insert_ne; [done|]; intros E; congruence).
  destruct (fork_content (<[fp_path p:=e]> C) L e (fp_sourcePath p) src) as (L' & HL' & Hpay);
    [done|done|simpl; unfold e_source; simpl; lia|by apply reads_insert|simpl; lia|].
  exists o, sub, recs, e, L'. split_and!; [done..|by rewrite lookup_insert_eq|done|done|].
  cbv zeta. rewrite Hpay. change (a_base (e_state e)) with dS. change (a_log (e_state e)) with rs.
  destruct (isJSONStream _).
  - destruct Hdiv as [-> ->]. done.
  - rewrite concat_app. unfold rs, forkPrefix. rewrite concat_app, !app_assoc. f_equal.
    destruct Hdiv as [(HB & -> & ->)|(Ho & Hle & <-)].
    + rewrite HB. simpl. by rewrite !app_nil_r.
    + f_equal. case_decide; simpl; [by rewrite app_nil_r|].
      assert (dB = 0) as -> by (destruct HdB; lia). done.
Qed.

(** ** Properties *)

(** C22: a fork holds exactly what was asked for. Whatever a request for a fork
    comes to, the server's invariant is kept and the answer is one of the
    outcomes of the specification; and when a fork is created its full content,
    read along the fork chain, is the source's content up to the requested
    offset and sub-offset - messages for JSON, bytes otherwise, also in the middle
    of a record - followed by the records of the request's body. *)
Theorem createFork_correct srv C nowUnix nowMs p L :
  server_ok R srv C → fork_wf srv C nowUnix nowMs p →
  (∀ src, C !! fp_sourcePath p = Some src → reads C src L) →
  let '(srv', res) := createFork srv nowUnix nowMs p in
  ∃ C' next', fork_outcome C L (srv_nextID srv) nowUnix nowMs p res C' next' ∧
    server_ok R srv' C' ∧ srv_nextID srv' = next' ∧
    (cr_status res = 201 → ∃ src, C !! fp_sourcePath p = Some src ∧ inherits C L src p C').
Proof.
  intros Hs Hw Hr. pose proof (createFork_ok srv C nowUnix nowMs p L Hs Hw Hr) as Hc.
  destruct (createFork srv nowUnix nowMs p) as [srv' res]. destruct Hc as (C' & next' & Ho & Hs' & Hn).
  exists C', next'. split_and!; [done..|]. intros Hst.
  assert (∃ src, C !! fp_sourcePath p = Some src) as [src Hsrc].
  { destruct Ho as [| |? ? _ [?|?]| |]; try done; try congruence; eauto. }
  exists src. split; [done|]. eapply fork_created_inherits; eauto.
  eapply cat_id; [apply Hs|done].
Qed.

(** What the catalogue says is what a reader gets: a binary read of any live
    stream, forks included, returns the stream's content along the fork chain, from
    the position on and within the limit. *)
Theorem fork_reads_through srv C p e L start limit :
  server_ok R srv C → C !! p = Some e → reads C e L →
  0 ≤ Seq start → 0 ≤ Byte start → 0 ≤ limit →
  ∃ body next upToDate,
    readRange (srv_store srv) (e_id e) (e_source e) (ForkOffset (e_meta e)) false start
      (a_tail (e_state e)) limit = Ok (body, next, upToDate) ∧
    binary_read L start (a_tail (e_state e)) limit body next upToDate.
Proof.
  intros [[Hh Hcat _ _] _] Hp Hr H1 H2 H3.
  pose proof (reads_log_at _ _ _ _ _ _ _ Hcat Hp Hr) as Hl.
  pose proof (eo_bound _ _ _ _ (co_entry _ _ _ _ Hcat p e Hp)).
  destruct (readRange_total _ _ _ _ _ false start _ limit Hh (co_keys _ _ _ _ Hcat) Hl)
    as [[[body next] utd] E]; [done|lia|].
  exists body, next, utd. split; [done|].
  eapply readRange_binary_read; [apply Hcat|exact Hl|done..|lia|done].
Qed.

End fork_spec.

(** A fork in the middle of the record of the stream of LifeSample. *)
Module ForkSample.
Definition request : forkParams :=
  {| fp_path := ["b"%byte]; fp_sourcePath := LifeSample.path;
     fp_forkOffsetRaw := offset_String {| Seq := 0; Byte := 1 |}; fp_subOffsetRaw := [];
     fp_subOffsetSet := false; fp_contentType := []; fp_ttl := 0; fp_ttlSet := false;
     fp_expiresAt := 0; fp_expiresSet := false; fp_closed := false; fp_body := ["z"%byte] |}.

Lemma sample_stream p e : LifeSample.C1 !! p = Some e → e = LifeSample.entry1.
Proof. unfold LifeSample.C1. intros [[_ <-]|[_ ?]]%lookup_insert_Some; [done|by rewrite lookup_empty in *]. Qed.

Lemma request_wf : fork_wf LifeSample.srv1 LifeSample.C1 101 101000 request.
Proof.
  split; [by split|done..| | |].
  - rewrite (proj2 LifeSample.srv1_ok). done.
  - intros n Hn. vm_compute in Hn. discriminate Hn.
  - intros e ct recs He. apply (sample_stream (fp_sourcePath request)) in He as ->. unfold fork_body, forkBodyRecords.
    rewrite decide_False by done. change (fp_body request) with ["z"%byte].
    destruct (isJSONStream ct); [|by intros [= <-]].
    assert (flattenJSON ["z"%byte] = Err errInvalidJSON) as -> by (vm_compute; reflexivity). done.
Qed.

Lemma source_reads src :
  LifeSample.C1 !! fp_sourcePath request = Some src →
  reads LifeSample.C1 src (content (e_state LifeSample.entry1)).
Proof.
  intros ->%sample_stream. by apply reads_root.
Qed.
End ForkSample.

Lemma createFork_correct_witness :
  ∃ srv' res C' src, createFork LifeSample.srv1 101 101000 ForkSample.request = (srv', res) ∧
    cr_status res = 201 ∧ server_ok ∅ srv' C' ∧
    inherits LifeSample.C1 (content (e_state LifeSample.entry1)) src ForkSample.request C'.
Proof.
  destruct LifeSample.srv1_ok as [Hs _].
  pose proof (createFork_correct LifeSample.srv1 LifeSample.C1 101 101000 ForkSample.request _ Hs
    ForkSample.request_wf ForkSample.source_reads) as Hc.
  assert (cr_status (createFork LifeSample.srv1 101 101000 ForkSample.request).2 = 201) as E
    by (vm_compute; reflexivity).
  destruct (createFork LifeSample.srv1 101 101000 ForkSample.request) as [srv' res]. cbn [snd] in E.
  destruct Hc as (C' & next' & _ & Hs' & _ & Hi). destruct (Hi E) as (src & _ & ?).
  by exists srv', res, C', src.
Defined.

Lemma fork_reads_through_witness :
  ∃ body next upToDate,
    readRange (srv_store LifeSample.srv1) 1 0 0 false {| Seq := 0; Byte := 1 |} 1 10
      = Ok (body, next, upToDate) ∧
    binary_read (content (e_state LifeSample.entry1)) {| Seq := 0; Byte := 1 |} 1 10 body next upToDate.
Proof.
  destruct LifeSample.srv1_ok as [Hs _].
  apply (fork_reads_through LifeSample.srv1 LifeSample.C1 LifeSample.path LifeSample.entry1
    (content (e_state LifeSample.entry1)) {| Seq := 0; Byte := 1 |} 10 Hs);
    [apply lookup_insert_eq|by apply reads_root|done..].
Defined.

(** A fork's sub-offset can overflow. The sum of the offset and the sub-offset
    wraps at 64 bits before it is compared with the length of the source, so a
    sub-offset of 2^64 - 1, which ought to overshoot, forks one message before the
    requested offset; in the middle of a record it can wrap to 0, which stands for no
    refinement, and the fork is made at the offset itself. *)
Theorem fork_sub_offset_wraps {S : Type} `{StorageLaws S} (s : S) id tail (o : Offset) :
  Seq o < 2^64 →
  (1 ≤ Seq o → Seq o ≤ tail → divergence s id tail true o (2^64 - 1) = inr (Seq o - 1, 0)) ∧
  (Byte o = 1 → divergence s id tail false o (2^64 - 1) = inr (Seq o, 1)).
Proof.
  intros Ho. assert (Hw : ∀ n, 1 ≤ n < 2^64 → u64 (n + (2^64 - 1)) = n - 1).
  { intros n Hn. unfold u64. replace (n + (2^64 - 1)) with (n - 1 + 1 * 2^64) by lia.
    rewrite Z_mod_plus_full. apply Z.mod_small. lia. }
  split; intros; unfold divergence; rewrite Hw by lia; cbn zeta.
  - by rewrite bool_decide_eq_false_2 by lia.
  - rewrite decide_False by lia. by replace (Byte o) with 1 by lia.
Qed.
