(* ===== verification/PublicSpec.v ===== *)
(** * What the embeddable surface promises

    Against the catalogue: [Info] reports the stream, [Append] and [CloseStream]
    have the effect of one append of the specification, and a caller that calls
    [Next] until there is no more gets the whole rest of the stream, in finitely
    many calls. *)

From S2P Require Import Prelude.
From S2P Require Import Bytes.
From S2P Require Import Keys.
From S2P Require Import Meta.
From S2P Require Import Offset.
From S2P Require Import Storage.
From S2P Require Import Loads.
From S2P Require Import Mime.
From S2P Require Import Read.
From S2P Require Import Json.
From S2P Require Import State.
From S2P Require Import Streamer.
From S2P Require Import StreamSpec.
From S2P Require Import StreamerRefine.
From S2P Require Import Deleter.
From S2P Require Import Server.
From S2P Require Import Expiry.
From S2P Require Import Fork.
From S2P Require Import Public.
From S2P Require Import Catalog.
From S2P Require Import Lifecycle.
From S2P Require Import ForkSpec.

Section public_spec.
  Context {S : Type} `{StorageLaws S}.
  Context (R : gmap Z phase).
  Implicit Types (srv : server S) (C : catalog).

(** ** Live state *)

Lemma liveState_ok srv C p :
  server_ok R srv C →
  ∃ ost, liveState srv p =
    Ok ((λ e, (a_tail (e_state e), a_closed (e_state e), ost)) <$> C !! p).
Proof.
  intros [[Hh Hcat Hres _] _]. unfold liveState.
  destruct (srv_registry srv !! p) as [st|] eqn:Hst.
  - destruct (Hres p st Hst) as (e & -> & _ & _ & [Ht Hc _]). exists (Some st). simpl.
    by rewrite Ht, Hc.
  - rewrite (loadMeta_cat R _ _ _ _ Hh Hcat). exists None. run_result.
    destruct (C !! p) as [e|] eqn:Hp; cbn [fmap option_fmap option_map]; [|done].
    change (StreamID (e_stored e)) with (e_id e).
    by rewrite (loadTailSeq_cat R _ _ _ _ Hh Hcat p e Hp).
Qed.

Definition entry_info (e : entry) : StreamInfo :=
  {| si_StreamID := e_id e; si_ContentType := ContentType (e_meta e);
     si_IsJSON := isJSONStream (ContentType (e_meta e)); si_Closed := a_closed (e_state e);
     si_Tail := a_tail (e_state e); si_ForkedFrom := e_source e;
     si_ForkOffset := ForkOffset (e_meta e); si_TTLSeconds := TTLSeconds (e_meta e);
     si_ExpiresAt := ExpiresAt (e_meta e) |}.

Lemma soft_deleted_cat C p :
  soft_deleted (e ← C !! p; if e_gone e then Some (tombSoftDelete, e_id e) else None)
  = from_option e_gone false (C !! p).
Proof. destruct (C !! p) as [e|]; simpl; [|done]. by destruct (e_gone e). Qed.

Lemma Info_ok srv C p :
  server_ok R srv C →
  Info srv p = match C !! p with
               | None => Err ErrNotFound
               | Some e => if e_gone e then Err ErrGone else Ok (entry_info e)
               end.
Proof.
  intros Hs. pose proof Hs as [[Hh Hcat _ _] _]. unfold Info.
  rewrite (loadTombstone_cat R _ _ _ _ Hh Hcat), (loadMeta_cat R _ _ _ _ Hh Hcat). run_result.
  rewrite soft_deleted_cat. destruct (liveState_ok srv C p Hs) as [ost ->].
  destruct (C !! p) as [e|]; simpl; [|done]. by destruct (e_gone e).
Qed.

(** ** Appends *)

Lemma resolveAppend_ok srv C p :
  server_ok R srv C →
  let '(srv', r) := resolveAppend srv p in
  server_ok R srv' C ∧ srv_nextID srv' = srv_nextID srv ∧
  match C !! p with
  | None => r = Ok None
  | Some e =>
      if e_gone e then r = Err ErrGone ∧ srv' = srv
      else ∃ st, r = Ok (Some st) ∧ srv_registry srv' !! p = Some st ∧ mem_rep st p (e_meta e) (e_state e)
  end.
Proof.
  intros Hs. pose proof Hs as [[Hh Hcat Hres _] _]. unfold resolveAppend.
  destruct (srv_registry srv !! p) as [st|] eqn:Hst.
  - split_and!; [done..|]. destruct (Hres p st Hst) as (e & -> & -> & Hm & _). by exists st.
  - rewrite (loadTombstone_cat R _ _ _ _ Hh Hcat). rewrite soft_deleted_cat.
    destruct (from_option e_gone false (C !! p)) eqn:Hg.
    { destruct (C !! p) as [e|]; [|done]. simpl in Hg. by rewrite Hg. }
    pose proof (getOrSpawn_ok R srv C p Hs Hg) as Hsp.
    destruct (getOrSpawn srv p) as [srv' r]. destruct Hsp as (? & _ & ? & Hr). split_and!; [done..|].
    destruct (C !! p) as [e|]; [|done]. simpl in Hg. rewrite Hg. destruct Hr as (st & ? & ? & ? & _).
    by exists st.
Qed.

Lemma submitAppend_ok srv C p e st now req :
  server_ok R srv C → C !! p = Some e → srv_registry srv !! p = Some st →
  burst_ok (e_meta e) (e_state e) now [req] →
  let '(srv', resp) := submitAppend srv now p req in
  let r := spec_append (ContentType (e_meta e)) (TTLSeconds (e_meta e)) now (e_state e) req in
  server_ok R srv' (<[p:=with_state e r.1]> C) ∧ resp = Some r.2 ∧ srv_nextID srv' = srv_nextID srv.
Proof.
  intros Hs Hp Hst Hb. unfold submitAppend, getOrSpawn. rewrite Hst.
  pose proof (burst_server_ok R srv C p e st now [req] Hs Hp Hst Hb) as Hbr.
  destruct (burst srv p now [req]) as [srv' resps]. cbn [spec_run] in Hbr.
  destruct (spec_append _ _ _ _ _) as [a1 o]. cbn [fst snd] in *.
  destruct Hbr as (? & -> & ?). done.
Qed.

Definition public_req (e : entry) (records : list bytes) (close : bool) : appendReq :=
  {| rq_records := records; rq_hasBody := bool_decide (records ≠ []);
     rq_contentType := if bool_decide (records ≠ []) then ContentType (e_meta e) else [];
     rq_closeStream := close; rq_streamSeq := None; rq_producer := None |}.

(** One append of an in-process caller, on the stream's state. *)
Definition public_append (now : Z) (e : entry) (records : list bytes) (close : bool) : astate :=
  let a := e_state e in
  if a_closed a then a
  else {| a_base := a_base a; a_log := a_log a ++ records; a_closed := close;
          a_deadline := slideTTL (TTLSeconds (e_meta e)) now (a_deadline a);
          a_producers := a_producers a; a_writerSeq := a_writerSeq a |}.

Lemma public_append_spec now e records close :
  spec_append (ContentType (e_meta e)) (TTLSeconds (e_meta e)) now (e_state e) (public_req e records close)
  = (public_append now e records close,
     if a_closed (e_state e)
     then resp_tail (if bool_decide (records ≠ []) then 409 else 204) (a_tail (e_state e)) true None None
     else resp_tail 204 (a_tail (e_state e) + len records) close None None).
Proof.
  unfold spec_append, spec_effect, public_append, public_req. simpl.
  destruct (a_closed (e_state e)) eqn:Hc; simpl.
  - unfold spec_closed. simpl. by destruct (bool_decide _).
  - assert (bool_decide (records ≠ []) &&
      negb (contentTypeMatches (ContentType (e_meta e)) (if bool_decide (records ≠ []) then ContentType (e_meta e) else [])) = false) as ->.
    { destruct (bool_decide _); simpl; [|done]. unfold contentTypeMatches.
      by rewrite bool_decide_eq_true_2. }
    unfold spec_producer, spec_accept, spec_ack. simpl. rewrite Hc. simpl. f_equal.
    unfold a_tail. simpl. rewrite length_app.
    f_equal. lia.
Qed.

Lemma appendOrClose_ok srv C now p records close :
  server_ok R srv C →
  (∀ e, C !! p = Some e → is_i64 now ∧ ttl_in_range (TTLSeconds (e_meta e)) now ∧
     a_tail (e_state e) + len records < 2^63) →
  let '(srv', r) := appendOrClose srv now p records close in
  match C !! p with
  | None => r = (offset0, Some ErrNotFound) ∧ server_ok R srv' C
  | Some e =>
      if e_gone e then r = (offset0, Some ErrGone) ∧ srv' = srv
      else
        let a' := public_append now e records close in
        server_ok R srv' (<[p := with_state e a']> C) ∧
        r = (tailOffset (a_tail a'),
             if decide (a_closed (e_state e) = true ∧ records ≠ []) then Some ErrStreamClosed else None)
  end.
Proof.
  intros Hs Hw. unfold appendOrClose. pose proof (resolveAppend_ok srv C p Hs) as Hr.
  destruct (resolveAppend srv p) as [srv1 r]. destruct Hr as (Hs1 & Hn1 & Hr).
  destruct (C !! p) as [e|] eqn:Hp; [|by subst r].
  destruct (e_gone e) eqn:Hg; [by destruct Hr as [-> ->]|].
  destruct Hr as (st & -> & Hst & Hm). destruct (Hw e eq_refl) as (Hnow & Httl & Hroom).
  rewrite (mr_meta _ _ _ _ Hm). change (ContentType (meta_with _ _ _)) with (ContentType (e_meta e)).
  change {| rq_records := records |} with (public_req e records close).
  pose proof (submitAppend_ok srv1 C p e st now (public_req e records close) Hs1 Hp Hst) as Hsub.
  destruct (submitAppend _ _ _ _) as [srv' resp]. cbv zeta in Hsub. rewrite public_append_spec in Hsub.
  destruct Hsub as (Hs' & -> & _).
  { split; [done|done| |by constructor]. unfold total_records, public_req. simpl.
    by rewrite app_nil_r. }
  split; [done|]. unfold appendRespToOffset, public_append.
  destruct (a_closed (e_state e)) eqn:Hc; simpl.
  - case_bool_decide as Hne; simpl.
    + by rewrite decide_True.
    + by rewrite decide_False by tauto.
  - f_equal. f_equal. unfold a_tail. simpl. rewrite length_app. lia.
Qed.

(** ** Draining a stream *)

(** A cursor of the live stream [e]. *)
Definition cursor_of (p : bytes) (e : entry) (o : Offset) : Cursor :=
  {| cu_path := p; cu_id := e_id e; cu_forkedFrom := e_source e;
     cu_forkOffset := ForkOffset (e_meta e); cu_isJSON := isJSONStream (ContentType (e_meta e));
     cu_start := o |}.

Lemma Read_ok srv C p e o :
  server_ok R srv C → C !! p = Some e → e_gone e = false → Read srv p o = Ok (cursor_of p e o).
Proof. intros Hs Hp Hg. unfold Read. by rewrite (Info_ok srv C p Hs), Hp, Hg. Qed.

Lemma Cursor_Next_ok srv C p e L limit o :
  server_ok R srv C → C !! p = Some e → reads C e L → 0 ≤ Seq o →
  ∃ body next upToDate,
    Cursor_Next srv limit (cursor_of p e o) = (cursor_of p e next, Ok (body, next, negb upToDate)) ∧
    readRange (srv_store srv) (e_id e) (e_source e) (ForkOffset (e_meta e))
      (isJSONStream (ContentType (e_meta e))) o (a_tail (e_state e)) limit = Ok (body, next, upToDate).
Proof.
  intros Hs Hp Hr Ho. pose proof Hs as [[Hh Hcat _ _] _]. unfold Cursor_Next.
  destruct (liveState_ok srv C p Hs) as [ost El]. change (cu_path (cursor_of p e o)) with p.
  rewrite El, Hp. cbn [fmap option_fmap option_map].
  pose proof (reads_log_at _ _ _ _ _ _ _ Hcat Hp Hr) as Hl.
  pose proof (eo_bound _ _ _ _ (co_entry _ _ _ _ Hcat p e Hp)).
  destruct (readRange_total _ _ _ _ _ (isJSONStream (ContentType (e_meta e))) o _ limit Hh
    (co_keys _ _ _ _ Hcat) Hl) as [[[body next] utd] E]; [done|lia|].
  exists body, next, utd. split; [|done]. cbn [cu_id cu_forkedFrom cu_forkOffset cu_isJSON cu_start cursor_of].
  by rewrite E.
Qed.

(** What is left to read: bytes and records. *)
Definition remaining (L : Z → bytes) (o : Offset) (T : Z) : nat :=
  Z.to_nat (len (content_from L o T) + Z.max 0 (T - Seq o)).

Lemma binary_read_remaining L o T limit body next upToDate :
  binary_read L o T limit body next upToDate → upToDate = false → 0 < limit →
  (remaining L next T < remaining L o T)%nat.
Proof.
  intros [Hc Hl Hu Hs Hp Hn] Hf Hlim. unfold remaining. rewrite <-Hc, length_app.
  assert (Hlt : Seq next < T) by (destruct (decide (T ≤ Seq next)); [by rewrite (proj2 Hu) in Hf|lia]).
  assert (Hso : Seq o < T).
  { destruct (decide (Seq o < T)); [done|]. rewrite (content_from_done L o T) in Hc by lia.
    apply app_eq_nil in Hc as [-> _]. rewrite Hs in Hf by (simpl; lia). done. }
  assert (limit ≤ len body) by (destruct (decide (len body < limit)); [by rewrite Hs in Hf|lia]).
  destruct (Hp Hso Hlim) as [?|[-> _]]; lia.
Qed.

Lemma drain_binary srv C p e L limit :
  server_ok R srv C → C !! p = Some e → reads C e L → 0 < limit →
  isJSONStream (ContentType (e_meta e)) = false →
  ∀ fuel o, 0 ≤ Seq o → 0 ≤ Byte o → (remaining L o (a_tail (e_state e)) < fuel)%nat →
  ∃ chunks last, drain fuel srv limit (cursor_of p e o) = Ok (chunks, last) ∧
    concat chunks = content_from L o (a_tail (e_state e)) ∧ a_tail (e_state e) ≤ Seq last.
Proof.
  intros Hs Hp Hr Hlim Hj. pose proof Hs as [[Hh Hcat _ _] _].
  pose proof (reads_log_at _ _ _ _ _ _ _ Hcat Hp Hr) as Hl.
  pose proof (eo_bound _ _ _ _ (co_entry _ _ _ _ Hcat p e Hp)).
  induction fuel as [|fuel IH]; intros o HS HB Hf; [lia|]. cbn [drain].
  destruct (Cursor_Next_ok srv C p e L limit o Hs Hp Hr HS) as (body & next & utd & -> & E).
  rewrite Hj in E. run_result. pose proof (readRange_byte _ _ _ _ _ _ _ _ _ _ HB E) as HB'.
  apply (readRange_binary_read L) in E; [|apply Hcat|done..|lia|lia]. destruct utd; cbn [negb].
  - exists [body], next. destruct E as [Hc _ Hu _ _ _]. destruct Hu as [Hu _]. specialize (Hu eq_refl).
    split_and!; [done| |done]. simpl. rewrite app_nil_r, <-Hc.
    by rewrite (content_from_done L next), app_nil_r by lia.
  - pose proof (binary_read_remaining _ _ _ _ _ _ _ E eq_refl Hlim) as Hrem.
    destruct E as [Hc _ Hu Hsh Hpr _].
    assert (Hso : Seq o ≤ Seq next).
    { destruct (decide (Seq o < a_tail (e_state e))) as [Hso|Hso]; [destruct (Hpr Hso Hlim); lia|].
      destruct (decide (a_tail (e_state e) ≤ Seq next)); [discriminate (proj2 Hu l)|].
      rewrite (content_from_done L o) in Hc by lia. apply app_eq_nil in Hc as [-> _].
      by specialize (Hsh ltac:(simpl; lia)). }
    destruct (IH next) as (chunks & last & -> & Hcat' & Hlast); [lia|done|lia|].
    exists (body :: chunks), last. split_and!; [done| |done]. simpl. by rewrite Hcat'.
Qed.


(** One JSON chunk, and what is left after it. *)
Lemma json_read_step L o T limit body next upToDate :
  json_read L o T limit body next upToDate →
  ∃ ms, body = wrapJSONArray ms ∧
    payloads L (Seq o) T = ms ++ payloads L (Seq next) T ∧ Seq o ≤ Seq next ∧
    (upToDate = true ↔ T ≤ Seq next) ∧ (upToDate = false → Seq o < Seq next).
Proof.
  intros [Hc Hr Hi Hu _ _]. exists (payloads L (Seq o) (Seq next)).
  destruct (decide (Seq o < T)) as [Hlt|Hge].
  - destruct (Hr Hlt) as [? _]. split_and!; [done| |lia|done|lia]. apply payloads_app. lia.
  - rewrite (Hi ltac:(lia)) in *. split_and!; [done| |lia|done|].
    + by rewrite !(payloads_nil L (Seq o)) by lia.
    + intros ->. destruct Hu as [_ Hu]. discriminate (Hu ltac:(lia)).
Qed.

Lemma Cursor_Next_json srv C p e L limit o :
  server_ok R srv C → C !! p = Some e → reads C e L → 0 ≤ limit →
  isJSONStream (ContentType (e_meta e)) = true → 0 ≤ Seq o →
  ∃ ms next more,
    Cursor_Next srv limit (cursor_of p e o) = (cursor_of p e next, Ok (wrapJSONArray ms, next, more)) ∧
    payloads L (Seq o) (a_tail (e_state e)) = ms ++ payloads L (Seq next) (a_tail (e_state e)) ∧
    Seq o ≤ Seq next ∧ (more = false → a_tail (e_state e) ≤ Seq next) ∧
    (more = true → Seq o < Seq next < a_tail (e_state e)).
Proof.
  intros Hs Hp Hr Hlim Hj HS. pose proof Hs as [[Hh Hcat _ _] _].
  pose proof (reads_log_at _ _ _ _ _ _ _ Hcat Hp Hr) as Hl.
  pose proof (eo_bound _ _ _ _ (co_entry _ _ _ _ Hcat p e Hp)).
  destruct (Cursor_Next_ok srv C p e L limit o Hs Hp Hr HS) as (body & next & utd & -> & E).
  rewrite Hj in E. apply (readRange_json_read L) in E; [|apply Hcat|done..|lia].
  apply json_read_step in E as (ms & -> & Hpay & Hle & Hu & Hlt).
  exists ms, next, (negb utd). split_and!; [done..| |].
  - intros Hm. apply Hu. by destruct utd.
  - intros Hm. destruct utd; [done|]. specialize (Hlt eq_refl). split; [done|].
    destruct (decide (Seq next < a_tail (e_state e))); [done|]. discriminate (proj2 Hu ltac:(lia)).
Qed.

Lemma drain_json srv C p e L limit :
  server_ok R srv C → C !! p = Some e → reads C e L → 0 ≤ limit →
  isJSONStream (ContentType (e_meta e)) = true →
  ∀ fuel o, 0 ≤ Seq o → a_tail (e_state e) - Seq o < Z.of_nat fuel → (0 < fuel)%nat →
  ∃ msgss last, drain fuel srv limit (cursor_of p e o) = Ok (wrapJSONArray <$> msgss, last) ∧
    concat msgss = payloads L (Seq o) (a_tail (e_state e)) ∧ a_tail (e_state e) ≤ Seq last.
Proof.
  intros Hs Hp Hr Hlim Hj. induction fuel as [|fuel IH]; intros o HS Hf Hpos; [lia|]. cbn [drain].
  destruct (Cursor_Next_json srv C p e L limit o Hs Hp Hr Hlim Hj HS)
    as (ms & next & more & -> & Hpay & Hle & Hend & Hgo). run_result. destruct more.
  - specialize (Hgo eq_refl). destruct (IH next) as (msgss & last & -> & Hc & Hlast); [lia|lia|lia|].
    exists (ms :: msgss), last. split_and!; [done| |done]. simpl. by rewrite Hc, Hpay.
  - specialize (Hend eq_refl). exists [ms], next. split_and!; [done| |done]. simpl.
    by rewrite Hpay, (payloads_nil L (Seq next)) by lia.
Qed.

(** ** Materialisation *)

Section materialize_spec.
  Context (decode : bytes → option (list Message)) (decode1 : bytes → option Message).
  (** [json.Unmarshal] of an array decodes its elements one by one. *)
  Hypothesis Hdecode : ∀ ms, Forall Json.element ms → decode (wrapJSONArray ms) = mapM decode1 ms.

Lemma ApplyAll_app m a b : (ApplyAll m (a ++ b)).1 = (ApplyAll (ApplyAll m a).1 b).1.
Proof.
  revert m. induction a as [|x a IH]; intros m; [done|].
  change ((x :: a) ++ b) with (x :: (a ++ b)). by rewrite !ApplyAll_cons, IH.
Qed.

Lemma mapM_app_inv {A B : Type} (f : A → option B) xs ys zs :
  mapM f (xs ++ ys) = Some zs →
  ∃ zs1 zs2, mapM f xs = Some zs1 ∧ mapM f ys = Some zs2 ∧ zs = zs1 ++ zs2.
Proof.
  intros (zs1 & zs2 & Ha & Hb & ->)%mapM_Some%Forall2_app_inv_l. exists zs1, zs2.
  split_and!; [by apply mapM_Some..|done].
Qed.

Lemma wrapJSONArray_nonempty ms : wrapJSONArray ms ≠ [].
Proof. unfold wrapJSONArray, appendJSONArray. simpl. by destruct ms. Qed.

Lemma materialize_loop_ok srv C p e L limit :
  server_ok R srv C → C !! p = Some e → reads C e L → 0 ≤ limit →
  isJSONStream (ContentType (e_meta e)) = true →
  ∀ fuel o mat msgs, 0 ≤ Seq o → a_tail (e_state e) - Seq o < Z.of_nat fuel → (0 < fuel)%nat →
  Forall Json.element (payloads L (Seq o) (a_tail (e_state e))) →
  mapM decode1 (payloads L (Seq o) (a_tail (e_state e))) = Some msgs →
  ∃ last, materialize_loop decode fuel srv limit (cursor_of p e o) mat = Ok ((ApplyAll mat msgs).1, last) ∧
    a_tail (e_state e) ≤ Seq last.
Proof.
  intros Hs Hp Hr Hlim Hj.
  induction fuel as [|fuel IH]; intros o mat msgs HS Hf Hpos Hel Hmsgs; [lia|]. cbn [materialize_loop].
  destruct (Cursor_Next_json srv C p e L limit o Hs Hp Hr Hlim Hj HS)
    as (ms & next & more & -> & Hpay & Hle & Hend & Hgo). run_result.
  rewrite Hpay in Hel, Hmsgs. apply Forall_app in Hel as [Hel1 Hel2].
  apply mapM_app_inv in Hmsgs as (m1 & m2 & Hm1 & Hm2 & ->).
  unfold decodeStateMessages. rewrite decide_False by apply wrapJSONArray_nonempty.
  rewrite Hdecode, Hm1 by done. run_result. rewrite ApplyAll_app. destruct more.
  - specialize (Hgo eq_refl). apply IH; [lia..|done|done].
  - specialize (Hend eq_refl). rewrite (payloads_nil L (Seq next)) in Hm2 by lia.
    simpl in Hm2. apply (inj Some) in Hm2 as <-. by exists next.
Qed.

End materialize_spec.

(** ** Properties *)

(** An in-process append is exactly one append. On a live, open stream the
    records are added in order, the stream is closed if asked, and the offset after
    the last record is returned; on a closed stream data is refused with the
    stream's final offset and a close is acknowledged again; absent and
    soft-deleted streams are errors and nothing changes. *)
Theorem appendOrClose_correct srv C now p records close :
  server_ok R srv C →
  (∀ e, C !! p = Some e → is_i64 now ∧ ttl_in_range (TTLSeconds (e_meta e)) now ∧
     a_tail (e_state e) + len records < 2^63) →
  let '(srv', r) := appendOrClose srv now p records close in
  match C !! p with
  | None => r = (offset0, Some ErrNotFound) ∧ server_ok R srv' C
  | Some e =>
      if e_gone e then r = (offset0, Some ErrGone) ∧ srv' = srv
      else
        let a' := public_append now e records close in
        server_ok R srv' (<[p := with_state e a']> C) ∧
        r = (tailOffset (a_tail a'),
             if decide (a_closed (e_state e) = true ∧ records ≠ []) then Some ErrStreamClosed else None)
  end.
Proof. apply appendOrClose_ok. Qed.

(** C37: reading to the end ends, and misses nothing. A caller that reads from a
    position and calls [Next] until there is no more gets, in a bounded number of
    calls, all of the stream from there to its tail: the bytes, or the messages in
    whole arrays; forks included, whatever the limit on one read. *)
Theorem cursor_drains srv C p e L limit o fuel :
  server_ok R srv C → C !! p = Some e → e_gone e = false → reads C e L →
  0 < limit → 0 ≤ Seq o → 0 ≤ Byte o → (remaining L o (a_tail (e_state e)) < fuel)%nat →
  ∃ c chunks last, Read srv p o = Ok c ∧ drain fuel srv limit c = Ok (chunks, last) ∧
    a_tail (e_state e) ≤ Seq last ∧
    if isJSONStream (ContentType (e_meta e))
    then ∃ msgss, chunks = wrapJSONArray <$> msgss ∧
           concat msgss = payloads L (Seq o) (a_tail (e_state e))
    else concat chunks = content_from L o (a_tail (e_state e)).
Proof.
  intros Hs Hp Hg Hr Hlim HS HB Hf. exists (cursor_of p e o). rewrite (Read_ok srv C p e o) by done.
  destruct (isJSONStream (ContentType (e_meta e))) eqn:Hj.
  - destruct (drain_json srv C p e L limit Hs Hp Hr ltac:(lia) Hj fuel o HS) as (msgss & last & -> & ? & ?);
      [unfold remaining in Hf; lia|lia|]. exists (wrapJSONArray <$> msgss), last.
    split_and!; [done..|]. by exists msgss.
  - destruct (drain_binary srv C p e L limit Hs Hp Hr Hlim Hj fuel o HS HB Hf) as (chunks & last & -> & ? & ?).
    by exists chunks, last.
Qed.

(** Materialising a State Protocol stream replays its history: [Materialize]
    ends, and the state of every entity is that of the last valid write of the
    whole stream, however the reads were cut into chunks. *)
Theorem materialize_replays (decode : bytes → option (list Message)) (decode1 : bytes → option Message)
    srv C p e L limit fuel msgs :
  (∀ ms, Forall Json.element ms → decode (wrapJSONArray ms) = mapM decode1 ms) →
  server_ok R srv C → C !! p = Some e → e_gone e = false → reads C e L → 0 ≤ limit →
  isJSONStream (ContentType (e_meta e)) = true →
  Forall Json.element (payloads L 0 (a_tail (e_state e))) →
  mapM decode1 (payloads L 0 (a_tail (e_state e))) = Some msgs →
  a_tail (e_state e) < Z.of_nat fuel →
  ∃ mat last, Materialize decode fuel srv limit p = Ok (mat, last) ∧ a_tail (e_state e) ≤ Seq last ∧
    ∀ t k, entity mat t k = default None (last_effect t k msgs).
Proof.
  intros Hdec Hs Hp Hg Hr Hlim Hj Hel Hmsgs Hf. unfold Materialize.
  rewrite (Read_ok srv C p e offset0) by done. run_result.
  assert (0 ≤ a_tail (e_state e)).
  { pose proof (aw_base _ (eo_wf _ _ _ _ (co_entry _ _ _ _ (sv_cat _ _ _ _ (proj1 Hs)) p e Hp))).
    unfold a_tail. lia. }
  destruct (materialize_loop_ok decode decode1 Hdec srv C p e L limit Hs Hp Hr Hlim Hj fuel offset0
    NewMaterializer msgs) as (last & -> & Hlast); [done|simpl; lia|lia|done|done|].
  exists (ApplyAll NewMaterializer msgs).1, last. split_and!; [done..|]. intros t k.
  rewrite ApplyAll_entity. done.
Qed.

End public_spec.

Lemma appendOrClose_correct_witness :
  ∃ srv', appendOrClose LifeSample.srv1 101 LifeSample.path [["z"%byte]] true
    = (srv', ({| Seq := 2; Byte := 0 |}, None)).
Proof.
  destruct LifeSample.srv1_ok as [Hs _].
  pose proof (appendOrClose_correct ∅ LifeSample.srv1 LifeSample.C1 101 LifeSample.path [["z"%byte]] true Hs) as Hc.
  destruct (appendOrClose _ _ _ _ _) as [srv' r]. exists srv'.
  unfold LifeSample.C1 in Hc at 2. rewrite lookup_insert_eq in Hc.
  destruct Hc as [_ ->]; [|by vm_compute].
  intros e ->%ForkSample.sample_stream. split_and!; by vm_compute.
Defined.

Lemma cursor_drains_witness :
  ∃ c chunks last, Read LifeSample.srv1 LifeSample.path offset0 = Ok c ∧
    drain 4 LifeSample.srv1 1 c = Ok (chunks, last) ∧ concat chunks = ["x"%byte; "y"%byte].
Proof.
  destruct LifeSample.srv1_ok as [Hs _].
  destruct (cursor_drains ∅ LifeSample.srv1 LifeSample.C1 LifeSample.path LifeSample.entry1
    (content (e_state LifeSample.entry1)) 1 offset0 4 Hs) as (c & chunks & last & ? & ? & _ & Hc);
    [apply lookup_insert_eq|done|by apply reads_root|done..|by vm_compute; lia|].
  exists c, chunks, last. split_and!; [done..|].
  assert (isJSONStream (ContentType (e_meta LifeSample.entry1)) = false) as E by (vm_compute; reflexivity).
  rewrite E in Hc. rewrite Hc. vm_compute. reflexivity.
Defined.

(** A State Protocol stream of two messages. *)
Module JsonSample.
Definition params : createParams :=
  {| cp_path := LifeSample.path; cp_contentType := contentTypeJSON; cp_ttl := 0; cp_ttlSet := false;
     cp_expiresAt := 0; cp_expiresSet := false; cp_closed := false;
     cp_body := ["["; "1"; ","; "2"; "]"]%byte |}.
Definition entry1 : entry := new_entry (newMeta 1 100 100000 params) [["1"%byte]; ["2"%byte]].
Definition C1 : catalog := <[LifeSample.path := entry1]> ∅.
Definition srv1 : server fakeStore := (createStream LifeSample.srv0 100 100000 params).1.

Lemma records : createRecords (cp_contentType params) (cp_body params) = inr [["1"%byte]; ["2"%byte]].
Proof. vm_compute. reflexivity. Qed.

Lemma json_srv_ok : server_ok ∅ srv1 C1.
Proof.
  assert (Hwf : create_wf LifeSample.srv0 100 100000 params).
  { split; [by split|done..|]. rewrite records. intros rs Hrs. apply (inj inr) in Hrs as <-. done. }
  pose proof (createStream_ok ∅ LifeSample.srv0 ∅ 100 100000 params LifeSample.srv0_ok Hwf) as Hc.
  unfold srv1. destruct (createStream LifeSample.srv0 100 100000 params) as [srv' res].
  rewrite lookup_empty, records in Hc. by destruct Hc as (? & ? & _).
Qed.

(** Each element is the value of an entity named after it. *)
Definition decode1 (b : bytes) : option Message :=
  Some {| MType := StateLiterals.user; MKey := b; Value := b; OldValue := [];
          MHeaders := {| Operation := OpInsert; Control := []; Txid := []; Timestamp := []; HOffset := [] |} |}.
Definition decode (b : bytes) : option (list Message) :=
  match json_Unmarshal_array b with Ok l => mapM decode1 l | Err _ => None end.

Lemma decode_elements ms : Forall element ms → decode (wrapJSONArray ms) = mapM decode1 ms.
Proof.
  intros Hms. unfold decode. destruct Hms as [|r rest Hr Hrest]; [by vm_compute|].
  by rewrite Unmarshal_wrap.
Qed.
End JsonSample.

Lemma materialize_replays_witness :
  ∃ mat last, Materialize JsonSample.decode 3 JsonSample.srv1 1 LifeSample.path = Ok (mat, last) ∧
    entity mat StateLiterals.user ["2"%byte] = Some ["2"%byte].
Proof.
  destruct (materialize_replays ∅ JsonSample.decode JsonSample.decode1 JsonSample.srv1 JsonSample.C1
    LifeSample.path JsonSample.entry1 (content (e_state JsonSample.entry1)) 1 3
    (omap JsonSample.decode1 [["1"%byte]; ["2"%byte]]) JsonSample.decode_elements JsonSample.json_srv_ok)
    as (mat & last & ? & _ & He);
    [apply lookup_insert_eq|done|by apply reads_root|done|by vm_compute|..].
  - change (Forall element [["1"%byte]; ["2"%byte]]). repeat constructor.
  - by vm_compute.
  - by vm_compute.
  - exists mat, last. split; [done|]. rewrite He. vm_compute. reflexivity.
Defined.

(** ** A worker for a stream that is gone *)

(** The stream of LifeSample, forked and then deleted: it is kept for its fork. *)
Module GoneSample.
Definition forked : server fakeStore := (createFork LifeSample.srv1 101 101000 ForkSample.request).1.
Definition gone : server fakeStore := (deleteStream forked LifeSample.path).1.
Definition append (srv : server fakeStore) : server fakeStore * (Offset * option error) :=
  Append srv 102 LifeSample.path [["z"%byte]].
Definition tailed : server fakeStore := (Tail gone LifeSample.path).1.
End GoneSample.

(** Tailing a soft-deleted stream reopens it. [Info] and [Append] answer that
    it is gone; [Tail] looks for the streamer first and starts one, since the
    metadata is still there, and never comes to the tombstone. With the streamer
    resident, which the append path takes as proof that the stream is not deleted,
    the next append is accepted and stored. *)
Theorem tail_reopens_soft_deleted :
  Info GoneSample.gone LifeSample.path = Err ErrGone ∧
  (GoneSample.append GoneSample.gone).2 = (offset0, Some ErrGone) ∧
  (∃ st, (Tail GoneSample.gone LifeSample.path).2 = Ok st) ∧
  (GoneSample.append GoneSample.tailed).2 = (tailOffset 2, None) ∧
  recordAt (srv_store (GoneSample.append GoneSample.tailed).1) 1 1 = Ok (Some ["z"%byte]).
Proof. split_and!; [| |eexists| |]; vm_compute; reflexivity. Qed.
