(* ===== verification/Wal.v ===== *)
(** * The write-ahead log files of the sharded store (internal/ds/pwalstore.go)

    One record per commit: a length, the sequence number, a checksum and the
    operations. Replay walks a shard's file and stops at the first record that is
    incomplete or whose checksum is wrong. [hash/crc32] is part of the standard
    library: the Castagnoli checksum is written out bit by bit. *)

From S2P Require Import Prelude.
From S2P Require Import Bytes.
From S2P Require Import Storage.

(** ** CRC-32C (hash/crc32, the Castagnoli polynomial, reflected) *)

Fixpoint crc_bits (n : nat) (c : Z) : Z :=
  match n with
  | O => c
  | S n => crc_bits n (if Z.odd c then Z.lxor (Z.shiftr c 1) 0x82F63B78 else Z.shiftr c 1)
  end.

Definition crc32c (b : bytes) : Z :=
  Z.lxor (foldl (λ c x, crc_bits 8 (Z.lxor c (byte_to_Z x))) 0xFFFFFFFF b) 0xFFFFFFFF.

Definition be32 (v : Z) : bytes := be_bytes 4 v.
#[global] Arguments be32 : simpl never.

(** The slice [b[lo:hi]] of a file or buffer, by 64-bit positions. *)
Definition sub_slice (b : bytes) (lo hi : Z) : result bytes := go_slice b (Z.to_nat lo) (Z.to_nat hi).

(** ** Encoding *)

Definition walHeaderLen : Z := 4 + 8 + 4.

(** The loop over the operations: the payload so far, and for each operation the
    place of its value in the record ([0, 0] for a delete). *)
Fixpoint encode_ops (payload : bytes) (ops : list Op) : bytes * list (Z * Z) :=
  match ops with
  | [] => (payload, [])
  | op :: rest =>
      let payload := payload ++ [if op_del op then x01 else x00] in
      let payload := payload ++ be32 (len (op_key op)) in
      let payload := payload ++ op_key op in
      if op_del op then
        let '(p, locs) := encode_ops payload rest in (p, (0, 0) :: locs)
      else
        let payload := payload ++ be32 (len (op_val op)) in
        let loc := (i32 (walHeaderLen + len payload), i32 (len (op_val op))) in
        let '(p, locs) := encode_ops (payload ++ op_val op) rest in (p, loc :: locs)
  end.

(** [encodePWALRecord]: the record, and [relOff], [relLen] of every operation. *)
Definition encodePWALRecord (seq : Z) (ops : list Op) : bytes * list (Z * Z) :=
  let '(payload, locs) := encode_ops (be32 (len ops)) ops in
  let crc := crc32c payload in
  (be32 (8 + 4 + len payload) ++ be64 seq ++ be32 crc ++ payload, locs).

(** ** Replay *)

Record pwalRecEntry : Type := mkRecEntry {
  re_key : bytes; re_del : bool; re_fileOff : Z; re_n : Z }.

Record pwalRecord : Type := mkWalRecord { wr_seq : Z; wr_entries : list pwalRecEntry }.

(** The loop [opLoop]: [None] is its exit with [ok = false]. Every round that goes
    on consumes at least five bytes, so the payload's length bounds the rounds. *)
Fixpoint op_loop (fuel : nat) (payload : bytes) (payloadFileStart opCount i cur : Z)
  : result (option (list pwalRecEntry)) :=
  match fuel with
  | O => Err outOfFuel
  | S fuel =>
      if decide (opCount ≤ i) then mret (Some []) else
      if decide (len payload < cur + 1) then mret None else
      flag ← sub_slice payload cur (cur + 1);
      let del := bool_decide (flag = [x01]) in
      let cur := cur + 1 in
      if decide (len payload < cur + 4) then mret None else
      kl ← sub_slice payload cur (cur + 4);
      let keyLen := be_value kl in
      let cur := cur + 4 in
      if decide (len payload < cur + keyLen) then mret None else
      key ← sub_slice payload cur (cur + keyLen);
      let cur := cur + keyLen in
      if del then
        rest ← op_loop fuel payload payloadFileStart opCount (i + 1) cur;
        mret (cons {| re_key := key; re_del := true; re_fileOff := 0; re_n := 0 |} <$> rest)
      else
        if decide (len payload < cur + 4) then mret None else
        vl ← sub_slice payload cur (cur + 4);
        let valLen := be_value vl in
        let cur := cur + 4 in
        if decide (len payload < cur + valLen) then mret None else
        rest ← op_loop fuel payload payloadFileStart opCount (i + 1) (cur + valLen);
        mret (cons {| re_key := key; re_del := false; re_fileOff := payloadFileStart + cur;
                      re_n := i32 valLen |} <$> rest)
  end.

(** One round of the loop over the records: the record at [filePos] and where the
    next one starts, or [None] where replay stops. *)
Definition decode_record (data : bytes) (filePos : Z) : result (option (pwalRecord * Z)) :=
  if decide (len data < filePos + 4) then mret None else
  nb ← sub_slice data filePos (filePos + 4);
  let n := be_value nb in
  let recBodyStart := filePos + 4 in
  if decide (len data < recBodyStart + n) then mret None else
  buf ← sub_slice data recBodyStart (recBodyStart + n);
  if decide (len buf < 12) then mret None else
  seqb ← sub_slice buf 0 8;
  crcb ← sub_slice buf 8 12;
  payload ← sub_slice buf 12 (len buf);
  if decide (crc32c payload ≠ be_value crcb) then mret None else
  if decide (len payload < 4) then mret None else
  countb ← sub_slice payload 0 4;
  entries ← op_loop (S (length payload)) payload (recBodyStart + 12) (be_value countb) 0 4;
  mret (match entries with
        | None => None
        | Some entries => Some ({| wr_seq := be_value seqb; wr_entries := entries |}, recBodyStart + n)
        end).

(** Every round consumes at least four bytes. *)
Fixpoint decode_loop (fuel : nat) (data : bytes) (filePos : Z) : result (list pwalRecord) :=
  match fuel with
  | O => Err outOfFuel
  | S fuel =>
      r ← decode_record data filePos;
      match r with
      | None => mret []
      | Some (rec, next) => recs ← decode_loop fuel data next; mret (rec :: recs)
      end
  end.

Definition decodePWALShard (data : bytes) : result (list pwalRecord) :=
  decode_loop (S (length data)) data 0.

(** ** The format, as a function *)

Definition op_bytes (op : Op) : bytes :=
  (if op_del op then x01 else x00) :: be32 (len (op_key op)) ++ op_key op
  ++ (if op_del op then [] else be32 (len (op_val op)) ++ op_val op).

Definition wal_payload (ops : list Op) : bytes := be32 (len ops) ++ concat (op_bytes <$> ops).

Definition wal_record (seq : Z) (ops : list Op) : bytes :=
  be32 (8 + 4 + len (wal_payload ops)) ++ be64 seq ++ be32 (crc32c (wal_payload ops)) ++ wal_payload ops.

(** Where the value of each operation lies when the first one starts at [pos]. *)
Definition op_entry (pos : Z) (op : Op) : pwalRecEntry :=
  {| re_key := op_key op; re_del := op_del op;
     re_fileOff := if op_del op then 0 else pos + 9 + len (op_key op);
     re_n := if op_del op then 0 else len (op_val op) |}.

Fixpoint op_entries (pos : Z) (ops : list Op) : list pwalRecEntry :=
  match ops with
  | [] => []
  | op :: rest => op_entry pos op :: op_entries (pos + len (op_bytes op)) rest
  end.

(** A record is within the 32-bit lengths of the format. *)
Definition wal_fits (ops : list Op) : Prop := len (wal_payload ops) + 32 < 2^31.

(** The result is a value: no panic, no exhausted bound. *)
Definition is_ok {A} (r : result A) : Prop := ∃ a, r = Ok a.

(** ** Lemmas: the checksum is a 32-bit word *)

Lemma lxor_u32 a b : 0 ≤ a < 2^32 → 0 ≤ b < 2^32 → 0 ≤ Z.lxor a b < 2^32.
Proof.
  intros Ha Hb. split; [apply Z.lxor_nonneg; lia|].
  destruct (decide (Z.lxor a b = 0)) as [->|]; [lia|].
  assert (0 ≤ Z.lxor a b) by (apply Z.lxor_nonneg; lia).
  apply Z.log2_lt_pow2; [lia|]. eapply Z.le_lt_trans; [apply Z.log2_lxor; lia|].
  apply Z.max_lub_lt.
  - destruct (decide (a = 0)) as [->|]; [simpl; lia|]. apply Z.log2_lt_pow2; lia.
  - destruct (decide (b = 0)) as [->|]; [simpl; lia|]. apply Z.log2_lt_pow2; lia.
Qed.

Lemma crc_bits_range n c : 0 ≤ c < 2^32 → 0 ≤ crc_bits n c < 2^32.
Proof.
  revert c. induction n as [|n IH]; intros c Hc; [done|]. cbn [crc_bits]. apply IH.
  assert (0 ≤ Z.shiftr c 1 < 2^32).
  { rewrite Z.shiftr_div_pow2 by lia. change (2^1) with 2. split; [apply Z.div_pos; lia|].
    apply Z.div_lt_upper_bound; lia. }
  destruct (Z.odd c); [by apply lxor_u32|done].
Qed.

Lemma crc32c_range b : 0 ≤ crc32c b < 2^32.
Proof.
  unfold crc32c. apply lxor_u32; [|lia].
  assert (Hg : ∀ c, 0 ≤ c < 2^32 →
    0 ≤ foldl (λ c x, crc_bits 8 (Z.lxor c (byte_to_Z x))) c b < 2^32); [|apply Hg; lia].
  induction b as [|x b IH]; intros c Hc; [done|]. apply IH, crc_bits_range, lxor_u32; [done|].
  pose proof (byte_to_Z_range x). lia.
Qed.

(** ** Lemmas: lengths and slices *)

Lemma length_be32 v : length (be32 v) = 4%nat.
Proof. apply length_be_bytes. Qed.
#[export] Hint Rewrite length_be32 : yasdb_len.

Lemma be_value_be32 v : 0 ≤ v < 2^32 → be_value (be32 v) = v.
Proof. intros. unfold be32. rewrite be_value_be_bytes. apply Z.mod_small. done. Qed.

Lemma sub_slice_app pre x post lo hi :
  lo = len pre → hi = len pre + len x → sub_slice (pre ++ x ++ post) lo hi = Ok x.
Proof.
  intros -> ->. unfold sub_slice. rewrite go_slice_in_range by len_lia. f_equal.
  rewrite drop_app_length_eq by lia. apply take_app_length_eq. lia.
Qed.

Lemma sub_slice_end pre x lo hi :
  lo = len pre → hi = len pre + len x → sub_slice (pre ++ x) lo hi = Ok x.
Proof. intros. rewrite <-(app_nil_r x). rewrite app_nil_r at 2. by apply sub_slice_app. Qed.

Lemma sub_slice_head x post hi : hi = len x → sub_slice (x ++ post) 0 hi = Ok x.
Proof. intros. by apply (sub_slice_app []). Qed.

Lemma sub_slice_ok b lo hi : 0 ≤ lo ≤ hi → hi ≤ len b →
  ∃ s, sub_slice b lo hi = Ok s ∧ len s = hi - lo.
Proof.
  intros. unfold sub_slice. rewrite go_slice_in_range by lia. eexists. split; [done|].
  rewrite length_take, length_drop. lia.
Qed.

Lemma length_op_bytes op :
  len (op_bytes op) = 5 + len (op_key op) + (if op_del op then 0 else 4 + len (op_val op)).
Proof. unfold op_bytes. destruct (op_del op); len_lia. Qed.

Lemma op_bytes_put op :
  op_del op = false →
  op_bytes op = [x00] ++ be32 (len (op_key op)) ++ op_key op ++ be32 (len (op_val op)) ++ op_val op.
Proof. intros Hd. unfold op_bytes. by rewrite Hd. Qed.

Lemma op_bytes_del op :
  op_del op = true → op_bytes op = [x01] ++ be32 (len (op_key op)) ++ op_key op.
Proof. intros Hd. unfold op_bytes. by rewrite Hd, app_nil_r. Qed.

Lemma length_wal_record seq ops : len (wal_record seq ops) = 16 + len (wal_payload ops).
Proof. unfold wal_record. len_lia. Qed.

Lemma op_bytes_fit op ops :
  op ∈ ops → len (op_bytes op) ≤ len (concat (op_bytes <$> ops)).
Proof.
  induction 1 as [ops|? ? ops ? IH]; rewrite fmap_cons; cbn [concat]; rewrite length_app; lia.
Qed.

Lemma wal_fits_count ops : 5 * len ops ≤ len (concat (op_bytes <$> ops)).
Proof.
  induction ops as [|op ops IH]; [done|]. rewrite fmap_cons. cbn [concat]. rewrite length_app.
  pose proof (length_op_bytes op). simpl length. destruct (op_del op); lia.
Qed.

(** ** Lemmas: encoding *)

Lemma encode_ops_spec payload ops :
  walHeaderLen + len payload + len (concat (op_bytes <$> ops)) < 2^31 →
  encode_ops payload ops =
    (payload ++ concat (op_bytes <$> ops),
     (λ e, (re_fileOff e, re_n e)) <$> op_entries (walHeaderLen + len payload) ops).
Proof.
  unfold walHeaderLen. revert payload. induction ops as [|op ops IH]; intros payload Hl; cbn [encode_ops op_entries fmap list_fmap concat].
  { by rewrite app_nil_r. }
  rewrite fmap_cons in Hl. cbn [concat] in Hl. rewrite length_app, Nat2Z.inj_add, length_op_bytes in Hl.
  pose proof (length_op_bytes op) as Hop. unfold op_entry. destruct (op_del op) eqn:Hd.
  - rewrite IH by len_lia. rewrite (op_bytes_del op Hd). f_equal; [by rewrite <-!app_assoc|].
    cbn [re_fileOff re_n]. do 3 f_equal. len_lia.
  - rewrite IH by len_lia. rewrite (op_bytes_put op Hd). f_equal; [by rewrite <-!app_assoc|].
    cbn [re_fileOff re_n]. rewrite !i32_small by (unfold is_i32, walHeaderLen; len_lia). unfold walHeaderLen. f_equal; [f_equal; len_lia|]. do 2 f_equal. len_lia.
Qed.

Lemma encodePWALRecord_spec seq ops :
  wal_fits ops →
  encodePWALRecord seq ops = (wal_record seq ops, (λ e, (re_fileOff e, re_n e)) <$> op_entries 20 ops).
Proof.
  unfold wal_fits, wal_payload. intros Hf. unfold encodePWALRecord.
  rewrite encode_ops_spec by (unfold walHeaderLen; len_lia). done.
Qed.

(** ** Lemmas: replay *)

Lemma op_entries_app pos a b :
  op_entries pos (a ++ b) = op_entries pos a ++ op_entries (pos + len (concat (op_bytes <$> a))) b.
Proof.
  revert pos. induction a as [|op a IH]; intros pos; [simpl; by rewrite Z.add_0_r|].
  cbn [app op_entries]. rewrite IH, fmap_cons. cbn [concat]. rewrite length_app.
  do 3 f_equal. lia.
Qed.

Lemma op_loop_spec fuel pre ops start i :
  len (concat (op_bytes <$> ops)) < 2^31 → (length ops < fuel)%nat →
  op_loop fuel (pre ++ concat (op_bytes <$> ops)) start (i + len ops) i (len pre)
    = Ok (Some (op_entries (start + len pre) ops)).
Proof.
  revert fuel pre i. induction ops as [|op ops IH]; intros [|fuel] pre i Hb Hf; try (simpl in Hf; lia).
  { cbn [op_loop]. by rewrite decide_True by (simpl; lia). }
  rewrite fmap_cons in *. cbn [concat] in *. rewrite length_app in Hb.
  pose proof (length_op_bytes op) as Hop. cbn [op_loop].
  rewrite decide_False by (simpl length; lia).
  rewrite !decide_False by (rewrite !length_app; destruct (op_del op); lia).
  remember (concat (op_bytes <$> ops)) as tl eqn:Htl.
  assert (Hrec : ∀ cur, cur = len (pre ++ op_bytes op) →
    op_loop fuel ((pre ++ op_bytes op) ++ tl) start (i + len (op :: ops)) (i + 1) cur
    = Ok (Some (op_entries (start + len pre + len (op_bytes op)) ops))).
  { intros cur ->. replace (i + len (op :: ops)) with ((i + 1) + len ops) by (simpl length; lia).
    rewrite IH by (simpl in Hf; lia).
    do 3 f_equal. rewrite length_app. lia. }
  assert (Hlen : len (op_bytes op ++ tl) = len (op_bytes op) + len tl) by len_lia.
  cbn [op_entries]. unfold op_entry. rewrite (app_assoc pre) in *.
  destruct (op_del op) eqn:Hd.
  - rewrite (op_bytes_del op Hd) in *. rewrite <-!app_assoc in *.
    rewrite (sub_slice_app pre [_] _ (len pre)) by len_lia. run_result.
    rewrite !decide_False by len_lia.
    rewrite (app_assoc pre), (sub_slice_app (pre ++ _) _ _ (len pre + 1)) by len_lia. run_result.
    rewrite be_value_be32 by lia. rewrite !decide_False by len_lia.
    rewrite (app_assoc (pre ++ _)), (sub_slice_app ((pre ++ _) ++ _) _ _ (len pre + 1 + 4)) by len_lia. run_result.
    rewrite bool_decide_eq_true_2 by done. rewrite <-!app_assoc. rewrite Hrec by len_lia. done.
  - rewrite (op_bytes_put op Hd) in *. rewrite <-!app_assoc in *.
    rewrite (sub_slice_app pre [_] _ (len pre)) by len_lia. run_result.
    rewrite !decide_False by len_lia.
    rewrite (app_assoc pre), (sub_slice_app (pre ++ _) _ _ (len pre + 1)) by len_lia. run_result.
    rewrite be_value_be32 by lia. rewrite !decide_False by len_lia.
    rewrite (app_assoc (pre ++ _)), (sub_slice_app ((pre ++ _) ++ _) _ _ (len pre + 1 + 4)) by len_lia. run_result.
    rewrite bool_decide_eq_false_2 by done.
    rewrite !decide_False by len_lia.
    rewrite (app_assoc ((pre ++ _) ++ _)), (sub_slice_app (((pre ++ _) ++ _) ++ _) _ _ (len pre + 1 + 4 + len (op_key op))) by len_lia. run_result.
    rewrite be_value_be32 by lia. rewrite !decide_False by len_lia.
    rewrite <-!app_assoc. rewrite Hrec by len_lia. run_result. cbn [fmap option_fmap option_map].
    rewrite i32_small by (unfold is_i32; lia). do 4 f_equal. len_lia.
Qed.

Lemma decode_record_spec pre seq ops post :
  is_u64 seq → wal_fits ops →
  decode_record (pre ++ wal_record seq ops ++ post) (len pre)
  = Ok (Some ({| wr_seq := seq; wr_entries := op_entries (len pre + 20) ops |},
              len pre + len (wal_record seq ops))).
Proof.
  unfold wal_fits. intros Hseq Hf. pose proof (length_wal_record seq ops) as Hlr.
  assert (Hp : wal_payload ops = be32 (len ops) ++ concat (op_bytes <$> ops)) by done.
  pose proof (wal_fits_count ops) as Hc.
  assert (Hlp : len (wal_payload ops) = 4 + len (concat (op_bytes <$> ops))) by (rewrite Hp; len_lia).
  set (P := wal_payload ops) in *. set (body := be64 seq ++ be32 (crc32c P) ++ P).
  assert (Hb : len body = 12 + len P) by (unfold body; len_lia).
  assert (Hd : pre ++ wal_record seq ops ++ post = pre ++ be32 (8 + 4 + len P) ++ body ++ post).
  { unfold wal_record. fold P body. by rewrite <-(app_assoc (be32 _)). }
  assert (Hdl : len (pre ++ be32 (8 + 4 + len P) ++ body ++ post) = len pre + 4 + len body + len post) by len_lia.
  rewrite Hd. clear Hd. unfold decode_record. rewrite Hdl, decide_False by lia.
  rewrite (sub_slice_app pre (be32 (8 + 4 + len P)) _ (len pre)) by len_lia. run_result.
  rewrite be_value_be32 by lia. rewrite decide_False by lia.
  rewrite (app_assoc pre).
  rewrite (sub_slice_app (pre ++ _) body _ (len pre + 4)) by len_lia. run_result.
  rewrite decide_False by lia. rewrite Hb. unfold body.
  rewrite (sub_slice_head (be64 seq)) by len_lia. run_result.
  rewrite (sub_slice_app (be64 seq) (be32 (crc32c P)) _ 8) by len_lia. run_result.
  rewrite (app_assoc (be64 seq)), (sub_slice_end (be64 seq ++ _) P 12) by len_lia. run_result.
  assert (Hcrc : 0 ≤ crc32c P < 2^32) by apply crc32c_range.
  rewrite (be_value_be32 (crc32c P)) by done. rewrite decide_False by (by intros ?).
  rewrite decide_False by len_lia. rewrite Hp at 1.
  rewrite (sub_slice_head (be32 (len ops))) by len_lia. run_result.
  rewrite be_value_be32 by lia. rewrite Hp at 2.
  pose proof (op_loop_spec (S (length P)) (be32 (len ops)) ops (len pre + 4 + 12) 0) as Hl.
  rewrite length_be32, Z.add_0_l in Hl. change (Z.of_nat 4) with 4 in Hl.
  rewrite Hl by lia. run_result. rewrite be_value_be64, u64_small by done.
  rewrite Hlr. replace (len pre + 4 + 12 + 4) with (len pre + 20) by lia.
  replace (len pre + 4 + (8 + 4 + len P)) with (len pre + (16 + len P)) by lia. done.
Qed.

(** ** Lemmas: replay of a whole file *)

Definition wal_commit : Type := Z * list Op.
Definition wal_commit_ok (r : wal_commit) : Prop := is_u64 r.1 ∧ wal_fits r.2.

Definition wal_file (rs : list wal_commit) : bytes := concat ((λ r, wal_record r.1 r.2) <$> rs).

(** What replay makes of the records [rs] of a file, from position [pos]. *)
Fixpoint wal_replay (pos : Z) (rs : list wal_commit) : list pwalRecord :=
  match rs with
  | [] => []
  | (seq, ops) :: rest =>
      {| wr_seq := seq; wr_entries := op_entries (pos + 20) ops |}
      :: wal_replay (pos + len (wal_record seq ops)) rest
  end.

(** An unfinished write: a record without its end. *)
Definition torn_record (b : bytes) : Prop :=
  ∃ seq ops missing, wal_record seq ops = b ++ missing ∧ missing ≠ [] ∧ wal_fits ops.

Lemma wal_file_cons seq ops rs : wal_file ((seq, ops) :: rs) = wal_record seq ops ++ wal_file rs.
Proof. done. Qed.

Lemma wal_file_app a b : wal_file (a ++ b) = wal_file a ++ wal_file b.
Proof. unfold wal_file. by rewrite fmap_app, concat_app. Qed.

Lemma decode_record_end pre : decode_record pre (len pre) = Ok None.
Proof. unfold decode_record. by rewrite decide_True by lia. Qed.

Lemma decode_record_torn pre b : torn_record b → decode_record (pre ++ b) (len pre) = Ok None.
Proof.
  intros (seq & ops & missing & Hr & Hm & Hf). unfold wal_fits in Hf.
  pose proof (length_wal_record seq ops) as Hl. rewrite Hr, length_app in Hl.
  assert (0 < len missing) by (destruct missing; [done|simpl; lia]).
  unfold decode_record. case_decide as Hs; [done|]. rewrite length_app in Hs.
  assert (∃ tl, b = be32 (8 + 4 + len (wal_payload ops)) ++ tl) as [tl ->].
  { unfold wal_record in Hr. exists (drop 4 b). rewrite <-(take_drop 4 b) at 1. f_equal.
    apply (f_equal (take 4)) in Hr. rewrite take_app_length_eq in Hr by (by rewrite length_be32).
    rewrite take_app_le in Hr by lia. done. }
  rewrite (sub_slice_app pre (be32 _) _ (len pre)) by len_lia. run_result.
  rewrite be_value_be32 by lia. rewrite decide_True; [done|].
  revert Hl. rewrite !length_app, length_be32. lia.
Qed.

Lemma decode_loop_spec rs torn pre fuel :
  Forall wal_commit_ok rs → torn = [] ∨ torn_record torn → (length rs < fuel)%nat →
  decode_loop fuel (pre ++ wal_file rs ++ torn) (len pre) = Ok (wal_replay (len pre) rs).
Proof.
  intros Hrs Ht. revert pre fuel. induction Hrs as [|[seq ops] rs [Hs Hf] Hrs IH]; intros pre [|fuel] Hl;
    try (simpl in Hl; lia); cbn [decode_loop].
  - assert (decode_record (pre ++ wal_file [] ++ torn) (len pre) = Ok None) as ->; [|done].
    destruct Ht as [->|Ht]; [|by apply decode_record_torn].
    change (pre ++ wal_file [] ++ []) with (pre ++ []). rewrite app_nil_r. apply decode_record_end.
  - rewrite wal_file_cons, <-app_assoc, decode_record_spec by done. run_result.
    rewrite (app_assoc pre), (app_assoc _ (wal_file rs)).
    replace (len pre + len (wal_record seq ops)) with (len (pre ++ wal_record seq ops)) by len_lia.
    rewrite <-(app_assoc _ (wal_file rs)), IH by (simpl in Hl; lia). run_result. cbn [wal_replay].
    by rewrite length_app, Nat2Z.inj_add.
Qed.

Lemma wal_file_length rs : (length rs ≤ length (wal_file rs))%nat.
Proof.
  induction rs as [|[seq ops] rs IH]; [done|]. rewrite wal_file_cons, length_app.
  pose proof (length_wal_record seq ops). simpl length. lia.
Qed.

Lemma decodePWALShard_spec rs torn :
  Forall wal_commit_ok rs → torn = [] ∨ torn_record torn →
  decodePWALShard (wal_file rs ++ torn) = Ok (wal_replay 0 rs).
Proof.
  intros. unfold decodePWALShard. apply (decode_loop_spec rs torn []); [done..|].
  pose proof (wal_file_length rs). rewrite length_app. lia.
Qed.

(** [e] is what replay keeps of [op]: the key, and for a put the place of the value. *)
Definition entry_of (data : bytes) (e : pwalRecEntry) (op : Op) : Prop :=
  re_key e = op_key op ∧ re_del e = op_del op ∧
  (op_del op = false → 0 ≤ re_fileOff e ∧ re_n e = len (op_val op) ∧
     sub_slice data (re_fileOff e) (re_fileOff e + re_n e) = Ok (op_val op)).

Lemma op_entries_of pre ops post :
  Forall2 (entry_of (pre ++ concat (op_bytes <$> ops) ++ post)) (op_entries (len pre) ops) ops.
Proof.
  revert pre. induction ops as [|op ops IH]; intros pre; [constructor|].
  cbn [op_entries]. rewrite fmap_cons. cbn [concat]. constructor.
  - split_and!; [done..|]. intros Hd. unfold op_entry. cbn [re_fileOff re_n]. rewrite Hd, (op_bytes_put op Hd).
    split_and!; [lia|done|].
    rewrite <-!app_assoc, !(app_assoc pre), !(app_assoc _ _ (op_val op ++ _)).
    apply sub_slice_app; len_lia.
  - specialize (IH (pre ++ op_bytes op)). rewrite length_app, Nat2Z.inj_add in IH.
    by rewrite <-!app_assoc in *.
Qed.

Definition record_of (data : bytes) (r : pwalRecord) (c : wal_commit) : Prop :=
  wr_seq r = c.1 ∧ Forall2 (entry_of data) (wr_entries r) c.2.

Lemma record_of_entries pre seq ops post :
  Forall2 (entry_of (pre ++ wal_record seq ops ++ post)) (op_entries (len pre + 20) ops) ops.
Proof.
  pose proof (op_entries_of (pre ++ be32 (8 + 4 + len (wal_payload ops)) ++ be64 seq
    ++ be32 (crc32c (wal_payload ops)) ++ be32 (len ops)) ops post) as Ho.
  replace (len (pre ++ _ ++ _)) with (len pre + 20) in Ho by len_lia.
  unfold wal_record, wal_payload at 3. by rewrite <-!app_assoc in *.
Qed.

Lemma wal_replay_of pre rs post :
  Forall2 (record_of (pre ++ wal_file rs ++ post)) (wal_replay (len pre) rs) rs.
Proof.
  revert pre. induction rs as [|[seq ops] rs IH]; intros pre; [constructor|].
  cbn [wal_replay]. rewrite wal_file_cons, <-app_assoc. constructor.
  - split; [done|]. apply record_of_entries.
  - specialize (IH (pre ++ wal_record seq ops)). rewrite length_app, Nat2Z.inj_add in IH.
    by rewrite <-!app_assoc in *.
Qed.

(** ** Lemmas: replay never fails *)

Lemma op_loop_total fuel payload start count i cur :
  0 ≤ cur ≤ len payload → len payload - cur < Z.of_nat fuel → is_ok (op_loop fuel payload start count i cur).
Proof.
  revert i cur. induction fuel as [|fuel IH]; intros i cur Hc Hf; cbn [op_loop].
  { exfalso. lia. }
  case_decide; [by eexists|]. case_decide; [by eexists|].
  destruct (sub_slice_ok payload cur (cur + 1)) as (flag & -> & _); [lia..|]. run_result.
  case_decide; [by eexists|].
  destruct (sub_slice_ok payload (cur + 1) (cur + 1 + 4)) as (kl & -> & _); [lia..|]. run_result.
  pose proof (be_value_bound kl). case_decide; [by eexists|].
  destruct (sub_slice_ok payload (cur + 1 + 4) (cur + 1 + 4 + be_value kl)) as (key & -> & _); [lia..|].
  run_result. case_bool_decide.
  - destruct (IH (i + 1) (cur + 1 + 4 + be_value kl)) as [r ->]; [lia..|]. by eexists.
  - case_decide; [by eexists|].
    destruct (sub_slice_ok payload (cur + 1 + 4 + be_value kl) (cur + 1 + 4 + be_value kl + 4))
      as (vl & -> & _); [lia..|]. run_result.
    pose proof (be_value_bound vl). case_decide; [by eexists|].
    destruct (IH (i + 1) (cur + 1 + 4 + be_value kl + 4 + be_value vl)) as [r ->]; [lia..|]. by eexists.
Qed.

Lemma decode_record_total data pos :
  0 ≤ pos → ∃ r, decode_record data pos = Ok r ∧
    match r with Some (_, next) => pos + 4 ≤ next ≤ len data | None => True end.
Proof.
  intros Hp. unfold decode_record. case_decide; [by exists None|].
  destruct (sub_slice_ok data pos (pos + 4)) as (nb & -> & _); [lia..|]. run_result.
  pose proof (be_value_bound nb). case_decide; [by exists None|].
  destruct (sub_slice_ok data (pos + 4) (pos + 4 + be_value nb)) as (buf & -> & Hb); [lia..|]. run_result.
  case_decide; [by exists None|].
  destruct (sub_slice_ok buf 0 8) as (seqb & -> & _); [lia..|]. run_result.
  destruct (sub_slice_ok buf 8 12) as (crcb & -> & _); [lia..|]. run_result.
  destruct (sub_slice_ok buf 12 (len buf)) as (payload & -> & Hpl); [lia..|]. run_result.
  case_decide; [by exists None|]. case_decide; [by exists None|].
  destruct (sub_slice_ok payload 0 4) as (cb & -> & _); [lia..|]. run_result.
  destruct (op_loop_total (S (length payload)) payload (pos + 4 + 12) (be_value cb) 0 4) as [r ->]; [lia..|].
  run_result. eexists. split; [done|]. destruct r; [lia|done].
Qed.

Lemma decode_loop_total fuel data pos :
  0 ≤ pos ≤ len data → len data - pos < Z.of_nat fuel → is_ok (decode_loop fuel data pos).
Proof.
  revert pos. induction fuel as [|fuel IH]; intros pos Hp Hf; cbn [decode_loop].
  { exfalso. lia. }
  destruct (decode_record_total data pos ltac:(lia)) as ([[rec next]|] & -> & Hn); run_result; [|by eexists].
  destruct (IH next) as [rs ->]; [lia..|]. by eexists.
Qed.

(** ** Properties *)

(** C33: replay recovers exactly the finished records. Whatever records were
    written to a shard's file, also when the last write was cut short, replay yields
    the finished ones in order, with their sequence numbers, keys and deletes, and
    for every put the place in the file where its value is. *)
Theorem wal_replay_exact rs b :
  Forall wal_commit_ok rs → b = [] ∨ torn_record b →
  let file := concat ((λ c, (encodePWALRecord c.1 c.2).1) <$> rs) ++ b in
  ∃ recs, decodePWALShard file = Ok recs ∧ Forall2 (record_of file) recs rs.
Proof.
  intros Hrs Hb file. assert (file = wal_file rs ++ b) as ->.
  { unfold file, wal_file. f_equal. f_equal. apply list_fmap_ext. intros i [seq ops] Hi.
    destruct (Forall_lookup_1 _ _ _ _ Hrs Hi) as [_ Hf]. cbn [fst snd].
    by rewrite encodePWALRecord_spec. }
  exists (wal_replay 0 rs). split; [by apply decodePWALShard_spec|]. apply (wal_replay_of []).
Qed.

(** Replay of arbitrary bytes ends without a panic: no slice of the parser is
    ever out of range. *)
Theorem wal_replay_total data : is_ok (decodePWALShard data).
Proof. apply decode_loop_total; lia. Qed.

Definition sample_ops : list Op := [PutOp ["k"%byte] ["v"%byte; "w"%byte]; DelOp ["d"%byte]].

Lemma wal_replay_exact_witness :
  let file := (encodePWALRecord 1 sample_ops).1 ++ take 20 (encodePWALRecord 5 sample_ops).1 in
  ∃ recs, decodePWALShard file = Ok recs ∧ Forall2 (record_of file) recs [(1, sample_ops)].
Proof.
  assert (Hok : wal_fits sample_ops) by (vm_compute; reflexivity).
  pose proof (wal_replay_exact [(1, sample_ops)] (take 20 (encodePWALRecord 5 sample_ops).1)) as Hr.
  cbv zeta in Hr. change (concat _) with ((encodePWALRecord 1 sample_ops).1 ++ []) in Hr.
  rewrite app_nil_r in Hr. apply Hr; [by repeat constructor|]. right.
  exists 5, sample_ops, (drop 20 (wal_record 5 sample_ops)). split_and!; [|by vm_compute|done].
  vm_compute. reflexivity.
Defined.
