(* ===== verification/Pwal.v ===== *)
(** * The sharded write-ahead-log store (internal/ds/pwalstore.go)

    The storage engine of this repository: every commit is one record in one of
    [N] shard files, chosen round-robin; an ordered index keeps for each key the
    shard and the place of its value. Shards are synced by flushers of their own,
    and a contiguous watermark joins their completions.

    Parameters: the ordered index is github.com/google/btree, the class [BTree]
    with its laws. Files are the operating system's: the data, how much of it has
    been synced, and the space left ([File]).

    Callers of [CommitAsync] and the flushers run concurrently. Every critical
    section is a definition of its own: for a caller the check of the first error,
    [nextShard.Add], [stage] under the shard's lock and the update of the index
    under the store's ([co_step] does one of them); for a shard's flusher
    goroutine, the field [sh_flusher], the sync, the report to the watermark and
    the lock under which it takes the next batch or exits. [pwal_CommitAsync] and
    [flush] run them without interruption. *)

From S2P Require Import Prelude.
From S2P Require Import Bytes.
From S2P Require Import Storage.
From S2P Require Import ContigWatermark.
From S2P Require Import Wal.

(** ** The index *)

Record pwalEntry : Type := mkEntry {
  pe_key : bytes; pe_shardIdx : Z; pe_fileOff : Z; pe_n : Z }.

(** [pwalLess] orders entries by key: an ordered set of entries under it holds one
    entry per key. *)
Class BTree (T : Type) := {
  bt_New : T;
  bt_Get : T → bytes → option pwalEntry;
  bt_ReplaceOrInsert : T → pwalEntry → T;
  bt_Delete : T → bytes → T;
  bt_Ascend : T → bytes → option bytes → list pwalEntry }.

(** What google/btree documents. [bt_Ascend] stands for [AscendRange] and, without
    an upper bound, [AscendGreaterOrEqual]. *)
Class BTreeLaws (T : Type) `{BTree T} := {
  bt_view : T → gmap bytes pwalEntry;
  bt_New_view : bt_view bt_New = ∅;
  bt_Get_view t k : bt_Get t k = bt_view t !! k;
  bt_Insert_view t e : bt_view (bt_ReplaceOrInsert t e) = <[pe_key e := e]> (bt_view t);
  bt_Delete_view t k : bt_view (bt_Delete t k) = delete k (bt_view t);
  bt_Ascend_sorted t lo hi : StronglySorted (λ a b, bytes_lt (pe_key a) (pe_key b)) (bt_Ascend t lo hi);
  bt_Ascend_view t lo hi e :
    e ∈ bt_Ascend t lo hi ↔ bt_view t !! pe_key e = Some e ∧ in_range lo hi (pe_key e) }.

(** ** Files *)

Record File : Type := mkFile {
  f_data : bytes;
  f_synced : Z;              (** how much of [f_data] survives a power loss *)
  f_space : option Z;        (** room left on the device, when bounded *)
  f_syncFails : bool }.

(** [f.Write] on a file opened for appending: short when the device is full. *)
Definition file_Write (f : File) (b : bytes) : File * option error :=
  match f_space f with
  | None => (mkFile (f_data f ++ b) (f_synced f) None (f_syncFails f), None)
  | Some room =>
      if decide (len b ≤ room)
      then (mkFile (f_data f ++ b) (f_synced f) (Some (room - len b)) (f_syncFails f), None)
      else (mkFile (f_data f ++ take (Z.to_nat room) b) (f_synced f) (Some 0) (f_syncFails f), Some errIO)
  end.

Definition file_Sync (f : File) : File * option error :=
  if f_syncFails f then (f, Some errIO)
  else (mkFile (f_data f) (len (f_data f)) (f_space f) false, None).

(** [f.ReadAt(buf, off)] with a buffer of [n] bytes, all or an error. *)
Definition file_ReadAt (f : File) (n off : Z) : result bytes :=
  if decide (off < 0) then Err errIO
  else if decide (n = 0) then Ok []
  else if decide (off + n ≤ len (f_data f)) then sub_slice (f_data f) off (off + n)
  else Err errIO.

(** ** Shards *)

(** Where the goroutine of [runFlush] is: at the sync of the file, at [onDurable]
    after it, or at the lock under which it takes what was staged meanwhile. *)
Inductive pflusher : Type := FlSync (seqs : list Z) | FlMark (seqs : list Z) | FlTake.

Record pwalShard : Type := mkShard {
  sh_idx : Z; sh_numShards : Z;
  sh_f : File;
  sh_localSeq : Z;
  sh_writeOffset : Z;
  sh_pending : list Z;
  sh_inFlight : bool;
  sh_flusher : option pflusher }.

Record pwalValueLoc : Type := mkLoc { vl_key : bytes; vl_fileOff : Z; vl_n : Z }.

(** The loop of [stage] over the operations. *)
Definition value_loc (base : Z) (p : Op * (Z * Z)) : option pwalValueLoc :=
  let '(op, (relOff, relLen)) := p in
  if op_del op then None
  else Some {| vl_key := op_key op; vl_fileOff := i64 (base + relOff); vl_n := relLen |}.

Definition stage (sh : pwalShard) (ops : list Op)
  : pwalShard * Z * list pwalValueLoc * option error :=
  let local := sh_localSeq sh in
  let seq := u64 (local * sh_numShards sh + sh_idx sh + 1) in
  let '(rec, rel) := encodePWALRecord seq ops in
  let base := sh_writeOffset sh in
  let '(f, err) := file_Write (sh_f sh) rec in
  let locs := omap (value_loc base) (zip ops rel) in
  let pending := sh_pending sh ++ [seq] in
  let sh' :=
    {| sh_idx := sh_idx sh; sh_numShards := sh_numShards sh; sh_f := f;
       sh_localSeq := u64 (local + 1); sh_writeOffset := i64 (base + len rec);
       sh_pending := if sh_inFlight sh then pending else [];
       sh_inFlight := true;
       sh_flusher := if sh_inFlight sh then sh_flusher sh else Some (FlSync pending) |} in
  (sh', seq, locs, err).

(** The steps of [runFlush]. The sync; one that fails reports nothing durable: *)
Definition flush_sync (sh : pwalShard) : pwalShard * option error :=
  match sh_flusher sh with
  | Some (FlSync seqs) =>
      let '(f, err) := file_Sync (sh_f sh) in
      let next := match err with
                  | Some _ => FlTake
                  | None => if decide (seqs = []) then FlTake else FlMark seqs
                  end in
      ({| sh_idx := sh_idx sh; sh_numShards := sh_numShards sh; sh_f := f;
          sh_localSeq := sh_localSeq sh; sh_writeOffset := sh_writeOffset sh;
          sh_pending := sh_pending sh; sh_inFlight := sh_inFlight sh;
          sh_flusher := Some next |}, err)
  | _ => (sh, None)
  end.

(** [onDurable]: the batch to report. *)
Definition flush_mark (sh : pwalShard) : pwalShard * list Z :=
  match sh_flusher sh with
  | Some (FlMark seqs) =>
      ({| sh_idx := sh_idx sh; sh_numShards := sh_numShards sh; sh_f := sh_f sh;
          sh_localSeq := sh_localSeq sh; sh_writeOffset := sh_writeOffset sh;
          sh_pending := sh_pending sh; sh_inFlight := sh_inFlight sh;
          sh_flusher := Some FlTake |}, seqs)
  | _ => (sh, [])
  end.

(** The lock: the next batch, or the goroutine's exit. *)
Definition flush_take (sh : pwalShard) : pwalShard :=
  match sh_flusher sh with
  | Some FlTake =>
      let idle := bool_decide (sh_pending sh = []) in
      {| sh_idx := sh_idx sh; sh_numShards := sh_numShards sh; sh_f := sh_f sh;
         sh_localSeq := sh_localSeq sh; sh_writeOffset := sh_writeOffset sh;
         sh_pending := []; sh_inFlight := negb idle;
         sh_flusher := if idle then None else Some (FlSync (sh_pending sh)) |}
  | _ => sh
  end.

(** ** The store *)

Record pwalStore (T : Type) : Type := mkPwal {
  ps_shards : list pwalShard;
  ps_nextShard : Z;
  ps_tree : T;
  ps_err : option error;
  ps_wm : contigWatermark }.
Arguments mkPwal {T}. Arguments ps_shards {T}. Arguments ps_nextShard {T}.
Arguments ps_tree {T}. Arguments ps_err {T}. Arguments ps_wm {T}.

(** A loop whose body may return an error. *)
Fixpoint mapM_result {A B} (f : A → result B) (l : list A) : result (list B) :=
  match l with
  | [] => mret []
  | x :: l => y ← f x; ys ← mapM_result f l; mret (y :: ys)
  end.

Section pwal_ops.
  Context {T : Type} `{BTree T}.
  Implicit Types (s : pwalStore T).

(** [setErr]: the first error stays. *)
Definition setErr (err new : option error) : option error :=
  match err with Some e => Some e | None => new end.

Definition readValue (shards : list pwalShard) (e : pwalEntry) : result bytes :=
  if decide (pe_shardIdx e < 0) then Err panicIndex else
  match shards !! Z.to_nat (pe_shardIdx e) with
  | None => Err panicIndex
  | Some sh => file_ReadAt (sh_f sh) (pe_n e) (pe_fileOff e)
  end.

Definition pwal_Get s (key : bytes) : result (option bytes) :=
  match bt_Get (ps_tree s) key with
  | None => Ok None
  | Some e => v ← readValue (ps_shards s) e; mret (Some v)
  end.

(** The index after a batch: a put takes its key's last location. *)
Definition index_op (shardIdx : Z) (byKey : gmap bytes pwalValueLoc) (t : T) (op : Op) : T :=
  if op_del op then bt_Delete t (op_key op)
  else
    let l := default (mkLoc [] 0 0) (byKey !! op_key op) in
    bt_ReplaceOrInsert t (mkEntry (op_key op) shardIdx (vl_fileOff l) (vl_n l)).

Definition loc_map (locs : list pwalValueLoc) : gmap bytes pwalValueLoc :=
  foldl (λ m l, <[vl_key l := l]> m) ∅ locs.

(** The critical sections of [CommitAsync]. [s.nextShard.Add(1)]: *)
Definition pick_shard s : pwalStore T * Z :=
  let next := u64 (ps_nextShard s + 1) in
  ({| ps_shards := ps_shards s; ps_nextShard := next; ps_tree := ps_tree s;
      ps_err := ps_err s; ps_wm := ps_wm s |},
   Z.rem (i64 (u64 (next - 1))) (len (ps_shards s))).

(** [s.shards[shardIdx].stage(ops)], under the shard's lock; no shard of that
    number is a panic. *)
Definition stage_at s (shardIdx : Z) (ops : list Op) : option (pwalStore T * Z * list pwalValueLoc) :=
  if decide (shardIdx < 0) then None else
  match ps_shards s !! Z.to_nat shardIdx with
  | None => None
  | Some sh =>
      let '(sh', seq, locs, err) := stage sh ops in
      Some ({| ps_shards := <[Z.to_nat shardIdx := sh']> (ps_shards s);
               ps_nextShard := ps_nextShard s; ps_tree := ps_tree s;
               ps_err := setErr (ps_err s) err; ps_wm := ps_wm s |}, seq, locs)
  end.

(** The index, under the store's lock. *)
Definition index_batch s (shardIdx : Z) (ops : list Op) (locs : list pwalValueLoc) : pwalStore T :=
  {| ps_shards := ps_shards s; ps_nextShard := ps_nextShard s;
     ps_tree := foldl (index_op shardIdx (loc_map locs)) (ps_tree s) ops;
     ps_err := ps_err s; ps_wm := ps_wm s |}.

(** A caller of [CommitAsync], by the section it is about to enter. *)
Inductive commit_pc : Type :=
| CoCheck (ops : list Op)
| CoPick (ops : list Op)
| CoStage (shardIdx : Z) (ops : list Op)
| CoIndex (shardIdx : Z) (ops : list Op) (seq : Z) (locs : list pwalValueLoc)
| CoDone (ops : list Op) (r : result Z).

Definition co_step s (c : commit_pc) : pwalStore T * commit_pc :=
  match c with
  | CoCheck ops =>
      (s, match ps_err s with Some e => CoDone ops (Err e) | None => CoPick ops end)
  | CoPick ops => let '(s', i) := pick_shard s in (s', CoStage i ops)
  | CoStage i ops =>
      match stage_at s i ops with
      | None => (s, CoDone ops (Err panicIndex))
      | Some (s', seq, locs) => (s', CoIndex i ops seq locs)
      end
  | CoIndex i ops seq locs => (index_batch s i ops locs, CoDone ops (Ok seq))
  | CoDone ops r => (s, CoDone ops r)
  end.

(** A call that nothing interrupts. *)
Definition pwal_CommitAsync s (ops : list Op) : pwalStore T * result Z :=
  match ps_err s with
  | Some e => (s, Err e)
  | None =>
      let '(s, shardIdx) := pick_shard s in
      match stage_at s shardIdx ops with
      | None => (s, Err panicIndex)
      | Some (s, seq, locs) => (index_batch s shardIdx ops locs, Ok seq)
      end
  end.

(** Shard [i]'s flusher does one step, and a round of them. *)
Definition sync_at (i : nat) s : pwalStore T :=
  match ps_shards s !! i with
  | None => s
  | Some sh =>
      let '(sh', err) := flush_sync sh in
      {| ps_shards := <[i := sh']> (ps_shards s); ps_nextShard := ps_nextShard s;
         ps_tree := ps_tree s; ps_err := setErr (ps_err s) err; ps_wm := ps_wm s |}
  end.

Definition mark_at (i : nat) s : pwalStore T :=
  match ps_shards s !! i with
  | None => s
  | Some sh =>
      let '(sh', durable) := flush_mark sh in
      {| ps_shards := <[i := sh']> (ps_shards s); ps_nextShard := ps_nextShard s;
         ps_tree := ps_tree s; ps_err := ps_err s;
         ps_wm := if decide (durable = []) then ps_wm s else mark (ps_wm s) durable |}
  end.

Definition take_at (i : nat) s : pwalStore T :=
  match ps_shards s !! i with
  | None => s
  | Some sh =>
      {| ps_shards := <[i := flush_take sh]> (ps_shards s); ps_nextShard := ps_nextShard s;
         ps_tree := ps_tree s; ps_err := ps_err s; ps_wm := ps_wm s |}
  end.

Definition flush (i : nat) s : pwalStore T := take_at i (mark_at i (sync_at i s)).

Definition pwal_DurableSeq s : result Z :=
  match ps_err s with Some e => Err e | None => Ok (ContigWatermark.get (ps_wm s)) end.

Definition seq_all s : list nat := List.seq 0 (length (ps_shards s)).

(** The loop of [Commit], with one round of every flusher while it sleeps; a loop
    that does not end is [outOfFuel]. *)
Fixpoint await (fuel : nat) (seq : Z) s : pwalStore T * option error :=
  match fuel with
  | O => (s, Some outOfFuel)
  | S fuel =>
      match pwal_DurableSeq s with
      | Err e => (s, Some e)
      | Ok d =>
          if decide (seq ≤ d) then (s, None)
          else await fuel seq (foldr flush s (seq_all s))
      end
  end.

Definition pwal_Commit (fuel : nat) s (ops : list Op) (awaitDurable : bool) : pwalStore T * option error :=
  let '(s', r) := pwal_CommitAsync s ops in
  match r with
  | Err e => (s', Some e)
  | Ok seq => if awaitDurable then await fuel seq s' else (s', None)
  end.

(** The iterator of [Scan] reads each value when it is asked for; the bytes of a
    location never change, so its deliveries are those of reading them at once: up
    to the first value that cannot be read. *)
Fixpoint read_entries (shards : list pwalShard) (es : list pwalEntry) : Iterator :=
  match es with
  | [] => {| it_items := []; it_err := None |}
  | e :: rest =>
      match readValue shards e with
      | Err err => {| it_items := []; it_err := Some err |}
      | Ok v => let it := read_entries shards rest in
                {| it_items := (pe_key e, v) :: it_items it; it_err := it_err it |}
      end
  end.

Definition pwal_Scan s (start : bytes) (end_ : option bytes) : result Iterator :=
  Ok (read_entries (ps_shards s) (bt_Ascend (ps_tree s) start end_)).

(** ** Opening *)

Definition record_le (a b : pwalRecord) : Prop := wr_seq a ≤ wr_seq b.
#[global] Instance record_le_dec : RelDecision record_le.
Proof. intros a b. unfold record_le. apply _. Defined.

(** The shard a sequence number came from, by the bijection of [stage]. *)
Definition seq_shard (shardCount seq : Z) : Z := u64 (seq - 1) mod shardCount.

Definition replay_entry (shardIdx : Z) (t : T) (e : pwalRecEntry) : T :=
  if re_del e then bt_Delete t (re_key e)
  else bt_ReplaceOrInsert t (mkEntry (re_key e) shardIdx (re_fileOff e) (re_n e)).

Definition replay_record (shardCount : Z) (t : T) (r : pwalRecord) : T :=
  foldl (replay_entry (seq_shard shardCount (wr_seq r))) t (wr_entries r).

Definition open_shard (shardCount : Z) (i : nat) (f : File) (recs : list pwalRecord) : pwalShard :=
  {| sh_idx := Z.of_nat i; sh_numShards := shardCount; sh_f := f;
     sh_localSeq := match last recs with
                    | None => 0
                    | Some r => u64 (u64 (wr_seq r - Z.of_nat i - 1) / shardCount + 1)
                    end;
     sh_writeOffset := len (f_data f); sh_pending := []; sh_inFlight := false; sh_flusher := None |}.

(** [disk] has the shard files by number; one that is missing is created. *)
Definition OpenPWALStore (disk : list File) (shardCount : Z) : result (pwalStore T) :=
  let shardCount := if decide (shardCount < 1) then 1 else shardCount in
  let files := (λ i, default (mkFile [] 0 None false) (disk !! i)) <$> List.seq 0 (Z.to_nat shardCount) in
  allByShard ← mapM_result (λ f, decodePWALShard (f_data f)) files;
  let all := merge_sort record_le (concat allByShard) in
  mret {| ps_shards := zip_with (λ i p, open_shard shardCount i p.1 p.2)
                         (List.seq 0 (Z.to_nat shardCount)) (zip files allByShard);
          ps_nextShard := 0;
          ps_tree := foldl (replay_record shardCount) bt_New all;
          ps_err := None;
          ps_wm := mark newContigWatermark (wr_seq <$> concat allByShard) |}.

End pwal_ops.
