(* ===== verification/PwalSpec.v ===== *)
(** * What the sharded write-ahead-log store guarantees

    Callers and flushers run concurrently: a [pool] is the store with the calls that
    were made of it, and [pwal_exec] does one critical section of one of them. The
    theorems are about a store's first lifetime ([pwal_run]): from its creation in an
    empty directory until it is opened again, on a device with room. Then the store
    is one map, in the order in which the calls update the index; no two records
    have the same number; and a crash at any point leaves, shard by shard, a prefix
    of what was written, from which replay rebuilds the surviving batches in the
    order of their numbers; every one the watermark covers survives.

    The two orders can differ when calls overlap: [pwal_overlap_inverts] brings back
    an overwritten value in the first lifetime. A store that is opened again starts
    its round-robin at shard 0 and appends behind a torn record: the closed theorems
    at the end show what is lost then. *)

From S2P Require Import Prelude.
From S2P Require Import Bytes.
From S2P Require Import Storage.
From S2P Require Import ContigWatermark.
From S2P Require Import Wal.
From S2P Require Import Pwal.

(** ** An index: a finite map, ascended in key order *)

Abbreviation treeMap := (gmap bytes (Z * Z * Z)).

Definition tree_entry (p : bytes * (Z * Z * Z)) : pwalEntry :=
  mkEntry p.1 p.2.1.1 p.2.1.2 p.2.2.
Definition tree_val (e : pwalEntry) : Z * Z * Z := (pe_shardIdx e, pe_fileOff e, pe_n e).

Definition tree_le (a b : bytes * (Z * Z * Z)) : Prop := bytes_le a.1 b.1.
#[global] Instance tree_le_dec : RelDecision tree_le.
Proof. intros a b. unfold tree_le. apply _. Defined.
#[global] Instance tree_le_transitive : Transitive tree_le.
Proof. intros a b c. unfold tree_le. apply bytes_le_transitive. Qed.
#[global] Instance tree_le_total : Total tree_le.
Proof. intros a b. unfold tree_le. apply bytes_le_total. Qed.

Definition tree_range (t : treeMap) (lo : bytes) (hi : option bytes) : list (bytes * (Z * Z * Z)) :=
  merge_sort tree_le (filter (λ p, in_range lo hi p.1) (map_to_list t)).

#[global] Instance treeMap_btree : BTree treeMap := {|
  bt_New := ∅;
  bt_Get t k := tree_entry ∘ pair k <$> t !! k;
  bt_ReplaceOrInsert t e := <[pe_key e := tree_val e]> t;
  bt_Delete t k := delete k t;
  bt_Ascend t lo hi := tree_entry <$> tree_range t lo hi |}.

Definition tree_view (t : treeMap) : gmap bytes pwalEntry := map_imap (λ k v, Some (tree_entry (k, v))) t.

Lemma lookup_tree_view t k : tree_view t !! k = tree_entry ∘ pair k <$> t !! k.
Proof. unfold tree_view. rewrite map_lookup_imap. by destruct (t !! k). Qed.

Lemma tree_entry_val e : tree_entry (pe_key e, tree_val e) = e.
Proof. by destruct e. Qed.

Lemma elem_of_tree_range t lo hi p : p ∈ tree_range t lo hi ↔ t !! p.1 = Some p.2 ∧ in_range lo hi p.1.
Proof.
  unfold tree_range. rewrite merge_sort_Permutation, list_elem_of_filter. destruct p as [k v].
  rewrite elem_of_map_to_list. simpl. naive_solver.
Qed.

Lemma tree_range_sorted t lo hi : StronglySorted (λ a b, bytes_lt a.1 b.1) (tree_range t lo hi).
Proof.
  assert (Hnd : NoDup (tree_range t lo hi).*1).
  { unfold tree_range. rewrite merge_sort_Permutation. apply (NoDup_fmap_fst (filter _ _)).
    - intros x y1 y2. rewrite !list_elem_of_filter, !elem_of_map_to_list. intros [_ E1] [_ E2]. congruence.
    - apply NoDup_filter, NoDup_map_to_list. }
  assert (Hs : StronglySorted tree_le (tree_range t lo hi)) by (apply StronglySorted_merge_sort; apply _).
  induction Hs as [|p l Hs IH Hall]; constructor; inversion_clear Hnd as [|?? Hn Hnd'].
  - by apply IH.
  - rewrite Forall_forall in *. intros q Hq. specialize (Hall q Hq). unfold tree_le in Hall.
    rewrite bytes_le_lteq in Hall. destruct Hall as [|Heq]; [done|]. destruct Hn. rewrite Heq.
    by apply list_elem_of_fmap_2.
Qed.

#[local] Obligation Tactic := idtac.

#[global] Program Instance treeMap_laws : BTreeLaws treeMap := {| bt_view := tree_view |}.
Next Obligation. done. Qed.
Next Obligation. intros t k. by rewrite lookup_tree_view. Qed.
Next Obligation.
  intros t e. apply map_eq. intros k. rewrite lookup_tree_view. simpl.
  destruct (decide (pe_key e = k)) as [<-|Hne].
  - rewrite !lookup_insert_eq. simpl. by rewrite tree_entry_val.
  - by rewrite !lookup_insert_ne, lookup_tree_view by done.
Qed.
Next Obligation.
  intros t k. apply map_eq. intros k'. rewrite lookup_tree_view. simpl.
  destruct (decide (k = k')) as [<-|Hne]; [by rewrite !lookup_delete_eq|].
  by rewrite !lookup_delete_ne, lookup_tree_view by done.
Qed.
Next Obligation.
  intros t lo hi. simpl. pose proof (tree_range_sorted t lo hi) as Hs.
  induction Hs as [|p l Hs IH Hall]; cbn [fmap list_fmap]; constructor; [done|].
  rewrite Forall_fmap. done.
Qed.
Next Obligation.
  intros t lo hi e. rewrite lookup_tree_view. simpl. rewrite list_elem_of_fmap. split.
  - intros (p & -> & Hp%elem_of_tree_range). destruct p as [k v]. simpl in *. destruct Hp as [-> ?].
    done.
  - intros [He Hr]. destruct (t !! pe_key e) as [v|] eqn:Hv; [|done]. apply (inj Some) in He.
    exists (pe_key e, v). rewrite elem_of_tree_range. done.
Qed.

(** The files of a store, as the next open finds them after a clean stop. *)
Definition files {T} (s : pwalStore T) : list File := sh_f <$> ps_shards s.

(** A file of which only the first [n] bytes are left. *)
Definition cut_file (n : Z) (f : File) : File :=
  mkFile (take (Z.to_nat n) (f_data f)) (f_synced f) (f_space f) (f_syncFails f).

(** ** The index describes a map *)

Section index.
  Context {T : Type} `{BTreeLaws T}.
  Implicit Types (t : T) (shards : list pwalShard) (m : gmap bytes bytes).

Definition index_ok shards t m : Prop :=
  ∀ k, match m !! k with
       | None => bt_view t !! k = None
       | Some v => ∃ e, bt_view t !! k = Some e ∧ pe_key e = k ∧ readValue shards e = Ok v
       end.

Lemma read_entries_ok shards es kvs :
  Forall2 (λ e p, pe_key e = p.1 ∧ readValue shards e = Ok p.2) es kvs →
  read_entries shards es = {| it_items := kvs; it_err := None |}.
Proof.
  induction 1 as [|e [k v] es kvs [Hk Hv] _ IH]; [done|]. cbn [read_entries]. rewrite Hv, IH.
  simpl in *. by subst.
Qed.

Lemma index_ok_items shards t m lo hi :
  index_ok shards t m →
  ∃ kvs, Forall2 (λ e p, pe_key e = p.1 ∧ readValue shards e = Ok p.2) (bt_Ascend t lo hi) kvs ∧
    range_items m lo hi = kvs.
Proof.
  intros Hi. pose proof (bt_Ascend_view t lo hi) as Hv. pose proof (bt_Ascend_sorted t lo hi) as Hs.
  assert (∃ kvs, Forall2 (λ e p, pe_key e = p.1 ∧ readValue shards e = Ok p.2) (bt_Ascend t lo hi) kvs) as [kvs Hk].
  { assert (Hall : ∀ e, e ∈ bt_Ascend t lo hi → ∃ v, readValue shards e = Ok v).
    { intros e [He _]%Hv. specialize (Hi (pe_key e)). destruct (m !! pe_key e) as [v|]; [|by rewrite Hi in He].
      destruct Hi as (e' & He' & _ & ?). exists v. by simplify_eq. }
    clear Hv Hs. induction (bt_Ascend t lo hi) as [|e es IH]; [by exists []|].
    destruct IH as [kvs ?]; [intros; apply Hall; by constructor|].
    destruct (Hall e) as [v ?]; [by constructor|]. exists ((pe_key e, v) :: kvs). by constructor. }
  exists kvs. split; [done|]. apply range_items_unique.
  - clear Hv. revert Hs. induction Hk as [|e p es kvs [He _] Hk IH]; intros Hs; [constructor|].
    inversion_clear Hs as [|?? Hs' Hlt]. constructor; [by apply IH|].
    rewrite Forall_forall. intros q Hq. unfold kv_lt.
    apply list_elem_of_lookup in Hq as [j Hj]. destruct (Forall2_lookup_r _ _ _ _ _ Hk Hj) as (e' & He' & Hq & _).
    rewrite <-He, <-Hq. by apply (Forall_lookup_1 _ _ _ _ Hlt He').
  - intros k v. split.
    + intros Hin. apply list_elem_of_lookup in Hin as [j Hj].
      destruct (Forall2_lookup_r _ _ _ _ _ Hk Hj) as (e & He & Hek & Hev). simpl in *.
      apply list_elem_of_lookup_2, Hv in He as [He Hr]. rewrite Hek in *. split; [|done].
      specialize (Hi k). destruct (m !! k) as [v'|]; [|congruence].
      destruct Hi as (e' & He' & _ & Hv'). congruence.
    + intros [Hm Hr]. specialize (Hi k). rewrite Hm in Hi. destruct Hi as (e & He & Hek & Hev).
      assert (e ∈ bt_Ascend t lo hi) as Hin by (apply Hv; by rewrite Hek).
      apply list_elem_of_lookup in Hin as [j Hj]. destruct (Forall2_lookup_l _ _ _ _ _ Hk Hj) as ([k' v'] & Hj' & Hk' & Hv').
      simpl in *. apply list_elem_of_lookup. exists j. congruence.
Qed.

(** Files only grow: what could be read still can. *)
Definition grows shards shards' : Prop :=
  ∀ i sh, shards !! i = Some sh → ∃ sh', shards' !! i = Some sh' ∧
    f_data (sh_f sh) `prefix_of` f_data (sh_f sh').

Lemma sub_slice_prefix b b' lo hi v :
  b `prefix_of` b' → sub_slice b lo hi = Ok v → sub_slice b' lo hi = Ok v.
Proof.
  intros [tl ->]. unfold sub_slice. rewrite !go_slice_Ok. intros [? ->].
  split; [rewrite length_app; lia|]. rewrite drop_app_le, take_app_le by (rewrite ?length_drop; lia). done.
Qed.

Lemma readValue_grows shards shards' e v :
  grows shards shards' → readValue shards e = Ok v → readValue shards' e = Ok v.
Proof.
  intros Hg. unfold readValue. case_decide; [done|].
  destruct (shards !! Z.to_nat (pe_shardIdx e)) as [sh|] eqn:Hs; [|done].
  destruct (Hg _ _ Hs) as (sh' & -> & Hp). unfold file_ReadAt. case_decide; [done|]. case_decide; [done|].
  pose proof (prefix_length _ _ Hp). case_decide; [|done]. rewrite decide_True by lia. by apply sub_slice_prefix.
Qed.

Lemma index_ok_grows shards shards' t m : grows shards shards' → index_ok shards t m → index_ok shards' t m.
Proof.
  intros Hg Hi k. specialize (Hi k). destruct (m !! k); [|done].
  destruct Hi as (e & ? & ? & ?). exists e. eauto using readValue_grows.
Qed.

(** The last operation on a key, if there is one. *)
Lemma last_op (ops : list Op) k :
  Forall (λ o, op_key o ≠ k) ops ∨
  ∃ a o b, ops = a ++ o :: b ∧ op_key o = k ∧ Forall (λ o, op_key o ≠ k) b.
Proof.
  induction ops as [|o ops [IH|(a & o' & b & -> & ? & ?)]]; [by left| |].
  - destruct (decide (op_key o = k)); [right; by exists [], o, ops|left; by constructor].
  - right. by exists (o :: a), o', b.
Qed.

(** Replay of one record. *)
Lemma replay_entries_untouched i t (es : list pwalRecEntry) k :
  Forall (λ e, re_key e ≠ k) es → bt_view (foldl (replay_entry i) t es) !! k = bt_view t !! k.
Proof.
  intros Hes. revert t. induction Hes as [|e es He Hes IH]; intros t; [done|]. cbn [foldl]. rewrite IH.
  unfold replay_entry. destruct (re_del e).
  - by rewrite bt_Delete_view, lookup_delete_ne.
  - by rewrite bt_Insert_view, lookup_insert_ne.
Qed.

Lemma replay_entries_ok shards (i : nat) sh t m es ops :
  shards !! i = Some sh → Forall2 (entry_of (f_data (sh_f sh))) es ops → index_ok shards t m →
  index_ok shards (foldl (replay_entry (Z.of_nat i)) t es) (apply_ops m ops).
Proof.
  intros Hsh Hes Hi k. destruct (last_op ops k) as [Hno|(a & o & b & -> & Hk & Hb)].
  - rewrite apply_ops_lookup_ne by done. specialize (Hi k).
    rewrite replay_entries_untouched; [done|].
    eapply Forall2_Forall_l; [done|]. eapply Forall_impl; [exact Hno|]. by intros o Ho e (-> & _).
  - rewrite apply_ops_lookup_last by done.
    apply Forall2_app_inv_r in Hes as (ea & eb' & Ha & Hb' & ->).
    apply Forall2_cons_inv_r in Hb' as (e & eb & (Hek & Hed & Hev) & Heb & ->).
    rewrite foldl_app. cbn [foldl].
    assert (Hu : ∀ t, bt_view (foldl (replay_entry (Z.of_nat i)) t eb) !! k = bt_view t !! k).
    { intros t'. apply replay_entries_untouched. eapply Forall2_Forall_l; [done|].
      eapply Forall_impl; [exact Hb|]. by intros ? ? ? (-> & _). }
    generalize (foldl (replay_entry (Z.of_nat i)) t ea). intros t1. destruct (op_del o).
    + rewrite Hu. unfold replay_entry. by rewrite Hed, bt_Delete_view, Hek, Hk, lookup_delete_eq.
    + destruct (Hev eq_refl) as (Hoff & Hn & Hs). eexists. rewrite Hu. unfold replay_entry.
      rewrite Hed, bt_Insert_view. cbn [pe_key].
      rewrite Hek, Hk, lookup_insert_eq. split_and!; [done|done|].
      unfold readValue. cbn [pe_shardIdx pe_n pe_fileOff]. rewrite decide_False, Nat2Z.id, Hsh by lia.
      unfold file_ReadAt. rewrite decide_False by lia. case_decide as H0n.
      * rewrite Hn in H0n. destruct (op_val o); [done|simpl in H0n; lia].
      * rewrite decide_True; [done|]. unfold sub_slice in Hs. apply go_slice_Ok in Hs. lia.
Qed.

(** A commit. [es] are the places of its operations' values. *)
Lemma index_op_untouched i locs t ops k :
  Forall (λ o, op_key o ≠ k) ops → bt_view (foldl (index_op i locs) t ops) !! k = bt_view t !! k.
Proof.
  intros Hops. revert t. induction Hops as [|o ops Ho Hops IH]; intros t; [done|]. cbn [foldl]. rewrite IH.
  unfold index_op. destruct (op_del o).
  - by rewrite bt_Delete_view, lookup_delete_ne.
  - by rewrite bt_Insert_view, lookup_insert_ne.
Qed.

Lemma loc_map_untouched (lm : gmap bytes pwalValueLoc) locs k :
  Forall (λ l, vl_key l ≠ k) locs → foldl (λ lm l, <[vl_key l := l]> lm) lm locs !! k = lm !! k.
Proof.
  intros Hl. revert lm. induction Hl as [|l locs Hk Hl IH]; intros lm; [done|]. cbn [foldl].
  by rewrite IH, lookup_insert_ne.
Qed.

Lemma value_locs_keys base ops rels k :
  Forall (λ o, op_key o ≠ k) ops → Forall (λ l, vl_key l ≠ k) (omap (value_loc base) (zip ops rels)).
Proof.
  intros Ho. revert rels. induction Ho as [|o ops Hk Ho IH]; intros [|[r1 r2] rels]; [constructor..|].
  cbn [zip zip_with omap list_omap]. unfold value_loc at 1. destruct (op_del o); [apply IH|].
  by constructor; [|apply IH].
Qed.

Lemma index_commit_ok shards (i : nat) sh t m base es ops rels :
  shards !! i = Some sh → Forall2 (entry_of (f_data (sh_f sh))) es ops → index_ok shards t m →
  Forall2 (λ r e, re_del e = false → i64 (base + r.1) = re_fileOff e ∧ r.2 = re_n e) rels es →
  index_ok shards
    (foldl (index_op (Z.of_nat i) (loc_map (omap (value_loc base) (zip ops rels)))) t ops) (apply_ops m ops).
Proof.
  intros Hsh Hes Hi Hrels k. destruct (last_op ops k) as [Hno|(a & o & b & -> & Hk & Hb)].
  - rewrite apply_ops_lookup_ne, index_op_untouched by done. apply Hi.
  - rewrite apply_ops_lookup_last by done. rewrite foldl_app. cbn [foldl].
    set (locs := loc_map _). generalize (foldl (index_op (Z.of_nat i) locs) t a). intros t1.
    rewrite index_op_untouched by done. unfold index_op. destruct (op_del o) eqn:Hd.
    { by rewrite bt_Delete_view, Hk, lookup_delete_eq. }
    apply Forall2_app_inv_r in Hes as (ea & eb' & Ha & Hb' & ->).
    apply Forall2_cons_inv_r in Hb' as (e & eb & (Hek & Hed & Hev) & Heb & ->).
    apply Forall2_app_inv_r in Hrels as (ra & rb' & Hra & Hrb' & ->).
    apply Forall2_cons_inv_r in Hrb' as (r & rb & Hr & Hrb & ->).
    rewrite Hd in Hed. destruct (Hr Hed) as [Hr1 Hr2]. destruct (Hev Hd) as (Hoff & Hn & Hs).
    assert (Hloc : locs !! k = Some (mkLoc k (re_fileOff e) (re_n e))).
    { unfold locs, loc_map. rewrite zip_with_app by (by rewrite <-(Forall2_length _ _ _ Ha), (Forall2_length _ _ _ Hra)).
      rewrite omap_app, foldl_app. cbn [zip zip_with omap list_omap].
      unfold value_loc at 2. destruct r as [r1 r2]. simpl in Hr1, Hr2. rewrite Hd. cbn [foldl].
      rewrite loc_map_untouched by (by apply value_locs_keys). cbn [vl_key].
      rewrite Hk, lookup_insert_eq. by rewrite Hr1, Hr2. }
    eexists. rewrite bt_Insert_view. cbn [pe_key]. rewrite Hk, lookup_insert_eq.
    split_and!; [done|done|]. rewrite Hloc.
    unfold readValue. cbn [pe_shardIdx pe_n pe_fileOff default id from_option vl_fileOff vl_n].
    rewrite decide_False, Nat2Z.id, Hsh by lia.
    unfold file_ReadAt. rewrite decide_False by lia. case_decide as H0n.
    + rewrite Hn in H0n. destruct (op_val o); [done|simpl in H0n; lia].
    + rewrite decide_True; [done|]. unfold sub_slice in Hs. apply go_slice_Ok in Hs. lia.
Qed.

End index.

(** ** Histories *)

(** Of the records staged, those of shard [i] of [N]. *)
Definition shard_hist (N : Z) (i : nat) (staged : list wal_commit) : list wal_commit :=
  filter (λ c : wal_commit, (c.1 - 1) mod N = Z.of_nat i) staged.

Definition seq_lt (a b : wal_commit) : Prop := a.1 < b.1.
Definition seq_le (a b : wal_commit) : Prop := a.1 ≤ b.1.
#[global] Instance seq_le_dec : RelDecision seq_le.
Proof. intros a b. unfold seq_le. apply _. Defined.

(** A batch has an operation on key [k]. *)
Definition touches (k : bytes) (c : wal_commit) : Prop := Exists (λ o, op_key o = k) c.2.
#[global] Instance touches_dec k c : Decision (touches k c).
Proof. unfold touches. apply _. Defined.

Lemma shard_hist_snoc N i staged c :
  shard_hist N i (staged ++ [c]) =
    shard_hist N i staged ++ (if decide ((c.1 - 1) mod N = Z.of_nat i) then [c] else []).
Proof. unfold shard_hist. rewrite filter_app, filter_cons. by rewrite filter_nil. Qed.

Lemma elem_of_shard_hist N i staged c :
  c ∈ shard_hist N i staged ↔ (c.1 - 1) mod N = Z.of_nat i ∧ c ∈ staged.
Proof. unfold shard_hist. by rewrite list_elem_of_filter. Qed.

Lemma wal_file_snoc rs seq ops : wal_file (rs ++ [(seq, ops)]) = wal_file rs ++ wal_record seq ops.
Proof. rewrite wal_file_app. unfold wal_file at 2. cbn [fmap list_fmap concat]. by rewrite app_nil_r. Qed.

Lemma shard_hist_le N i staged : len (wal_file (shard_hist N i staged)) ≤ len (wal_file staged).
Proof.
  unfold shard_hist. induction staged as [|[seq ops] l IH]; [done|]. rewrite filter_cons.
  case_decide; rewrite ?wal_file_cons, ?length_app, ?Nat2Z.inj_add; lia.
Qed.

Lemma hist_bound staged : 16 * len staged ≤ len (wal_file staged).
Proof.
  induction staged as [|[q ops] l IH]; [done|].
  rewrite wal_file_cons, length_app. pose proof (length_wal_record q ops). cbn [length]. lia.
Qed.

Lemma seq_sorted_unique l l' : StronglySorted seq_lt l → StronglySorted seq_lt l' → l ≡ₚ l' → l = l'.
Proof. intros ?? Hp. apply (StronglySorted_unique_strong seq_lt); [|done..]. unfold seq_lt. lia. Qed.

Lemma seq_le_lt l : StronglySorted seq_le l → NoDup l.*1 → StronglySorted seq_lt l.
Proof.
  induction 1 as [|c l Hs IH Hall]; intros Hnd; [constructor|]. inversion_clear Hnd as [|?? Hn Hnd'].
  constructor; [by apply IH|]. rewrite Forall_forall in *. intros d Hd. specialize (Hall d Hd).
  unfold seq_lt, seq_le in *. assert (c.1 ≠ d.1); [|lia]. intros E. apply Hn. rewrite E.
  by apply list_elem_of_fmap_2.
Qed.

Lemma seq_sorted_filter (P : wal_commit → Prop) `{∀ x, Decision (P x)} ks :
  StronglySorted seq_lt ks → StronglySorted seq_lt (filter P ks).
Proof.
  induction 1 as [|x l Hs IH Hall]; [constructor|]. rewrite filter_cons. case_decide; [|done].
  constructor; [done|]. rewrite Forall_forall in *. intros y [_ Hy]%list_elem_of_filter. by apply Hall.
Qed.

(** Only the batches with an operation on a key decide its value. *)
Lemma apply_op_congr (m m' : gmap bytes bytes) o k : m !! k = m' !! k → apply_op m o !! k = apply_op m' o !! k.
Proof.
  intros Hm. unfold apply_op. destruct (op_del o), (decide (op_key o = k)) as [<-|].
  - by rewrite !lookup_delete_eq.
  - by rewrite !lookup_delete_ne.
  - by rewrite !lookup_insert_eq.
  - by rewrite !lookup_insert_ne.
Qed.

Lemma apply_ops_congr (m m' : gmap bytes bytes) ops k :
  m !! k = m' !! k → apply_ops m ops !! k = apply_ops m' ops !! k.
Proof.
  revert m m'. induction ops as [|o ops IH]; intros m m' Hm; [done|]. rewrite !apply_ops_cons.
  by apply IH, apply_op_congr.
Qed.

Lemma apply_touching (l : list wal_commit) (k : bytes) (m : gmap bytes bytes) :
  apply_ops m (concat l.*2) !! k = apply_ops m (concat (filter (touches k) l).*2) !! k.
Proof.
  revert m. induction l as [|c l IH]; intros m; [done|]. rewrite filter_cons, fmap_cons. cbn [concat].
  rewrite apply_ops_app. case_decide as Ht.
  - rewrite fmap_cons. cbn [concat]. by rewrite apply_ops_app.
  - rewrite IH. apply apply_ops_congr, apply_ops_lookup_ne. unfold touches in Ht.
    rewrite Forall_forall. intros o Ho Hk. apply Ht, Exists_exists. by exists o.
Qed.

Lemma entry_of_prefix data data' e op : data `prefix_of` data' → entry_of data e op → entry_of data' e op.
Proof.
  intros Hp (Hk & Hd & Hv). split_and!; [done..|]. intros Hop. destruct (Hv Hop) as (? & ? & ?).
  split_and!; [done..|]. by eapply sub_slice_prefix.
Qed.

(** ** A store and its callers *)

(** What can happen: a call of [CommitAsync], one critical section of a call, one
    step of a shard's flusher, a file whose syncs start to fail. *)
Inductive pwal_event : Type :=
| PeCall (ops : list Op) | PeStep (c : nat)
| PeSync (i : nat) | PeMark (i : nat) | PeTake (i : nat) | PeFault (i : nat).

(** The store and its calls, with two logs: the records in the order they were
    staged, and the calls in the order they updated the index. *)
Record pool (T : Type) : Type := mkPool {
  pw_store : pwalStore T;
  pw_calls : list commit_pc;
  pw_staged : list wal_commit;
  pw_indexed : list (nat * wal_commit) }.
Arguments mkPool {T}. Arguments pw_store {T}. Arguments pw_calls {T}.
Arguments pw_staged {T}. Arguments pw_indexed {T}.

Definition new_staged (c c' : commit_pc) : list wal_commit :=
  match c, c' with CoStage _ _, CoIndex _ ops seq _ => [(seq, ops)] | _, _ => [] end.
Definition new_indexed (n : nat) (c : commit_pc) : list (nat * wal_commit) :=
  match c with CoIndex _ ops seq _ => [(n, (seq, ops))] | _ => [] end.

(** A record that is staged and not yet in the index; a call about to stage on
    shard [i]; a call that has returned. *)
Definition unindexed (c : commit_pc) : option wal_commit :=
  match c with CoIndex _ ops seq _ => Some (seq, ops) | _ => None end.
Definition staging (i : nat) (c : commit_pc) : bool :=
  match c with CoStage j _ => bool_decide (j = Z.of_nat i) | _ => false end.
Definition returned (c : commit_pc) : Prop := ∃ ops r, c = CoDone ops r.

(** The sequence numbers a flusher is about to report, and those that wait for
    its report. *)
Definition marking (sh : pwalShard) : list Z :=
  match sh_flusher sh with Some (FlMark seqs) => seqs | _ => [] end.
Definition taken_seqs (fl : option pflusher) : list Z :=
  match fl with Some (FlSync seqs) => seqs | Some (FlMark seqs) => seqs | _ => [] end.
Definition waiting (sh : pwalShard) : list Z := taken_seqs (sh_flusher sh) ++ sh_pending sh.

(** *** The invariant of a shard *)

Record shard_inv (N : Z) (staged : list wal_commit) (M : gset Z) (ok : Prop) (i : nat) (sh : pwalShard) : Prop := {
  si_idx : sh_idx sh = Z.of_nat i;
  si_num : sh_numShards sh = N;
  si_data : f_data (sh_f sh) = wal_file (shard_hist N i staged);
  si_space : f_space (sh_f sh) = None;
  si_off : sh_writeOffset sh = len (f_data (sh_f sh));
  si_local : sh_localSeq sh = len (shard_hist N i staged);
  si_seqs : (shard_hist N i staged).*1 = (λ k, k * N + Z.of_nat i + 1) <$> seqZ 0 (len (shard_hist N i staged));
  si_queue : ∀ q, q ∈ waiting sh → q ∈ (shard_hist N i staged).*1;
  si_synced : ∃ m, f_synced (sh_f sh) = len (wal_file (take m (shard_hist N i staged))) ∧
    ∀ c, c ∈ shard_hist N i staged → c.1 ∈ M ∨ c.1 ∈ marking sh → c ∈ take m (shard_hist N i staged);
  si_waiting : ok → ∀ q, q ∈ (shard_hist N i staged).*1 → q ∈ M ∨ q ∈ waiting sh;
  si_flight : sh_inFlight sh = bool_decide (is_Some (sh_flusher sh));
  si_idle : sh_flusher sh = None → sh_pending sh = [] }.

Lemma elem_of_shard_seqs N i (h : list wal_commit) q :
  h.*1 = (λ k, k * N + i + 1) <$> seqZ 0 (len h) →
  q ∈ h.*1 ↔ ∃ k, q = k * N + i + 1 ∧ 0 ≤ k < len h.
Proof. intros ->. rewrite list_elem_of_fmap. setoid_rewrite elem_of_seqZ. simpl. naive_solver lia. Qed.

Lemma marking_waiting sh q : q ∈ marking sh → q ∈ waiting sh.
Proof.
  unfold marking, waiting, taken_seqs. destruct (sh_flusher sh) as [[]|]; try (by intros ?%elem_of_nil).
  intros. by apply elem_of_app; left.
Qed.

Lemma local_unique N l i k : 1 ≤ N → 0 ≤ i < N → k ≤ l * N + i < k + N → k mod N = i → l * N + i = k.
Proof.
  intros HN Hi Hl Hk. pose proof (Z.div_mod k N ltac:(lia)) as Hd.
  assert (l = k / N) as ->; [|lia]. nia.
Qed.

(** A record of another shard. *)
Lemma shard_inv_other N staged M ok i sh c :
  shard_inv N staged M ok i sh → (c.1 - 1) mod N ≠ Z.of_nat i → shard_inv N (staged ++ [c]) M ok i sh.
Proof.
  intros [] Hm. assert (Hs : shard_hist N i (staged ++ [c]) = shard_hist N i staged)
    by (rewrite shard_hist_snoc, decide_False by done; apply app_nil_r).
  by split; rewrite ?Hs.
Qed.

(** *** Staging *)

Lemma entries_of_record f rs seq ops :
  f = wal_file (rs ++ [(seq, ops)]) →
  Forall2 (entry_of f) (op_entries (len (wal_file rs) + 20) ops) ops.
Proof.
  intros ->. rewrite wal_file_snoc, <-(app_nil_r (wal_record seq ops)). apply record_of_entries.
Qed.

Lemma op_entries_rels base ops :
  0 ≤ base → base + 20 + len (concat (op_bytes <$> ops)) < 2^63 →
  Forall2 (λ r e, re_del e = false → i64 (base + r.1) = re_fileOff e ∧ r.2 = re_n e)
    ((λ e, (re_fileOff e, re_n e)) <$> op_entries 20 ops) (op_entries (base + 20) ops).
Proof.
  intros Hb. cut (∀ pos, 0 ≤ pos → base + pos + len (concat (op_bytes <$> ops)) < 2^63 →
    Forall2 (λ r e, re_del e = false → i64 (base + r.1) = re_fileOff e ∧ r.2 = re_n e)
    ((λ e, (re_fileOff e, re_n e)) <$> op_entries pos ops) (op_entries (base + pos) ops)).
  { intros Hc ?. apply Hc; lia. }
  induction ops as [|op ops IH]; intros pos Hp Hl; [constructor|].
  rewrite fmap_cons in Hl. cbn [concat] in Hl. rewrite length_app, Nat2Z.inj_add, length_op_bytes in Hl.
  cbn [op_entries fmap list_fmap]. constructor.
  - unfold op_entry. cbn [re_del re_fileOff re_n fst snd]. intros Hd. rewrite Hd in *.
    rewrite i64_small by (unfold is_i64; lia). split; [lia|done].
  - rewrite <-Z.add_assoc. apply IH; [lia|]. rewrite length_op_bytes. lia.
Qed.

(** The values of [ops] can be read at [locs] in shard [i]. *)
Definition located (shards : list pwalShard) (i : Z) (ops : list Op) (locs : list pwalValueLoc) : Prop :=
  ∃ sh base es rels, 0 ≤ i ∧ shards !! Z.to_nat i = Some sh ∧
    Forall2 (entry_of (f_data (sh_f sh))) es ops ∧
    Forall2 (λ r e, re_del e = false → i64 (base + r.1) = re_fileOff e ∧ r.2 = re_n e) rels es ∧
    locs = omap (value_loc base) (zip ops rels).

Lemma located_grows shards shards' i ops locs :
  grows shards shards' → located shards i ops locs → located shards' i ops locs.
Proof.
  intros Hg (sh & base & es & rels & Hi & Hsh & He & Hr & Hl).
  destruct (Hg _ _ Hsh) as (sh' & Hsh' & Hp). exists sh', base, es, rels. split_and!; [done..| |done|done].
  eapply Forall2_impl; [exact He|]. intros. by eapply entry_of_prefix.
Qed.

Lemma grows_insert (l : list pwalShard) i sh sh' :
  l !! i = Some sh → f_data (sh_f sh) `prefix_of` f_data (sh_f sh') → grows l (<[i:=sh']> l).
Proof.
  intros Hi Hp j shj Hj. destruct (decide (i = j)) as [<-|Hne].
  - simplify_eq. exists sh'. rewrite list_lookup_insert_eq by (by eapply lookup_lt_Some). done.
  - exists shj. rewrite list_lookup_insert_ne by done. by split.
Qed.

(** What [stage] returns. *)
Lemma stage_spec N staged M ok i sh ops :
  shard_inv N staged M ok i sh → 1 ≤ N → wal_fits ops →
  let seq := len (shard_hist N i staged) * N + Z.of_nat i + 1 in
  seq < 2^63 → len (wal_file (shard_hist N i staged ++ [(seq, ops)])) < 2^62 →
  ∃ sh' rels, stage sh ops = (sh', seq, omap (value_loc (len (f_data (sh_f sh)))) (zip ops rels), None) ∧
    sh' = {| sh_idx := sh_idx sh; sh_numShards := sh_numShards sh;
             sh_f := mkFile (f_data (sh_f sh) ++ wal_record seq ops) (f_synced (sh_f sh)) None (f_syncFails (sh_f sh));
             sh_localSeq := sh_localSeq sh + 1;
             sh_writeOffset := len (f_data (sh_f sh) ++ wal_record seq ops);
             sh_pending := if sh_inFlight sh then sh_pending sh ++ [seq] else []; sh_inFlight := true;
             sh_flusher := if sh_inFlight sh then sh_flusher sh else Some (FlSync (sh_pending sh ++ [seq])) |} ∧
    Forall2 (entry_of (f_data (sh_f sh'))) (op_entries (len (f_data (sh_f sh)) + 20) ops) ops ∧
    Forall2 (λ r e, re_del e = false → i64 (len (f_data (sh_f sh)) + r.1) = re_fileOff e ∧ r.2 = re_n e)
      rels (op_entries (len (f_data (sh_f sh)) + 20) ops).
Proof.
  intros [Hidx Hnum Hdata Hspace Hoff Hlocal Hseqs _ _ _ _ _] HN Hf seq Hseq Hb.
  pose proof (hist_bound (shard_hist N i staged ++ [(seq, ops)])) as Hhb. rewrite length_app in Hhb. cbn [length] in Hhb.
  rewrite wal_file_snoc, <-Hdata, length_app in Hb.
  pose proof (length_wal_record seq ops) as Hlr.
  assert (Hpl : len (wal_payload ops) = 4 + len (concat (op_bytes <$> ops))).
  { unfold wal_payload. rewrite length_app, length_be32. lia. }
  assert (0 ≤ len (shard_hist N i staged) * N) by nia.
  unfold stage. rewrite Hnum, Hidx, Hlocal. fold seq. rewrite (u64_small seq) by (unfold is_u64, seq in *; lia).
  rewrite encodePWALRecord_spec by done. unfold file_Write. rewrite Hspace, Hoff.
  rewrite (u64_small (_ + 1)) by (unfold is_u64; rewrite wal_file_snoc, <-Hdata, length_app in Hhb; lia).
  rewrite (i64_small (_ + _)) by (unfold is_i64; lia).
  rewrite <-Nat2Z.inj_add, <-length_app.
  eexists _, _. split; [done|]. cbn [sh_f f_data]. split_and!; [done| |].
  - rewrite Hdata, <-wal_file_snoc. by eapply entries_of_record.
  - apply op_entries_rels; lia.
Qed.

Lemma stage_ok N staged M ok i sh ops :
  shard_inv N staged M ok i sh → 1 ≤ N → Z.of_nat i < N → wal_fits ops →
  let seq := len (shard_hist N i staged) * N + Z.of_nat i + 1 in
  seq < 2^63 → len (wal_file (staged ++ [(seq, ops)])) < 2^62 →
  (∀ q, q ∈ M → q ∈ staged.*1) → seq ∉ staged.*1 →
  ∃ sh' locs, stage sh ops = (sh', seq, locs, None) ∧ shard_inv N (staged ++ [(seq, ops)]) M ok i sh' ∧
    f_data (sh_f sh) `prefix_of` f_data (sh_f sh') ∧ f_syncFails (sh_f sh') = f_syncFails (sh_f sh) ∧
    ∀ shards, shards !! i = Some sh' → located shards (Z.of_nat i) ops locs.
Proof.
  intros Hsi HN HiN Hf seq Hseq Hb HM Hfresh.
  assert (Hsnoc : shard_hist N i (staged ++ [(seq, ops)]) = shard_hist N i staged ++ [(seq, ops)]).
  { rewrite shard_hist_snoc, decide_True; [done|]. cbn [fst]. unfold seq.
    replace (_ * N + _ + 1 - 1) with (Z.of_nat i + len (shard_hist N i staged) * N) by lia.
    rewrite Z_mod_plus_full. apply Z.mod_small. lia. }
  pose proof (shard_hist_le N i (staged ++ [(seq, ops)])) as Hsl. rewrite Hsnoc in Hsl.
  destruct (stage_spec N staged M ok i sh ops Hsi HN Hf) as (sh' & rels & Hst & Hsh' & He & Hr); [done|fold seq; lia|].
  fold seq in Hst, Hsh'. eexists sh', _. split; [exact Hst|].
  assert (Hmem : ∀ q, q ∈ (shard_hist N i staged).*1 → q ∈ staged.*1).
  { intros q (c & -> & [_ Hc]%elem_of_shard_hist)%list_elem_of_fmap. by apply list_elem_of_fmap_2. }
  destruct Hsi as [Hidx Hnum Hdata Hspace Hoff Hlocal Hseqs Hqueue Hsync Hwait Hfl Hidle].
  assert (Hfl' : sh_inFlight sh = match sh_flusher sh with Some _ => true | None => false end).
  { rewrite Hfl. by destruct (sh_flusher sh). }
  assert (Hw : ∀ q, q ∈ waiting sh' ↔ q ∈ waiting sh ∨ q = seq).
  { intros q. rewrite Hsh'. unfold waiting. cbn [sh_flusher sh_pending]. rewrite Hfl'.
    destruct (sh_flusher sh) as [fl|]; cbn [taken_seqs]; set_solver. }
  assert (Hmk : marking sh' = marking sh).
  { rewrite Hsh'. unfold marking. cbn [sh_flusher]. rewrite Hfl'. by destruct (sh_flusher sh). }
  split_and!.
  - split; rewrite ?Hsnoc.
    + by rewrite Hsh'.
    + by rewrite Hsh'.
    + rewrite Hsh', wal_file_snoc. cbn [sh_f f_data]. by rewrite Hdata.
    + by rewrite Hsh'.
    + by rewrite Hsh'.
    + rewrite length_app, Hsh'. cbn [sh_localSeq length]. lia.
    + rewrite fmap_app, length_app, Hseqs. cbn [fmap list_fmap length fst].
      replace (Z.of_nat (_ + 1)) with (len (shard_hist N i staged) + 1) by lia.
      rewrite seqZ_app, fmap_app by lia. f_equal.
    + intros q. rewrite Hw, fmap_app, elem_of_app. intros [?| ->]; [left; auto|right]. simpl. set_solver.
    + destruct Hsync as (m & Hms & Hmd). exists (m `min` length (shard_hist N i staged))%nat.
      rewrite take_app_le by lia. rewrite <-take_take, (firstn_all (shard_hist N i staged)).
      rewrite Hsh' at 1. split; [done|]. rewrite Hmk. intros c [Hc|Hc]%elem_of_app Hin; [by apply Hmd|].
      apply list_elem_of_singleton in Hc as ->. cbn [fst] in Hin. exfalso. apply Hfresh.
      destruct Hin as [?|?%marking_waiting]; auto.
    + intros Hok q. rewrite Hw, fmap_app, elem_of_app. intros [Hq|Hq].
      * destruct (Hwait Hok q Hq); auto.
      * simpl in Hq. right. right. set_solver.
    + rewrite Hsh'. cbn [sh_inFlight sh_flusher]. rewrite Hfl'. destruct (sh_flusher sh) as [fl|];
        symmetry; apply bool_decide_eq_true_2; by eexists.
    + rewrite Hsh'. cbn [sh_flusher sh_pending]. rewrite Hfl'. by destruct (sh_flusher sh).
  - rewrite Hsh'. by eexists.
  - by rewrite Hsh'.
  - intros shards Hi. exists sh', (len (f_data (sh_f sh))), (op_entries (len (f_data (sh_f sh)) + 20) ops), rels.
    rewrite Nat2Z.id. split_and!; [lia|done..].
Qed.

(** *** The invariant of a first lifetime *)

Definition call_ok (N : Z) (shards : list pwalShard) (c : commit_pc) : Prop :=
  match c with
  | CoCheck ops | CoPick ops => wal_fits ops
  | CoStage i ops => 0 ≤ i < N ∧ wal_fits ops
  | CoIndex i ops _ locs => located shards i ops locs
  | CoDone _ _ => True
  end.

Section lifetime.
  Context {T : Type} `{BTreeLaws T}.
  Implicit Types (s : pwalStore T) (w : pool T).

Definition with_store w s : pool T := mkPool s (pw_calls w) (pw_staged w) (pw_indexed w).

Definition fail_sync (i : nat) s : pwalStore T :=
  {| ps_shards := alter (λ sh, mkShard (sh_idx sh) (sh_numShards sh)
         (mkFile (f_data (sh_f sh)) (f_synced (sh_f sh)) (f_space (sh_f sh)) true)
         (sh_localSeq sh) (sh_writeOffset sh) (sh_pending sh) (sh_inFlight sh) (sh_flusher sh)) i (ps_shards s);
     ps_nextShard := ps_nextShard s; ps_tree := ps_tree s; ps_err := ps_err s; ps_wm := ps_wm s |}.

Definition pwal_exec w (e : pwal_event) : pool T :=
  match e with
  | PeCall ops => mkPool (pw_store w) (pw_calls w ++ [CoCheck ops]) (pw_staged w) (pw_indexed w)
  | PeStep n =>
      match pw_calls w !! n with
      | None => w
      | Some c =>
          let '(s, c') := co_step (pw_store w) c in
          mkPool s (<[n := c']> (pw_calls w)) (pw_staged w ++ new_staged c c') (pw_indexed w ++ new_indexed n c)
      end
  | PeSync i => with_store w (sync_at i (pw_store w))
  | PeMark i => with_store w (mark_at i (pw_store w))
  | PeTake i => with_store w (take_at i (pw_store w))
  | PeFault i => with_store w (fail_sync i (pw_store w))
  end.

Definition event_fits (e : pwal_event) : Prop :=
  match e with PeCall ops => wal_fits ops | _ => True end.

(** The counters and the file positions stay below [2^62]. *)
Definition in_bounds w : Prop :=
  ps_nextShard (pw_store w) < 2^62 ∧ len (wal_file (pw_staged w)) < 2^62.

(** Everything that can happen to a store from its creation in an empty directory
    until it is opened again. *)
Inductive pwal_run (N : Z) : pool T → Prop :=
| run_open s : OpenPWALStore [] N = Ok s → pwal_run N (mkPool s [] [] [])
| run_event w e :
    pwal_run N w → event_fits e → in_bounds (pwal_exec w e) → pwal_run N (pwal_exec w e).

Record store_inv (N : Z) s (staged : list wal_commit) (M : gset Z) : Prop := {
  ti_len : len (ps_shards s) = N;
  ti_pos : 1 ≤ N;
  ti_next : 0 ≤ ps_nextShard s < 2^62;
  ti_wm : cw_repr (ps_wm s) M;
  ti_marks : ∀ q, q ∈ M → q ∈ staged.*1;
  ti_seqs : ∀ c, c ∈ staged → 1 ≤ c.1 ≤ ps_nextShard s;
  ti_nodup : NoDup staged.*1;
  ti_shards : ∀ i sh, ps_shards s !! i = Some sh → shard_inv N staged M (ps_err s = None) i sh;
  ti_fits : Forall wal_fits staged.*2;
  ti_bound : len (wal_file staged) < 2^62 }.

(** The calls that picked shard [i], staged or about to. *)
Definition picks (N : Z) (i : nat) w : Z :=
  len (shard_hist N i (pw_staged w)) + Z.of_nat (count_if (staging i) (pw_calls w)).

Record pool_inv (N : Z) w (M : gset Z) : Prop := {
  pi_store : store_inv N (pw_store w) (pw_staged w) M;
  pi_picks : ∀ i : nat, Z.of_nat i < N →
    ps_nextShard (pw_store w) ≤ picks N i w * N + Z.of_nat i < ps_nextShard (pw_store w) + N;
  pi_index : index_ok (ps_shards (pw_store w)) (ps_tree (pw_store w)) (apply_ops ∅ (concat (pw_indexed w).*2.*2));
  pi_calls : ∀ n c, pw_calls w !! n = Some c → call_ok N (ps_shards (pw_store w)) c;
  pi_staged : pw_staged w ≡ₚ (pw_indexed w).*2 ++ omap unindexed (pw_calls w);
  pi_done : ∀ n ops q, pw_calls w !! n = Some (CoDone ops (Ok q)) ↔ (n, (q, ops)) ∈ pw_indexed w;
  pi_once : NoDup (pw_indexed w).*1 }.

(** *** Flushers *)

Lemma setErr_None a b : setErr a b = None ↔ a = None ∧ b = None.
Proof. destruct a; naive_solver. Qed.

Lemma staged_shard N i staged q : q ∈ (shard_hist N i staged).*1 → q ∈ staged.*1 ∧ (q - 1) mod N = Z.of_nat i.
Proof.
  intros (c & -> & [Hm Hc]%elem_of_shard_hist)%list_elem_of_fmap. split; [by apply list_elem_of_fmap_2|done].
Qed.

(** Reports for another shard, and errors. *)
Lemma shard_inv_mono N staged M (ok ok' : Prop) i sh D :
  shard_inv N staged M ok i sh → (ok' → ok) → (∀ q, q ∈ D → (q - 1) mod N ≠ Z.of_nat i) →
  shard_inv N staged (D ∪ M) ok' i sh.
Proof.
  intros [Hidx Hnum Hdata Hspace Hoff Hlocal Hseqs Hqueue Hsync Hwait Hfl Hidle] Hok HD. split; try done.
  - destruct Hsync as (m & Hm & Hc). exists m. split; [done|].
    intros c Hin [[Hd|?]%elem_of_union|?]; [|by apply Hc; [|left]|by apply Hc; [|right]].
    apply HD in Hd. by apply elem_of_shard_hist in Hin as [? _].
  - intros Hok' q Hq. destruct (Hwait (Hok Hok') q Hq); [left; set_solver|by right].
Qed.

(** A step of shard [i]'s flusher. *)
Lemma flusher_step N s staged M i sh sh' D err wm :
  store_inv N s staged M → ps_shards s !! i = Some sh →
  shard_inv N staged (D ∪ M) (err = None) i sh' → (err = None → ps_err s = None) →
  (∀ q, q ∈ D → q ∈ (shard_hist N i staged).*1) → cw_repr wm (D ∪ M) →
  store_inv N (mkPwal (<[i:=sh']> (ps_shards s)) (ps_nextShard s) (ps_tree s) err wm) staged (D ∪ M).
Proof.
  intros [] Hsh Hsi Herr HD Hwm. split; cbn [ps_shards ps_nextShard ps_wm ps_tree ps_err]; try done.
  - by rewrite length_insert.
  - intros q [Hq|?]%elem_of_union; [|by auto]. by apply HD, staged_shard in Hq as [? _].
  - intros j shj Hj. apply list_lookup_insert_Some in Hj as [(<- & <- & _)|[Hne Hj]]; [done|].
    eapply shard_inv_mono; [by eauto|done|]. intros q Hq. apply HD, staged_shard in Hq. lia.
Qed.

Lemma flush_sync_ok N staged M ok i sh :
  shard_inv N staged M ok i sh →
  let '(sh', err) := flush_sync sh in
  shard_inv N staged M (ok ∧ err = None) i sh' ∧
  f_data (sh_f sh') = f_data (sh_f sh) ∧ f_syncFails (sh_f sh') = f_syncFails (sh_f sh) ∧
  (f_syncFails (sh_f sh) = false → err = None).
Proof.
  intros [Hidx Hnum Hdata Hspace Hoff Hlocal Hseqs Hqueue Hsync Hwait Hfl Hidle]. unfold flush_sync.
  destruct (sh_flusher sh) as [[seqs|seqs|]|] eqn:Efl.
  2-4: split_and!; try done; split; rewrite ?Efl; try done; intros [? _]; by apply Hwait.
  unfold waiting, marking in *. rewrite Efl in *. cbn [taken_seqs] in *.
  unfold file_Sync. destruct (f_syncFails (sh_f sh)) eqn:Esf.
  - split_and!; try done. split; try done.
    + unfold waiting. cbn [sh_flusher sh_pending taken_seqs]. set_solver.
    + by intros [_ ?].
  - split_and!; try done.
    assert (∀ q, q ∈ taken_seqs (Some (if decide (seqs = []) then FlTake else FlMark seqs)) ↔ q ∈ seqs) as Hq.
    { intros q. case_decide as Hs; [by subst|done]. }
    split; try done; unfold waiting; cbn [sh_flusher sh_pending sh_f f_synced f_data].
    + intros q. rewrite elem_of_app, Hq, <-elem_of_app. apply Hqueue.
    + exists (length (shard_hist N i staged)). rewrite firstn_all, Hdata. by split.
    + intros [Hok _] q Hqs. rewrite elem_of_app, Hq, <-elem_of_app. by apply Hwait.
Qed.

Lemma flush_mark_ok N staged M ok i sh :
  shard_inv N staged M ok i sh →
  let '(sh', durable) := flush_mark sh in
  shard_inv N staged (list_to_set durable ∪ M) ok i sh' ∧ sh_f sh' = sh_f sh ∧
  (∀ q, q ∈ durable → q ∈ (shard_hist N i staged).*1).
Proof.
  intros [Hidx Hnum Hdata Hspace Hoff Hlocal Hseqs Hqueue Hsync Hwait Hfl Hidle]. unfold flush_mark.
  destruct (sh_flusher sh) as [[seqs|seqs|]|] eqn:Efl.
  1,3,4: cbn [list_to_set]; rewrite (left_id_L ∅ (∪)); split_and!;
    [split; rewrite ?Efl; done|done|by intros ? ?%elem_of_nil].
  unfold waiting, marking in *. rewrite Efl in *. cbn [taken_seqs] in *. split_and!; [|done|set_solver].
  split; try done; unfold waiting, marking; cbn [sh_flusher sh_pending taken_seqs sh_f].
  - set_solver.
  - destruct Hsync as (m & Hm & Hc). exists m. split; [done|]. intros c Hin [Hu|?%elem_of_nil]; [|done].
    apply Hc; [done|]. set_solver.
  - intros Hok q Hq. destruct (Hwait Hok q Hq); set_solver.
Qed.

Lemma flush_take_ok N staged M ok i sh :
  shard_inv N staged M ok i sh → shard_inv N staged M ok i (flush_take sh) ∧ sh_f (flush_take sh) = sh_f sh.
Proof.
  intros [Hidx Hnum Hdata Hspace Hoff Hlocal Hseqs Hqueue Hsync Hwait Hfl Hidle]. unfold flush_take.
  destruct (sh_flusher sh) as [[seqs|seqs|]|] eqn:Efl.
  1,2,4: split; [split; rewrite ?Efl; done|done].
  unfold waiting, marking in *. rewrite Efl in *. cbn [taken_seqs] in *. split; [|done].
  cbv zeta. destruct (decide (sh_pending sh = [])) as [Hp|Hp];
    [rewrite (bool_decide_true _ Hp)|rewrite (bool_decide_false _ Hp)]; split; try done; unfold waiting, marking; cbn [sh_flusher sh_pending taken_seqs sh_f].
  - by intros q ?%elem_of_nil.
  - intros Hok q Hq. destruct (Hwait Hok q Hq) as [?|Hw]; [by left|]. rewrite Hp in Hw. by right.
  - intros q. rewrite app_nil_r. apply Hqueue.
  - intros Hok q Hq. rewrite app_nil_r. by apply Hwait.
Qed.

Lemma sync_at_ok N s staged M i : store_inv N s staged M → store_inv N (sync_at i s) staged M.
Proof.
  intros Hs. unfold sync_at. destruct (ps_shards s !! i) as [sh|] eqn:Hsh; [|done].
  pose proof (flush_sync_ok _ _ _ _ _ _ (ti_shards _ _ _ _ Hs i sh Hsh)) as Hf.
  destruct (flush_sync sh) as [sh' err]. destruct Hf as (Hsi & _).
  rewrite <-(left_id_L ∅ (∪) M). apply (flusher_step N s staged M i sh); [done|done| | |set_solver|].
  - rewrite (left_id_L ∅ (∪)). destruct Hsi. split; try done. intros Hn%setErr_None. by apply si_waiting0.
  - by intros [? _]%setErr_None.
  - rewrite (left_id_L ∅ (∪)). apply Hs.
Qed.

Lemma mark_at_ok N s staged M i : store_inv N s staged M → ∃ D, store_inv N (mark_at i s) staged (D ∪ M).
Proof.
  intros Hs. unfold mark_at. destruct (ps_shards s !! i) as [sh|] eqn:Hsh;
    [|exists ∅; by rewrite (left_id_L ∅ (∪))].
  pose proof (flush_mark_ok _ _ _ _ _ _ (ti_shards _ _ _ _ Hs i sh Hsh)) as Hf.
  destruct (flush_mark sh) as [sh' durable]. destruct Hf as (Hsi & _ & Hd). exists (list_to_set durable).
  apply (flusher_step N s staged M i sh); [done..| |].
  - intros q ?%elem_of_list_to_set. by apply Hd.
  - case_decide as Hn; [subst; cbn [list_to_set]; rewrite (left_id_L ∅ (∪)); apply Hs|].
    apply mark_repr; [apply Hs|]. intros q Hq%elem_of_list_to_set. apply Hd, staged_shard in Hq as [Hq _].
    apply list_elem_of_fmap in Hq as (c & -> & Hc). pose proof (ti_seqs _ _ _ _ Hs c Hc).
    pose proof (ti_next _ _ _ _ Hs). lia.
Qed.

Lemma take_at_ok N s staged M i : store_inv N s staged M → store_inv N (take_at i s) staged M.
Proof.
  intros Hs. unfold take_at. destruct (ps_shards s !! i) as [sh|] eqn:Hsh; [|done].
  destruct (flush_take_ok _ _ _ _ _ _ (ti_shards _ _ _ _ Hs i sh Hsh)) as [Hsi _].
  rewrite <-(left_id_L ∅ (∪) M). apply (flusher_step N s staged M i sh); rewrite ?(left_id_L ∅ (∪) M);
    [done|done|done|done|set_solver|apply Hs].
Qed.

Lemma fail_sync_ok N s staged M i : store_inv N s staged M → store_inv N (fail_sync i s) staged M.
Proof.
  intros []. split; try done; cbn [fail_sync ps_shards ps_err].
  - by rewrite length_alter.
  - intros j shj Hj. destruct (decide (i = j)) as [<-|Hne].
    + rewrite list_lookup_alter_eq in Hj. apply fmap_Some in Hj as (sh & Hsh & ->).
      by destruct (ti_shards0 _ _ Hsh).
    + rewrite list_lookup_alter_ne in Hj by done. by apply ti_shards0.
Qed.

(** No step of a flusher changes the contents of a file. *)
Definition same_data s s' : Prop :=
  ps_nextShard s' = ps_nextShard s ∧ ps_tree s' = ps_tree s ∧ grows (ps_shards s) (ps_shards s').

Lemma same_data_insert s i sh sh' err wm :
  ps_shards s !! i = Some sh → f_data (sh_f sh') = f_data (sh_f sh) →
  same_data s (mkPwal (<[i:=sh']> (ps_shards s)) (ps_nextShard s) (ps_tree s) err wm).
Proof. intros Hi Hd. split_and!; [done..|]. eapply grows_insert; [done|]. by rewrite Hd. Qed.

Lemma same_data_refl s : same_data s s.
Proof. split_and!; [done..|]. intros i sh Hi. by exists sh. Qed.

Lemma sync_at_data s i : same_data s (sync_at i s).
Proof.
  unfold sync_at. destruct (ps_shards s !! i) as [sh|] eqn:Hsh; [|apply same_data_refl].
  destruct (flush_sync sh) as [sh' err] eqn:E. apply (same_data_insert _ _ sh); [done|].
  unfold flush_sync, file_Sync in E. destruct (sh_flusher sh) as [[]|]; [|by simplify_eq..].
  destruct (f_syncFails (sh_f sh)); by simplify_eq.
Qed.

Lemma mark_at_data s i : same_data s (mark_at i s).
Proof.
  unfold mark_at. destruct (ps_shards s !! i) as [sh|] eqn:Hsh; [|apply same_data_refl].
  destruct (flush_mark sh) as [sh' d] eqn:E. apply (same_data_insert _ _ sh); [done|].
  unfold flush_mark in E. destruct (sh_flusher sh) as [[]|]; by simplify_eq.
Qed.

Lemma take_at_data s i : same_data s (take_at i s).
Proof.
  unfold take_at. destruct (ps_shards s !! i) as [sh|] eqn:Hsh; [|apply same_data_refl].
  apply (same_data_insert _ _ sh); [done|]. unfold flush_take. by destruct (sh_flusher sh) as [[]|].
Qed.

Lemma fail_sync_data s i : same_data s (fail_sync i s).
Proof.
  split_and!; [done..|]. intros j sh Hj. cbn [fail_sync ps_shards]. destruct (decide (i = j)) as [<-|Hne].
  - eexists. by rewrite list_lookup_alter_eq, Hj.
  - exists sh. by rewrite list_lookup_alter_ne.
Qed.

Lemma call_ok_grows N shards shards' c : grows shards shards' → call_ok N shards c → call_ok N shards' c.
Proof. intros Hg. destruct c; [done..|apply (located_grows _ _ _ _ _ Hg)|done]. Qed.

Lemma with_store_ok N w M M' s :
  pool_inv N w M → store_inv N s (pw_staged w) M' → same_data (pw_store w) s → pool_inv N (with_store w s) M'.
Proof.
  intros [] Hs (Hn & Ht & Hg). split; cbn [with_store pw_store pw_calls pw_staged pw_indexed]; try done.
  - unfold picks in *. cbn [with_store pw_calls pw_staged]. by rewrite Hn.
  - rewrite Ht. by eapply index_ok_grows.
  - intros n c Hc. eapply call_ok_grows; [exact Hg|]. by eapply pi_calls0.
Qed.

(** *** Calls *)

Lemma omap_insert {A B} (f : A → option B) (l : list A) n x y :
  l !! n = Some x → option_list (f x) ++ omap f (<[n:=y]> l) ≡ₚ option_list (f y) ++ omap f l.
Proof.
  revert n. induction l as [|z l IH]; intros [|n] Hn; simplify_eq/=.
  - destruct (f x), (f y); simpl; try reflexivity. apply Permutation_swap.
  - specialize (IH n Hn). destruct (f z) as [b|]; [|done].
    rewrite <-!Permutation_middle. by constructor.
Qed.

(** The tables of calls and indexed calls after a step of call [n]. *)
Lemma done_insert (calls : list commit_pc) (ix : list (nat * wal_commit)) n c c' :
  (∀ m ops q, calls !! m = Some (CoDone ops (Ok q)) ↔ (m, (q, ops)) ∈ ix) →
  calls !! n = Some c → (∀ ops q, c ≠ CoDone ops (Ok q)) → (∀ ops q, c' ≠ CoDone ops (Ok q)) →
  ∀ m ops q, <[n:=c']> calls !! m = Some (CoDone ops (Ok q)) ↔ (m, (q, ops)) ∈ ix.
Proof.
  intros Hd Hc Hn Hn' m ops q. rewrite <-Hd, list_lookup_insert_Some. split.
  - intros [(_ & E & _)|[_ ?]]; [by apply Hn' in E|done].
  - intros Hm. right. split; [|done]. intros ->. rewrite Hc in Hm. apply (inj Some) in Hm. by apply Hn in Hm.
Qed.

(** A step that neither stages nor updates the index. *)
Lemma quiet_call N w M n c c' :
  pool_inv N w M → pw_calls w !! n = Some c → (∀ i, staging i c' = staging i c) →
  unindexed c = None → unindexed c' = None →
  (∀ ops q, c ≠ CoDone ops (Ok q)) → (∀ ops q, c' ≠ CoDone ops (Ok q)) →
  call_ok N (ps_shards (pw_store w)) c' →
  pool_inv N (mkPool (pw_store w) (<[n:=c']> (pw_calls w)) (pw_staged w) (pw_indexed w)) M.
Proof.
  intros [] Hc Hst Hu Hu' Hd Hd' Hok. split; cbn [pw_store pw_calls pw_staged pw_indexed]; try done.
  - intros i Hi. specialize (pi_picks0 i Hi). unfold picks in *. cbn [pw_calls pw_staged].
    pose proof (count_if_insert (staging i) _ _ _ c' Hc) as Hn. rewrite Hst in Hn. lia.
  - intros m d [(<- & <- & _)|[_ Hm]]%list_lookup_insert_Some; [done|]. by eapply pi_calls0.
  - pose proof (omap_insert unindexed _ _ _ c' Hc) as Ho. rewrite Hu, Hu' in Ho. cbn [option_list app] in Ho.
    by rewrite Ho.
  - by eapply done_insert.
Qed.

Lemma call_event_ok N w M ops :
  pool_inv N w M → wal_fits ops → pool_inv N (pwal_exec w (PeCall ops)) M.
Proof.
  intros [] Hf. split; cbn [pwal_exec pw_store pw_calls pw_staged pw_indexed]; try done.
  - intros i Hi. specialize (pi_picks0 i Hi). unfold picks in *. cbn [pw_calls pw_staged].
    rewrite count_if_app. change (count_if (staging i) [CoCheck ops]) with 0%nat. by rewrite Nat.add_0_r.
  - intros n c [Hc|(Hl & Hc)]%lookup_app_Some; [by eapply pi_calls0|].
    apply list_lookup_singleton_Some in Hc as [_ <-]. done.
  - rewrite omap_app. cbn [omap list_omap unindexed]. by rewrite app_nil_r.
  - intros n ops' q. rewrite <-pi_done0, lookup_app_Some. split; [|by left].
    intros [?|(_ & E)]; [done|]. by apply list_lookup_singleton_Some in E as [_ ?].
Qed.

Lemma pick_ok N w M n ops :
  pool_inv N w M → pw_calls w !! n = Some (CoPick ops) → ps_nextShard (pw_store w) + 1 < 2^62 →
  pick_shard (pw_store w) = (mkPwal (ps_shards (pw_store w)) (ps_nextShard (pw_store w) + 1) (ps_tree (pw_store w))
    (ps_err (pw_store w)) (ps_wm (pw_store w)), ps_nextShard (pw_store w) mod N) ∧
  pool_inv N (pwal_exec w (PeStep n)) M.
Proof.
  intros Hinv Hc Hb. destruct (pi_store _ _ _ Hinv). set (t := ps_nextShard (pw_store w)) in *.
  assert (Hp : pick_shard (pw_store w) = (mkPwal (ps_shards (pw_store w)) (t + 1) (ps_tree (pw_store w))
    (ps_err (pw_store w)) (ps_wm (pw_store w)), t mod N)).
  { unfold pick_shard. fold t. rewrite (u64_small (t + 1)) by (unfold is_u64; lia).
    replace (t + 1 - 1) with t by lia. rewrite u64_small by (unfold is_u64; lia).
    rewrite i64_small by (unfold is_i64; lia). by rewrite ti_len0, Z.rem_mod_nonneg by lia. }
  split; [done|]. cbn [pwal_exec]. rewrite Hc. cbn [co_step]. rewrite Hp.
  pose proof (Z.mod_pos_bound t N ltac:(lia)) as Hmod.
  cbn [new_staged new_indexed]. rewrite !app_nil_r. destruct Hinv.
  split; cbn [pw_store pw_calls pw_staged pw_indexed ps_shards ps_tree ps_nextShard]; try done.
  - split; cbn [ps_shards ps_nextShard ps_wm ps_err]; try done; [lia|].
    intros c Hin. specialize (ti_seqs0 c Hin). lia.
  - intros i Hi. specialize (pi_picks0 i Hi). fold t in pi_picks0. unfold picks in *. cbn [pw_calls pw_staged].
    pose proof (count_if_insert (staging i) _ _ _ (CoStage (t mod N) ops) Hc) as Hn. cbn [staging Nat.b2n] in Hn.
    set (p := _ + Z.of_nat (count_if _ (pw_calls w))) in pi_picks0.
    destruct (decide (t mod N = Z.of_nat i)) as [He|Hne].
    + rewrite bool_decide_true in Hn by done. cbn [Nat.b2n] in Hn.
      pose proof (local_unique N p (Z.of_nat i) t ltac:(lia) ltac:(lia) pi_picks0 He) as Hu. nia.
    + rewrite bool_decide_false in Hn by done. cbn [Nat.b2n] in Hn.
      assert (p * N + Z.of_nat i ≠ t); [|nia].
      intros E. apply Hne. rewrite <-E, Z.add_comm, Z_mod_plus_full. apply Z.mod_small. lia.
  - intros m d [(<- & <- & _)|[_ Hm]]%list_lookup_insert_Some; [|by eapply pi_calls0].
    split; [lia|]. apply (pi_calls0 _ _ Hc).
  - pose proof (omap_insert unindexed _ _ _ (CoStage (t mod N) ops) Hc) as Ho. cbn [unindexed option_list app] in Ho.
    by rewrite Ho.
  - by eapply done_insert.
Qed.

(** The record a call stages gets a number of its shard that was not used. *)
Lemma stage_target N w M n i ops :
  pool_inv N w M → pw_calls w !! n = Some (CoStage i ops) →
  let seq := len (shard_hist N (Z.to_nat i) (pw_staged w)) * N + i + 1 in
  ∃ sh, 0 ≤ i < N ∧ wal_fits ops ∧ ps_shards (pw_store w) !! Z.to_nat i = Some sh ∧
    1 ≤ seq ≤ ps_nextShard (pw_store w) ∧ (seq - 1) mod N = i ∧ seq ∉ (pw_staged w).*1.
Proof.
  intros Hinv Hc seq. pose proof (pi_calls _ _ _ Hinv _ _ Hc) as [Hi Hf].
  pose proof (pi_store _ _ _ Hinv) as Hs. pose proof (ti_len _ _ _ _ Hs) as Hlen.
  set (j := Z.to_nat i) in *. assert (Hj : Z.of_nat j = i) by lia.
  destruct (lookup_lt_is_Some_2 (ps_shards (pw_store w)) j) as [sh Hsh]; [lia|]. exists sh.
  pose proof (pi_picks _ _ _ Hinv j ltac:(lia)) as Hpk. unfold picks in Hpk.
  pose proof (count_if_insert (staging j) _ _ _ (CoDone [] (Ok 0)) Hc) as Hcnt. cbn [staging Nat.b2n] in Hcnt.
  rewrite bool_decide_true in Hcnt by done. cbn [Nat.b2n] in Hcnt.
  pose proof (ti_next _ _ _ _ Hs) as Hnext. pose proof (ti_pos _ _ _ _ Hs) as HN.
  assert (Hm : (seq - 1) mod N = i).
  { unfold seq. replace (_ * N + i + 1 - 1) with (i + len (shard_hist N j (pw_staged w)) * N) by lia.
    rewrite Z_mod_plus_full. apply Z.mod_small. lia. }
  split_and!; [lia|lia|done|done|unfold seq; nia|unfold seq; nia|done|].
  intros (c & Hq & Hin)%list_elem_of_fmap.
  assert (c.1 ∈ (shard_hist N j (pw_staged w)).*1) as Hc1.
  { apply list_elem_of_fmap_2, elem_of_shard_hist. split; [|done]. rewrite <-Hq. lia. }
  rewrite <-Hq in Hc1. apply (elem_of_shard_seqs N (Z.of_nat j)) in Hc1 as (k & E & Hk);
    [|by destruct (ti_shards _ _ _ _ Hs j sh Hsh)].
  unfold seq in E. nia.
Qed.

Lemma stage_seq N w M n i ops :
  pool_inv N w M → pw_calls w !! n = Some (CoStage i ops) →
  let seq := len (shard_hist N (Z.to_nat i) (pw_staged w)) * N + i + 1 in
  ∃ s' locs, stage_at (pw_store w) i ops = Some (s', seq, locs).
Proof.
  intros Hinv Hc seq. destruct (stage_target N w M n i ops Hinv Hc) as (sh & Hi & _ & Hsh & Hseq & _).
  fold seq in Hseq. pose proof (pi_store _ _ _ Hinv) as Hs. pose proof (ti_next _ _ _ _ Hs).
  destruct (ti_shards _ _ _ _ Hs _ sh Hsh) as [Hidx Hnum _ _ _ Hlocal _ _ _ _ _ _].
  unfold stage_at. rewrite decide_False, Hsh by lia. unfold stage. rewrite Hidx, Hnum, Hlocal, Z2Nat.id by lia.
  fold seq. rewrite u64_small by (unfold is_u64; lia). destruct (encodePWALRecord _ _).
  destruct (file_Write _ _). by eexists _, _.
Qed.

Lemma stage_step_ok N w M n i ops :
  pool_inv N w M → pw_calls w !! n = Some (CoStage i ops) →
  let seq := len (shard_hist N (Z.to_nat i) (pw_staged w)) * N + i + 1 in
  len (wal_file (pw_staged w ++ [(seq, ops)])) < 2^62 →
  ∃ s' locs, stage_at (pw_store w) i ops = Some (s', seq, locs) ∧ ps_err s' = ps_err (pw_store w) ∧
    ps_nextShard s' = ps_nextShard (pw_store w) ∧ pool_inv N (pwal_exec w (PeStep n)) M.
Proof.
  intros Hinv Hc seq Hb.
  destruct (stage_target N w M n i ops Hinv Hc) as (sh & Hi & Hf & Hsh & Hseq & Hnew & Hfresh).
  fold seq in Hseq, Hnew, Hfresh. pose proof (pi_store _ _ _ Hinv) as Hs. pose proof (ti_next _ _ _ _ Hs) as Hnext.
  pose proof (ti_pos _ _ _ _ Hs) as HN. pose proof (ti_len _ _ _ _ Hs) as Hlen.
  set (j := Z.to_nat i) in *. assert (Hj : Z.of_nat j = i) by lia.
  pose proof (ti_shards _ _ _ _ Hs j sh Hsh) as Hsi.
  destruct (stage_ok N _ M _ j sh ops Hsi HN) as (sh' & locs & Hst & Hsi' & Hpre & _ & Hloc);
    rewrite ?Hj; [lia|done|fold seq; lia|done|apply Hs|done|]. rewrite Hj in Hst, Hsi', Hloc. fold seq in Hst, Hsi'.
  assert (Hat : stage_at (pw_store w) i ops = Some (mkPwal (<[j:=sh']> (ps_shards (pw_store w)))
    (ps_nextShard (pw_store w)) (ps_tree (pw_store w)) (setErr (ps_err (pw_store w)) None) (ps_wm (pw_store w)), seq, locs)).
  { unfold stage_at. rewrite decide_False by lia. fold j. by rewrite Hsh, Hst. }
  assert (Herr : setErr (ps_err (pw_store w)) None = ps_err (pw_store w)) by (by destruct (ps_err (pw_store w))).
  rewrite Herr in Hat. eexists _, _. split_and!; [exact Hat|done|done|].
  cbn [pwal_exec]. rewrite Hc. cbn [co_step]. rewrite Hat. cbn [new_staged new_indexed]. rewrite app_nil_r.
  assert (Hg : grows (ps_shards (pw_store w)) (<[j:=sh']> (ps_shards (pw_store w)))) by (by eapply grows_insert).
  destruct Hinv. split; cbn [pw_store pw_calls pw_staged pw_indexed ps_shards ps_tree ps_nextShard]; try done.
  - destruct Hs. split; cbn [ps_shards ps_nextShard ps_wm ps_err]; try done.
    + by rewrite length_insert.
    + intros q Hq%ti_marks0. rewrite fmap_app. apply elem_of_app. by left.
    + intros c [Hin| ->%list_elem_of_singleton]%elem_of_app; [by apply ti_seqs0|]. cbn [fst]. lia.
    + rewrite fmap_app. apply NoDup_app. split_and!; [done| |apply NoDup_singleton].
      intros q Hq Hq'. simpl in Hq'. apply list_elem_of_singleton in Hq' as ->. done.
    + intros k shk Hk. apply list_lookup_insert_Some in Hk as [(<- & <- & _)|[Hne Hk]]; [done|].
      apply shard_inv_other; [by apply ti_shards0|]. cbn [fst]. lia.
    + rewrite fmap_app. apply Forall_app. split; [done|]. by constructor.
  - intros k Hk. specialize (pi_picks0 k Hk). unfold picks in *. cbn [pw_calls pw_staged].
    pose proof (count_if_insert (staging k) _ _ _ (CoIndex i ops seq locs) Hc) as Hn. cbn [staging Nat.b2n] in Hn.
    assert (length (shard_hist N k (pw_staged w ++ [(seq, ops)])) =
      length (shard_hist N k (pw_staged w)) + Nat.b2n (bool_decide (i = Z.of_nat k)))%nat as ->; [|lia].
    rewrite shard_hist_snoc. cbn [fst]. rewrite Hnew, length_app. case_bool_decide as He.
    + by rewrite decide_True.
    + by rewrite decide_False.
  - by eapply index_ok_grows.
  - intros m d [(<- & <- & _)|[_ Hm]]%list_lookup_insert_Some.
    + cbn [call_ok]. apply Hloc. apply list_lookup_insert_eq. lia.
    + eapply call_ok_grows; [exact Hg|]. by eapply pi_calls0.
  - pose proof (omap_insert unindexed _ _ _ (CoIndex i ops seq locs) Hc) as Ho. cbn [unindexed option_list app] in Ho.
    rewrite Ho, pi_staged0, (Permutation_app_comm _ [(seq, ops)]). cbn [app]. by rewrite Permutation_middle.
  - by eapply done_insert.
Qed.

Lemma index_step_ok N w M n i ops seq locs :
  pool_inv N w M → pw_calls w !! n = Some (CoIndex i ops seq locs) → pool_inv N (pwal_exec w (PeStep n)) M.
Proof.
  intros Hinv Hc. pose proof (pi_calls _ _ _ Hinv _ _ Hc) as (sh & base & es & rels & Hi & Hsh & He & Hr & ->).
  assert (Hn : n ∉ (pw_indexed w).*1).
  { intros ([m [q o]] & -> & Hin)%list_elem_of_fmap. apply (pi_done _ _ _ Hinv) in Hin. simpl in Hc. congruence. }
  cbn [pwal_exec]. rewrite Hc. cbn [co_step new_staged new_indexed]. rewrite app_nil_r.
  destruct Hinv. split; cbn [pw_store pw_calls pw_staged pw_indexed index_batch ps_shards ps_tree ps_nextShard]; try done.
  - by destruct pi_store0.
  - intros k Hk. specialize (pi_picks0 k Hk). unfold picks in *. cbn [pw_calls pw_staged].
    pose proof (count_if_insert (staging k) _ _ _ (CoDone ops (Ok seq)) Hc) as Hcn. cbn [staging Nat.b2n] in Hcn. lia.
  - rewrite !fmap_app, concat_app, apply_ops_app. cbn [fmap list_fmap concat snd]. rewrite app_nil_r.
    rewrite <-(Z2Nat.id i Hi) at 1. by eapply index_commit_ok.
  - intros m d [(<- & <- & _)|[_ Hm]]%list_lookup_insert_Some; [done|]. by eapply pi_calls0.
  - pose proof (omap_insert unindexed _ _ _ (CoDone ops (Ok seq)) Hc) as Ho. cbn [unindexed option_list app] in Ho.
    rewrite pi_staged0, fmap_app, <-app_assoc. cbn [fmap list_fmap snd]. by rewrite <-Ho.
  - intros m ops' q. rewrite elem_of_app, list_elem_of_singleton, <-pi_done0, list_lookup_insert_Some. split.
    + intros [(-> & E & _)|[_ ?]]; [right; by simplify_eq|by left].
    + intros [Hm|E]; [|left; simplify_eq; split_and!; [done..|by eapply lookup_lt_Some]].
      right. split; [|done]. intros ->. congruence.
  - rewrite fmap_app. apply NoDup_app. split_and!; [done| |apply NoDup_singleton].
    intros m Hm Hm'. simpl in Hm'. apply list_elem_of_singleton in Hm' as ->. done.
Qed.

Lemma step_event_ok N w M n :
  pool_inv N w M → in_bounds (pwal_exec w (PeStep n)) → pool_inv N (pwal_exec w (PeStep n)) M.
Proof.
  intros Hinv Hb. destruct (pw_calls w !! n) as [c|] eqn:Hc; [|cbn [pwal_exec]; by rewrite Hc].
  pose proof (pi_calls _ _ _ Hinv _ _ Hc) as Hok. destruct c as [ops|ops|i ops|i ops seq locs|ops r].
  - cbn [pwal_exec]. rewrite Hc. cbn [co_step new_staged new_indexed]. 
    destruct (ps_err (pw_store w)); cbn [new_staged]; rewrite !app_nil_r; eapply quiet_call; done.
  - eapply pick_ok; [done..|]. destruct Hb as [Hb _]. revert Hb. cbn [pwal_exec]. rewrite Hc.
    cbn [co_step pick_shard pw_store ps_nextShard]. pose proof (ti_next _ _ _ _ (pi_store _ _ _ Hinv)).
    rewrite u64_small by (unfold is_u64; lia). done.
  - destruct (stage_seq N w M n i ops Hinv Hc) as (s' & locs & Hst).
    destruct (stage_step_ok N w M n i ops Hinv Hc) as (? & ? & _ & _ & _ & ?); [|done].
    destruct Hb as [_ Hb]. revert Hb. cbn [pwal_exec]. rewrite Hc. cbn [co_step]. by rewrite Hst.
  - by eapply index_step_ok.
  - cbn [pwal_exec]. rewrite Hc. cbn [co_step new_staged new_indexed]. rewrite !app_nil_r, list_insert_id by done.
    by destruct w.
Qed.
(** *** Opening *)

Definition disk_file (disk : list File) (i : nat) : File := default (mkFile [] 0 None false) (disk !! i).

Lemma mapM_result_Ok {A B} (f : A → result B) (g : A → B) (l : list A) :
  (∀ x, x ∈ l → f x = Ok (g x)) → mapM_result f l = Ok (g <$> l).
Proof.
  induction l as [|x l IH]; intros Hl; [done|]. cbn [mapM_result]. rewrite Hl by constructor. run_result.
  rewrite IH by (intros; apply Hl; by constructor). done.
Qed.

Definition opened_shards (N : Z) (disk : list File) (recs : File → list pwalRecord) : list pwalShard :=
  (λ i, open_shard N i (disk_file disk i) (recs (disk_file disk i))) <$> List.seq 0 (Z.to_nat N).

Lemma open_ok disk N recs :
  1 ≤ N → (∀ i, (i < Z.to_nat N)%nat →
             decodePWALShard (f_data (disk_file disk i)) = Ok (recs (disk_file disk i))) →
  let all := concat (recs ∘ disk_file disk <$> List.seq 0 (Z.to_nat N)) in
  OpenPWALStore (T := T) disk N = Ok
    {| ps_shards := opened_shards N disk recs; ps_nextShard := 0;
       ps_tree := foldl (replay_record N) bt_New (merge_sort record_le all);
       ps_err := None; ps_wm := mark newContigWatermark (wr_seq <$> all) |}.
Proof.
  intros HN Hrecs all. unfold OpenPWALStore. rewrite decide_False by lia.
  change ((λ i, default (mkFile [] 0 None false) (disk !! i)) <$> List.seq 0 (Z.to_nat N))
    with (disk_file disk <$> List.seq 0 (Z.to_nat N)).
  rewrite (mapM_result_Ok _ recs).
  2:{ intros f (i & -> & Hi)%list_elem_of_fmap. apply elem_of_seq in Hi. apply Hrecs. lia. }
  run_result. rewrite <-list_fmap_compose. fold all. do 2 f_equal.
  unfold opened_shards. rewrite (list_fmap_compose (disk_file disk) recs).
  generalize (List.seq 0 (Z.to_nat N)). intros l. induction l as [|i l IH]; [done|].
  cbn [fmap list_fmap zip zip_with]. cbn [fst snd]. f_equal. exact IH.
Qed.

Lemma lookup_opened N disk recs i sh :
  opened_shards N disk recs !! i = Some sh ↔
  (i < Z.to_nat N)%nat ∧ sh = open_shard N i (disk_file disk i) (recs (disk_file disk i)).
Proof.
  unfold opened_shards. rewrite list_lookup_fmap. split.
  - intros (j & Hj & ->)%fmap_Some. apply lookup_seq in Hj as [-> ?]. done.
  - intros [Hi ->]. apply fmap_Some. exists i. split; [by apply lookup_seq|done].
Qed.

Lemma open_empty N :
  1 ≤ N → ∃ s, OpenPWALStore (T := T) [] N = Ok s ∧ pool_inv N (mkPool s [] [] []) ∅.
Proof.
  intros HN. eexists. rewrite (open_ok [] N (λ _, [])) by (done || (intros; vm_compute; reflexivity)).
  assert (E : concat ((λ _ : File, [] : list pwalRecord) ∘ disk_file [] <$> List.seq 0 (Z.to_nat N)) = []).
  { generalize (List.seq 0 (Z.to_nat N)). intros l. by induction l. }
  rewrite E. split; [done|].
  split; cbn [pw_store pw_calls pw_staged pw_indexed ps_nextShard ps_shards ps_tree]; try done.
  - split; cbn [ps_shards ps_nextShard ps_wm ps_tree ps_err]; try done.
    + unfold opened_shards. rewrite length_fmap, length_seq. lia.
    + apply newContigWatermark_repr.
    + intros c Hc. by apply elem_of_nil in Hc.
    + constructor.
    + intros i sh [Hi ->]%lookup_opened.
      assert (Hs : shard_hist N i [] = []) by reflexivity.
      split; rewrite ?Hs; try done.
      * exists 0%nat. split; [done|]. intros c Hc. by apply elem_of_nil in Hc.
      * intros _ q Hq. by apply elem_of_nil in Hq.
  - intros i Hi. unfold picks. cbn. lia.
  - intros k. simpl. by rewrite lookup_empty, bt_New_view, lookup_empty.
  - intros n ops q. split; [done|]. by intros ?%elem_of_nil.
  - constructor.
Qed.

(** ** Runs *)

Lemma exec_ok N w M e :
  pool_inv N w M → event_fits e → in_bounds (pwal_exec w e) → ∃ M', pool_inv N (pwal_exec w e) M'.
Proof.
  intros Hinv He Hb. pose proof (pi_store _ _ _ Hinv) as Hs. destruct e as [ops|n|i|i|i|i].
  - exists M. by apply call_event_ok.
  - exists M. by apply step_event_ok.
  - exists M. apply (with_store_ok N w M); [done|by apply sync_at_ok|apply sync_at_data].
  - destruct (mark_at_ok _ _ _ _ i Hs) as [D HD]. exists (D ∪ M).
    apply (with_store_ok N w M); [done|done|apply mark_at_data].
  - exists M. apply (with_store_ok N w M); [done|by apply take_at_ok|apply take_at_data].
  - exists M. apply (with_store_ok N w M); [done|by apply fail_sync_ok|apply fail_sync_data].
Qed.

Lemma run_inv N w : 1 ≤ N → pwal_run N w → ∃ M, pool_inv N w M.
Proof.
  intros HN. induction 1 as [s Ho|w e Hrun [M IH] He Hb].
  - destruct (open_empty N HN) as (s' & Ho' & ?). exists ∅. congruence.
  - by eapply exec_ok.
Qed.

(** No call is between its start and its return. *)
Definition no_call_open w : Prop := Forall returned (pw_calls w).

Lemma idle_indexed N w M : pool_inv N w M → no_call_open w → pw_staged w ≡ₚ (pw_indexed w).*2.
Proof.
  intros Hinv Hidle. rewrite (pi_staged _ _ _ Hinv).
  assert (omap unindexed (pw_calls w) = []) as ->; [|by rewrite app_nil_r].
  unfold no_call_open in Hidle. induction Hidle as [|c l (ops & r & ->) Hl IH]; [done|exact IH].
Qed.

(** Then the numbers handed out are the first ones. *)
Lemma idle_seqs N w M :
  pool_inv N w M → no_call_open w →
  ps_nextShard (pw_store w) = len (pw_staged w) ∧
  (∀ i : nat, Z.of_nat i < N → len (pw_staged w) ≤ len (shard_hist N i (pw_staged w)) * N + Z.of_nat i < len (pw_staged w) + N) ∧
  (pw_staged w).*1 ≡ₚ seqZ 1 (len (pw_staged w)).
Proof.
  intros Hinv Hidle. pose proof (pi_store _ _ _ Hinv) as Hs. pose proof (ti_pos _ _ _ _ Hs) as HN.
  set (t := ps_nextShard (pw_store w)).
  assert (Hcount : ∀ i : nat, Z.of_nat i < N → t ≤ len (shard_hist N i (pw_staged w)) * N + Z.of_nat i < t + N).
  { intros i Hi. pose proof (pi_picks _ _ _ Hinv i Hi) as Hp. unfold picks in Hp.
    assert (count_if (staging i) (pw_calls w) = 0%nat) as E; [|rewrite E, Z.add_0_r in Hp; done].
    apply count_if_0. intros n c Hc. unfold no_call_open in Hidle.
    by destruct (Forall_lookup_1 _ _ _ _ Hidle Hc) as (ops & r & ->). }
  assert (Hperm : (pw_staged w).*1 ≡ₚ seqZ 1 t).
  { apply NoDup_Permutation; [apply Hs|apply NoDup_seqZ|]. intros q. rewrite elem_of_seqZ. split.
    - intros (c & -> & Hc)%list_elem_of_fmap. pose proof (ti_seqs _ _ _ _ Hs c Hc). unfold t in *. lia.
    - intros Hq. pose proof (Z.mod_pos_bound (q - 1) N ltac:(lia)) as Hm.
      pose proof (Z.div_mod (q - 1) N ltac:(lia)) as Hd. pose proof (ti_len _ _ _ _ Hs) as Hlen.
      destruct (lookup_lt_is_Some_2 (ps_shards (pw_store w)) (Z.to_nat ((q - 1) mod N))) as [sh Hsh]; [lia|].
      specialize (Hcount (Z.to_nat ((q - 1) mod N)) ltac:(lia)). rewrite Z2Nat.id in Hcount by lia.
      pose proof (si_seqs _ _ _ _ _ _ (ti_shards _ _ _ _ Hs _ sh Hsh)) as Hq'.
      apply (staged_shard N (Z.to_nat ((q - 1) mod N))). apply (elem_of_shard_seqs N _ _ q Hq').
      exists ((q - 1) / N). assert (0 ≤ (q - 1) / N) by (apply Z.div_pos; lia). split; [lia|]. nia. }
  assert (Ht : t = len (pw_staged w)).
  { apply Permutation_length in Hperm. rewrite length_fmap, length_seqZ in Hperm.
    change (length (pw_staged w) = Z.to_nat t) in Hperm.
    pose proof (ti_next _ _ _ _ Hs). unfold t in *. lia. }
  split_and!; [done| |by rewrite <-Ht]. intros i Hi. rewrite <-Ht. by apply Hcount.
Qed.

Lemma bounds_mk s calls staged indexed :
  ps_nextShard s < 2^62 → len (wal_file staged) < 2^62 → in_bounds (mkPool s calls staged indexed).
Proof. by split. Qed.

(** A call that nothing interrupts gets the next number. *)
Definition after_call w s ops seq : pool T :=
  mkPool s (pw_calls w ++ [CoDone ops (Ok seq)]) (pw_staged w ++ [(seq, ops)])
    (pw_indexed w ++ [(length (pw_calls w), (seq, ops))]).

Lemma exec_last s calls staged indexed c s' c' :
  co_step s c = (s', c') →
  pwal_exec (mkPool s (calls ++ [c]) staged indexed) (PeStep (length calls)) =
  mkPool s' (calls ++ [c']) (staged ++ new_staged c c') (indexed ++ new_indexed (length calls) c).
Proof.
  intros Hc. cbn [pwal_exec pw_calls pw_store pw_staged pw_indexed].
  rewrite lookup_app_r, Nat.sub_diag by lia. cbn [lookup list_lookup]. rewrite Hc.
  by rewrite insert_app_r_alt, Nat.sub_diag by lia.
Qed.

Lemma call_alone N w ops :
  1 ≤ N → pwal_run N w → no_call_open w → ps_err (pw_store w) = None → wal_fits ops →
  len (wal_file (pw_staged w ++ [(len (pw_staged w) + 1, ops)])) < 2^62 →
  ∃ s', pwal_CommitAsync (pw_store w) ops = (s', Ok (len (pw_staged w) + 1)) ∧ ps_err s' = None ∧
    pwal_run N (after_call w s' ops (len (pw_staged w) + 1)).
Proof.
  intros HN Hrun Hidle Herr Hf Hb. destruct (run_inv N w HN Hrun) as [M Hinv].
  pose proof (hist_bound (pw_staged w ++ [(len (pw_staged w) + 1, ops)])) as Hhb.
  rewrite length_app in Hhb. cbn [length] in Hhb.
  assert (Hb0 : len (wal_file (pw_staged w)) < 2^62) by (rewrite wal_file_app, length_app in Hb; lia).
  destruct (idle_seqs N w M Hinv Hidle) as (Ht & Hcount & _).
  destruct w as [s calls staged indexed]. cbn [pw_store pw_calls pw_staged pw_indexed] in *.
  set (t := len staged) in *. set (n := length calls).
  (* the call *)
  set (w1 := mkPool s (calls ++ [CoCheck ops]) staged indexed).
  assert (Hr1 : pwal_run N w1).
  { apply (run_event N (mkPool s calls staged indexed) (PeCall ops)); [done|done|].
    apply bounds_mk; cbn [pw_store pw_staged]; lia. }
  (* the check of the error *)
  set (w2 := mkPool s (calls ++ [CoPick ops]) staged indexed).
  assert (E2 : pwal_exec w1 (PeStep n) = w2).
  { etrans; [apply (exec_last s calls staged indexed _ s (CoPick ops)); cbn; by rewrite Herr|].
    cbn [new_staged new_indexed]. by rewrite !app_nil_r. }
  assert (Hr2 : pwal_run N w2).
  { rewrite <-E2. apply run_event; [done|done|]. rewrite E2. apply bounds_mk; lia. }
  destruct (run_inv N w2 HN Hr2) as [M2 Hinv2].
  (* the shard *)
  assert (Hc2 : pw_calls w2 !! n = Some (CoPick ops)).
  { cbn [w2 pw_calls]. rewrite lookup_app_r, Nat.sub_diag by lia. done. }
  destruct (pick_ok N w2 M2 n ops Hinv2 Hc2) as [Hp _]; [change (ps_nextShard s + 1 < 2^62); lia|]. cbn [w2 pw_store] in Hp.
  set (s3 := mkPwal _ _ _ _ _) in Hp. rewrite Ht in Hp.
  set (w3 := mkPool s3 (calls ++ [CoStage (t mod N) ops]) staged indexed).
  assert (E3 : pwal_exec w2 (PeStep n) = w3).
  { etrans; [apply (exec_last s calls staged indexed _ s3 (CoStage (t mod N) ops)); cbn [co_step]; by rewrite Hp|].
    cbn [new_staged new_indexed]. by rewrite !app_nil_r. }
  assert (Hr3 : pwal_run N w3).
  { rewrite <-E3. apply run_event; [done|done|]. rewrite E3. apply bounds_mk; [change (ps_nextShard s + 1 < 2^62)|]; lia. }
  destruct (run_inv N w3 HN Hr3) as [M3 Hinv3].
  (* staging *)
  assert (Hc3 : pw_calls w3 !! n = Some (CoStage (t mod N) ops)).
  { cbn [w3 pw_calls]. rewrite lookup_app_r, Nat.sub_diag by lia. done. }
  pose proof (Z.mod_pos_bound t N ltac:(lia)) as Hm.
  assert (Hq : len (shard_hist N (Z.to_nat (t mod N)) staged) * N + t mod N + 1 = t + 1).
  { specialize (Hcount (Z.to_nat (t mod N)) ltac:(lia)). rewrite Z2Nat.id in Hcount by lia.
    rewrite (local_unique N _ (t mod N) t); [done|lia|lia|done|done]. }
  destruct (stage_step_ok N w3 M3 n (t mod N) ops Hinv3 Hc3) as (s4 & locs & Hst & He4 & Hn4 & _).
  { cbn [w3 pw_staged]. by rewrite Hq. }
  cbn [w3 pw_staged pw_store] in Hst, He4, Hn4. rewrite Hq in Hst.
  set (w4 := mkPool s4 (calls ++ [CoIndex (t mod N) ops (t + 1) locs]) (staged ++ [(t + 1, ops)]) indexed).
  assert (E4 : pwal_exec w3 (PeStep n) = w4).
  { etrans; [apply (exec_last s3 calls staged indexed _ s4 (CoIndex (t mod N) ops (t + 1) locs));
      cbn [co_step]; by rewrite Hst|].
    cbn [new_staged new_indexed]. by rewrite !app_nil_r. }
  assert (Hr4 : pwal_run N w4).
  { rewrite <-E4. apply run_event; [done|done|]. rewrite E4. apply bounds_mk; [rewrite Hn4; change (ps_nextShard s + 1 < 2^62); lia|done]. }
  (* the index *)
  exists (index_batch s4 (t mod N) ops locs). split_and!.
  - unfold pwal_CommitAsync. by rewrite Herr, Hp, Hst.
  - cbn [index_batch ps_err]. rewrite He4. done.
  - assert (E5 : pwal_exec w4 (PeStep n) =
      after_call (mkPool s calls staged indexed) (index_batch s4 (t mod N) ops locs) ops (t + 1)).
    { etrans; [by apply (exec_last s4 calls (staged ++ [(t + 1, ops)]) indexed _ (index_batch s4 (t mod N) ops locs)
        (CoDone ops (Ok (t + 1))))|].
      cbn [new_staged new_indexed]. rewrite app_nil_r. done. }
    rewrite <-E5. apply run_event; [done|done|]. rewrite E5. apply bounds_mk; [change (ps_nextShard s4 < 2^62); rewrite Hn4; change (ps_nextShard s + 1 < 2^62); lia|done].
Qed.


(** What is on the disk when the store is opened again: of each file at least what
    was synced. *)
Definition survives s (disk : list File) : Prop :=
  ∀ i sh, ps_shards s !! i = Some sh →
    f_data (disk_file disk i) `prefix_of` f_data (sh_f sh) ∧
    f_synced (sh_f sh) ≤ len (f_data (disk_file disk i)).

Lemma Forall2_impl_r {A B} (P Q : A → B → Prop) l k :
  Forall2 P l k → (∀ x y, y ∈ k → P x y → Q x y) → Forall2 Q l k.
Proof.
  induction 1 as [|x y l k Hxy _ IH]; intros Hpq; constructor; [by apply Hpq; [constructor|]|].
  apply IH. intros ? ? ?. apply Hpq. by constructor.
Qed.

Lemma prefix_of_app (d a b : bytes) :
  d `prefix_of` a ++ b → (length a ≤ length d)%nat → ∃ d', d = a ++ d'.
Proof.
  intros [tl Htl] Hl. exists (drop (length a) d). rewrite <-(take_drop (length a) d) at 1. f_equal.
  apply (f_equal (take (length a))) in Htl. rewrite take_app_length, take_app_le in Htl by lia. done.
Qed.

(** A prefix of a file holds its first records, and perhaps a torn one. *)
Lemma wal_file_prefix rs d :
  Forall wal_commit_ok rs → d `prefix_of` wal_file rs →
  ∃ m torn, d = wal_file (take m rs) ++ torn ∧ (torn = [] ∨ torn_record torn) ∧
    (∀ m0 c, len (wal_file (take m0 rs)) ≤ len d → c ∈ take m0 rs → c ∈ take m rs).
Proof.
  intros Hrs. revert d. induction Hrs as [|[seq ops] rs [Hs Hf] Hrs IH]; intros d Hd.
  - exists 0%nat, []. apply prefix_nil_inv in Hd as ->. split_and!; [done|by left|].
    intros m0 c _. by rewrite take_nil.
  - rewrite wal_file_cons in Hd. destruct (decide (length d < length (wal_record seq ops))%nat) as [Hlt|Hge].
    + exists 0%nat, d. split_and!; [done| |].
      * destruct (decide (d = [])) as [->|Hne]; [by left|right].
        destruct Hd as [tl Htl]. exists seq, ops, (drop (length d) (wal_record seq ops)). split_and!; [|  |done].
        -- rewrite <-(take_drop (length d) (wal_record seq ops)) at 1. f_equal.
           apply (f_equal (take (length d))) in Htl. rewrite (take_app_le (wal_record _ _)) in Htl by lia.
           by rewrite take_app_length in Htl.
        -- intros E. apply (f_equal length) in E. rewrite length_drop in E. cbn [length] in E. lia.
      * intros [|m0] c Hl; [done|]. cbn [take firstn] in Hl. rewrite wal_file_cons, length_app in Hl. lia.
    + destruct (prefix_of_app d (wal_record seq ops) (wal_file rs)) as [d' ->]; [done|lia|].
      apply prefix_app_inv in Hd. destruct (IH d' Hd) as (m & torn & -> & Ht & Hm).
      exists (Datatypes.S m), torn. cbn [take firstn]. rewrite wal_file_cons, <-app_assoc. split_and!; [done..|].
      intros [|m0] c Hl; [by intros ?%elem_of_nil|]. cbn [take firstn] in Hl |- *.
      rewrite wal_file_cons, !length_app in Hl. intros [->|Hc]%elem_of_cons; [by constructor|].
      constructor. eapply Hm; [|exact Hc]. rewrite length_app. lia.
Qed.

Definition decoded (f : File) : list pwalRecord :=
  match decodePWALShard (f_data f) with Ok r => r | Err _ => [] end.

(** The records of shard [i] that replay finds again, and all of them in the order
    of their numbers. *)
Definition taken (N : Z) staged disk (i : nat) : list wal_commit :=
  take (length (decoded (disk_file disk i))) (shard_hist N i staged).
Definition kept (N : Z) staged disk : list wal_commit :=
  merge_sort seq_le (concat (taken N staged disk <$> List.seq 0 (Z.to_nat N))).

Definition entry_in (N : Z) disk (r : pwalRecord) (c : wal_commit) : Prop :=
  record_of (f_data (disk_file disk (Z.to_nat ((c.1 - 1) mod N)))) r c.

Lemma shard_hist_wal_ok N s staged M i :
  store_inv N s staged M → Forall wal_commit_ok (shard_hist N i staged).
Proof.
  intros Hs. pose proof (ti_next _ _ _ _ Hs). rewrite Forall_forall. intros c [_ Hc]%elem_of_shard_hist.
  pose proof (ti_seqs _ _ _ _ Hs c Hc). split; [unfold is_u64; lia|].
  pose proof (ti_fits _ _ _ _ Hs) as Hf. rewrite Forall_forall in Hf. apply Hf. by apply list_elem_of_fmap_2.
Qed.

Lemma staged_NoDup N s staged M : store_inv N s staged M → NoDup staged.
Proof. intros Hs. by eapply NoDup_fmap_1, Hs. Qed.

Lemma shard_replay N s staged M disk i :
  store_inv N s staged M → survives s disk → (i < Z.to_nat N)%nat →
  decodePWALShard (f_data (disk_file disk i)) = Ok (decoded (disk_file disk i)) ∧
  Forall2 (entry_in N disk) (decoded (disk_file disk i)) (taken N staged disk i) ∧
  (∀ c, c ∈ shard_hist N i staged → c.1 ∈ M → c ∈ taken N staged disk i) ∧
  (∀ sh, ps_shards s !! i = Some sh → f_data (disk_file disk i) = f_data (sh_f sh) →
     taken N staged disk i = shard_hist N i staged).
Proof.
  intros Hinv Hsv Hi. pose proof (ti_len _ _ _ _ Hinv). pose proof (ti_pos _ _ _ _ Hinv).
  destruct (lookup_lt_is_Some_2 (ps_shards s) i) as [sh Hsh]; [lia|].
  destruct (ti_shards _ _ _ _ Hinv i sh Hsh) as [_ _ Hdata _ _ _ _ _ (m0 & Hm0 & Hsync) _ _ _].
  destruct (Hsv i sh Hsh) as [Hp Hl]. rewrite Hdata in Hp. rewrite Hm0 in Hl.
  pose proof (shard_hist_wal_ok N s staged M i Hinv) as Hok.
  destruct (wal_file_prefix _ _ Hok Hp) as (m & torn & Hd & Ht & Hm).
  assert (Hdec : decodePWALShard (f_data (disk_file disk i)) = Ok (wal_replay 0 (take m (shard_hist N i staged)))).
  { rewrite Hd. apply decodePWALShard_spec; [by apply Forall_take|done]. }
  assert (Hdd : decoded (disk_file disk i) = wal_replay 0 (take m (shard_hist N i staged)))
    by (unfold decoded; by rewrite Hdec).
  pose proof (wal_replay_of [] (take m (shard_hist N i staged)) torn) as Hrep. cbn [app length] in Hrep.
  change (Z.of_nat 0) with 0 in Hrep.
  assert (Htk : taken N staged disk i = take m (shard_hist N i staged)).
  { unfold taken. rewrite Hdd. rewrite (Forall2_length _ _ _ Hrep), length_take, <-take_take, firstn_all. done. }
  split_and!.
  - by rewrite Hdd.
  - rewrite Hdd, Htk. rewrite <-Hd in Hrep. apply (Forall2_impl_r _ _ _ _ Hrep).
    intros r c Hc Hrc. apply elem_of_take in Hc as (j & Hc & _). apply list_elem_of_lookup_2, elem_of_shard_hist in Hc as [Hc _].
    unfold entry_in. by rewrite Hc, Nat2Z.id.
  - intros c Hc HM. rewrite Htk. apply (Hm m0); [done|]. apply Hsync; [done|by left].
  - intros sh' Hsh' Heq. rewrite Htk. rewrite Hsh in Hsh'. apply (inj Some) in Hsh' as <-. rewrite Heq, Hdata in Hm.
    apply take_ge. destruct (decide (length (shard_hist N i staged) ≤ m)%nat); [done|].
    exfalso. destruct (lookup_lt_is_Some_2 (shard_hist N i staged) m) as [c Hc]; [lia|].
    assert (Hin : c ∈ take m (shard_hist N i staged)).
    { apply (Hm (length (shard_hist N i staged))); rewrite firstn_all; [lia|]. by eapply list_elem_of_lookup_2. }
    apply elem_of_take in Hin as (j & Hj & Hjm).
    pose proof (NoDup_filter (λ c : wal_commit, (c.1 - 1) mod N = Z.of_nat i) _ (staged_NoDup _ _ _ _ Hinv)) as Hnd.
    pose proof (NoDup_lookup _ _ _ _ Hnd Hj Hc). lia.
Qed.

Lemma NoDup_concat_disjoint {A} (f : nat → list A) (l : list nat) :
  (∀ i, NoDup (f i)) → (∀ i j x, x ∈ f i → x ∈ f j → i = j) → NoDup l → NoDup (concat (f <$> l)).
Proof.
  intros Hf Hd. induction 1 as [|i l Hi Hl IH]; [constructor|]. rewrite fmap_cons. cbn [concat].
  apply NoDup_app. split_and!; [done| |done].
  intros x Hx Hin. apply list_elem_of_In, in_concat in Hin as (y & Hy & Hxy).
  apply list_elem_of_In, list_elem_of_fmap in Hy as (j & -> & Hj). apply list_elem_of_In in Hxy.
  by rewrite (Hd i j x) in Hi.
Qed.

Lemma elem_of_taken N staged disk i c :
  c ∈ taken N staged disk i → c ∈ staged ∧ (c.1 - 1) mod N = Z.of_nat i.
Proof.
  intros Hc. unfold taken in Hc. apply elem_of_take in Hc as (j & Hj & _).
  apply list_elem_of_lookup_2, elem_of_shard_hist in Hj. tauto.
Qed.

Lemma elem_of_kept N staged disk c :
  1 ≤ N → c ∈ kept N staged disk ↔ c ∈ taken N staged disk (Z.to_nat ((c.1 - 1) mod N)).
Proof.
  intros HN. unfold kept. rewrite merge_sort_Permutation, list_elem_of_In, in_concat. split.
  - intros (y & Hy & Hc). apply list_elem_of_In, list_elem_of_fmap in Hy as (j & -> & Hj).
    apply list_elem_of_In in Hc. destruct (elem_of_taken _ _ _ _ _ Hc) as [Hn Hm].
    by rewrite Hm, Nat2Z.id.
  - intros Hn. exists (taken N staged disk (Z.to_nat ((c.1 - 1) mod N))).
    split; [|by apply list_elem_of_In].
    apply list_elem_of_In, list_elem_of_fmap. eexists. split; [reflexivity|]. apply elem_of_seq.
    pose proof (Z.mod_pos_bound (c.1 - 1) N ltac:(lia)). lia.
Qed.

Lemma kept_staged N staged disk c : 1 ≤ N → c ∈ kept N staged disk → c ∈ staged.
Proof. intros HN Hc. apply elem_of_kept, elem_of_taken in Hc as [? _]; done. Qed.

Lemma kept_NoDup N staged disk : NoDup staged → NoDup (kept N staged disk).
Proof.
  intros Hnd. unfold kept. rewrite merge_sort_Permutation.
  apply NoDup_concat_disjoint; [| |apply NoDup_seq].
  - intros i. unfold taken, shard_hist. eapply sublist_NoDup; [|apply sublist_take]. by apply NoDup_filter.
  - intros i j c [_ Hi]%elem_of_taken [_ Hj]%elem_of_taken. lia.
Qed.

(** Different records have different numbers. *)
Lemma staged_inj N s staged M c c' :
  store_inv N s staged M → c ∈ staged → c' ∈ staged → c.1 = c'.1 → c = c'.
Proof.
  intros Hs [i Hi]%list_elem_of_lookup [j Hj]%list_elem_of_lookup E.
  assert (i = j) as ->; [|congruence]. apply (NoDup_lookup staged.*1 _ _ c.1); [apply Hs| |].
  - by rewrite list_lookup_fmap, Hi.
  - by rewrite list_lookup_fmap, Hj, E.
Qed.

Lemma kept_sorted N s staged M disk :
  store_inv N s staged M → StronglySorted seq_lt (kept N staged disk).
Proof.
  intros Hs. apply seq_le_lt.
  - unfold kept. apply StronglySorted_merge_sort; [intros a b c|intros a b]; unfold seq_le; lia.
  - apply NoDup_fmap_2_strong; [|by eapply kept_NoDup, staged_NoDup].
    pose proof (ti_pos _ _ _ _ Hs) as HN. intros c c' Hc Hc' E.
    apply (kept_staged N _ _ _ HN) in Hc, Hc'. by eapply staged_inj.
Qed.

Lemma Forall2_concat_fmap {A B C} (P : A → B → Prop) (f : C → list A) (g : C → list B) (l : list C) :
  (∀ x, x ∈ l → Forall2 P (f x) (g x)) → Forall2 P (concat (f <$> l)) (concat (g <$> l)).
Proof.
  induction l as [|x l IH]; intros Hl; [constructor|]. rewrite !fmap_cons. cbn [concat].
  apply Forall2_app; [apply Hl; by constructor|]. apply IH. intros; apply Hl. by constructor.
Qed.

Lemma seq_sorted_lookup ks i j c c' :
  StronglySorted seq_lt ks → ks !! i = Some c → ks !! j = Some c' → (i < j)%nat → c.1 < c'.1.
Proof.
  intros Hs. revert i j. induction Hs as [|x l Hs IH Hall]; intros [|i] [|j] Hi Hj Hlt; simplify_eq/=; try lia.
  - apply (Forall_lookup_1 _ _ _ _ Hall Hj).
  - eapply IH; [done..|lia].
Qed.

(** Records of different commits have different sequence numbers. *)
Lemma entry_seq_inj N disk all ks x y :
  Forall2 (entry_in N disk) all ks → StronglySorted seq_lt ks →
  x ∈ all → y ∈ all → record_le x y → record_le y x → x = y.
Proof.
  intros Hf Hs Hx Hy Hxy Hyx. unfold record_le in *.
  apply list_elem_of_lookup in Hx as [i Hi]. apply list_elem_of_lookup in Hy as [j Hj].
  destruct (Forall2_lookup_l _ _ _ _ _ Hf Hi) as (c & Hc & Hxc & _).
  destruct (Forall2_lookup_l _ _ _ _ _ Hf Hj) as (c' & Hc' & Hyc & _).
  destruct (Nat.lt_trichotomy i j) as [Hlt|[->|Hlt]]; [|congruence|].
  - pose proof (seq_sorted_lookup _ _ _ _ _ Hs Hc Hc' Hlt). lia.
  - pose proof (seq_sorted_lookup _ _ _ _ _ Hs Hc' Hc Hlt). lia.
Qed.

Lemma record_sorted (l : list pwalRecord) : StronglySorted record_le (merge_sort record_le l).
Proof. apply StronglySorted_merge_sort; [intros a b c|intros a b]; unfold record_le; lia. Qed.

(** Replay goes through the survivors in commit order. *)
Lemma sorted_replay N disk all all' ks :
  Forall2 (entry_in N disk) all' ks → StronglySorted seq_lt ks → all ≡ₚ all' → merge_sort record_le all = all'.
Proof.
  intros Hf Hs Hp. apply (StronglySorted_unique_strong record_le).
  - intros x y Hx Hy. rewrite merge_sort_Permutation, Hp in Hx. by eapply entry_seq_inj.
  - apply record_sorted.
  - clear Hp. revert Hs. induction Hf as [|r c all' ks [Hrc _] Hf IH]; intros Hs; [constructor|].
    inversion_clear Hs as [|?? Hs' Hall]. constructor; [by apply IH|].
    rewrite Forall_forall. intros r' Hr'. apply list_elem_of_lookup in Hr' as [j Hj].
    destruct (Forall2_lookup_l _ _ _ _ _ Hf Hj) as (c' & Hc' & Hr & _).
    pose proof (Forall_lookup_1 _ _ _ _ Hall Hc') as Hlt. unfold record_le, seq_lt in *. lia.
  - by rewrite merge_sort_Permutation.
Qed.

Lemma replay_all_ok N disk recs shards (t : T) m rs ks :
  1 ≤ N → shards = opened_shards N disk recs → Forall2 (entry_in N disk) rs ks →
  Forall (λ c, 1 ≤ c.1 < 2^62) ks → index_ok shards t m →
  index_ok shards (foldl (replay_record N) t rs) (apply_ops m (concat ks.*2)).
Proof.
  intros HN Hsh Hrs. revert t m. induction Hrs as [|r [q ops] rs ks [Hq He] Hrs IH]; intros t m Hks Hi; [done|].
  inversion_clear Hks as [|?? Hk Hks']. cbn [fst snd foldl fmap list_fmap concat] in *.
  rewrite apply_ops_app. apply IH; [done|]. unfold replay_record, seq_shard. rewrite Hq.
  rewrite u64_small by (unfold is_u64; lia).
  pose proof (Z.mod_pos_bound (q - 1) N ltac:(lia)).
  rewrite <-(Z2Nat.id ((q - 1) mod N)) by lia.
  set (i := Z.to_nat ((q - 1) mod N)) in *.
  apply (replay_entries_ok _ _ (open_shard N i (disk_file disk i) (recs (disk_file disk i)))); [|exact He|done].
  rewrite Hsh. apply lookup_opened. split; [lia|done].
Qed.

Lemma index_view s m k : index_ok (ps_shards s) (ps_tree s) m → pwal_Get s k = Ok (m !! k).
Proof.
  intros Hi. specialize (Hi k). unfold pwal_Get. rewrite bt_Get_view.
  destruct (m !! k) as [v|]; [|by rewrite Hi]. destruct Hi as (e & -> & _ & Hv). by rewrite Hv.
Qed.

Lemma index_scan s m lo hi :
  index_ok (ps_shards s) (ps_tree s) m →
  pwal_Scan s lo hi = Ok {| it_items := range_items m lo hi; it_err := None |}.
Proof.
  intros Hi. destruct (index_ok_items _ _ _ lo hi Hi) as (kvs & Hk & ->). unfold pwal_Scan.
  by rewrite (read_entries_ok _ _ _ Hk).
Qed.

(** The commits the watermark covers are kept; after a clean stop, all are. *)
Lemma kept_durable N s staged M disk c :
  store_inv N s staged M → survives s disk → c ∈ staged → c.1 ∈ M → c ∈ kept N staged disk.
Proof.
  intros Hs Hsv Hc HM. pose proof (ti_pos _ _ _ _ Hs) as HN. apply elem_of_kept; [done|].
  pose proof (Z.mod_pos_bound (c.1 - 1) N ltac:(lia)).
  destruct (shard_replay N s staged M disk (Z.to_nat ((c.1 - 1) mod N)) Hs Hsv) as (_ & _ & Ht & _); [lia|].
  apply Ht; [|done]. apply elem_of_shard_hist. split; [lia|done].
Qed.

Lemma kept_all N s staged M :
  store_inv N s staged M → survives s (files s) → kept N staged (files s) ≡ₚ staged.
Proof.
  intros Hs Hsv. pose proof (ti_pos _ _ _ _ Hs) as HN. pose proof (ti_len _ _ _ _ Hs).
  apply NoDup_Permutation; [by eapply kept_NoDup, staged_NoDup|by eapply staged_NoDup|].
  intros c. split; [by apply kept_staged|]. intros Hc. apply elem_of_kept; [done|].
  pose proof (Z.mod_pos_bound (c.1 - 1) N ltac:(lia)).
  destruct (shard_replay N s staged M (files s) (Z.to_nat ((c.1 - 1) mod N)) Hs Hsv) as (_ & _ & _ & Ht); [lia|].
  destruct (lookup_lt_is_Some_2 (ps_shards s) (Z.to_nat ((c.1 - 1) mod N))) as [sh Hsh]; [lia|].
  rewrite (Ht sh Hsh); [apply elem_of_shard_hist; split; [lia|done]|].
  unfold disk_file, files. by rewrite list_lookup_fmap, Hsh.
Qed.

Lemma reopen_ok N s staged M disk :
  store_inv N s staged M → survives s disk →
  ∃ s', OpenPWALStore (T := T) disk N = Ok s' ∧
    index_ok (ps_shards s') (ps_tree s') (apply_ops ∅ (concat (kept N staged disk).*2)).
Proof.
  intros Hs Hsv. pose proof (ti_pos _ _ _ _ Hs) as HN. pose proof (ti_next _ _ _ _ Hs).
  eexists. split; [apply (open_ok disk N decoded HN)|].
  { intros i Hi. by apply (shard_replay N s staged M). }
  cbn [ps_shards ps_tree]. set (all := concat _).
  assert (Hall : Forall2 (entry_in N disk) all (concat (taken N staged disk <$> List.seq 0 (Z.to_nat N)))).
  { apply Forall2_concat_fmap. intros i Hi%elem_of_seq.
    apply (shard_replay N s staged M disk i Hs Hsv). lia. }
  assert (Hperm : concat (taken N staged disk <$> List.seq 0 (Z.to_nat N)) ≡ₚ kept N staged disk)
    by (unfold kept; by rewrite merge_sort_Permutation).
  assert (∃ all', all ≡ₚ all' ∧ Forall2 (entry_in N disk) all' (kept N staged disk)) as (all' & Hp & Hk).
  { apply Forall2_flip in Hall. destruct (Permutation_Forall2 Hperm Hall) as (all' & ? & Hf).
    exists all'. split; [done|]. by apply Forall2_flip. }
  rewrite (sorted_replay N disk all all' _ Hk (kept_sorted N s staged M disk Hs) Hp).
  apply (replay_all_ok N disk decoded _ _ ∅ all' (kept N staged disk)); [done|done|done| |].
  - rewrite Forall_forall. intros c Hc%kept_staged; [|done]. pose proof (ti_seqs _ _ _ _ Hs c Hc). lia.
  - intros k. by rewrite lookup_empty, bt_New_view, lookup_empty.
Qed.

Lemma files_survive N s staged M : store_inv N s staged M → survives s (files s).
Proof.
  intros Hs i sh Hsh. unfold disk_file, files. rewrite list_lookup_fmap, Hsh. simpl. split; [done|].
  destruct (ti_shards _ _ _ _ Hs i sh Hsh) as [_ _ Hd _ _ _ _ _ (m & Hm & _) _ _ _]. rewrite Hd, Hm.
  rewrite <-(take_drop m (shard_hist N i staged)) at 2. rewrite wal_file_app, length_app. lia.
Qed.

(** A key whose batches were indexed in the order of their numbers has, in that
    order, the value it has in the index. *)
Lemma in_order_value N w M k l :
  pool_inv N w M → no_call_open w → StronglySorted seq_lt l → l ≡ₚ pw_staged w →
  StronglySorted seq_lt (filter (touches k) (pw_indexed w).*2) →
  apply_ops ∅ (concat l.*2) !! k = apply_ops ∅ (concat (pw_indexed w).*2.*2) !! k.
Proof.
  intros Hinv Hidle Hl Hp Hix. rewrite (apply_touching l), (apply_touching (pw_indexed w).*2).
  do 4 f_equal. apply seq_sorted_unique; [by apply seq_sorted_filter|done|].
  by rewrite Hp, (idle_indexed N w M).
Qed.

(** ** Waiting for durability *)

Definition syncs s : Prop := ps_err s = None ∧ Forall (λ sh, f_syncFails (sh_f sh) = false) (ps_shards s).

(** A round of a flusher. *)
Definition round (sh : pwalShard) : pwalShard := flush_take (flush_mark (flush_sync sh).1).1.

Lemma lookup_flush i s j :
  ps_shards (flush i s) !! j = (if decide (i = j) then round <$> ps_shards s !! j else ps_shards s !! j) ∧
  (syncs s → ps_err (flush i s) = None).
Proof.
  assert (Hin : ∀ (l : list pwalShard) sh sh', l !! i = Some sh → <[i:=sh']> l !! i = Some sh').
  { intros l sh sh' Hl. apply list_lookup_insert_eq. by eapply lookup_lt_Some. }
  unfold flush, sync_at. destruct (ps_shards s !! i) as [sh|] eqn:Hsh.
  - destruct (flush_sync sh) as [sh1 err] eqn:E1. unfold mark_at. cbn [ps_shards].
    rewrite (Hin _ _ _ Hsh). destruct (flush_mark sh1) as [sh2 d] eqn:E2. unfold take_at. cbn [ps_shards].
    rewrite (Hin _ sh1) by (by eapply Hin). cbn [ps_shards ps_err]. split.
    + rewrite !list_insert_insert_eq. case_decide as Hj; [subst j|by rewrite list_lookup_insert_ne].
      rewrite (Hin _ _ _ Hsh), Hsh. cbn [fmap option_fmap option_map]. unfold round. rewrite E1. cbn [fst]. by rewrite E2.
    + intros [He Hf]. rewrite He. cbn [setErr]. pose proof (Forall_lookup_1 _ _ _ _ Hf Hsh) as Hs.
      unfold flush_sync, file_Sync in E1. cbn beta in Hs. rewrite Hs in E1.
      by destruct (sh_flusher sh) as [[]|]; simplify_eq.
  - unfold mark_at. rewrite Hsh. unfold take_at. rewrite Hsh. split; [|by intros [? _]].
    case_decide as Hj; [subst j; by rewrite Hsh|done].
Qed.

Lemma round_syncFails sh : f_syncFails (sh_f (round sh)) = f_syncFails (sh_f sh).
Proof.
  destruct sh as [x n f ls wo p fl [[seqs|seqs|]|]]; unfold round, flush_sync, file_Sync; cbn; try done.
  destruct (f_syncFails f) eqn:Es; cbn; [done|]. by case_decide.
Qed.

Lemma round_waiting sh :
  f_syncFails (sh_f sh) = false → (sh_flusher sh = None → sh_pending sh = []) →
  waiting (round sh) = sh_pending sh ∧ sh_pending (round sh) = [].
Proof.
  destruct sh as [x n f ls wo p fl flr]; cbn [sh_f sh_flusher sh_pending]. intros Hs Hidle.
  assert (Hw : ∀ p : list Z, taken_seqs (if bool_decide (p = []) then None else Some (FlSync p)) ++ [] = p).
  { intros p'. rewrite app_nil_r. by case_bool_decide; subst. }
  unfold round, flush_sync, file_Sync. destruct flr as [[seqs|seqs|]|]; cbn; rewrite ?Hs.
  - cbn. case_decide; cbn; (split; [apply Hw|done]).
  - split; [apply Hw|done].
  - split; [apply Hw|done].
  - unfold waiting. cbn. by rewrite Hidle.
Qed.

Lemma flush_syncs i s : syncs s → syncs (flush i s).
Proof.
  intros Hs. split; [by apply (lookup_flush i s i)|]. rewrite Forall_lookup. intros j sh Hj.
  destruct (lookup_flush i s j) as [E _]. rewrite E in Hj. destruct Hs as [_ Hf]. rewrite Forall_lookup in Hf.
  case_decide; [|by eapply Hf]. apply fmap_Some in Hj as (sh0 & Hsh0 & ->). rewrite round_syncFails. by eapply Hf.
Qed.

Lemma event_store N w e s :
  1 ≤ N → pwal_run N w → event_fits e → pwal_exec w e = with_store w s → same_data (pw_store w) s →
  pwal_run N (with_store w s).
Proof.
  intros HN Hrun He Hx (Hn & _). rewrite <-Hx. apply run_event; [done..|]. rewrite Hx.
  destruct (run_inv N w HN Hrun) as [M Hinv]. pose proof (pi_store _ _ _ Hinv) as Hs.
  split; cbn [with_store pw_store pw_staged]; [rewrite Hn|]; apply Hs.
Qed.

Lemma flush_run N w i : 1 ≤ N → pwal_run N w → pwal_run N (with_store w (flush i (pw_store w))).
Proof.
  intros HN Hrun. unfold flush. set (s1 := sync_at i (pw_store w)). set (s2 := mark_at i s1).
  assert (Hr1 : pwal_run N (with_store w s1)) by (by eapply (event_store N w (PeSync i)); [..|apply sync_at_data]).
  assert (Hr2 : pwal_run N (with_store w s2)).
  { by eapply (event_store N (with_store w s1) (PeMark i) s2); [..|apply mark_at_data]. }
  by eapply (event_store N (with_store w s2) (PeTake i)); [..|apply take_at_data].
Qed.

Lemma flush_all_ok N w l :
  1 ≤ N → NoDup l → pwal_run N w → syncs (pw_store w) →
  pwal_run N (with_store w (foldr flush (pw_store w) l)) ∧ syncs (foldr flush (pw_store w) l) ∧
  ∀ j, ps_shards (foldr flush (pw_store w) l) !! j =
    (if decide (j ∈ l) then round <$> ps_shards (pw_store w) !! j else ps_shards (pw_store w) !! j).
Proof.
  intros HN Hnd Hrun Hs. induction Hnd as [|i l Hi Hl IH]; cbn [foldr].
  { split_and!; [by destruct w|done|done]. }
  destruct IH as (Hr & Hs' & Hj). split_and!.
  - by apply (flush_run N (with_store w _) i).
  - by apply flush_syncs.
  - intros j. rewrite (proj1 (lookup_flush i _ j)), Hj. destruct (decide (i = j)) as [->|Hne].
    + by rewrite decide_False, decide_True by (done || by constructor).
    + destruct (decide (j ∈ l)).
      * by rewrite decide_True by (by constructor).
      * rewrite decide_False; [done|]. by intros [?|?]%elem_of_cons.
Qed.

Lemma flush_round_all N w :
  1 ≤ N → pwal_run N w → syncs (pw_store w) →
  let s' := foldr flush (pw_store w) (seq_all (pw_store w)) in
  pwal_run N (with_store w s') ∧ syncs s' ∧
  ∀ j sh', ps_shards s' !! j = Some sh' →
    ∃ sh, ps_shards (pw_store w) !! j = Some sh ∧ waiting sh' = sh_pending sh ∧ sh_pending sh' = [].
Proof.
  intros HN Hrun Hs. destruct (flush_all_ok N w (seq_all (pw_store w)) HN (NoDup_seq _ _) Hrun Hs) as (Hr & Hs' & Hj).
  split_and!; [done..|]. intros j sh' Hsh'. rewrite Hj in Hsh'.
  assert (j < length (ps_shards (pw_store w)))%nat as Hlt.
  { case_decide as Hd; [|by eapply lookup_lt_Some]. apply elem_of_seq in Hd. lia. }
  rewrite decide_True in Hsh' by (apply elem_of_seq; lia).
  apply fmap_Some in Hsh' as (sh & Hsh & ->). exists sh. split; [done|].
  destruct (run_inv N w HN Hrun) as [M Hinv].
  apply round_waiting; [apply (Forall_lookup_1 _ _ _ _ (proj2 Hs) Hsh)|].
  by destruct (ti_shards _ _ _ _ (pi_store _ _ _ Hinv) j sh Hsh).
Qed.

Lemma quiet_durable N w d :
  1 ≤ N → pwal_run N w → no_call_open w → syncs (pw_store w) →
  (∀ j sh, ps_shards (pw_store w) !! j = Some sh → waiting sh = []) →
  pwal_DurableSeq (pw_store w) = Ok d → len (pw_staged w) ≤ d.
Proof.
  intros HN Hrun Hidle [He _] Hq. unfold pwal_DurableSeq. rewrite He. intros Hd. injection Hd as <-.
  destruct (run_inv N w HN Hrun) as [M Hinv]. destruct (idle_seqs N w M Hinv Hidle) as (_ & _ & Hseqs).
  pose proof (pi_store _ _ _ Hinv) as Hs. pose proof (ti_len _ _ _ _ Hs).
  unfold ContigWatermark.get. destruct (ti_wm _ _ _ _ Hs) as (_ & (H0' & Hpre & Hstop) & _).
  destruct (decide (len (pw_staged w) ≤ cw_value (ps_wm (pw_store w)))) as [|Hlt]; [done|]. exfalso. apply Hstop.
  set (x := cw_value (ps_wm (pw_store w)) + 1) in *.
  assert (Hx : x ∈ (pw_staged w).*1) by (rewrite Hseqs; apply elem_of_seqZ; lia).
  apply list_elem_of_fmap in Hx as (c & Hx & Hc).
  pose proof (Z.mod_pos_bound (x - 1) N ltac:(lia)).
  destruct (lookup_lt_is_Some_2 (ps_shards (pw_store w)) (Z.to_nat ((x - 1) mod N))) as [sh Hsh]; [lia|].
  destruct (si_waiting _ _ _ _ _ _ (ti_shards _ _ _ _ Hs _ sh Hsh) He x) as [?|Hw]; [|done|].
  - rewrite Hx. apply list_elem_of_fmap_2, elem_of_shard_hist. rewrite <-Hx. split; [lia|done].
  - rewrite (Hq _ _ Hsh) in Hw. by apply elem_of_nil in Hw.
Qed.

Lemma await_ok N w fuel seq :
  1 ≤ N → pwal_run N w → no_call_open w → syncs (pw_store w) → seq ≤ len (pw_staged w) → (3 ≤ fuel)%nat →
  ∃ s', await fuel seq (pw_store w) = (s', None) ∧ pwal_run N (with_store w s').
Proof.
  intros HN Hrun Hidle Hs Hq Hf. destruct fuel as [|[|[|fuel]]]; try lia. clear Hf.
  assert (Hd : ∀ s, syncs s → ∃ d, pwal_DurableSeq s = Ok d).
  { intros s' [He _]. unfold pwal_DurableSeq. rewrite He. by eexists. }
  destruct (flush_round_all N w HN Hrun Hs) as (Hr1 & Hs1 & Hw1).
  set (s1 := foldr flush (pw_store w) _) in *.
  destruct (flush_round_all N (with_store w s1) HN Hr1 Hs1) as (Hr2 & Hs2 & Hw2). cbn [with_store pw_store] in Hr2, Hs2, Hw2.
  set (s2 := foldr flush s1 _) in *.
  cbn [await]. destruct (Hd _ Hs) as [d ->]. case_decide; [exists (pw_store w); by destruct w|]. fold s1.
  destruct (Hd s1 Hs1) as [d1 ->]. case_decide; [by eauto|]. fold s2.
  destruct (Hd s2 Hs2) as [d2 E2]. rewrite E2. rewrite decide_True; [by eauto|].
  etrans; [exact Hq|]. apply (quiet_durable N (with_store w s2)); [done..| |done].
  intros j sh2 Hsh2. destruct (Hw2 j sh2 Hsh2) as (sh1 & Hsh1 & -> & _).
  by destruct (Hw1 j sh1 Hsh1) as (_ & _ & _ & ->).
Qed.

Lemma commit_syncs s ops s' q :
  syncs s → pwal_CommitAsync s ops = (s', Ok q) → ps_err s' = None → syncs s'.
Proof.
  intros [He Hf] Hc He'. split; [done|]. revert Hc. unfold pwal_CommitAsync. rewrite He. unfold pick_shard, stage_at.
  cbn [ps_shards]. set (j := Z.rem _ _). destruct (decide (j < 0)); [done|].
  destruct (ps_shards s !! Z.to_nat j) as [shj|] eqn:Hj; [|done].
  assert (Hst : f_syncFails (sh_f (stage shj ops).1.1.1) = f_syncFails (sh_f shj)).
  { unfold stage. destruct (encodePWALRecord _ _) as [rec rel]. unfold file_Write.
    destruct (f_space (sh_f shj)); [case_decide|]; done. }
  destruct (stage shj ops) as [[[sh' seq] locs] err]. cbn [fst] in Hst.
  intros E. injection E as <- _. cbn [index_batch ps_shards]. apply Forall_insert; [done|].
  rewrite Hst. by apply (Forall_lookup_1 _ _ _ _ Hf Hj).
Qed.

Lemma exec_indexed w e : pw_indexed w `prefix_of` pw_indexed (pwal_exec w e).
Proof.
  destruct e as [ops|n|i|i|i|i]; try done. cbn [pwal_exec]. destruct (pw_calls w !! n); [|done].
  destruct (co_step _ _). by eexists.
Qed.

(** What the watermark says: the numbers it covers were staged, and their records
    are kept. *)
Lemma watermark_staged N s staged M d q :
  store_inv N s staged M → pwal_DurableSeq s = Ok d → 1 ≤ q ≤ d → ∃ c, q = c.1 ∧ c ∈ staged.
Proof.
  intros Hs Hd Hq. unfold pwal_DurableSeq in Hd. destruct (ps_err s); [done|]. injection Hd as <-.
  destruct (ti_wm _ _ _ _ Hs) as (_ & (_ & Hp & _) & _). by apply list_elem_of_fmap, (ti_marks _ _ _ _ Hs), Hp.
Qed.

Lemma kept_watermark N s staged M disk d c :
  store_inv N s staged M → survives s disk → pwal_DurableSeq s = Ok d → c ∈ staged → c.1 ≤ d →
  c ∈ kept N staged disk.
Proof.
  intros Hs Hsv Hd Hc Hq. unfold pwal_DurableSeq in Hd. destruct (ps_err s); [done|]. injection Hd as <-.
  eapply kept_durable; [done..|]. destruct (ti_wm _ _ _ _ Hs) as (_ & (_ & Hp & _) & _). apply Hp.
  pose proof (ti_seqs _ _ _ _ Hs c Hc). unfold ContigWatermark.get in Hq. lia.
Qed.

(** ** Properties *)

(** C19: in its first lifetime, from its creation in an empty directory until it
    is opened again, and on a device with room, the store is a map shared by
    concurrent callers. After any interleaving of the critical sections of
    [CommitAsync], steps of the flushers and sync failures, reads and scans give the
    batches of the calls that updated the index, applied in that order, from values
    read back from the files. These are exactly the calls that returned a number,
    each once; the order only grows at its end, so a call that starts after another
    has returned comes after it. No two records have the same number; when no call
    is open the numbers handed out are 1, 2, ... without a gap, and, as long as no
    error was reported, a call that nothing interrupts gets the next. *)
Theorem pwal_is_a_store N w :
  1 ≤ N → pwal_run N w →
  let m := apply_ops ∅ (concat (pw_indexed w).*2.*2) in
  (∀ k, pwal_Get (pw_store w) k = Ok (m !! k)) ∧
  (∀ lo hi, pwal_Scan (pw_store w) lo hi = Ok {| it_items := range_items m lo hi; it_err := None |}) ∧
  (∀ n ops q, pw_calls w !! n = Some (CoDone ops (Ok q)) ↔ (n, (q, ops)) ∈ pw_indexed w) ∧
  NoDup (pw_indexed w).*1 ∧ NoDup (pw_staged w).*1 ∧
  (∀ e, pw_indexed w `prefix_of` pw_indexed (pwal_exec w e)) ∧
  (no_call_open w → (pw_indexed w).*2.*1 ≡ₚ seqZ 1 (len (pw_indexed w))) ∧
  (∀ ops, no_call_open w → ps_err (pw_store w) = None → wal_fits ops →
     let seq := len (pw_indexed w) + 1 in
     len (wal_file (pw_staged w ++ [(seq, ops)])) < 2^62 →
     ∃ s', pwal_CommitAsync (pw_store w) ops = (s', Ok seq) ∧ pwal_run N (after_call w s' ops seq)).
Proof.
  intros HN Hrun m. destruct (run_inv N w HN Hrun) as [M Hinv].
  assert (Hlen : no_call_open w → len (pw_staged w) = len (pw_indexed w)).
  { intros Hidle. pose proof (Permutation_length (idle_indexed N w M Hinv Hidle)) as Hl. by rewrite Hl, length_fmap. }
  split_and!.
  - intros k. apply index_view, Hinv.
  - intros lo hi. apply index_scan, Hinv.
  - apply Hinv.
  - apply Hinv.
  - apply (ti_nodup _ _ _ _ (pi_store _ _ _ Hinv)).
  - apply exec_indexed.
  - intros Hidle. destruct (idle_seqs N w M Hinv Hidle) as (_ & _ & Hs).
    by rewrite <-(idle_indexed N w M Hinv Hidle), <-Hlen.
  - intros ops Hidle He Hf seq Hb. unfold seq in *. rewrite <-Hlen in * by done.
    destruct (call_alone N w ops) as (s' & ? & _ & ?); [done..|]. by exists s'.
Qed.

(** C13: in the first lifetime (the store was created in an empty directory and
    not opened again before this crash, on a device with room) a crash at any
    moment, whatever the callers and the flushers were doing, loses nothing that
    was reported durable. Whatever is left of the files beyond what was synced, the
    store opens again with the same number of shards and is the map that some of the
    staged records make, applied in the order of their numbers: every record up to
    the durable watermark, so every call that returned such a number, and after a
    clean stop all. After a clean stop with no call open, a key has the value it
    had if the batches with an operation on it were indexed in the order of their
    numbers. *)
Theorem pwal_crash_recovers N w disk :
  1 ≤ N → pwal_run N w → survives (pw_store w) disk →
  ∃ s' kept, OpenPWALStore (T := T) disk N = Ok s' ∧
    StronglySorted seq_lt kept ∧ (∀ c, c ∈ kept → c ∈ pw_staged w) ∧
    (∀ d, pwal_DurableSeq (pw_store w) = Ok d →
       (∀ q, 1 ≤ q ≤ d → q ∈ kept.*1) ∧ (∀ c, c ∈ pw_staged w → c.1 ≤ d → c ∈ kept) ∧
       ∀ n ops q, pw_calls w !! n = Some (CoDone ops (Ok q)) → q ≤ d → (q, ops) ∈ kept) ∧
    (disk = files (pw_store w) → kept ≡ₚ pw_staged w) ∧
    (∀ k, pwal_Get s' k = Ok (apply_ops ∅ (concat kept.*2) !! k)) ∧
    (∀ lo hi, pwal_Scan s' lo hi =
       Ok {| it_items := range_items (apply_ops ∅ (concat kept.*2)) lo hi; it_err := None |}) ∧
    (∀ k, disk = files (pw_store w) → no_call_open w →
       StronglySorted seq_lt (filter (touches k) (pw_indexed w).*2) →
       pwal_Get s' k = pwal_Get (pw_store w) k).
Proof.
  intros HN Hrun Hsv. destruct (run_inv N w HN Hrun) as [M Hinv]. pose proof (pi_store _ _ _ Hinv) as Hs.
  destruct (reopen_ok N _ _ M disk Hs Hsv) as (s' & Ho & Hi).
  pose proof (kept_sorted N _ _ M disk Hs) as Hsort.
  assert (Hdur : ∀ d c, pwal_DurableSeq (pw_store w) = Ok d → c ∈ pw_staged w → c.1 ≤ d → c ∈ kept N (pw_staged w) disk)
    by (intros; by eapply kept_watermark).
  exists s', (kept N (pw_staged w) disk). split_and!; [done|done| | | | | |].
  - intros c. by apply kept_staged.
  - intros d Hd. split_and!.
    + intros q Hq. destruct (watermark_staged N _ _ M d q Hs Hd Hq) as (c & -> & Hc).
      apply list_elem_of_fmap_2. apply (Hdur d); [done..|lia].
    + intros c. by apply Hdur.
    + intros n ops q Hc Hq. apply (Hdur d); [done| |done]. apply (pi_done _ _ _ Hinv) in Hc.
      rewrite (pi_staged _ _ _ Hinv). apply elem_of_app. left. by apply (list_elem_of_fmap_2 snd) in Hc.
  - intros ->. by eapply kept_all.
  - intros k. by apply index_view.
  - intros lo hi. by apply index_scan.
  - intros k -> Hidle Hord. rewrite (index_view _ _ _ Hi), (index_view _ _ _ (pi_index _ _ _ Hinv)). f_equal.
    apply (in_order_value N w M); [done..|by eapply kept_all|done].
Qed.

(** In the first lifetime a durable commit returns. While syncs succeed and no
    other call is open, the caller of [Commit] is answered after at most two rounds
    of the flushers. *)
Theorem pwal_commit_returns N w ops fuel :
  1 ≤ N → pwal_run N w → no_call_open w → syncs (pw_store w) → wal_fits ops →
  len (wal_file (pw_staged w ++ [(len (pw_staged w) + 1, ops)])) < 2^62 → (3 ≤ fuel)%nat →
  ∃ s', pwal_Commit fuel (pw_store w) ops true = (s', None) ∧
    ∀ k, pwal_Get s' k = Ok (apply_ops ∅ (concat (pw_indexed w).*2.*2 ++ ops) !! k).
Proof.
  intros HN Hrun Hidle Hs Hf Hb Hfuel.
  destruct (call_alone N w ops HN Hrun Hidle (proj1 Hs) Hf Hb) as (s1 & Hc & He1 & Hrun1).
  pose proof (commit_syncs _ _ _ _ Hs Hc He1) as Hs1.
  unfold pwal_Commit. rewrite Hc. set (w1 := after_call w s1 ops (len (pw_staged w) + 1)) in *.
  destruct (await_ok N w1 fuel (len (pw_staged w) + 1) HN Hrun1) as (s' & Ha & Hr'); [|done| |done|].
  - unfold no_call_open. cbn [w1 after_call pw_calls]. apply Forall_app. split; [done|].
    constructor; [|constructor]. by eexists _, _.
  - cbn [w1 after_call pw_staged]. rewrite length_app. cbn [length]. lia.
  - exists s'. split; [exact Ha|]. destruct (run_inv N _ HN Hr') as [M Hinv].
    intros k. rewrite (index_view _ _ _ (pi_index _ _ _ Hinv)). do 3 f_equal.
    cbn [with_store w1 after_call pw_indexed]. rewrite !fmap_app, concat_app. cbn. by rewrite app_nil_r.
Qed.

End lifetime.

(** ** Sequences of events *)

#[global] Instance event_fits_dec e : Decision (event_fits e).
Proof. destruct e; cbn; apply _. Defined.
#[global] Instance in_bounds_dec {T} (w : pool T) : Decision (in_bounds w).
Proof. unfold in_bounds. apply _. Defined.

Fixpoint events_ok {T} `{BTree T} (w : pool T) (es : list pwal_event) : bool :=
  match es with
  | [] => true
  | e :: es => bool_decide (event_fits e) && bool_decide (in_bounds (pwal_exec w e)) && events_ok (pwal_exec w e) es
  end.

Lemma run_events {T} `{BTree T} N (w : pool T) es :
  pwal_run N w → events_ok w es = true → pwal_run N (foldl pwal_exec w es).
Proof.
  revert w. induction es as [|e es IH]; intros w Hrun Hok; [done|]. cbn [events_ok foldl] in *.
  apply andb_prop in Hok as [[He%bool_decide_eq_true Hb%bool_decide_eq_true]%andb_prop Hok].
  apply IH; [by apply run_event|done].
Qed.

(** A call that nothing interrupts, and a round of a shard's flusher. *)
Definition whole_call (n : nat) (ops : list Op) : list pwal_event :=
  [PeCall ops; PeStep n; PeStep n; PeStep n; PeStep n].
Definition flush_events (i : nat) : list pwal_event := [PeSync i; PeMark i; PeTake i].

(** ** What a second lifetime loses *)

Module PwalSample.
Definition key : bytes := ["k"%byte].
Definition put (v : byte) : list Op := [PutOp key [v]].
Definition opened (disk : list File) (n : Z) : pwalStore treeMap :=
  match OpenPWALStore disk n with
  | Ok s => s
  | Err _ => mkPwal [] 0 ∅ (Some errIO) newContigWatermark
  end.
Definition committed (s : pwalStore treeMap) (v : byte) : pwalStore treeMap := (pwal_CommitAsync s (put v)).1.
Definition settled (s : pwalStore treeMap) : pwalStore treeMap := flush 1 (flush 0 s).

(** Two shards, one durable commit, a restart. *)
Definition first : pwalStore treeMap := settled (committed (opened [] 2) "1"%byte).
Definition second : pwalStore treeMap := opened (files first) 2.
(** After the restart, two commits of the same key, both flushed. *)
Definition later : pwalStore treeMap := settled (committed (committed second "2"%byte) "3"%byte).
End PwalSample.

(** A second restart brings back an overwritten value. With two shards, after
    one commit and a restart, the key is written twice more, in order, and both
    commits are durable; a reader sees the last value until the store is opened
    again: then it sees the value before it. The second of the two commits has the
    smaller sequence number, and replay goes by sequence numbers. *)
Theorem pwal_restart_resurrects :
  pwal_Get PwalSample.later PwalSample.key = Ok (Some ["3"%byte]) ∧
  pwal_DurableSeq PwalSample.later = Ok 3 ∧
  pwal_Get (PwalSample.opened (files PwalSample.later) 2) PwalSample.key = Ok (Some ["2"%byte]).
Proof. split_and!; vm_compute; reflexivity. Qed.

(** A commit that waits for a watermark that will not come. *)
Lemma await_stuck {T} `{BTree T} (s : pwalStore T) seq d fuel :
  pwal_DurableSeq s = Ok d → d < seq → foldr flush s (seq_all s) = s →
  (await fuel seq s).2 = Some outOfFuel.
Proof.
  intros Hd Hlt Hs. induction fuel as [|fuel IH]; [done|]. cbn [await].
  rewrite Hd, decide_False, Hs by lia. done.
Qed.

(** After a restart a durable commit may never return. The first commit after
    the restart takes sequence number 3 while number 2 has not been handed out: the
    watermark stays at 1 however long the flushers run. *)
Theorem pwal_restart_blocks fuel :
  (pwal_Commit (Datatypes.S fuel) PwalSample.second (PwalSample.put "2"%byte) true).2 = Some outOfFuel.
Proof.
  unfold pwal_Commit. set (r := pwal_CommitAsync PwalSample.second _).
  assert (Hr : r.2 = Ok 3) by (vm_compute; reflexivity). destruct r as [s r'] eqn:E. simpl in Hr. subst r'.
  cbn [await].
  assert (Hd : pwal_DurableSeq s = Ok 1).
  { change s with ((s, Ok 3 : result Z).1). rewrite <-E. vm_compute. reflexivity. }
  rewrite Hd, decide_False by lia.
  apply (await_stuck _ 3 1); [|lia|];
    (change s with ((s, Ok 3 : result Z).1); rewrite <-E; vm_compute; reflexivity).
Qed.

(** A commit behind a torn record is lost although it was acknowledged as
    durable. Replay stops at the torn record, the file is not truncated, new records
    go behind it, and the next replay never reaches them. *)
Theorem pwal_torn_tail_loses :
  let '(s, err) := pwal_Commit 3 (PwalSample.opened [] 1) (PwalSample.put "1"%byte) true in
  let torn := cut_file 60 <$> files (PwalSample.committed s "2"%byte) in
  let '(s', err') := pwal_Commit 3 (PwalSample.opened torn 1) (PwalSample.put "3"%byte) true in
  err = None ∧ err' = None ∧
  pwal_Get s' PwalSample.key = Ok (Some ["3"%byte]) ∧
  pwal_Get (PwalSample.opened (files s') 1) PwalSample.key = Ok (Some ["1"%byte]).
Proof. vm_compute. split_and!; reflexivity. Qed.

(** ** What overlapping calls lose *)

Module OverlapSample.
Definition start : pool treeMap := mkPool (PwalSample.opened [] 2) [] [] [].
(** Call 0 picks shard 0 and is overtaken: call 1 commits on shard 1 and returns,
    then call 2 overwrites its key on shard 0. Everything is flushed. *)
Definition events : list pwal_event :=
  [PeCall [PutOp ["j"%byte] ["0"%byte]]; PeStep 0; PeStep 0]
    ++ whole_call 1 (PwalSample.put "1"%byte) ++ whole_call 2 (PwalSample.put "2"%byte)
    ++ [PeStep 0; PeStep 0] ++ flush_events 0 ++ flush_events 1 ++ flush_events 0.
Definition overlapped : pool treeMap := foldl pwal_exec start events.
End OverlapSample.

(** A value that was overwritten by a later call comes back already in the first
    lifetime, when a third call overlaps the two. Call 2 starts after call 1 has
    returned number 2, but gets number 1, which the shard of the overtaken call had
    left; both are durable, and replay, which goes by numbers, ends with the value
    of call 1. *)
Theorem pwal_overlap_inverts :
  pwal_run 2 OverlapSample.overlapped ∧ no_call_open OverlapSample.overlapped ∧
  pw_calls OverlapSample.overlapped !! 1%nat = Some (CoDone (PwalSample.put "1"%byte) (Ok 2)) ∧
  pw_calls OverlapSample.overlapped !! 2%nat = Some (CoDone (PwalSample.put "2"%byte) (Ok 1)) ∧
  pwal_DurableSeq (pw_store OverlapSample.overlapped) = Ok 3 ∧
  pwal_Get (pw_store OverlapSample.overlapped) PwalSample.key = Ok (Some ["2"%byte]) ∧
  pwal_Get (PwalSample.opened (files (pw_store OverlapSample.overlapped)) 2) PwalSample.key = Ok (Some ["1"%byte]).
Proof.
  split_and!; [|vm_compute; repeat constructor; by eexists _, _|vm_compute; reflexivity..].
  apply run_events; [|vm_compute; reflexivity]. constructor. vm_compute. reflexivity.
Qed.

(** A first lifetime: two commits on two shards, the first one flushed. *)
Module RunSample.
Definition start : pool treeMap := OverlapSample.start.
Definition run : pool treeMap :=
  foldl pwal_exec start (whole_call 0 (PwalSample.put "1"%byte) ++ flush_events 0
    ++ whole_call 1 (PwalSample.put "2"%byte)).
(** The second commit's file has lost its last ten bytes. *)
Definition disk : list File :=
  [cut_file 31 <$> files (pw_store run) !! 0%nat; cut_file 21 <$> files (pw_store run) !! 1%nat]
  ≫= λ f, match f with Some f => [f] | None => [] end.

Lemma started : pwal_run 2 start.
Proof. constructor. vm_compute. reflexivity. Qed.

Lemma ran : pwal_run 2 run.
Proof. apply run_events; [apply started|vm_compute; reflexivity]. Qed.

Lemma disk_survives : survives (pw_store run) disk.
Proof.
  intros [|[|i]] sh Hsh; vm_compute in Hsh; simplify_eq; (split; [by eexists; vm_compute; reflexivity|vm_compute; done]).
Qed.

Lemma whole_files_survive : survives (pw_store run) (files (pw_store run)).
Proof.
  intros [|[|i]] sh Hsh; vm_compute in Hsh; simplify_eq; (split; [by eexists []; vm_compute; reflexivity|vm_compute; done]).
Qed.

Lemma ended : no_call_open run.
Proof. vm_compute. repeat constructor; by eexists _, _. Qed.

Lemma in_order : StronglySorted seq_lt (filter (touches PwalSample.key) (pw_indexed run).*2).
Proof.
  assert (filter (touches PwalSample.key) (pw_indexed run).*2 = [(1, PwalSample.put "1"%byte); (2, PwalSample.put "2"%byte)])
    as -> by (vm_compute; reflexivity). repeat constructor.
Qed.
End RunSample.

Lemma pwal_is_a_store_witness :
  pwal_Get (pw_store RunSample.run) PwalSample.key = Ok (Some ["2"%byte]) ∧
  (pw_indexed RunSample.run).*2.*1 ≡ₚ [1; 2].
Proof.
  destruct (pwal_is_a_store 2 RunSample.run ltac:(lia) RunSample.ran) as (Hg & _ & _ & _ & _ & _ & Hs & _).
  split; [by rewrite Hg|]. exact (Hs RunSample.ended).
Defined.

Lemma pwal_crash_recovers_witness :
  (∃ s' (kept : list wal_commit), OpenPWALStore (T := treeMap) RunSample.disk 2 = Ok s' ∧ (1, PwalSample.put "1"%byte) ∈ kept) ∧
  ∃ s', OpenPWALStore (T := treeMap) (files (pw_store RunSample.run)) 2 = Ok s' ∧
    pwal_Get s' PwalSample.key = pwal_Get (pw_store RunSample.run) PwalSample.key.
Proof.
  split.
  - destruct (pwal_crash_recovers 2 RunSample.run RunSample.disk ltac:(lia) RunSample.ran
      RunSample.disk_survives) as (s' & kept & Ho & _ & _ & Hd & _).
    exists s', kept. split; [done|]. destruct (Hd 1) as (_ & _ & Hc); [vm_compute; reflexivity|].
    apply (Hc 0%nat); [vm_compute; reflexivity|lia].
  - destruct (pwal_crash_recovers 2 RunSample.run (files (pw_store RunSample.run)) ltac:(lia) RunSample.ran
      RunSample.whole_files_survive) as (s' & kept & Ho & _ & _ & _ & _ & _ & _ & Hk).
    exists s'. split; [done|]. apply (Hk PwalSample.key); [done|apply RunSample.ended|apply RunSample.in_order].
Defined.

Lemma pwal_commit_returns_witness :
  ∃ s', pwal_Commit 3 (pw_store RunSample.start) (PwalSample.put "1"%byte) true = (s', None) ∧
    pwal_Get s' PwalSample.key = Ok (Some ["1"%byte]).
Proof.
  destruct (pwal_commit_returns 2 RunSample.start (PwalSample.put "1"%byte) 3) as (s' & ? & Hg);
    [lia|apply RunSample.started|constructor| |vm_compute; reflexivity..|lia|].
  - split; [vm_compute; reflexivity|]. repeat constructor.
  - exists s'. split; [done|]. by rewrite Hg.
Defined.
