(* ===== verification/Http.v ===== *)
(** * The HTTP surface (internal/ds/handlers.go, read.go)

    Routing, header parsing and the mapping of results to responses, for PUT, POST,
    HEAD, DELETE and catch-up GET. A request is its method, path, header and query
    lookups and body; a response is its status, headers and body. Long-poll and SSE
    reads end here where their loop starts ([GetLive]); the loop is in Live.v.

    Of the standard library, what the handlers use is written out; [time.Parse] and
    [Time.Format] of RFC 3339 are parameters, functions of the header value and of
    the time. *)

From Stdlib Require Strings.String.
From S2P Require Import Prelude.
From S2P Require Import Bytes.
From S2P Require Import Decimal.
From S2P Require Import Meta.
From S2P Require Import Offset.
From S2P Require Import Producer.
From S2P Require Import Storage.
From S2P Require Import Loads.
From S2P Require Import Mime.
From S2P Require Import Read.
From S2P Require Import Json.
From S2P Require Import Streamer.
From S2P Require Import Server.
From S2P Require Import Expiry.
From S2P Require Import Fork.
From S2P Require Import Public.

(** ** String constants *)

Module HttpLiterals.
Import String.
Open Scope string_scope.
Definition str (s : string) : bytes := list_byte_of_string s.
Definition hContentType : bytes := str "Content-Type".
Definition hCacheControl : bytes := str "Cache-Control".
Definition hETag : bytes := str "ETag".
Definition hIfNoneMatch : bytes := str "If-None-Match".
Definition hLocation : bytes := str "Location".
Definition hStreamTTL : bytes := str "Stream-TTL".
Definition hStreamExpires : bytes := str "Stream-Expires-At".
Definition hStreamSeq : bytes := str "Stream-Seq".
Definition hStreamCursor : bytes := str "Stream-Cursor".
Definition hStreamNext : bytes := str "Stream-Next-Offset".
Definition hStreamUpToDate : bytes := str "Stream-Up-To-Date".
Definition hStreamClosed : bytes := str "Stream-Closed".
Definition hForkedFrom : bytes := str "Stream-Forked-From".
Definition hForkOffset : bytes := str "Stream-Fork-Offset".
Definition hForkSubOffset : bytes := str "Stream-Fork-Sub-Offset".
Definition hProducerID : bytes := str "Producer-Id".
Definition hProducerEpoch : bytes := str "Producer-Epoch".
Definition hProducerSeq : bytes := str "Producer-Seq".
Definition hProducerExpectedSeq : bytes := str "Producer-Expected-Seq".
Definition hProducerReceivedSeq : bytes := str "Producer-Received-Seq".
Definition hAllow : bytes := str "Allow".
Definition hForwardedProto : bytes := str "X-Forwarded-Proto".
Definition hNosniff : bytes := str "X-Content-Type-Options".
Definition nosniff : bytes := str "nosniff".
Definition text_plain : bytes := str "text/plain; charset=utf-8".
Definition true_ : bytes := str "true".
Definition no_store : bytes := str "no-store".
Definition public_cache : bytes := str "public, max-age=60, stale-while-revalidate=300".
Definition private_cache : bytes := str "private, max-age=60, stale-while-revalidate=300".
Definition mOPTIONS : bytes := str "OPTIONS".
Definition mPUT : bytes := str "PUT".
Definition mPOST : bytes := str "POST".
Definition mGET : bytes := str "GET".
Definition mHEAD : bytes := str "HEAD".
Definition mDELETE : bytes := str "DELETE".
Definition adminStreamsPath : bytes := str "/__admin/streams".
Definition reserved : bytes := str "__ds".
Definition http_ : bytes := str "http".
Definition https_ : bytes := str "https".
Definition scheme_sep : bytes := str "://".
Definition weak_prefix : bytes := str "W/".
Definition closed_suffix : bytes := str ":c".
Definition long_poll : bytes := str "long-poll".
Definition sse : bytes := str "sse".
Definition qOffset : bytes := str "offset".
Definition qLive : bytes := str "live".
Definition qCursor : bytes := str "cursor".
Definition allowed_methods : bytes := str "GET, HEAD, PUT, POST, DELETE".
Definition corsOrigin : bytes := str "Access-Control-Allow-Origin".
Definition corsExpose : bytes := str "Access-Control-Expose-Headers".
Definition corsMethods : bytes := str "Access-Control-Allow-Methods".
Definition corsHeaders : bytes := str "Access-Control-Allow-Headers".
Definition corsMaxAge : bytes := str "Access-Control-Max-Age".
Definition hCrossOrigin : bytes := str "Cross-Origin-Resource-Policy".
Definition cross_origin : bytes := str "cross-origin".
Definition cors_all_methods : bytes := str "GET, HEAD, PUT, POST, DELETE, OPTIONS".
Definition star : bytes := str "*".
Definition day : bytes := str "86400".
Definition eNotFound : bytes := str "stream not found".
Definition eGone : bytes := str "stream gone".
Definition eInternal : bytes := str "internal error".
Definition eExpiry : bytes := str "invalid TTL/expiry".
Definition eSubOffset : bytes := str "Stream-Fork-Sub-Offset requires Stream-Forked-From".
Definition eTooLarge : bytes := str "payload too large".
Definition eRead : bytes := str "read error".
Definition eSource : bytes := str "source stream not found".
Definition eConfig : bytes := str "stream exists with different configuration".
Definition eEmptyBody : bytes := str "empty body requires Stream-Closed: true".
Definition eNoContentType : bytes := str "Content-Type is required when a body is provided".
Definition eEmptyArray : bytes := str "empty JSON array".
Definition eInvalidJSON : bytes := str "invalid JSON".
Definition eIncomplete : bytes := str "incomplete producer headers".
Definition eEpoch : bytes := str "invalid Producer-Epoch".
Definition eSeq : bytes := str "invalid Producer-Seq".
Definition eStale : bytes := str "stale producer epoch".
Definition eConflict : bytes := str "conflict".
Definition eBadRequest : bytes := str "bad request".
Definition eOffset : bytes := str "malformed offset".
Definition eLive : bytes := str "invalid live mode".
Definition eOffsetRequired : bytes := str "offset is required for live reads".
Definition eMethod : bytes := str "method not allowed".
Definition eReserved : bytes := str "subscription APIs are not implemented".
Definition eInvalidForkOffset : bytes := str "invalid fork offset".
Definition eForkBeyond : bytes := str "fork offset beyond stream length".
Definition eInvalidSubOffset : bytes := str "invalid sub-offset".
Definition eSubRequiresFork : bytes := str "sub-offset requires fork offset".
Definition eSubEmpty : bytes := str "sub-offset on empty source".
Definition eOverCount : bytes := str "sub-offset overshoots message count".
Definition eOverLength : bytes := str "sub-offset overshoots message length".
Definition eInvalidBody : bytes := str "invalid body".
End HttpLiterals.
Export HttpLiterals.

(** ** Requests and responses *)

Record request : Type := mkRequest {
  hr_method : bytes;
  hr_path : bytes;
  hr_header : bytes → bytes;          (** [r.Header.Get]: empty when absent *)
  hr_query : bytes → list bytes;      (** the values of a query parameter *)
  hr_body : bytes;
  hr_bodyErr : bool;                  (** reading the body fails *)
  hr_host : bytes;
  hr_tls : bool }.

(** [q.Get]: the first value, or empty. *)
Definition query_get (r : request) (k : bytes) : bytes := default [] (head (hr_query r k)).

Record response : Type := mkResponse {
  hp_status : Z;
  hp_header : gmap bytes bytes;
  hp_body : bytes }.

Abbreviation headers := (gmap bytes bytes).

(** [http.Error]. *)
Definition http_Error (h : headers) (msg : bytes) (code : Z) : response :=
  {| hp_status := code; hp_header := <[hNosniff := nosniff]> (<[hContentType := text_plain]> h);
     hp_body := msg ++ [x0a] |}.

(** [w.WriteHeader(status)] and the body after it. *)
Definition reply (h : headers) (status : Z) (body : bytes) : response :=
  {| hp_status := status; hp_header := h; hp_body := body |}.

Definition set_if (c : bool) (k v : bytes) (h : headers) : headers := if c then <[k := v]> h else h.
Definition set_uint (k : bytes) (v : option Z) (h : headers) : headers :=
  match v with Some n => <[k := FormatUint n]> h | None => h end.

(** ** Parsing *)

(** [strings.EqualFold] against an ASCII constant. *)
Definition headerTrue (v : bytes) : bool := bool_decide (ToLower v = true_).

Definition headerPtr (v : bytes) : option bytes := if decide (v = []) then None else Some v.

(** [inl] is the error message. *)
Definition parseProducer (r : request) : bytes + option producerHeaders :=
  let id := hr_header r hProducerID in
  let epochStr := hr_header r hProducerEpoch in
  let seqStr := hr_header r hProducerSeq in
  let present := (if decide (id ≠ []) then 1 else 0) + (if decide (epochStr ≠ []) then 1 else 0)
                 + (if decide (seqStr ≠ []) then 1 else 0) in
  if decide (present = 0) then inr None
  else if decide (present ≠ 3 ∨ id = []) then inl eIncomplete
  else match parseProducerInt epochStr with
       | None => inl eEpoch
       | Some epoch =>
           match parseProducerInt seqStr with
           | None => inl eSeq
           | Some seq => inr (Some {| ph_id := id; ph_epoch := epoch; ph_seq := seq |})
           end
       end.

Definition readBody (r : request) (max : Z) : (bool + bytes) :=
  if decide (max < len (hr_body r)) then inl true
  else if hr_bodyErr r then inl false
  else inr (hr_body r).

(** [strings.Cut(s, "/")]'s head. *)
Fixpoint until_slash (s : bytes) : bytes :=
  match s with
  | c :: r => if decide (c = "/"%byte) then [] else c :: until_slash r
  | [] => []
  end.

Definition isReservedPath (path : bytes) : bool :=
  let seg := match path with c :: r => if decide (c = "/"%byte) then r else path | [] => path end in
  bool_decide (until_slash seg = reserved).

Definition absoluteURL (r : request) (path : bytes) : bytes :=
  let scheme := if hr_tls r then https_ else http_ in
  let p := hr_header r hForwardedProto in
  (if decide (p ≠ []) then p else scheme) ++ scheme_sep ++ hr_host r ++ path.

Definition setSecurityHeaders (h : headers) : headers :=
  <[corsExpose := star]> (<[corsOrigin := star]> (<[hCrossOrigin := cross_origin]> (<[hNosniff := nosniff]> h))).

(** The text of a 400 answer to a create. *)
Definition create_msg (m : createMsg) : bytes :=
  match m with
  | msgNone => []
  | msgInvalidJSON => eInvalidJSON
  | msgInvalidForkOffset => eInvalidForkOffset
  | msgForkBeyondLength => eForkBeyond
  | msgInvalidSubOffset => eInvalidSubOffset
  | msgSubOffsetRequiresFork => eSubRequiresFork
  | msgSubOffsetEmptySource => eSubEmpty
  | msgOvershootsCount => eOverCount
  | msgOvershootsLength => eOverLength
  | msgInvalidBody => eInvalidBody
  end.

(** ** Entity tags *)

Definition makeETag (id : Z) (start end_ : Offset) (closed : bool) : bytes :=
  [x22] ++ FormatUint id ++ [":"%byte] ++ offset_String start ++ [":"%byte] ++ offset_String end_
  ++ (if closed then closed_suffix else []) ++ [x22].

(** [strings.Split(s, ",")]. *)
Fixpoint split_commas (s : bytes) : list bytes :=
  match s with
  | [] => [[]]
  | c :: r =>
      if decide (c = ","%byte) then [] :: split_commas r
      else match split_commas r with
           | [] => [[c]]
           | p :: ps => (c :: p) :: ps
           end
  end.

Definition trim_weak (s : bytes) : bytes :=
  match s with
  | a :: b :: r => if decide (a = "W"%byte ∧ b = "/"%byte) then r else s
  | _ => s
  end.

Definition etagMatches (ifNoneMatch etag : bytes) : bool :=
  existsb (λ part, let part := trim_weak (TrimSpace part) in
                   bool_decide (part = etag ∨ part = star)) (split_commas ifNoneMatch).

Definition cacheControl (private : bool) : bytes := if private then private_cache else public_cache.

(** ** Handlers *)

Section handlers.
  Context {S : Type} `{Storage S}.
  (** [time.Parse(time.RFC3339, v)] in Unix seconds, and the format of a time. *)
  Context (parse_rfc3339 : bytes → option Z) (format_rfc3339 : Z → bytes).
  (** [Config.MaxRecordBytes] and [Config.MaxReadBytes]. *)
  Context (maxRecordBytes maxReadBytes : Z).
  Implicit Types (srv : server S) (r : request) (h : headers).

(** [(ttl, ttlSet, expires, expiresSet)], or [None] for [ok = false]. *)
Definition parseExpiry r : option (Z * bool * Z * bool) :=
  ttl ← (let v := hr_header r hStreamTTL in
         if decide (v = []) then Some (0, false)
         else (λ n, (n, true)) <$> parseStrictUint v);
  expires ← (let v := hr_header r hStreamExpires in
             if decide (v = []) then Some (0, false)
             else (λ n, (n, true)) <$> parse_rfc3339 v);
  if decide (ttl.2 = true ∧ expires.2 = true) then None
  else Some (ttl.1, ttl.2, expires.1, expires.2).

(** *** PUT *)

(** The response to the result of a creation. *)
Definition writeCreateResult r h (path : bytes) (res : createResult) : response :=
  let s := cr_status res in
  if decide (s = 404) then http_Error h eSource 404
  else if decide (s = 400) then http_Error h (create_msg (cr_msg res)) 400
  else if decide (s = 409) then http_Error h eConfig 409
  else if decide (500 ≤ s) then http_Error h eInternal 500
  else
    let h := <[hContentType := cr_contentType res]> h in
    let h := <[hStreamNext := offset_String (cr_nextOffset res)]> h in
    let h := set_if (cr_closed res) hStreamClosed true_ h in
    let h := set_if (bool_decide (s = 201)) hLocation (absoluteURL r path) h in
    reply h s [].

Definition handlePut srv (nowUnix nowMs : Z) r h (path : bytes) : server S * response :=
  let ct := hr_header r hContentType in
  match parseExpiry r with
  | None => (srv, http_Error h eExpiry 400)
  | Some (ttl, ttlSet, expires, expiresSet) =>
      let closed := headerTrue (hr_header r hStreamClosed) in
      let forkedFrom := hr_header r hForkedFrom in
      let subOffRaw := hr_header r hForkSubOffset in
      if decide (forkedFrom = [] ∧ subOffRaw ≠ []) then (srv, http_Error h eSubOffset 400) else
      match readBody r maxRecordBytes with
      | inl true => (srv, http_Error h eTooLarge 413)
      | inl false => (srv, http_Error h eRead 400)
      | inr body =>
          let '(srv, res) :=
            if decide (forkedFrom ≠ []) then
              createFork srv nowUnix nowMs
                {| fp_path := path; fp_sourcePath := forkedFrom; fp_forkOffsetRaw := hr_header r hForkOffset;
                   fp_subOffsetRaw := subOffRaw; fp_subOffsetSet := bool_decide (subOffRaw ≠ []);
                   fp_contentType := ct; fp_ttl := ttl; fp_ttlSet := ttlSet; fp_expiresAt := expires;
                   fp_expiresSet := expiresSet; fp_closed := closed; fp_body := body |}
            else
              createStream srv nowUnix nowMs
                {| cp_path := path; cp_contentType := if decide (ct = []) then defaultContentType else ct;
                   cp_ttl := ttl; cp_ttlSet := ttlSet; cp_expiresAt := expires; cp_expiresSet := expiresSet;
                   cp_closed := closed; cp_body := body |} in
          (srv, writeCreateResult r h path res)
      end
  end.

(** *** POST *)

Definition writeAppendResponse h (resp : appendResp) : response :=
  let s := rs_status resp in
  if decide (s = 200 ∨ s = 204) then
    let h := <[hStreamNext := offset_String (rs_nextOffset resp)]> h in
    let h := set_if (rs_closed resp) hStreamClosed true_ h in
    let h := set_uint hProducerEpoch (rs_producerEpoch resp) h in
    let h := set_uint hProducerSeq (rs_producerSeq resp) h in
    reply h s []
  else if decide (s = 403) then http_Error (set_uint hProducerEpoch (rs_producerEpoch resp) h) eStale 403
  else if decide (s = 409) then
    let h := if rs_closed resp
             then <[hStreamNext := offset_String (rs_nextOffset resp)]> (<[hStreamClosed := true_]> h) else h in
    let h := set_uint hProducerExpectedSeq (rs_expectedSeq resp) h in
    let h := set_uint hProducerReceivedSeq (rs_receivedSeq resp) h in
    http_Error h eConflict 409
  else if decide (s = 400) then http_Error h eBadRequest 400
  else if decide (s = 404) then http_Error h eNotFound 404
  else http_Error h eInternal 500.

(** The records of a body, flattened only when they will be appended. *)
Definition postRecords (st : streamer) (reqCT body : bytes) : bytes + list bytes :=
  if decide (body ≠ [] ∧ st_closed st = false ∧ contentTypeMatches (ContentType (st_meta st)) reqCT = true) then
    if isJSONStream (ContentType (st_meta st)) then
      match flattenJSON body with
      | Ok recs => inr recs
      | Err errEmptyArray => inl eEmptyArray
      | Err _ => inl eInvalidJSON
      end
    else inr [body]
  else inr [].

Definition handlePost srv (now : Z) r h (path : bytes) : server S * response :=
  match parseProducer r with
  | inl msg => (srv, http_Error h msg 400)
  | inr producer =>
      let streamSeq := headerPtr (hr_header r hStreamSeq) in
      let closeStream := headerTrue (hr_header r hStreamClosed) in
      let reqCT := hr_header r hContentType in
      match readBody r maxRecordBytes with
      | inl true => (srv, http_Error h eTooLarge 413)
      | inl false => (srv, http_Error h eRead 400)
      | inr body =>
          let hasBody := bool_decide (body ≠ []) in
          if decide (hasBody = false ∧ closeStream = false) then (srv, http_Error h eEmptyBody 400) else
          if decide (hasBody = true ∧ TrimSpace reqCT = []) then (srv, http_Error h eNoContentType 400) else
          let '(srv, found) := resolveAppend srv path in
          match found with
          | Err ErrGone => (srv, http_Error h eGone 410)
          | Err _ => (srv, http_Error h eInternal 500)
          | Ok None => (srv, http_Error h eNotFound 404)
          | Ok (Some st) =>
              match postRecords st reqCT body with
              | inl msg => (srv, http_Error h msg 400)
              | inr records =>
                  let '(srv, resp) := submitAppend srv now path
                    {| rq_records := records; rq_hasBody := hasBody; rq_contentType := reqCT;
                       rq_closeStream := closeStream; rq_streamSeq := streamSeq; rq_producer := producer |} in
                  match resp with
                  | None => (srv, http_Error h eNotFound 404)
                  | Some resp => (srv, writeAppendResponse h resp)
                  end
              end
          end
      end
  end.

(** *** HEAD *)

Definition handleHead srv h (path : bytes) : response :=
  let h := <[hCacheControl := no_store]> h in
  match loadTombstone (srv_store srv) path with
  | Err _ => reply h 500 []
  | Ok tomb =>
      if soft_deleted tomb then reply h 410 [] else
      match loadMeta (srv_store srv) path with
      | Err _ => reply h 500 []
      | Ok None => reply h 404 []
      | Ok (Some meta) =>
          match liveState srv path with
          | Err _ => reply h 500 []
          | Ok live =>
              let '(tail, closed) := match live with Some (t, c, _) => (t, c) | None => (0, false) end in
              let h := <[hContentType := ContentType meta]> h in
              let h := <[hStreamNext := offset_String (tailOffset tail)]> h in
              let h := set_if (bool_decide (0 < TTLSeconds meta)) hStreamTTL (FormatUint (TTLSeconds meta)) h in
              let h := set_if (bool_decide (0 < ExpiresAt meta)) hStreamExpires (format_rfc3339 (ExpiresAt meta)) h in
              reply (set_if closed hStreamClosed true_ h) 200 []
          end
      end
  end.

(** *** DELETE *)

Definition handleDelete srv h (path : bytes) : server S * response :=
  let '(srv, err) := deleteStream srv path in
  (srv, match err with
        | None => reply h 204 []
        | Some ErrGone => http_Error h eGone 410
        | Some ErrNotFound => http_Error h eNotFound 404
        | Some _ => http_Error h eInternal 500
        end).

(** *** GET *)

Definition readCatchup srv r h (meta : StreamMeta) (po : parsedOffset) : response :=
  let isJSON := isJSONStream (ContentType meta) in
  match liveState srv (hr_path r) with
  | Err _ => http_Error h eInternal 500
  | Ok live =>
      let '(tail, closed) := match live with Some (t, c, _) => (t, c) | None => (0, false) end in
      let h := <[hContentType := ContentType meta]> h in
      if isNow po then
        let h := <[hCacheControl := no_store]> h in
        let h := <[hStreamNext := offset_String (tailOffset tail)]> h in
        let h := <[hStreamUpToDate := true_]> h in
        reply (set_if closed hStreamClosed true_ h) 200 (if isJSON then ["["%byte; "]"%byte] else [])
      else
        match readRange (srv_store srv) (StreamID meta) (ForkedFrom meta) (ForkOffset meta) isJSON
                (off po) tail maxReadBytes with
        | Err _ => http_Error h eInternal 500
        | Ok (body, next, upToDate) =>
            let closedEOF := closed && upToDate in
            let etag := makeETag (StreamID meta) (off po) next closedEOF in
            let h := <[hETag := etag]> h in
            let h := <[hCacheControl := cacheControl (IsPrivate meta)]> h in
            let h := <[hStreamNext := offset_String next]> h in
            let h := set_if upToDate hStreamUpToDate true_ h in
            let h := set_if closedEOF hStreamClosed true_ h in
            let match_ := hr_header r hIfNoneMatch in
            if decide (match_ ≠ [] ∧ etagMatches match_ etag = true) then reply h 304 []
            else reply h 200 (if decide (hr_method r = mHEAD) then [] else body)
        end
  end.

(** What [handleGet] does: answer, or enter the loop of a live reader on a stream
    (with the position as given and as parsed). *)
Inductive getOutcome : Type :=
| GetDone (resp : response)
| GetLive (is_sse : bool) (meta : StreamMeta) (po : parsedOffset).

(** [touchStream] makes the stream resident; the signal it leaves is taken by the
    streamer's goroutine ([refreshTTLOnRead]). *)
Definition touchStream srv (path : bytes) : server S := (getOrSpawn srv path).1.

Definition handleGet srv r h (path : bytes) : server S * getOutcome :=
  let vals := hr_query r qOffset in
  if decide ((1 < length vals)%nat ∨ head vals = Some []) then (srv, GetDone (http_Error h eOffset 400)) else
  let rawOffset := query_get r qOffset in
  let live := query_get r qLive in
  match parseOffset rawOffset with
  | Err _ => (srv, GetDone (http_Error h eOffset 400))
  | Ok po =>
      match loadTombstone (srv_store srv) path with
      | Err _ => (srv, GetDone (http_Error h eInternal 500))
      | Ok tomb =>
          if soft_deleted tomb then (srv, GetDone (http_Error h eGone 410)) else
          match loadMeta (srv_store srv) path with
          | Err _ => (srv, GetDone (http_Error h eInternal 500))
          | Ok None => (srv, GetDone (http_Error h eNotFound 404))
          | Ok (Some meta) =>
              let srv := if decide (0 < TTLSeconds meta) then touchStream srv path else srv in
              if decide (live = []) then (srv, GetDone (readCatchup srv r h meta po))
              else if decide (live = long_poll ∨ live = sse) then
                if decide (rawOffset = []) then (srv, GetDone (http_Error h eOffsetRequired 400)) else
                let '(srv, found) := getOrSpawn srv path in
                match found with
                | Err _ => (srv, GetDone (http_Error h eInternal 500))
                | Ok None => (srv, GetDone (http_Error h eNotFound 404))
                | Ok (Some _) => (srv, GetLive (bool_decide (live = sse)) meta po)
                end
              else (srv, GetDone (http_Error h eLive 400))
          end
      end
  end.

(** *** Routing *)

(** The listing of [adminStreamsPath] is in Admin.v: [None] here. *)
Definition ServeHTTP srv (nowUnix nowMs : Z) r : server S * option getOutcome :=
  let h := setSecurityHeaders ∅ in
  let done p := let '(srv, resp) := p in (srv, Some (GetDone resp)) in
  let path := hr_path r in
  if decide (hr_method r = mOPTIONS) then
    let h := <[corsMethods := cors_all_methods]> h in
    let h := <[corsHeaders := star]> h in
    let h := <[corsMaxAge := day]> h in
    (srv, Some (GetDone (reply h 204 [])))
  else if decide (path = adminStreamsPath) then (srv, None)
  else if isReservedPath path then (srv, Some (GetDone (http_Error h eReserved 501)))
  else if decide (hr_method r = mPUT) then done (handlePut srv nowUnix nowMs r h path)
  else if decide (hr_method r = mPOST) then done (handlePost srv nowUnix r h path)
  else if decide (hr_method r = mGET) then
    let '(srv, o) := handleGet srv r h path in (srv, Some o)
  else if decide (hr_method r = mHEAD) then (srv, Some (GetDone (handleHead srv h path)))
  else if decide (hr_method r = mDELETE) then done (handleDelete srv h path)
  else (srv, Some (GetDone (http_Error (<[hAllow := allowed_methods]> h) eMethod 405))).

End handlers.
