(* ===== verification/HttpSpec.v ===== *)
(** * What the HTTP surface promises

    A POST has the effect of one append of the specification on the stream its path
    names, and its response is that append's; an entity tag that matches names the
    very bytes the client already has. *)

From S2P Require Import Prelude.
From S2P Require Import Bytes.
From S2P Require Import Decimal.
From S2P Require Import Keys.
From S2P Require Import Meta.
From S2P Require Import Offset.
From S2P Require Import Producer.
From S2P Require Import Storage.
From S2P Require Import Loads.
From S2P Require Import Mime.
From S2P Require Import Read.
From S2P Require Import Json.
From S2P Require Import Streamer.
From S2P Require Import StreamSpec.
From S2P Require Import StreamerRefine.
From S2P Require Import Deleter.
From S2P Require Import Server.
From S2P Require Import Expiry.
From S2P Require Import Fork.
From S2P Require Import Public.
From S2P Require Import Catalog.
From S2P Require Import Lifecycle.
From S2P Require Import ForkSpec.
From S2P Require Import PublicSpec.
From S2P Require Import Http.

(** ** Entity tags *)

Definition no_sep (s : bytes) : Prop := Forall (λ c, c ≠ ","%byte ∧ is_space c = false) s.

#[global] Instance no_sep_dec s : Decision (no_sep s).
Proof. unfold no_sep. apply _. Defined.

Lemma digit_no_sep s : Forall is_digit s → no_sep s.
Proof.
  intros Hs. eapply Forall_impl; [exact Hs|]. intros c Hc. unfold is_digit in Hc.
  split.
  - intros ->. destruct Hc as [Hc _]. by apply Hc.
  - unfold is_space. apply bool_decide_eq_false_2. rewrite !elem_of_cons, elem_of_nil. intros Hin.
    destruct Hc as [Hc _]. destruct_or!; subst; by apply Hc.
Qed.

Lemma offset_no_sep o : 0 ≤ Seq o → 0 ≤ Byte o → no_sep (offset_String o).
Proof.
  intros Hs Hb. rewrite offset_String_layout. unfold no_sep.
  destruct (pad16_spec _ Hs) as (_ & Hd & _). destruct (pad16_spec _ Hb) as (_ & Hd' & _).
  rewrite !Forall_app. split_and!; [by apply digit_no_sep| |by apply digit_no_sep]. by repeat constructor.
Qed.

Lemma FormatUint_no_sep n : is_u64 n → no_sep (FormatUint n).
Proof. intros Hn. apply FormatUint_spec in Hn as [(_ & ? & _) _]. by apply digit_no_sep. Qed.

Lemma makeETag_no_sep id a b c :
  is_u64 id → offset_fits a → offset_fits b → no_sep (makeETag id a b c).
Proof.
  intros Hi [? ?] [? ?]. unfold makeETag, no_sep. rewrite !Forall_app.
  assert (Hc : ∀ s, bool_decide (no_sep s) = true → Forall (λ c, c ≠ ","%byte ∧ is_space c = false) s)
    by (intros s; apply (bool_decide_eq_true (no_sep s))).
  split_and!.
  - by apply Hc.
  - by apply FormatUint_no_sep.
  - by apply Hc.
  - apply offset_no_sep; lia.
  - by apply Hc.
  - apply offset_no_sep; lia.
  - apply Hc. by destruct c.
  - by apply Hc.
Qed.

Lemma split_commas_none s : no_sep s → split_commas s = [s].
Proof.
  induction 1 as [|c s [Hc _] Hs IH]; [done|]. cbn [split_commas]. by rewrite decide_False, IH by done.
Qed.

Lemma TrimLeft_none s : no_sep s → TrimLeft s = s.
Proof. destruct 1 as [|c s [_ Hc] Hs]; [done|]. cbn [TrimLeft]. by rewrite Hc. Qed.

Lemma TrimSpace_none s : no_sep s → TrimSpace s = s.
Proof.
  intros Hs. unfold TrimSpace. rewrite (TrimLeft_none s Hs).
  rewrite TrimLeft_none by (unfold no_sep; by rewrite Forall_reverse). apply reverse_involutive.
Qed.

(** A single tag matches itself only. *)
Lemma etagMatches_one id a b c etag :
  is_u64 id → offset_fits a → offset_fits b →
  etagMatches (makeETag id a b c) etag = bool_decide (makeETag id a b c = etag).
Proof.
  intros Hi Ha Hb. pose proof (makeETag_no_sep id a b c Hi Ha Hb) as Hn.
  unfold etagMatches. rewrite split_commas_none by done. cbn [existsb]. rewrite orb_false_r.
  rewrite TrimSpace_none by done.
  assert (trim_weak (makeETag id a b c) = makeETag id a b c) as ->.
  { unfold makeETag. cbn [app]. unfold trim_weak.
    destruct (FormatUint id ++ _); [done|]. rewrite decide_False; [done|]. by intros [? _]. }
  apply bool_decide_ext. split; [|tauto]. intros [->|E]; [done|].
  apply (f_equal head) in E. discriminate E.
Qed.

Lemma app_sep_inj (x y x' y' : bytes) sep :
  sep ∉ x → sep ∉ x' → x ++ sep :: y = x' ++ sep :: y' → x = x' ∧ y = y'.
Proof.
  revert x'. induction x as [|c x IH]; intros [|c' x'] Hx Hx' E; simplify_eq/=; [done|set_solver..|].
  destruct (IH x') as [-> ->]; [set_solver..|done|done].
Qed.

Lemma digits_no_colon s : Forall is_digit s → ":"%byte ∉ s.
Proof.
  intros Hs Hin. rewrite Forall_forall in Hs. specialize (Hs _ Hin). destruct Hs as [_ Hs]. by apply Hs.
Qed.

Lemma offset_String_inj a b : offset_fits a → offset_fits b → offset_String a = offset_String b → a = b.
Proof.
  intros Ha Hb E. pose proof (parseOffset_String a Ha) as Pa. rewrite E, (parseOffset_String b Hb) in Pa.
  by injection Pa.
Qed.

Lemma makeETag_inj id a b c id' a' b' c' :
  is_u64 id → is_u64 id' → offset_fits a → offset_fits b → offset_fits a' → offset_fits b' →
  makeETag id a b c = makeETag id' a' b' c' → id = id' ∧ a = a' ∧ b = b' ∧ c = c'.
Proof.
  intros Hi Hi' Ha Hb Ha' Hb' E. unfold makeETag in E. cbn [app] in E.
  apply (f_equal tail) in E. cbn [tail] in E.
  pose proof (FormatUint_spec id Hi) as [(_ & Hd & _) Hv]. pose proof (FormatUint_spec id' Hi') as [(_ & Hd' & _) Hv'].
  apply app_sep_inj in E as [Eid E]; [|by apply digits_no_colon..].
  assert (id = id') as -> by (rewrite <-Hv, <-Hv'; by rewrite Eid).
  assert (Hl : ∀ o, offset_fits o → length (offset_String o) = offsetTokenLen).
  { intros o [? ?]. apply length_offset_String; lia. }
  apply app_eq_split in E as [Ea E]; [|by rewrite !Hl]. apply offset_String_inj in Ea as ->; [|done..].
  apply (f_equal tail) in E. cbn [tail] in E.
  apply app_eq_split in E as [Eb E]; [|by rewrite !Hl]. apply offset_String_inj in Eb as ->; [|done..].
  split_and!; [done..|]. by destruct c, c'.
Qed.

(** ** Unchanged ranges *)

(** The log [L'] up to [T'] is a later state of [L] up to [T]. *)
Definition log_grows (L : Z → bytes) (T : Z) (L' : Z → bytes) (T' : Z) : Prop :=
  T ≤ T' ∧ ∀ i, 0 ≤ i < T → L i = L' i.

Lemma payloads_agree L L' a b : (∀ i, a ≤ i < b → L i = L' i) → payloads L a b = payloads L' a b.
Proof.
  intros Hl. unfold payloads. apply list_fmap_ext. intros k i Hk. apply lookup_seqZ in Hk as [-> ?]. apply Hl. lia.
Qed.

(** What is left of a grown log. *)
Lemma content_from_grows L T L' T' o :
  log_grows L T L' T' → 0 ≤ Seq o < T →
  content_from L' o T' = content_from L o T ++ concat (payloads L' T T').
Proof.
  intros [HT HL] Ho. unfold content_from. rewrite !decide_True by lia.
  rewrite <-app_assoc, <-concat_app, (HL (Seq o)) by lia. do 2 f_equal.
  rewrite (payloads_app L' (Seq o + 1) T T') by lia. f_equal. symmetry. apply payloads_agree. intros; apply HL; lia.
Qed.

Lemma readRange_done {S : Type} `{Storage S} (s : S) id ff fo isJSON start T limit body next u :
  T ≤ Seq start → readRange s id ff fo isJSON start T limit = Ok (body, next, u) → next = start.
Proof. intros HT. unfold readRange. rewrite decide_True by done. destruct isJSON; intros E; by ok_inv E. Qed.

Section etag.
  Context {S : Type} `{StorageLaws S}.

Lemma binary_read_same L T L' T' o limit limit' body body' next u u' :
  log_grows L T L' T' → 0 ≤ Seq o → 0 < limit' → (T ≤ Seq o → next = o) → (T' ≤ Seq o → body' = []) →
  binary_read L o T limit body next u → binary_read L' o T' limit' body' next u' → body = body'.
Proof.
  intros Hg Ho Hlim Hidle Hidle' [Hc _ _ _ _ Hn] [Hc' _ _ _ Hp' Hn'].
  destruct (decide (Seq o < T)) as [Hlt|Hge].
  - destruct (Hn Hlt) as [Hle Heq]. destruct Hg as [HT HL].
    assert (Hnext : content_from L' next T' = content_from L next T ++ concat (payloads L' T T')).
    { destruct (decide (Seq next < T)) as [Hnl|Hng].
      - apply content_from_grows; [by split|]. split; [|done].
        destruct (decide (0 ≤ Seq next)); [done|]. exfalso.
        destruct (Hp' ltac:(lia) Hlim); lia.
      - assert (next = {| Seq := T; Byte := 0 |}) as ->.
        { assert (Seq next = T) as HsT by lia. specialize (Heq HsT). destruct next. simpl in *. by subst. }
        rewrite content_from_payloads, (content_from_done L) by (simpl; lia). done. }
    rewrite Hnext, (content_from_grows L T L' T' o (conj HT HL)), <-Hc, <-app_assoc in Hc' by lia.
    by apply app_inv_tail in Hc'.
  - rewrite (content_from_done L o) in Hc by lia. apply app_eq_nil in Hc as [-> _].
    rewrite (Hidle ltac:(lia)) in *. destruct (decide (Seq o < T')) as [Hlt'|]; [|symmetry; apply Hidle'; lia].
    destruct (Hp' Hlt' Hlim) as [?|[_ ?]]; lia.
Qed.

(** Two reads that return the same position return the same bytes. *)
Lemma readRange_same s s' id ff fo isJSON L T L' T' o limit limit' body body' next u u' :
  keys_wf (view s) → keys_wf (view s') → log_at (view s) L id ff fo T → log_at (view s') L' id ff fo T' →
  log_grows L T L' T' → 0 ≤ Seq o → 0 ≤ Byte o → 0 ≤ limit → 0 < limit' → T' < 2^64 →
  readRange s id ff fo isJSON o T limit = Ok (body, next, u) →
  readRange s' id ff fo isJSON o T' limit' = Ok (body', next, u') → body = body'.
Proof.
  intros Hk Hk' Hl Hl' Hg HS HB Hlim Hlim' HT E E'. pose proof Hg as [HTT HL].
  assert (Hidle : T ≤ Seq o → next = o) by (intros; by eapply readRange_done).
  destruct isJSON.
  - apply (readRange_json_read L) in E as [Hc Hr Hi _ _ _]; [|done..|lia].
    apply (readRange_json_read L') in E' as [Hc' _ _ _ _ _]; [|done..|lia|lia].
    rewrite Hc, Hc'. f_equal. apply payloads_agree. intros i Hi'. apply HL.
    destruct (decide (Seq o < T)) as [Hlt|]; [destruct (Hr Hlt); lia|]. rewrite (Hidle ltac:(lia)) in Hi'. lia.
  - assert (Hidle' : T' ≤ Seq o → body' = []).
    { intros Hd. unfold readRange in E'. rewrite decide_True in E' by done. by ok_inv E'. }
    apply (readRange_binary_read L) in E; [|done..|lia].
    apply (readRange_binary_read L') in E'; [|done..|lia|lia]. by eapply binary_read_same.
Qed.

End etag.

(** ** Appends *)

Section post.
  Context {S : Type} `{StorageLaws S}.
  Context (R : gmap Z phase) (maxRecordBytes : Z).
  Implicit Types (srv : server S) (C : catalog) (r : request) (h : headers).

Lemma parseProducer_wf r ph : parseProducer r = inr (Some ph) → wf_headers ph.
Proof.
  unfold parseProducer. cbv zeta. destruct (decide (_ = 0)); [done|]. destruct (decide (_ ∨ _)); [done|].
  destruct (parseProducerInt (hr_header r hProducerEpoch)) as [ep|] eqn:Ee; [|done].
  destruct (parseProducerInt (hr_header r hProducerSeq)) as [sq|] eqn:Es; [|done]. intros E. injection E as <-.
  apply parseProducerInt_iff in Ee as [? _]. apply parseProducerInt_iff in Es as [? _].
  unfold wf_headers. cbn [ph_epoch ph_seq]. unfold is_u64. lia.
Qed.

(** The checks of a POST before its stream is looked up: an error and its status, or
    the body and the producer. *)
Definition post_checks r : (bytes * Z) + (bytes * option producerHeaders) :=
  match parseProducer r, readBody r maxRecordBytes with
  | inl msg, _ => inl (msg, 400)
  | _, inl true => inl (eTooLarge, 413)
  | _, inl false => inl (eRead, 400)
  | inr producer, inr body =>
      if decide (body = [] ∧ headerTrue (hr_header r hStreamClosed) = false) then inl (eEmptyBody, 400)
      else if decide (body ≠ [] ∧ TrimSpace (hr_header r hContentType) = []) then inl (eNoContentType, 400)
      else inr (body, producer)
  end.

(** The records a body stands for on the stream [e]. *)
Definition post_records (e : entry) (reqCT body : bytes) : bytes + list bytes :=
  if decide (body ≠ [] ∧ a_closed (e_state e) = false ∧ contentTypeMatches (ContentType (e_meta e)) reqCT = true) then
    if isJSONStream (ContentType (e_meta e)) then
      match flattenJSON body with
      | Ok recs => inr recs
      | Err errEmptyArray => inl eEmptyArray
      | Err _ => inl eInvalidJSON
      end
    else inr [body]
  else inr [].

Definition post_req r (body : bytes) (producer : option producerHeaders) (records : list bytes) : appendReq :=
  {| rq_records := records; rq_hasBody := bool_decide (body ≠ []);
     rq_contentType := hr_header r hContentType; rq_closeStream := headerTrue (hr_header r hStreamClosed);
     rq_streamSeq := headerPtr (hr_header r hStreamSeq); rq_producer := producer |}.

(** Room for what a POST may append. *)
Definition post_room C now r (p : bytes) : Prop :=
  ∀ e body producer records,
    C !! p = Some e → post_checks r = inr (body, producer) →
    post_records e (hr_header r hContentType) body = inr records →
    is_i64 now ∧ ttl_in_range (TTLSeconds (e_meta e)) now ∧ a_tail (e_state e) + len records < 2^63.

Lemma handlePost_ok srv C now r h p :
  server_ok R srv C → post_room C now r p →
  let '(srv', resp) := handlePost maxRecordBytes srv now r h p in
  match post_checks r with
  | inl (msg, code) => srv' = srv ∧ resp = http_Error h msg code
  | inr (body, producer) =>
      match C !! p with
      | None => server_ok R srv' C ∧ resp = http_Error h eNotFound 404
      | Some e =>
          if e_gone e then srv' = srv ∧ resp = http_Error h eGone 410
          else match post_records e (hr_header r hContentType) body with
               | inl msg => server_ok R srv' C ∧ resp = http_Error h msg 400
               | inr records =>
                   let o := spec_append (ContentType (e_meta e)) (TTLSeconds (e_meta e)) now (e_state e)
                              (post_req r body producer records) in
                   server_ok R srv' (<[p := with_state e o.1]> C) ∧ resp = writeAppendResponse h o.2
               end
      end
  end.
Proof.
  intros Hs Hroom. unfold handlePost. unfold post_room in Hroom. unfold post_checks in *.
  destruct (parseProducer r) as [msg|producer] eqn:Hprod; [done|].
  destruct (readBody r maxRecordBytes) as [[]|body] eqn:Hbody; [done..|].
  destruct (decide (body = [] ∧ headerTrue (hr_header r hStreamClosed) = false)) as [[Hb Hc]|Hnc].
  { rewrite decide_True; [done|]. split; [|done]. apply bool_decide_eq_false. naive_solver. }
  rewrite decide_False by (rewrite bool_decide_eq_false; intros [Hb ?]; apply Hnc; split; [by apply dec_stable|done]).
  destruct (decide (body ≠ [] ∧ TrimSpace (hr_header r hContentType) = [])) as [[Hb Hc]|Hnt].
  { rewrite decide_True; [done|]. split; [|done]. by apply bool_decide_eq_true. }
  rewrite decide_False by (rewrite bool_decide_eq_true; tauto).
  pose proof (resolveAppend_ok R srv C p Hs) as Hr. destruct (resolveAppend srv p) as [srv1 found].
  destruct Hr as (Hs1 & _ & Hr). destruct (C !! p) as [e|] eqn:Hp; [|by subst found].
  destruct (e_gone e) eqn:Hg; [by destruct Hr as [-> ->]|].
  destruct Hr as (st & -> & Hst & Hm).
  destruct (sv_resident _ _ _ _ (proj1 Hs1) p st Hst) as (e' & He' & _ & _ & Hpub).
  rewrite Hp in He'. apply (inj Some) in He' as <-.
  assert (Hrec : postRecords st (hr_header r hContentType) body = post_records e (hr_header r hContentType) body).
  { unfold postRecords, post_records. rewrite (mr_meta _ _ _ _ Hm).
    change (ContentType (meta_with _ _ _)) with (ContentType (e_meta e)). by rewrite (pb_closed _ _ Hpub). }
  rewrite Hrec. specialize (Hroom e body producer).
  destruct (post_records e (hr_header r hContentType) body) as [msg|records] eqn:Hpr; [done|].
  destruct (Hroom records eq_refl eq_refl eq_refl) as (Hnow & Httl & Hrm).
  change {| rq_records := records |} with (post_req r body producer records).
  pose proof (submitAppend_ok R srv1 C p e st now (post_req r body producer records) Hs1 Hp Hst) as Hsub.
  destruct (submitAppend _ _ _ _) as [srv' resp]. cbv zeta in Hsub. destruct Hsub as (Hs' & -> & _); [|done].
  split; [done|done| |].
  - unfold total_records. simpl. by rewrite app_nil_r.
  - constructor; [|constructor]. unfold wf_req. simpl.
    destruct producer as [ph|]; [|done]. by apply (parseProducer_wf r).
Qed.

End post.

(** ** Catch-up reads *)

Section get.
  Context {S : Type} `{StorageLaws S}.
  Context (R : gmap Z phase) (maxReadBytes : Z).
  Implicit Types (srv : server S) (C : catalog) (r : request) (h : headers).

(** A catch-up GET without conditions of a stream in use and without a TTL: the
    range that [readRange] reads, and nothing changes. *)
Lemma handleGet_ok srv C r h p e L tok po :
  server_ok R srv C → C !! p = Some e → e_gone e = false → reads C e L → TTLSeconds (e_meta e) = 0 →
  hr_path r = p → hr_method r = mGET → hr_query r qOffset = [tok] → tok ≠ [] → hr_query r qLive = [] →
  hr_header r hIfNoneMatch = [] →
  parseOffset tok = Ok po → isNow po = false → 0 ≤ Seq (off po) →
  ∃ body next upToDate hd,
    handleGet maxReadBytes srv r h p = (srv, GetDone (reply hd 200 body)) ∧
    readRange (srv_store srv) (e_id e) (e_source e) (ForkOffset (e_meta e))
      (isJSONStream (ContentType (e_meta e))) (off po) (a_tail (e_state e)) maxReadBytes
    = Ok (body, next, upToDate).
Proof.
  intros Hs Hp Hg Hr Httl Hpath Hm Hq Htok Hlive Hcond Hpo Hnow Ho. pose proof Hs as [[Hh Hcat _ _] _].
  pose proof (reads_log_at _ _ _ _ _ _ _ Hcat Hp Hr) as Hl.
  pose proof (eo_bound _ _ _ _ (co_entry _ _ _ _ Hcat p e Hp)).
  destruct (readRange_total _ _ _ _ _ (isJSONStream (ContentType (e_meta e))) (off po) _ maxReadBytes Hh
    (co_keys _ _ _ _ Hcat) Hl) as [[[body next] utd] E]; [done|lia|].
  unfold handleGet, query_get. rewrite Hq, Hlive. cbn [head from_option id length].
  rewrite decide_False by (intros [?|[= ?]]; [lia|done]). rewrite Hpo.
  rewrite (loadTombstone_cat R _ _ _ _ Hh Hcat), soft_deleted_cat, (loadMeta_cat R _ _ _ _ Hh Hcat), Hp.
  cbn [from_option fmap option_fmap option_map]. rewrite Hg.
  change (TTLSeconds (e_stored e)) with (TTLSeconds (e_meta e)). rewrite Httl, (decide_False (P := 0 < 0)) by lia.
  rewrite decide_True by done. unfold readCatchup. rewrite Hpath.
  destruct (liveState_ok R srv C p Hs) as [ost ->]. rewrite Hp. cbn [fmap option_fmap option_map]. rewrite Hnow.
  change (ContentType (e_stored e)) with (ContentType (e_meta e)).
  change (StreamID (e_stored e)) with (e_id e). change (ForkedFrom (e_stored e)) with (e_source e).
  change (ForkOffset (e_stored e)) with (ForkOffset (e_meta e)). rewrite E.
  rewrite Hcond, Hm. cbn zeta. rewrite decide_False by tauto.
  rewrite (decide_False (P := mGET = mHEAD)) by (intros X; vm_compute in X; discriminate X).
  by repeat eexists.
Qed.

(** A path without a stream in use. *)
Lemma handleGet_absent srv C r h p tok po :
  server_ok R srv C → C !! p = None →
  hr_query r qOffset = [tok] → tok ≠ [] → parseOffset tok = Ok po →
  handleGet maxReadBytes srv r h p = (srv, GetDone (http_Error h eNotFound 404)).
Proof.
  intros Hs Hp Hq Htok Hpo. pose proof Hs as [[Hh Hcat _ _] _].
  unfold handleGet, query_get. rewrite Hq. cbn [head from_option id length].
  rewrite decide_False by (intros [?|[= ?]]; [lia|done]). rewrite Hpo.
  by rewrite (loadTombstone_cat R _ _ _ _ Hh Hcat), soft_deleted_cat, (loadMeta_cat R _ _ _ _ Hh Hcat), Hp.
Qed.

(** A malformed offset. *)
Lemma handleGet_malformed srv r h p tok e :
  hr_query r qOffset = [tok] → parseOffset tok = Err e →
  handleGet maxReadBytes srv r h p = (srv, GetDone (http_Error h eOffset 400)).
Proof.
  intros Hq Hpo. unfold handleGet, query_get. rewrite Hq. cbn [head from_option id length].
  case_decide; [done|]. by rewrite Hpo.
Qed.

End get.

(** ** Properties *)

(** C25: a POST is one append. A malformed request changes nothing and gets its
    error; absent, soft-deleted and undecodable cases get 404, 410 and 400 and no
    stream changes; otherwise the stream named by the path takes exactly one append
    of the specification, and the response is that append's. *)
Theorem handlePost_correct {S : Type} `{StorageLaws S} (R : gmap Z phase) (maxRecordBytes : Z)
    (srv : server S) (C : catalog) now r h p :
  server_ok R srv C → post_room maxRecordBytes C now r p →
  let '(srv', resp) := handlePost maxRecordBytes srv now r h p in
  match post_checks maxRecordBytes r with
  | inl (msg, code) => srv' = srv ∧ resp = http_Error h msg code
  | inr (body, producer) =>
      match C !! p with
      | None => server_ok R srv' C ∧ resp = http_Error h eNotFound 404
      | Some e =>
          if e_gone e then srv' = srv ∧ resp = http_Error h eGone 410
          else match post_records e (hr_header r hContentType) body with
               | inl msg => server_ok R srv' C ∧ resp = http_Error h msg 400
               | inr records =>
                   let o := spec_append (ContentType (e_meta e)) (TTLSeconds (e_meta e)) now (e_state e)
                              (post_req r body producer records) in
                   server_ok R srv' (<[p := with_state e o.1]> C) ∧ resp = writeAppendResponse h o.2
               end
      end
  end.
Proof. apply handlePost_ok. Qed.

(** C26: a 304 is honest. When the entity tag of an earlier read of a stream matches
    that of a later one, both name the same range and the same closure, and, however
    much the stream has grown in between, the bytes of the range are the same: the
    body the client kept is the body it would get. *)
Theorem etag_honest {S : Type} `{StorageLaws S} (s s' : S) id ff fo isJSON L T L' T' o o' limit
    body next u c body' next' u' c' :
  keys_wf (view s) → keys_wf (view s') → log_at (view s) L id ff fo T → log_at (view s') L' id ff fo T' →
  log_grows L T L' T' → is_u64 id → T' < 2^64 → 0 < limit →
  offset_fits o → offset_fits o' → offset_fits next → offset_fits next' →
  readRange s id ff fo isJSON o T limit = Ok (body, next, u) →
  readRange s' id ff fo isJSON o' T' limit = Ok (body', next', u') →
  etagMatches (makeETag id o next c) (makeETag id o' next' c') = true →
  o = o' ∧ next = next' ∧ c = c' ∧ body = body'.
Proof.
  intros Hk Hk' Hl Hl' Hg Hid HT Hlim Ho Ho' Hn Hn' E E' Hm.
  rewrite etagMatches_one in Hm by done. apply bool_decide_eq_true in Hm.
  apply makeETag_inj in Hm as (_ & <- & <- & <-); [|done..]. split_and!; [done..|].
  destruct Ho as [? ?].
  by apply (readRange_same s s' id ff fo isJSON L T L' T' o limit limit body body' next u u'); try lia.
Qed.

Module HttpSample.
(** POST /a with a body and a matching content type. *)
Definition req : request :=
  {| hr_method := mPOST; hr_path := LifeSample.path;
     hr_header := λ k, if decide (k = hContentType) then ["t"%byte] else [];
     hr_query := λ _, []; hr_body := ["z"%byte]; hr_bodyErr := false; hr_host := []; hr_tls := false |}.
End HttpSample.

Lemma handlePost_correct_witness :
  hp_status (handlePost 100 LifeSample.srv1 101 HttpSample.req ∅ LifeSample.path).2 = 204.
Proof.
  destruct LifeSample.srv1_ok as [Hs _].
  pose proof (handlePost_correct ∅ 100 LifeSample.srv1 LifeSample.C1 101 HttpSample.req ∅ LifeSample.path Hs) as Hc.
  destruct (handlePost _ _ _ _ _ _) as [srv' resp].
  assert (E : post_checks 100 HttpSample.req = inr (["z"%byte], None)) by (vm_compute; reflexivity).
  rewrite E in Hc. unfold LifeSample.C1 in Hc at 2. rewrite lookup_insert_eq in Hc.
  assert (Er : post_records LifeSample.entry1 (hr_header HttpSample.req hContentType) ["z"%byte] = inr [["z"%byte]])
    by (vm_compute; reflexivity).
  change (e_gone LifeSample.entry1) with false in Hc. cbv iota in Hc. rewrite Er in Hc.
  destruct Hc as [_ ->]; [|vm_compute; reflexivity].
  intros e body producer records ->%ForkSample.sample_stream Ec Ep. rewrite E in Ec. injection Ec as <- <-.
  rewrite Er in Ep. injection Ep as <-. split_and!; by vm_compute.
Defined.

Lemma etag_honest_witness :
  ∃ body next u, readRange (srv_store LifeSample.srv1) 1 0 0 false offset0 1 10 = Ok (body, next, u) ∧
    etagMatches (makeETag 1 offset0 next true) (makeETag 1 offset0 next true) = true ∧ body = body.
Proof.
  destruct (readRange (srv_store LifeSample.srv1) 1 0 0 false offset0 1 10) as [[[body next] u]|err] eqn:E;
    [|exfalso; vm_compute in E; discriminate E].
  assert (Hn : next = {| Seq := 1; Byte := 0 |}).
  { assert (E2 := E). vm_compute in E2. injection E2 as _ <- _. reflexivity. }
  assert (Hm : etagMatches (makeETag 1 offset0 next true) (makeETag 1 offset0 next true) = true)
    by (rewrite Hn; vm_compute; reflexivity).
  destruct LifeSample.srv1_ok as [[[Hh Hcat _ _] _] _].
  assert (Hp : LifeSample.C1 !! LifeSample.path = Some LifeSample.entry1) by apply lookup_insert_eq.
  pose proof (reads_log_at _ _ _ _ _ _ _ Hcat Hp (reads_root _ LifeSample.entry1 eq_refl)) as Hl.
  pose proof (co_keys _ _ _ _ Hcat) as Hk.
  set (L := content (e_state LifeSample.entry1)) in Hl.
  assert (Hg : log_grows L (a_tail (e_state LifeSample.entry1)) L (a_tail (e_state LifeSample.entry1)))
    by (split; [lia|reflexivity]).
  assert (Hid : is_u64 1) by (split; lia).
  assert (Hf0 : offset_fits offset0) by (split; cbn; lia).
  assert (Hf : offset_fits next) by (rewrite Hn; split; cbn; lia).
  assert (HT : a_tail (e_state LifeSample.entry1) < 2^64) by (vm_compute; reflexivity).
  pose proof (etag_honest (srv_store LifeSample.srv1) (srv_store LifeSample.srv1) 1 0 0 false L _ L _
    offset0 offset0 10 body next u true body next u true Hk Hk Hl Hl Hg Hid HT ltac:(lia) Hf0 Hf0 Hf Hf E E Hm)
    as (_ & _ & _ & Hb).
  exists body, next, u. exact (conj eq_refl (conj Hm Hb)).
Defined.
