(* ===== verification/Sse.v ===== *)
(** * Server-sent events and cursors (internal/ds/read.go, cursor.go)

    The frames of the live event stream: a data event per delivery, verbatim for
    text and JSON, base64 for the rest, and a control event with the position. What
    a client makes of the bytes is the reference [sse_parse], the event stream
    interpretation of the HTML standard. The interval cursor of live responses
    follows. *)

From Stdlib Require Strings.String.
From S2P Require Import Prelude.
From S2P Require Import Bytes.
From S2P Require Import Decimal.
From S2P Require Import Offset.

Module SseLiterals.
Import String.
Open Scope string_scope.
Definition sseEventData : bytes := list_byte_of_string "event: data" ++ [x0a].
Definition sseDataPrefix : bytes := list_byte_of_string "data:".
Definition event_control : bytes := list_byte_of_string "event: control" ++ [x0a].
Definition control_open : bytes :=
  list_byte_of_string "{" ++ [x22] ++ list_byte_of_string "streamNextOffset" ++ [x22; ":"%byte; x22].
Definition control_cursor : bytes :=
  [","%byte; x22] ++ list_byte_of_string "streamCursor" ++ [x22; ":"%byte; x22].
Definition control_upToDate : bytes :=
  [","%byte; x22] ++ list_byte_of_string "upToDate" ++ [x22] ++ list_byte_of_string ":true".
Definition control_closed : bytes :=
  [","%byte; x22] ++ list_byte_of_string "streamClosed" ++ [x22] ++ list_byte_of_string ":true".
Definition b64_alphabet : bytes :=
  list_byte_of_string "ABCDEFGHIJKLMNOPQRSTUVWXYZabcdefghijklmnopqrstuvwxyz0123456789+/".
Definition field_event : bytes := list_byte_of_string "event".
Definition field_data : bytes := list_byte_of_string "data".
Definition name_data : bytes := list_byte_of_string "data".
Definition name_control : bytes := list_byte_of_string "control".
End SseLiterals.
Export SseLiterals.

(** ** base64 (encoding/base64, StdEncoding) *)

Definition b64_char (n : Z) : byte := nth (Z.to_nat n) b64_alphabet x00.

Fixpoint b64_encode (b : bytes) : bytes :=
  match b with
  | [] => []
  | [x] =>
      let n := byte_to_Z x * 65536 in
      [b64_char (n / 262144); b64_char (n / 4096 mod 64); "="%byte; "="%byte]
  | [x; y] =>
      let n := byte_to_Z x * 65536 + byte_to_Z y * 256 in
      [b64_char (n / 262144); b64_char (n / 4096 mod 64); b64_char (n / 64 mod 64); "="%byte]
  | x :: y :: z :: rest =>
      let n := byte_to_Z x * 65536 + byte_to_Z y * 256 + byte_to_Z z in
      b64_char (n / 262144) :: b64_char (n / 4096 mod 64) :: b64_char (n / 64 mod 64)
      :: b64_char (n mod 64) :: b64_encode rest
  end.

(** ** Data events *)

(** [strings.ReplaceAll(s, "\r\n", "\n")], then of a lone carriage return: every line
    ending becomes a line feed. *)
Fixpoint replace_crlf (s : bytes) : bytes :=
  match s with
  | c :: ((d :: r) as t) =>
      if decide (c = x0d ∧ d = x0a) then x0a :: replace_crlf r else c :: replace_crlf t
  | _ => s
  end.
Definition replace_cr (s : bytes) : bytes := (λ c, if decide (c = x0d) then x0a else c) <$> s.

(** [strings.Split(s, "\n")]. *)
Fixpoint split_nl (s : bytes) : list bytes :=
  match s with
  | [] => [[]]
  | c :: r =>
      if decide (c = x0a) then [] :: split_nl r
      else match split_nl r with
           | [] => [[c]]
           | l :: ls => (c :: l) :: ls
           end
  end.

Definition data_line (l : bytes) : bytes := sseDataPrefix ++ l ++ [x0a].

(** What [writeSSEData] writes. *)
Definition writeSSEData (textLike : bool) (payload : bytes) : bytes :=
  sseEventData ++
  (if negb textLike then sseDataPrefix ++ b64_encode payload ++ [x0a; x0a]
   else if decide (x0a ∉ payload ∧ x0d ∉ payload) then sseDataPrefix ++ payload ++ [x0a; x0a]
   else concat (data_line <$> split_nl (replace_cr (replace_crlf payload))) ++ [x0a]).

(** ** Control events *)

Record sseControl : Type := mkSseControl {
  sc_Next : Offset; sc_StreamCursor : bytes; sc_UpToDate : bool; sc_StreamClosed : bool }.

Definition control_json (c : sseControl) : bytes :=
  control_open ++ offset_String (sc_Next c) ++ [x22]
  ++ (if decide (sc_StreamCursor c ≠ []) then control_cursor ++ sc_StreamCursor c ++ [x22] else [])
  ++ (if sc_UpToDate c then control_upToDate else [])
  ++ (if sc_StreamClosed c then control_closed else []) ++ ["}"%byte].

(** [appendSSEControl]. *)
Definition appendSSEControl (dst : bytes) (c : sseControl) : bytes :=
  dst ++ event_control ++ sseDataPrefix ++ control_json c ++ [x0a; x0a].

(** ** Cursors *)

Definition cursorIntervalSecs : Z := 20.
Definition maxJitterIntervals : Z := 3600 / cursorIntervalSecs.

(** [computeCursor]: [elapsed] is the time since the epoch in whole seconds (what
    [d.Seconds()] truncates to; not positive before the epoch), [jitter] what [rand.Intn(maxJitterIntervals)] returned. *)
Definition computeCursor (clientCursor : bytes) (elapsed jitter : Z) : bytes :=
  let cur := if decide (0 < elapsed) then u64 elapsed / cursorIntervalSecs else 0 in
  match (if decide (clientCursor = []) then None else ParseUint clientCursor) with
  | Some c => if decide (cur ≤ c) then FormatUint (u64 (c + 1 + jitter)) else FormatUint cur
  | None => FormatUint cur
  end.

Definition cursorUnlessClosed (clientCursor : bytes) (closed : bool) (elapsed jitter : Z) : bytes :=
  if closed then [] else computeCursor clientCursor elapsed jitter.

(** ** The reference parser: event streams of the HTML standard *)

(** Lines end with CR LF, LF or CR. *)
Fixpoint sse_lines (s : bytes) : list bytes :=
  match s with
  | [] => [[]]
  | c :: r =>
      if decide (c = x0a) then [] :: sse_lines r
      else if decide (c = x0d) then
        match r with
        | d :: r' => if decide (d = x0a) then [] :: sse_lines r' else [] :: sse_lines r
        | [] => [[]; []]
        end
      else match sse_lines r with
           | [] => [[c]]
           | l :: ls => (c :: l) :: ls
           end
  end.

(** The field name and value of a line: one space after the colon is dropped. *)
Fixpoint split_colon (l : bytes) : option (bytes * bytes) :=
  match l with
  | [] => None
  | c :: r => if decide (c = ":"%byte) then Some ([], r)
              else (λ '(f, v), (c :: f, v)) <$> split_colon r
  end.

Definition drop_space (v : bytes) : bytes :=
  match v with c :: r => if decide (c = " "%byte) then r else v | [] => [] end.

Record sse_state : Type := mkSse { ss_event : bytes; ss_data : bytes; ss_out : list (bytes * bytes) }.

(** One line. An empty one dispatches the event, unless there is no data; the last
    line feed of the data is cut off. *)
Definition sse_line (st : sse_state) (l : bytes) : sse_state :=
  if decide (l = []) then
    match ss_data st with
    | [] => {| ss_event := []; ss_data := []; ss_out := ss_out st |}
    | d => {| ss_event := []; ss_data := []; ss_out := ss_out st ++ [(ss_event st, removelast d)] |}
    end
  else
    let '(field, value) := match split_colon l with Some (f, v) => (f, drop_space v) | None => (l, []) end in
    if decide (field = field_event) then {| ss_event := value; ss_data := ss_data st; ss_out := ss_out st |}
    else if decide (field = field_data)
    then {| ss_event := ss_event st; ss_data := ss_data st ++ value ++ [x0a]; ss_out := ss_out st |}
    else st.

(** The events of a stream: the name and data of each. The last line is not
    finished yet. *)
Definition sse_parse (s : bytes) : list (bytes * bytes) :=
  ss_out (foldl sse_line {| ss_event := []; ss_data := []; ss_out := [] |} (removelast (sse_lines s))).

(** ** Lemmas: lines *)

Definition one_line (l : bytes) : Prop := x0a ∉ l ∧ x0d ∉ l.

Definition sse_run (st : sse_state) (s : bytes) : sse_state := foldl sse_line st (removelast (sse_lines s)).

Lemma sse_lines_nonempty s : sse_lines s ≠ [].
Proof.
  destruct s as [|c r]; [done|]. cbn [sse_lines]. case_decide; [done|]. case_decide.
  - destruct r as [|d r]; [done|]. by case_decide.
  - by destruct (sse_lines r).
Qed.

Lemma sse_lines_line l rest : one_line l → sse_lines (l ++ x0a :: rest) = l :: sse_lines rest.
Proof.
  induction l as [|c l IH]; intros [Hn Hr]; [done|]. cbn [app sse_lines].
  rewrite !decide_False by set_solver. rewrite IH by (split; set_solver). done.
Qed.

Lemma sse_run_line st l rest : one_line l → sse_run st (l ++ x0a :: rest) = sse_run (sse_line st l) rest.
Proof.
  intros Hl. unfold sse_run. rewrite sse_lines_line by done.
  pose proof (sse_lines_nonempty rest). by destruct (sse_lines rest).
Qed.

Lemma sse_run_nil st : sse_run st [] = st.
Proof. done. Qed.

Lemma split_nl_nonempty s : split_nl s ≠ [].
Proof. destruct s as [|c r]; [done|]. cbn [split_nl]. case_decide; [done|]. by destruct (split_nl r). Qed.

Lemma split_nl_lines s : x0d ∉ s → Forall one_line (split_nl s).
Proof.
  induction s as [|c r IH]; intros Hs; cbn [split_nl].
  { constructor; [split; set_solver|constructor]. }
  specialize (IH ltac:(set_solver)). case_decide; [constructor; [split; set_solver|done]|].
  pose proof (split_nl_nonempty r). destruct IH as [|l ls [? ?] ?]; [done|].
  constructor; [split; set_solver|done].
Qed.

Lemma split_nl_one l : x0a ∉ l → split_nl l = [l].
Proof.
  induction l as [|c l IH]; intros Hl; [done|]. cbn [split_nl]. by rewrite decide_False, IH by set_solver.
Qed.

Lemma replace_cr_none s : x0d ∉ replace_cr s.
Proof. unfold replace_cr. intros (c & Hc & _)%list_elem_of_fmap. by case_decide. Qed.

Lemma replace_cr_id s : x0d ∉ s → replace_cr s = s.
Proof.
  intros Hs. unfold replace_cr. induction s as [|c s IH]; [done|]. cbn [fmap list_fmap].
  rewrite decide_False by set_solver. rewrite IH; [done|set_solver].
Qed.

Lemma replace_crlf_id s : x0d ∉ s → replace_crlf s = s.
Proof.
  induction s as [|c [|d s] IH]; intros Hs; [done..|]. cbn [replace_crlf].
  rewrite decide_False by set_solver. f_equal. apply IH. set_solver.
Qed.

(** The payload with every line ending a line feed, and its lines. *)
Definition normalized (payload : bytes) : bytes := replace_cr (replace_crlf payload).
Definition data_lines (payload : bytes) : list bytes := split_nl (normalized payload).

(** The fast path writes what the slow path would. *)
Lemma writeSSEData_text payload :
  writeSSEData true payload = sseEventData ++ concat (data_line <$> data_lines payload) ++ [x0a].
Proof.
  unfold writeSSEData, data_lines, normalized. cbn [negb]. case_decide as Hd; [|done]. destruct Hd as [Hn Hr].
  rewrite replace_crlf_id, replace_cr_id, split_nl_one by done. cbn [fmap list_fmap concat]. unfold data_line.
  by rewrite app_nil_r, <-!app_assoc.
Qed.

(** ** Lemmas: events *)

Lemma sse_data_line st l :
  sse_line st (sseDataPrefix ++ l) =
    {| ss_event := ss_event st; ss_data := ss_data st ++ drop_space l ++ [x0a]; ss_out := ss_out st |}.
Proof. reflexivity. Qed.

Lemma one_line_prefix l : one_line l → one_line (sseDataPrefix ++ l).
Proof.
  assert (Hp : one_line sseDataPrefix).
  { split; apply (bool_decide_unpack (_ ∉ sseDataPrefix)); by vm_compute. }
  intros [? ?]. destruct Hp. split; rewrite elem_of_app; tauto.
Qed.

Lemma sse_run_data st ls rest :
  Forall one_line ls →
  sse_run st (concat (data_line <$> ls) ++ rest) =
  sse_run {| ss_event := ss_event st;
             ss_data := ss_data st ++ concat ((λ l, drop_space l ++ [x0a]) <$> ls);
             ss_out := ss_out st |} rest.
Proof.
  intros Hls. revert st. induction Hls as [|l ls Hl Hls IH]; intros st.
  { cbn [fmap list_fmap concat app]. rewrite app_nil_r. by destruct st. }
  cbn [fmap list_fmap concat]. unfold data_line at 1.
  replace (((sseDataPrefix ++ l ++ [x0a]) ++ concat (data_line <$> ls)) ++ rest)
    with ((sseDataPrefix ++ l) ++ x0a :: (concat (data_line <$> ls) ++ rest)) by (by rewrite <-!app_assoc).
  rewrite sse_run_line by (by apply one_line_prefix). rewrite IH, sse_data_line.
  cbn [ss_event ss_data ss_out]. by rewrite <-!app_assoc.
Qed.

(** Lines joined by line feeds. *)
Fixpoint join_nl (ls : list bytes) : bytes :=
  match ls with
  | [] => []
  | [l] => l
  | l :: ls => l ++ x0a :: join_nl ls
  end.

Lemma removelast_data ls : ls ≠ [] → removelast (concat ((λ l, l ++ [x0a]) <$> ls)) = join_nl ls.
Proof.
  induction ls as [|l [|l' ls] IH]; [done|intros _..].
  { cbn [fmap list_fmap concat]. by rewrite app_nil_r, removelast_last. }
  specialize (IH ltac:(done)).
  change (join_nl (l :: l' :: ls)) with (l ++ x0a :: join_nl (l' :: ls)). rewrite <-IH.
  change (concat ((λ l, l ++ [x0a]) <$> l :: l' :: ls))
    with ((l ++ [x0a]) ++ concat ((λ l, l ++ [x0a]) <$> l' :: ls)).
  rewrite removelast_app, <-app_assoc; [done|]. cbn [fmap list_fmap concat]. by destruct l'.
Qed.

Lemma join_split_nl s : join_nl (split_nl s) = s.
Proof.
  induction s as [|c r IH]; [done|]. cbn [split_nl]. case_decide as Hc.
  - subst c. pose proof (split_nl_nonempty r). destruct (split_nl r) as [|l ls]; [done|]. by cbn [join_nl app]; rewrite <-IH.
  - pose proof (split_nl_nonempty r). destruct (split_nl r) as [|l ls]; [done|]. rewrite <-IH. by destruct ls.
Qed.

(** The data a client reads from a delivery. *)
Definition client_data (textLike : bool) (payload : bytes) : bytes :=
  if textLike then join_nl (drop_space <$> data_lines payload) else b64_encode payload.

(** The payloads a text event carries as they are: no carriage return, and no line that
    starts with a space. *)
Definition verbatim (payload : bytes) : bool :=
  bool_decide (x0d ∉ payload) && forallb (λ l, bool_decide (head l ≠ Some " "%byte)) (split_nl payload).

Lemma drop_space_head l : head l ≠ Some " "%byte → drop_space l = l.
Proof. destruct l as [|c l]; [done|]. cbn. intros Hc. rewrite decide_False; [done|congruence]. Qed.

Lemma drop_space_length l : (length (drop_space l) ≤ length l)%nat.
Proof. destruct l as [|c l]; [done|]. cbn. case_decide; cbn; lia. Qed.

Lemma drop_space_short l : (length l ≤ length (drop_space l))%nat → head l ≠ Some " "%byte.
Proof. destruct l as [|c l]; [done|]. cbn. case_decide; cbn; [lia|congruence]. Qed.

Lemma join_nl_cons l l' ls : join_nl (l :: l' :: ls) = l ++ x0a :: join_nl (l' :: ls).
Proof. done. Qed.

Lemma join_drop_length ls : (length (join_nl (drop_space <$> ls)) ≤ length (join_nl ls))%nat.
Proof.
  induction ls as [|l [|l' ls] IH]; [done|apply drop_space_length|].
  rewrite !fmap_cons, !join_nl_cons, !length_app. cbn [length]. rewrite fmap_cons in IH.
  pose proof (drop_space_length l). lia.
Qed.

Lemma join_drop_eq ls :
  join_nl (drop_space <$> ls) = join_nl ls → Forall (λ l, head l ≠ Some " "%byte) ls.
Proof.
  intros H%(f_equal length). induction ls as [|l [|l' ls] IH]; [constructor|..].
  - constructor; [|constructor]. apply drop_space_short. cbn [fmap list_fmap join_nl] in H. lia.
  - rewrite !fmap_cons, !join_nl_cons, !length_app in H. cbn [length] in H.
    pose proof (join_drop_length (l' :: ls)) as Hl. rewrite fmap_cons in Hl, IH.
    pose proof (drop_space_length l). constructor; [apply drop_space_short; lia|apply IH; lia].
Qed.

Lemma client_data_no_cr payload : x0d ∉ client_data true payload.
Proof.
  cbn [client_data]. pose proof (split_nl_lines _ (replace_cr_none (replace_crlf payload))) as Hl.
  unfold data_lines, normalized. induction Hl as [|l [|l' ls] [_ Hl] Hls IH]; [set_solver|..].
  - cbn. destruct l as [|c l]; [set_solver|]. cbn. case_decide; set_solver.
  - rewrite !fmap_cons, join_nl_cons. rewrite fmap_cons in IH. rewrite not_elem_of_app, not_elem_of_cons.
    split_and!; [|done|done]. destruct l as [|c l]; [set_solver|]. cbn. case_decide; set_solver.
Qed.

(** What the client reads is the payload exactly when the payload is [verbatim]. *)
Lemma client_data_exact payload : client_data true payload = payload ↔ verbatim payload = true.
Proof.
  unfold verbatim. rewrite andb_true_iff, bool_decide_eq_true, forallb_forall. split.
  - intros H. assert (Hr : x0d ∉ payload) by (rewrite <-H; apply client_data_no_cr). split; [done|].
    cbn [client_data] in H. unfold data_lines, normalized in H. rewrite replace_crlf_id, replace_cr_id in H by done.
    rewrite <-(join_split_nl payload) in H at 2. apply join_drop_eq in H. rewrite Forall_forall in H.
    intros l Hl%list_elem_of_In. apply bool_decide_eq_true. by apply H.
  - intros [Hr Hl]. cbn [client_data]. unfold data_lines, normalized. rewrite replace_crlf_id, replace_cr_id by done.
    rewrite <-(join_split_nl payload) at 2. f_equal. rewrite <-(list_fmap_id (split_nl payload)) at 2.
    apply list_fmap_ext. intros i l Hi%list_elem_of_lookup_2. apply drop_space_head.
    apply (bool_decide_unpack _). apply Is_true_eq_left, Hl. by apply list_elem_of_In.
Qed.

Lemma sse_run_event st ls name rest :
  Forall one_line ls → ls ≠ [] →
  sse_run {| ss_event := name; ss_data := []; ss_out := ss_out st |} (concat (data_line <$> ls) ++ x0a :: rest)
  = sse_run {| ss_event := []; ss_data := []; ss_out := ss_out st ++ [(name, join_nl (drop_space <$> ls))] |} rest.
Proof.
  intros Hls Hne. rewrite sse_run_data by done. cbn [ss_event ss_data ss_out app].
  change (x0a :: rest) with ([] ++ x0a :: rest). rewrite sse_run_line by (split; set_solver). f_equal.
  unfold sse_line. rewrite decide_True by done. cbn [ss_event ss_data ss_out].
  pose proof (removelast_data (drop_space <$> ls)) as Hr.
  rewrite <-list_fmap_compose in Hr. unfold compose in Hr.
  rewrite <-Hr by (by destruct ls). destruct (concat _) eqn:E; [|done].
  exfalso. destruct ls as [|l ls]; [done|]. cbn [fmap list_fmap concat] in E. by destruct (drop_space l).
Qed.

Lemma b64_char_ok n : x0a ≠ b64_char n ∧ x0d ≠ b64_char n ∧ " "%byte ≠ b64_char n.
Proof.
  assert (Hall : Forall (λ c, x0a ≠ c ∧ x0d ≠ c ∧ " "%byte ≠ c) (x00 :: b64_alphabet)).
  { apply (bool_decide_unpack (Forall _ _)). by vm_compute. }
  inversion_clear Hall as [|?? H0 Hr]. unfold b64_char.
  destruct (nth_in_or_default (Z.to_nat n) b64_alphabet x00) as [Hin| ->]; [|done].
  rewrite Forall_forall in Hr. apply Hr. by apply list_elem_of_In.
Qed.

Lemma b64_encode_line b : one_line (b64_encode b) ∧ drop_space (b64_encode b) = b64_encode b.
Proof.
  cut (Forall (λ c, x0a ≠ c ∧ x0d ≠ c ∧ " "%byte ≠ c) (b64_encode b)).
  { intros Hf. split.
    - split; intros Hin; rewrite Forall_forall in Hf; by destruct (Hf _ Hin) as (? & ? & ?).
    - destruct Hf as [|c l (_ & _ & Hc)]; [done|]. cbn [drop_space]. by rewrite decide_False. }
  revert b. fix IH 1. intros [|x [|y [|z rest]]]; cbn [b64_encode].
  - constructor.
  - repeat constructor; (apply b64_char_ok || done).
  - repeat constructor; (apply b64_char_ok || done).
  - do 4 (constructor; [apply b64_char_ok|]). apply IH.
Qed.

(** ** Lemmas: control events *)

Lemma digits_one_line s : Forall is_digit s → one_line s.
Proof.
  intros Hs. rewrite Forall_forall in Hs.
  split; intros Hin; specialize (Hs _ Hin); revert Hs; unfold is_digit; vm_compute; intros [? ?]; done.
Qed.

Lemma one_line_app a b : one_line a → one_line b → one_line (a ++ b).
Proof. intros [? ?] [? ?]. split; rewrite elem_of_app; tauto. Qed.

Lemma one_line_closed l : bool_decide (x0a ∉ l) && bool_decide (x0d ∉ l) = true → one_line l.
Proof. intros [H1 H2]%andb_true_iff. split; by apply (bool_decide_unpack _), Is_true_true. Qed.

Lemma pad16_digits v : Forall is_digit (pad16 v).
Proof.
  unfold pad16. generalize (16%nat) as i. assert (Hn : Forall is_digit []) by constructor. revert Hn.
  generalize (@nil byte) as acc. intros acc Hacc i. revert v acc Hacc.
  induction i as [|i IH]; intros v acc Hacc; cbn [appendPad16_loop]; [done|].
  apply IH. constructor; [|done]. apply digit_is_digit. by apply Z.mod_pos_bound.
Qed.

Lemma dec_digits_digits fuel v : 0 ≤ v → Forall is_digit (dec_digits fuel v).
Proof.
  revert v. induction fuel as [|fuel IH]; intros v Hv; cbn [dec_digits]; [constructor|]. case_decide.
  - apply Forall_singleton, digit_is_digit. lia.
  - apply Forall_app. split; [apply IH; by apply Z.div_pos|]. apply Forall_singleton, digit_is_digit.
    by apply Z.mod_pos_bound.
Qed.

Lemma computeCursor_number clientCursor elapsed jitter :
  ∃ n, is_u64 n ∧ computeCursor clientCursor elapsed jitter = FormatUint n.
Proof.
  assert (Hcur : is_u64 (if decide (0 < elapsed) then u64 elapsed / cursorIntervalSecs else 0)).
  { pose proof (u64_range elapsed) as [? ?]. unfold is_u64, cursorIntervalSecs in *. case_decide; [|lia].
    split; [apply Z.div_pos; lia|apply Z.div_lt_upper_bound; lia]. }
  unfold computeCursor. set (cur := if decide (0 < elapsed) then _ else _) in *. clearbody cur.
  destruct (if decide (clientCursor = []) then None else ParseUint clientCursor) as [c|]; [case_decide|];
    eexists; split; [|done| |done| |done]; [apply u64_range|done|done].
Qed.

(** A control event's cursor is empty or a live response's. *)
Definition control_ok (c : sseControl) : Prop :=
  ∃ cc closed e j, sc_StreamCursor c = cursorUnlessClosed cc closed e j.

Lemma control_one_line c : control_ok c → one_line (control_json c).
Proof.
  intros (cc & closed & e & j & Hc). unfold control_json. rewrite offset_String_layout.
  assert (Hcur : one_line (sc_StreamCursor c)).
  { rewrite Hc. unfold cursorUnlessClosed. destruct closed; [by apply one_line_closed|].
    destruct (computeCursor_number cc e j) as (n & [? ?] & ->).
    by apply digits_one_line, dec_digits_digits. }
  repeat (apply one_line_app || case_match); try (by apply one_line_closed);
    try (by apply digits_one_line, pad16_digits); done.
Qed.

(** ** Lemmas: base64 *)

(** The reference decoder: four characters give three bytes, padding fewer. *)
Definition b64_index (c : byte) : option Z :=
  (λ p : nat * byte, Z.of_nat p.1) <$> list_find (λ d, d = c) b64_alphabet.

Fixpoint b64_decode (s : bytes) : option bytes :=
  match s with
  | [] => Some []
  | a :: b :: c :: d :: rest =>
      i ← b64_index a; j ← b64_index b;
      if decide (c = "="%byte ∧ d = "="%byte ∧ rest = [])
      then Some [byte_of_Z ((i * 262144 + j * 4096) / 65536)]
      else k ← b64_index c;
      if decide (d = "="%byte ∧ rest = [])
      then let n := i * 262144 + j * 4096 + k * 64 in
           Some [byte_of_Z (n / 65536); byte_of_Z (n / 256)]
      else l ← b64_index d; bs ← b64_decode rest;
           let n := i * 262144 + j * 4096 + k * 64 + l in
           Some (byte_of_Z (n / 65536) :: byte_of_Z (n / 256) :: byte_of_Z n :: bs)
  | _ => None
  end.

Lemma b64_index_char n : 0 ≤ n < 64 → b64_index (b64_char n) = Some n.
Proof.
  intros Hn. replace n with (Z.of_nat (Z.to_nat n)) by lia.
  assert (Hlt : (Z.to_nat n < 64)%nat) by lia. revert Hlt. generalize (Z.to_nat n) as k. clear.
  do 64 (intros [|k]; [intros _; by vm_compute|]; revert k). intros k Hk. lia.
Qed.

Lemma b64_char_not_pad n : 0 ≤ n < 64 → b64_char n ≠ "="%byte.
Proof. intros Hn E. pose proof (b64_index_char n Hn) as Hi. rewrite E in Hi. by vm_compute in Hi. Qed.

Lemma b64_bounds n : 0 ≤ n < 16777216 →
  0 ≤ n / 262144 < 64 ∧ 0 ≤ n / 4096 mod 64 < 64 ∧ 0 ≤ n / 64 mod 64 < 64 ∧ 0 ≤ n mod 64 < 64.
Proof. intros. Z.div_mod_to_equations. lia. Qed.

Lemma byte_of_Z_eq v x : v mod 256 = byte_to_Z x → byte_of_Z v = x.
Proof. intros Hv. apply (inj byte_to_Z). by rewrite byte_to_of_Z. Qed.

Lemma b64_decode_encode b : b64_decode (b64_encode b) = Some b.
Proof.
  revert b. fix IH 1. intros [|x [|y [|z rest]]]; cbn [b64_encode b64_decode]; [done|..].
  - pose proof (byte_to_Z_range x). destruct (b64_bounds (byte_to_Z x * 65536)) as (?&?&?&?); [lia|].
    rewrite !b64_index_char by done. cbn [mbind option_bind].
    rewrite decide_True by done. do 2 f_equal. apply byte_of_Z_eq. Z.div_mod_to_equations. lia.
  - pose proof (byte_to_Z_range x). pose proof (byte_to_Z_range y).
    destruct (b64_bounds (byte_to_Z x * 65536 + byte_to_Z y * 256)) as (?&?&?&?); [lia|].
    rewrite !b64_index_char by done. cbn [mbind option_bind].
    rewrite decide_False by (intros (E & _); by eapply b64_char_not_pad in E).
    rewrite decide_True by done.
    f_equal; f_equal; [|f_equal]; apply byte_of_Z_eq; Z.div_mod_to_equations; lia.
  - pose proof (byte_to_Z_range x). pose proof (byte_to_Z_range y). pose proof (byte_to_Z_range z).
    destruct (b64_bounds (byte_to_Z x * 65536 + byte_to_Z y * 256 + byte_to_Z z)) as (?&?&?&?); [lia|].
    rewrite !b64_index_char by done. cbn [mbind option_bind].
    rewrite decide_False by (intros (E & _); by eapply b64_char_not_pad in E).
    rewrite decide_False by (intros (E & _); by eapply b64_char_not_pad in E).
    rewrite IH. cbn [mbind option_bind]. f_equal.
    f_equal; [|f_equal; [|f_equal]]; apply byte_of_Z_eq; Z.div_mod_to_equations; lia.
Qed.

(** ** The event stream *)

(** What a live response writes: deliveries and control events. *)
Inductive sse_frame : Type :=
  | FrameData (payload : bytes)
  | FrameControl (c : sseControl).

Definition frame_ok (f : sse_frame) : Prop :=
  match f with FrameData _ => True | FrameControl c => control_ok c end.

Definition frame_bytes (textLike : bool) (f : sse_frame) : bytes :=
  match f with
  | FrameData payload => writeSSEData textLike payload
  | FrameControl c => appendSSEControl [] c
  end.

Definition frame_event (textLike : bool) (f : sse_frame) : bytes * bytes :=
  match f with
  | FrameData payload => (name_data, client_data textLike payload)
  | FrameControl c => (name_control, control_json c)
  end.

Lemma data_lines_ok payload : Forall one_line (data_lines payload) ∧ data_lines payload ≠ [].
Proof. split; [apply split_nl_lines, replace_cr_none|apply split_nl_nonempty]. Qed.

(** Every frame is an event line, its data lines and the empty line. *)
Lemma frame_layout textLike f : frame_ok f → ∃ ls name,
  Forall one_line ls ∧ ls ≠ [] ∧ frame_event textLike f = (name, join_nl (drop_space <$> ls)) ∧
  ∀ st rest, sse_run st (frame_bytes textLike f ++ rest)
    = sse_run {| ss_event := name; ss_data := ss_data st; ss_out := ss_out st |}
        (concat (data_line <$> ls) ++ x0a :: rest).
Proof.
  assert (Hev : ∀ st name body, one_line name →
    sse_line st (field_event ++ ":"%byte :: " "%byte :: name)
      = {| ss_event := name; ss_data := ss_data st; ss_out := ss_out st |}
    ∧ sse_run st ((field_event ++ ":"%byte :: " "%byte :: name) ++ x0a :: body)
      = sse_run {| ss_event := name; ss_data := ss_data st; ss_out := ss_out st |} body).
  { intros st name body Hn. split; [reflexivity|]. rewrite sse_run_line; [reflexivity|].
    apply one_line_app; [by apply one_line_closed|].
    apply (one_line_app [":"%byte; " "%byte]); [by apply one_line_closed|done]. }
  assert (Hd : ∀ st body, sse_run st (sseEventData ++ body)
    = sse_run {| ss_event := name_data; ss_data := ss_data st; ss_out := ss_out st |} body).
  { intros st body. rewrite <-(proj2 (Hev st name_data body ltac:(by apply one_line_closed))).
    f_equal. }
  assert (Hctl : ∀ st body, sse_run st (event_control ++ body)
    = sse_run {| ss_event := name_control; ss_data := ss_data st; ss_out := ss_out st |} body).
  { intros st body. rewrite <-(proj2 (Hev st name_control body ltac:(by apply one_line_closed))).
    f_equal. }
  destruct f as [payload|c]; intros Hok; cbn [frame_event frame_bytes].
  - destruct textLike; cbn [client_data].
    + destruct (data_lines_ok payload). exists (data_lines payload), name_data. split_and!; [done..|].
      intros st rest. rewrite writeSSEData_text, <-!app_assoc, Hd. done.
    + destruct (b64_encode_line payload) as [H1 H2]. exists [b64_encode payload], name_data.
      split_and!; [by constructor|done|by cbn [fmap list_fmap join_nl]; rewrite H2|].
      intros st rest. unfold writeSSEData. cbn [negb]. rewrite <-app_assoc, Hd. f_equal.
      cbn [fmap list_fmap concat]. unfold data_line. by rewrite app_nil_r, <-!app_assoc.
  - pose proof (control_one_line _ Hok) as Hl. exists [control_json c], name_control.
    split_and!; [by constructor|done|done|].
    intros st rest. unfold appendSSEControl. rewrite app_nil_l, <-app_assoc, Hctl.
    cbn [fmap list_fmap concat]. unfold data_line. generalize (control_json c) as j. intros j.
    rewrite app_nil_r, <-!app_assoc. reflexivity.
Qed.

Lemma sse_run_frames textLike fs out :
  Forall frame_ok fs →
  sse_run {| ss_event := []; ss_data := []; ss_out := out |} (concat (frame_bytes textLike <$> fs))
  = {| ss_event := []; ss_data := []; ss_out := out ++ (frame_event textLike <$> fs) |}.
Proof.
  intros Hfs. revert out. induction Hfs as [|f fs Hf Hfs IH]; intros out.
  { cbn [fmap list_fmap concat]. by rewrite app_nil_r. }
  destruct (frame_layout textLike f Hf) as (ls & name & Hls & Hne & Hev & Hrun).
  cbn [fmap list_fmap concat]. rewrite Hrun. cbn [ss_data ss_out].
  set (st := {| ss_event := []; ss_data := []; ss_out := out |}).
  change out with (ss_out st) at 1. rewrite sse_run_event by done. subst st. cbn [ss_out].
  change (list_fmap _ _ ?g fs) with (g <$> fs). rewrite IH, Hev. by rewrite <-app_assoc.
Qed.

(** ** Theorems *)

(** A live response is read back as it was written: whatever the payloads, the
    standard's event stream parser yields one data event per delivery and one
    control event per control frame, in order and none other, so a payload can
    neither end an event early nor forge one. Binary data decodes to the payload;
    text is the payload with its line endings normalised when no line starts with a
    space. *)
Theorem sse_frames_parse textLike fs :
  Forall frame_ok fs →
  sse_parse (concat (frame_bytes textLike <$> fs)) = frame_event textLike <$> fs
  ∧ ∀ payload,
      b64_decode (client_data false payload) = Some payload
      ∧ (Forall (λ l, head l ≠ Some " "%byte) (data_lines payload) →
         client_data true payload = normalized payload).
Proof.
  intros Hfs. split.
  - unfold sse_parse.
    pose proof (sse_run_frames textLike fs [] Hfs) as Hr. unfold sse_run in Hr. by rewrite Hr.
  - intros payload. split; [apply b64_decode_encode|]. intros Hl. cbn [client_data].
    rewrite <-(join_split_nl (normalized payload)). f_equal. fold (data_lines payload).
    induction Hl as [|l ls Hl _ IH]; [done|]. cbn [fmap list_fmap]. f_equal; [|exact IH].
    destruct l as [|c l]; [done|]. cbn [drop_space]. rewrite decide_False; [done|].
    intros ->. by apply Hl.
Qed.

(** A text line's own leading space does not reach the client: an event stream
    drops one space after the colon, and [writeSSEData] writes none of its own, so
    two different payloads are delivered as the same event. *)
Theorem sse_leading_space_lost :
  let payload := [" "%byte; "a"%byte] in
  sse_parse (writeSSEData true payload) = [(name_data, ["a"%byte])]
  ∧ sse_parse (writeSSEData true ["a"%byte]) = [(name_data, ["a"%byte])]
  ∧ sse_parse (writeSSEData false payload) = [(name_data, b64_encode payload)].
Proof. by vm_compute. Qed.

(** Cursors move on: the cursor of a live response is a decimal number that
    parses back, at least the current interval and strictly past the client's own,
    so a client that echoes its cursor never asks for the same cache key twice. This
    needs the client's cursor to be [maxJitterIntervals] away from the end of the 64
    bits; at the end the next cursor is zero. *)
Theorem cursor_advances clientCursor c elapsed jitter :
  ParseUint clientCursor = Some c →
  0 ≤ jitter < maxJitterIntervals → is_u64 elapsed →
  (c + maxJitterIntervals < 2^64 →
   ∃ n, ParseUint (computeCursor clientCursor elapsed jitter) = Some n
        ∧ c < n ∧ elapsed / cursorIntervalSecs ≤ n
        ∧ n ≤ Z.max (elapsed / cursorIntervalSecs) (c + maxJitterIntervals))
  ∧ (c = 2^64 - 1 → ParseUint (computeCursor clientCursor elapsed jitter) = Some jitter).
Proof.
  intros Hc Hj He. change maxJitterIntervals with 180 in *. unfold is_u64 in He.
  assert (Hne : clientCursor ≠ []) by (intros ->; by vm_compute in Hc).
  assert (H0 : 0 ≤ c).
  { unfold ParseUint in Hc. case_decide as Hd; [|done]. destruct Hd as (_ & Hd & _).
    injection Hc as <-. by destruct (dec_value_bound _ Hd). }
  unfold computeCursor. rewrite (decide_False (P := clientCursor = [])), Hc by done.
  replace (if decide (0 < elapsed) then _ else 0) with (elapsed / cursorIntervalSecs).
  2:{ case_decide; [by rewrite u64_small|]. by replace elapsed with 0 by lia. }
  unfold cursorIntervalSecs. split.
  - intros Hlt. case_decide as Hcur.
    + rewrite u64_small by (unfold is_u64; lia). rewrite ParseUint_FormatUint by (unfold is_u64; lia).
      eexists. split; [done|]. lia.
    + assert (elapsed / 20 < 2^64) by (apply Z.div_lt_upper_bound; lia).
      rewrite ParseUint_FormatUint by (unfold is_u64; lia). eexists. split; [done|]. lia.
  - intros ->. rewrite decide_True.
    2:{ enough (elapsed / 20 < 2^64) by lia. apply Z.div_lt_upper_bound; lia. }
    replace (u64 (2^64 - 1 + 1 + jitter)) with jitter.
    2:{ unfold u64. replace (2^64 - 1 + 1 + jitter) with (jitter + 1 * 2^64) by lia.
        rewrite Z.mod_add by lia. rewrite Z.mod_small; lia. }
    apply ParseUint_FormatUint. unfold is_u64. lia.
Qed.

(** ** Witnesses *)

Module SseSample.
Definition frames : list sse_frame :=
  [FrameData [x0a; "x"%byte; x0d; x0a; x0d; x0a; "y"%byte];
   FrameControl {| sc_Next := tailOffset 3; sc_StreamCursor := computeCursor [] 1000 0;
                   sc_UpToDate := true; sc_StreamClosed := false |}].
End SseSample.

Lemma sse_frames_parse_witness :
  sse_parse (concat (frame_bytes true <$> SseSample.frames)) = frame_event true <$> SseSample.frames
  ∧ client_data true ["a"%byte; x0d; "b"%byte] = ["a"%byte; x0a; "b"%byte].
Proof.
  assert (Hok : Forall frame_ok SseSample.frames).
  { repeat constructor. by exists [], false, 1000, 0. }
  destruct (sse_frames_parse true SseSample.frames Hok) as [H1 H2].
  split; [exact H1|]. destruct (H2 ["a"%byte; x0d; "b"%byte]) as [_ H3].
  rewrite H3; [by vm_compute|]. by repeat constructor.
Defined.

Lemma cursor_advances_witness :
  ∃ n, ParseUint (computeCursor (FormatUint 7) 100 11) = Some n ∧ 7 < n ∧ 100 / 20 ≤ n.
Proof.
  destruct (cursor_advances (FormatUint 7) 7 100 11) as [H1 _].
  - by vm_compute.
  - change maxJitterIntervals with 180. lia.
  - unfold is_u64. lia.
  - destruct H1 as (n & ? & ? & ? & ?); [change maxJitterIntervals with 180; lia|]. by exists n.
Defined.
