(* ===== verification/Live.v ===== *)
(** * Live readers (internal/ds/read.go, livewaker.go, streamer.go, public.go)

    Long-poll requests, server-sent event streams and in-process cursors wait on a
    streamer while its writer publishes. Every atomic load and store of the shared
    state is a step of its own, so a run of [lstep] is an interleaving of the reader
    goroutines, the goroutine that runs [applyReader], and the waker's timers. The
    broadcast channel is the number of broadcasts so far: a reader parked on an
    older number can run. Times are nanoseconds since Go's zero time.

    What the readers answer is a list of [live_out], rendered as responses
    ([longPollResponse]) and event stream frames ([sseFrames]). *)

From S2P Require Import Prelude.
From S2P Require Import Bytes.
From S2P Require Import Keys.
From S2P Require Import Meta.
From S2P Require Import Offset.
From S2P Require Import Storage.
From S2P Require Import Loads.
From S2P Require Import Read.
From S2P Require Import LiveCache.
From S2P Require Import Streamer.
From S2P Require Import Http.
From S2P Require Import Sse.

(** ** The waker (livewaker.go) *)

(** [wk_due] is when the armed timer expires; [wk_expired] counts the timers whose
    goroutine has yet to take the lock, [wk_firing] those about to broadcast. *)
Record liveWaker : Type := mkWaker {
  wk_lastWake : Z; wk_due : option Z; wk_pending : bool; wk_expired : nat; wk_firing : nat }.

Definition newLiveWaker : liveWaker :=
  {| wk_lastWake := 0; wk_due := None; wk_pending := false; wk_expired := 0; wk_firing := 0 |}.

(** [Wake]: true when the caller goes on to broadcast at once. *)
Definition Wake (window now : Z) (w : liveWaker) : liveWaker * bool :=
  if decide (window ≤ 0) then (w, true)
  else if decide (window ≤ now - wk_lastWake w) then
    ({| wk_lastWake := now; wk_due := wk_due w; wk_pending := wk_pending w;
        wk_expired := wk_expired w; wk_firing := wk_firing w |}, true)
  else if wk_pending w then (w, false)
  else
    let delay := 0 `max` (window - (now - wk_lastWake w)) in
    ({| wk_lastWake := wk_lastWake w; wk_due := Some (now + delay); wk_pending := true;
        wk_expired := wk_expired w; wk_firing := wk_firing w |}, false).

(** The runtime starts the goroutine of an expired timer. *)
Definition expire (now : Z) (w : liveWaker) : option liveWaker :=
  due ← wk_due w;
  if decide (due ≤ now)
  then Some {| wk_lastWake := wk_lastWake w; wk_due := None; wk_pending := wk_pending w;
               wk_expired := Datatypes.S (wk_expired w); wk_firing := wk_firing w |}
  else None.

(** [fire], up to its broadcast. *)
Definition fire (now : Z) (w : liveWaker) : option liveWaker :=
  match wk_expired w with
  | O => None
  | Datatypes.S n =>
      Some {| wk_lastWake := now; wk_due := wk_due w; wk_pending := false;
              wk_expired := n; wk_firing := Datatypes.S (wk_firing w) |}
  end.

Definition fired (w : liveWaker) : option liveWaker :=
  match wk_firing w with
  | O => None
  | Datatypes.S n =>
      Some {| wk_lastWake := wk_lastWake w; wk_due := wk_due w; wk_pending := wk_pending w;
              wk_expired := wk_expired w; wk_firing := n |}
  end.

Definition waker_stop (w : liveWaker) : liveWaker :=
  {| wk_lastWake := wk_lastWake w; wk_due := None; wk_pending := false;
     wk_expired := wk_expired w; wk_firing := wk_firing w |}.

(** ** The shared state of a streamer *)

(** Where [applyReader] is; [WIdle] is outside of it. *)
Inductive writer_pc : Type :=
| WIdle
| WCache (tail : Z) (closed : bool) (seg : cacheSeg)
| WTail (tail : Z) (closed : bool)
| WClosed (closed : bool)
| WCheck
| WWake
| WBroadcast.

Record shared (S : Type) : Type := mkShared {
  sh_store : S;
  sh_cache : option liveCache;
  sh_tail : Z;
  sh_closed : bool;
  sh_chan : nat;
  sh_longPoll : Z;
  sh_sse : Z;
  sh_stop : bool;
  sh_dead : bool;
  sh_now : Z;
  sh_waker : liveWaker;
  sh_writer : writer_pc }.
Arguments mkShared {S}.
Arguments sh_store {S}. Arguments sh_cache {S}. Arguments sh_tail {S}. Arguments sh_closed {S}.
Arguments sh_chan {S}. Arguments sh_longPoll {S}. Arguments sh_sse {S}. Arguments sh_stop {S}.
Arguments sh_dead {S}. Arguments sh_now {S}. Arguments sh_waker {S}. Arguments sh_writer {S}.

(** ** Readers *)

Inductive live_mode : Type := LongPoll | EventStream | Cursor.

(** Where a reader is in its loop, with what it has loaded so far. [RIdle] is a
    cursor between two calls of [Next]. *)
Inductive reader_pc : Type :=
| RNow                                   (** [offset=now]: about to load the tail *)
| RChan                                  (** [wc := st.waiterChan()] *)
| RTail (wc : nat)
| RClosed (wc : nat) (tail : Z)
| RRead (wc : nat) (tail : Z) (closed : bool)
| RCheck (wc : nat) (tail : Z) (closed : bool) (body : bytes) (next : Offset) (upToDate : bool)
| RPark (wc : nat) (tail : Z)            (** in the [select] *)
| RIdle
| REnd.

(** What a reader has answered. *)
Inductive live_out : Type :=
| OutData (start next : Offset) (body : bytes) (upToDate closedEOF : bool)
| OutUpToDate (tail : Z)
| OutClosed (tail : Z)
| OutTimeout (tail : Z)
| OutError
| OutNotFound.

Record reader : Type := mkReader {
  rd_mode : live_mode; rd_start : Offset; rd_first : bool; rd_pc : reader_pc;
  rd_from : Offset;               (** where the reader began *)
  rd_out : list live_out }.

Definition rd_goto (pc : reader_pc) (r : reader) : reader :=
  {| rd_mode := rd_mode r; rd_start := rd_start r; rd_first := rd_first r; rd_pc := pc;
     rd_from := rd_from r; rd_out := rd_out r |}.
Definition rd_emit (o : live_out) (r : reader) : reader :=
  {| rd_mode := rd_mode r; rd_start := rd_start r; rd_first := false; rd_pc := rd_pc r;
     rd_from := rd_from r; rd_out := rd_out r ++ [o] |}.
Definition rd_advance (next : Offset) (r : reader) : reader :=
  {| rd_mode := rd_mode r; rd_start := next; rd_first := rd_first r; rd_pc := rd_pc r;
     rd_from := rd_from r; rd_out := rd_out r |}.
(** [offset=now] resolved. *)
Definition rd_begin (o : Offset) (r : reader) : reader :=
  {| rd_mode := rd_mode r; rd_start := o; rd_first := rd_first r; rd_pc := RChan;
     rd_from := o; rd_out := rd_out r |}.

(** A reader that is counted: between its [Add(1)] and its [Add(-1)]. *)
Definition active (r : reader) : bool := match rd_pc r with RIdle | REnd => false | _ => true end.

(** ** Setters *)

Section setters.
  Context {S : Type}.
  Implicit Types sh : shared S.

Definition sh_publish (tail : Z) (closed : bool) sh : shared S :=
  mkShared (sh_store sh) (sh_cache sh) tail closed (sh_chan sh) (sh_longPoll sh) (sh_sse sh)
    (sh_stop sh) (sh_dead sh) (sh_now sh) (sh_waker sh) (sh_writer sh).
Definition sh_set_store (s : S) sh : shared S :=
  mkShared s (sh_cache sh) (sh_tail sh) (sh_closed sh) (sh_chan sh) (sh_longPoll sh) (sh_sse sh)
    (sh_stop sh) (sh_dead sh) (sh_now sh) (sh_waker sh) (sh_writer sh).
Definition sh_set_cache (c : option liveCache) sh : shared S :=
  mkShared (sh_store sh) c (sh_tail sh) (sh_closed sh) (sh_chan sh) (sh_longPoll sh) (sh_sse sh)
    (sh_stop sh) (sh_dead sh) (sh_now sh) (sh_waker sh) (sh_writer sh).
(** [st.longPollReaders.Add(d)] or [st.sseReaders.Add(d)]. *)
Definition sh_count (m : live_mode) (d : Z) sh : shared S :=
  mkShared (sh_store sh) (sh_cache sh) (sh_tail sh) (sh_closed sh) (sh_chan sh)
    (match m with EventStream => sh_longPoll sh | _ => sh_longPoll sh + d end)
    (match m with EventStream => sh_sse sh + d | _ => sh_sse sh end)
    (sh_stop sh) (sh_dead sh) (sh_now sh) (sh_waker sh) (sh_writer sh).
Definition sh_set_writer (pc : writer_pc) sh : shared S :=
  mkShared (sh_store sh) (sh_cache sh) (sh_tail sh) (sh_closed sh) (sh_chan sh) (sh_longPoll sh)
    (sh_sse sh) (sh_stop sh) (sh_dead sh) (sh_now sh) (sh_waker sh) pc.
Definition sh_set_waker (w : liveWaker) sh : shared S :=
  mkShared (sh_store sh) (sh_cache sh) (sh_tail sh) (sh_closed sh) (sh_chan sh) (sh_longPoll sh)
    (sh_sse sh) (sh_stop sh) (sh_dead sh) (sh_now sh) w (sh_writer sh).
Definition sh_tick (now : Z) sh : shared S :=
  mkShared (sh_store sh) (sh_cache sh) (sh_tail sh) (sh_closed sh) (sh_chan sh) (sh_longPoll sh)
    (sh_sse sh) (sh_stop sh) (sh_dead sh) now (sh_waker sh) (sh_writer sh).
(** [close(st.stop)]. *)
Definition sh_close_stop sh : shared S :=
  mkShared (sh_store sh) (sh_cache sh) (sh_tail sh) (sh_closed sh) (sh_chan sh) (sh_longPoll sh)
    (sh_sse sh) true (sh_dead sh) (sh_now sh) (sh_waker sh) (sh_writer sh).
(** [tryRetire], once nothing is pending. *)
Definition sh_retire sh : shared S :=
  mkShared (sh_store sh) (sh_cache sh) (sh_tail sh) (sh_closed sh) (sh_chan sh) (sh_longPoll sh)
    (sh_sse sh) (sh_stop sh) true (sh_now sh) (waker_stop (sh_waker sh)) (sh_writer sh).
(** [broadcast]: a fresh channel, and the old one closed. *)
Definition broadcast sh : shared S :=
  mkShared (sh_store sh) (sh_cache sh) (sh_tail sh) (sh_closed sh) (Datatypes.S (sh_chan sh))
    (sh_longPoll sh) (sh_sse sh) (sh_stop sh) (sh_dead sh) (sh_now sh) (sh_waker sh) (sh_writer sh).

Definition sh_totalReaders sh : Z := sh_longPoll sh + sh_sse sh.
End setters.

(** ** Steps *)

Section steps.
  Context {S : Type} `{Storage S}.
  (** The streamer: its id, fork parent, and content type; the limits of the
      configuration. *)
  Context (id forkedFrom forkOffset : Z) (isJSON : bool) (maxReadBytes window : Z).
  Implicit Types sh : shared S.

(** [cacheRead], or [readRange] when the cache does not serve the request. *)
Definition live_read sh (start : Offset) (tail : Z) : shared S * result (bytes * Offset * bool) :=
  let scan := readRange (sh_store sh) id forkedFrom forkOffset isJSON start tail maxReadBytes in
  match sh_cache sh with
  | None => (sh, scan)
  | Some c =>
      match tryRead c isJSON start tail maxReadBytes with
      | (c', Some r) => (sh_set_cache (Some c') sh, Ok r)
      | (c', None) => (sh_set_cache (Some c') sh, scan)
      end
  end.

(** The return of a handler or of [Next], its deferred [Add(-1)] included. *)
Definition rd_leave sh (r : reader) : shared S * reader :=
  (sh_count (rd_mode r) (-1) sh,
   rd_goto (match rd_mode r with Cursor => RIdle | _ => REnd end) r).

(** Data delivered: a long-poll and a cursor return it, an event stream goes on,
    unless it was the end. *)
Definition rd_deliver sh (body : bytes) (next : Offset) (upToDate closed : bool) (r : reader)
  : shared S * reader :=
  let closedEOF := closed && upToDate in
  let r' := rd_advance next (rd_emit (OutData (rd_start r) next body upToDate closedEOF) r) in
  match rd_mode r with
  | EventStream => if closedEOF then rd_leave sh r' else (sh, rd_goto RChan r')
  | _ => rd_leave sh r'
  end.

(** What a reader does next: a statement of its loop, or a case of its [select]. *)
Inductive reader_event : Type := EvStep | EvStop | EvTimeout | EvCancel | EvNext.

Definition reader_step sh (r : reader) (e : reader_event) : option (shared S * reader) :=
  match rd_pc r, e with
  | RNow, EvStep => Some (sh, rd_begin (tailOffset (sh_tail sh)) r)
  | RChan, EvStep => Some (sh, rd_goto (RTail (sh_chan sh)) r)
  | RTail wc, EvStep => Some (sh, rd_goto (RClosed wc (sh_tail sh)) r)
  | RClosed wc tail, EvStep => Some (sh, rd_goto (RRead wc tail (sh_closed sh)) r)
  | RRead wc tail closed, EvStep =>
      let '(sh, res) := live_read sh (rd_start r) tail in
      Some (match res with
            | Err _ => rd_leave sh (rd_emit OutError r)
            | Ok (body, next, upToDate) => (sh, rd_goto (RCheck wc tail closed body next upToDate) r)
            end)
  | RCheck wc tail closed body next upToDate, EvStep =>
      Some (if sh_stop sh then rd_leave sh (rd_emit OutNotFound r)
            else if decide (next ≠ rd_start r) then rd_deliver sh body next upToDate closed r
            else if closed then rd_leave sh (rd_emit (OutClosed tail) r)
            else match rd_mode r with
                 | EventStream =>
                     let r := if rd_first r then rd_emit (OutUpToDate tail) r else r in
                     (sh, rd_goto (RPark wc tail) r)
                 | _ => (sh, rd_goto (RPark wc tail) r)
                 end)
  | RPark wc tail, EvStep => if decide (wc < sh_chan sh)%nat then Some (sh, rd_goto RChan r) else None
  | RPark wc tail, EvStop =>
      if sh_stop sh then Some (rd_leave sh (rd_emit OutNotFound r)) else None
  | RPark wc tail, EvTimeout =>
      match rd_mode r with
      | LongPoll => Some (rd_leave sh (rd_emit (OutTimeout (sh_tail sh)) r))
      | EventStream => Some (rd_leave sh r)
      | Cursor => None
      end
  | RPark wc tail, EvCancel => Some (rd_leave sh r)
  | RIdle, EvNext => Some (sh_count (rd_mode r) 1 sh, rd_goto RChan r)
  | _, _ => None
  end.

(** A request arrives and is counted, at an offset or at the tail. A cursor is
    created without being counted. *)
Definition join sh (m : live_mode) (from : option Offset) : shared S * reader :=
  let start := default {| Seq := 0; Byte := 0 |} from in
  match m with
  | Cursor => (sh, mkReader m start true RIdle start [])
  | _ => (sh_count m 1 sh,
          mkReader m start true (match from with Some _ => RChan | None => RNow end) start [])
  end.

(** [applyReader], statement by statement. *)
Definition writer_step sh : option (shared S) :=
  match sh_writer sh with
  | WIdle => None
  | WCache tail closed seg =>
      let cache :=
        (λ c, if decide (0 < sh_totalReaders sh)
              then LiveCache.append c (seg_firstSeq seg) (seg_payloads seg)
              else LiveCache.reset c) <$> sh_cache sh in
      Some (sh_set_writer (WTail tail closed) (sh_set_cache cache sh))
  | WTail tail closed => Some (sh_set_writer (WClosed closed) (sh_publish tail (sh_closed sh) sh))
  | WClosed closed =>
      Some (sh_set_writer WCheck
              (if closed then sh_publish (sh_tail sh) true sh else sh))
  | WCheck =>
      Some (sh_set_writer (if decide (0 < sh_totalReaders sh) then WWake else WIdle) sh)
  | WWake =>
      let '(w, now) := Wake window (sh_now sh) (sh_waker sh) in
      Some (sh_set_writer (if now then WBroadcast else WIdle) (sh_set_waker w sh))
  | WBroadcast => Some (sh_set_writer WIdle (broadcast sh))
  end.

End steps.

(** ** The system

    [L] is the stream's content, as far as it will ever be written. The store may
    change at any time, by the commits of all streams, as long as it keeps the
    records of this one; once the stream is stopped its deletion may remove them. A
    publication follows its commit. *)

Record live (S : Type) : Type := mkLive { lv_sh : shared S; lv_readers : list reader }.
Arguments mkLive {S}. Arguments lv_sh {S}. Arguments lv_readers {S}.

Section system.
  Context {S : Type} `{StorageLaws S}.
  Context (id forkedFrom forkOffset : Z) (isJSON : bool) (maxReadBytes window : Z).
  Context (L : Z → bytes).

Definition holds_log (s : S) (T : Z) : Prop :=
  keys_wf (view s) ∧ log_at (view s) L id forkedFrom forkOffset T.

(** What a burst hands to [applyReader]: the records up to its tail are stored, and
    its cache segment is empty or the run of its records. *)
Definition published (sh : shared S) (tail : Z) (seg : cacheSeg) : Prop :=
  sh_tail sh ≤ tail < 2^63 ∧ (sh_stop sh = true ∨ holds_log (sh_store sh) tail) ∧
  (seg_payloads seg = [] ∨
   sh_tail sh < tail ∧ seg = {| seg_firstSeq := sh_tail sh; seg_payloads := payloads L (sh_tail sh) tail |}).

Definition offset_ok (o : Offset) : Prop := 0 ≤ Seq o ∧ 0 ≤ Byte o.

Inductive lstep (w : live S) : live S → Prop :=
| ls_join m from sh' r :
    (∀ o, from = Some o → offset_ok o) →
    join (lv_sh w) m from = (sh', r) →
    lstep w (mkLive sh' (lv_readers w ++ [r]))
| ls_reader i r e sh' r' :
    lv_readers w !! i = Some r →
    reader_step id forkedFrom forkOffset isJSON maxReadBytes (lv_sh w) r e = Some (sh', r') →
    lstep w (mkLive sh' (<[i:=r']> (lv_readers w)))
| ls_publish tail closed seg :
    sh_writer (lv_sh w) = WIdle → sh_dead (lv_sh w) = false → published (lv_sh w) tail seg →
    lstep w (mkLive (sh_set_writer (WCache tail closed seg) (lv_sh w)) (lv_readers w))
| ls_writer sh' :
    writer_step window (lv_sh w) = Some sh' →
    lstep w (mkLive sh' (lv_readers w))
| ls_tick d :
    0 ≤ d → lstep w (mkLive (sh_tick (sh_now (lv_sh w) + d) (lv_sh w)) (lv_readers w))
| ls_expire wk :
    expire (sh_now (lv_sh w)) (sh_waker (lv_sh w)) = Some wk →
    lstep w (mkLive (sh_set_waker wk (lv_sh w)) (lv_readers w))
| ls_fire wk :
    fire (sh_now (lv_sh w)) (sh_waker (lv_sh w)) = Some wk →
    lstep w (mkLive (sh_set_waker wk (lv_sh w)) (lv_readers w))
| ls_fired wk :
    fired (sh_waker (lv_sh w)) = Some wk →
    lstep w (mkLive (broadcast (sh_set_waker wk (lv_sh w))) (lv_readers w))
| ls_stop : lstep w (mkLive (sh_close_stop (lv_sh w)) (lv_readers w))
| ls_waker_stop :
    sh_stop (lv_sh w) = true →
    lstep w (mkLive (sh_set_waker (waker_stop (sh_waker (lv_sh w))) (lv_sh w)) (lv_readers w))
| ls_retire :
    sh_writer (lv_sh w) = WIdle → sh_totalReaders (lv_sh w) ≤ 0 →
    lstep w (mkLive (sh_retire (lv_sh w)) (lv_readers w))
| ls_store s' :
    sh_stop (lv_sh w) = true ∨
    (keys_wf (view s') ∧
     ∀ T, log_at (view (sh_store (lv_sh w))) L id forkedFrom forkOffset T →
          log_at (view s') L id forkedFrom forkOffset T) →
    lstep w (mkLive (sh_set_store s' (lv_sh w)) (lv_readers w)).

(** [newStreamer]. *)
Definition live_start (s : S) (cache : option liveCache) (tail : Z) (closed : bool) (now : Z) : live S :=
  mkLive (mkShared s cache tail closed 0 0 0 false false now newLiveWaker WIdle) [].

Definition live_init (w : live S) : Prop :=
  ∃ s cache tail closed now,
    w = live_start s cache tail closed now ∧ holds_log s tail ∧ 0 ≤ tail < 2^63 ∧
    (cache = None ∨ ∃ mr mb, cache = Some (newLiveCache mr mb)).

Definition live_reachable (w : live S) : Prop := ∃ w0, live_init w0 ∧ rtc lstep w0 w.

End system.

(** ** What goes over the wire *)

(** [writeLiveData], [write204Closed], [write204Timeout] and the error branches of
    [readLongPoll]. A cancelled request is not answered. *)
Definition writeLiveData (h : headers) (meta : StreamMeta) (start next : Offset)
    (upToDate closed : bool) (body clientCursor : bytes) (elapsed jitter : Z) : response :=
  let closedEOF := closed && upToDate in
  let h := <[hContentType := ContentType meta]> h in
  let h := <[hETag := makeETag (StreamID meta) start next closedEOF]> h in
  let h := <[hCacheControl := cacheControl (IsPrivate meta)]> h in
  let h := <[hStreamNext := offset_String next]> h in
  let h := <[hStreamCursor := computeCursor clientCursor elapsed jitter]> h in
  let h := set_if upToDate hStreamUpToDate true_ h in
  let h := set_if closedEOF hStreamClosed true_ h in
  reply h 200 body.

Definition write204Closed (h : headers) (tail : Z) : response :=
  let h := <[hStreamNext := offset_String (tailOffset tail)]> h in
  let h := <[hStreamUpToDate := true_]> h in
  let h := <[hStreamClosed := true_]> h in
  reply h 204 [].

Definition write204Timeout (h : headers) (tail : Z) (clientCursor : bytes) (elapsed jitter : Z) : response :=
  let h := <[hStreamNext := offset_String (tailOffset tail)]> h in
  let h := <[hStreamUpToDate := true_]> h in
  let h := <[hStreamCursor := computeCursor clientCursor elapsed jitter]> h in
  reply h 204 [].

Definition longPollResponse (h : headers) (meta : StreamMeta) (clientCursor : bytes)
    (elapsed jitter : Z) (o : live_out) : response :=
  match o with
  | OutData start next body upToDate closedEOF =>
      writeLiveData h meta start next upToDate closedEOF body clientCursor elapsed jitter
  | OutClosed tail => write204Closed h tail
  | OutTimeout tail => write204Timeout h tail clientCursor elapsed jitter
  | OutError => http_Error h eInternal 500
  | OutNotFound | OutUpToDate _ => http_Error h eNotFound 404
  end.

(** What [readSSE] writes for each answer; an error just ends the stream. *)
Definition sseFrames (clientCursor : bytes) (elapsed jitter : Z) (o : live_out) : list sse_frame :=
  match o with
  | OutData _ next body upToDate closedEOF =>
      [FrameData body;
       FrameControl {| sc_Next := next;
                       sc_StreamCursor := cursorUnlessClosed clientCursor closedEOF elapsed jitter;
                       sc_UpToDate := upToDate; sc_StreamClosed := closedEOF |}]
  | OutUpToDate tail =>
      [FrameControl {| sc_Next := tailOffset tail;
                       sc_StreamCursor := computeCursor clientCursor elapsed jitter;
                       sc_UpToDate := true; sc_StreamClosed := false |}]
  | OutClosed tail =>
      [FrameControl {| sc_Next := tailOffset tail; sc_StreamCursor := [];
                       sc_UpToDate := true; sc_StreamClosed := true |}]
  | OutTimeout _ | OutError | OutNotFound => []
  end.
