(* ===== verification/LiveSpec.v ===== *)
(** * What live readers are promised

    The invariant of the interleaving model of Live.v: readers are counted, every
    delivery continues the one before it, and a reader never sleeps on something to
    read unless a wake is on its way. Then the theorems about live reads, and the
    runs that show where the promises of the comments are not kept. *)

From S2P Require Import Prelude.
From S2P Require Import Bytes.
From S2P Require Import Keys.
From S2P Require Import Meta.
From S2P Require Import Offset.
From S2P Require Import Storage.
From S2P Require Import Loads.
From S2P Require Import Read.
From S2P Require Import LiveCache.
From S2P Require Import Streamer.
From S2P Require Import Http.
From S2P Require Import Sse.
From S2P Require Import Live.

(** ** Lemmas: content *)

(** A read's content does not depend on how far the stream goes on. *)
Lemma content_from_extend L o T T' :
  Seq o ≤ T → (Seq o = T → Byte o = 0) → T ≤ T' →
  content_from L o T' = content_from L o T ++ concat (payloads L T T').
Proof.
  intros Hle Hz HT. unfold content_from. destruct (decide (Seq o < T)) as [Hlt|].
  - rewrite decide_True by lia. rewrite (payloads_app L (Seq o + 1) T T') by lia.
    by rewrite concat_app, app_assoc.
  - assert (Seq o = T) as HS by lia. rewrite (Hz HS). case_decide as Hd.
    + rewrite (payloads_cons L T T') by lia. subst T. done.
    + by rewrite payloads_nil by lia.
Qed.

(** What a binary read returns, whatever is appended after its tail. *)
Lemma binary_read_extend L start T limit body next utd T' :
  binary_read L start T limit body next utd → Seq start < T → T ≤ T' →
  body ++ content_from L next T' = content_from L start T'.
Proof.
  intros [Hc _ _ _ _ Hn _] Hlt HT. destruct (Hn Hlt) as [Hle Hz].
  rewrite (content_from_extend L next T T'), (content_from_extend L start T T') by lia || done.
  by rewrite app_assoc, Hc.
Qed.

Definition read_ok (L : Z → bytes) (isJSON : bool) (limit : Z) (start : Offset) (T : Z)
    (body : bytes) (next : Offset) (upToDate : bool) : Prop :=
  if isJSON then json_read L start T limit body next upToDate
  else binary_read L start T limit body next upToDate.

(** What the cache returns is such a read too. *)
Lemma cached_read_ok L isJSON limit a b c c' start T r :
  cache_holds L c a b → 0 ≤ Seq start → T < 2^63 →
  tryRead c isJSON start T limit = (c', Some r) →
  c' = hit c ∧ read_ok L isJSON limit start T r.1.1 r.1.2 r.2.
Proof.
  intros Hc HS HT Htry.
  apply (tryRead_hit L c a b) in Htry as (-> & HB & [? Hlt] & _ & Hsz & ->); [|done..].
  split; [done|]. unfold read_ok. cbn [fst snd].
  assert (Hsize : len (concat (payloads L (Seq start) T)) = size L (Seq start) T) by done.
  destruct isJSON.
  - split; cbn [Seq Byte]; try done; try lia.
  - destruct start as [q B]; cbn [Seq Byte] in *. subst B.
    split; cbn [Seq Byte]; unfold offset_lt; cbn [Seq Byte]; rewrite ?Hsize; try done; try lia.
    rewrite (content_from_done L {| Seq := T; Byte := 0 |} T), app_nil_r by done.
    symmetry. by apply content_from_payloads.
Qed.

(** ** Lemmas: offsets stay offsets *)

Section offsets.
  Context {S : Type} `{StorageLaws S}.

Lemma readRange_offset_ok (s : S) id ff fo isJSON start T limit body next utd :
  0 ≤ Byte start →
  readRange s id ff fo isJSON start T limit = Ok (body, next, utd) → 0 ≤ Byte next.
Proof.
  intros Hs Hr. destruct isJSON; [|by eapply readRange_byte]. revert Hr. unfold readRange.
  case_decide; [intros Hr; run_result in Hr; by simplify_eq|].
  intros (segs & _ & Hr)%result_bind_Ok. unfold readSegmentsJSON in Hr.
  apply result_bind_Ok in Hr as ([recs n] & _ & Hr). run_result in Hr. by simplify_eq.
Qed.

End offsets.

(** ** The invariant *)

(** The payloads delivered so far. *)
Definition bodies (outs : list live_out) : list bytes :=
  omap (λ o, match o with OutData _ _ body _ _ => Some body | _ => None end) outs.

Section invariant.
  Context {S : Type} `{StorageLaws S}.
  Context (id forkedFrom forkOffset : Z) (isJSON : bool) (maxReadBytes window : Z).
  Context (L : Z → bytes) (Hmax : 0 < maxReadBytes).
  Abbreviation step := (lstep id forkedFrom forkOffset isJSON maxReadBytes window L).
  Abbreviation logged := (holds_log id forkedFrom forkOffset L).
  Implicit Types sh : shared S.

(** A wake is on its way: the writer has yet to decide, a timer is armed, or its
    goroutine is running; or the streamer is stopped, which wakes everyone. *)
Definition waker_busy (w : liveWaker) : Prop :=
  wk_due w ≠ None ∨ wk_expired w ≠ 0%nat ∨ wk_firing w ≠ 0%nat.
Definition publishing (pc : writer_pc) : bool :=
  match pc with WIdle | WCache _ _ _ | WTail _ _ => false | _ => true end.
Definition coming sh : Prop :=
  sh_stop sh = true ∨ publishing (sh_writer sh) = true ∨ waker_busy (sh_waker sh).

(** What a reader has loaded, against the current state. *)
Definition loaded sh (wc : nat) (tail : Z) : Prop :=
  (wc ≤ sh_chan sh)%nat ∧ 0 ≤ tail ≤ sh_tail sh ∧ (wc = sh_chan sh → tail = sh_tail sh ∨ coming sh).
Definition loaded_closed sh (wc : nat) (closed : bool) : Prop :=
  (closed = true → sh_closed sh = true) ∧ (wc = sh_chan sh → closed = sh_closed sh ∨ coming sh).

Definition pc_ok sh (r : reader) : Prop :=
  match rd_pc r with
  | RNow => rd_out r = []
  | RChan | RIdle | REnd => True
  | RTail wc => (wc ≤ sh_chan sh)%nat
  | RClosed wc tail => loaded sh wc tail
  | RRead wc tail closed => loaded sh wc tail ∧ loaded_closed sh wc closed
  | RCheck wc tail closed body next upToDate =>
      loaded sh wc tail ∧ loaded_closed sh wc closed ∧
      (sh_stop sh = true ∨
       0 ≤ Byte next ∧ read_ok L isJSON maxReadBytes (rd_start r) tail body next upToDate)
  | RPark wc tail => loaded sh wc tail ∧ loaded_closed sh wc false ∧ tail ≤ Seq (rd_start r)
  end.

(** The deliveries are the content from where the reader began to where it is. *)
Definition delivered_ok (tail : Z) (r : reader) : Prop :=
  if isJSON
  then Seq (rd_from r) ≤ Seq (rd_start r) ∧
       ∃ pss, bodies (rd_out r) = wrapJSONArray <$> pss ∧
              concat pss = payloads L (Seq (rd_from r)) (Seq (rd_start r))
  else ∀ T, tail ≤ T →
       concat (bodies (rd_out r)) ++ content_from L (rd_start r) T = content_from L (rd_from r) T.

(** The other positions a reader reports have all been delivered. *)
Definition out_ok sh (start : Offset) (o : live_out) : Prop :=
  match o with
  | OutUpToDate tail => tail ≤ Seq start
  | OutClosed tail => tail ≤ Seq start ∧ sh_closed sh = true
  | _ => True
  end.

Record reader_ok sh (r : reader) : Prop := {
  ro_start : offset_ok (rd_start r);
  ro_delivered : delivered_ok (sh_tail sh) r;
  ro_out : Forall (out_ok sh (rd_start r)) (rd_out r);
  ro_pc : pc_ok sh r }.

Definition pending_tail sh : Z :=
  match sh_writer sh with WCache tail _ _ | WTail tail _ => tail | _ => sh_tail sh end.

Definition seg_ok sh : Prop :=
  match sh_writer sh with
  | WCache tail _ seg =>
      seg_payloads seg = [] ∨
      sh_tail sh < tail ∧
      seg = {| seg_firstSeq := sh_tail sh; seg_payloads := payloads L (sh_tail sh) tail |}
  | _ => True
  end.

(** What holds of the shared state alone. *)
Record shared_ok sh : Prop := {
  so_log : sh_stop sh = true ∨ logged (sh_store sh) (pending_tail sh);
  so_tail : 0 ≤ sh_tail sh ≤ pending_tail sh ∧ pending_tail sh < 2^63;
  so_cache : ∀ c, sh_cache sh = Some c → ∃ a b, cache_holds L c a b;
  so_seg : seg_ok sh;
  so_pending : wk_pending (sh_waker sh) = true →
               wk_due (sh_waker sh) ≠ None ∨ wk_expired (sh_waker sh) ≠ 0%nat }.

Definition actives (rs : list reader) : Z := len (filter (λ r, active r = true) rs).

Record live_inv (w : live S) : Prop := {
  li_shared : shared_ok (lv_sh w);
  li_count : sh_totalReaders (lv_sh w) = actives (lv_readers w);
  li_readers : Forall (reader_ok (lv_sh w)) (lv_readers w) }.

(** ** Lemmas: what readers keep *)

(** A change of the shared state that a reader survives: nothing goes back, and what
    it has loaded is still current or a wake is coming. *)
Record sh_le sh sh' : Prop := {
  sl_chan : (sh_chan sh ≤ sh_chan sh')%nat;
  sl_tail : sh_tail sh ≤ sh_tail sh';
  sl_closed : sh_closed sh = true → sh_closed sh' = true;
  sl_stop : sh_stop sh = true → sh_stop sh' = true;
  sl_fresh : sh_chan sh = sh_chan sh' →
             sh_tail sh = sh_tail sh' ∧ sh_closed sh = sh_closed sh' ∧ (coming sh → coming sh')
             ∨ coming sh' }.

Lemma loaded_le sh sh' wc tail : sh_le sh sh' → loaded sh wc tail → loaded sh' wc tail.
Proof.
  intros [Hc Ht _ _ Hf] (Hwc & Htl & Hl). split_and!; [lia..|]. intros E.
  assert (sh_chan sh = sh_chan sh') as Hch by lia.
  destruct (Hf Hch) as [(Et & _ & Hcom)|?]; [|by right].
  destruct (Hl ltac:(lia)) as [->|?]; [by left|right; auto].
Qed.

Lemma loaded_closed_le sh sh' wc tail closed :
  sh_le sh sh' → loaded sh wc tail → loaded_closed sh wc closed → loaded_closed sh' wc closed.
Proof.
  intros [Hc _ Hcl _ Hf] (Hwc & _ & _) [H1 H2]. split; [auto|]. intros E.
  assert (sh_chan sh = sh_chan sh') as Hch by lia.
  destruct (Hf Hch) as [(_ & Ecl & Hcom)|?]; [|by right].
  destruct (H2 ltac:(lia)) as [->|?]; [by left|right; auto].
Qed.

Lemma delivered_ok_le tail tail' r : tail ≤ tail' → delivered_ok tail r → delivered_ok tail' r.
Proof. unfold delivered_ok. destruct isJSON; [done|]. intros ? Hd T ?. apply Hd. lia. Qed.

Lemma out_ok_le sh sh' start start' o :
  (sh_closed sh = true → sh_closed sh' = true) → Seq start ≤ Seq start' →
  out_ok sh start o → out_ok sh' start' o.
Proof. destruct o; cbn [out_ok]; try done; [lia|]. intros ? ? [? ?]. split; [lia|auto]. Qed.

Lemma outs_ok_le sh sh' start start' outs :
  (sh_closed sh = true → sh_closed sh' = true) → Seq start ≤ Seq start' →
  Forall (out_ok sh start) outs → Forall (out_ok sh' start') outs.
Proof. intros ? ? Ho. eapply Forall_impl; [exact Ho|]. intros o. by apply out_ok_le. Qed.

Lemma reader_ok_le sh sh' r : sh_le sh sh' → reader_ok sh r → reader_ok sh' r.
Proof.
  intros Hle [Hs Hd Ho Hp]. pose proof Hle as [Hc Ht Hcl Hst _]. split; [done| | |].
  - by eapply delivered_ok_le.
  - by eapply outs_ok_le.
  - unfold pc_ok in *. destruct (rd_pc r); try done; try lia.
    + by eapply loaded_le.
    + destruct Hp. eauto using loaded_le, loaded_closed_le.
    + destruct Hp as (? & ? & Hr). split_and!; [by eapply loaded_le|by eapply loaded_closed_le|].
      destruct Hr; [left; auto|by right].
    + destruct Hp as (? & ? & ?). split_and!; [by eapply loaded_le|by eapply loaded_closed_le|done].
Qed.

(** A reader that is not counted keeps what it has when the tail stands. *)
Lemma reader_ok_inactive sh sh' r :
  active r = false → sh_tail sh = sh_tail sh' → sh_closed sh = sh_closed sh' →
  reader_ok sh r → reader_ok sh' r.
Proof.
  intros Ha Ht Hcl [Hs Hd Ho Hp]. split; [done|by rewrite <-Ht| |].
  - eapply outs_ok_le, Ho; [by rewrite Hcl|done].
  - unfold pc_ok, active in *. by destruct (rd_pc r).
Qed.

Lemma sh_le_refl sh sh' :
  sh_chan sh = sh_chan sh' → sh_tail sh = sh_tail sh' → sh_closed sh = sh_closed sh' →
  sh_stop sh = sh_stop sh' → (coming sh → coming sh') → sh_le sh sh'.
Proof. intros ?? Hcl Hst ?. split; [lia|lia|by rewrite Hcl|by rewrite Hst|by left]. Qed.

Lemma sh_le_broadcast sh sh' :
  (sh_chan sh < sh_chan sh')%nat → sh_tail sh = sh_tail sh' → sh_closed sh = sh_closed sh' →
  sh_stop sh = sh_stop sh' → sh_le sh sh'.
Proof. intros ?? Hcl Hst. split; [lia|lia|by rewrite Hcl|by rewrite Hst|lia]. Qed.

Lemma count_le sh m d : sh_le sh (sh_count m d sh).
Proof. by apply sh_le_refl. Qed.

Lemma total_count m d sh : sh_totalReaders (sh_count m d sh) = sh_totalReaders sh + d.
Proof. unfold sh_totalReaders. destruct m; cbn; lia. Qed.

Lemma shared_ok_count m d sh : shared_ok sh → shared_ok (sh_count m d sh).
Proof. by intros [? ? ? ? ?]. Qed.

(** ** Lemmas: reading *)

Lemma live_read_ok sh start tail sh' res :
  shared_ok sh → offset_ok start → 0 ≤ tail ≤ sh_tail sh →
  live_read id forkedFrom forkOffset isJSON maxReadBytes sh start tail = (sh', res) →
  shared_ok sh' ∧ sh_le sh sh' ∧ sh_totalReaders sh' = sh_totalReaders sh ∧ sh_stop sh' = sh_stop sh ∧
  ∀ body next utd, res = Ok (body, next, utd) →
    sh_stop sh = true ∨ 0 ≤ Byte next ∧ read_ok L isJSON maxReadBytes start tail body next utd.
Proof.
  intros Hok [HS HB] Htl. pose proof Hok as [Hlog Htail Hcache Hseg Hpend].
  assert (Hscan : ∀ body next utd,
    readRange (sh_store sh) id forkedFrom forkOffset isJSON start tail maxReadBytes = Ok (body, next, utd) →
    sh_stop sh = true ∨ 0 ≤ Byte next ∧ read_ok L isJSON maxReadBytes start tail body next utd).
  { intros body next utd Hr. destruct Hlog as [?|[Hwf Hl]]; [by left|right].
    split; [by eapply readRange_offset_ok in Hr|].
    apply (log_at_mono _ _ _ _ _ _ tail) in Hl; [|lia]. unfold read_ok.
    destruct isJSON; [eapply readRange_json_read in Hr|eapply readRange_binary_read in Hr]; try done; lia. }
  unfold live_read. destruct (sh_cache sh) as [c|] eqn:Ec; [|intros [= <- <-]; split_and!; [done|by apply sh_le_refl|done|done|exact Hscan]].
  destruct (Hcache c eq_refl) as (a & b & Hc).
  destruct (tryRead c isJSON start tail maxReadBytes) as [c' [r|]] eqn:Et; intros [= <- <-].
  - destruct (cached_read_ok L isJSON maxReadBytes a b c c' start tail r) as [-> Hr]; [done|done|lia|done|].
    split_and!; [|by apply sh_le_refl|done|done|].
    + split; try done. cbn. intros ? [= <-]. exists a, b. by destruct Hc; split.
    + intros body next utd [= ->]. right. split; [|done].
      apply (tryRead_hit L c a b) in Et as (_ & _ & _ & _ & _ & Er); [|done|done|lia].
      injection Er as _ -> _. done.
  - assert (c' = c) as ->.
    { revert Et. unfold tryRead. repeat case_decide; try (by intros [= <-]).
      repeat case_match; by intros [= <-]. }
    split_and!; [|by apply sh_le_refl|done|done|done].
    by split.
Qed.

(** ** Lemmas: a reader's step *)

Record reader_base sh (r : reader) : Prop := {
  rb_start : offset_ok (rd_start r);
  rb_delivered : delivered_ok (sh_tail sh) r;
  rb_out : Forall (out_ok sh (rd_start r)) (rd_out r) }.

Lemma reader_ok_base sh r : reader_ok sh r → reader_base sh r.
Proof. by intros []. Qed.

Lemma reader_ok_goto sh r pc :
  reader_base sh r → pc_ok sh (rd_goto pc r) → reader_ok sh (rd_goto pc r).
Proof. by intros [? ? ?] ?. Qed.

Lemma bodies_snoc outs o : bodies (outs ++ [o]) = bodies outs ++ bodies [o].
Proof. apply omap_app. Qed.

Lemma emit_base sh r o :
  reader_base sh r → bodies [o] = [] → out_ok sh (rd_start r) o → reader_base sh (rd_emit o r).
Proof.
  intros [Hs Hd Ho] Hb Hok. split; [done| |].
  - unfold delivered_ok in *. cbn [rd_emit rd_out rd_from rd_start]. by rewrite bodies_snoc, Hb, app_nil_r.
  - cbn [rd_emit rd_out rd_start]. apply Forall_app. split; [done|]. by apply Forall_singleton.
Qed.

(** A read that moves delivers something, and lands no further than its tail. *)
Lemma read_ok_moves start tail body next utd :
  read_ok L isJSON maxReadBytes start tail body next utd → next ≠ start →
  Seq start < tail ∧ Seq start ≤ Seq next ≤ tail.
Proof.
  unfold read_ok. destruct isJSON.
  - intros [_ Hr Hi _ _ _] Hne. destruct (decide (tail ≤ Seq start)) as [Hle|]; [by rewrite Hi in Hne|].
    destruct (Hr ltac:(lia)). lia.
  - intros [_ _ _ _ Hp Hn Hi] Hne. destruct (decide (tail ≤ Seq start)) as [Hle|]; [by rewrite Hi in Hne|].
    destruct (Hp ltac:(lia) Hmax) as [|[]]; destruct (Hn ltac:(lia)); lia.
Qed.

Lemma deliver_base sh r tail body next utd eof :
  reader_base sh r → tail ≤ sh_tail sh → 0 ≤ Byte next → next ≠ rd_start r →
  read_ok L isJSON maxReadBytes (rd_start r) tail body next utd →
  reader_base sh (rd_advance next (rd_emit (OutData (rd_start r) next body utd eof) r)).
Proof.
  intros [[HS HB] Hd Ho] Htl HBn Hne Hr.
  destruct (read_ok_moves _ _ _ _ _ Hr Hne) as [Hlt [Hn1 Hn2]].
  split; cbn [rd_emit rd_advance rd_out rd_start rd_from].
  - split; [lia|done].
  - revert Hd Hr. unfold delivered_ok, read_ok. cbn [rd_emit rd_advance rd_out rd_start rd_from].
    rewrite bodies_snoc. cbn [bodies omap list_omap]. destruct isJSON.
    + intros (Hle & pss & -> & Hc) Hr. split; [lia|].
      exists (pss ++ [payloads L (Seq (rd_start r)) (Seq next)]).
      rewrite fmap_app, concat_app, Hc. split; [by rewrite (jr_content _ _ _ _ _ _ _ Hr)|].
      cbn [concat]. rewrite app_nil_r. symmetry. by apply payloads_app.
    + intros Hd Hr T HT. rewrite concat_app. cbn [concat]. rewrite app_nil_r, <-app_assoc.
      rewrite (binary_read_extend L _ tail maxReadBytes body next utd T) by (done || lia). by apply Hd.
  - apply Forall_app. split; [|by apply Forall_singleton]. by eapply outs_ok_le, Ho.
Qed.

Definition step_ok sh r sh' r' : Prop :=
  shared_ok sh' ∧ sh_le sh sh' ∧ reader_ok sh' r' ∧
  sh_totalReaders sh' = sh_totalReaders sh + Z.b2z (active r') - Z.b2z (active r).

Lemma stay_step sh r pc r' :
  shared_ok sh → reader_base sh r' → active r = true → active (rd_goto pc r') = true →
  pc_ok sh (rd_goto pc r') → step_ok sh r sh (rd_goto pc r').
Proof.
  intros Hsh Hb Ha Ha' Hp. split_and!; [done|by apply sh_le_refl|by apply reader_ok_goto|].
  rewrite Ha, Ha'. lia.
Qed.

Lemma leave_step sh sh' r r' :
  shared_ok sh' → sh_le sh sh' → sh_totalReaders sh' = sh_totalReaders sh → reader_base sh' r' →
  active r = true → step_ok sh r (rd_leave sh' r').1 (rd_leave sh' r').2.
Proof.
  intros Hsh Hle Ht Hb Ha. unfold rd_leave. cbn [fst snd]. split_and!.
  - by apply shared_ok_count.
  - destruct Hle. by split.
  - destruct Hb. split; [done..|]. unfold pc_ok. cbn [rd_goto rd_pc]. by destruct (rd_mode r').
  - rewrite total_count, Ha. unfold active. cbn [rd_goto rd_pc]. destruct (rd_mode r'); cbn; lia.
Qed.

Lemma check_step sh r wc tail closed body next utd :
  shared_ok sh → reader_ok sh r → rd_pc r = RCheck wc tail closed body next utd →
  sh_stop sh = false → 
  let p := if decide (next ≠ rd_start r) then rd_deliver sh body next utd closed r
           else if closed then rd_leave sh (rd_emit (OutClosed tail) r)
           else match rd_mode r with
                | EventStream =>
                    let r := if rd_first r then rd_emit (OutUpToDate tail) r else r in
                    (sh, rd_goto (RPark wc tail) r)
                | _ => (sh, rd_goto (RPark wc tail) r)
                end in
  step_ok sh r p.1 p.2.
Proof.
  intros Hsh Hr Hpc Hst. pose proof (reader_ok_base _ _ Hr) as Hb. pose proof (ro_pc _ _ Hr) as Hp.
  assert (Ha : active r = true) by (unfold active; by rewrite Hpc).
  unfold pc_ok in Hp. rewrite Hpc in Hp. destruct Hp as (Hl & Hcl & [?|[HBn Hread]]); [congruence|].
  pose proof Hl as (_ & [_ Htl] & _). case_decide as Hne.
  - pose proof (deliver_base sh r tail body next utd (closed && utd) Hb Htl HBn Hne Hread) as Hb'.
    unfold rd_deliver.
    assert (Hleave : ∀ r', reader_base sh r' →
      step_ok sh r (rd_leave sh r').1 (rd_leave sh r').2)
      by (intros; apply leave_step; try done; by apply sh_le_refl).
    destruct (rd_mode r); [by apply Hleave| |by apply Hleave].
    destruct (closed && utd) eqn:Eeof; [by apply Hleave|]. by apply stay_step.
  - subst next.
    assert (Hcaught : tail ≤ Seq (rd_start r)).
    { destruct (decide (Seq (rd_start r) < tail)) as [Hlt|]; [exfalso|lia]. revert Hread. unfold read_ok.
      destruct isJSON.
      - intros Hr'. destruct (jr_range _ _ _ _ _ _ _ Hr' Hlt). lia.
      - intros Hr'. destruct (br_progress _ _ _ _ _ _ _ Hr' Hlt Hmax) as [|[]]; lia. }
    destruct closed.
    + apply leave_step; [done|by apply sh_le_refl|done| |done].
      apply emit_base; [done..|]. split; [done|]. by apply Hcl.
    + assert (Hpark : ∀ r', reader_base sh r' → rd_start r' = rd_start r →
        step_ok sh r sh (rd_goto (RPark wc tail) r')).
      { intros r' Hb' Hs. apply stay_step; try done. unfold pc_ok. cbn [rd_goto rd_pc rd_start].
        rewrite Hs. done. }
      destruct (rd_mode r); [by apply Hpark| |by apply Hpark].
      destruct (rd_first r); [apply Hpark; [by apply emit_base|done]|by apply Hpark].
Qed.

Lemma reader_step_ok sh r e sh' r' :
  shared_ok sh → reader_ok sh r →
  reader_step id forkedFrom forkOffset isJSON maxReadBytes sh r e = Some (sh', r') →
  step_ok sh r sh' r'.
Proof.
  intros Hsh Hr. pose proof (reader_ok_base _ _ Hr) as Hb. pose proof (ro_pc _ _ Hr) as Hp.
  pose proof (so_tail _ Hsh) as Htl.
  assert (Hleave : ∀ r0, active r = true → reader_base sh r0 →
      ∀ p, Some p = Some (sh', r') → p = rd_leave sh r0 → step_ok sh r sh' r').
  { intros r0 Ha Hb0 p [= ->] Hp0. change sh' with (sh', r').1. change r' with (sh', r').2 at 2.
    rewrite Hp0. apply leave_step; try done; by apply sh_le_refl. }
  assert (Hbusy : ∀ pc, rd_pc r = pc → (match pc with RIdle | REnd => false | _ => true end) = true →
    active r = true) by (intros pc Hpc ?; unfold active; by rewrite Hpc).
  unfold reader_step, pc_ok in *. destruct (rd_pc r) eqn:Hpc; destruct e; try done.
  - (* RNow *) intros [= <- <-]. split_and!; [done|by apply sh_le_refl| |rewrite (Hbusy _ eq_refl) by done; cbn; lia].
    split; cbn [rd_begin rd_start rd_out rd_pc rd_from].
    + split; cbn [tailOffset Seq Byte]; lia.
    + unfold delivered_ok. cbn [rd_begin rd_start rd_out rd_from]. rewrite Hp. destruct isJSON; [|done].
      split; [lia|]. exists []. split; [done|]. by rewrite payloads_nil by lia.
    + by rewrite Hp.
    + done.
  - (* RChan *) intros [= <- <-]. apply stay_step; eauto. unfold pc_ok. cbn [rd_goto rd_pc]. lia.
  - (* RTail *) intros [= <- <-]. apply stay_step; eauto. unfold pc_ok. cbn [rd_goto rd_pc].
    split_and!; [done|lia|lia|by left].
  - (* RClosed *) intros [= <- <-]. apply stay_step; eauto. unfold pc_ok. cbn [rd_goto rd_pc].
    split; [done|]. split; [done|by left].
  - (* RRead *)
    destruct (live_read id forkedFrom forkOffset isJSON maxReadBytes sh (rd_start r) tail) as [sh1 res] eqn:El.
    destruct Hp as [Hl Hcl].
    apply live_read_ok in El as (Hsh1 & Hle & Htot & Hstop & Hres);
      [|done|by destruct Hb|by destruct Hl as (_ & ? & _)].
    pose proof (reader_ok_base _ _ (reader_ok_le _ _ _ Hle Hr)) as Hb1.
    destruct res as [[[body next] utd]|err]; intros [= <- <-].
    + split_and!; [done|done| |rewrite (Hbusy _ eq_refl) by done; cbn; lia].
      apply reader_ok_goto; [done|]. unfold pc_ok. cbn [rd_goto rd_pc rd_start].
      split_and!; [by eapply loaded_le|by eapply loaded_closed_le|]. rewrite Hstop. by apply Hres.
    + apply (leave_step sh sh1 r (rd_emit OutError r)); eauto. by apply emit_base.
  - (* RCheck *) intros Hs. destruct (sh_stop sh) eqn:Est.
    + eapply (Hleave (rd_emit OutNotFound r)); [eauto|by apply emit_base|exact Hs|done].
    + pose proof (check_step sh r _ _ _ _ _ _ Hsh Hr Hpc Est) as Hc. cbn zeta in Hc.
      injection Hs as Hs. by rewrite Hs in Hc.
  - (* wake *) case_decide; [|done]. intros [= <- <-]. apply stay_step; eauto. exact I.
  - (* stop *) destruct (sh_stop sh); [|done]. intros Hs.
    eapply (Hleave (rd_emit OutNotFound r)); [eauto|by apply emit_base|exact Hs|done].
  - (* timeout *) destruct (rd_mode r) eqn:Em; intros Hs; [| |done].
    + eapply (Hleave (rd_emit (OutTimeout (sh_tail sh)) r)); [eauto|by apply emit_base|exact Hs|done].
    + eapply (Hleave r); [eauto|done|exact Hs|done].
  - (* cancel *) intros Hs. eapply (Hleave r); [eauto|done|exact Hs|done].
  - (* next *) intros [= <- <-]. split_and!; [by apply shared_ok_count|apply count_le| |].
    + eapply reader_ok_le; [apply count_le|]. by apply reader_ok_goto.
    + rewrite total_count. unfold active at 2. rewrite Hpc. cbn. lia.
Qed.

(** ** Lemmas: the other steps *)

Lemma actives_cons r rs : actives (r :: rs) = Z.b2z (active r) + actives rs.
Proof.
  unfold actives. rewrite filter_cons. destruct (active r); cbn [Z.b2z].
  - rewrite decide_True by done. rewrite length_cons. lia.
  - by rewrite decide_False by done.
Qed.

Lemma actives_app rs1 rs2 : actives (rs1 ++ rs2) = actives rs1 + actives rs2.
Proof. unfold actives. rewrite filter_app, length_app. lia. Qed.

Lemma actives_insert i r r' rs :
  rs !! i = Some r → actives (<[i:=r']> rs) = actives rs + Z.b2z (active r') - Z.b2z (active r).
Proof.
  intros Hi. pose proof (lookup_lt_Some _ _ _ Hi). rewrite insert_take_drop by done.
  rewrite <-(take_drop_middle rs i r Hi) at 3. rewrite !actives_app, !actives_cons. lia.
Qed.

Lemma actives_none rs : actives rs ≤ 0 → Forall (λ r, active r = false) rs.
Proof.
  induction rs as [|r rs IH]; [constructor|]. rewrite actives_cons. intros Hle.
  assert (0 ≤ actives rs) by (unfold actives; lia).
  destruct (active r) eqn:Ea; cbn [Z.b2z] in *; [lia|]. constructor; [done|apply IH; lia].
Qed.

(** A step of the shared state that readers survive. *)
Lemma shared_step sh sh' rs :
  shared_ok sh' → sh_le sh sh' → sh_totalReaders sh' = sh_totalReaders sh →
  live_inv (mkLive sh rs) → live_inv (mkLive sh' rs).
Proof.
  intros Hsh Hle Ht [_ Hc Hr]. cbn [lv_sh lv_readers] in *. split; cbn [lv_sh lv_readers]; [done|congruence|].
  eapply Forall_impl; [exact Hr|]. intros r. by apply reader_ok_le.
Qed.

(** A step taken when no reader is counted: the others hold nothing but their
    position. *)
Lemma quiet_step sh sh' rs :
  shared_ok sh' → sh_totalReaders sh ≤ 0 → sh_totalReaders sh' = sh_totalReaders sh →
  sh_tail sh = sh_tail sh' → sh_closed sh = sh_closed sh' →
  live_inv (mkLive sh rs) → live_inv (mkLive sh' rs).
Proof.
  intros Hsh H0' Ht Htl Hcl [_ Hc Hr]. cbn [lv_sh lv_readers] in *.
  split; cbn [lv_sh lv_readers]; [done|congruence|].
  pose proof (actives_none rs ltac:(lia)) as Hn. rewrite Forall_forall in Hn. rewrite Forall_forall in Hr.
  apply Forall_forall. intros r Hin. eapply reader_ok_inactive; [by apply Hn|done..|by apply Hr].
Qed.

Lemma writer_step_ok sh sh' :
  shared_ok sh → writer_step window sh = Some sh' →
  shared_ok sh' ∧ sh_totalReaders sh' = sh_totalReaders sh ∧
  (sh_le sh sh' ∨ sh_totalReaders sh ≤ 0 ∧ sh_tail sh = sh_tail sh' ∧ sh_closed sh = sh_closed sh').
Proof.
  intros [Hlog Htl Hc Hseg Hp]. unfold writer_step. unfold pending_tail in Hlog, Htl. unfold seg_ok in Hseg.
  destruct (sh_writer sh) as [|tail closed seg|tail closed|closed| | |] eqn:Ew; [done|..].
  - (* WCache *) intros [= <-]. split_and!; [|done|left; apply sh_le_refl; try done].
    + split; try done. cbn [sh_cache sh_set_writer sh_set_cache].
      intros c' Hc'. destruct (sh_cache sh) as [c|] eqn:Ec; [|done]. cbn [fmap option_fmap option_map] in Hc'.
      injection Hc' as <-. destruct (Hc c eq_refl) as (a & b & Hh). case_decide.
      * destruct Hseg as [Hnil|[Hlt ->]].
        { unfold append. rewrite Hnil. eauto. }
        cbn [seg_firstSeq seg_payloads]. destruct (append_holds L c a b (sh_tail sh) tail Hh) as (a' & Ha & _);
          [lia..|]. by exists a', tail.
      * exists 0, 0. apply reset_holds.
    + unfold coming. cbn. by rewrite Ew.
  - (* WTail *) intros [= <-]. split_and!; [|done|left]. 
    + split; try done. cbn. lia.
    + split; cbn; try done; [lia|]. intros _. right. right. by left.
  - (* WClosed *) intros [= <-]. split_and!; [|by destruct closed|left].
    + destruct closed; split; try done; cbn; lia.
    + destruct closed; split; cbn; try done; intros _; right; right; by left.
  - (* WCheck *) intros [= <-]. split_and!; [|done|].
    + case_decide; split; try done; cbn; lia.
    + case_decide; [left|right; split; [lia|done]]. apply sh_le_refl; try done.
      intros _. right. by left.
  - (* WWake *) unfold Wake. intros Hw.
    assert (Hok : ∀ w pc, sh' = sh_set_writer pc (sh_set_waker w sh) →
      (pc = WIdle ∨ pc = WBroadcast) → (wk_pending w = true → wk_due w ≠ None ∨ wk_expired w ≠ 0%nat) →
      shared_ok sh').
    { intros w pc -> Hpc Hw'. split; try done; destruct Hpc as [-> | ->]; try done; cbn; lia. }
    revert Hw. case_decide; [|case_decide; [|destruct (wk_pending (sh_waker sh)) eqn:Epend]]; intros [= <-];
      (split_and!; [eapply Hok; [reflexivity|auto|]|done|left; apply sh_le_refl; try done]); try done.
    + intros _. right. by left.
    + intros _. right. by left.
    + by rewrite Epend.
    + intros _. right. right. unfold waker_busy. cbn. specialize (Hp eq_refl). tauto.
    + intros _. by left.
    + intros _. right. right. by left.
  - (* WBroadcast *) intros [= <-]. split_and!; [by split|done|left; apply sh_le_broadcast; cbn; try done; lia].
Qed.

Lemma waker_step_ok sh w :
  shared_ok sh → (wk_pending w = true → wk_due w ≠ None ∨ wk_expired w ≠ 0%nat) →
  shared_ok (sh_set_waker w sh).
Proof. by intros [? ? ? ? _] ?. Qed.

Lemma live_step_inv w w' : live_inv w → step w w' → live_inv w'.
Proof.
  intros Hi Hs. destruct w as [sh rs]. pose proof Hi as [Hsh Hc Hr]. cbn [lv_sh lv_readers] in *.
  pose proof (so_tail _ Hsh) as Htl.
  destruct Hs as [m from sh' r Hfrom Hj|i r e sh' r' Hi' Hstep|tail closed seg Hw Hd [Ht [Hl Hseg]]|sh' Hstep
    |d Hd|wk Hk|wk Hk|wk Hk| |Hst|Hw Ht|s' Hs']; cbn [lv_sh lv_readers] in *.
  - (* join *)
    assert (Hr0 : ∀ sh0 pc, pc = RNow ∨ pc = RChan ∨ pc = RIdle →
      reader_ok sh0 (mkReader m (default {| Seq := 0; Byte := 0 |} from) true pc
                       (default {| Seq := 0; Byte := 0 |} from) [])).
    { intros sh0 pc Hpc. split.
      - destruct from as [o|]; [by apply Hfrom|]. split; cbn; lia.
      - unfold delivered_ok. cbn. destruct isJSON; [|done]. split; [lia|]. exists [].
        by rewrite payloads_nil by lia.
      - constructor.
      - by destruct Hpc as [->|[->| ->]]. }
    assert (Hle : sh_le sh sh').
    { unfold join in Hj. destruct m; injection Hj as <- _; [apply count_le..|by apply sh_le_refl]. }
    assert (Hrs : Forall (reader_ok sh') rs) by (eapply Forall_impl; [exact Hr|]; intros; by eapply reader_ok_le).
    split; cbn [lv_sh lv_readers].
    + unfold join in Hj. destruct m; injection Hj as <- _; [by apply shared_ok_count..|done].
    + rewrite actives_app, actives_cons, <-Hc. unfold join in Hj. change (actives []) with 0.
      destruct m; injection Hj as <- <-; rewrite ?total_count; destruct from; cbn; lia.
    + apply Forall_app. split; [done|]. apply Forall_singleton. unfold join in Hj.
      destruct m; injection Hj as <- <-; apply Hr0; destruct from; auto.
  - (* reader *)
    rewrite Forall_lookup in Hr.
    destruct (reader_step_ok sh r e sh' r' Hsh (Hr i r Hi') Hstep) as (Hsh' & Hle & Hr' & Ht).
    split; cbn [lv_sh lv_readers]; [done|rewrite (actives_insert i r r' rs Hi'); lia|].
    apply Forall_insert; [|done]. apply Forall_lookup. intros j rj Hj. eapply reader_ok_le; [done|eauto].
  - (* publish *)
    eapply shared_step; [| | |exact Hi]; [|apply sh_le_refl; try done|done].
    + destruct Hsh. split; try done; cbn; lia.
    + unfold coming. cbn. by rewrite Hw.
  - (* writer *)
    destruct (writer_step_ok _ _ Hsh Hstep) as (Hsh' & Ht & [Hle|(H0' & Htl' & Hcl)]).
    + by eapply shared_step.
    + by eapply quiet_step.
  - eapply shared_step; [| | |exact Hi]; [by destruct Hsh|by apply sh_le_refl|done].
  - (* expire *)
    unfold expire in Hk. destruct (wk_due (sh_waker sh)) as [due|] eqn:Ed; [|done].
    cbn [mbind option_bind] in Hk. case_decide; [|done]. injection Hk as <-.
    eapply shared_step; [| | |exact Hi]; [apply waker_step_ok; [done|]; by right|apply sh_le_refl; try done|done].
    intros _. right. right. right. by left.
  - (* fire *)
    unfold fire in Hk. destruct (wk_expired (sh_waker sh)) as [|n] eqn:Ee; [done|]. injection Hk as <-.
    eapply shared_step; [| | |exact Hi]; [by apply waker_step_ok|apply sh_le_refl; try done|done].
    intros _. right. right. right. by right.
  - (* fired *)
    unfold fired in Hk. destruct (wk_firing (sh_waker sh)) as [|n] eqn:Ee; [done|]. injection Hk as <-.
    eapply shared_step; [| | |exact Hi]; [|apply sh_le_broadcast; cbn; try done; lia|done].
    by destruct Hsh.
  - (* stop *)
    eapply shared_step; [| | |exact Hi]; [| |done].
    + destruct Hsh. split; try done. by left.
    + split; cbn; try done. intros _. left. split_and!; [done|done|]. intros _. by left.
  - (* the waker is stopped *)
    eapply shared_step; [| | |exact Hi]; [by apply waker_step_ok|apply sh_le_refl; try done|done].
    intros _. by left.
  - (* retire *)
    eapply quiet_step; [| | | | |exact Hi]; try done.
    destruct Hsh. by split.
  - (* store *)
    eapply shared_step; [| | |exact Hi]; [|by apply sh_le_refl|done].
    destruct Hsh as [Hlog ? ? ? ?]. split; try done. cbn.
    destruct Hs' as [?|[Hwf Hk]]; [by left|]. destruct Hlog as [?|[_ Hl]]; [by left|right].
    split; [done|by apply Hk].
Qed.

Lemma live_start_inv w : live_init id forkedFrom forkOffset L w → live_inv w.
Proof.
  intros (s & cache & tail & closed & now & -> & Hl & Ht & Hcache). split; [|done|constructor].
  split; try done; cbn; [by right|lia|]. intros c ->. exists 0, 0.
  destruct Hcache as [?|(mr & mb & [= ->])]; [done|]. apply newLiveCache_holds.
Qed.

Lemma live_reachable_inv w :
  live_reachable id forkedFrom forkOffset isJSON maxReadBytes window L w → live_inv w.
Proof.
  intros (w0 & H0' & Hsteps). apply live_start_inv in H0'.
  induction Hsteps as [|w0 w1 w2 Hs _ IH]; [done|]. apply IH. by eapply live_step_inv.
Qed.

(** ** Lemmas: wakes arrive *)

(** The steps of the writer and of the waker's timers alone. *)
Inductive wake_step sh : shared S → Prop :=
| ws_writer sh' : writer_step window sh = Some sh' → wake_step sh sh'
| ws_tick d : 0 ≤ d → wake_step sh (sh_tick (sh_now sh + d) sh)
| ws_expire wk : expire (sh_now sh) (sh_waker sh) = Some wk → wake_step sh (sh_set_waker wk sh)
| ws_fire wk : fire (sh_now sh) (sh_waker sh) = Some wk → wake_step sh (sh_set_waker wk sh)
| ws_fired wk : fired (sh_waker sh) = Some wk → wake_step sh (broadcast (sh_set_waker wk sh)).

Definition wakes sh : Prop :=
  ∃ sh', rtc wake_step sh sh' ∧ (sh_chan sh < sh_chan sh')%nat.

Lemma wakes_step sh sh' : wake_step sh sh' → sh_chan sh = sh_chan sh' → wakes sh' → wakes sh.
Proof. intros Hs Hc (sh2 & Hr & Hlt). exists sh2. split; [by eapply rtc_l|lia]. Qed.

Lemma wakes_firing sh : wk_firing (sh_waker sh) ≠ 0%nat → wakes sh.
Proof.
  intros Hf. destruct (wk_firing (sh_waker sh)) as [|n] eqn:E; [done|]. eexists. split.
  - eapply rtc_once, ws_fired. unfold fired. by rewrite E.
  - cbn. lia.
Qed.

Lemma wakes_expired sh : wk_expired (sh_waker sh) ≠ 0%nat → wakes sh.
Proof.
  intros Hf. destruct (wk_expired (sh_waker sh)) as [|n] eqn:E; [done|].
  eapply wakes_step; [eapply ws_fire; unfold fire; by rewrite E|done|]. by apply wakes_firing.
Qed.

Lemma wakes_armed sh due : wk_due (sh_waker sh) = Some due → wakes sh.
Proof.
  intros Hd. eapply (wakes_step _ _ (ws_tick sh (0 `max` (due - sh_now sh)) ltac:(lia))); [done|].
  eapply wakes_step; [eapply ws_expire; unfold expire; cbn [sh_tick sh_waker sh_now]; rewrite Hd; cbn [mbind option_bind];
    rewrite decide_True by lia; reflexivity|done|]. by apply wakes_expired.
Qed.

Lemma wakes_busy sh : waker_busy (sh_waker sh) → wakes sh.
Proof.
  intros [Hd|[He|Hf]]; [|by apply wakes_expired|by apply wakes_firing].
  destruct (wk_due (sh_waker sh)) as [due|] eqn:E; [by eapply wakes_armed|done].
Qed.

Lemma wakes_publishing sh :
  shared_ok sh → 0 < sh_totalReaders sh → publishing (sh_writer sh) = true → wakes sh.
Proof.
  assert (Hb : ∀ sh, sh_writer sh = WBroadcast → wakes sh).
  { intros sh0 Hw. eexists. split.
    - eapply rtc_once, ws_writer. unfold writer_step. by rewrite Hw.
    - cbn. lia. }
  assert (Hwk : ∀ sh, shared_ok sh → sh_writer sh = WWake → wakes sh).
  { intros sh0 Hok Hw. destruct (Wake window (sh_now sh0) (sh_waker sh0)) as [wk now] eqn:Ewk.
    eapply wakes_step; [apply ws_writer; unfold writer_step; rewrite Hw, Ewk; reflexivity|done|].
    destruct now; [by apply Hb|]. apply wakes_busy. cbn [sh_set_writer sh_set_waker sh_waker].
    revert Ewk. unfold Wake. case_decide; [done|]. case_decide; [done|].
    destruct (wk_pending (sh_waker sh0)) eqn:Ep; intros [= <-]; [|by left].
    destruct (so_pending _ Hok Ep); [by left|by right; left]. }
  assert (Hck : ∀ sh, shared_ok sh → 0 < sh_totalReaders sh → sh_writer sh = WCheck → wakes sh).
  { intros sh0 Hok Hn Hw.
    assert (Hs : writer_step window sh0 = Some (sh_set_writer WWake sh0)).
    { unfold writer_step. by rewrite Hw, decide_True. }
    eapply wakes_step; [by apply ws_writer|done|]. apply Hwk; [|done].
    by destruct (writer_step_ok _ _ Hok Hs) as (? & _). }
  intros Hok Hn Hp. destruct (sh_writer sh) as [| | |closed| | |] eqn:Ew; try done; auto.
  assert (Hs : writer_step window sh = Some (sh_set_writer WCheck (if closed then sh_publish (sh_tail sh) true sh else sh))).
  { unfold writer_step. by rewrite Ew. }
  destruct (writer_step_ok _ _ Hok Hs) as (Hok' & Ht & _).
  eapply wakes_step; [by apply ws_writer|by destruct closed|]. apply Hck; [done|by rewrite Ht|done].
Qed.

(** ** Theorems *)

(** C17: no wakeup is lost: a reader asleep in its [select] although there is
    something for it, records past its position or the closing of the stream, can
    run at once, or the writer and the waker's timers, with nobody's help, bring the
    broadcast that lets it. Coalescing delays wakes, it does not drop them; only a
    stopped streamer is excepted, whose [stop] channel wakes every reader. *)
Theorem live_no_lost_wakeup w i r wc tail :
  live_reachable id forkedFrom forkOffset isJSON maxReadBytes window L w →
  lv_readers w !! i = Some r → rd_pc r = RPark wc tail →
  Seq (rd_start r) < sh_tail (lv_sh w) ∨ sh_closed (lv_sh w) = true →
  sh_stop (lv_sh w) = false →
  (wc < sh_chan (lv_sh w))%nat ∨
  ∃ sh', rtc wake_step (lv_sh w) sh' ∧ (wc < sh_chan sh')%nat.
Proof.
  intros Hw Hi Hpc Hnews Hst. apply live_reachable_inv in Hw as [Hsh Hc Hr].
  rewrite Forall_lookup in Hr. pose proof (ro_pc _ _ (Hr i r Hi)) as Hp. unfold pc_ok in Hp.
  rewrite Hpc in Hp. destruct Hp as ((Hwc & _ & Hl) & (_ & Hcl) & Hcaught).
  destruct (decide (wc = sh_chan (lv_sh w))) as [Heq|]; [right|left; lia].
  assert (Hcom : coming (lv_sh w)).
  { destruct (Hl Heq) as [Ht|?]; [|done]. destruct (Hcl Heq) as [Hf|?]; [|done].
    destruct Hnews as [?|?]; [lia|congruence]. }
  assert (Hn : 0 < sh_totalReaders (lv_sh w)).
  { rewrite Hc. rewrite <-(take_drop_middle _ _ _ Hi), actives_app, actives_cons.
    unfold active. rewrite Hpc. cbn [Z.b2z]. unfold actives. lia. }
  rewrite Heq. destruct Hcom as [?|[Hp|Hb]]; [congruence|by apply wakes_publishing|by apply wakes_busy].
Qed.

(** C11: live reads deliver the stream: whatever a long-poll, an event stream or a
    cursor has been given so far is, in order, without gap or repetition, the
    content from where it began to where it stands; JSON in whole messages. The
    other positions it has reported up to date or closed at lie within what it was
    given, and closed is only reported of a stream that is closed. A stream that is
    being deleted hands back nothing of what is left of it. *)
Theorem live_delivers_exactly w i r :
  live_reachable id forkedFrom forkOffset isJSON maxReadBytes window L w →
  lv_readers w !! i = Some r →
  (isJSON = true → Seq (rd_from r) ≤ Seq (rd_start r) ∧
     ∃ pss, bodies (rd_out r) = wrapJSONArray <$> pss ∧
            concat pss = payloads L (Seq (rd_from r)) (Seq (rd_start r))) ∧
  (isJSON = false → ∀ T, sh_tail (lv_sh w) ≤ T →
     concat (bodies (rd_out r)) ++ content_from L (rd_start r) T = content_from L (rd_from r) T) ∧
  Forall (out_ok (lv_sh w) (rd_start r)) (rd_out r) ∧
  sh_totalReaders (lv_sh w) = actives (lv_readers w).
Proof.
  intros Hw Hi. apply live_reachable_inv in Hw as [Hsh Hc Hr]. rewrite Forall_lookup in Hr.
  destruct (Hr i r Hi) as [_ Hd Ho _]. unfold delivered_ok in Hd.
  split_and!; [by intros ->|by intros ->|done|done].
Qed.

(** ** Lemmas: the bytes of an event stream *)

Lemma sseFrames_ok cc e j o : Forall frame_ok (sseFrames cc e j o).
Proof.
  destruct o; cbn [sseFrames]; repeat constructor; cbn [frame_ok]; unfold control_ok; cbn [sc_StreamCursor].
  - by exists cc, closedEOF, e, j.
  - by exists cc, false, e, j.
  - by exists cc, true, e, j.
Qed.

Lemma sseFrames_data textLike cc e j o :
  snd <$> filter (λ ev : bytes * bytes, ev.1 = name_data) (frame_event textLike <$> sseFrames cc e j o)
  = client_data textLike <$> bodies [o].
Proof.
  assert (Hc : name_control ≠ name_data) by (by vm_compute).
  destruct o; cbn [sseFrames fmap list_fmap frame_event]; rewrite ?filter_cons; cbn [fst];
    rewrite ?(decide_False (P := name_control = name_data)), ?(decide_True (P := name_data = name_data)) by done;
    reflexivity.
Qed.

Lemma sse_events_data textLike cc outs fss :
  Forall2 (λ o fs, ∃ e j, fs = sseFrames cc e j o) outs fss →
  snd <$> filter (λ ev : bytes * bytes, ev.1 = name_data)
    (sse_parse (concat (frame_bytes textLike <$> concat fss)))
  = client_data textLike <$> bodies outs.
Proof.
  intros Hf.
  assert (Hok : Forall frame_ok (concat fss)).
  { apply Forall_concat. clear -Hf. induction Hf as [|o fs outs fss (e & j & ->) _ IH]; constructor; [|done].
    apply sseFrames_ok. }
  pose proof (sse_run_frames textLike (concat fss) [] Hok) as Hr. unfold sse_run in Hr.
  unfold sse_parse. rewrite Hr. cbn [ss_out app]. clear Hr Hok.
  induction Hf as [|o fs outs fss (e & j & ->) _ IH]; [done|].
  cbn [concat]. rewrite fmap_app, filter_app, fmap_app, IH, sseFrames_data.
  change (o :: outs) with ([o] ++ outs). unfold bodies. by rewrite omap_app, fmap_app.
Qed.

(** What the client makes of the data events: base64 is undone. *)
Definition sse_received (textLike : bool) (data : list bytes) : option (list bytes) :=
  if textLike then Some data else mapM b64_decode data.

Lemma sse_received_exact textLike bs :
  sse_received textLike (client_data textLike <$> bs) = Some bs ↔
  (textLike = true → Forall (λ b, verbatim b = true) bs).
Proof.
  destruct textLike; cbn [sse_received].
  - split.
    + intros [= Heq] _. induction bs as [|b bs IH]; [constructor|]. cbn [fmap list_fmap] in Heq. injection Heq as Hb Hbs.
      constructor; [by apply client_data_exact|by apply IH].
    + intros Hv. specialize (Hv eq_refl). f_equal. induction Hv as [|b bs Hb _ IH]; [done|]. rewrite fmap_cons. f_equal; [|by apply IH].
      by apply client_data_exact.
  - split; [done|intros _]. apply mapM_Some. cbn [client_data]. induction bs as [|b bs IH]; [constructor|].
    constructor; [apply b64_decode_encode|exact IH].
Qed.

(** C27: from the store to the client's end of an event stream. The client that parses the
    bytes it was sent finds one data event per delivery, in order, and what it decodes is
    exactly the deliveries if and only if the stream is not text-like, or none of its
    deliveries has a carriage return or a line that starts with a space. Then, put
    together, they are the stream's content from where the reader began to where it
    stands, and of a JSON stream the arrays of its messages. Otherwise a text event holds
    the delivery's lines, joined by line feeds, each without one leading space. *)
Theorem sse_stream_exact w i r textLike cc fss :
  live_reachable id forkedFrom forkOffset isJSON maxReadBytes window L w →
  lv_readers w !! i = Some r →
  Forall2 (λ o fs, ∃ e j, fs = sseFrames cc e j o) (rd_out r) fss →
  let events := sse_parse (concat (frame_bytes textLike <$> concat fss)) in
  let data := snd <$> filter (λ ev : bytes * bytes, ev.1 = name_data) events in
  data = client_data textLike <$> bodies (rd_out r) ∧
  (sse_received textLike data = Some (bodies (rd_out r)) ↔
     (textLike = true → Forall (λ b, verbatim b = true) (bodies (rd_out r)))) ∧
  ((textLike = true → Forall (λ b, verbatim b = true) (bodies (rd_out r))) →
   ∃ received, sse_received textLike data = Some received ∧
     (isJSON = false → ∀ T, sh_tail (lv_sh w) ≤ T →
        concat received ++ content_from L (rd_start r) T = content_from L (rd_from r) T) ∧
     (isJSON = true → ∃ pss, received = wrapJSONArray <$> pss ∧
        concat pss = payloads L (Seq (rd_from r)) (Seq (rd_start r)))).
Proof.
  intros Hw Hi Hf. cbn zeta. rewrite (sse_events_data textLike cc _ _ Hf), sse_received_exact.
  split_and!; [done|done|]. intros Hv. exists (bodies (rd_out r)). split; [by apply sse_received_exact|].
  apply live_reachable_inv in Hw as [_ _ Hr]. rewrite Forall_lookup in Hr.
  pose proof (ro_delivered _ _ (Hr i r Hi)) as Hd. unfold delivered_ok in Hd.
  split; intros Hj; rewrite Hj in Hd; [by apply Hd|by destruct Hd].
Qed.

End invariant.

(** ** Runs

    The sample stream of Read.v: a fork whose records 0 and 1 are stored. *)
Module LiveRun.
Section runner.
  Context {S : Type} `{StorageLaws S}.
  Context (id ff fo limit window : Z) (L : Z → bytes).

(** Events without premises on the content. *)
Inductive event : Type :=
| Join (m : live_mode) (from : Offset)
| Reader (i : nat) (e : reader_event)
| Writer
| Retire.

Definition exec1 (w : live S) (e : event) : option (live S) :=
  match e with
  | Join m from => let '(sh, r) := join (lv_sh w) m (Some from) in Some (mkLive sh (lv_readers w ++ [r]))
  | Reader i e =>
      r ← lv_readers w !! i;
      '(sh, r) ← reader_step id ff fo false limit (lv_sh w) r e;
      Some (mkLive sh (<[i:=r]> (lv_readers w)))
  | Writer => sh ← writer_step window (lv_sh w); Some (mkLive sh (lv_readers w))
  | Retire =>
      match sh_writer (lv_sh w) with
      | WIdle => if decide (sh_totalReaders (lv_sh w) ≤ 0)
                 then Some (mkLive (sh_retire (lv_sh w)) (lv_readers w)) else None
      | _ => None
      end
  end.

Definition exec (w : live S) (es : list event) : option (live S) :=
  foldl (λ w e, w ← w; exec1 w e) (Some w) es.

Lemma exec_reachable es w w' :
  Forall (λ e, match e with Join _ from => offset_ok from | _ => True end) es →
  exec w es = Some w' → rtc (lstep id ff fo false limit window L) w w'.
Proof.
  intros Hes. revert w. induction Hes as [|e es He _ IH]; intros w.
  { cbn. intros [= ->]. constructor. }
  unfold exec. cbn [foldl mbind option_bind].
  destruct (exec1 w e) as [w1|] eqn:E1; [|].
  2:{ intros Hn. exfalso. clear -Hn. induction es as [|? es IH]; [done|]. by apply IH. }
  intros Hr. eapply rtc_l; [|by apply IH]. destruct e as [m from|i e| |]; cbn in E1.
  - destruct (join (lv_sh w) m (Some from)) as [sh r] eqn:Ej. injection E1 as <-.
    apply (ls_join id ff fo false limit window L w m (Some from)); [|done]. by intros o [= <-].
  - destruct (lv_readers w !! i) as [r|] eqn:Ei; [|done]. cbn in E1.
    destruct (reader_step _ _ _ _ _ _ _ _) as [[sh r']|] eqn:Es; [|done]. injection E1 as <-.
    by eapply ls_reader.
  - destruct (writer_step window (lv_sh w)) as [sh|] eqn:Es; [|done]. injection E1 as <-.
    by apply ls_writer.
  - destruct (sh_writer (lv_sh w)) eqn:Ew; try done. case_decide; [|done]. injection E1 as <-.
    by apply ls_retire.
Qed.
End runner.

(** The streamer starts at tail 1; record 1 is in the store. *)
Definition start : live fakeStore := live_start Sample.store None 1 false 0.

Lemma holds T : 0 ≤ T ≤ 2 → holds_log 2 1 1 Sample.log Sample.store T.
Proof. split; [apply Sample.store_keys_wf|]. eapply log_at_mono; [apply Sample.store_log|done]. Qed.

Lemma start_init : live_init 2 1 1 Sample.log start.
Proof. exists Sample.store, None, 1, false, 0. split_and!; [done|by apply holds|lia|done|by left]. Qed.

Definition at_tail : Offset := {| Seq := 1; Byte := 0 |}.
Definition steps (n : nat) : list event := replicate n (Reader 0 EvStep).
Definition writes (n : nat) : list event := replicate n Writer.

(** The publication of record 1. *)
Definition announce (closed : bool) (w : live fakeStore) : live fakeStore :=
  mkLive (sh_set_writer (WCache 2 closed {| seg_firstSeq := 1; seg_payloads := payloads Sample.log 1 2 |})
            (lv_sh w)) (lv_readers w).

Lemma announce_step closed w :
  sh_writer (lv_sh w) = WIdle → sh_dead (lv_sh w) = false → sh_tail (lv_sh w) = 1 →
  sh_store (lv_sh w) = Sample.store → lstep 2 1 1 false 10 0 Sample.log w (announce closed w).
Proof.
  intros Hw Hd Ht Hs. apply ls_publish; [done..|]. unfold published. rewrite Ht, Hs.
  split_and!; [lia|lia|right; by apply holds|]. right. split; [lia|done].
Qed.

(** No step of a reader or of the writer touches the store. *)
Lemma reader_step_store (sh sh' : shared fakeStore) r r' e :
  reader_step 2 1 1 false 10 sh r e = Some (sh', r') → sh_store sh' = sh_store sh.
Proof.
  unfold reader_step, rd_deliver, live_read, rd_leave. intros Hs.
  repeat (case_match; simplify_eq; try done).
Qed.

Lemma exec1_store (w w' : live fakeStore) e : exec1 2 1 1 10 0 w e = Some w' → sh_store (lv_sh w') = sh_store (lv_sh w).
Proof.
  destruct e as [m from|i e| |]; cbn [exec1].
  - unfold join. destruct m; by intros [= <-].
  - destruct (lv_readers w !! i) as [r|]; [|done]. cbn [mbind option_bind].
    destruct (reader_step 2 1 1 false 10 (lv_sh w) r e) as [[sh r']|] eqn:E; [|done].
    cbn [mbind option_bind]. intros [= <-]. by apply reader_step_store in E.
  - unfold writer_step. destruct (sh_writer (lv_sh w)) as [| | |[]| | |];
      try destruct (Wake _ _ _); cbn [mbind option_bind]; by intros [= <-].
  - destruct (sh_writer (lv_sh w)); try done. case_decide; [|done]. by intros [= <-].
Qed.

Lemma exec_store es (w w' : live fakeStore) : exec 2 1 1 10 0 w es = Some w' → sh_store (lv_sh w') = sh_store (lv_sh w).
Proof.
  revert w w'. induction es as [|e es IH] using rev_ind; intros w w'; [by intros [= ->]|].
  unfold exec. rewrite foldl_app. cbn [foldl]. fold (exec 2 1 1 10 0 w es).
  destruct (exec 2 1 1 10 0 w es) as [w1|] eqn:E; [|done]. cbn [mbind option_bind].
  intros ->%exec1_store. by apply IH.
Qed.

(** [before], the publication if the streamer is ready for it, [after]; then what
    the first reader has, and the state of the stream. *)
Definition ready (w : live fakeStore) : bool :=
  bool_decide (sh_tail (lv_sh w) = 1) && negb (sh_dead (lv_sh w)) &&
  match sh_writer (lv_sh w) with WIdle => true | _ => false end.
Definition run (before : list event) (closed : bool) (after : list event) : option (live fakeStore) :=
  w ← exec 2 1 1 10 0 start before;
  if ready w then exec 2 1 1 10 0 (announce closed w) after else None.
Definition first_reader (w : live fakeStore) : option (Offset * list live_out * Z * bool) :=
  r ← lv_readers w !! 0%nat; Some (rd_start r, rd_out r, sh_tail (lv_sh w), sh_closed (lv_sh w)).

Definition joins_ok (es : list event) : bool :=
  forallb (λ e, match e with Join _ from => bool_decide (0 ≤ Seq from ∧ 0 ≤ Byte from) | _ => true end) es.

Lemma joins_ok_Forall es :
  joins_ok es = true → Forall (λ e, match e with Join _ from => offset_ok from | _ => True end) es.
Proof.
  unfold joins_ok. rewrite forallb_forall. intros Hes. apply Forall_forall. intros e Hin%list_elem_of_In.
  specialize (Hes e Hin). destruct e; try done. by apply bool_decide_eq_true in Hes.
Qed.

Lemma run_reachable before closed after w :
  joins_ok before = true → joins_ok after = true → run before closed after = Some w →
  live_reachable 2 1 1 false 10 0 Sample.log w.
Proof.
  intros Hb%joins_ok_Forall Ha%joins_ok_Forall. unfold run.
  destruct (exec 2 1 1 10 0 start before) as [w0|] eqn:E0; [|done]. cbn [mbind option_bind].
  destruct (ready w0) eqn:Er; [|done]. intros E1.
  apply andb_true_iff in Er as [[Ht Hd]%andb_true_iff Hw]. apply bool_decide_eq_true in Ht.
  pose proof (exec_store _ _ _ E0) as Hst.
  apply (exec_reachable 2 1 1 10 0 Sample.log) in E0; [|done].
  apply (exec_reachable 2 1 1 10 0 Sample.log) in E1; [|done].
  exists start. split; [apply start_init|]. etrans; [exact E0|]. eapply rtc_l; [|exact E1].
  apply announce_step; [by destruct (sh_writer _)|by destruct (sh_dead _)|done|exact Hst].
Qed.

Lemma run_shows before closed after o outs tail c :
  joins_ok before = true → joins_ok after = true →
  (w ← run before closed after; first_reader w) = Some (o, outs, tail, c) →
  ∃ (w : live fakeStore) r, live_reachable 2 1 1 false 10 0 Sample.log w ∧
    lv_readers w !! 0%nat = Some r ∧ rd_start r = o ∧ rd_out r = outs ∧
    sh_tail (lv_sh w) = tail ∧ sh_closed (lv_sh w) = c.
Proof.
  intros Hb Ha. destruct (run before closed after) as [w|] eqn:E; [|done].
  cbn [mbind option_bind]. unfold first_reader.
  destruct (lv_readers w !! 0%nat) as [r|] eqn:El; [|done]. cbn [mbind option_bind].
  intros [= <- <- <- <-]. exists w, r. split_and!; [by apply (run_reachable before closed after)|done..].
Qed.

(** A reader asleep, the tail stored past it, the writer yet to wake it. *)
Definition asleep : list event := Join EventStream at_tail :: steps 5.
Definition overtaken : live fakeStore := default start (run asleep false (writes 2)).
Lemma overtaken_run : run asleep false (writes 2) = Some overtaken.
Proof. vm_compute. reflexivity. Qed.
(** The same reader after the wake, with the record. *)
Definition served : live fakeStore := default start (run asleep false (writes 6 ++ steps 6)).
Lemma served_run : run asleep false (writes 6 ++ steps 6) = Some served.
Proof. vm_compute. reflexivity. Qed.
Definition sleeper : reader :=
  mkReader EventStream at_tail false (RPark 0 1) at_tail [OutUpToDate 1].
Definition fed : reader :=
  mkReader EventStream {| Seq := 2; Byte := 0 |} false RChan at_tail
    [OutUpToDate 1; OutData at_tail {| Seq := 2; Byte := 0 |} ["w"%byte] true false].

(** *** A cursor of a retired streamer *)

(** Nothing this reader can do gives it anything. *)
Definition stranded_reader (r : reader) : Prop :=
  rd_mode r = Cursor ∧ rd_start r = at_tail ∧ rd_out r = [] ∧
  match rd_pc r with
  | RNow | REnd => False
  | RClosed _ t => t = 1
  | RRead _ t c => t = 1 ∧ c = false
  | RCheck _ _ c _ n _ => c = false ∧ n = at_tail
  | _ => True
  end.

Definition stranded_shared (sh : shared fakeStore) : Prop :=
  sh_dead sh = true ∧ sh_writer sh = WIdle ∧ sh_tail sh = 1 ∧ sh_closed sh = false ∧ sh_cache sh = None.

Definition stranded (w : live fakeStore) : Prop :=
  sh_stop (lv_sh w) = true ∨
  stranded_shared (lv_sh w) ∧ ∃ r, lv_readers w !! 0%nat = Some r ∧ stranded_reader r.

Lemma reader_step_shared sh sh' (r r' : reader) e :
  stranded_shared sh → reader_step 2 1 1 false 10 sh r e = Some (sh', r') →
  stranded_shared sh' ∧ sh_stop sh' = sh_stop sh.
Proof.
  intros (Hd & Hw & Ht & Hc & Hca). unfold reader_step, rd_deliver, live_read, rd_leave.
  rewrite Hca. intros Hs. unfold stranded_shared. repeat (case_match; simplify_eq; try done).
Qed.

Lemma stranded_reader_step sh sh' r r' e :
  stranded_shared sh → sh_stop sh = false → stranded_reader r →
  reader_step 2 1 1 false 10 sh r e = Some (sh', r') → stranded_reader r'.
Proof.
  intros (_ & _ & Ht & Hc & Hca) Hst (Hm & Hs & Ho & Hpc).
  unfold reader_step, live_read, rd_leave. rewrite Hca, Ht, Hc, Hst, Hm, Hs.
  destruct (rd_pc r) eqn:Epc; try done; destruct e; try done; unfold stranded_reader.
  - intros [= _ <-]. by cbn.
  - intros [= _ <-]. by cbn.
  - intros [= _ <-]. cbn. subst tail. done.
  - destruct Hpc as [-> ->]. unfold readRange. rewrite decide_True by (cbn; lia). run_result.
    intros [= _ <-]. by cbn.
  - destruct Hpc as [-> ->]. rewrite decide_False by auto. intros [= _ <-]. by cbn.
  - case_decide; [|done]. intros [= _ <-]. by cbn.
  - intros [= _ <-]. cbn. by rewrite Hm.
  - intros [= _ <-]. by cbn.
Qed.

Lemma stranded_step w w' : stranded w → lstep 2 1 1 false 10 0 Sample.log w w' → stranded w'.
Proof.
  intros Hs Hstep. destruct w as [sh rs]. destruct (sh_stop sh) eqn:Est.
  - left. destruct Hstep as [m from sh' r _ Hj|i r e sh' r' _ Hr| |sh' Hw|?|?|?|?| | | |]; cbn [lv_sh] in *; try done.
    + unfold join in Hj. destruct m; by injection Hj as <- _.
    + unfold reader_step, rd_deliver, live_read, rd_leave in Hr. repeat (case_match; simplify_eq; try done).
    + unfold writer_step in Hw. repeat (case_match; simplify_eq; try done).
  - destruct Hs as [Hs|[Hsh (r0 & H0 & Hr0)]]; [cbn in Hs; congruence|]. cbn [lv_sh lv_readers] in *.
    pose proof Hsh as (Hd & Hw & Ht & Hc & Hca).
    destruct Hstep as [m from sh' r _ Hj|i r e sh' r' Hi Hr|? ? ? Hw' Hd'|sh' Hw'|?|?|?|?| | | |];
      cbn [lv_sh lv_readers] in *.
    + right. cbn [lv_sh lv_readers]. split; [unfold join in Hj; destruct m; by injection Hj as <- _|].
      exists r0. split; [by apply lookup_app_l_Some|done].
    + right. cbn [lv_sh lv_readers]. destruct (reader_step_shared _ _ _ _ _ Hsh Hr) as [? _]. split; [done|].
      destruct (decide (i = 0%nat)) as [->|Hne].
      * rewrite H0 in Hi. injection Hi as ->. exists r'. split.
        { apply list_lookup_insert_eq. by eapply lookup_lt_Some. }
        by eapply stranded_reader_step in Hr.
      * exists r0. by rewrite list_lookup_insert_ne.
    + congruence.
    + unfold writer_step in Hw'. by rewrite Hw in Hw'.
    + right. cbn. split; [done|eauto].
    + right. cbn. split; [done|eauto].
    + right. cbn. split; [done|eauto].
    + right. cbn. split; [done|eauto].
    + by left.
    + right. cbn. split; [done|eauto].
    + right. cbn. split; [done|eauto].
    + right. cbn. split; [done|eauto].
Qed.

(** A cursor opened at the tail, and the streamer retired between two calls. *)
Definition left_behind : live fakeStore :=
  let '(sh, r) := join (lv_sh start) Cursor (Some at_tail) in mkLive (sh_retire sh) [r].

Lemma left_behind_reachable : live_reachable 2 1 1 false 10 0 Sample.log left_behind.
Proof.
  exists start. split; [apply start_init|].
  apply (exec_reachable 2 1 1 10 0 Sample.log [Join Cursor at_tail; Retire]); [|reflexivity].
  repeat constructor; cbn; lia.
Qed.

Lemma left_behind_stranded w' : rtc (lstep 2 1 1 false 10 0 Sample.log) left_behind w' → stranded w'.
Proof.
  assert (H0 : stranded left_behind).
  { right. split; [by split_and!|]. eexists. split; [reflexivity|]. by split_and!. }
  intros Hr. revert H0. induction Hr as [|w0 w1 w2 Hs _ IH]; [done|]. intros H0. apply IH.
  by eapply stranded_step.
Qed.
End LiveRun.

(** A reader can be told a stream has ended before it has been given the end.
    [tail] is loaded before [closed] and published before it, so the reader that
    loads the tail, is overtaken by a closing append, and then loads the closed flag
    reports the stream closed at the old tail: the closing append's record is never
    delivered. *)
Theorem live_closed_too_early :
  (∃ (w : live fakeStore) r, live_reachable 2 1 1 false 10 0 Sample.log w ∧
    lv_readers w !! 0%nat = Some r ∧ rd_start r = LiveRun.at_tail ∧
    rd_out r = [OutClosed 1] ∧ sh_tail (lv_sh w) = 2 ∧ sh_closed (lv_sh w) = true) ∧
  content_from Sample.log LiveRun.at_tail 2 = ["w"%byte].
Proof.
  split; [|by vm_compute].
  apply (LiveRun.run_shows (LiveRun.Join LongPoll LiveRun.at_tail :: LiveRun.steps 2) true
           (LiveRun.writes 3 ++ LiveRun.steps 3)); vm_compute; reflexivity.
Qed.

(** A long-poll that times out can lose records. Its answer names the tail of
    that moment as the offset to go on from, not the position it read up to: a record
    published after the reader last looked, and before its timer case is taken, is
    skipped by a client that follows the offset. *)
Theorem long_poll_timeout_skips :
  (∃ (w : live fakeStore) r, live_reachable 2 1 1 false 10 0 Sample.log w ∧
    lv_readers w !! 0%nat = Some r ∧ rd_start r = LiveRun.at_tail ∧
    rd_out r = [OutTimeout 2] ∧ sh_tail (lv_sh w) = 2 ∧ sh_closed (lv_sh w) = false) ∧
  content_from Sample.log LiveRun.at_tail 2 = ["w"%byte] ∧
  hp_header (longPollResponse ∅ Sample.meta1 [] 0 0 (OutTimeout 2)) !! hStreamNext
    = Some (offset_String (tailOffset 2)).
Proof.
  split_and!; [|by vm_compute|by vm_compute].
  apply (LiveRun.run_shows (LiveRun.Join LongPoll LiveRun.at_tail :: LiveRun.steps 5) false
           (LiveRun.writes 2 ++ [LiveRun.Reader 0 EvTimeout])); vm_compute; reflexivity.
Qed.

(** A cursor can outlive its streamer and starve. Between two calls of [Next] a
    cursor is not counted, so the idle streamer it was made from may retire; appends
    then go to a new streamer, and the old one's tail never moves again. From then on
    no run of any length gives the cursor anything, although the store holds a
    record past its position: [Next] waits until its context ends. *)
Theorem live_cursor_stranded :
  live_reachable 2 1 1 false 10 0 Sample.log LiveRun.left_behind ∧
  holds_log 2 1 1 Sample.log (sh_store (lv_sh LiveRun.left_behind)) 2 ∧
  content_from Sample.log LiveRun.at_tail 2 = ["w"%byte] ∧
  ∀ w r, rtc (lstep 2 1 1 false 10 0 Sample.log) LiveRun.left_behind w →
    sh_stop (lv_sh w) = false → lv_readers w !! 0%nat = Some r →
    rd_start r = LiveRun.at_tail ∧ rd_out r = [].
Proof.
  split_and!; [apply LiveRun.left_behind_reachable|by apply LiveRun.holds|by vm_compute|].
  intros w r Hw Hst Hr. apply LiveRun.left_behind_stranded in Hw as [?|[_ (r0 & H0 & _ & Hs & Ho & _)]];
    [congruence|]. rewrite H0 in Hr. by injection Hr as <-.
Qed.

(** ** Witnesses *)

Lemma live_no_lost_wakeup_witness :
  sh_tail (lv_sh LiveRun.overtaken) = 2 ∧
  ((0 < sh_chan (lv_sh LiveRun.overtaken))%nat ∨
   ∃ sh', rtc (wake_step 0) (lv_sh LiveRun.overtaken) sh' ∧ (0 < sh_chan sh')%nat).
Proof.
  split; [vm_compute; reflexivity|].
  apply (live_no_lost_wakeup 2 1 1 false 10 0 Sample.log eq_refl LiveRun.overtaken 0 LiveRun.sleeper 0 1).
  - apply (LiveRun.run_reachable LiveRun.asleep false (LiveRun.writes 2));
      [reflexivity|reflexivity|exact LiveRun.overtaken_run].
  - vm_compute. reflexivity.
  - reflexivity.
  - left. vm_compute. reflexivity.
  - vm_compute. reflexivity.
Defined.

Lemma live_delivers_exactly_witness :
  concat (bodies (rd_out LiveRun.fed)) ++ content_from Sample.log {| Seq := 2; Byte := 0 |} 2
    = content_from Sample.log LiveRun.at_tail 2.
Proof.
  destruct (live_delivers_exactly 2 1 1 false 10 0 Sample.log eq_refl LiveRun.served 0 LiveRun.fed) as (_ & Hd & _).
  - apply (LiveRun.run_reachable LiveRun.asleep false (LiveRun.writes 6 ++ LiveRun.steps 6));
      [reflexivity|reflexivity|exact LiveRun.served_run].
  - vm_compute. reflexivity.
  - apply (Hd eq_refl 2). vm_compute. discriminate.
Defined.

Lemma sse_stream_exact_witness :
  let fss := sseFrames [] 100 0 <$> rd_out LiveRun.fed in
  let data := snd <$> filter (λ ev : bytes * bytes, ev.1 = name_data)
    (sse_parse (concat (frame_bytes true <$> concat fss))) in
  data = [["w"%byte]] ∧
  ∃ received, Some data = Some received ∧
    concat received ++ content_from Sample.log {| Seq := 2; Byte := 0 |} 2 = content_from Sample.log LiveRun.at_tail 2.
Proof.
  destruct (sse_stream_exact 2 1 1 false 10 0 Sample.log eq_refl LiveRun.served 0 LiveRun.fed true []
    (sseFrames [] 100 0 <$> rd_out LiveRun.fed)) as (Hd & _ & Hx).
  - apply (LiveRun.run_reachable LiveRun.asleep false (LiveRun.writes 6 ++ LiveRun.steps 6));
      [reflexivity|reflexivity|exact LiveRun.served_run].
  - vm_compute. reflexivity.
  - repeat constructor; by exists 100, 0.
  - split; [exact Hd|]. destruct Hx as (received & Hr & Hc & _).
    + intros _. repeat constructor.
    + exists received. split; [exact Hr|]. apply (Hc eq_refl 2). vm_compute. discriminate.
Defined.
