(* ===== verification/StateTail.v ===== *)
(** * Tailing a State Protocol stream

    [StateCursor] (internal/ds/public.go) gives the messages of a stream one at a
    time: it unwraps the chunks of a live cursor (Live.v) and keeps what it has
    not handed out yet. *)

From S2P Require Import Prelude.
From S2P Require Import Bytes.
From S2P Require Import Keys.
From S2P Require Import Meta.
From S2P Require Import Offset.
From S2P Require Import Storage.
From S2P Require Import Loads.
From S2P Require Import Read.
From S2P Require Import Json.
From S2P Require Import LiveCache.
From S2P Require Import Streamer.
From S2P Require Import State.
From S2P Require Import Server.
From S2P Require Import Public.
From S2P Require Import PublicSpec.
From S2P Require Import Live.
From S2P Require Import LiveSpec.

(** ** The cursor *)

(** [sc_answers]: what the live cursor's [Next] calls will return, as far as it
    has got; a call beyond them blocks. *)
Record StateCursor : Type := mkStateCursor {
  sc_answers : list (result bytes);
  sc_buf : list Message }.

(** What a call of [LiveCursor.Next] returned. *)
Definition live_answer (o : live_out) : result bytes :=
  match o with
  | OutData _ _ body _ _ => Ok body
  | OutClosed _ => Err ErrStreamClosed
  | OutNotFound => Err ErrNotFound
  | _ => Err errInternal
  end.

(** [TailState], given [Tail]'s cursor. *)
Definition TailState (answers : list (result bytes)) : StateCursor := mkStateCursor answers [].

Section state_cursor.
  Context (decode : bytes → option (list Message)).

(** The loop of [Next]: [None] when it blocks. *)
Fixpoint state_loop (answers : list (result bytes)) : StateCursor * option (result Message) :=
  match answers with
  | [] => (mkStateCursor [] [], None)
  | Err e :: answers => (mkStateCursor answers [], Some (Err e))
  | Ok body :: answers =>
      match decodeStateMessages decode body with
      | Err e => (mkStateCursor answers [], Some (Err e))
      | Ok [] => state_loop answers
      | Ok (m :: msgs) => (mkStateCursor answers msgs, Some (Ok m))
      end
  end.

Definition StateCursor_Next (c : StateCursor) : StateCursor * option (result Message) :=
  match sc_buf c with
  | m :: buf => (mkStateCursor (sc_answers c) buf, Some (Ok m))
  | [] => state_loop (sc_answers c)
  end.

(** A caller that takes up to [n] messages, until an error or for as long as there are any. *)
Fixpoint state_take (n : nat) (c : StateCursor) : list Message * option error :=
  match n with
  | O => ([], None)
  | Datatypes.S n =>
      match StateCursor_Next c with
      | (_, None) => ([], None)
      | (_, Some (Err e)) => ([], Some e)
      | (c, Some (Ok m)) => let '(ms, e) := state_take n c in (m :: ms, e)
      end
  end.

(** ** Lemmas *)

Lemma state_loop_ok bodies : ∀ mss,
  Forall2 (λ body msgs, decodeStateMessages decode body = Ok msgs) bodies mss →
  match concat mss with
  | [] => (state_loop (Ok <$> bodies)).2 = None
  | m :: ms => ∃ buf bodies' mss', state_loop (Ok <$> bodies) = (mkStateCursor (Ok <$> bodies') buf, Some (Ok m)) ∧
      Forall2 (λ body msgs, decodeStateMessages decode body = Ok msgs) bodies' mss' ∧ ms = buf ++ concat mss'
  end.
Proof.
  induction bodies as [|body bodies IH]; intros mss Hm; inversion Hm as [|? msgs ? mss' Hd Hm']; subst; [done|].
  cbn [fmap list_fmap state_loop concat]. rewrite Hd. destruct msgs as [|m msgs]; [by apply IH|].
  cbn [app]. by exists msgs, bodies, mss'.
Qed.

Lemma state_take_ok n : ∀ buf bodies mss,
  Forall2 (λ body msgs, decodeStateMessages decode body = Ok msgs) bodies mss →
  state_take n (mkStateCursor (Ok <$> bodies) buf) = (take n (buf ++ concat mss), None).
Proof.
  induction n as [|n IH]; intros buf bodies mss Hm; [done|]. cbn [state_take]. unfold StateCursor_Next. cbn [sc_buf].
  destruct buf as [|m buf].
  - cbn [sc_answers app]. pose proof (state_loop_ok bodies mss Hm) as Hl.
    destruct (concat mss) as [|m ms].
    + destruct (state_loop _) as [c r]. cbn [snd] in Hl. by subst r.
    + destruct Hl as (buf & bodies' & mss' & -> & Hm' & ->). by rewrite (IH buf bodies' mss' Hm').
  - cbn [sc_answers app take]. by rewrite (IH buf bodies mss Hm).
Qed.

Lemma wrapped_messages (decode1 : bytes → option Message) pss : ∀ msgs,
  (∀ ms, Forall element ms → decode (wrapJSONArray ms) = mapM decode1 ms) →
  Forall element (concat pss) → mapM decode1 (concat pss) = Some msgs →
  ∃ mss, Forall2 (λ body msgs, decodeStateMessages decode body = Ok msgs) (wrapJSONArray <$> pss) mss ∧ concat mss = msgs.
Proof.
  induction pss as [|ps pss IH]; intros msgs Hdec Hel Hm.
  - simpl in Hm. injection Hm as <-. by exists [].
  - cbn [concat] in Hel, Hm. apply Forall_app in Hel as [Hel1 Hel2].
    apply mapM_app_inv in Hm as (ms1 & ms2 & Hm1 & Hm2 & ->).
    destruct (IH ms2 Hdec Hel2 Hm2) as (mss & Hf & <-). exists (ms1 :: mss). split; [|done].
    constructor; [|done]. unfold decodeStateMessages. rewrite decide_False by apply wrapJSONArray_nonempty.
    by rewrite Hdec, Hm1.
Qed.

End state_cursor.

(** ** Properties *)

(** C38: a tail of a State Protocol stream replays it message by message. What a
    caller takes from a [StateCursor] until it blocks is, whatever the chunks the live
    cursor was given, exactly the messages of the records from where it began to
    where it stands, in order; taking fewer gives the first of them. *)
Theorem state_cursor_replays {S : Type} `{StorageLaws S} (id forkedFrom forkOffset maxReadBytes window : Z)
    (L : Z → bytes) (decode : bytes → option (list Message)) (decode1 : bytes → option Message)
    (w : live S) i r msgs n :
  0 < maxReadBytes →
  (∀ ms, Forall element ms → decode (wrapJSONArray ms) = mapM decode1 ms) →
  live_reachable id forkedFrom forkOffset true maxReadBytes window L w → lv_readers w !! i = Some r →
  Forall element (payloads L (Seq (rd_from r)) (Seq (rd_start r))) →
  mapM decode1 (payloads L (Seq (rd_from r)) (Seq (rd_start r))) = Some msgs →
  state_take decode n (TailState (Ok <$> bodies (rd_out r))) = (take n msgs, None).
Proof.
  intros Hmax Hdec Hw Hi Hel Hm. apply live_reachable_inv in Hw as [_ _ Hr]; [|done].
  rewrite Forall_lookup in Hr. pose proof (ro_delivered _ _ _ _ _ (Hr i r Hi)) as (_ & pss & Hb & Hc).
  rewrite <-Hc in Hel, Hm. destruct (wrapped_messages decode decode1 pss msgs Hdec Hel Hm) as (mss & Hf & <-).
  unfold TailState. rewrite Hb. by rewrite (state_take_ok decode n [] _ mss Hf).
Qed.

(** ** Witness *)

(** Two records, one live cursor. *)
Module StateTailSample.
Definition log (i : Z) : bytes := if decide (i = 0) then ["1"%byte] else ["2"%byte].
Definition ops : list Op :=
  [PutOp (recordKey 1 0) (marshalRecord recFlagNone ["1"%byte]);
   PutOp (recordKey 1 1) (marshalRecord recFlagNone ["2"%byte])].
Definition store : fakeStore := {| fake_data := apply_ops ∅ ops; fake_seq := 1; fake_closed := false |}.
Definition start : live fakeStore := live_start store None 2 false 0.

Lemma store_ok : holds_log 1 0 0 log store 2.
Proof.
  split.
  - apply keys_wf_apply_ops; [apply keys_wf_empty|]. unfold ops.
    repeat constructor; (eapply op_wf_put; [|exact (eq_refl : _ = encode_skey (KRecord _ _))]);
      unfold skey_wf, is_u64; lia || done.
  - apply log_root; unfold is_u64; try lia. intros i Hi.
    assert (i = 0 ∨ i = 1) as [-> | ->] by lia; by vm_compute.
Qed.

Lemma tail_start_init : live_init 1 0 0 log start.
Proof. exists store, None, 2, false, 0. split_and!; [done|apply store_ok|lia|done|by left]. Qed.

Definition run (es : list reader_event) (p : shared fakeStore * reader) : option (shared fakeStore * reader) :=
  foldl (λ p e, '(sh, r) ← p; reader_step 1 0 0 true 1000 sh r e) (Some p) es.

Lemma run_steps es p p' :
  run es p = Some p' → rtc (lstep 1 0 0 true 1000 0 log) (mkLive p.1 [p.2]) (mkLive p'.1 [p'.2]).
Proof.
  revert p'. induction es as [|e es IH] using rev_ind; intros p'; [by intros [= ->]|].
  unfold run. rewrite foldl_app. cbn [foldl]. fold (run es p).
  destruct (run es p) as [[sh r]|]; [|done]. cbn [mbind option_bind]. intros Hs.
  eapply rtc_r; [by apply (IH (sh, r))|]. destruct p' as [sh' r'].
  by apply (ls_reader _ _ _ _ _ _ _ (mkLive sh [r]) 0%nat r e sh' r').
Qed.

Definition joined : shared fakeStore * reader := join (lv_sh start) Live.Cursor (Some offset0).
Definition events : list reader_event := EvNext :: replicate 5 EvStep.
Definition shown (p : shared fakeStore * reader) : list bytes * Offset * Offset :=
  (bodies (rd_out p.2), rd_from p.2, rd_start p.2).

Lemma tail_events_run : shown <$> run events joined
  = Some ([wrapJSONArray [["1"%byte]; ["2"%byte]]], offset0, {| Seq := 2; Byte := 0 |}).
Proof. vm_compute. reflexivity. Qed.
End StateTailSample.

Lemma state_cursor_replays_witness :
  state_take JsonSample.decode 1 (TailState [Ok (wrapJSONArray [["1"%byte]; ["2"%byte]])])
  = (take 1 (omap JsonSample.decode1 [["1"%byte]; ["2"%byte]]), None).
Proof.
  pose proof StateTailSample.tail_events_run as Hs.
  destruct (StateTailSample.run StateTailSample.events StateTailSample.joined) as [p|] eqn:E; [|discriminate Hs].
  apply StateTailSample.run_steps in E. cbn [fmap option_fmap option_map StateTailSample.shown] in Hs.
  injection Hs as Hb Hf Ht.
  assert (Hw : live_reachable 1 0 0 true 1000 0 StateTailSample.log (mkLive p.1 [p.2])).
  { exists StateTailSample.start. split; [exact StateTailSample.tail_start_init|].
    eapply rtc_l; [|exact E].
    apply (ls_join _ _ _ _ _ _ _ StateTailSample.start Live.Cursor (Some offset0)
      StateTailSample.joined.1 StateTailSample.joined.2); [|reflexivity].
    intros o [= <-]. split; vm_compute; discriminate. }
  pose proof (state_cursor_replays 1 0 0 1000 0 StateTailSample.log JsonSample.decode JsonSample.decode1
    (mkLive p.1 [p.2]) 0 p.2 (omap JsonSample.decode1 [["1"%byte]; ["2"%byte]]) 1 eq_refl
    JsonSample.decode_elements Hw eq_refl) as Hr.
  rewrite Hb, Hf, Ht in Hr. apply Hr.
  - change (Forall element [["1"%byte]; ["2"%byte]]). repeat constructor.
  - by vm_compute.
Defined.
