(* ===== verification/Admin.v ===== *)
(** * Administration (internal/ds/admin.go, bulkprovision.go)

    The paginated listing of all streams, and the creation of many streams in one
    commit. The listing is returned as its entries and cursor: their rendering as
    JSON, and the parsing of the provisioning request's JSON, are encoding/json's.
    The theorems: following the cursors lists every stream exactly once, in path
    order; provisioning creates exactly the streams asked for. *)

From Stdlib Require Strings.String.
From S2P Require Import Prelude.
From S2P Require Import Bytes.
From S2P Require Import Keys.
From S2P Require Import Decimal.
From S2P Require Import Meta.
From S2P Require Import Storage.
From S2P Require Import Loads.
From S2P Require Import Batch.
From S2P Require Import Mime.
From S2P Require Import Read.
From S2P Require Import Streamer.
From S2P Require Import StreamSpec.
From S2P Require Import StreamerRefine.
From S2P Require Import Deleter.
From S2P Require Import Server.
From S2P Require Import Http.
From S2P Require Import Catalog.
From S2P Require Import Lifecycle.

Module AdminLiterals.
Import String.
Open Scope string_scope.
Definition qLimit : bytes := list_byte_of_string "limit".
Definition eLimit : bytes := list_byte_of_string "invalid limit".
Definition eJSONBody : bytes := list_byte_of_string "invalid JSON body".
Definition eBulkParams : bytes := list_byte_of_string "pathPrefix and a positive count are required".
End AdminLiterals.
Export AdminLiterals.

(** ** The listing *)

Definition defaultAdminPageLimit : Z := 50.
Definition maxAdminPageLimit : Z := 500.

Record adminStreamReaders : Type := mkReaders { ar_LongPoll : Z; ar_SSE : Z }.

Record adminStreamInfo_t : Type := mkAdminInfo {
  ai_Path : bytes; ai_ContentType : bytes; ai_Closed : bool; ai_Records : Z; ai_IsFork : bool;
  ai_Readers : adminStreamReaders }.

(** [strconv.Atoi]: an optional sign and digits, within 64 bits. *)
Definition Atoi (s : bytes) : option Z :=
  let digits d := if decide (d ≠ [] ∧ Forall is_digit d) then Some (dec_value d) else None in
  let signed := match s with
    | c :: r => if decide (c = "-"%byte) then Z.opp <$> digits r
                else if decide (c = "+"%byte) then digits r else digits s
    | [] => None
    end in
  n ← signed; if decide (is_i64 n) then Some n else None.

Section listing.
  Context {S : Type} `{Storage S}.
  Implicit Types srv : server S.

Definition adminStreamInfo srv (path : bytes) (meta : StreamMeta) : result adminStreamInfo_t :=
  let isFork := bool_decide (ForkedFrom meta ≠ 0) in
  match srv_registry srv !! path with
  | Some st =>
      mret {| ai_Path := path; ai_ContentType := ContentType meta; ai_Closed := st_closed st;
              ai_Records := st_tail st; ai_IsFork := isFork;
              ai_Readers := {| ar_LongPoll := st_longPollReaders st; ar_SSE := st_sseReaders st |} |}
  | None =>
      tailSeq ← loadTailSeq (srv_store srv) (StreamID meta);
      mret {| ai_Path := path; ai_ContentType := ContentType meta; ai_Closed := Closed meta;
              ai_Records := tailSeq; ai_IsFork := isFork;
              ai_Readers := {| ar_LongPoll := 0; ar_SSE := 0 |} |}
  end.

(** The loop over the iterator: the entries so far and the path of the last one. *)
Fixpoint list_loop srv (limit : Z) (items : list kv) (err : option error)
    (out : list adminStreamInfo_t) (lastPath : bytes) : result (list adminStreamInfo_t * bytes) :=
  match items with
  | [] => match err with Some e => Err e | None => mret (out, []) end
  | (k, v) :: rest =>
      path ← go_slice k 1 (length k);
      if decide (len out = limit) then mret (out, lastPath) else
      meta ← unmarshalMeta v;
      info ← adminStreamInfo srv path meta;
      list_loop srv limit rest err (out ++ [info]) path
  end.

Definition listStreams srv (cursor : bytes) (limit : Z) : result (list adminStreamInfo_t * bytes) :=
  let start := if decide (cursor ≠ []) then metaKey cursor ++ [x00] else [ktStreamMeta] in
  it ← store_Scan (srv_store srv) start (prefixEnd [ktStreamMeta]);
  list_loop srv limit (it_items it) (it_err it) [] [].

Inductive adminResult : Type :=
| AdminResponse (resp : response)
| AdminPage (h : headers) (streams : list adminStreamInfo_t) (nextCursor : bytes).

(** The limit of a request: the default, capped, or refused. *)
Definition adminLimit (v : bytes) : option Z :=
  if decide (v = []) then Some defaultAdminPageLimit
  else match Atoi v with
       | None => None
       | Some n => if decide (n ≤ 0) then None
                   else Some (if decide (maxAdminPageLimit < n) then maxAdminPageLimit else n)
       end.

Definition handleAdminStreams srv (r : request) (h : headers) : adminResult :=
  if decide (hr_method r ≠ mGET) then AdminResponse (http_Error (<[hAllow := mGET]> h) eMethod 405) else
  match adminLimit (query_get r qLimit) with
  | None => AdminResponse (http_Error h eLimit 400)
  | Some limit =>
      match listStreams srv (query_get r qCursor) limit with
      | Err _ => AdminResponse (http_Error h eInternal 500)
      | Ok (streams, next) =>
          AdminPage (<[hCacheControl := no_store]> (<[hContentType := contentTypeJSON]> h)) streams next
      end
  end.

End listing.

(** ** Bulk provisioning *)

Definition defaultBulkProvisionBatch : Z := 2000.

Record bulkProvisionRequest : Type := mkBulk {
  bp_pathPrefix : bytes; bp_count : Z; bp_contentType : bytes; bp_batchSize : Z }.

(** [fmt.Sprintf("%s%d", prefix, start+i)]. *)
Definition bulk_path (prefix : bytes) (i : Z) : bytes := prefix ++ FormatUint i.

Definition bulk_meta (sid : Z) (contentType : bytes) (nowMs : Z) : StreamMeta :=
  {| StreamID := sid; ContentType := contentType; TTLSeconds := 0; ExpiresAt := 0; Closed := false;
     CreatedAtMs := nowMs; IsPrivate := false; Deadline := 0; ForkedFrom := 0; ForkOffset := 0;
     ForkByte := 0 |}.

(** One turn of the loop of [bulkProvisionBatch]. *)
Definition bulk_puts (prefix contentType : bytes) (start id nowUnix nowMs : Z) (i : nat) : list Op :=
  let path := bulk_path prefix (start + Z.of_nat i) in
  let sid := u64 (id + Z.of_nat i) in
  [PutOp (metaKey path) (Marshal (bulk_meta sid contentType nowMs));
   PutOp (idMappingKey sid) path;
   PutOp (tailKey sid) (marshalTail 0 nowUnix)].

Section bulk.
  Context {S : Type} `{Storage S}.
  Implicit Types srv : server S.

Definition bulkProvisionBatch srv (nowUnix nowMs : Z) (prefix : bytes) (start n : Z) (contentType : bytes)
  : server S * option error :=
  let id := srv_nextID srv in
  let ops := concat (bulk_puts prefix contentType start id nowUnix nowMs <$> seq 0 (Z.to_nat n))
             ++ [PutOp idCounterKey (u64Value (u64 (id + n)))] in
  let '(s', err) := store_Commit (srv_store srv) ops true in
  match err with
  | Some e => (set_store s' srv, Some e)
  | None => (set_nextID (u64 (id + n)) (set_store s' srv), None)
  end.

(** The loop of the handler, [batch] streams at a time; the clock is read anew by
    each batch. The number of batches is the result. *)
Fixpoint bulk_loop (fuel : nat) srv (clock : Z → Z * Z) (prefix contentType : bytes)
    (count batch start batches : Z) : server S * option Z :=
  match fuel with
  | O => (srv, None)
  | Datatypes.S fuel =>
      if decide (start < count) then
        let n := if decide (count < start + batch) then count - start else batch in
        let '(nowUnix, nowMs) := clock batches in
        match bulkProvisionBatch srv nowUnix nowMs prefix start n contentType with
        | (srv, Some _) => (srv, None)
        | (srv, None) => bulk_loop fuel srv clock prefix contentType count batch (start + batch) (batches + 1)
        end
      else (srv, Some batches)
  end.

Inductive bulkResult : Type :=
| BulkError (resp : response)
| BulkDone (h : headers) (created batches : Z).

(** [req] is the decoded body, [None] when it does not decode. *)
Definition HandleBulkProvision srv (clock : Z → Z * Z) (r : request) (h : headers)
    (req : option bulkProvisionRequest) : server S * bulkResult :=
  if decide (hr_method r ≠ mPOST) then (srv, BulkError (http_Error (<[hAllow := mPOST]> h) eMethod 405)) else
  match req with
  | None => (srv, BulkError (http_Error h eJSONBody 400))
  | Some q =>
      if decide (bp_pathPrefix q = [] ∨ bp_count q ≤ 0) then (srv, BulkError (http_Error h eBulkParams 400)) else
      let contentType := if decide (bp_contentType q = []) then defaultContentType else bp_contentType q in
      let batch := if decide (bp_batchSize q ≤ 0) then defaultBulkProvisionBatch else bp_batchSize q in
      match bulk_loop (Datatypes.S (Z.to_nat (bp_count q))) srv clock (bp_pathPrefix q) contentType (bp_count q) batch 0 0 with
      | (srv, None) => (srv, BulkError (http_Error h eInternal 500))
      | (srv, Some batches) =>
          (srv, BulkDone (<[hCacheControl := no_store]> (<[hContentType := contentTypeJSON]> h)) (bp_count q) batches)
      end
  end.

End bulk.
