(* ===== verification/AdminSpec.v ===== *)
(** * What the administration promises

    Paging through the listing gives every stream of the catalogue once, in the
    order of the paths; bulk provisioning extends the catalogue by exactly the
    streams asked for, whatever the batch size. *)

From S2P Require Import Prelude.
From S2P Require Import Bytes.
From S2P Require Import Keys.
From S2P Require Import Decimal.
From S2P Require Import Meta.
From S2P Require Import Storage.
From S2P Require Import Loads.
From S2P Require Import Batch.
From S2P Require Import Mime.
From S2P Require Import Read.
From S2P Require Import Streamer.
From S2P Require Import StreamSpec.
From S2P Require Import StreamerRefine.
From S2P Require Import Deleter.
From S2P Require Import Server.
From S2P Require Import Http.
From S2P Require Import Catalog.
From S2P Require Import Lifecycle.
From S2P Require Import Admin.

(** ** Lemmas: resuming a scan *)

(** [x ++ 0] is the least string after [x]. *)
Lemma bytes_le_succ x y : bytes_le (x ++ [x00]) y ↔ bytes_lt x y.
Proof.
  revert y. induction x as [|a x IH]; intros [|b y]; cbn [app].
  - split; [by intros Hle|by intros []%bytes_lt_nil_r].
  - split; [done|]. intros _. apply bytes_le_cons. pose proof (byte_to_Z_range b).
    destruct (decide (byte_to_Z b = 0)) as [E|]; [right|left; change (byte_to_Z x00) with 0; lia].
    split; [apply (inj byte_to_Z); by rewrite E|apply bytes_le_nil_l].
  - split; [intros ?%bytes_le_nil_r; done|by intros []%bytes_lt_nil_r].
  - rewrite bytes_le_cons, bytes_lt_cons, IH. done.
Qed.

Definition meta_items (m : gmap bytes bytes) : list kv :=
  range_items m [ktStreamMeta] (prefixEnd [ktStreamMeta]).

Lemma prefix_meta_succ k r : k = ktStreamMeta :: r → [ktStreamMeta] `prefix_of` k ++ [x00].
Proof. intros ->. by exists (r ++ [x00]). Qed.

(** The scan from a cursor sees what follows the cursor's entry. *)
Lemma meta_items_after m pre k v post :
  meta_items m = pre ++ (k, v) :: post →
  range_items m (k ++ [x00]) (prefixEnd [ktStreamMeta]) = post.
Proof.
  intros Hm. pose proof (range_items_sorted m [ktStreamMeta] (prefixEnd [ktStreamMeta])) as Hs.
  fold (meta_items m) in Hs. rewrite Hm in Hs.
  assert (Hin : ∀ k' v', (k', v') ∈ meta_items m ↔ m !! k' = Some v' ∧ [ktStreamMeta] `prefix_of` k').
  { intros k' v'. unfold meta_items. by rewrite elem_of_range_items, in_range_prefixEnd. }
  apply StronglySorted_app in Hs as (Hcross & _ & Hpost). inversion_clear Hpost as [|?? Hsp Hall].
  apply range_items_unique; [done|]. intros k' v'.
  assert (Hk : [ktStreamMeta] `prefix_of` k).
  { apply (Hin k v). rewrite Hm. apply elem_of_app. right. by constructor. }
  assert (Hk0 : [ktStreamMeta] `prefix_of` k ++ [x00]) by (by apply prefix_app_r).
  rewrite in_range_within_prefix, bytes_le_succ by done. split.
  - intros Hp. assert (Hp' : (k', v') ∈ meta_items m) by (rewrite Hm; set_solver).
    apply Hin in Hp' as [? ?]. split_and!; [done..|]. rewrite Forall_forall in Hall. apply (Hall _ Hp).
  - intros (Hl & Hpre & Hlt). assert (Hp' : (k', v') ∈ meta_items m) by by apply Hin.
    rewrite Hm in Hp'. apply elem_of_app in Hp' as [Hp'|[E|Hp']%elem_of_cons]; [| |done].
    2:{ simplify_eq. by destruct (irreflexivity bytes_lt k). }
    exfalso. pose proof (Hcross (k', v') (k, v) Hp' ltac:(by constructor)) as Hc. unfold kv_lt in Hc. cbn in Hc.
    by destruct (irreflexivity bytes_lt k (transitivity Hlt Hc)).
Qed.

(** ** Lemmas: a page *)

Lemma Forall_preimage {A B} (f : B → A) (Q : B → Prop) l :
  Forall (λ x, ∃ y, x = f y ∧ Q y) l → ∃ ys, l = f <$> ys ∧ Forall Q ys.
Proof.
  induction 1 as [|x l (y & -> & Hy) _ (ys & -> & IH)]; [by exists []|]. exists (y :: ys).
  split; [done|by constructor].
Qed.

(** The stored metadata of a stream of the catalogue. *)
Definition meta_item (x : bytes * entry) : kv := (metaKey x.1, Marshal (e_stored x.2)).

Section pages.
  Context {S : Type} `{StorageLaws S}.
  Context (R : gmap Z phase).
  Implicit Types (srv : server S) (C : catalog).

(** A stream's line of the listing. *)
Definition entry_info srv (x : bytes * entry) : adminStreamInfo_t :=
  {| ai_Path := x.1; ai_ContentType := ContentType (e_meta x.2);
     ai_Closed := a_closed (e_state x.2); ai_Records := a_tail (e_state x.2);
     ai_IsFork := bool_decide (e_source x.2 ≠ 0);
     ai_Readers :=
       match srv_registry srv !! x.1 with
       | Some st => {| ar_LongPoll := st_longPollReaders st; ar_SSE := st_sseReaders st |}
       | None => {| ar_LongPoll := 0; ar_SSE := 0 |}
       end |}.

Lemma meta_items_catalog srv C :
  server_ok R srv C →
  ∃ es, meta_items (view (srv_store srv)) = meta_item <$> es ∧ (∀ p e, (p, e) ∈ es ↔ C !! p = Some e).
Proof.
  intros [[Hh Hcat Hres Hdel] Hk].
  assert (Hstored : ∀ p e, C !! p = Some e → view (srv_store srv) !! metaKey p = Some (Marshal (e_stored e))).
  { intros p e Hp. by destruct (sr_meta _ _ _ _ (eo_rep _ _ _ _ (co_entry _ _ _ _ Hcat p e Hp))) as (_ & _ & ?). }
  destruct (Forall_preimage meta_item (λ x, C !! x.1 = Some x.2) (meta_items (view (srv_store srv)))) as (es & He & Hes).
  { apply Forall_forall. intros [k v] [Hm Hr]%elem_of_range_items.
    destruct (co_keys _ _ _ _ Hcat k v Hm) as (sk & Hsk & ->). apply family_scan_exact in Hr.
    destruct sk as [p| | | | | | | | | |]; try discriminate Hr. cbn [encode_skey] in Hm |- *.
    destruct (C !! p) as [e|] eqn:Hp.
    - exists (p, e). rewrite (Hstored p e Hp) in Hm. injection Hm as <-. done.
    - destruct (co_absent _ _ _ _ Hcat p Hp) as [Hn _]. congruence. }
  exists es. split; [done|]. intros p e. split.
  - intros Hin. rewrite Forall_forall in Hes. apply (Hes _ Hin).
  - intros Hp. assert (Hin : (metaKey p, Marshal (e_stored e)) ∈ meta_items (view (srv_store srv))).
    { apply elem_of_range_items. split; [by apply Hstored|]. by apply (family_scan_exact ktStreamMeta (KMeta p)). }
    rewrite He in Hin. apply list_elem_of_fmap in Hin as ([q f] & E & Hin).
    rewrite Forall_forall in Hes. pose proof (Hes _ Hin) as Hq. cbn in Hq.
    apply (f_equal fst) in E. cbn [meta_item fst] in E. unfold metaKey in E. cbn [app] in E.
    injection E as ->.
    assert (e = f) as -> by congruence. done.
Qed.

Lemma adminStreamInfo_ok srv C p e :
  server_ok R srv C → C !! p = Some e → adminStreamInfo srv p (e_stored e) = Ok (entry_info srv (p, e)).
Proof.
  intros [[Hh Hcat Hres Hdel] Hk] Hp. unfold adminStreamInfo, entry_info. cbn [fst snd].
  destruct (srv_registry srv !! p) as [st|] eqn:Est.
  - destruct (Hres p st Est) as (f & Hf & _ & _ & [Ht Hc _]). assert (f = e) as -> by congruence.
    by rewrite Ht, Hc.
  - change (StreamID (e_stored e)) with (e_id e). by rewrite (loadTailSeq_cat R _ _ _ _ Hh Hcat p e Hp).
Qed.

Definition of_catalog C (x : bytes * entry) : Prop := C !! x.1 = Some x.2.

(** One page: the next [limit] entries, and the path of the last one if there are more. *)
Lemma list_loop_ok srv C limit es out lastPath :
  server_ok R srv C → Forall (of_catalog C) es → len out ≤ limit →
  list_loop srv limit (meta_item <$> es) None out lastPath =
  let room := Z.to_nat (limit - len out) in
  Ok (out ++ (entry_info srv <$> take room es),
      if decide (length es ≤ room)%nat then [] else default lastPath (fst <$> last (take room es))).
Proof.
  intros Hs Hes. revert out lastPath. induction Hes as [|[p e] es Hp Hes IH]; intros out lastPath Hl; cbn zeta.
  { cbn [fmap list_fmap list_loop]. rewrite take_nil, app_nil_r, decide_True by (cbn; lia). done. }
  cbn [fmap list_fmap]. unfold meta_item at 1. cbn [list_loop fst snd].
  assert (Hk : go_slice (metaKey p) 1 (length (metaKey p)) = Ok p).
  { rewrite go_slice_in_range by (unfold metaKey; len_lia). f_equal. unfold metaKey. cbn [app drop length].
    rewrite Nat.sub_succ, Nat.sub_0_r. by rewrite take_ge. }
  rewrite Hk. run_result. destruct (decide (len out = limit)) as [Hfull|Hroom].
  - replace (Z.to_nat (limit - len out)) with 0%nat by lia. cbn [take fmap list_fmap last].
    rewrite app_nil_r, decide_False by (cbn; lia). done.
  - unfold of_catalog in Hp. cbn [fst snd] in Hp.
    destruct Hs as [[Hh Hcat Hres Hdel] Hkept]; pose proof Hcat as Hcat'.
    destruct (sr_meta _ _ _ _ (eo_rep _ _ _ _ (co_entry _ _ _ _ Hcat' p e Hp))) as (? & ? & _).
    change (meta_with (e_meta e) (a_closed (e_state e)) (a_deadline (e_state e))) with (e_stored e) in *.
    rewrite unmarshalMeta_Marshal by done. run_result.
    rewrite (adminStreamInfo_ok srv C p e) by done. run_result.
    rewrite IH by (rewrite length_app; cbn; lia). cbn zeta. rewrite length_app. cbn [length].
    replace (Z.to_nat (limit - len out)) with (Datatypes.S (Z.to_nat (limit - Z.of_nat (length out + 1)))) by lia.
    set (room := Z.to_nat (limit - Z.of_nat (length out + 1))). cbn [take fmap list_fmap].
    rewrite <-app_assoc. cbn [app]. f_equal. f_equal.
    repeat case_decide; try lia; [done|]. destruct (take room es) as [|y ys] eqn:Et; [done|].
    rewrite last_cons_cons. destruct (last (y :: ys)) eqn:El; [done|]. by apply last_None in El.
Qed.

Lemma listStreams_page srv C cursor limit es rest :
  server_ok R srv C → 0 < limit → Forall (of_catalog C) rest →
  meta_items (view (srv_store srv)) = meta_item <$> es ++ rest →
  cursor = default [] (fst <$> last es) → (es ≠ [] → cursor ≠ []) →
  listStreams srv cursor limit =
  Ok (entry_info srv <$> take (Z.to_nat limit) rest,
      if decide (length rest ≤ Z.to_nat limit)%nat then []
      else default [] (fst <$> last (take (Z.to_nat limit) rest))).
Proof.
  intros Hs Hl Hrest Hitems Hc Hne. unfold listStreams.
  assert (Hlo : range_items (view (srv_store srv))
    (if decide (cursor ≠ []) then metaKey cursor ++ [x00] else [ktStreamMeta]) (prefixEnd [ktStreamMeta])
    = meta_item <$> rest).
  { destruct es as [|x es] using rev_ind.
    - cbn in Hc. subst cursor. rewrite decide_False by auto. exact Hitems.
    - rewrite last_snoc in Hc. cbn in Hc. subst cursor. destruct x as [p e]. cbn [fst] in *.
      rewrite decide_True by (apply Hne; by destruct es).
      rewrite !fmap_app in Hitems. cbn [fmap list_fmap app] in Hitems. rewrite <-app_assoc in Hitems.
      by apply meta_items_after in Hitems. }
  destruct Hs as [[Hh Hcat Hres Hdel] Hk].
  destruct (healthy_scan_items (srv_store srv)
    (if decide (cursor ≠ []) then metaKey cursor ++ [x00] else [ktStreamMeta]) (prefixEnd [ktStreamMeta]) Hh)
    as (it & Hscan & Herr & Hit).
  rewrite Hscan. run_result. rewrite Hit, Hlo, Herr.
  rewrite (list_loop_ok srv C) by (done || (cbn; lia)). cbn zeta. cbn [length app]. by rewrite Z.sub_0_r.
Qed.

(** Following the cursors from the start. *)
Fixpoint all_pages (fuel : nat) srv (limit : Z) (cursor : bytes) : result (list (list adminStreamInfo_t)) :=
  match fuel with
  | O => Err errIO
  | Datatypes.S fuel =>
      '(page, next) ← listStreams srv cursor limit;
      if decide (next = []) then mret [page]
      else pages ← all_pages fuel srv limit next; mret (page :: pages)
  end.

Lemma all_pages_ok srv C limit es rest cursor fuel :
  server_ok R srv C → 0 < limit → C !! [] = None → Forall (of_catalog C) (es ++ rest) →
  meta_items (view (srv_store srv)) = meta_item <$> es ++ rest →
  cursor = default [] (fst <$> last es) → (es ≠ [] → cursor ≠ []) → (length rest < fuel)%nat →
  ∃ pages, all_pages fuel srv limit cursor = Ok pages ∧ concat pages = entry_info srv <$> rest ∧
    Forall (λ pg, len pg ≤ limit) pages.
Proof.
  intros Hs Hl Hroot. revert es rest cursor. induction fuel as [|fuel IH]; intros es rest cursor Hall Hitems Hc Hne Hf;
    [lia|]. pose proof Hall as Hall'. apply Forall_app in Hall' as [_ Hrest]. cbn [all_pages].
  rewrite (listStreams_page srv C cursor limit es rest) by done. run_result.
  set (n := Z.to_nat limit). assert (Hpage : len (entry_info srv <$> take n rest) ≤ limit)
    by (rewrite length_fmap, length_take; lia).
  destruct (decide (length rest ≤ n)%nat) as [Hle|Hgt].
  { rewrite decide_True by done. eexists. split; [done|]. cbn [concat]. rewrite app_nil_r, take_ge by done.
    split; [done|]. constructor; [|done]. by rewrite take_ge in Hpage. }
  assert (Hlast : ∃ x, last (take n rest) = Some x).
  { destruct (last (take n rest)) eqn:E; [eauto|]. apply last_None in E. apply (f_equal length) in E.
    rewrite length_take in E. cbn in E. lia. }
  destruct Hlast as [[p e] Hlast]. rewrite Hlast. cbn [fmap option_fmap option_map default fst].
  assert (Hp : C !! p = Some e).
  { rewrite Forall_forall in Hrest. apply (Hrest (p, e)). apply last_Some in Hlast as [l' Hl'].
    rewrite <-(take_drop n rest), Hl'. set_solver. }
  assert (p ≠ []) by (intros ->; congruence). rewrite decide_False by done.
  destruct (IH (es ++ take n rest) (drop n rest) p) as (pages & Hpages & Hcat & Hb).
  - by rewrite <-app_assoc, take_drop.
  - by rewrite <-app_assoc, take_drop.
  - rewrite last_app, Hlast. done.
  - done.
  - rewrite length_drop. lia.
  - cbn [id]. rewrite Hpages. eexists. split; [done|]. cbn [concat]. rewrite Hcat, <-fmap_app, take_drop.
    split; [done|by constructor].
Qed.

(** C39: the listing is complete and repeats nothing. Whatever the page size,
    following the cursors from the start ends, and the pages together are the
    streams of the server in the order of their paths, each once, with its tail,
    closure, fork status and parked readers. *)
Theorem listing_complete srv C limit :
  server_ok R srv C → 0 < limit → C !! [] = None →
  ∃ fuel pages, all_pages fuel srv limit [] = Ok pages ∧
    Forall (λ pg, len pg ≤ limit) pages ∧
    StronglySorted bytes_lt (ai_Path <$> concat pages) ∧
    ∀ info, info ∈ concat pages ↔ ∃ p e, C !! p = Some e ∧ info = entry_info srv (p, e).
Proof.
  intros Hs Hl Hroot. destruct (meta_items_catalog srv C Hs) as (es & Hitems & Hes).
  destruct (all_pages_ok srv C limit [] es [] (Datatypes.S (length es))) as (pages & Hp & Hc & Hb);
    [done..| |done|done|done|lia|].
  { apply Forall_forall. intros [p e] Hin. by apply Hes. }
  exists (Datatypes.S (length es)), pages. split_and!; [done..| |].
  - rewrite Hc, <-list_fmap_compose.
    pose proof (range_items_sorted (view (srv_store srv)) [ktStreamMeta] (prefixEnd [ktStreamMeta])) as Hsort.
    fold (meta_items (view (srv_store srv))) in Hsort. rewrite Hitems in Hsort. clear -Hsort.
    induction es as [|[p e] es IH]; [constructor|]. cbn [fmap list_fmap] in *. inversion_clear Hsort as [|?? Hs Hall].
    constructor; [by apply IH|]. apply Forall_fmap. change (list_fmap _ _ meta_item es) with (meta_item <$> es) in Hall.
    rewrite Forall_fmap in Hall.
    eapply Forall_impl; [exact Hall|]. intros [q f] Hlt. unfold kv_lt in Hlt. cbn in Hlt.
    unfold compose, entry_info. cbn [ai_Path fst]. by apply bytes_lt_cons in Hlt as [?|[_ ?]]; [lia|].
  - intros info. rewrite Hc, list_elem_of_fmap. split.
    + intros ([p e] & -> & Hin). exists p, e. split; [by apply Hes|done].
    + intros (p & e & Hpe & ->). exists (p, e). split; [done|by apply Hes].
Qed.

End pages.

(** ** Lemmas: provisioning *)

(** A last put of a key hides what was there before. *)
Lemma apply_ops_agree k ops m m' :
  (∀ j, j ≠ k → m !! j = m' !! j) → ∀ j, j ≠ k → apply_ops m ops !! j = apply_ops m' ops !! j.
Proof.
  revert m m'. induction ops as [|o ops IH]; intros m m' Hm j Hj; [by apply Hm|].
  unfold apply_ops. cbn [foldl]. apply IH; [|done]. intros i Hi. unfold apply_op.
  destruct (op_del o).
  - destruct (decide (op_key o = i)) as [->|]; [by rewrite !lookup_delete_eq|].
    rewrite !lookup_delete_ne by done. by apply Hm.
  - destruct (decide (op_key o = i)) as [->|]; [by rewrite !lookup_insert_eq|].
    rewrite !lookup_insert_ne by done. by apply Hm.
Qed.

Lemma apply_ops_last_put m k v w ops :
  apply_ops (apply_ops m [PutOp k v]) (ops ++ [PutOp k w]) = apply_ops m (ops ++ [PutOp k w]).
Proof.
  apply map_eq. intros j. unfold apply_ops. rewrite !foldl_app. cbn [foldl]. fold (apply_ops (apply_op m (PutOp k v)) ops).
  fold (apply_ops m ops). unfold apply_op at 1 3. cbn [PutOp op_del op_key op_val].
  destruct (decide (k = j)) as [->|]; [by rewrite !lookup_insert_eq|].
  rewrite !lookup_insert_ne by done. apply (apply_ops_agree k); [|done]. intros i Hi. unfold apply_op.
  cbn [PutOp op_del op_key op_val]. by rewrite lookup_insert_ne.
Qed.

(** The stream provisioned at index [i]. *)
Definition bulk_entry (id : Z) (contentType : bytes) (nowMs : Z) (i : nat) : entry :=
  new_entry (bulk_meta (id + Z.of_nat i) contentType nowMs) [].

Definition bulk_catalog (C : catalog) (prefix contentType : bytes) (start id nowMs : Z) (n : nat) : catalog :=
  foldl (λ (C : catalog) i, <[bulk_path prefix (start + Z.of_nat i) := bulk_entry id contentType nowMs i]> C) C (seq 0 n).

Definition bulk_ops (prefix contentType : bytes) (start id nowUnix nowMs : Z) (n : nat) : list Op :=
  concat (bulk_puts prefix contentType start id nowUnix nowMs <$> seq 0 n)
  ++ [PutOp idCounterKey (u64Value (u64 (id + Z.of_nat n)))].

Lemma bulk_path_inj prefix i j : is_u64 i → is_u64 j → bulk_path prefix i = bulk_path prefix j → i = j.
Proof.
  intros Hi Hj E. apply app_inv_head in E. apply (f_equal ParseUint) in E.
  rewrite !ParseUint_FormatUint in E by done. congruence.
Qed.

Section provisioning.
  Implicit Types (C : catalog) (m : gmap bytes bytes).
  Context (R : gmap Z phase) (prefix contentType : bytes) (start id nowUnix nowMs : Z).
  Hypothesis Hct : len contentType < 2^16.
  Hypothesis Hnow : is_i64 nowUnix ∧ is_i64 nowMs.
  Hypothesis Hstart : 0 ≤ start.

Lemma bulk_catalog_fresh C n k :
  (n ≤ k)%nat → start + Z.of_nat k < 2^64 →
  C !! bulk_path prefix (start + Z.of_nat k) = None →
  bulk_catalog C prefix contentType start id nowMs n !! bulk_path prefix (start + Z.of_nat k) = None.
Proof.
  intros Hn Hk Hf. unfold bulk_catalog. induction n as [|n IH]; [done|].
  rewrite seq_S, foldl_app. cbn [foldl]. rewrite lookup_insert_ne; [apply IH; lia|].
  intros E. apply bulk_path_inj in E; unfold is_u64; lia.
Qed.

Lemma bulk_new_ok C n :
  1 ≤ id + Z.of_nat n → id + Z.of_nat n + 1 < 2^64 →
  new_ok (id + Z.of_nat n) C (bulk_meta (id + Z.of_nat n) contentType nowMs) [] nowUnix None.
Proof.
  intros Hn0 Hn. split; try done; [|by destruct Hnow]. split; [|done]. unfold wf_meta, is_u64. cbn.
  destruct Hnow. split_and!; (done || lia).
Qed.

(** One more stream, on top of those before it. *)
Lemma bulk_step m C n :
  cat_ok R m (id + Z.of_nat n) C 0 → id + Z.of_nat n + 1 < 2^64 → C !! bulk_path prefix (start + Z.of_nat n) = None →
  cat_ok R (apply_ops m (bulk_puts prefix contentType start id nowUnix nowMs n
                         ++ [PutOp idCounterKey (u64Value (u64 (id + Z.of_nat (Datatypes.S n))))]))
    (id + Z.of_nat (Datatypes.S n))
    (<[bulk_path prefix (start + Z.of_nat n) := bulk_entry id contentType nowMs n]> C) 0.
Proof.
  intros Hcat Hn Hf. pose proof (co_next _ _ _ _ Hcat) as Hnext.
  set (sm := bulk_meta (id + Z.of_nat n) contentType nowMs).
  pose proof (bulk_new_ok C n ltac:(lia) Hn) as Hnew. fold sm in Hnew.
  pose proof (cat_new m (id + Z.of_nat n) C (bulk_path prefix (start + Z.of_nat n)) sm [] nowUnix 0 None
                Hcat Hf Hnew) as Hc.
  replace (id + Z.of_nat (Datatypes.S n)) with (id + Z.of_nat n + 1) by lia.
  unfold bulk_puts. rewrite (u64_small (id + Z.of_nat n)) by (unfold is_u64; lia). fold sm. exact Hc.
Qed.

Lemma bulk_ops_S m n :
  apply_ops m (bulk_ops prefix contentType start id nowUnix nowMs (Datatypes.S n))
  = apply_ops (apply_ops m (bulk_ops prefix contentType start id nowUnix nowMs n))
      (bulk_puts prefix contentType start id nowUnix nowMs n
       ++ [PutOp idCounterKey (u64Value (u64 (id + Z.of_nat (Datatypes.S n))))]).
Proof.
  unfold bulk_ops. rewrite seq_S, fmap_app, concat_app. cbn [fmap list_fmap concat]. rewrite app_nil_r.
  set (A := concat _). set (B := bulk_puts _ _ _ _ _ _ _).
  assert (Happ : ∀ m a b, apply_ops m (a ++ b) = apply_ops (apply_ops m a) b) by (intros; apply foldl_app).
  rewrite (Happ m A [PutOp idCounterKey _]), apply_ops_last_put, <-Happ. by rewrite app_assoc.
Qed.

(** The batch is [n] creations. *)
Lemma bulk_cat m C n :
  cat_ok R m id C 0 → id + Z.of_nat n < 2^64 → start + Z.of_nat n < 2^64 → (0 < n)%nat →
  (∀ i, (i < n)%nat → C !! bulk_path prefix (start + Z.of_nat i) = None) →
  cat_ok R (apply_ops m (bulk_ops prefix contentType start id nowUnix nowMs n)) (id + Z.of_nat n)
    (bulk_catalog C prefix contentType start id nowMs n) 0.
Proof.
  intros Hcat Hid Hst Hn Hfresh. induction n as [|n IH]; [lia|].
  destruct (decide (n = 0%nat)) as [->|].
  - unfold bulk_catalog. cbn [seq foldl].
    assert (Hc : cat_ok R m (id + Z.of_nat 0) C 0) by (by rewrite Z.add_0_r).
    apply (bulk_step m C 0) in Hc; [|lia|by apply Hfresh; lia].
    unfold bulk_ops. cbn [seq fmap list_fmap concat]. by rewrite app_nil_r.
  - rewrite bulk_ops_S. unfold bulk_catalog. rewrite seq_S, foldl_app. cbn [foldl Nat.add].
    apply bulk_step; [apply IH; [lia..|]; intros; apply Hfresh; lia|lia|].
    apply bulk_catalog_fresh; [lia|lia|apply Hfresh; lia].
Qed.
End provisioning.

Section bulk_spec.
  Context {S : Type} `{StorageLaws S}.
  Context (R : gmap Z phase).
  Implicit Types (srv : server S) (C : catalog).

(** What of the invariant is not about the store. *)
Definition rest_ok srv (next : Z) C : Prop :=
  (∀ p st, srv_registry srv !! p = Some st →
    ∃ e, C !! p = Some e ∧ e_gone e = false ∧ mem_rep st p (e_meta e) (e_state e) ∧ published st (e_state e)) ∧
  Forall (started_ok next C) (srv_deleting srv) ∧ gone_kept C.

Lemma rest_new srv next C p sm upd :
  rest_ok srv next C → C !! p = None → new_ok next C sm [] upd None →
  rest_ok srv (next + 1) (<[p:=new_entry sm []]> C).
Proof.
  intros (Hres & Hdel & Hkept) Hp Hnew. pose proof (no_id _ _ _ _ _ _ Hnew) as Hid. split_and!.
  - intros q st Hq. destruct (Hres q st Hq) as (e & He & Hr). exists e.
    split; [|done]. rewrite lookup_insert_ne; [done|]. intros ->. congruence.
  - eapply Forall_impl; [exact Hdel|]. intros i (? & ? & Hl). split_and!; [done|lia|].
    rewrite (live_insert _ _ _ _ _ _ _ Hp Hnew). intros [?| ->]; [done|lia].
  - intros q e [[<- <-]|[? He]]%lookup_insert_Some Hg; [done|].
    rewrite forks_insert_new by done. pose proof (Hkept q e He Hg). case_decide; lia.
Qed.

Lemma bulk_rest srv prefix contentType start id nowUnix nowMs C n :
  len contentType < 2^16 → is_i64 nowUnix ∧ is_i64 nowMs → 0 ≤ start → 1 ≤ id →
  id + Z.of_nat n < 2^64 → start + Z.of_nat n < 2^64 →
  rest_ok srv id C → (∀ i, (i < n)%nat → C !! bulk_path prefix (start + Z.of_nat i) = None) →
  rest_ok srv (id + Z.of_nat n) (bulk_catalog C prefix contentType start id nowMs n).
Proof.
  intros Hct Hnow Hst Hid Hidn Hstn Hr Hf. induction n as [|n IH]; [by rewrite Z.add_0_r|].
  unfold bulk_catalog. rewrite seq_S, foldl_app. cbn [foldl Nat.add].
  replace (id + Z.of_nat (Datatypes.S n)) with (id + Z.of_nat n + 1) by lia.
  apply (rest_new _ _ _ _ _ nowUnix); [apply IH; [lia|lia|intros; apply Hf; lia]| |].
  - apply bulk_catalog_fresh; [lia|lia|lia|apply Hf; lia].
  - apply bulk_new_ok; [done|done|lia|lia].
Qed.

(** The entries of the batch. *)
Lemma bulk_catalog_lookup C prefix contentType start id nowMs n p :
  0 ≤ start → start + Z.of_nat n < 2^64 →
  (∀ i, (i < n)%nat → p ≠ bulk_path prefix (start + Z.of_nat i)) ∧
    bulk_catalog C prefix contentType start id nowMs n !! p = C !! p ∨
  ∃ i, (i < n)%nat ∧ p = bulk_path prefix (start + Z.of_nat i) ∧
    bulk_catalog C prefix contentType start id nowMs n !! p = Some (bulk_entry id contentType nowMs i).
Proof.
  intros Hst Hn. induction n as [|n IH]; [left; split; [lia|done]|].
  unfold bulk_catalog. rewrite seq_S, foldl_app. cbn [foldl Nat.add].
  destruct (decide (p = bulk_path prefix (start + Z.of_nat n))) as [->|Hne].
  { right. exists n. split_and!; [lia|done|apply lookup_insert_eq]. }
  rewrite lookup_insert_ne by done. destruct (IH ltac:(lia)) as [[H1 H2]|(i & ? & ? & ?)].
  - left. split; [|done]. intros i Hi. destruct (decide (i = n)) as [->|]; [done|apply H1; lia].
  - right. exists i. split_and!; [lia|done..].
Qed.

(** One batch: [n] streams more. *)
Lemma bulk_batch_ok srv C nowUnix nowMs prefix start n contentType :
  server_ok R srv C → len contentType < 2^16 → is_i64 nowUnix ∧ is_i64 nowMs → 0 ≤ start → 0 < n →
  srv_nextID srv + n < 2^64 → start + n < 2^64 →
  (∀ i, start ≤ i < start + n → C !! bulk_path prefix i = None) →
  let '(srv', err) := bulkProvisionBatch srv nowUnix nowMs prefix start n contentType in
  err = None ∧ srv_nextID srv' = srv_nextID srv + n ∧
  server_ok R srv' (bulk_catalog C prefix contentType start (srv_nextID srv) nowMs (Z.to_nat n)).
Proof.
  intros [[Hh Hcat Hres Hdel] Hkept] Hct Hnow Hst Hn Hid Hstn Hf. unfold bulkProvisionBatch.
  destruct (store_Commit (srv_store srv) _ true) as [s' err] eqn:E.
  apply healthy_commit in E as (-> & Hh' & Hv); [|done]. pose proof (co_next _ _ _ _ Hcat) as Hnext.
  assert (Hf' : ∀ i, (i < Z.to_nat n)%nat → C !! bulk_path prefix (start + Z.of_nat i) = None)
    by (intros; apply Hf; lia).
  assert (Hu : u64 (srv_nextID srv + n) = srv_nextID srv + n) by (apply u64_small; unfold is_u64; lia).
  split; [done|]. split; [done|].
  assert (Hrest : rest_ok srv (srv_nextID srv) C) by done.
  apply (bulk_rest srv prefix contentType start (srv_nextID srv) nowUnix nowMs C (Z.to_nat n)) in Hrest;
    [|done|done|lia|lia|lia|lia|done].
  rewrite Z2Nat.id in Hrest by lia. destruct Hrest as (Hres' & Hdel' & Hkept').
  split; [|done]. split; cbn [set_nextID set_store srv_store srv_nextID srv_registry srv_deleting];
    [done| |done|by rewrite Hu].
  rewrite Hu, Hv. replace (srv_nextID srv + n) with (srv_nextID srv + Z.of_nat (Z.to_nat n)) by lia.
  apply (bulk_cat R prefix contentType start (srv_nextID srv) nowUnix nowMs); (done || lia).
Qed.

Lemma bulk_loop_ok clock prefix contentType count batch fuel : ∀ srv C start batches,
  server_ok R srv C → len contentType < 2^16 → (∀ b, is_i64 (clock b).1 ∧ is_i64 (clock b).2) →
  0 ≤ start → 0 < batch → srv_nextID srv + (0 `max` (count - start)) < 2^64 → count < 2^63 →
  (∀ i, start ≤ i < count → C !! bulk_path prefix i = None) → (Z.to_nat (count - start) < fuel)%nat →
  ∃ srv' C', bulk_loop fuel srv clock prefix contentType count batch start batches
      = (srv', Some (batches + (0 `max` (count - start) + batch - 1) / batch)) ∧
    server_ok R srv' C' ∧ srv_nextID srv' = srv_nextID srv + (0 `max` (count - start)) ∧
    (∀ p, (∀ i, start ≤ i < count → p ≠ bulk_path prefix i) → C' !! p = C !! p) ∧
    (∀ i, start ≤ i < count → ∃ ms,
       C' !! bulk_path prefix i = Some (new_entry (bulk_meta (srv_nextID srv + (i - start)) contentType ms) [])).
Proof.
  induction fuel as [|fuel IH]; intros srv C start batches Hs Hct Hclock Hst Hb Hid Hcnt Hf Hfuel; [lia|].
  cbn [bulk_loop]. destruct (decide (start < count)) as [Hlt|Hge].
  2:{ exists srv, C. rewrite Z.max_l by lia. rewrite Z.add_0_l, (Z.div_small (batch - 1)) by lia.
      rewrite !Z.add_0_r. split_and!; [done|done|done|done|]. intros i Hi. lia. }
  set (n := if decide (count < start + batch) then count - start else batch).
  assert (Hn : 0 < n ≤ count - start ∧ n ≤ batch) by (unfold n; case_decide; lia).
  pose proof (Hclock batches) as Hcl. destruct (clock batches) as [nowUnix nowMs]. cbn [fst snd] in Hcl.
  pose proof (bulk_batch_ok srv C nowUnix nowMs prefix start n contentType Hs Hct Hcl Hst
    ltac:(lia) ltac:(lia) ltac:(lia) ltac:(intros; apply Hf; lia)) as Hbatch.
  destruct (bulkProvisionBatch srv nowUnix nowMs prefix start n contentType) as [srv1 err].
  destruct Hbatch as (-> & Hn1 & Hs1). set (C1 := bulk_catalog _ _ _ _ _ _ _) in Hs1.
  assert (Hlk : ∀ p, (∀ i, start ≤ i < start + n → p ≠ bulk_path prefix i) → C1 !! p = C !! p).
  { intros p Hp. destruct (bulk_catalog_lookup C prefix contentType start (srv_nextID srv) nowMs (Z.to_nat n) p)
      as [[_ ?]|(i & ? & -> & _)]; [lia|lia|done|]. exfalso. eapply Hp; [|done]. lia. }
  destruct (IH srv1 C1 (start + batch) (batches + 1)) as (srv' & C' & Hloop & Hs' & Hn' & Hother & Hnew);
    [done|done|done|lia|done| |done| |lia|].
  { rewrite Hn1. unfold n in *. case_decide; lia. }
  { intros i Hi. rewrite Hlk; [apply Hf; lia|]. intros j Hj E. apply bulk_path_inj in E; unfold is_u64; lia. }
  exists srv', C'. rewrite Hloop. split_and!; [|done|rewrite Hn', Hn1; unfold n in *; case_decide; lia| |].
  - f_equal. f_equal. unfold n in *. case_decide.
    + rewrite (Z.max_l 0 (count - (start + batch))), (Z.max_r 0 (count - start)) by lia.
      rewrite Z.add_0_l, (Z.div_small (batch - 1)) by lia.
      replace (count - start + batch - 1) with (1 * batch + (count - start - 1)) by lia.
      rewrite Z.div_add_l, (Z.div_small (count - start - 1)) by lia. lia.
    + rewrite !Z.max_r by lia. replace (count - start + batch - 1) with (1 * batch + (count - (start + batch) + batch - 1)) by lia.
      rewrite Z.div_add_l by lia. lia.
  - intros p Hp. rewrite Hother by (intros i Hi; apply Hp; lia). apply Hlk. intros i Hi. apply Hp. lia.
  - intros i Hi. destruct (decide (i < start + batch)) as [Hin|].
    + assert (Hi' : i < start + n) by (unfold n; case_decide; lia).
      exists nowMs. rewrite Hother.
      2:{ intros j Hj E. apply bulk_path_inj in E; unfold is_u64; lia. }
      destruct (bulk_catalog_lookup C prefix contentType start (srv_nextID srv) nowMs (Z.to_nat n) (bulk_path prefix i))
        as [[Hne _]|(k & Hk & E & Hlkp)]; [lia|lia| |].
      * exfalso. apply (Hne (Z.to_nat (i - start))); [lia|]. f_equal. lia.
      * apply bulk_path_inj in E; [|unfold is_u64; lia..]. unfold C1. rewrite Hlkp. unfold bulk_entry.
        do 4 f_equal. lia.
    + destruct (Hnew i ltac:(lia)) as [ms Hms]. exists ms. rewrite Hms. do 3 f_equal.
      unfold n in *. case_decide; lia.
Qed.

(** Provisioning creates exactly what is asked for. On fresh paths it answers
    with the count and the number of batches, each batch is one commit, and
    afterwards the catalogue has the empty streams [prefix0 .. prefix(count-1)] with
    the next ids, in order, and everything else as before, whatever the batch
    size. *)
Theorem bulk_provision_correct srv C clock r h q ct batch :
  server_ok R srv C → hr_method r = mPOST → bp_pathPrefix q ≠ [] → 0 < bp_count q < 2^63 →
  len (bp_contentType q) < 2^16 → (∀ b, is_i64 (clock b).1 ∧ is_i64 (clock b).2) →
  srv_nextID srv + bp_count q < 2^64 →
  (∀ i, 0 ≤ i < bp_count q → C !! bulk_path (bp_pathPrefix q) i = None) →
  ct = (if decide (bp_contentType q = []) then defaultContentType else bp_contentType q) →
  batch = (if decide (bp_batchSize q ≤ 0) then defaultBulkProvisionBatch else bp_batchSize q) →
  ∃ srv' C' hd,
    HandleBulkProvision srv clock r h (Some q)
      = (srv', BulkDone hd (bp_count q) ((bp_count q + batch - 1) / batch)) ∧
    server_ok R srv' C' ∧ srv_nextID srv' = srv_nextID srv + bp_count q ∧
    (∀ p, (∀ i, 0 ≤ i < bp_count q → p ≠ bulk_path (bp_pathPrefix q) i) → C' !! p = C !! p) ∧
    (∀ i, 0 ≤ i < bp_count q → ∃ ms,
       C' !! bulk_path (bp_pathPrefix q) i = Some (new_entry (bulk_meta (srv_nextID srv + i) ct ms) [])).
Proof.
  intros Hs Hm Hp Hc Hct Hclock Hid Hf Ect Ebatch. unfold HandleBulkProvision.
  rewrite (decide_False (P := hr_method r ≠ mPOST)) by auto.
  rewrite (decide_False (P := _ ∨ _)) by (intros [?|?]; [done|lia]). rewrite <-Ect, <-Ebatch.
  assert (Hctl : len ct < 2^16) by (rewrite Ect; destruct (decide (bp_contentType q = [])); [by vm_compute|done]).
  assert (Hb : 0 < batch)
    by (rewrite Ebatch; unfold defaultBulkProvisionBatch; destruct (decide (bp_batchSize q ≤ 0)); lia).
  destruct (bulk_loop_ok clock (bp_pathPrefix q) ct (bp_count q) batch (Datatypes.S (Z.to_nat (bp_count q)))
    srv C 0 0) as (srv' & C' & Hloop & Hs' & Hn' & Hother & Hnew);
    [done|done|done|lia|done|lia|lia|done|lia|].
  rewrite Z.sub_0_r, Z.max_r in Hloop, Hn' by lia. rewrite Hloop, Z.add_0_l.
  exists srv', C'. eexists. split_and!; [done|done|done|done|].
  intros i Hi. destruct (Hnew i Hi) as [ms Hms]. exists ms. by rewrite Hms, Z.sub_0_r.
Qed.
End bulk_spec.

(** ** Witnesses *)

Module AdminSample.
Definition post : request :=
  mkRequest mPOST adminStreamsPath (λ _, []) (λ _, []) [] false [] false.
Definition query : bulkProvisionRequest :=
  {| bp_pathPrefix := ["b"%byte]; bp_count := 5; bp_contentType := []; bp_batchSize := 2 |}.
End AdminSample.

Lemma listing_complete_witness :
  ∃ fuel pages, all_pages fuel LifeSample.srv1 1 [] = Ok pages ∧
    (entry_info LifeSample.srv1 (LifeSample.path, LifeSample.entry1) ∈ concat pages).
Proof.
  destruct (listing_complete ∅ LifeSample.srv1 LifeSample.C1 1) as (fuel & pages & Hp & _ & _ & Hall).
  - apply LifeSample.srv1_ok.
  - lia.
  - reflexivity.
  - exists fuel, pages. split; [exact Hp|]. apply Hall. exists LifeSample.path, LifeSample.entry1.
    split; reflexivity.
Defined.

Lemma bulk_provision_correct_witness :
  ∃ srv' C' hd,
    HandleBulkProvision LifeSample.srv0 (λ _, (100, 100000)) AdminSample.post ∅ (Some AdminSample.query)
      = (srv', BulkDone hd 5 3) ∧ server_ok ∅ srv' C' ∧ srv_nextID srv' = 6.
Proof.
  destruct (bulk_provision_correct ∅ LifeSample.srv0 ∅ (λ _, (100, 100000)) AdminSample.post ∅ AdminSample.query
    defaultContentType 2)
    as (srv' & C' & hd & H1 & H2 & H3 & _).
  - apply LifeSample.srv0_ok.
  - reflexivity.
  - discriminate.
  - cbn. lia.
  - cbn. lia.
  - intros b. unfold is_i64. cbn. lia.
  - cbn. lia.
  - intros i _. apply lookup_empty.
  - reflexivity.
  - reflexivity.
  - exists srv', C', hd. split; [exact H1|]. split; [exact H2|exact H3].
Defined.
