(* ===== verification/System.v ===== *)
(** * The whole system: every operation, in any order

    The components' theorems are about one operation each. Here the operations
    are the events of one system: requests (creation, fork, append, burst,
    deletion), the deadline slid for a read, the expiry sweep, provisioning, the workers that come and go, the
    background deletions one chunk at a time between everything else, and the
    restart of the process on the store it left. [sys_exec] runs an event with
    the components' own definitions, [event_ok] bounds its arguments to the
    ranges of their types, and the theorem says what every finite run keeps. Each
    event is one step; Worker.v opens up those of a streamer. *)

From S2P Require Import Prelude.
From S2P Require Import Bytes.
From S2P Require Import Keys.
From S2P Require Import Meta.
From S2P Require Import Offset.
From S2P Require Import Storage.
From S2P Require Import Loads.
From S2P Require Import Batch.
From S2P Require Import Mime.
From S2P Require Import Json.
From S2P Require Import Read.
From S2P Require Import LiveCache.
From S2P Require Import Streamer.
From S2P Require Import StreamSpec.
From S2P Require Import StreamerRefine.
From S2P Require Import Deleter.
From S2P Require Import Server.
From S2P Require Import Expiry.
From S2P Require Import Fork.
From S2P Require Import Public.
From S2P Require Import Catalog.
From S2P Require Import Lifecycle.
From S2P Require Import ForkSpec.
From S2P Require Import PublicSpec.
From S2P Require Import Admin.
From S2P Require Import AdminSpec.

(** ** The system *)

(** The server, and where its running background deletions stand. *)
Record world (S : Type) : Type := mkWorld {
  w_srv : server S;
  w_run : gmap Z phase }.
Arguments mkWorld {S} _ _.
Arguments w_srv {S} _.
Arguments w_run {S} _.

Inductive event : Type :=
| EvCreate (nowUnix nowMs : Z) (p : createParams)
| EvFork (nowUnix nowMs : Z) (p : forkParams)
| EvAppend (now : Z) (path : bytes) (records : list bytes) (close : bool)
| EvBurst (now : Z) (path : bytes) (batch : list appendReq)
| EvRefresh (now : Z) (path : bytes)    (** the deadline slides: the stream was read *)
| EvSpawn (path : bytes)                (** a worker is started for a stream in use *)
| EvRetire (path : bytes)               (** and stopped when it is not *)
| EvDelete (path : bytes)
| EvSweep (now : Z)
| EvProvision (nowUnix nowMs : Z) (prefix : bytes) (start n : Z) (contentType : bytes)
| EvDeletionStart (id : Z)              (** a background deletion's first action *)
| EvDeletionChunk (id : Z)              (** and each further one *)
| EvRestart (cfg : cacheConfig).

Section system.
  Context {S : Type} `{StorageLaws S}.
  Implicit Types (w : world S) (C : catalog).

Definition sys_exec w (ev : event) : world S :=
  let srv := w_srv w in
  let on srv' := mkWorld srv' (w_run w) in
  match ev with
  | EvCreate nowUnix nowMs p => on (createStream srv nowUnix nowMs p).1
  | EvFork nowUnix nowMs p => on (createFork srv nowUnix nowMs p).1
  | EvAppend now path records close => on (appendOrClose srv now path records close).1
  | EvBurst now path batch => on (burst srv path now batch).1
  | EvRefresh now path => on (readRefresh srv path now)
  | EvSpawn path => on (getOrSpawn srv path).1
  | EvRetire path => on (removeStreamer srv path)
  | EvDelete path => on (deleteStream srv path).1
  | EvSweep now => on (sweepOnce srv now)
  | EvProvision nowUnix nowMs prefix start n ct =>
      on (bulkProvisionBatch srv nowUnix nowMs prefix start n ct).1
  | EvDeletionStart id =>
      match w_run w !! id with
      | Some _ => w
      | None =>
          if decide (id ∈ srv_deleting srv)
          then mkWorld srv (<[id := delete_start (srv_store srv) id]> (w_run w)) else w
      end
  | EvDeletionChunk id =>
      match w_run w !! id with
      | Some ph =>
          let '(s', ph') := delete_step (srv_store srv) id ph in
          mkWorld (set_store s' srv) (<[id := ph']> (w_run w))
      | None => w
      end
  | EvRestart cfg =>
      match NewServer (srv_store srv) cfg with Ok srv' => mkWorld srv' ∅ | Err _ => w end
  end.

Definition sys_ok w C : Prop := server_ok (w_run w) (w_srv w) C.

(** The arguments of an event are in the ranges of their types, and leave room
    for the offsets and ids it takes. A worker is started for a stream in use: the
    one caller that does not see to it is [Tail], and what comes of that is
    [tail_reopens_soft_deleted] of PublicSpec.v. Provisioning is for paths that are
    free, which its caller is told to see to. *)
Definition event_ok w C (ev : event) : Prop :=
  match ev with
  | EvCreate nowUnix nowMs p => create_wf (w_srv w) nowUnix nowMs p
  | EvFork nowUnix nowMs p =>
      fork_wf (w_srv w) C nowUnix nowMs p ∧
      ∃ L, ∀ src, C !! fp_sourcePath p = Some src → reads C src L
  | EvAppend now path records close =>
      ∀ e, C !! path = Some e →
        is_i64 now ∧ ttl_in_range (TTLSeconds (e_meta e)) now ∧ a_tail (e_state e) + len records < 2^63
  | EvBurst now path batch =>
      ∀ e, C !! path = Some e → burst_ok (e_meta e) (e_state e) now batch
  | EvRefresh now path => ∀ e, C !! path = Some e → ttl_in_range (TTLSeconds (e_meta e)) now
  | EvSpawn path => from_option e_gone false (C !! path) = false
  | EvSweep now => 0 ≤ now < 2^63
  | EvProvision nowUnix nowMs prefix start n ct =>
      len ct < 2^16 ∧ (is_i64 nowUnix ∧ is_i64 nowMs) ∧ 0 ≤ start ∧ 0 < n ∧
      srv_nextID (w_srv w) + n < 2^64 ∧ start + n < 2^64 ∧
      ∀ i, start ≤ i < start + n → C !! bulk_path prefix i = None
  | EvRetire _ | EvDelete _ | EvDeletionStart _ | EvDeletionChunk _ | EvRestart _ => True
  end.

(** A run: whatever the catalogue the system stands for, each event's arguments are in range. *)
Inductive sys_run : world S → list event → world S → Prop :=
| sys_run_nil w : sys_run w [] w
| sys_run_cons w ev evs w' :
    (∀ C, sys_ok w C → event_ok w C ev) → sys_run (sys_exec w ev) evs w' →
    sys_run w (ev :: evs) w'.

End system.

(** ** What a run keeps *)

(** A stream only grows, and its deadline is only put off; of a closed one nothing
    else changes, and of a soft-deleted one nothing. *)
Record grows (e e' : entry) : Prop := {
  gr_meta : e_meta e' = e_meta e;
  gr_base : a_base (e_state e') = a_base (e_state e);
  gr_log : a_log (e_state e) `prefix_of` a_log (e_state e');
  gr_deadline : a_deadline (e_state e) ≤ a_deadline (e_state e');
  gr_closed : a_closed (e_state e) = true →
    e_state e' = with_deadline (a_deadline (e_state e')) (e_state e);
  gr_gone : e_gone e = true → e' = e }.

(** Ids grow, and a stream that has an old id is the one that had it, where it was. *)
Record evolves (next : Z) (C : catalog) (next' : Z) (C' : catalog) : Prop := {
  ev_next : next ≤ next';
  ev_old : ∀ p e', C' !! p = Some e' →
    (∃ e, C !! p = Some e ∧ grows e e') ∨ next ≤ e_id e' < next' }.

(** The events that leave the stream at [p] in place: only its own deletion
    and the sweep remove a stream that is not soft-deleted. *)
Definition spares (p : bytes) (ev : event) : Prop :=
  match ev with EvDelete q => q ≠ p | EvSweep _ => False | _ => True end.

Definition kept (p : bytes) (C C' : catalog) : Prop :=
  ∀ e, C !! p = Some e → e_gone e = false →
    ∃ e', C' !! p = Some e' ∧ e_gone e' = false ∧ grows e e'.

Lemma with_deadline_same a : with_deadline (a_deadline a) a = a.
Proof. by destruct a. Qed.

Lemma grows_flag e e' :
  e_meta e' = e_meta e → e_state e' = e_state e → (e_gone e = true → e' = e) → grows e e'.
Proof. intros Hm Hs Hg. split; rewrite ?Hs; done || lia || by rewrite with_deadline_same. Qed.

Lemma grows_refl e : grows e e.
Proof. by apply grows_flag. Qed.

Lemma grows_trans e1 e2 e3 : grows e1 e2 → grows e2 e3 → grows e1 e3.
Proof.
  intros [Hm1 Hb1 Hl1 Hd1 Hc1 Hg1] [Hm2 Hb2 Hl2 Hd2 Hc2 Hg2].
  split; [congruence|congruence|by etrans|lia|..].
  - intros Hc. specialize (Hc1 Hc). rewrite Hc2 by (by rewrite Hc1). by rewrite Hc1.
  - intros Hg. specialize (Hg1 Hg) as ->. by apply Hg2.
Qed.

Lemma evolves_refl next C : evolves next C next C.
Proof. split; [lia|]. intros p e Hp. left. exists e. split; [done|apply grows_refl]. Qed.

Lemma evolves_trans n1 C1 n2 C2 n3 C3 : evolves n1 C1 n2 C2 → evolves n2 C2 n3 C3 → evolves n1 C1 n3 C3.
Proof.
  intros [Hn1 Ho1] [Hn2 Ho2]. split; [lia|]. intros p e3 Hp.
  destruct (Ho2 p e3 Hp) as [(e2 & Hp2 & Hg2)|?]; [|right; lia].
  destruct (Ho1 p e2 Hp2) as [(e1 & Hp1 & Hg1)|?].
  - left. exists e1. split; [done|by eapply grows_trans].
  - right. unfold e_id in *. rewrite (gr_meta _ _ Hg2). lia.
Qed.

Lemma evolves_sub next C C' : C' ⊆ C → evolves next C next C'.
Proof.
  intros Hs. split; [lia|]. intros p e Hp. left. exists e.
  split; [by eapply lookup_weaken|apply grows_refl].
Qed.

Lemma evolves_update next C p e e' : C !! p = Some e → grows e e' → evolves next C next (<[p:=e']> C).
Proof.
  intros Hp Hg. split; [lia|]. intros q f [[<- <-]|[? Hq]]%lookup_insert_Some; left;
    [by exists e|exists f; split; [done|apply grows_refl]].
Qed.

Lemma evolves_new next C p e : e_id e = next → evolves next C (next + 1) (<[p:=e]> C).
Proof.
  intros Hid. split; [lia|]. intros q f [[<- <-]|[? Hq]]%lookup_insert_Some; [right; lia|].
  left. exists f. split; [done|apply grows_refl].
Qed.

Lemma kept_refl p C : kept p C C.
Proof. intros e Hp Hg. exists e. split_and!; [done..|apply grows_refl]. Qed.

Lemma kept_trans p C1 C2 C3 : kept p C1 C2 → kept p C2 C3 → kept p C1 C3.
Proof.
  intros H1 H2 e Hp Hg. destruct (H1 e Hp Hg) as (e2 & Hp2 & Hg2 & Hr2).
  destruct (H2 e2 Hp2 Hg2) as (e3 & ? & ? & ?). exists e3. split_and!; [done..|by eapply grows_trans].
Qed.

Lemma kept_insert p C q e' :
  (∀ e, C !! q = Some e → e_gone e = false → e_gone e' = false ∧ grows e e') → kept p C (<[q:=e']> C).
Proof.
  intros Hq e Hp Hg. destruct (decide (p = q)) as [->|Hne].
  - destruct (Hq e Hp Hg). exists e'. by rewrite lookup_insert_eq.
  - exists e. rewrite lookup_insert_ne by done. split_and!; [done..|apply grows_refl].
Qed.

(** *** The states a burst leads to *)

Lemma grows_run e now reqs :
  e_gone e = false → ttl_in_range (TTLSeconds (e_meta e)) now → is_u64 (a_deadline (e_state e)) →
  grows e (with_state e (spec_run (ContentType (e_meta e)) (TTLSeconds (e_meta e)) now (e_state e) reqs).1).
Proof.
  intros Hg Ht Hd. split; simpl; [done|apply spec_run_base|apply spec_run_log_prefix| | |congruence].
  - by apply spec_run_deadline.
  - intros Hc. by rewrite spec_run_closed, with_deadline_same.
Qed.

Lemma grows_append now e records close :
  e_gone e = false → ttl_in_range (TTLSeconds (e_meta e)) now → is_u64 (a_deadline (e_state e)) →
  grows e (with_state e (public_append now e records close)).
Proof.
  intros Hg Ht Hd. unfold public_append. destruct (a_closed (e_state e)) eqn:Hc.
  - apply grows_flag; [done..|congruence].
  - split; simpl; try done; [by apply prefix_app_r|by apply slideTTL_bounds|congruence|congruence].
Qed.

Lemma grows_refresh now e :
  e_gone e = false → ttl_in_range (TTLSeconds (e_meta e)) now → is_u64 (a_deadline (e_state e)) →
  grows e (with_state e
    (with_deadline (slideTTL (TTLSeconds (e_meta e)) now (a_deadline (e_state e))) (e_state e))).
Proof. intros Hg Ht Hd. split; simpl; try done; [by apply slideTTL_bounds|congruence]. Qed.

(** ** One event at a time *)

Section steps.
  Context {S : Type} `{StorageLaws S}.
  Implicit Types (w : world S) (C : catalog) (srv : server S).

(** What an event does to a catalogue. *)
Definition step_ok w C (ev : event) : Prop :=
  let w' := sys_exec w ev in
  ∃ C', sys_ok w' C' ∧ evolves (srv_nextID (w_srv w)) C (srv_nextID (w_srv w')) C' ∧
    ∀ p, spares p ev → kept p C C'.

(** An event that no stream can tell from nothing. *)
Definition same_ok w C (ev : event) : Prop :=
  sys_ok (sys_exec w ev) C ∧ srv_nextID (w_srv (sys_exec w ev)) = srv_nextID (w_srv w).

Lemma step_same w C ev : same_ok w C ev → step_ok w C ev.
Proof.
  intros [Hs Hn]. exists C. rewrite Hn. split_and!; [done|apply evolves_refl|intros p _; apply kept_refl].
Qed.

Lemma step_new w C ev p e :
  C !! p = None → e_id e = srv_nextID (w_srv w) → sys_ok (sys_exec w ev) (<[p:=e]> C) →
  srv_nextID (w_srv (sys_exec w ev)) = srv_nextID (w_srv w) + 1 → step_ok w C ev.
Proof.
  intros Hp Hid Hs Hn. exists (<[p:=e]> C). rewrite Hn. split_and!; [done|by apply evolves_new|].
  intros q _. apply kept_insert. congruence.
Qed.

Lemma step_update w C ev p e e' :
  C !! p = Some e → grows e e' → e_gone e' = e_gone e → sys_ok (sys_exec w ev) (<[p:=e']> C) →
  srv_nextID (w_srv (sys_exec w ev)) = srv_nextID (w_srv w) → step_ok w C ev.
Proof.
  intros Hp Hg He Hs Hn. exists (<[p:=e']> C). rewrite Hn. split_and!; [done|by eapply evolves_update|].
  intros q _. apply kept_insert. intros f Hf Hfg. assert (f = e) as -> by congruence. by rewrite He.
Qed.

Lemma step_create w C nowUnix nowMs p :
  sys_ok w C → create_wf (w_srv w) nowUnix nowMs p → step_ok w C (EvCreate nowUnix nowMs p).
Proof.
  intros Hs Hw. pose proof (createStream_ok _ _ C nowUnix nowMs p Hs Hw) as Hc.
  destruct (createStream (w_srv w) nowUnix nowMs p) as [srv' res] eqn:E.
  assert (Hx : sys_exec w (EvCreate nowUnix nowMs p) = mkWorld srv' (w_run w)) by (simpl; by rewrite E).
  destruct (C !! cp_path p) as [e|] eqn:Hp; [destruct Hc as [-> _]; apply step_same; split; by rewrite Hx|].
  destruct (createRecords _ _) as [bad|rs]; [destruct Hc as [-> _]; apply step_same; split; by rewrite Hx|].
  destruct Hc as (Hs' & Hn & _). eapply step_new; [exact Hp| |by rewrite Hx|by rewrite Hx]. done.
Qed.

Lemma step_fork w C nowUnix nowMs p :
  sys_ok w C → event_ok w C (EvFork nowUnix nowMs p) → step_ok w C (EvFork nowUnix nowMs p).
Proof.
  intros Hs [Hw [L HL]]. pose proof (createFork_ok _ C nowUnix nowMs p L Hs Hw HL) as Hc.
  destruct (createFork (w_srv w) nowUnix nowMs p) as [srv' res] eqn:E.
  assert (Hx : sys_exec w (EvFork nowUnix nowMs p) = mkWorld srv' (w_run w)) by (simpl; by rewrite E).
  destruct Hc as (C' & next' & Ho & Hs' & Hn).
  destruct Ho as [| | | |src o sub dS dB recs Hp Hsrc Hg Eo Es Hdiv Hbody sm rs];
    try (apply step_same; split; by rewrite Hx).
  eapply step_new; [exact Hp| |by rewrite Hx|by rewrite Hx]. done.
Qed.

(** Only creation takes an id. *)
Lemma getOrSpawn_next srv p : srv_nextID (getOrSpawn srv p).1 = srv_nextID srv.
Proof.
  unfold getOrSpawn. destruct (srv_registry srv !! p); [done|].
  destruct (loadMeta _ _) as [[m|]|]; [|done|done]. by destruct (loadTailSeq _ _).
Qed.

Lemma burst_next srv p now batch : srv_nextID (burst srv p now batch).1 = srv_nextID srv.
Proof. unfold burst. destruct (srv_registry srv !! p); [|done]. by destruct (processBurst _ _ _ _) as [[? ?] ?]. Qed.

Lemma submitAppend_next srv now p req : srv_nextID (submitAppend srv now p req).1 = srv_nextID srv.
Proof.
  unfold submitAppend. pose proof (getOrSpawn_next srv p) as Hg.
  destruct (getOrSpawn srv p) as [srv1 [[st|]|e]]; [|exact Hg|exact Hg].
  pose proof (burst_next srv1 p now [req]) as Hb. destruct (burst srv1 p now [req]). simpl in *. congruence.
Qed.

Lemma resolveAppend_next srv p : srv_nextID (resolveAppend srv p).1 = srv_nextID srv.
Proof.
  unfold resolveAppend. destruct (srv_registry srv !! p); [done|].
  destruct (loadTombstone _ _) as [tomb|]; [|done]. destruct (soft_deleted tomb); [done|apply getOrSpawn_next].
Qed.

Lemma appendOrClose_next srv now p records close :
  srv_nextID (appendOrClose srv now p records close).1 = srv_nextID srv.
Proof.
  unfold appendOrClose. pose proof (resolveAppend_next srv p) as Hr.
  destruct (resolveAppend srv p) as [srv1 [[st|]|err]]; [|exact Hr|exact Hr].
  match goal with |- context [submitAppend srv1 now p ?req] =>
    pose proof (submitAppend_next srv1 now p req) as Hs; destruct (submitAppend srv1 now p req) as [srv2 [resp|]] end;
    simpl in *; congruence.
Qed.

Lemma deadline_in_range w C p e : sys_ok w C → C !! p = Some e → is_u64 (a_deadline (e_state e)).
Proof. intros [[_ Hcat _ _] _] Hp. apply (eo_wf _ _ _ _ (co_entry _ _ _ _ Hcat p e Hp)). Qed.

Lemma step_append w C now p records close :
  sys_ok w C → event_ok w C (EvAppend now p records close) → step_ok w C (EvAppend now p records close).
Proof.
  intros Hs Hw. pose proof (appendOrClose_ok _ _ C now p records close Hs Hw) as Hc.
  pose proof (appendOrClose_next (w_srv w) now p records close) as Hn.
  destruct (appendOrClose (w_srv w) now p records close) as [srv' r] eqn:E.
  assert (Hx : sys_exec w (EvAppend now p records close) = mkWorld srv' (w_run w)) by (simpl; by rewrite E).
  cbn [fst] in Hn. destruct (C !! p) as [e|] eqn:Hp.
  - destruct (e_gone e) eqn:Hg.
    + destruct Hc as [_ ->]. apply step_same; split; by rewrite Hx.
    + destruct Hc as [Hs' _]. destruct (Hw e Hp) as (_ & Httl & _).
      eapply step_update; [exact Hp|apply grows_append; [done..|by eapply deadline_in_range]| |by rewrite Hx..].
      done.
  - destruct Hc as [_ Hs']. apply step_same; split; by rewrite Hx.
Qed.

Lemma step_burst w C now p batch :
  sys_ok w C → event_ok w C (EvBurst now p batch) → step_ok w C (EvBurst now p batch).
Proof.
  intros Hs Hw. destruct (srv_registry (w_srv w) !! p) as [st|] eqn:Hst.
  - pose proof Hs as [[_ _ Hres _] _]. destruct (Hres p st Hst) as (e & Hp & Hg & _).
    pose proof (burst_server_ok _ _ C p e st now batch Hs Hp Hst (Hw e Hp)) as Hb.
    destruct (burst (w_srv w) p now batch) as [srv' resps] eqn:E.
    assert (Hx : sys_exec w (EvBurst now p batch) = mkWorld srv' (w_run w)) by (simpl; by rewrite E).
    destruct Hb as (Hs' & _ & Hn).
    destruct (Hw e Hp) as [_ Httl _ _].
    eapply step_update; [exact Hp|apply grows_run; [done..|by eapply deadline_in_range]| |by rewrite Hx..]. done.
  - assert (Hx : sys_exec w (EvBurst now p batch) = w) by (simpl; unfold burst; rewrite Hst; by destruct w).
    apply step_same; split; by rewrite Hx.
Qed.

Lemma step_refresh w C now p :
  sys_ok w C → event_ok w C (EvRefresh now p) → step_ok w C (EvRefresh now p).
Proof.
  intros Hs Hw. destruct (srv_registry (w_srv w) !! p) as [st|] eqn:Hst.
  - pose proof Hs as [[_ _ Hres _] _]. destruct (Hres p st Hst) as (e & Hp & Hg & _).
    specialize (Hw e Hp). destruct (readRefresh_ok _ _ C p e st now Hs Hp Hst Hw) as [Hs' Hn].
    eapply step_update; [exact Hp|apply grows_refresh; [done..|by eapply deadline_in_range]|done|exact Hs'|exact Hn].
  - apply step_same. assert (sys_exec w (EvRefresh now p) = w) as Hx
      by (simpl; unfold readRefresh; rewrite Hst; by destruct w).
    split; by rewrite Hx.
Qed.

Lemma same_spawn w C p :
  sys_ok w C → event_ok w C (EvSpawn p) → same_ok w C (EvSpawn p).
Proof.
  intros Hs Hw. pose proof (getOrSpawn_ok _ _ C p Hs Hw) as Hc.
  destruct (getOrSpawn (w_srv w) p) as [srv' r] eqn:E. destruct Hc as (Hs' & _ & Hn & _).
  assert (Hx : sys_exec w (EvSpawn p) = mkWorld srv' (w_run w)) by (simpl; by rewrite E).
  split; by rewrite Hx.
Qed.

Lemma same_retire w C p : sys_ok w C → same_ok w C (EvRetire p).
Proof.
  intros [[Hh Hcat Hres Hdel] Hk]. split; [|done]. split; [|done]. split; [done..| |done].
  intros q st Hq. cbn in Hq. apply lookup_delete_Some in Hq as [_ Hq]. by apply Hres.
Qed.

Lemma released_evolves next C sid C' : released C sid C' → evolves next C next C'.
Proof. intros [Hsub _]%released_keeps. by apply evolves_sub. Qed.

Lemma deleted_evolves next C p err C' : deleted C p err C' → evolves next C next C'.
Proof.
  destruct 1 as [|e|e Hp Hg Hf|e C' Hp Hg Hf Hr]; [apply evolves_refl..| |].
  - eapply evolves_update; [done|]. apply grows_flag; simpl; done || congruence.
  - eapply evolves_trans; [apply evolves_sub, (delete_subseteq C p)|by eapply released_evolves].
Qed.

Lemma deleted_kept q C p err C' : deleted C p err C' → p ≠ q → kept q C C'.
Proof.
  destruct 1 as [|e|e Hp Hg Hf|e C' Hp Hg Hf Hr]; intros Hne; [apply kept_refl..| |].
  - intros f Hq Hfg. exists f. rewrite lookup_insert_ne by done. split_and!; [done..|apply grows_refl].
  - intros f Hq Hfg. exists f. split_and!; [|done|apply grows_refl].
    apply released_keeps in Hr as [_ Hr]. apply Hr; [|done]. by rewrite lookup_delete_ne.
Qed.

Lemma step_delete w C p : sys_ok w C → step_ok w C (EvDelete p).
Proof.
  intros Hs. pose proof (deleteStream_ok _ _ C p Hs) as Hc.
  destruct (deleteStream (w_srv w) p) as [srv' err] eqn:E. destruct Hc as (C' & Hd & Hs' & Hn).
  assert (Hx : sys_exec w (EvDelete p) = mkWorld srv' (w_run w)) by (simpl; by rewrite E).
  exists C'. rewrite Hx. split_and!; [done|simpl; rewrite Hn; by eapply deleted_evolves|].
  intros q Hq. eapply deleted_kept; [done|]. simpl in Hq. done.
Qed.

Lemma step_sweep w C now : sys_ok w C → 0 ≤ now < 2^63 → step_ok w C (EvSweep now).
Proof.
  intros Hs Hnow. destruct (sweepOnce_ok _ _ C now Hs Hnow) as (C' & Hs' & Hn & Hsub & _).
  exists C'. split_and!; [done|simpl; rewrite Hn; by apply evolves_sub|by intros].
Qed.

Lemma step_provision w C nowUnix nowMs prefix start n ct :
  sys_ok w C → event_ok w C (EvProvision nowUnix nowMs prefix start n ct) →
  step_ok w C (EvProvision nowUnix nowMs prefix start n ct).
Proof.
  intros Hs (Hct & Hnow & Hst & Hn & Hid & Hstn & Hfree).
  pose proof (bulk_batch_ok _ _ C nowUnix nowMs prefix start n ct Hs Hct Hnow Hst Hn Hid Hstn Hfree) as Hc.
  destruct (bulkProvisionBatch (w_srv w) nowUnix nowMs prefix start n ct) as [srv' err] eqn:E.
  assert (Hx : sys_exec w (EvProvision nowUnix nowMs prefix start n ct) = mkWorld srv' (w_run w))
    by (simpl; by rewrite E).
  destruct Hc as (_ & Hn' & Hs'). eexists. rewrite Hx. split_and!; [exact Hs'| |].
  - split; cbn [w_srv]; [lia|]. intros p e' Hp.
    destruct (bulk_catalog_lookup C prefix ct start (srv_nextID (w_srv w)) nowMs (Z.to_nat n) p)
      as [[_ Hlk]|(i & Hi & _ & Hlk)]; [lia|lia| |].
    + left. exists e'. split; [congruence|apply grows_refl].
    + right. rewrite Hlk in Hp. apply (inj Some) in Hp as <-. unfold bulk_entry, e_id. simpl. lia.
  - intros p _ e Hp Hg. exists e. split_and!; [|done|apply grows_refl].
    destruct (bulk_catalog_lookup C prefix ct start (srv_nextID (w_srv w)) nowMs (Z.to_nat n) p)
      as [[_ Hlk]|(i & Hi & -> & _)]; [lia|lia|congruence|].
    rewrite Hfree in Hp by lia. done.
Qed.

Lemma same_deletion_start w C id : sys_ok w C → same_ok w C (EvDeletionStart id).
Proof.
  intros Hs. split.
  - simpl. destruct (w_run w !! id) eqn:Hr; [done|]. case_decide as Hid; [|done].
    pose proof Hs as [[Hh Hcat Hres Hdel] Hk].
    assert (Hst : started_ok (srv_nextID (w_srv w)) C id) by (rewrite Forall_forall in Hdel; by apply Hdel).
    eapply server_rerun; [exact Hs|]. intros i ph Hi. cbn in Hi. apply lookup_insert_Some in Hi as [[<- <-]|[_ Hi]].
    + split; [done|]. by eapply start_phase_ok.
    + by apply (co_running _ _ _ _ Hcat).
  - simpl. destruct (w_run w !! id); [done|]. by case_decide.
Qed.

Lemma same_deletion_chunk w C id : sys_ok w C → same_ok w C (EvDeletionChunk id).
Proof.
  intros Hs. pose proof Hs as [[_ Hcat _ _] _]. split; simpl.
  - destruct (w_run w !! id) as [ph|] eqn:Hr; [|done].
    destruct (co_running _ _ _ _ Hcat id ph Hr) as [Hst Hph].
    pose proof (chunk_server_ok _ _ C id ph Hs Hst Hph) as Hc. by destruct (delete_step _ _ _) as [s' ph'].
  - destruct (w_run w !! id) as [ph|]; [|done]. by destruct (delete_step _ _ _) as [s' ph'].
Qed.

Lemma same_restart w C cfg : sys_ok w C → same_ok w C (EvRestart cfg).
Proof.
  intros Hs. destruct (NewServer_ok _ _ C cfg Hs) as (srv' & E & Hs' & Hn & _).
  assert (Hx : sys_exec w (EvRestart cfg) = mkWorld srv' ∅) by (simpl; by rewrite E).
  split; by rewrite Hx.
Qed.

(** Workers that come and go, reclamation, and the process killed and started again. *)
Definition quiet (ev : event) : bool :=
  match ev with
  | EvSpawn _ | EvRetire _ | EvDeletionStart _ | EvDeletionChunk _ | EvRestart _ => true
  | _ => false
  end.

Lemma quiet_ok w C ev : quiet ev = true → sys_ok w C → event_ok w C ev → same_ok w C ev.
Proof.
  intros Hq Hs Hev. destruct ev; try discriminate Hq;
    [by apply same_spawn|by apply same_retire|by apply same_deletion_start|by apply same_deletion_chunk
    |by apply same_restart].
Qed.

Lemma sys_step_ok w C ev : sys_ok w C → event_ok w C ev → step_ok w C ev.
Proof.
  intros Hs Hev. destruct (quiet ev) eqn:Hq; [by apply step_same, quiet_ok|].
  destruct ev; simpl in Hev; try discriminate Hq;
    [by apply step_create|by apply step_fork|by apply step_append|by apply step_burst|by apply step_refresh
    |by apply step_delete|by apply step_sweep|by apply step_provision].
Qed.

(** ** Properties *)

(** C3: the system's state stays well formed, and streams are never mixed up.
    From a good state, every run of requests, reads, sweeps, provisioning, workers,
    background deletions interleaved chunk by chunk, and restarts ends in a
    good state: ids are never given out twice, a path that shows an old id shows
    the stream that had it, with the same configuration and its log extended at
    the end only and its deadline only put off, a closed stream has not otherwise
    changed nor a soft-deleted one at all, and a run without the sweep or a deletion
    of it keeps a stream in use. *)
Theorem system_preserves w C evs w' :
  sys_ok w C → sys_run w evs w' →
  ∃ C', sys_ok w' C' ∧ evolves (srv_nextID (w_srv w)) C (srv_nextID (w_srv w')) C' ∧
    ∀ p, Forall (spares p) evs → kept p C C'.
Proof.
  intros Hs Hrun. revert C Hs. induction Hrun as [w|w ev evs w' Hev Hrun IH]; intros C Hs.
  - exists C. split_and!; [done|apply evolves_refl|intros; apply kept_refl].
  - destruct (sys_step_ok w C ev Hs (Hev C Hs)) as (C1 & Hs1 & He1 & Hk1).
    destruct (IH C1 Hs1) as (C' & Hs' & He' & Hk'). exists C'.
    split_and!; [done|by eapply evolves_trans|].
    intros p [Hp Hps]%Forall_cons. eapply kept_trans; [by apply Hk1|by apply Hk'].
Qed.

End steps.

(** ** Witness *)

(** A stream is created, deleted, and created again while its first life is
    reclaimed; then the process restarts. *)
Module SystemSample.
Definition w0 : world fakeStore := mkWorld LifeSample.srv0 ∅.
Definition events : list event :=
  [EvCreate 100 100000 LifeSample.params; EvDelete LifeSample.path;
   EvCreate 101 101000 LifeSample.params; EvDeletionStart 1; EvDeletionChunk 1;
   EvRestart LifeSample.cfg; EvDeletionStart 1; EvDeletionChunk 1].
Definition final : world fakeStore := foldl sys_exec w0 events.

(** Nothing bounds the arguments of the rest of the events. *)
Lemma create_in_range (w : world fakeStore) nowUnix nowMs :
  is_i64 nowUnix → is_i64 nowMs → srv_nextID (w_srv w) + 1 < 2^64 →
  create_wf (w_srv w) nowUnix nowMs LifeSample.params.
Proof. intros. split; [done|done|done|done|done|]. intros rs Hrs. vm_compute in Hrs. by injection Hrs as <-. Qed.

Lemma second_id : srv_nextID (w_srv (sys_exec (sys_exec w0 (EvCreate 100 100000 LifeSample.params))
  (EvDelete LifeSample.path))) = 2.
Proof. vm_compute. reflexivity. Qed.

Lemma events_run : sys_run w0 events final.
Proof.
  unfold final, events. cbn [foldl].
  apply sys_run_cons; [intros C _; by apply create_in_range|].
  apply sys_run_cons; [done|].
  apply sys_run_cons; [intros C _; apply create_in_range; [done|done|by rewrite second_id]|].
  do 5 (apply sys_run_cons; [done|]). apply sys_run_nil.
Qed.

(** The store after the run: the second life's id, and nothing of the first. *)
Lemma final_ids :
  bool_decide (srv_nextID (w_srv final) = 3 ∧
    is_Some (fake_data (srv_store (w_srv final)) !! recordKey 2 0) ∧
    fake_data (srv_store (w_srv final)) !! recordKey 1 0 = None) = true.
Proof. vm_compute. reflexivity. Qed.
End SystemSample.

Lemma system_preserves_witness :
  ∃ C' : catalog, sys_ok SystemSample.final C' ∧ evolves 1 ∅ 3 C'.
Proof.
  destruct (system_preserves SystemSample.w0 ∅ SystemSample.events SystemSample.final)
    as (C' & Hs & He & _); [apply LifeSample.srv0_ok|apply SystemSample.events_run|].
  exists C'. split; [exact Hs|].
  pose proof SystemSample.final_ids as Hid%bool_decide_eq_true. destruct Hid as [Hid _].
  rewrite Hid in He. exact He.
Defined.
