(* ===== verification/Worker.v ===== *)
(** * The streamer's goroutine and its request queue (streamer.go, server.go, expiry.go)

    Everywhere else a burst, a deletion and a retirement are single steps. Here they
    are what the goroutines do to one path of the server: requests look the streamer
    up, take its lock and enqueue; the streamer's goroutine waits in its [select],
    drains the queue, plans, commits, answers, slides the deadline for readers,
    retires when it has been idle; and a deletion takes the streamer out of the
    registry, stops it and commits. Each step is one that the locks of the code make
    atomic, and a run takes them in any order. The theorems are in WorkerSpec.v.

    A streamer is a pointer: its index in the list of all that were ever started, so
    that a retired one and its successor are told apart. The committer is the
    synchronous one. *)

From S2P Require Import Prelude.
From S2P Require Import Bytes.
From S2P Require Import Keys.
From S2P Require Import Meta.
From S2P Require Import Storage.
From S2P Require Import Loads.
From S2P Require Import Streamer.
From S2P Require Import Server.
From S2P Require Import Expiry.

(** Bounds a burst, and is the capacity of the queue. *)
Definition maxBurst : nat := 512.

(** A request is known by its reply channel: the index of its client. *)
Abbreviation request := (nat * appendReq)%type.
Abbreviation reply := (nat * appendResp)%type.

(** ** The goroutine of a streamer *)

(** Where it is in [run]. *)
Inductive run_pc : Type :=
| GoSelect
| GoDrain (batch : list request)                (** in [drainBurst] *)
| GoCommit (tickets : list nat) (c : commitBurst)   (** planned; about to call the committer *)
| GoReply (replies : list reply)                (** in [replyAll] *)
| GoRefresh                                     (** in [refreshTTLOnRead] *)
| GoRetire                                      (** in [tryRetire], before the lock *)
| GoStop                                        (** answering what is left in the queue *)
| GoEnd.

(** The streamer, its channels, its lock and where its goroutine is. [go_mu] is the
    client that holds the lock; the other critical sections do not block, and are
    steps that need the lock free. *)
Record goroutine : Type := mkGoroutine {
  go_st : streamer;
  go_reqs : list request;
  go_touch : bool;
  go_stop : bool;
  go_dead : bool;
  go_mu : option nat;
  go_pc : run_pc }.

Definition set_pc (pc : run_pc) (g : goroutine) : goroutine :=
  {| go_st := go_st g; go_reqs := go_reqs g; go_touch := go_touch g; go_stop := go_stop g;
     go_dead := go_dead g; go_mu := go_mu g; go_pc := pc |}.
Definition set_st (st : streamer) (g : goroutine) : goroutine :=
  {| go_st := st; go_reqs := go_reqs g; go_touch := go_touch g; go_stop := go_stop g;
     go_dead := go_dead g; go_mu := go_mu g; go_pc := go_pc g |}.
Definition set_reqs (reqs : list request) (g : goroutine) : goroutine :=
  {| go_st := go_st g; go_reqs := reqs; go_touch := go_touch g; go_stop := go_stop g;
     go_dead := go_dead g; go_mu := go_mu g; go_pc := go_pc g |}.
Definition set_touch (t : bool) (g : goroutine) : goroutine :=
  {| go_st := go_st g; go_reqs := go_reqs g; go_touch := t; go_stop := go_stop g;
     go_dead := go_dead g; go_mu := go_mu g; go_pc := go_pc g |}.
Definition set_mu (mu : option nat) (g : goroutine) : goroutine :=
  {| go_st := go_st g; go_reqs := go_reqs g; go_touch := go_touch g; go_stop := go_stop g;
     go_dead := go_dead g; go_mu := mu; go_pc := go_pc g |}.
(** [st.dead = true], with [close(st.stop)] when the streamer is stopped. *)
Definition set_dead (stop : bool) (g : goroutine) : goroutine :=
  {| go_st := go_st g; go_reqs := go_reqs g; go_touch := go_touch g; go_stop := stop || go_stop g;
     go_dead := true; go_mu := go_mu g; go_pc := go_pc g |}.

(** [newStreamer], and [go st.run()]. *)
Definition start_run (st : streamer) : goroutine :=
  {| go_st := st; go_reqs := []; go_touch := false; go_stop := false; go_dead := false;
     go_mu := None; go_pc := GoSelect |}.

(** Parked readers come and go. *)
Definition set_readers (longPoll sse : Z) (st : streamer) : streamer :=
  {| st_path := st_path st; st_id := st_id st; st_isJSON := st_isJSON st;
     st_forkedFrom := st_forkedFrom st; st_forkOffset := st_forkOffset st;
     st_meta := st_meta st; st_producers := st_producers st;
     st_producerLoaded := st_producerLoaded st; st_writerSeq := st_writerSeq st;
     st_writerSeqLoaded := st_writerSeqLoaded st; st_writeTail := st_writeTail st;
     st_pending := st_pending st; st_tail := st_tail st; st_closed := st_closed st;
     st_longPollReaders := longPoll; st_sseReaders := sse;
     st_cache := st_cache st; st_wakes := st_wakes st |}.

(** The case the [select] takes, or the next step of the case it took, with the
    clock it reads. *)
Inductive go_event : Type := TakeReq | TakeTouch | TakeTimer | TakeStop | Proceed (now : Z).

Section worker.
  Context {S : Type} `{Storage S}.
  Context (cfg : cacheConfig) (path : bytes).

(** [drainBurst] takes another request, or the burst is planned. *)
Definition drain_step (s : S) (now : Z) (batch : list request) (g : goroutine) : goroutine :=
  let plan :=
    match planBurst s (go_st g) now batch.*2 with
    | (st, inl responses) => set_pc (GoReply (zip batch.*1 responses)) (set_st st g)
    | (st, inr c) => set_pc (GoCommit batch.*1 c) (set_st st g)
    end in
  match go_reqs g with
  | r :: rest =>
      if decide (length batch < maxBurst)%nat
      then set_pc (GoDrain (batch ++ [r])) (set_reqs rest g) else plan
  | [] => plan
  end.

Definition commit_step (s : S) (tickets : list nat) (c : commitBurst) (g : goroutine) : S * goroutine :=
  let '(s', st, responses) := syncCommit s (go_st g) c in
  (s', set_pc (GoReply (zip tickets responses)) (set_st st g)).

Definition refresh_step (s : S) (now : Z) (g : goroutine) : S * goroutine :=
  let '(s', st) := refreshTTLOnRead s (go_st g) now in (s', set_pc GoSelect (set_st st g)).

(** [None] while a client holds the lock. [slot] is the registry's entry of the
    path, and [i] is this streamer. *)
Definition tryRetire (slot : option nat) (i : nat) (g : goroutine) : option (option nat * goroutine) :=
  match go_mu g with
  | Some _ => None
  | None =>
      if decide (go_reqs g ≠ [] ∨ 0 < totalReaders (go_st g) ∨ 0 < st_pending (go_st g))
      then Some (slot, set_pc GoSelect g)
      else Some (if decide (slot = Some i) then None else slot, set_pc GoEnd (set_dead false g))
  end.

(** One step of [run]: the store, the registry's entry, the goroutine, and what
    it answers. *)
Definition go_step (s : S) (slot : option nat) (i : nat) (g : goroutine) (ev : go_event)
  : option (S * option nat * goroutine * list reply) :=
  match go_pc g, ev with
  | GoSelect, TakeReq =>
      match go_reqs g with
      | r :: rest => Some (s, slot, set_pc (GoDrain [r]) (set_reqs rest g), [])
      | [] => None
      end
  | GoSelect, TakeTouch =>
      if go_touch g then Some (s, slot, set_pc GoRefresh (set_touch false g), []) else None
  | GoSelect, TakeTimer => Some (s, slot, set_pc GoRetire g, [])
  | GoSelect, TakeStop => if go_stop g then Some (s, slot, set_pc GoStop g, []) else None
  | GoDrain batch, Proceed now => Some (s, slot, drain_step s now batch g, [])
  | GoCommit tickets c, Proceed _ =>
      let '(s', g') := commit_step s tickets c g in Some (s', slot, g', [])
  | GoReply (r :: rest), Proceed _ => Some (s, slot, set_pc (GoReply rest) g, [r])
  | GoReply [], Proceed _ => Some (s, slot, set_pc GoSelect g, [])
  | GoRefresh, Proceed now => let '(s', g') := refresh_step s now g in Some (s', slot, g', [])
  | GoRetire, Proceed _ => '(slot', g') ← tryRetire slot i g; Some (s, slot', g', [])
  | GoStop, Proceed _ =>
      match go_reqs g with
      | (t, _) :: rest => Some (s, slot, set_reqs rest g, [(t, resp_status 404)])
      | [] => Some (s, slot, set_pc GoEnd g, [])
      end
  | _, _ => None
  end.

(** ** Clients *)

(** A request in [submitAppend]. *)
Inductive client_pc : Type :=
| ClLookup                                  (** [st] is nil *)
| ClHave (i : nat)                          (** about to take the streamer's lock *)
| ClLocked (i : nat)                        (** holding it *)
| ClWait (i : nat)                          (** enqueued, waiting for the reply *)
| ClDone (r : result (option appendResp)).  (** [None]: no such stream *)

Record client : Type := mkClient { cl_req : appendReq; cl_pc : client_pc }.

(** The one deletion that holds [metaMu]; from [DeMark] to its commit it also holds
    the spawn lock of the path. *)
Inductive delete_pc : Type :=
| DeIdle
| DeRemove (ops : list Op)
| DeMark (ops : list Op) (i : nat)          (** taken out of the registry *)
| DeCommit (ops : list Op).

(** The store, the streamers started for the path, its registry entry, the clients, the deletion, and the
    results of the deletions that are over. *)
Record traffic : Type := mkTraffic {
  tf_store : S;
  tf_gos : list goroutine;
  tf_slot : option nat;
  tf_clients : list client;
  tf_delete : delete_pc;
  tf_deleted : list (option error) }.

Definition set_client (t : nat) (pc : client_pc) (w : traffic) : traffic :=
  mkTraffic (tf_store w) (tf_gos w) (tf_slot w)
    (alter (λ c, mkClient (cl_req c) pc) t (tf_clients w)) (tf_delete w) (tf_deleted w).
Definition set_go (i : nat) (g : goroutine) (w : traffic) : traffic :=
  mkTraffic (tf_store w) (<[i := g]> (tf_gos w)) (tf_slot w) (tf_clients w) (tf_delete w)
    (tf_deleted w).

Definition spawn_locked (w : traffic) : bool :=
  match tf_delete w with DeMark _ _ | DeCommit _ => true | _ => false end.

(** [getOrSpawn]: the fast path, or the slow one under the spawn lock. *)
Definition lookup_step (w : traffic) (t : nat) : option traffic :=
  match tf_slot w with
  | Some i => Some (set_client t (ClHave i) w)
  | None =>
      if spawn_locked w then None else
      let spawned :=
        meta ← loadMeta (tf_store w) path;
        match meta with
        | None => mret None
        | Some meta =>
            tailSeq ← loadTailSeq (tf_store w) (StreamID meta);
            mret (Some (newStreamer cfg path meta tailSeq))
        end in
      match spawned with
      | Err e => Some (set_client t (ClDone (Ok (Some (resp_error e)))) w)
      | Ok None => Some (set_client t (ClDone (Ok None)) w)
      | Ok (Some st) =>
          let i := length (tf_gos w) in
          Some (set_client t (ClHave i)
            (mkTraffic (tf_store w) (tf_gos w ++ [start_run st]) (Some i) (tf_clients w)
               (tf_delete w) (tf_deleted w)))
      end
  end.

(** One step of [submitAppend]. *)
Definition client_step (w : traffic) (t : nat) : option traffic :=
  c ← tf_clients w !! t;
  match cl_pc c with
  | ClLookup => lookup_step w t
  | ClHave i =>
      g ← tf_gos w !! i;
      match go_mu g with
      | Some _ => None
      | None => Some (set_client t (ClLocked i) (set_go i (set_mu (Some t) g) w))
      end
  | ClLocked i =>
      g ← tf_gos w !! i;
      if go_dead g then Some (set_client t ClLookup (set_go i (set_mu None g) w))
      else if decide (length (go_reqs g) < maxBurst)%nat then
        Some (set_client t (ClWait i)
                (set_go i (set_mu None (set_reqs (go_reqs g ++ [(t, cl_req c)]) g)) w))
      else None
  | ClWait _ | ClDone _ => None
  end.

(** ** Deletion *)

(** [deleteStream] up to its first change: the error it returns, or the batch
    that [removeStreamerLocked] commits. *)
Definition deletePlan (s : S) : error + list Op :=
  match loadTombstone s path with
  | Err e => inl e
  | Ok tomb =>
      if match tomb with Some (r, _) => bool_decide (r = tombSoftDelete) | None => false end
      then inl ErrGone
      else
        match loadMeta s path with
        | Err e => inl e
        | Ok None => inl ErrNotFound
        | Ok (Some meta) =>
            inr (if decide (0 < loadRefCount s (StreamID meta))
                 then [PutOp (tombstoneKey path) (tombstoneValue tombSoftDelete (StreamID meta))]
                 else deleteOps path meta)
        end
  end.

Definition set_delete (pc : delete_pc) (w : traffic) : traffic :=
  mkTraffic (tf_store w) (tf_gos w) (tf_slot w) (tf_clients w) pc (tf_deleted w).
Definition end_delete (s : S) (err : option error) (w : traffic) : traffic :=
  mkTraffic s (tf_gos w) (tf_slot w) (tf_clients w) DeIdle (tf_deleted w ++ [err]).

Definition delete_go (w : traffic) : option traffic :=
  match tf_delete w with
  | DeIdle =>
      match deletePlan (tf_store w) with
      | inl e => Some (end_delete (tf_store w) (Some e) w)
      | inr ops => Some (set_delete (DeRemove ops) w)
      end
  | DeRemove ops =>
      match tf_slot w with
      | Some i =>
          Some (mkTraffic (tf_store w) (tf_gos w) None (tf_clients w) (DeMark ops i) (tf_deleted w))
      | None => Some (set_delete (DeCommit ops) w)
      end
  | DeMark ops i =>
      g ← tf_gos w !! i;
      match go_mu g with
      | Some _ => None
      | None =>
          Some (set_delete (DeCommit ops) (if go_dead g then w else set_go i (set_dead true g) w))
      end
  | DeCommit ops => let '(s', err) := store_Commit (tf_store w) ops true in Some (end_delete s' err w)
  end.

(** ** Runs *)

Inductive tevent : Type :=
| Arrive (req : appendReq) (hint : option nat)   (** a new client, with a hint or without *)
| Client (t : nat)
| Go (i : nat) (ev : go_event)
| Delete
| Touch (i : nat)                                (** [touchStream], by a reader *)
| Readers (i : nat) (longPoll sse : Z)           (** parked readers come and go *)
| Others (ops : list Op).                        (** the other streams' writes *)

Definition answer (rs : list reply) (w : traffic) : traffic :=
  foldl (λ w r, set_client r.1 (ClDone (Ok (Some r.2))) w) w rs.

Definition texec (w : traffic) (ev : tevent) : option traffic :=
  match ev with
  | Arrive req hint =>
      if from_option (λ i, bool_decide (i < length (tf_gos w))%nat) true hint then
        Some (mkTraffic (tf_store w) (tf_gos w) (tf_slot w)
                (tf_clients w ++ [mkClient req (from_option ClHave ClLookup hint)])
                (tf_delete w) (tf_deleted w))
      else None
  | Client t => client_step w t
  | Go i ev =>
      g ← tf_gos w !! i;
      '(s', slot, g', rs) ← go_step (tf_store w) (tf_slot w) i g ev;
      Some (answer rs (mkTraffic s' (<[i := g']> (tf_gos w)) slot (tf_clients w)
                         (tf_delete w) (tf_deleted w)))
  | Delete => delete_go w
  | Touch i =>
      g ← tf_gos w !! i;
      match go_mu g with
      | Some _ => None
      | None => Some (if go_dead g then w else set_go i (set_touch true g) w)
      end
  | Readers i longPoll sse =>
      g ← tf_gos w !! i;
      if decide (0 ≤ longPoll ∧ 0 ≤ sse)
      then Some (set_go i (set_st (set_readers longPoll sse (go_st g)) g) w) else None
  | Others ops =>
      Some (mkTraffic (store_Commit (tf_store w) ops false).1 (tf_gos w) (tf_slot w)
              (tf_clients w) (tf_delete w) (tf_deleted w))
  end.

(** The server when the path is first asked for. *)
Definition traffic_start (s : S) : traffic := mkTraffic s [] None [] DeIdle [].

Fixpoint texec_all (w : traffic) (evs : list tevent) : option traffic :=
  match evs with
  | [] => Some w
  | ev :: rest => w' ← texec w ev; texec_all w' rest
  end.

End worker.

Arguments mkTraffic {S}. Arguments tf_store {S}. Arguments tf_gos {S}. Arguments tf_slot {S}.
Arguments tf_clients {S}. Arguments tf_delete {S}. Arguments tf_deleted {S}.
Arguments traffic_start {S}. Arguments set_client {S}. Arguments set_go {S}. Arguments answer {S}.
Arguments set_delete {S}. Arguments end_delete {S}. Arguments spawn_locked {S}.

(** [deleteStream] of Expiry.v is this plan, then the removal of the streamer with
    the plan's batch, and what follows. *)
Lemma deleteStream_plan {S} `{Storage S} (srv : server S) path :
  deleteStream srv path =
  match deletePlan path (srv_store srv) with
  | inl e => (srv, Some e)
  | inr ops =>
      match loadMeta (srv_store srv) path with
      | Ok (Some meta) =>
          if decide (0 < loadRefCount (srv_store srv) (StreamID meta))
          then removeStreamerLocked srv path ops
          else deleteStreamLocked (cascade_fuel meta) srv path meta
      | _ => (srv, None)
      end
  end.
Proof.
  unfold deleteStream, deletePlan. destruct (loadTombstone _ _) as [tomb|e]; [|done].
  destruct (match tomb with Some _ => _ | None => _ end); [done|].
  destruct (loadMeta _ _) as [[m|]|]; [|done..]. by case_decide.
Qed.
