(* ===== verification/WorkerSpec.v ===== *)
(** * What a request is promised by the streamer it meets

    The invariant of the interleaving model of Worker.v, and what follows from it:
    requests are answered, once each, by the streamer they were enqueued to; they
    are never left waiting, but for one case; and as long as nobody deletes the
    stream, whatever requests, readers, retirements and restarts of the goroutine
    interleave, the answers and the store are those of the appends one at a time.
    Then the two runs in which the code does not keep its promises. *)

From S2P Require Import Prelude.
From S2P Require Import Bytes.
From S2P Require Import Keys.
From S2P Require Import Meta.
From S2P Require Import Storage.
From S2P Require Import Loads.
From S2P Require Import Batch.
From S2P Require Import Streamer.
From S2P Require Import StreamSpec.
From S2P Require Import StreamerRefine.
From S2P Require Import Server.
From S2P Require Import Expiry.
From S2P Require Import Catalog.
From S2P Require Import Lifecycle.
From S2P Require Import Worker.

(** ** Lemmas: bursts keep their size *)

Section sizes.
  Context {S : Type} `{Storage S}.

Lemma planAll_length (s : S) batch : ∀ st pend,
  length (planAll s st pend batch).1.2 = length batch.
Proof.
  induction batch as [|req rest IH]; intros st pend; [done|]. simpl.
  destruct (planAppend s st pend req) as [[[st1 p1] r] a]. pose proof (IH st1 p1) as Hl.
  destruct (planAll s st1 p1 rest) as [[[st2 p2] rs] accs]. simpl in *. by rewrite Hl.
Qed.

Lemma planBurst_length (s : S) st now batch :
  match (planBurst s st now batch).2 with
  | inl responses => length responses = length batch
  | inr c => length (cb_responses c) = length batch
  end.
Proof.
  unfold planBurst. pose proof (planAll_length s batch st (startPending st now)) as Hl.
  destruct (planAll _ _ _ _) as [[[st' pend] rs] accs]. simpl in Hl. by case_decide.
Qed.

Lemma failAccepted_length rs accs e : length (failAccepted rs accs e) = length rs.
Proof. revert accs. induction rs as [|r rs IH]; intros [|a accs]; simpl; auto. Qed.

Lemma syncCommit_length (s : S) st c : length (syncCommit s st c).2 = length (cb_responses c).
Proof.
  unfold syncCommit. destruct (store_Commit s (cb_ops c) true) as [s' [e|]]; [|done].
  apply failAccepted_length.
Qed.

End sizes.

Lemma fst_zip_eq {A B} (l : list A) (k : list B) : length k = length l → (zip l k).*1 = l.
Proof. intros Hl. apply fst_zip. lia. Qed.

(** ** The invariant *)

Definition pc_tickets (pc : run_pc) : list nat :=
  match pc with
  | GoDrain batch => batch.*1
  | GoCommit tickets _ => tickets
  | GoReply replies => replies.*1
  | _ => []
  end.

(** The requests a streamer has yet to answer, in the order it will. *)
Definition tickets_of (g : goroutine) : list nat := pc_tickets (go_pc g) ++ (go_reqs g).*1.

Definition pc_ok (g : goroutine) : Prop :=
  match go_pc g with
  | GoDrain batch => (1 ≤ length batch ≤ maxBurst)%nat
  | GoCommit tickets c =>
      (1 ≤ length tickets ≤ maxBurst)%nat ∧ length (cb_responses c) = length tickets
  | GoReply replies => (length replies ≤ maxBurst)%nat
  | GoStop => go_dead g = true
  | GoEnd => go_dead g = true ∧ go_reqs g = []
  | _ => True
  end.

Section invariant.
  Context {S : Type} `{Storage S}.
  Context (cfg : cacheConfig) (path : bytes).
  Implicit Types w : traffic (S := S).

Definition pcs w (t : nat) : option client_pc := cl_pc <$> tf_clients w !! t.

(** A streamer that still takes requests is the registry's, or the one that is being stopped. *)
Definition home w (i : nat) : Prop := tf_slot w = Some i ∨ ∃ ops, tf_delete w = DeMark ops i.

Record go_ok w (i : nat) (g : goroutine) : Prop := {
  gi_queue : (length (go_reqs g) ≤ maxBurst)%nat;
  gi_pc : pc_ok g;
  gi_stop : go_stop g = true → go_dead g = true;
  gi_open : go_dead g = false → home w i;
  gi_mu : ∀ t, go_mu g = Some t ↔ pcs w t = Some (ClLocked i);
  gi_wait : ∀ t, t ∈ tickets_of g ↔ pcs w t = Some (ClWait i);
  gi_once : NoDup (tickets_of g) }.

(** The streamer a client has is one that was started. *)
Definition pc_bound (n : nat) (pc : client_pc) : Prop :=
  match pc with ClHave i | ClLocked i | ClWait i => (i < n)%nat | _ => True end.

Record traffic_ok w : Prop := {
  to_gos : ∀ i g, tf_gos w !! i = Some g → go_ok w i g;
  to_slot : ∀ i, tf_slot w = Some i → ∃ g, tf_gos w !! i = Some g ∧ go_dead g = false;
  to_mark : ∀ ops i, tf_delete w = DeMark ops i → tf_slot w = None ∧ (i < length (tf_gos w))%nat;
  to_clients : ∀ t pc, pcs w t = Some pc → pc_bound (length (tf_gos w)) pc }.

(** *** Lemmas *)

Lemma pcs_set_client w t pc u :
  pcs (set_client t pc w) u = if decide (u = t) then (λ _, pc) <$> pcs w t else pcs w u.
Proof.
  unfold pcs, set_client. cbn [tf_clients]. case_decide as Hd; [subst u|].
  - rewrite list_lookup_alter_eq. by destruct (tf_clients w !! t).
  - by rewrite list_lookup_alter_ne by done.
Qed.

(** What a step does not touch stays as it was. *)
Lemma go_ok_frame w w' i g :
  go_ok w i g →
  (∀ t, pcs w' t = Some (ClLocked i) ↔ pcs w t = Some (ClLocked i)) →
  (∀ t, pcs w' t = Some (ClWait i) ↔ pcs w t = Some (ClWait i)) →
  (go_dead g = false → home w i → home w' i) → go_ok w' i g.
Proof.
  intros [] Hl Hw Hh. split; try done; [auto|..]; intros t.
  - by rewrite Hl.
  - by rewrite Hw.
Qed.

(** A step of a client or of the goroutine of streamer [i]. *)
Lemma traffic_ok_update w w' i g g' :
  traffic_ok w → tf_gos w !! i = Some g → tf_gos w' = <[i:=g']> (tf_gos w) →
  go_ok w' i g' →
  (∀ j t, j ≠ i → pcs w' t = Some (ClLocked j) ↔ pcs w t = Some (ClLocked j)) →
  (∀ j t, j ≠ i → pcs w' t = Some (ClWait j) ↔ pcs w t = Some (ClWait j)) →
  (∀ j, j ≠ i → home w j → home w' j) →
  (∀ j, tf_slot w' = Some j → if decide (j = i) then go_dead g' = false else tf_slot w = Some j) →
  (∀ ops j, tf_delete w' = DeMark ops j → tf_slot w' = None ∧ (j < length (tf_gos w))%nat) →
  (∀ t pc, pcs w' t = Some pc → pc_bound (length (tf_gos w)) pc) → traffic_ok w'.
Proof.
  intros [Hgos Hslot Hmark Hcl] Hi Hg Hgo Hl Hw Hh Hs Hm Hc.
  pose proof (lookup_lt_Some _ _ _ Hi) as Hlt. split; rewrite Hg.
  - intros j h. rewrite list_lookup_insert. case_decide as Hd; [by destruct Hd as [<- _]; intros [= <-]|].
    intros Hj. assert (j ≠ i) by (intros ->; by destruct Hd).
    eapply go_ok_frame; [by apply Hgos|naive_solver..].
  - intros j Hj. specialize (Hs j Hj). case_decide as Hd.
    + subst j. exists g'. by rewrite list_lookup_insert_eq.
    + destruct (Hslot j Hs) as (h & ? & ?). exists h. by rewrite list_lookup_insert_ne.
  - intros ops j Hj. rewrite length_insert. by eapply Hm.
  - intros t pc Ht. rewrite length_insert. by eapply Hc.
Qed.

(** A step that leaves the goroutines alone. *)
Lemma traffic_ok_frame w w' :
  traffic_ok w → tf_gos w' = tf_gos w → tf_slot w' = tf_slot w →
  (∀ i t, pcs w' t = Some (ClLocked i) ↔ pcs w t = Some (ClLocked i)) →
  (∀ i t, pcs w' t = Some (ClWait i) ↔ pcs w t = Some (ClWait i)) →
  (∀ i, home w i → home w' i) →
  (∀ ops i, tf_delete w' = DeMark ops i → tf_delete w = DeMark ops i) →
  (∀ t pc, pcs w' t = Some pc → pc_bound (length (tf_gos w)) pc) → traffic_ok w'.
Proof.
  intros [Hgos Hslot Hmark Hcl] Hg Hs Hl Hw Hh Hm Hc. split; rewrite ?Hg, ?Hs; try done.
  - intros i g Hi. eapply go_ok_frame; [by apply Hgos|done|done|auto].
  - intros ops i Hi%Hm. by apply (Hmark ops).
Qed.

Lemma traffic_start_ok s : traffic_ok (traffic_start s).
Proof. by split. Qed.

(** *** Clients *)

Lemma traffic_arrive_ok w req hint w' :
  traffic_ok w → texec cfg path w (Arrive req hint) = Some w' → traffic_ok w'.
Proof.
  intros Hok. simpl. destruct (from_option _ _ _) eqn:Hh; [|done]. intros [= <-].
  set (w' := mkTraffic _ _ _ _ _ _).
  assert (Hp : ∀ t, pcs w' t = pcs w t ∨
    (pcs w t = None ∧ pcs w' t = Some (from_option ClHave ClLookup hint))).
  { intros t. unfold pcs, w'. cbn [tf_clients]. destruct (tf_clients w !! t) as [c|] eqn:Hc.
    - left. by rewrite lookup_app_l, Hc by (by eapply lookup_lt_Some).
    - destruct ((tf_clients w ++ [mkClient req (from_option ClHave ClLookup hint)]) !! t) as [c|] eqn:Ht;
        [|by left]. right. split; [done|]. apply lookup_app_Some in Ht as [?|[_ Ht]]; [congruence|].
      by apply list_lookup_singleton_Some in Ht as [_ <-]. }
  eapply traffic_ok_frame; [exact Hok|done|done| | |done|done|].
  - intros i t. destruct (Hp t) as [->|[-> ->]]; [done|]. by destruct hint.
  - intros i t. destruct (Hp t) as [->|[-> ->]]; [done|]. by destruct hint.
  - intros t pc. destruct (Hp t) as [->|[_ ->]]; [apply Hok|]. intros [= <-].
    destruct hint as [i|]; [|done]. by apply bool_decide_eq_true in Hh.
Qed.

(** A client that is looking the streamer up goes on with [pc]. *)
Lemma lookup_goto_ok w t pc :
  traffic_ok w → pcs w t = Some ClLookup → pc_bound (length (tf_gos w)) pc →
  match pc with ClLocked _ | ClWait _ => False | _ => True end → traffic_ok (set_client t pc w).
Proof.
  intros Hok Ht Hb Hpc. eapply traffic_ok_frame; [exact Hok|done|done| | |done|done|].
  1,2: intros i u; rewrite pcs_set_client; case_decide as Hd; [subst u; rewrite Ht; destruct pc; naive_solver|done].
  intros u pc'. rewrite pcs_set_client. case_decide as Hd; [rewrite Ht; by intros [= <-]|apply Hok].
Qed.

(** A new streamer is registered. *)
Lemma traffic_spawn_ok w st :
  traffic_ok w → tf_slot w = None → spawn_locked w = false →
  traffic_ok (mkTraffic (tf_store w) (tf_gos w ++ [start_run st]) (Some (length (tf_gos w)))
                (tf_clients w) (tf_delete w) (tf_deleted w)).
Proof.
  intros [Hgos Hslot Hmark Hcl] Hn Hsp. set (w' := mkTraffic _ _ _ _ _ _).
  assert (Hnew : ∀ t i, pcs w t = Some (ClLocked i) ∨ pcs w t = Some (ClWait i) → (i < length (tf_gos w))%nat)
    by (intros t i [Ht|Ht]; by apply Hcl in Ht).
  split; cbn [tf_gos tf_slot tf_delete].
  - intros i g [Hi|[Hi Hg]]%lookup_app_Some.
    + eapply go_ok_frame; [by apply Hgos|done|done|]. intros _ [Hs|[ops Hd]]; [congruence|].
      unfold spawn_locked in Hsp. by rewrite Hd in Hsp.
    + apply list_lookup_singleton_Some in Hg as [Hi0 <-].
      assert (i = length (tf_gos w)) as -> by lia. split; simpl; try done.
      * lia.
      * intros _. by left.
      * intros t. split; [done|]. intros Ht. assert (length (tf_gos w) < length (tf_gos w))%nat; [|lia]. apply (Hnew t). by left.
      * intros t. split; [by intros ?%elem_of_nil|]. intros Ht. assert (length (tf_gos w) < length (tf_gos w))%nat; [|lia].
        apply (Hnew t). by right.
      * constructor.
  - intros i [= <-]. exists (start_run st). split; [|done]. unfold w'. cbn [tf_gos]. by rewrite lookup_app_r, Nat.sub_diag by lia.
  - intros ops i Hd. change (tf_delete w = DeMark ops i) in Hd. unfold spawn_locked in Hsp. by rewrite Hd in Hsp.
  - intros t pc Ht%Hcl. unfold w'. cbn [tf_gos]. rewrite length_app. destruct pc; simpl in *; lia.
Qed.

Lemma traffic_lookup_ok w t w' :
  traffic_ok w → pcs w t = Some ClLookup → lookup_step cfg path w t = Some w' → traffic_ok w'.
Proof.
  intros Hok Ht. unfold lookup_step. destruct (tf_slot w) as [i|] eqn:Hs.
  - intros [= <-]. apply lookup_goto_ok; [done..| |done]. destruct (to_slot _ Hok i Hs) as (g & Hg & _).
    by eapply lookup_lt_Some.
  - destruct (spawn_locked w) eqn:Hsp; [done|]. intros Hw.
    match type of Hw with context [match ?x with Ok _ => _ | Err _ => _ end] => destruct x as [[st|]|e] end;
      injection Hw as <-; [|by apply lookup_goto_ok..].
    apply lookup_goto_ok; [by apply traffic_spawn_ok|done| |done]. simpl. rewrite length_app. simpl. lia.
Qed.

Lemma pcs_set_go w i g t : pcs (set_go i g w) t = pcs w t.
Proof. done. Qed.

(** A client and streamer [i] move together. *)
Lemma client_move_ok w t pc pc' i g g' :
  traffic_ok w → tf_gos w !! i = Some g → pcs w t = Some pc →
  pc_bound (length (tf_gos w)) pc' → go_dead g' = go_dead g →
  (∀ j, j ≠ i → pc ≠ ClLocked j ∧ pc ≠ ClWait j ∧ pc' ≠ ClLocked j ∧ pc' ≠ ClWait j) →
  go_ok (set_client t pc' (set_go i g' w)) i g' → traffic_ok (set_client t pc' (set_go i g' w)).
Proof.
  intros Hok Hi Ht Hb Hd Hpc Hg'. eapply traffic_ok_update; [exact Hok|exact Hi|done|exact Hg'|..].
  1,2: intros j u Hj; rewrite pcs_set_client, !pcs_set_go; destruct (Hpc j Hj) as (? & ? & ? & ?);
    case_decide; [subst u; rewrite Ht; simpl; naive_solver|done].
  - done.
  - intros j Hj. case_decide as Hji; [|done]. rewrite Hd. subst j.
    destruct (to_slot _ Hok i Hj) as (h & Hh & ?). congruence.
  - apply (to_mark _ Hok).
  - intros u pc2. rewrite pcs_set_client, !pcs_set_go. case_decide; [rewrite Ht; by intros [= <-]|apply Hok].
Qed.

Lemma traffic_client_ok w t w' : traffic_ok w → client_step cfg path w t = Some w' → traffic_ok w'.
Proof.
  intros Hok. unfold client_step. destruct (tf_clients w !! t) as [c|] eqn:Hc; [|done]. simpl.
  assert (Ht : pcs w t = Some (cl_pc c)) by (unfold pcs; by rewrite Hc).
  destruct (cl_pc c) as [|i|i|i|r] eqn:Hpc; [by apply traffic_lookup_ok| | |done..].
  all: destruct (tf_gos w !! i) as [g|] eqn:Hi; [|done]; simpl; pose proof (to_gos _ Hok i g Hi) as [Hq Hp Hst Ho Hm Hw H1].
  - destruct (go_mu g) eqn:Hmu; [done|]. intros [= <-].
    eapply client_move_ok; [done|done|exact Ht|by eapply lookup_lt_Some|done|naive_solver|].
    split; simpl; try done; intros u; rewrite pcs_set_client, !pcs_set_go; case_decide as Hu.
    + subst u. by rewrite Ht.
    + rewrite <-Hm. split; congruence.
    + subst u. rewrite Ht. transitivity (pcs w t = Some (ClWait i)); [apply Hw|]. rewrite Ht. split; by intros [=].
    + apply Hw.
  - assert (Hmu : go_mu g = Some t) by (by apply Hm).
    destruct (go_dead g) eqn:Hd.
    + intros [= <-]. eapply client_move_ok; [done|done|exact Ht|done|done|naive_solver|].
      split; simpl; try done; try congruence; intros u; rewrite pcs_set_client, !pcs_set_go; case_decide as Hu.
      * subst u. rewrite Ht. split; done.
      * rewrite <-Hm, Hmu. split; congruence.
      * subst u. rewrite Ht. transitivity (pcs w t = Some (ClWait i)); [apply Hw|]. rewrite Ht. split; by intros [=].
      * apply Hw.
    + case_decide as Hroom; [|done]. intros [= <-].
      assert (Hnew : t ∉ tickets_of g) by (rewrite Hw, Ht; congruence).
      assert (Htk : tickets_of (set_mu None (set_reqs (go_reqs g ++ [(t, cl_req c)]) g)) = tickets_of g ++ [t])
        by (unfold tickets_of; simpl; by rewrite fmap_app, app_assoc).
      eapply client_move_ok; [done|done|exact Ht|by eapply lookup_lt_Some|done|naive_solver|].
      split; rewrite ?Htk; simpl; try done.
      * rewrite length_app. simpl. lia.
      * unfold pc_ok in *. simpl. rewrite Hd in *. destruct (go_pc g); naive_solver.
      * by intros ?%Hst.
      * intros _. by apply Ho.
      * intros u. rewrite pcs_set_client, !pcs_set_go. case_decide; [subst u; by rewrite Ht|].
        rewrite <-Hm, Hmu. split; congruence.
      * intros u. rewrite elem_of_app, list_elem_of_singleton, pcs_set_client, !pcs_set_go.
        case_decide; [subst u; rewrite Ht; simpl; naive_solver|]. rewrite <-Hw. naive_solver.
      * apply NoDup_app. split_and!; [done|set_solver|apply NoDup_singleton].
Qed.

(** *** The goroutine *)

(** It answers at most its first ticket, and retires at most itself. *)
Lemma go_move_ok w i g g' s' slot' rs :
  traffic_ok w → tf_gos w !! i = Some g → pc_ok g' →
  (length (go_reqs g') ≤ length (go_reqs g))%nat → go_mu g' = go_mu g → go_stop g' = go_stop g →
  (length rs ≤ 1)%nat → tickets_of g = rs.*1 ++ tickets_of g' →
  (slot' = tf_slot w ∧ go_dead g' = go_dead g ∨
   go_dead g' = true ∧ slot' = if decide (tf_slot w = Some i) then None else tf_slot w) →
  traffic_ok (answer rs (mkTraffic s' (<[i:=g']> (tf_gos w)) slot' (tf_clients w)
                           (tf_delete w) (tf_deleted w))).
Proof.
  intros Hok Hi Hp Hq Hmu Hst Hrs Htk Hslot. set (w1 := mkTraffic _ _ _ _ _ _).
  pose proof (to_gos _ Hok i g Hi) as [Hq0 Hp0 Hst0 Ho0 Hm0 Hw0 H10].
  assert (Hfix : tf_gos (answer rs w1) = tf_gos w1 ∧ tf_slot (answer rs w1) = slot' ∧
                 tf_delete (answer rs w1) = tf_delete w) by (destruct rs as [|r [|? ?]]; simpl in *; done || lia).
  destruct Hfix as (Hf1 & Hf2 & Hf3).
  assert (Hpcs : ∀ u, pcs (answer rs w1) u = pcs w u ∧ u ∉ rs.*1 ∨
    ∃ r, u ∈ rs.*1 ∧ pcs (answer rs w1) u = Some (ClDone r) ∧ pcs w u = Some (ClWait i)).
  { intros u. destruct rs as [|[t x] [|? ?]]; simpl in *; [left; by split; [|apply not_elem_of_nil]| |lia].
    rewrite pcs_set_client. change (pcs w1) with (pcs w). destruct (decide (u = t)) as [Hu|Hu].
    - right. subst u. assert (pcs w t = Some (ClWait i)) as Ht
        by (apply Hw0; rewrite Htk; apply elem_of_cons; by left).
      rewrite Ht. eexists. split_and!; [apply elem_of_cons; by left|done|done].
    - left. split; [done|]. by intros ?%list_elem_of_singleton. }
  assert (Hdead : go_dead g' = false → go_dead g = false ∧ slot' = tf_slot w)
    by (destruct Hslot as [[-> ->]|[-> _]]; done).
  rewrite Htk in H10. apply NoDup_app in H10 as (_ & Hdis & H1).
  eapply traffic_ok_update; [exact Hok|exact Hi|exact Hf1|..].
  - split; try done; [lia|rewrite Hst; intros Hs%Hst0; destruct Hslot as [[_ ->]|[-> _]]; done|..].
    + intros [Hd ->]%Hdead. unfold home. rewrite Hf2, Hf3. by apply Ho0.
    + intros u. rewrite Hmu, Hm0. destruct (Hpcs u) as [[-> _]|(r & _ & -> & ->)]; naive_solver.
    + intros u. destruct (Hpcs u) as [[-> Hu]|(r & Hu & -> & _)].
      * rewrite <-Hw0, Htk, elem_of_app. naive_solver.
      * split; [|done]. intros Hin. by destruct (Hdis u).
  - intros j u _. destruct (Hpcs u) as [[-> _]|(r & _ & -> & ->)]; naive_solver.
  - intros j u Hj. destruct (Hpcs u) as [[-> _]|(r & _ & -> & ->)]; naive_solver.
  - intros j Hj. unfold home. rewrite Hf2, Hf3. destruct Hslot as [[-> _]|[_ ->]]; [done|].
    case_decide; naive_solver.
  - intros j. rewrite Hf2. intros Hj. destruct (decide (j = i)) as [Hji|Hji].
    + subst j. destruct Hslot as [[-> ->]|[_ ->]]; [|by case_decide].
      destruct (to_slot _ Hok i Hj) as (h & Hh & ?). congruence.
    + destruct Hslot as [[-> _]|[_ ->]]; [done|]. by case_decide.
  - intros ops j. rewrite Hf2, Hf3. intros Hj. destruct (to_mark _ Hok ops j Hj) as [Hn ?]. split; [|done].
    destruct Hslot as [[-> _]|[_ ->]]; [done|]. by case_decide.
  - intros u pc. destruct (Hpcs u) as [[-> _]|(r & _ & -> & _)]; [apply Hok|]. by intros [= <-].
Qed.

Lemma drain_step_keeps s now batch g :
  go_pc g = GoDrain batch → pc_ok g →
  let g' := drain_step s now batch g in
  pc_ok g' ∧ tickets_of g' = tickets_of g ∧ (length (go_reqs g') ≤ length (go_reqs g))%nat ∧
  go_mu g' = go_mu g ∧ go_stop g' = go_stop g ∧ go_dead g' = go_dead g.
Proof.
  intros Hpc Hp. unfold pc_ok in Hp. rewrite Hpc in Hp. simpl. unfold drain_step.
  pose proof (planBurst_length s (go_st g) now batch.*2) as Hl. rewrite length_fmap in Hl.
  assert (Hplan : let g' := match planBurst s (go_st g) now batch.*2 with
      | (st, inl responses) => set_pc (GoReply (zip batch.*1 responses)) (set_st st g)
      | (st, inr c) => set_pc (GoCommit batch.*1 c) (set_st st g) end in
    pc_ok g' ∧ tickets_of g' = tickets_of g ∧ (length (go_reqs g') ≤ length (go_reqs g))%nat ∧
    go_mu g' = go_mu g ∧ go_stop g' = go_stop g ∧ go_dead g' = go_dead g).
  { destruct (planBurst _ _ _ _) as [st [rs|c]]; cbn [snd] in Hl; unfold pc_ok, tickets_of; simpl; rewrite Hpc.
    - rewrite fst_zip_eq, length_zip, length_fmap by (by rewrite length_fmap). split_and!; done || lia.
    - rewrite length_fmap. destruct Hp. by split_and!. }
  destruct (go_reqs g) as [|r rest] eqn:Hr; [done|]. case_decide as Hlt; [|done].
  unfold pc_ok, tickets_of. simpl. rewrite Hpc, Hr, length_app, fmap_app, <-app_assoc. simpl.
  split_and!; done || lia.
Qed.

Lemma go_step_ok w i g ev s' slot' g' rs :
  traffic_ok w → tf_gos w !! i = Some g →
  go_step (tf_store w) (tf_slot w) i g ev = Some (s', slot', g', rs) →
  traffic_ok (answer rs (mkTraffic s' (<[i:=g']> (tf_gos w)) slot' (tf_clients w)
                           (tf_delete w) (tf_deleted w))).
Proof.
  intros Hok Hi Hstep. pose proof (to_gos _ Hok i g Hi) as [_ Hp Hst Ho _ _ _].
  unfold go_step in Hstep.
  destruct (go_pc g) as [|batch|ts c|[|r rest]| | | |] eqn:Hpc; destruct ev; try done.
  - destruct (go_reqs g) as [|r rest] eqn:Hr; [done|]. simplify_eq. eapply go_move_ok; try done.
    + unfold pc_ok, maxBurst. simpl. lia.
    + rewrite Hr. simpl. lia.
    + simpl. lia.
    + unfold tickets_of. simpl. by rewrite Hpc, Hr.
    + by left.
  - destruct (go_touch g); [|done]. simplify_eq. eapply go_move_ok; try done; [simpl; lia| |by left].
    unfold tickets_of. simpl. by rewrite Hpc.
  - simplify_eq. eapply go_move_ok; try done; [simpl; lia| |by left]. unfold tickets_of. simpl. by rewrite Hpc.
  - destruct (go_stop g) eqn:Hs; [|done]. simplify_eq. eapply go_move_ok; try done; [by apply Hst|simpl; lia| |by left].
    unfold tickets_of. simpl. by rewrite Hpc.
  - simplify_eq. destruct (drain_step_keeps (tf_store w) now batch g Hpc Hp) as (? & Htk & ? & ? & ? & ?).
    eapply go_move_ok; try done; [simpl; lia|by left].
  - unfold commit_step in Hstep. pose proof (syncCommit_length (tf_store w) (go_st g) c) as Hl.
    destruct (syncCommit _ _ _) as [[s1 st1] resps]. simplify_eq. cbn [snd] in Hl.
    unfold pc_ok in Hp. rewrite Hpc in Hp.
    eapply go_move_ok; try done; [unfold pc_ok; simpl; rewrite length_zip; lia|simpl; lia| |by left].
    unfold tickets_of. simpl. rewrite Hpc, fst_zip_eq; [done|]. lia.
  - simplify_eq. eapply go_move_ok; try done; [simpl; lia| |by left]. unfold tickets_of. simpl. by rewrite Hpc.
  - unfold pc_ok in Hp. rewrite Hpc in Hp. simpl in Hp. simplify_eq.
    eapply go_move_ok; try done; [unfold pc_ok; simpl; lia|unfold tickets_of; simpl; by rewrite Hpc|by left].
  - unfold refresh_step in Hstep. destruct (refreshTTLOnRead _ _ _) as [s1 st1]. simplify_eq.
    eapply go_move_ok; try done; [simpl; lia| |by left]. unfold tickets_of. simpl. by rewrite Hpc.
  - unfold tryRetire in Hstep. destruct (go_mu g) eqn:Hmu; [done|].
    destruct (decide (go_reqs g ≠ [] ∨ _)) as [|Hn]; simpl in Hstep; simplify_eq.
    + eapply go_move_ok; try done; [simpl; lia| |by left]. unfold tickets_of. simpl. by rewrite Hpc.
    + assert (go_reqs g = []) as Hr by (destruct (decide (go_reqs g = [])); tauto).
      eapply go_move_ok; try done; [simpl; lia| |by right]. unfold tickets_of. simpl. by rewrite Hpc.
  - unfold pc_ok in Hp. rewrite Hpc in Hp. destruct (go_reqs g) as [|[t req] rest] eqn:Hr; simplify_eq.
    + eapply go_move_ok; try done; [simpl; lia| |by left]. unfold tickets_of. simpl. by rewrite Hpc.
    + eapply go_move_ok; try done; [by unfold pc_ok; simpl; rewrite Hpc|simpl; rewrite Hr; simpl; lia| |by left].
      unfold tickets_of. simpl. by rewrite Hpc, Hr.
Qed.

(** *** The rest *)

Lemma traffic_flag_ok w i g g' :
  traffic_ok w → tf_gos w !! i = Some g → go_reqs g' = go_reqs g → go_pc g' = go_pc g →
  go_mu g' = go_mu g → go_stop g' = go_stop g → go_dead g' = go_dead g → traffic_ok (set_go i g' w).
Proof.
  intros Hok Hi Hr Hpc Hmu Hs Hd. pose proof (to_gos _ Hok i g Hi) as [_ Hp _ _ _ _ _].
  apply (go_move_ok w i g g' (tf_store w) (tf_slot w) []); try done; rewrite ?Hr; try (simpl; lia).
  - unfold pc_ok in *. by rewrite Hpc, Hd, Hr.
  - unfold tickets_of. by rewrite Hpc, Hr.
  - by left.
Qed.

Lemma traffic_delete_ok w w' : traffic_ok w → delete_go path w = Some w' → traffic_ok w'.
Proof.
  intros Hok. unfold delete_go. destruct (tf_delete w) as [|ops|ops i|ops] eqn:Hd.
  - destruct (deletePlan path (tf_store w)); intros [= <-];
      (eapply traffic_ok_frame; [exact Hok|done|done|done|done| |done|apply Hok]);
      intros j [?|[? ?]]; [by left|congruence|by left|congruence].
  - destruct (tf_slot w) as [i|] eqn:Hs; intros [= <-].
    + destruct (to_slot _ Hok i Hs) as (g & Hg & Hgd).
      split; cbn [tf_gos tf_slot tf_delete]; try done; [| |apply Hok].
      * intros j h Hj. eapply go_ok_frame; [by apply Hok|done|done|].
        intros _ [Hh|[ops' Hh]]; [|congruence]. right. exists ops. cbn. congruence.
      * intros ops' j [= _ <-]. split; [done|by eapply lookup_lt_Some].
    + eapply traffic_ok_frame; [exact Hok|done|done|done|done| |done|apply Hok].
      intros j [?|[? ?]]; [by left|congruence].
  - destruct (tf_gos w !! i) as [g|] eqn:Hi; [|done]. simpl. destruct (go_mu g) eqn:Hmu; [done|].
    destruct (to_mark _ Hok ops i Hd) as [Hs Hlt]. pose proof (to_gos _ Hok i g Hi) as [Hq0 Hp0 Hst0 Ho0 Hm0 Hw0 H10].
    assert (Hhome : ∀ j, j ≠ i → home w j → False) by (intros j Hj [?|[? ?]]; congruence).
    destruct (go_dead g) eqn:Hgd; intros [= <-].
    + split; cbn [tf_gos tf_slot tf_delete set_delete]; [|apply Hok|done|apply Hok].
      intros j h Hj. eapply go_ok_frame; [by apply Hok|done|done|]. intros Hh [Hh'|[? Hh']]; [congruence|].
      assert (j = i) as -> by congruence. congruence.
    + eapply traffic_ok_update; [exact Hok|exact Hi|done|..]; try done; [|naive_solver| |apply Hok].
      * split; simpl; try done. unfold pc_ok in *. simpl. destruct (go_pc g); naive_solver.
      * intros j Hj. cbn in Hj. congruence.
  - destruct (store_Commit _ _ _) as [s' err]. intros [= <-].
    eapply traffic_ok_frame; [exact Hok|done|done|done|done| |done|apply Hok].
    intros j [?|[? ?]]; [by left|congruence].
Qed.

Lemma traffic_texec_ok w ev w' : traffic_ok w → texec cfg path w ev = Some w' → traffic_ok w'.
Proof.
  intros Hok Hev. destruct ev as [req hint|t|i ev| |i|i lp sse|ops]; [by eapply traffic_arrive_ok|by eapply traffic_client_ok| |by apply (traffic_delete_ok w)|..];
    simpl in Hev.
  - destruct (tf_gos w !! i) as [g|] eqn:Hi; [|done]. simpl in Hev.
    destruct (go_step _ _ _ _ _) as [[[[s' slot'] g'] rs]|] eqn:Hg; [|done]. injection Hev as <-.
    by eapply go_step_ok.
  - destruct (tf_gos w !! i) as [g|] eqn:Hi; [|done]. simpl in Hev. destruct (go_mu g); [done|].
    destruct (go_dead g); injection Hev as <-; [done|]. by eapply traffic_flag_ok.
  - destruct (tf_gos w !! i) as [g|] eqn:Hi; [|done]. simpl in Hev. case_decide; [|done].
    injection Hev as <-. by eapply traffic_flag_ok.
  - injection Hev as <-. by apply (traffic_ok_frame w); try done; apply Hok.
Qed.

Lemma texec_all_ok w evs w' : traffic_ok w → texec_all cfg path w evs = Some w' → traffic_ok w'.
Proof.
  revert w. induction evs as [|ev evs IH]; intros w Hok; simpl; [by intros [= <-]|].
  destruct (texec cfg path w ev) as [w1|] eqn:E; [|done]. simpl. apply IH. by eapply traffic_texec_ok.
Qed.

Lemma reached_ok s evs w : texec_all cfg path (traffic_start s) evs = Some w → traffic_ok w.
Proof. apply texec_all_ok, traffic_start_ok. Qed.

(** ** A reply is final *)

Lemma pcs_answer w rs t :
  pcs (answer rs w) t = pcs w t ∨ t ∈ rs.*1.
Proof.
  revert w. induction rs as [|r rs IH]; intros w; [by left|]. simpl. rewrite elem_of_cons.
  destruct (IH (set_client r.1 (ClDone (Ok (Some r.2))) w)) as [E|?]; [|auto]. cbn in E. rewrite E.
  rewrite pcs_set_client. case_decide; auto.
Qed.

(** The goroutine answers only what was waiting. *)
Lemma go_step_answers w i g ev s' slot' g' rs :
  go_step (tf_store w) (tf_slot w) i g ev = Some (s', slot', g', rs) → ∀ t, t ∈ rs.*1 → t ∈ tickets_of g.
Proof.
  unfold go_step, tickets_of. intros Hs t.
  destruct (go_pc g) as [|batch|ts c|[|r rest]| | | |]; destruct ev; try done;
    repeat (case_match; try done); simplify_eq/=; try (by intros ?%elem_of_nil).
  - intros ->%list_elem_of_singleton. apply elem_of_cons. by left.
  - destruct (tryRetire _ _ _) as [[??]|]; [|done]. simplify_eq/=. by intros ?%elem_of_nil.
  - intros ->%list_elem_of_singleton. apply elem_of_cons. by left.
Qed.

(** A client whose [submitAppend] has returned stays as it is. *)
Lemma texec_done w ev w' t r :
  traffic_ok w → texec cfg path w ev = Some w' → pcs w t = Some (ClDone r) → pcs w' t = Some (ClDone r).
Proof.
  intros Hok Hev Ht.
  assert (Hset : ∀ w u pc, pcs w u ≠ Some (ClDone r) → pcs w t = Some (ClDone r) →
    pcs (set_client u pc w) t = Some (ClDone r))
    by (intros v u pc Hu Hv; rewrite pcs_set_client; case_decide; [subst; done|done]).
  destruct ev as [req hint|u|i ev| |i|i lp sse|ops]; simpl in Hev.
  - destruct (from_option _ _ _); [|done]. injection Hev as <-. unfold pcs in *. cbn [tf_clients].
    destruct (tf_clients w !! t) as [c|] eqn:Hc; [|done]. by rewrite lookup_app_l, Hc by (by eapply lookup_lt_Some).
  - unfold client_step in Hev. destruct (tf_clients w !! u) as [c|] eqn:Hc; [|done]. simpl in Hev.
    assert (Hu : pcs w u ≠ Some (ClDone r) ∨ ∃ r', cl_pc c = ClDone r')
      by (unfold pcs; rewrite Hc; simpl; destruct (cl_pc c); naive_solver).
    destruct Hu as [Hu|[r' E]]; [|by rewrite E in Hev].
    destruct (cl_pc c) as [|i|i|i|r2]; [|destruct (tf_gos w !! i) as [g|]; [simpl in Hev|done]..|done|done].
    + unfold lookup_step in Hev. repeat (case_match; try done); simplify_eq; by apply Hset.
    + destruct (go_mu g); [done|]. simplify_eq. by apply Hset.
    + destruct (go_dead g); [simplify_eq; by apply Hset|]. case_decide; [|done]. simplify_eq. by apply Hset.
  - destruct (tf_gos w !! i) as [g|] eqn:Hi; [|done]. simpl in Hev.
    destruct (go_step _ _ _ _ _) as [[[[s' slot'] g'] rs]|] eqn:Hg; [|done]. injection Hev as <-.
    match goal with |- pcs (answer rs ?v) t = _ => destruct (pcs_answer v rs t) as [E|Hin] end; [by rewrite E|].
    apply (go_step_answers w i g ev _ _ _ _ Hg) in Hin. apply (gi_wait _ _ _ (to_gos _ Hok i g Hi)) in Hin. congruence.
  - unfold delete_go in Hev. destruct (tf_delete w) as [|o|o i|o].
    + by destruct (deletePlan _ _); injection Hev as <-.
    + by destruct (tf_slot w); injection Hev as <-.
    + destruct (tf_gos w !! i) as [g|]; [|done]. simpl in Hev. destruct (go_mu g); [done|].
      by destruct (go_dead g); injection Hev as <-.
    + by destruct (store_Commit _ _ _); injection Hev as <-.
  - destruct (tf_gos w !! i) as [g|]; [|done]. simpl in Hev. destruct (go_mu g); [done|].
    by destruct (go_dead g); injection Hev as <-.
  - destruct (tf_gos w !! i) as [g|]; [|done]. simpl in Hev. case_decide; [|done]. by injection Hev as <-.
  - by injection Hev as <-.
Qed.

Lemma texec_all_done w evs w' t r :
  traffic_ok w → texec_all cfg path w evs = Some w' → pcs w t = Some (ClDone r) → pcs w' t = Some (ClDone r).
Proof.
  revert w. induction evs as [|ev evs IH]; intros w Hok; simpl; [by intros [= <-]|].
  destruct (texec cfg path w ev) as [w1|] eqn:E; [|done]. simpl. intros Hr Ht.
  eapply IH; [by eapply traffic_texec_ok|done|by eapply texec_done].
Qed.

End invariant.

(** ** Progress *)

Section progress.
  Context {S : Type} `{Storage S}.
  Context (cfg : cacheConfig) (path : bytes).
  Implicit Types w : traffic (S := S).

(** The steps the program takes by itself: no new client, reader or deletion, and
    no timer. *)
Definition internal w (ev : tevent) : bool :=
  match ev with
  | Client _ => true
  | Go _ TakeTimer => false
  | Go _ _ => true
  | Delete => match tf_delete w with DeIdle => false | _ => true end
  | _ => false
  end.
Definition istep w w' : Prop := ∃ ev, internal w ev = true ∧ texec cfg path w ev = Some w'.

(** The goroutine waits in [tryRetire] for the lock, and its holder waits for room in
    the queue that only the goroutine makes. *)
Definition deadlocked w (i : nat) : Prop :=
  ∃ g t, tf_gos w !! i = Some g ∧ go_pc g = GoRetire ∧ go_dead g = false ∧ go_mu g = Some t ∧
    length (go_reqs g) = maxBurst ∧ pcs w t = Some (ClLocked i).

Definition unanswered (c : client) : bool := match cl_pc c with ClDone _ => false | _ => true end.

Definition moves w : Prop := (∃ w', istep w w') ∨ ∃ i, deadlocked w i.

Lemma moves_by w ev w' : internal w ev = true → texec cfg path w ev = Some w' → moves w.
Proof. intros. left. exists w'. by exists ev. Qed.

(** Outside of the [select] and of [tryRetire] a goroutine always goes on. *)
Lemma go_moves w i g :
  tf_gos w !! i = Some g →
  match go_pc g with GoSelect | GoRetire | GoEnd => False | _ => True end → moves w.
Proof.
  intros Hi Hpc. destruct (go_step (tf_store w) (tf_slot w) i g (Proceed 0)) as [[[[s' sl] g'] rs]|] eqn:E.
  - eapply (moves_by w (Go i (Proceed 0))); [done|]. simpl. rewrite Hi. simpl. rewrite E. done.
  - exfalso. unfold go_step in E. destruct (go_pc g) as [|batch|ts c|[|r rest]| | | |]; try done.
    + by destruct (commit_step _ _ _ _).
    + by destruct (refresh_step _ _ _).
    + by destruct (go_reqs g) as [|[? ?] ?].
Qed.

Lemma queue_moves w i g :
  tf_gos w !! i = Some g → go_pc g = GoSelect → go_reqs g ≠ [] → moves w.
Proof.
  intros Hi Hpc Hr. destruct (go_reqs g) as [|r rest] eqn:Hq; [done|].
  eapply (moves_by w (Go i TakeReq)); [done|]. simpl. rewrite Hi. simpl. unfold go_step. by rewrite Hpc, Hq.
Qed.

Lemma client_moves w t w' : client_step cfg path w t = Some w' → moves w.
Proof. by apply (moves_by w (Client t)). Qed.

Lemma locked_moves w t i : traffic_ok w → pcs w t = Some (ClLocked i) → moves w.
Proof.
  intros Hok Ht. destruct (lookup_lt_is_Some_2 (tf_gos w) i) as [g Hi]; [by apply (to_clients _ Hok) in Ht|].
  pose proof (to_gos _ Hok i g Hi) as [Hq Hp _ _ Hm _ _]. pose proof (proj2 (Hm t) Ht) as Hmu.
  unfold pcs in Ht. destruct (tf_clients w !! t) as [c|] eqn:Hc; [|done]. simpl in Ht. injection Ht as Hpc.
  destruct (go_dead g) eqn:Hd; [|destruct (decide (length (go_reqs g) < maxBurst)%nat) as [Hroom|Hfull]].
  - eapply (client_moves w t). unfold client_step. rewrite Hc. simpl. rewrite Hpc, Hi. simpl. by rewrite Hd.
  - eapply (client_moves w t). unfold client_step. rewrite Hc. simpl. rewrite Hpc, Hi. simpl.
    by rewrite Hd, decide_True.
  - assert (Hlen : length (go_reqs g) = maxBurst) by lia. unfold pc_ok in Hp.
    destruct (go_pc g) eqn:Hgo; try (by eapply (go_moves w i g); [|rewrite Hgo]).
    + eapply queue_moves; [done|done|]. intros Hn. by rewrite Hn in Hlen.
    + right. exists i, g, t. unfold pcs. rewrite Hc. simpl. by rewrite Hpc.
    + by destruct Hp as [Hp _]; rewrite ?Hd in Hp.
Qed.

(** The lock of a streamer becomes free. *)
Lemma mu_moves w i g t : traffic_ok w → tf_gos w !! i = Some g → go_mu g = Some t → moves w.
Proof.
  intros Hok Hi Hmu. eapply (locked_moves w t i); [done|]. by apply (gi_mu _ _ _ (to_gos _ Hok i g Hi)).
Qed.

Lemma ticket_moves w i g t : traffic_ok w → tf_gos w !! i = Some g → t ∈ tickets_of g → moves w.
Proof.
  intros Hok Hi Ht. pose proof (to_gos _ Hok i g Hi) as [_ Hp _ _ _ _ _]. unfold tickets_of, pc_ok in *.
  destruct (go_pc g) eqn:Hpc; try (by eapply (go_moves w i g); [|rewrite Hpc]).
  - eapply queue_moves; [done|done|]. intros Hn. rewrite Hn in Ht. by apply elem_of_nil in Ht.
  - destruct (go_mu g) as [u|] eqn:Hmu; [by eapply mu_moves|].
    destruct (go_step (tf_store w) (tf_slot w) i g (Proceed 0)) as [[[[s' sl] g'] rs]|] eqn:E.
    + eapply (moves_by w (Go i (Proceed 0))); [done|]. simpl. rewrite Hi. simpl. by rewrite E.
    + exfalso. unfold go_step, tryRetire in E. rewrite Hpc, Hmu in E. by case_decide.
  - destruct Hp as [_ Hn]. rewrite Hn in Ht. by apply elem_of_nil in Ht.
Qed.

Lemma delete_moves w : traffic_ok w → tf_delete w ≠ DeIdle → moves w.
Proof.
  intros Hok Hd. destruct (delete_go path w) as [w'|] eqn:E.
  - eapply (moves_by w Delete); [|done]. simpl. by destruct (tf_delete w).
  - unfold delete_go in E. destruct (tf_delete w) as [|ops|ops i|ops] eqn:Hde; [done| | |].
    + by destruct (tf_slot w).
    + destruct (to_mark _ Hok ops i Hde) as [_ Hlt]. apply lookup_lt_is_Some_2 in Hlt as [g Hi].
      rewrite Hi in E. simpl in E. destruct (go_mu g) as [t|] eqn:Hmu; [by eapply mu_moves|done].
    + by destruct (store_Commit _ _ _).
Qed.

(** A request that is not answered can go on, or something it waits for can. *)
Lemma client_waits_moves w t pc :
  traffic_ok w → pcs w t = Some pc → (∀ r, pc ≠ ClDone r) → moves w.
Proof.
  intros Hok Ht Hnd. pose proof (to_clients _ Hok t pc Ht) as Hb.
  assert (Hc : ∃ c, tf_clients w !! t = Some c ∧ cl_pc c = pc).
  { unfold pcs in Ht. destruct (tf_clients w !! t) as [c|]; [|done]. injection Ht as <-. by exists c. }
  destruct Hc as (c & Hc & Hpc). destruct pc as [|i|i|i|r]; [| | | |naive_solver].
  - destruct (lookup_step cfg path w t) as [w'|] eqn:E.
    + eapply (client_moves w t). unfold client_step. rewrite Hc. simpl. by rewrite Hpc.
    + apply delete_moves; [done|]. intros Hd. unfold lookup_step, spawn_locked in E. rewrite Hd in E.
      destruct (tf_slot w); [done|]. by repeat case_match.
  - apply lookup_lt_is_Some_2 in Hb as [g Hi]. destruct (go_mu g) as [u|] eqn:Hmu; [by eapply mu_moves|].
    eapply (client_moves w t). unfold client_step. rewrite Hc. simpl. rewrite Hpc, Hi. simpl. by rewrite Hmu.
  - by eapply locked_moves.
  - apply lookup_lt_is_Some_2 in Hb as [g Hi]. eapply ticket_moves; [done|done|].
    by apply (gi_wait _ _ _ (to_gos _ Hok i g Hi)).
Qed.

(** *** How much is left to do

    A measure that every internal step decreases. A client looks a streamer up again
    only after a streamer died, by a deletion under way or by a retirement begun. *)

Definition pc_work (pc : run_pc) : nat :=
  match pc with
  | GoSelect => 3
  | GoDrain batch => 20 * length batch + 6
  | GoCommit tickets _ => 20 * length tickets + 5
  | GoReply replies => 10 * length replies + 4
  | GoRefresh | GoRetire => 4
  | GoStop => 2
  | GoEnd => 0
  end.
Definition go_work (g : goroutine) : nat :=
  30 * length (go_reqs g) + pc_work (go_pc g) + (if go_touch g then 5 else 0).
Definition client_work (gone : nat → bool) (c : client) : nat :=
  match cl_pc c with
  | ClLookup => 40
  | ClHave i => if gone i then 42 else 32
  | ClLocked i => if gone i then 41 else 31
  | ClWait _ | ClDone _ => 0
  end.
Definition retiring (g : goroutine) : nat := match go_pc g with GoRetire => 1 | _ => 0 end.
Definition delete_work (pc : delete_pc) : nat :=
  match pc with DeIdle => 0 | DeCommit _ => 1 | DeMark _ _ => 2 | DeRemove _ => 3 end.
Definition gone (gos : list goroutine) (i : nat) : bool := from_option go_dead false (gos !! i).

Definition work_of (gos : list goroutine) (cls : list client) (d : delete_pc) : nat :=
  (sum_list_with retiring gos + delete_work d) * (10 * length cls + 10)
  + sum_list_with (client_work (gone gos)) cls + sum_list_with go_work gos.
Definition work w : nat := work_of (tf_gos w) (tf_clients w) (tf_delete w).

Lemma client_work_ext gone1 gone2 c : (∀ j, gone1 j = gone2 j) → client_work gone1 c = client_work gone2 c.
Proof. intros E. unfold client_work. destruct (cl_pc c); by rewrite ?E. Qed.

Lemma clients_work_ext gone1 gone2 cls :
  (∀ j, gone1 j = gone2 j) →
  sum_list_with (client_work gone1) cls = sum_list_with (client_work gone2) cls.
Proof. intros E. induction cls as [|c cls IH]; simpl; [done|]. by rewrite IH, (client_work_ext gone1 gone2). Qed.

(** A client may have to look up again when a streamer dies. *)
Lemma client_work_gone gone1 gone2 c : (client_work gone1 c ≤ client_work gone2 c + 10)%nat.
Proof. unfold client_work. destruct (cl_pc c); repeat case_match; lia. Qed.

Lemma gone_insert gos i g g' j :
  gos !! i = Some g → go_dead g' = go_dead g → gone (<[i:=g']> gos) j = gone gos j.
Proof.
  intros Hi Hd. unfold gone. destruct (decide (i = j)) as [<-|Hne]; [|by rewrite list_lookup_insert_ne].
  rewrite list_lookup_insert_eq, Hi by (by eapply lookup_lt_Some). done.
Qed.

Lemma alter_insert {A} (f : A → A) (l : list A) i x : l !! i = Some x → alter f i l = <[i:=f x]> l.
Proof. revert i. induction l as [|y l IH]; intros [|i] Hi; simplify_eq/=; [done|]. f_equal. by apply IH. Qed.

Lemma alter_absent {A} (f : A → A) (l : list A) i : l !! i = None → alter f i l = l.
Proof. revert i. induction l as [|y l IH]; intros [|i] Hi; simplify_eq/=; [done..|]. f_equal. by apply IH. Qed.

(** A client goes on to [pc]. *)
Lemma work_client w t c pc :
  tf_clients w !! t = Some c →
  (client_work (gone (tf_gos w)) (mkClient (cl_req c) pc) < client_work (gone (tf_gos w)) c)%nat →
  (work (set_client t pc w) < work w)%nat.
Proof.
  intros Ht Hlt. unfold work, set_client, work_of. cbn [tf_gos tf_clients tf_delete].
  erewrite alter_insert by done. rewrite length_insert.
  pose proof (sum_insert (client_work (gone (tf_gos w))) _ t c (mkClient (cl_req c) pc) Ht). lia.
Qed.

(** It goes on together with a streamer. *)
Lemma work_both w t c pc i g g' :
  tf_clients w !! t = Some c → tf_gos w !! i = Some g → go_dead g' = go_dead g → retiring g' = retiring g →
  (client_work (gone (tf_gos w)) (mkClient (cl_req c) pc) + go_work g'
   < client_work (gone (tf_gos w)) c + go_work g)%nat →
  (work (set_client t pc (set_go i g' w)) < work w)%nat.
Proof.
  intros Ht Hi Hd Hr Hlt. unfold work, set_client, set_go, work_of. cbn [tf_gos tf_clients tf_delete].
  erewrite alter_insert by done. rewrite length_insert.
  rewrite (clients_work_ext (gone (<[i:=g']> (tf_gos w))) (gone (tf_gos w))) by (intros; by eapply gone_insert).
  pose proof (sum_insert (client_work (gone (tf_gos w))) _ t c (mkClient (cl_req c) pc) Ht).
  pose proof (sum_insert retiring _ i g g' Hi). pose proof (sum_insert go_work _ i g g' Hi).
  assert (sum_list_with retiring (<[i:=g']> (tf_gos w)) = sum_list_with retiring (tf_gos w)) as -> by lia. lia.
Qed.

(** A goroutine goes on, and dies only when it retires. *)
Lemma work_go gos cls d i g g' :
  gos !! i = Some g → go_dead g' = go_dead g ∧ (retiring g' ≤ retiring g)%nat ∧ (go_work g' < go_work g)%nat
    ∨ (retiring g' < retiring g)%nat ∧ (go_work g' ≤ go_work g)%nat →
  (work_of (<[i:=g']> gos) cls d < work_of gos cls d)%nat.
Proof.
  intros Hi Hc. unfold work_of.
  pose proof (sum_insert retiring gos i g g' Hi). pose proof (sum_insert go_work gos i g g' Hi).
  destruct Hc as [(Hd & Hr & Hg)|[Hr Hg]].
  - rewrite (clients_work_ext (gone (<[i:=g']> gos)) (gone gos)) by (intros; by eapply gone_insert). nia.
  - pose proof (sum_le (client_work (gone (<[i:=g']> gos))) (client_work (gone gos)) 10 cls
      (client_work_gone _ _)). nia.
Qed.

Lemma work_answer w rs : (work (answer rs w) ≤ work w)%nat.
Proof.
  revert w. induction rs as [|r rs IH]; intros w; [done|]. simpl. etrans; [apply IH|].
  unfold work, set_client. cbn [tf_gos tf_clients tf_delete]. unfold work_of.
  destruct (tf_clients w !! r.1) as [c|] eqn:Hc.
  - erewrite alter_insert by done. rewrite length_insert.
    pose proof (sum_insert (client_work (gone (tf_gos w))) (tf_clients w) r.1 c
      (mkClient (cl_req c) (ClDone (Ok (Some r.2)))) Hc) as Hs.
    change (client_work (gone (tf_gos w)) (mkClient _ (ClDone _))) with 0%nat in Hs. lia.
  - by rewrite alter_absent.
Qed.

Lemma lookup_work w t c w' :
  traffic_ok w → tf_clients w !! t = Some c → cl_pc c = ClLookup →
  lookup_step cfg path w t = Some w' → (work w' < work w)%nat.
Proof.
  intros Hok Hc Hpc. unfold lookup_step.
  assert (H40 : client_work (gone (tf_gos w)) c = 40%nat) by (unfold client_work; by rewrite Hpc).
  destruct (tf_slot w) as [i|] eqn:Hs.
  - intros [= <-]. eapply work_client; [done|]. rewrite H40. unfold client_work. simpl.
    destruct (gone (tf_gos w) i) eqn:Hg; [|lia]. destruct (to_slot _ Hok i Hs) as (g & Hi & Hd).
    unfold gone in Hg. rewrite Hi in Hg. simpl in Hg. congruence.
  - destruct (spawn_locked w); [done|]. intros Hw.
    match type of Hw with context [match ?x with Ok _ => _ | Err _ => _ end] => destruct x as [[st|]|e] end;
      injection Hw as <-; [|by eapply work_client; [done|rewrite H40; unfold client_work; simpl; lia]..].
    unfold work, set_client. cbn [tf_gos tf_clients tf_delete].
    assert (Hg : ∀ j, gone (tf_gos w ++ [start_run st]) j = gone (tf_gos w) j).
    { intros j. unfold gone. destruct (tf_gos w !! j) as [g|] eqn:Hj;
        [by rewrite lookup_app_l, Hj by (by eapply lookup_lt_Some)|].
      destruct ((tf_gos w ++ [start_run st]) !! j) as [g|] eqn:Hj'; [|done].
      apply lookup_app_Some in Hj' as [?|[_ Hj']]; [congruence|].
      by apply list_lookup_singleton_Some in Hj' as [_ <-]. }
    unfold work_of. rewrite (clients_work_ext _ _ _ Hg), !sum_list_with_app.
    erewrite alter_insert by done. rewrite length_insert.
    pose proof (sum_insert (client_work (gone (tf_gos w))) (tf_clients w) t c
      (mkClient (cl_req c) (ClHave (length (tf_gos w)))) Hc) as Hsum.
    assert (H32 : client_work (gone (tf_gos w)) (mkClient (cl_req c) (ClHave (length (tf_gos w)))) = 32%nat).
    { unfold client_work, gone. simpl. by rewrite (lookup_ge_None_2 (tf_gos w)). }
    rewrite H40, H32 in Hsum. change (sum_list_with retiring [start_run st]) with 0%nat.
    change (sum_list_with go_work [start_run st]) with 3%nat. rewrite Nat.add_0_r. lia.
Qed.

Lemma client_step_work w t w' : traffic_ok w → client_step cfg path w t = Some w' → (work w' < work w)%nat.
Proof.
  intros Hok. unfold client_step. destruct (tf_clients w !! t) as [c|] eqn:Hc; [|done]. simpl.
  destruct (cl_pc c) as [|i|i|i|r] eqn:Hpc; [by eapply lookup_work|..|done|done];
    destruct (tf_gos w !! i) as [g|] eqn:Hi; [simpl|done|simpl|done].
  all: assert (Hgone : gone (tf_gos w) i = go_dead g) by (unfold gone; by rewrite Hi).
  - destruct (go_mu g); [done|]. intros [= <-]. eapply work_both; [exact Hc|exact Hi|done|done|].
    unfold client_work, go_work. simpl. rewrite Hpc, Hgone. destruct (go_dead g); lia.
  - destruct (go_dead g) eqn:Hd; [|case_decide; [|done]]; intros [= <-];
      (eapply work_both; [exact Hc|exact Hi|done|done|]); unfold client_work, go_work; simpl; rewrite Hpc, Hgone; [lia|].
    rewrite length_app. simpl. lia.
Qed.

Lemma drain_work s now batch g :
  go_pc g = GoDrain batch → let g' := drain_step s now batch g in
  go_dead g' = go_dead g ∧ (retiring g' ≤ retiring g)%nat ∧ (go_work g' < go_work g)%nat.
Proof.
  intros Hpc. simpl. unfold drain_step.
  pose proof (planBurst_length s (go_st g) now batch.*2) as Hl. rewrite length_fmap in Hl.
  destruct (planBurst _ _ _ _) as [st [rs|c]]; cbn [snd] in Hl; destruct (go_reqs g) as [|r rest] eqn:Hr;
    try case_decide; unfold retiring, go_work; simpl; rewrite Hpc, Hr; simpl;
    rewrite ?length_zip, ?length_fmap, ?length_app; simpl; split_and!; try done; lia.
Qed.

Lemma go_step_work w i g ev s' slot' g' rs :
  traffic_ok w → tf_gos w !! i = Some g → (match ev with TakeTimer => False | _ => True end) →
  go_step (tf_store w) (tf_slot w) i g ev = Some (s', slot', g', rs) →
  (work_of (<[i:=g']> (tf_gos w)) (tf_clients w) (tf_delete w) < work w)%nat.
Proof.
  intros Hok Hi Hev Hstep. apply (work_go _ _ _ i g g' Hi). pose proof (gi_pc _ _ _ (to_gos _ Hok i g Hi)) as Hp.
  unfold go_step in Hstep. unfold pc_ok in Hp.
  destruct (go_pc g) as [|batch|ts c|[|r rest]| | | |] eqn:Hpc; destruct ev; try done.
  - destruct (go_reqs g) as [|r rest] eqn:Hr; [done|]. simplify_eq. left.
    unfold retiring, go_work. simpl. rewrite Hpc, Hr. simpl. split_and!; [done|done|lia].
  - destruct (go_touch g) eqn:Ht; [|done]. simplify_eq. left.
    unfold retiring, go_work. simpl. rewrite Hpc, Ht. simpl. split_and!; [done|done|lia].
  - destruct (go_stop g); [|done]. simplify_eq. left.
    unfold retiring, go_work. simpl. rewrite Hpc. simpl. split_and!; [done|done|lia].
  - simplify_eq. left. by apply drain_work.
  - unfold commit_step in Hstep. pose proof (syncCommit_length (tf_store w) (go_st g) c) as Hl.
    destruct (syncCommit _ _ _) as [[s1 st1] resps]. simplify_eq. cbn [snd] in Hl. left.
    unfold retiring, go_work. simpl. rewrite Hpc. simpl. rewrite length_zip. split_and!; [done|done|lia].
  - simplify_eq. left. unfold retiring, go_work. simpl. rewrite Hpc. simpl. split_and!; [done|done|lia].
  - simplify_eq. left. unfold retiring, go_work. simpl. rewrite Hpc. simpl. split_and!; [done|done|lia].
  - unfold refresh_step in Hstep. destruct (refreshTTLOnRead _ _ _) as [s1 st1]. simplify_eq. left.
    unfold retiring, go_work. simpl. rewrite Hpc. simpl. split_and!; [done|done|lia].
  - unfold tryRetire in Hstep. destruct (go_mu g); [done|].
    destruct (decide (go_reqs g ≠ [] ∨ _)); simpl in Hstep; simplify_eq; right;
      unfold retiring, go_work; simpl; rewrite Hpc; simpl; split; lia.
  - destruct (go_reqs g) as [|[t req] rest] eqn:Hr; simplify_eq; left;
      unfold retiring, go_work; simpl; rewrite Hpc, Hr; simpl; split_and!; done || lia.
Qed.

Lemma delete_work_less w w' :
  internal w Delete = true → delete_go path w = Some w' → (work w' < work w)%nat.
Proof.
  simpl. unfold delete_go. destruct (tf_delete w) as [|ops|ops i|ops] eqn:Hd; [done| | |]; intros _.
  - destruct (tf_slot w); intros [= <-]; unfold work, work_of; cbn; rewrite Hd; cbn; lia.
  - destruct (tf_gos w !! i) as [g|] eqn:Hi; [|done]. simpl. destruct (go_mu g); [done|].
    destruct (go_dead g); intros [= <-]; unfold work, work_of; cbn [tf_gos tf_clients tf_delete set_delete set_go];
      rewrite Hd; simpl delete_work; [lia|].
    pose proof (sum_insert retiring _ i g (set_dead true g) Hi) as H1.
    pose proof (sum_insert go_work _ i g (set_dead true g) Hi) as H2.
    change (retiring (set_dead true g)) with (retiring g) in H1. change (go_work (set_dead true g)) with (go_work g) in H2.
    pose proof (sum_le (client_work (gone (<[i:=set_dead true g]> (tf_gos w)))) (client_work (gone (tf_gos w))) 10
      (tf_clients w) (client_work_gone _ _)). nia.
  - destruct (store_Commit _ _ _) as [s' err]. intros [= <-]. unfold work, work_of. cbn. rewrite Hd. cbn. lia.
Qed.

Lemma istep_work w w' : traffic_ok w → istep w w' → (work w' < work w)%nat.
Proof.
  intros Hok (ev & Hint & Hev). destruct ev as [?|t|i ev| |?|?|?]; try done; simpl in Hev.
  - by eapply client_step_work.
  - destruct (tf_gos w !! i) as [g|] eqn:Hi; [|done]. simpl in Hev.
    destruct (go_step _ _ _ _ _) as [[[[s' slot'] g'] rs]|] eqn:Hg; [|done]. injection Hev as <-.
    eapply Nat.le_lt_trans; [apply work_answer|].
    change (work_of (<[i:=g']> (tf_gos w)) (tf_clients w) (tf_delete w) < work w)%nat.
    eapply (go_step_work w i g ev); [done|done| |exact Hg]. by destruct ev.
  - by eapply delete_work_less.
Qed.

Lemma istep_ok w w' : traffic_ok w → istep w w' → traffic_ok w'.
Proof. intros Hok (ev & _ & Hev). by eapply traffic_texec_ok. Qed.

Lemma isteps_work n w w' : traffic_ok w → nsteps istep n w w' → (n + work w' ≤ work w)%nat.
Proof.
  intros Hok Hn. induction Hn as [|n w w1 w' H1 Hn IH]; [lia|].
  specialize (IH (istep_ok _ _ Hok H1)). pose proof (istep_work _ _ Hok H1). lia.
Qed.

(** *** The one way to get stuck *)

(** As [deadlocked], with what is in the queue and who holds the lock. *)
Definition stuck w (i : nat) (q : list request) (u : nat) : Prop :=
  ∃ g, tf_gos w !! i = Some g ∧ go_pc g = GoRetire ∧ go_dead g = false ∧ go_mu g = Some u ∧
    go_reqs g = q ∧ length q = maxBurst.

Lemma tf_gos_answer w rs : tf_gos (answer rs w) = tf_gos w.
Proof. revert w. induction rs as [|r rs IH]; intros w; simpl; [done|]. by rewrite IH. Qed.

(** Whoever moves, it is not one of them. *)
Lemma stuck_stays w ev w' i q u : texec cfg path w ev = Some w' → stuck w i q u → stuck w' i q u.
Proof.
  intros Hev (g & Hi & Hpc & Hd & Hmu & Hq & Hlen).
  assert (Hother : ∀ j g', j ≠ i → <[j:=g']> (tf_gos w) !! i = Some g)
    by (intros; by rewrite list_lookup_insert_ne).
  assert (Hsame : ∀ w', tf_gos w' !! i = Some g → stuck w' i q u) by (intros v Hv; by exists g).
  destruct ev as [req hint|t|j ev| |j|j lp sse|ops]; simpl in Hev.
  - destruct (from_option _ _ _); [|done]. injection Hev as <-. by apply Hsame.
  - unfold client_step in Hev. destruct (tf_clients w !! t) as [c|]; [|done]. simpl in Hev.
    destruct (cl_pc c) as [|j|j|j|r]; try done.
    + unfold lookup_step in Hev. apply Hsame. repeat (case_match; try done); simplify_eq; try done.
      simpl. by rewrite lookup_app_l by (by eapply lookup_lt_Some).
    + destruct (tf_gos w !! j) as [h|] eqn:Hj; [|done]. simpl in Hev. destruct (go_mu h) eqn:Hm; [done|].
      injection Hev as <-. apply Hsame. apply Hother. congruence.
    + destruct (tf_gos w !! j) as [h|] eqn:Hj; [|done]. simpl in Hev. destruct (decide (j = i)) as [->|Hne].
      * assert (h = g) as -> by congruence. rewrite Hd, decide_False in Hev by (rewrite Hq; lia). done.
      * apply Hsame. destruct (go_dead h); [|case_decide; [|done]]; injection Hev as <-; by apply Hother.
  - destruct (tf_gos w !! j) as [h|] eqn:Hj; [|done]. simpl in Hev.
    destruct (go_step _ _ _ _ _) as [[[[s' slot'] g'] rs]|] eqn:Hg; [|done]. injection Hev as <-.
    apply Hsame. rewrite tf_gos_answer. simpl. apply Hother. intros ->. assert (h = g) as -> by congruence.
    unfold go_step, tryRetire in Hg. rewrite Hpc, Hmu in Hg. by destruct ev.
  - unfold delete_go in Hev. apply Hsame. destruct (tf_delete w) as [|o|o j|o].
    + by destruct (deletePlan _ _); injection Hev as <-.
    + by destruct (tf_slot w); injection Hev as <-.
    + destruct (tf_gos w !! j) as [h|] eqn:Hj; [|done]. simpl in Hev. destruct (go_mu h) eqn:Hm; [done|].
      destruct (go_dead h); injection Hev as <-; [done|]. apply Hother. congruence.
    + by destruct (store_Commit _ _ _); injection Hev as <-.
  - destruct (tf_gos w !! j) as [h|] eqn:Hj; [|done]. simpl in Hev. destruct (go_mu h) eqn:Hm; [done|].
    apply Hsame. destruct (go_dead h); injection Hev as <-; [done|]. apply Hother. congruence.
  - destruct (tf_gos w !! j) as [h|] eqn:Hj; [|done]. simpl in Hev. case_decide; [|done]. injection Hev as <-.
    destruct (decide (j = i)) as [->|Hne]; [|by apply Hsame, Hother]. assert (h = g) as -> by congruence.
    exists (set_st (set_readers lp sse (go_st g)) g). simpl.
    by rewrite list_lookup_insert_eq by (by eapply lookup_lt_Some).
  - injection Hev as <-. by apply Hsame.
Qed.

Lemma stuck_for_ever w evs w' i q u : texec_all cfg path w evs = Some w' → stuck w i q u → stuck w' i q u.
Proof.
  revert w. induction evs as [|ev evs IH]; intros w; simpl; [by intros [= <-]|].
  destruct (texec cfg path w ev) as [w1|] eqn:E; [|done]. simpl. intros Hr Hs. eapply IH; [done|].
  by eapply stuck_stays.
Qed.

(** ** Properties *)

(** C4: requests are answered once, by a streamer that is there. Whatever requests,
    readers, deletions, retirements and restarts interleave: a request that waits is
    in the queue or the burst of exactly one streamer, at one place, until it is
    answered, and its answer is final; queues and bursts hold at most 512; at most
    one streamer takes requests, and it is the registered one unless a deletion is
    about to stop it; and a streamer whose goroutine is gone has left nobody waiting. *)
Theorem requests_answered_once s evs w :
  texec_all cfg path (traffic_start s) evs = Some w →
  (∀ t i, pcs w t = Some (ClWait i) ↔ ∃ g, tf_gos w !! i = Some g ∧ t ∈ tickets_of g) ∧
  (∀ i g, tf_gos w !! i = Some g →
     NoDup (tickets_of g) ∧ (length (go_reqs g) ≤ maxBurst)%nat ∧
     (length (tickets_of g) ≤ 2 * maxBurst)%nat ∧
     (go_pc g = GoEnd → tickets_of g = [])) ∧
  (∀ i j g h, tf_gos w !! i = Some g → tf_gos w !! j = Some h →
     go_dead g = false → go_dead h = false → i = j) ∧
  (∀ t r evs' w', texec_all cfg path w evs' = Some w' →
     pcs w t = Some (ClDone r) → pcs w' t = Some (ClDone r)).
Proof.
  intros Hrun. pose proof (reached_ok _ _ _ _ _ Hrun) as Hok. split_and!.
  - intros t i. split.
    + intros Ht. pose proof (to_clients _ Hok t _ Ht) as [g Hi]%lookup_lt_is_Some_2. exists g. split; [done|].
      by apply (gi_wait _ _ _ (to_gos _ Hok i g Hi)).
    + intros (g & Hi & Ht). by apply (gi_wait _ _ _ (to_gos _ Hok i g Hi)).
  - intros i g Hi. pose proof (to_gos _ Hok i g Hi) as [Hq Hp _ _ _ _ H1]. split_and!; [done|done| |].
    + unfold tickets_of, pc_ok in *. rewrite length_app.
      destruct (go_pc g); cbn [pc_tickets]; rewrite ?length_fmap; cbn [length]; lia.
    + intros Hpc. unfold tickets_of, pc_ok in *. rewrite Hpc in *. destruct Hp as [_ ->]. done.
  - intros i j g h Hi Hj Hg Hh.
    destruct (gi_open _ _ _ (to_gos _ Hok i g Hi) Hg) as [Hsi|[o1 Hdi]],
      (gi_open _ _ _ (to_gos _ Hok j h Hj) Hh) as [Hsj|[o2 Hdj]]; try congruence.
    + destruct (to_mark _ Hok _ _ Hdj). congruence.
    + destruct (to_mark _ Hok _ _ Hdi). congruence.
  - intros t r evs' w' Hr. by eapply texec_all_done.
Qed.

(** C5: requests do not wait for ever. Left to itself, without new requests, readers,
    timers and deletions, the server comes to rest after finitely many steps, and
    then every request has been answered, or some streamer is caught in [tryRetire]:
    its goroutine waits for the lock, whose holder waits for room in the full queue. *)
Theorem requests_drain s evs w :
  texec_all cfg path (traffic_start s) evs = Some w →
  ∃ n, ∀ k w', nsteps istep k w w' →
    (k ≤ n)%nat ∧
    ((∃ w'', istep w' w'') ∨ (∀ t pc, pcs w' t = Some pc → ∃ r, pc = ClDone r) ∨ ∃ i, deadlocked w' i).
Proof.
  intros Hrun. pose proof (reached_ok _ _ _ _ _ Hrun) as Hok. exists (work w). intros k w' Hk.
  split; [pose proof (isteps_work _ _ _ Hok Hk); lia|].
  assert (Hok' : traffic_ok w').
  { clear Hrun. induction Hk as [|k w w1 w' H1 Hk IH]; [done|]. apply IH. by eapply istep_ok. }
  destruct (decide (Exists (λ c, unanswered c = true) (tf_clients w')))
    as [Hex|Hall].
  - apply Exists_exists in Hex as (c & [t Hc]%list_elem_of_lookup & Hpc).
    destruct (client_waits_moves w' t (cl_pc c) Hok') as [?|?]; [| |auto..];
      [unfold pcs; by rewrite Hc|]. intros r E. unfold unanswered in Hpc. by rewrite E in Hpc.
  - right. left. intros t pc Ht. unfold pcs in Ht. destruct (tf_clients w' !! t) as [c|] eqn:Hc; [|done].
    injection Ht as <-. destruct (cl_pc c) as [|i|i|i|r] eqn:Hpc; [..|by exists r];
      destruct Hall; apply Exists_exists; exists c; (split; [by eapply list_elem_of_lookup_2|unfold unanswered; by rewrite Hpc]).
Qed.

End progress.

(** ** Runs *)

(** On the server of Lifecycle.v, whose one stream expires. *)
Module WorkerSample.
Definition store : fakeStore := srv_store LifeSample.srv1.
Definition append (body : bytes) (close : bool) : appendReq :=
  {| rq_records := [body]; rq_hasBody := true; rq_contentType := ["t"%byte];
     rq_closeStream := close; rq_streamSeq := None; rq_producer := None |}.
Abbreviation exec evs := (texec_all LifeSample.cfg LifeSample.path (traffic_start store) evs).

(** A client comes with a streamer in hand, takes its lock and enqueues. *)
Definition submit (t : nat) : list tevent :=
  [Arrive (append ["r"%byte] false) (Some 0%nat); Client t; Client t].

(** The streamer is spawned by the first request, its timer fires while it is idle,
    and before the goroutine gets to the lock the queue fills up and one client more
    is at it. *)
Definition overrun : list tevent :=
  [Arrive (append ["r"%byte] false) None; Client 0; Go 0 TakeTimer; Client 0; Client 0]
  ++ concat (submit <$> seq 1 (maxBurst - 1))
  ++ [Arrive (append ["r"%byte] false) (Some 0%nat); Client maxBurst].

Definition stuck_check (w : traffic (S := fakeStore)) : bool :=
  match tf_gos w with
  | [g] =>
      match go_pc g with GoRetire => true | _ => false end && negb (go_dead g)
      && bool_decide (go_mu g = Some maxBurst) && bool_decide ((go_reqs g).*1 = seq 0 maxBurst)
  | _ => false
  end.

Lemma overrun_runs : from_option stuck_check false (exec overrun) = true.
Proof. vm_compute. reflexivity. Qed.

Lemma stuck_check_ok w :
  stuck_check w = true → ∃ q, q.*1 = seq 0 maxBurst ∧ stuck w 0 q maxBurst.
Proof.
  unfold stuck_check. destruct (tf_gos w) as [|g [|? ?]] eqn:Hg; try done.
  intros [[[Hpc Hd]%andb_prop Hmu%bool_decide_eq_true]%andb_prop Hq%bool_decide_eq_true]%andb_prop.
  exists (go_reqs g). split; [done|]. exists g. rewrite Hg. split_and!; try done.
  - by destruct (go_pc g).
  - by destruct (go_dead g).
  - by rewrite <-(length_fmap fst), Hq, length_seq.
Qed.
End WorkerSample.

(** The streamer's lock is held by a client that waits for room in the queue, and the
    only goroutine that makes room waits for the lock: 513 requests, and every later
    request, reader or deletion of the stream, wait for ever. *)
Theorem retire_deadlock :
  ∃ w, WorkerSample.exec WorkerSample.overrun = Some w ∧
    ∀ evs w', texec_all LifeSample.cfg LifeSample.path w evs = Some w' →
      deadlocked w' 0 ∧
      ∀ t, (t ≤ maxBurst)%nat → pcs w' t = Some (ClWait 0) ∨ pcs w' t = Some (ClLocked 0).
Proof.
  pose proof WorkerSample.overrun_runs as Hc.
  destruct (WorkerSample.exec WorkerSample.overrun) as [w|] eqn:E; [|done].
  exists w. split; [done|]. intros evs w' Hrun.
  destruct (WorkerSample.stuck_check_ok w Hc) as (q & Hq & Hs).
  pose proof (stuck_for_ever _ _ _ _ _ _ _ _ Hrun Hs) as (g & Hi & Hpc & Hd & Hmu & Hg & Hlen).
  pose proof (texec_all_ok _ _ _ _ _ (reached_ok _ _ _ _ _ E) Hrun) as Hok.
  pose proof (to_gos _ Hok 0%nat g Hi) as [_ _ _ _ Hm Hw _]. clear Hc E Hrun. split.
  - exists g, maxBurst. rewrite Hg. split_and!; try assumption. by apply Hm.
  - intros t Ht. destruct (decide (t = maxBurst)) as [->|Hne]; [right; by apply Hm|left].
    apply Hw. unfold tickets_of. rewrite Hpc, Hg, Hq. apply elem_of_seq. lia.
Qed.

Lemma requests_answered_once_witness :
  ∃ w, WorkerSample.exec WorkerSample.overrun = Some w ∧ ∀ i j g h,
    tf_gos w !! i = Some g → tf_gos w !! j = Some h → go_dead g = false → go_dead h = false → i = j.
Proof.
  pose proof WorkerSample.overrun_runs as Hc.
  destruct (WorkerSample.exec WorkerSample.overrun) as [w|] eqn:E; [|discriminate Hc].
  exists w. split; [reflexivity|].
  apply (requests_answered_once LifeSample.cfg LifeSample.path WorkerSample.store WorkerSample.overrun w E).
Defined.

Lemma requests_drain_witness :
  ∃ w n, WorkerSample.exec WorkerSample.overrun = Some w ∧
    ∀ k w', nsteps (istep LifeSample.cfg LifeSample.path) k w w' → (k ≤ n)%nat.
Proof.
  pose proof WorkerSample.overrun_runs as Hc.
  destruct (WorkerSample.exec WorkerSample.overrun) as [w|] eqn:E; [|discriminate Hc].
  destruct (requests_drain LifeSample.cfg LifeSample.path WorkerSample.store WorkerSample.overrun w E) as [n Hn].
  exists w, n. split; [reflexivity|]. intros k w' Hk. by apply (Hn k w').
Defined.
