(* ===== verification/WorkerLog.v ===== *)
(** * Concurrent appends are appends one at a time

    As long as nobody deletes the stream, the run of Worker.v is linearizable:
    whatever requests, readers, retirements and respawns interleave, and whatever
    other streams write in between, the effects took place one after another, each
    between its request's arrival and its answer, and the store and the readers'
    view are those of the specification of StreamSpec.v. A deletion breaks it, as
    the last theorem shows: it does not wait for the burst that is under way. *)

From S2P Require Import Prelude.
From S2P Require Import Bytes.
From S2P Require Import Keys.
From S2P Require Import Meta.
From S2P Require Import Storage.
From S2P Require Import Loads.
From S2P Require Import Batch.
From S2P Require Import Streamer.
From S2P Require Import StreamSpec.
From S2P Require Import StreamerRefine.
From S2P Require Import Server.
From S2P Require Import Expiry.
From S2P Require Import Catalog.
From S2P Require Import Lifecycle.
From S2P Require Import Worker.
From S2P Require Import WorkerSpec.

(** ** The order of the effects *)

(** What took effect at a step: a burst, or a slide of the deadline for a reader. *)
Inductive effect : Type :=
| EfBurst (now : Z) (batch : list request)
| EfSlide (now : Z).

Definition requests_of (e : effect) : list request :=
  match e with EfBurst _ batch => batch | EfSlide _ => [] end.

Section order.
  Context {S : Type} `{StorageLaws S}.
  Context (cfg : cacheConfig) (path : bytes) (sm : StreamMeta).
  Context (Hid : is_u64 (StreamID sm)).
  Implicit Types w : traffic (S := S).
  Local Abbreviation run := (spec_run (ContentType sm) (TTLSeconds sm)).
  Local Abbreviation id := (StreamID sm).

(** The specification, one effect after another, with every request's reply. *)
Definition apply_effect (r : astate * list reply) (e : effect) : astate * list reply :=
  match e with
  | EfBurst now batch =>
      let '(a, resps) := run now r.1 batch.*2 in (a, r.2 ++ zip batch.*1 resps)
  | EfSlide now => (with_deadline (slideTTL (TTLSeconds sm) now (a_deadline r.1)) r.1, r.2)
  end.
Definition linearize (a : astate) (es : list effect) : astate * list reply :=
  foldl apply_effect (a, []) es.

(** The step at which a burst takes effect is its commit, or its planning when it
    changes nothing. *)
Definition took w (ev : tevent) : list effect :=
  match ev with
  | Go i (Proceed now) =>
      match tf_gos w !! i with
      | Some g =>
          match go_pc g with
          | GoDrain batch =>
              match go_pc (drain_step (tf_store w) now batch g) with
              | GoReply _ => [EfBurst now batch]
              | _ => []
              end
          | GoCommit tickets c => [EfBurst (pd_now (cb_pend c)) (zip tickets (cb_batch c))]
          | GoRefresh => [EfSlide now]
          | _ => []
          end
      | None => []
      end
  | _ => []
  end.

(** No deletion; clocks and requests in range; room for the records of a burst that
    is planned; the other streams write their own keys. *)
Definition event_fine w (a : astate) (ev : tevent) : Prop :=
  match ev with
  | Arrive req _ => wf_req req
  | Go i (Proceed now) =>
      is_i64 now ∧ ttl_in_range (TTLSeconds sm) now ∧
      ∀ g batch, tf_gos w !! i = Some g → go_pc g = GoDrain batch →
        a_tail a + total_records batch.*2 < 2^63
  | Delete => False
  | Others ops => ∃ b, ops = encode_batch b ∧ batch_wf b ∧ Forall (λ e, ¬ stream_key path id e.1) b
  | _ => True
  end.

Inductive trun (s : S) (a : astate) : list effect → traffic (S := S) → Prop :=
| trun_start : trun s a [] (traffic_start s)
| trun_step es w ev w' :
    trun s a es w → event_fine w (linearize a es).1 ev → texec cfg path w ev = Some w' →
    trun s a (es ++ took w ev) w'.

(** ** The invariant *)

Definition pc_requests (pc : run_pc) : list request :=
  match pc with
  | GoDrain batch => batch
  | GoCommit tickets c => zip tickets (cb_batch c)
  | _ => []
  end.

Definition reqs w (t : nat) : option appendReq := cl_req <$> tf_clients w !! t.

(** What the streamer's goroutine works at. *)
Definition pc_log (m : gmap bytes bytes) (a : astate) (replies : list reply) (g : goroutine) : Prop :=
  match go_pc g with
  | GoCommit tickets c =>
      ∃ now batch, batch.*1 = tickets ∧ burst_ok sm a now batch.*2 ∧
        planned path sm m (go_st g) a now batch.*2 c
  | GoReply rs => rs ⊆ replies
  | _ => True
  end.

(** A streamer is dead only when its goroutine has ended. *)
Record go_log w (m : gmap bytes bytes) (a : astate) (replies : list reply) (g : goroutine) : Prop := {
  gl_stop : go_stop g = false;
  gl_dead : go_dead g = true → go_pc g = GoEnd;
  gl_reqs : ∀ p, p ∈ pc_requests (go_pc g) ++ go_reqs g → reqs w p.1 = Some p.2 ∧ wf_req p.2;
  gl_open : go_dead g = false →
    mem_rep (go_st g) path sm a ∧ published (go_st g) a ∧ pc_log m a replies g }.

Record log_ok w (es : list effect) (a : astate) (replies : list reply) : Prop := {
  lg_traffic : traffic_ok w;
  lg_quiet : tf_delete w = DeIdle;
  lg_healthy : healthy (tf_store w);
  lg_store : stream_rep (view (tf_store w)) path sm a;
  lg_wf : astate_wf a;
  lg_room : a_tail a < 2^63;
  lg_gos : ∀ i g, tf_gos w !! i = Some g → go_log w (view (tf_store w)) a replies g;
  lg_done : ∀ t r, pcs w t = Some (ClDone r) → ∃ resp, r = Ok (Some resp) ∧ (t, resp) ∈ replies;
  lg_replied : ∀ t, t ∈ replies.*1 → (∃ r, pcs w t = Some (ClDone r)) ∨
    ∃ i g rs, tf_gos w !! i = Some g ∧ go_pc g = GoReply rs ∧ t ∈ rs.*1;
  lg_once : NoDup replies.*1;
  lg_wfreq : ∀ t req, reqs w t = Some req → wf_req req;
  lg_arrived : ∀ p, p ∈ concat (requests_of <$> es) → reqs w p.1 = Some p.2 }.

(** *** Lemmas *)

Lemma linearize_snoc a es e : linearize a (es ++ [e]) = apply_effect (linearize a es) e.
Proof. unfold linearize. by rewrite foldl_app. Qed.

Lemma reqs_set_client w t pc u : reqs (set_client t pc w) u = reqs w u.
Proof.
  unfold reqs, set_client. cbn [tf_clients]. destruct (decide (u = t)) as [->|Hne].
  - rewrite list_lookup_alter_eq. by destruct (tf_clients w !! t).
  - by rewrite list_lookup_alter_ne.
Qed.

Lemma reqs_answer w rs u : reqs (answer rs w) u = reqs w u.
Proof. revert w. induction rs as [|r rs IH]; intros w; simpl; [done|]. by rewrite IH, reqs_set_client. Qed.

(** The streamer that takes requests is the only one that is not over. *)
Lemma open_unique w es a replies i j g h :
  log_ok w es a replies → tf_gos w !! i = Some g → tf_gos w !! j = Some h →
  go_dead g = false → go_dead h = false → i = j.
Proof.
  intros Hl Hi Hj Hg Hh. pose proof (lg_traffic _ _ _ _ Hl) as Hok.
  destruct (gi_open _ _ _ (to_gos _ Hok i g Hi) Hg) as [?|[o Hd]];
    [|rewrite (lg_quiet _ _ _ _ Hl) in Hd; discriminate Hd].
  destruct (gi_open _ _ _ (to_gos _ Hok j h Hj) Hh) as [?|[o Hd]]; [congruence|].
  rewrite (lg_quiet _ _ _ _ Hl) in Hd. discriminate Hd.
Qed.

(** A streamer at work takes requests. *)
Lemma working_open w es a replies i g :
  log_ok w es a replies → tf_gos w !! i = Some g → go_pc g ≠ GoEnd → go_dead g = false.
Proof.
  intros Hl Hi Hpc. destruct (go_dead g) eqn:Hd; [|done].
  by destruct Hpc; apply (gl_dead _ _ _ _ _ (lg_gos _ _ _ _ Hl i g Hi)).
Qed.

(** Nobody whose request is in the queue or in the burst has a reply. *)
Lemma pending_fresh w es a replies i g t :
  log_ok w es a replies → tf_gos w !! i = Some g → (∀ rs, go_pc g ≠ GoReply rs) →
  t ∈ tickets_of g → t ∉ replies.*1.
Proof.
  intros Hl Hi Hpc Ht Hr. pose proof (lg_traffic _ _ _ _ Hl) as Hok.
  apply (gi_wait _ _ _ (to_gos _ Hok i g Hi)) in Ht.
  destruct (lg_replied _ _ _ _ Hl t Hr) as [[r Hd]|(j & h & rs & Hj & Hp & Hin)]; [congruence|].
  assert (Htj : t ∈ tickets_of h) by (unfold tickets_of; rewrite Hp, elem_of_app; by left).
  apply (gi_wait _ _ _ (to_gos _ Hok j h Hj)) in Htj. assert (i = j) as <- by congruence.
  assert (h = g) as -> by congruence. by destruct (Hpc rs).
Qed.

(** What is known of a streamer that does not move. *)
Lemma go_log_frame w w' m m' a replies replies' g :
  go_log w m a replies g → (∀ t req, reqs w t = Some req → reqs w' t = Some req) →
  stream_same path sm m m' → 0 ≤ a_base a → replies ⊆ replies' → go_log w' m' a replies' g.
Proof.
  intros [Hs Hd Hr Ho] Hreq Hm Hb Hrep. split; [done|done| |].
  - intros p [? ?]%Hr. auto.
  - intros Hg. destruct (Ho Hg) as (? & ? & Hp). split_and!; [done..|]. unfold pc_log in *.
    destruct (go_pc g); try done; [|by etrans].
    destruct Hp as (now & batch & ? & Hbo & ?). exists now, batch. split_and!; [done|done|].
    eapply planned_same; [done|exact Hm|done| |done]. destruct Hbo.
    pose proof (spec_run_tail (ContentType sm) (TTLSeconds sm) now a batch.*2). lia.
Qed.

(** *** What the goroutine answers *)

Lemma pcs_answer_done w rs t r :
  pcs (answer rs w) t = Some (ClDone r) →
  pcs w t = Some (ClDone r) ∨ ∃ resp, r = Ok (Some resp) ∧ (t, resp) ∈ rs.
Proof.
  revert w. induction rs as [|[u x] rs IH]; intros w; simpl; [auto|].
  intros [Hw|(resp & -> & Hin)]%IH; [|right; exists resp; split; [done|by right]].
  rewrite pcs_set_client in Hw. case_decide as Hu; [subst u|by left].
  destruct (pcs w t); [|done]. injection Hw as <-. right. exists x. split; [done|by left].
Qed.

Lemma answer_done w rs t :
  is_Some (pcs w t) → t ∈ rs.*1 ∨ (∃ r, pcs w t = Some (ClDone r)) → ∃ r, pcs (answer rs w) t = Some (ClDone r).
Proof.
  revert w. induction rs as [|[u x] rs IH]; intros w Hs; simpl; [by intros [?%elem_of_nil|?]|].
  intros Hd. apply IH; rewrite pcs_set_client; case_decide as Hu.
  - subst u. destruct Hs as [? ->]. by eexists.
  - done.
  - subst u. right. destruct Hs as [? ->]. by eexists.
  - rewrite elem_of_cons in Hd. naive_solver.
Qed.

Lemma tf_store_answer w rs : tf_store (answer rs w) = tf_store w.
Proof. revert w. induction rs as [|r rs IH]; intros w; simpl; [done|]. by rewrite IH. Qed.

Lemma tf_delete_answer w rs : tf_delete (answer rs w) = tf_delete w.
Proof. revert w. induction rs as [|r rs IH]; intros w; simpl; [done|]. by rewrite IH. Qed.

Lemma reqs_pcs w t : is_Some (reqs w t) ↔ is_Some (pcs w t).
Proof. unfold reqs, pcs. by rewrite !fmap_is_Some. Qed.

(** A step of an open streamer's goroutine, with the replies [new] it settles. *)
Lemma log_go w es a replies i g g' s' slot' rs a' new es' :
  log_ok w es a replies → tf_gos w !! i = Some g → go_dead g = false →
  let w' := answer rs (mkTraffic s' (<[i:=g']> (tf_gos w)) slot' (tf_clients w) (tf_delete w) (tf_deleted w)) in
  traffic_ok w' → healthy s' → stream_rep (view s') path sm a' → astate_wf a' → a_tail a' < 2^63 →
  go_log w (view s') a' (replies ++ new) g' → rs ⊆ replies → NoDup (replies ++ new).*1 →
  (∀ t, t ∈ new.*1 ∨ (∃ rs0, go_pc g = GoReply rs0 ∧ t ∈ rs0.*1) →
     t ∈ rs.*1 ∨ ∃ rs', go_pc g' = GoReply rs' ∧ t ∈ rs'.*1) →
  (∀ p, p ∈ concat (requests_of <$> es') → p ∈ concat (requests_of <$> es) ∨ reqs w p.1 = Some p.2) →
  log_ok w' es' a' (replies ++ new).
Proof.
  intros Hl Hi Hd w' Hok' Hh Hst Hwf Hroom Hg' Hrs Hnd Hmove Hes.
  assert (Hlt : (i < length (tf_gos w))%nat) by (by eapply lookup_lt_Some).
  set (w1 := mkTraffic s' (<[i:=g']> (tf_gos w)) slot' (tf_clients w) (tf_delete w) (tf_deleted w)) in w'.
  assert (Hfix : tf_gos w' = tf_gos w1 ∧ tf_store w' = s' ∧ tf_delete w' = tf_delete w).
  { unfold w'. by rewrite tf_gos_answer, tf_store_answer, tf_delete_answer. }
  destruct Hfix as (Hf1 & Hf2 & Hf3).
  assert (Hreq : ∀ t, reqs w' t = reqs w t) by (intros t; unfold w'; by rewrite reqs_answer).
  assert (Hgl : ∀ g m a rp, go_log w m a rp g → go_log w' m a rp g).
  { intros h m b rp [? ? Hr ?]. split; try done. intros p. rewrite Hreq. apply Hr. }
  split; rewrite ?Hf2, ?Hf3, ?Hf1; try done.
  - apply Hl.
  - intros j h. cbn [w1 tf_gos]. intros [(<- & <- & _)|[Hne Hj]]%list_lookup_insert_Some; [by apply Hgl|].
    apply Hgl. destruct (lg_gos _ _ _ _ Hl j h Hj) as [? ? ? _]. split; try done. intros Hh2.
    destruct Hne. by eapply open_unique.
  - intros t r [Ht|(resp & -> & Hin)]%pcs_answer_done.
    + destruct (lg_done _ _ _ _ Hl t r Ht) as (resp & -> & ?). exists resp. split; [done|]. apply elem_of_app. by left.
    + exists resp. split; [done|]. apply elem_of_app. left. by apply Hrs.
  - intros t Ht. rewrite fmap_app, elem_of_app in Ht.
    assert (Hcase : (∃ r, pcs w t = Some (ClDone r)) ∨ t ∈ rs.*1 ∨ (∃ j h rs', <[i:=g']> (tf_gos w) !! j = Some h ∧ go_pc h = GoReply rs' ∧ t ∈ rs'.*1)).
    { destruct Ht as [[?|(j & h & rs0 & Hj & Hp & Hin)]%(lg_replied _ _ _ _ Hl)|Ht]; [by left|..].
      - right. destruct (decide (j = i)) as [->|Hne].
        + assert (h = g) as -> by congruence. destruct (Hmove t) as [?|(rs' & ? & ?)]; [right; by exists rs0|by left|].
          right. exists i, g', rs'. by rewrite list_lookup_insert_eq.
        + right. exists j, h, rs0. by rewrite list_lookup_insert_ne.
      - right. destruct (Hmove t) as [?|(rs' & ? & ?)]; [by left|by left|].
        right. exists i, g', rs'. by rewrite list_lookup_insert_eq. }
    assert (Hdone : t ∈ rs.*1 ∨ (∃ r, pcs w t = Some (ClDone r)) → ∃ r, pcs w' t = Some (ClDone r)).
    { intros Hc. apply answer_done; [|exact Hc]. change (is_Some (pcs w t)). destruct Hc as [Hc|[r ->]]; [|done].
      apply list_elem_of_fmap in Hc as (p & -> & Hp%Hrs).
      destruct (lg_replied _ _ _ _ Hl p.1) as [[r ->]|(j & h & rs0 & Hj & Hpc & Hin)]; [by apply list_elem_of_fmap_2|done|].
      assert (Htk : p.1 ∈ tickets_of h) by (unfold tickets_of; rewrite Hpc, elem_of_app; by left).
      apply (gi_wait _ _ _ (to_gos _ (lg_traffic _ _ _ _ Hl) j h Hj)) in Htk. by rewrite Htk. }
    destruct Hcase as [?|[?|?]]; [left; auto..|by right].
  - intros t req. rewrite Hreq. apply Hl.
  - intros p Hp. rewrite Hreq. destruct (Hes p Hp) as [Hp'|?]; [by apply (lg_arrived _ _ _ _ Hl)|done].
Qed.

(** *** Everybody else *)

Lemma log_quiet w w' es a replies :
  log_ok w es a replies → traffic_ok w' → tf_delete w' = DeIdle → healthy (tf_store w') →
  stream_same path sm (view (tf_store w)) (view (tf_store w')) →
  (∀ t req, reqs w t = Some req → reqs w' t = Some req) →
  (∀ t req, reqs w' t = Some req → wf_req req) →
  (∀ t r, pcs w' t = Some (ClDone r) ↔ pcs w t = Some (ClDone r)) →
  (∀ i g', tf_gos w' !! i = Some g' → go_log w' (view (tf_store w')) a replies g') →
  (∀ i g rs, tf_gos w !! i = Some g → go_pc g = GoReply rs →
     ∃ g', tf_gos w' !! i = Some g' ∧ go_pc g' = GoReply rs) → log_ok w' es a replies.
Proof.
  intros Hl Hok Hq Hh Hsame Hreq Hwfr Hdone Hgos Hrep. destruct Hl as [_ _ _ Hst Hwf Hroom _ Hd Hr Ho _ Ha].
  split; try done.
  - eapply stream_rep_same; [done|exact Hsame|apply Hwf|lia|done].
  - intros t r Ht. by apply Hd, Hdone.
  - intros t [[r Ht]|(i & g & rs & Hi & Hp & Hin)]%Hr; [left; exists r; by apply Hdone|right].
    destruct (Hrep i g rs Hi Hp) as (g' & ? & ?). by exists i, g', rs.
  - intros p Hp. by apply Hreq, Ha.
Qed.

Lemma stream_same_refl m : stream_same path sm m m.
Proof. by intros k. Qed.

(** Flags, the lock and the queue, of a streamer whose goroutine does not move. *)
Lemma go_log_flag w m a replies g g' :
  go_log w m a replies g → go_stop g' = go_stop g → go_dead g' = go_dead g → go_pc g' = go_pc g →
  (∀ p, p ∈ go_reqs g' → p ∈ go_reqs g ∨ reqs w p.1 = Some p.2 ∧ wf_req p.2) →
  go_st g' = go_st g → go_log w m a replies g'.
Proof.
  intros [Hs Hd Hr Ho] Es Ed Ep Er Est. split; rewrite ?Es, ?Ed, ?Ep, ?Est; try done.
  - intros p [Hp|[?|?]%Er]%elem_of_app; [..|done]; apply Hr, elem_of_app; auto.
  - intros Hg. unfold pc_log. rewrite Ep, Est. by apply Ho.
Qed.

(** A client moves and takes the lock of streamer [i] along. *)
Lemma log_both w es a replies t pc0 pc i g g' :
  log_ok w es a replies → traffic_ok (set_client t pc (set_go i g' w)) →
  pcs w t = Some pc0 → (∀ r, pc0 ≠ ClDone r) → (∀ r, pc ≠ ClDone r) →
  tf_gos w !! i = Some g → go_stop g' = go_stop g → go_dead g' = go_dead g → go_pc g' = go_pc g →
  (∀ p, p ∈ go_reqs g' → p ∈ go_reqs g ∨ reqs w p.1 = Some p.2 ∧ wf_req p.2) →
  go_st g' = go_st g → log_ok (set_client t pc (set_go i g' w)) es a replies.
Proof.
  intros Hl Hok Ht Hpc0 Hpc Hi Es Ed Ep Er Est.
  assert (Hreq : ∀ u, reqs (set_client t pc (set_go i g' w)) u = reqs w u) by (intros; by rewrite reqs_set_client).
  assert (Hlt : (i < length (tf_gos w))%nat) by (by eapply lookup_lt_Some).
  pose proof (lg_wf _ _ _ _ Hl) as [Hb _ _].
  eapply log_quiet; [exact Hl|done|exact (lg_quiet _ _ _ _ Hl)|exact (lg_healthy _ _ _ _ Hl)|apply stream_same_refl|by intros; rewrite Hreq| | | |].
  - intros u req. rewrite Hreq. apply (lg_wfreq _ _ _ _ Hl).
  - intros u r. rewrite pcs_set_client, !pcs_set_go. case_decide; [subst u; rewrite Ht; naive_solver|done].
  - intros j h. cbn [tf_gos set_client set_go]. intros [(<- & <- & _)|[Hne Hj]]%list_lookup_insert_Some.
    + eapply go_log_frame; [|by intros; rewrite Hreq|apply stream_same_refl|done|done].
      eapply go_log_flag; [exact (lg_gos _ _ _ _ Hl i g Hi)|done..].
    + eapply go_log_frame; [exact (lg_gos _ _ _ _ Hl _ _ Hj)|by intros; rewrite Hreq|apply stream_same_refl|done|done].
  - intros j h rs Hj Hrs. cbn [tf_gos set_client set_go]. destruct (decide (j = i)) as [->|Hne].
    + exists g'. rewrite list_lookup_insert_eq by done. split; [done|]. congruence.
    + exists h. by rewrite list_lookup_insert_ne.
Qed.

Lemma spawn_loads s a :
  healthy s → stream_rep (view s) path sm a →
  loadMeta s path = Ok (Some (meta_with sm (a_closed a) (a_deadline a))) ∧ loadTailSeq s id = Ok (a_tail a).
Proof.
  intros Hh [(? & ? & Hm) (? & u & ? & Ht) _ _ _ _]. unfold loadMeta, loadTailSeq.
  rewrite !healthy_get, Hm, Ht by done. run_result.
  by rewrite unmarshalMeta_Marshal, unmarshalTail_marshalTail by done.
Qed.

(** A streamer that is spawned knows what there is to know. *)
Lemma go_log_spawn w m a replies :
  astate_wf a → a_tail a < 2^63 →
  go_log w m a replies (start_run (newStreamer cfg path (meta_with sm (a_closed a) (a_deadline a)) (a_tail a))).
Proof.
  intros Hwf Hroom. split; simpl; try done; [by intros p ?%elem_of_nil|intros _].
  destruct (newStreamer_ok cfg path {| e_meta := sm; e_state := a; e_gone := false |}) as [? ?]; [done|done|].
  by split_and!.
Qed.

Lemma log_lookup w es a replies t w' :
  log_ok w es a replies → traffic_ok w' → pcs w t = Some ClLookup →
  lookup_step cfg path w t = Some w' → log_ok w' es a replies.
Proof.
  intros Hl Hok' Ht. unfold lookup_step. pose proof (lg_wf _ _ _ _ Hl) as [Hb _ _].
  destruct (tf_slot w) as [i|] eqn:Hs.
  - intros [= <-].
    eapply log_quiet; [exact Hl|done|exact (lg_quiet _ _ _ _ Hl)|exact (lg_healthy _ _ _ _ Hl)|apply stream_same_refl|by intros; rewrite reqs_set_client| | | |].
    + intros u req. rewrite reqs_set_client. apply (lg_wfreq _ _ _ _ Hl).
    + intros u r. rewrite pcs_set_client. case_decide; [subst u; rewrite Ht; naive_solver|done].
    + intros j h Hj. eapply go_log_frame; [exact (lg_gos _ _ _ _ Hl _ _ Hj)|by intros; rewrite reqs_set_client|apply stream_same_refl|done|done].
    + intros j h rs Hj Hrs. by exists h.
  - unfold spawn_locked. rewrite (lg_quiet _ _ _ _ Hl).
    destruct (spawn_loads (tf_store w) a (lg_healthy _ _ _ _ Hl) (lg_store _ _ _ _ Hl)) as [-> Htail].
    run_result. change (StreamID (meta_with _ _ _)) with id. rewrite Htail. run_result. intros [= <-].
    eapply log_quiet; [exact Hl|done|done|exact (lg_healthy _ _ _ _ Hl)|apply stream_same_refl|by intros; rewrite reqs_set_client| | | |].
    + intros u req. rewrite reqs_set_client. apply (lg_wfreq _ _ _ _ Hl).
    + intros u r. rewrite pcs_set_client. case_decide; [subst u|done]. change (pcs (mkTraffic _ _ _ _ _ _) t) with (pcs w t).
      rewrite Ht. naive_solver.
    + intros j h. cbn [tf_gos set_client]. intros [Hj|[_ Hj]]%lookup_app_Some.
      * eapply go_log_frame; [exact (lg_gos _ _ _ _ Hl _ _ Hj)|by intros; rewrite reqs_set_client|apply stream_same_refl|done|done].
      * apply list_lookup_singleton_Some in Hj as [_ <-]. apply go_log_spawn; apply Hl.
    + intros j h rs Hj Hrs. exists h. cbn [tf_gos set_client]. by rewrite lookup_app_l by (by eapply lookup_lt_Some).
Qed.

Lemma log_client w es a replies t w' :
  log_ok w es a replies → traffic_ok w' → client_step cfg path w t = Some w' → log_ok w' es a replies.
Proof.
  intros Hl Hok'. unfold client_step. destruct (tf_clients w !! t) as [c|] eqn:Hc; [|done]. simpl.
  assert (Ht : pcs w t = Some (cl_pc c)) by (unfold pcs; by rewrite Hc).
  assert (Hreq : reqs w t = Some (cl_req c)) by (unfold reqs; by rewrite Hc).
  destruct (cl_pc c) as [|i|i|i|r] eqn:Hpc; [by apply log_lookup|..|done|done];
    destruct (tf_gos w !! i) as [g|] eqn:Hi; [simpl|done|simpl|done].
  - destruct (go_mu g); [done|]. intros [= <-]. eapply log_both; try done. by left.
  - destruct (go_dead g); [|case_decide; [|done]]; intros [= <-]; (eapply log_both; try done).
    + by left.
    + intros p [?|Hp]%elem_of_app; [by left|right]. apply list_elem_of_singleton in Hp as ->.
      split; [done|]. by eapply lg_wfreq.
Qed.

Lemma published_readers st a lp sse : published st a → published (set_readers lp sse st) a.
Proof. by intros [? ? ?]. Qed.

Lemma mem_rep_readers st a lp sse : mem_rep st path sm a → mem_rep (set_readers lp sse st) path sm a.
Proof. intros [? ? ? ? []]. by split. Qed.

Lemma planned_readers m st a now batch c lp sse :
  planned path sm m st a now batch c → planned path sm m (set_readers lp sse st) a now batch c.
Proof. intros [? ? ? ? [] ? ? ? ? ?]. by split. Qed.

(** *** The goroutine *)

(** A step that settles nothing and writes nothing. *)
Lemma log_go_same w es a replies i g g' slot' rs :
  log_ok w es a replies → tf_gos w !! i = Some g → go_dead g = false →
  let w' := answer rs (mkTraffic (tf_store w) (<[i:=g']> (tf_gos w)) slot' (tf_clients w) (tf_delete w) (tf_deleted w)) in
  traffic_ok w' → go_stop g' = go_stop g → go_st g' = go_st g →
  pc_requests (go_pc g') ++ go_reqs g' ⊆ pc_requests (go_pc g) ++ go_reqs g →
  (go_dead g' = false → pc_log (view (tf_store w)) a replies g') → (go_dead g' = true → go_pc g' = GoEnd) →
  rs ⊆ replies →
  (∀ rs0 t, go_pc g = GoReply rs0 → t ∈ rs0.*1 → t ∈ rs.*1 ∨ ∃ rs', go_pc g' = GoReply rs' ∧ t ∈ rs'.*1) →
  log_ok w' es a replies.
Proof.
  intros Hl Hi Hd w' Hok' Es Est Hreqs Hpc Hdead Hrs Hmove. rewrite <-(app_nil_r replies).
  destruct (lg_gos _ _ _ _ Hl i g Hi) as [Hs _ Hr Ho]. destruct (Ho Hd) as (? & ? & _).
  eapply (log_go w es a replies i g); try done; try apply Hl.
  - rewrite app_nil_r. split; [congruence|done|auto|]. intros Hd'. rewrite Est. auto.
  - rewrite app_nil_r. apply Hl.
  - intros t [?%elem_of_nil|(rs0 & ? & ?)]; [done|]. by eapply Hmove.
  - auto.
Qed.

Lemma zip_fst_snd {A B} (l : list (A * B)) : zip l.*1 l.*2 = l.
Proof. induction l as [|[x y] l IH]; [done|]. cbn. f_equal. exact IH. Qed.

(** A burst takes effect: its replies are new. *)
Lemma log_burst w es a replies i g g' s' now (batch : list request) a' resps :
  log_ok w es a replies → tf_gos w !! i = Some g → go_dead g = false →
  let w' := mkTraffic s' (<[i:=g']> (tf_gos w)) (tf_slot w) (tf_clients w) (tf_delete w) (tf_deleted w) in
  traffic_ok w' → pc_requests (go_pc g) = batch → pc_tickets (go_pc g) = batch.*1 →
  (∀ rs, go_pc g ≠ GoReply rs) → healthy s' → run now a batch.*2 = (a', resps) →
  length resps = length batch → stream_ok path sm s' (go_st g') a' → a_tail a' < 2^63 →
  go_stop g' = go_stop g → go_dead g' = go_dead g → go_reqs g' = go_reqs g →
  go_pc g' = GoReply (zip batch.*1 resps) →
  log_ok w' (es ++ [EfBurst now batch]) a' (replies ++ zip batch.*1 resps).
Proof.
  intros Hl Hi Hd w' Hok' Hpr Hpt Hnr Hh Hrun Hlen [Hst Hmem Hpub Hwf] Hroom Es Ed Er Ep.
  assert (Hzip : (zip batch.*1 resps).*1 = batch.*1) by (apply fst_zip_eq; by rewrite length_fmap).
  destruct (lg_gos _ _ _ _ Hl i g Hi) as [Hs _ Hr _].
  pose proof (gi_once _ _ _ (to_gos _ (lg_traffic _ _ _ _ Hl) i g Hi)) as Hnd.
  unfold tickets_of in Hnd. rewrite Hpt in Hnd. apply NoDup_app in Hnd as (Hnd & _).
  apply (log_go w es a replies i g g' s' (tf_slot w) []); try done.
  - split; [congruence|congruence|..].
    + intros p. rewrite Ep. intros Hp. apply Hr. rewrite Hpr. rewrite Er in Hp. apply elem_of_app. by right.
    + intros _. split_and!; [done|done|]. unfold pc_log. rewrite Ep. intros p Hp. apply elem_of_app. by right.
  - by intros p ?%elem_of_nil.
  - rewrite fmap_app, Hzip. apply NoDup_app. split_and!; [apply Hl| |done].
    intros t Ht Hin. eapply (pending_fresh w es a replies i g t); [done|done|done| |done].
    unfold tickets_of. rewrite Hpt. apply elem_of_app. by left.
  - intros t [Ht|(rs0 & Hp & _)]; [|by destruct (Hnr rs0)]. right. eauto.
  - intros p. rewrite fmap_app, concat_app, elem_of_app. simpl. rewrite app_nil_r.
    intros [?|Hp]; [by left|right]. apply Hr. rewrite Hpr. apply elem_of_app. by left.
Qed.

Lemma run_room now a batch :
  a_tail a + total_records batch < 2^63 → a_tail (run now a batch).1 < 2^63.
Proof. intros Hr. pose proof (spec_run_tail (ContentType sm) (TTLSeconds sm) now a batch). lia. Qed.

(** What an effect does to the state that is kept. *)
Definition settled w (es : list effect) (r : astate * list reply) : Prop := log_ok w es r.1 r.2.

(** [drainBurst], and the planning of what it drained. *)
Lemma log_drain w es a replies i g now batch :
  log_ok w es a replies → tf_gos w !! i = Some g → go_pc g = GoDrain batch →
  event_fine w a (Go i (Proceed now)) →
  let g' := drain_step (tf_store w) now batch g in
  let w' := mkTraffic (tf_store w) (<[i:=g']> (tf_gos w)) (tf_slot w) (tf_clients w) (tf_delete w) (tf_deleted w) in
  traffic_ok w' →
  settled w' (es ++ took w (Go i (Proceed now)))
    (foldl apply_effect (a, replies) (took w (Go i (Proceed now)))).
Proof.
  intros Hl Hi Hpc (Hnow & Httl & Hroom). simpl. rewrite Hi, Hpc.
  assert (Hd : go_dead g = false) by (eapply working_open; [done|done|by rewrite Hpc]).
  specialize (Hroom g batch Hi Hpc). destruct (lg_gos _ _ _ _ Hl i g Hi) as [_ _ Hr Ho].
  destruct (Ho Hd) as (Hmem & Hpub & _). rewrite Hpc in Hr. simpl in Hr.
  unfold drain_step. set (plan := match planBurst (tf_store w) (go_st g) now batch.*2 with
    | (st, inl responses) => set_pc (GoReply (zip batch.*1 responses)) (set_st st g)
    | (st, inr c) => set_pc (GoCommit batch.*1 c) (set_st st g) end).
  assert (Hplan : traffic_ok (mkTraffic (tf_store w) (<[i:=plan]> (tf_gos w)) (tf_slot w) (tf_clients w)
      (tf_delete w) (tf_deleted w)) →
    let es' := match go_pc plan with GoReply _ => [EfBurst now batch] | _ => [] end in
    settled (mkTraffic (tf_store w) (<[i:=plan]> (tf_gos w)) (tf_slot w) (tf_clients w) (tf_delete w) (tf_deleted w))
      (es ++ es') (foldl apply_effect (a, replies) es')).
  { intros Hok'. assert (Hso : stream_ok path sm (tf_store w) (go_st g) a) by (split; try done; apply Hl).
    assert (Hbo : burst_ok sm a now batch.*2).
    { split; [done|done|done|]. apply Forall_fmap, Forall_forall. intros p Hp. apply Hr, elem_of_app. by left. }
    pose proof (planBurst_planned path sm Hid (tf_store w) (go_st g) now a batch.*2
      (healthy_reads_ok _ (lg_healthy _ _ _ _ Hl)) Hso Hbo) as Hp.
    pose proof (planBurst_length (tf_store w) (go_st g) now batch.*2) as Hlen. rewrite length_fmap in Hlen.
    subst plan. destruct (planBurst _ _ _ _) as [st1 [resps|c]]; cbn [snd] in Hlen; destruct Hp as (Hmem1 & Hpub1 & Hp); simpl.
    - rewrite Hp. simpl. eapply log_burst; try done; rewrite ?Hpc; try done; [apply Hl| |apply Hl].
      split; try done; apply Hl.
    - rewrite app_nil_r. unfold settled. simpl. rewrite <-(app_nil_r replies).
      eapply (log_go w es a replies i g _ _ _ []); try done; try (by apply Hl); rewrite ?app_nil_r; try (by apply Hl).
      + split; simpl; [apply (lg_gos _ _ _ _ Hl i g Hi)|congruence| |intros _; split_and!; [done|done|]].
        * intros p. rewrite (pl_batch _ _ _ _ _ _ _ _ Hp), zip_fst_snd. apply Hr.
        * exists now, batch. done.
      + by intros p ?%elem_of_nil.
      + intros t [?%elem_of_nil|(rs0 & Hp0 & _)]; [done|congruence].
      + auto. }
  destruct (go_reqs g) as [|r rest] eqn:Hq; [done|]. case_decide; [|done].
  intros Hok'. simpl. rewrite app_nil_r. unfold settled. simpl.
  apply (log_go_same w es a replies i g _ (tf_slot w) []); try done.
  - rewrite Hpc, Hq. simpl. rewrite <-app_assoc. done.
  - simpl. congruence.
  - by intros p ?%elem_of_nil.
  - intros rs0 t Hp0. congruence.
Qed.

Lemma log_commit w es a replies i g now tickets c :
  log_ok w es a replies → tf_gos w !! i = Some g → go_pc g = GoCommit tickets c →
  let '(s', g') := commit_step (tf_store w) tickets c g in
  let w' := mkTraffic s' (<[i:=g']> (tf_gos w)) (tf_slot w) (tf_clients w) (tf_delete w) (tf_deleted w) in
  traffic_ok w' →
  settled w' (es ++ took w (Go i (Proceed now)))
    (foldl apply_effect (a, replies) (took w (Go i (Proceed now)))).
Proof.
  intros Hl Hi Hpc. simpl. rewrite Hi, Hpc.
  assert (Hd : go_dead g = false) by (eapply working_open; [done|done|by rewrite Hpc]).
  destruct (lg_gos _ _ _ _ Hl i g Hi) as [_ _ _ Ho]. destruct (Ho Hd) as (Hmem & Hpub & Hp).
  unfold pc_log in Hp. rewrite Hpc in Hp. destruct Hp as (now0 & batch & <- & Hbo & Hp).
  pose proof (syncCommit_planned path sm _ _ now0 a batch.*2 c Hmem Hpub (lg_wf _ _ _ _ Hl) Hbo Hp) as Hc.
  pose proof (syncCommit_length (tf_store w) (go_st g) c) as Hlen.
  unfold commit_step. destruct (syncCommit (tf_store w) (go_st g) c) as [[s' st'] resps] eqn:E. cbn [snd] in Hlen.
  rewrite (pl_batch _ _ _ _ _ _ _ _ Hp), (pl_now _ _ _ _ _ _ _ _ Hp), zip_fst_snd.
  assert (Hh : healthy s').
  { unfold syncCommit in E. destruct (healthy_Commit (tf_store w) (cb_ops c) true (lg_healthy _ _ _ _ Hl)) as (s2 & E2 & ?).
    rewrite E2 in E. by simplify_eq. }
  destruct Hc as [[Hso ->]|(ops & e & Hc & _)];
    [|destruct (healthy_Commit (tf_store w) ops true (lg_healthy _ _ _ _ Hl)) as (? & E2 & _); by rewrite Hc in E2].
  intros Hok'. simpl. pose proof (run_room now0 a batch.*2 (bo_room _ _ _ _ Hbo)) as Hroom.
  destruct (run now0 a batch.*2) as [a' resps] eqn:Hrun. simpl in *.
  apply (log_burst w es a replies i g _ s' now0 batch a' resps); rewrite ?Hpc; simpl; try done.
  - by rewrite (pl_batch _ _ _ _ _ _ _ _ Hp), zip_fst_snd.
  - pose proof (gi_pc _ _ _ (to_gos _ (lg_traffic _ _ _ _ Hl) i g Hi)) as Hpo. unfold pc_ok in Hpo.
    rewrite Hpc, length_fmap in Hpo. lia.
Qed.

Lemma log_refresh w es a replies i g now :
  log_ok w es a replies → tf_gos w !! i = Some g → go_pc g = GoRefresh →
  event_fine w a (Go i (Proceed now)) →
  let '(s', g') := refresh_step (tf_store w) now g in
  let w' := mkTraffic s' (<[i:=g']> (tf_gos w)) (tf_slot w) (tf_clients w) (tf_delete w) (tf_deleted w) in
  traffic_ok w' →
  settled w' (es ++ took w (Go i (Proceed now)))
    (foldl apply_effect (a, replies) (took w (Go i (Proceed now)))).
Proof.
  intros Hl Hi Hpc (Hnow & Httl & _). simpl. rewrite Hi, Hpc.
  assert (Hd : go_dead g = false) by (eapply working_open; [done|done|by rewrite Hpc]).
  destruct (lg_gos _ _ _ _ Hl i g Hi) as [Hs _ Hr Ho]. destruct (Ho Hd) as (Hmem & Hpub & _).
  assert (Hso : stream_ok path sm (tf_store w) (go_st g) a) by (split; try done; apply Hl).
  pose proof (refreshTTLOnRead_rep path sm Hid _ _ now a Hso Httl (lg_room _ _ _ _ Hl)) as Hc.
  pose proof (refreshTTLOnRead_healthy (tf_store w) (go_st g) now (lg_healthy _ _ _ _ Hl)) as Hh.
  unfold refresh_step. destruct (refreshTTLOnRead _ _ _) as [s' st']. cbn [fst] in Hh. destruct Hc as [_ Hc].
  destruct Hc as [[Hst Hmem' Hpub' Hwf]|(ops & e & Hc & _)];
    [|destruct (healthy_Commit (tf_store w) ops false (lg_healthy _ _ _ _ Hl)) as (? & E2 & _); by rewrite Hc in E2].
  intros Hok'. unfold settled. simpl. rewrite <-(app_nil_r replies).
  eapply (log_go w es a replies i g _ _ _ []); try done; rewrite ?app_nil_r; try (by apply Hl).
  - split; simpl; [done|congruence| |done]. intros p Hp. apply Hr, elem_of_app. by right.
  - by intros p ?%elem_of_nil.
  - intros t [?%elem_of_nil|(rs0 & Hp0 & _)]; [done|congruence].
  - intros p. rewrite fmap_app, concat_app. simpl. rewrite app_nil_r. auto.
Qed.

(** The side conditions of a step that only moves the goroutine on. *)
Ltac moves_on Hpc :=
  try done; try (by rewrite Hpc); try (by intros ? ?%elem_of_nil); try (simpl; congruence).

Lemma log_go_event w es a replies i ev w' :
  log_ok w es a replies → traffic_ok w' → event_fine w a (Go i ev) → texec cfg path w (Go i ev) = Some w' →
  settled w' (es ++ took w (Go i ev)) (foldl apply_effect (a, replies) (took w (Go i ev))).
Proof.
  intros Hl Hok' Hev Hx. simpl in Hx. destruct (tf_gos w !! i) as [g|] eqn:Hi; [|done]. simpl in Hx.
  destruct (go_step _ _ _ _ _) as [[[[s' slot'] g'] rs]|] eqn:Hstep; [|done]. injection Hx as <-.
  destruct (decide (go_dead g = true)) as [Hdead|Hd%not_true_is_false].
  { pose proof (gl_dead _ _ _ _ _ (lg_gos _ _ _ _ Hl i g Hi) Hdead) as Hpc. unfold go_step in Hstep.
    rewrite Hpc in Hstep. by destruct ev. }
  pose proof (gl_stop _ _ _ _ _ (lg_gos _ _ _ _ Hl i g Hi)) as Hs.
  pose proof (gl_open _ _ _ _ _ (lg_gos _ _ _ _ Hl i g Hi) Hd) as (_ & _ & Hp).
  pose proof (gi_pc _ _ _ (to_gos _ (lg_traffic _ _ _ _ Hl) i g Hi)) as Hpo.
  unfold go_step in Hstep. unfold pc_log in Hp. unfold pc_ok in Hpo.
  assert (Hnil : ([] : list effect) = took w (Go i ev) → log_ok (answer rs (mkTraffic s' (<[i:=g']> (tf_gos w)) slot'
      (tf_clients w) (tf_delete w) (tf_deleted w))) es a replies →
    settled (answer rs (mkTraffic s' (<[i:=g']> (tf_gos w)) slot' (tf_clients w) (tf_delete w) (tf_deleted w)))
      (es ++ took w (Go i ev)) (foldl apply_effect (a, replies) (took w (Go i ev))))
    by (intros <-; by rewrite app_nil_r).
  destruct (go_pc g) as [|batch|ts c|[|r rest]| | | |] eqn:Hpc; destruct ev as [| | | |now]; try done.
  - apply Hnil; [done|]. destruct (go_reqs g) as [|r rest] eqn:Hr; [done|]. simplify_eq.
    eapply (log_go_same w es a replies i g); moves_on Hpc. by rewrite Hpc, Hr.
  - apply Hnil; [done|]. destruct (go_touch g); [|done]. simplify_eq.
    eapply (log_go_same w es a replies i g); moves_on Hpc.
  - apply Hnil; [done|]. simplify_eq. eapply (log_go_same w es a replies i g); moves_on Hpc.
  - by rewrite Hs in Hstep.
  - simplify_eq. by apply log_drain.
  - pose proof (log_commit w es a replies i g now ts c Hl Hi Hpc) as Hc.
    destruct (commit_step _ _ _ _) as [s1 g1]. simplify_eq. by apply Hc.
  - apply Hnil; [simpl; by rewrite Hi, Hpc|]. simplify_eq. eapply (log_go_same w es a replies i g); moves_on Hpc.
    intros rs0 t Hp0. rewrite Hpc in Hp0. injection Hp0 as <-. by intros ?%elem_of_nil.
  - apply Hnil; [simpl; by rewrite Hi, Hpc|]. simplify_eq. eapply (log_go_same w es a replies i g); moves_on Hpc.
    + intros _. unfold pc_log. simpl. intros p Hin. apply Hp. by right.
    + intros p ->%list_elem_of_singleton. apply Hp. by left.
    + intros rs0 t Hp0. rewrite Hpc in Hp0. injection Hp0 as <-. rewrite fmap_cons, elem_of_cons.
      intros [->|Hin]; [left; by apply list_elem_of_singleton|right; by exists rest].
  - pose proof (log_refresh w es a replies i g now Hl Hi Hpc Hev) as Hc.
    destruct (refresh_step _ _ _) as [s1 g1]. simplify_eq. by apply Hc.
  - apply Hnil; [simpl; by rewrite Hi, Hpc|]. unfold tryRetire in Hstep. destruct (go_mu g); [done|].
    destruct (decide (go_reqs g ≠ [] ∨ _)); simpl in Hstep; simplify_eq;
      (eapply (log_go_same w es a replies i g); moves_on Hpc).
  - congruence.
Qed.

(** *** Everything *)

(** A flag or the readers' counters of one streamer change. *)
Lemma log_set_go w es a replies i g g' :
  log_ok w es a replies → tf_gos w !! i = Some g → traffic_ok (set_go i g' w) → go_pc g' = go_pc g →
  go_log w (view (tf_store w)) a replies g' → log_ok (set_go i g' w) es a replies.
Proof.
  intros Hl Hi Hok Ep Hg'. pose proof (lg_wf _ _ _ _ Hl) as [Hb _ _].
  assert (Hlt : (i < length (tf_gos w))%nat) by (by eapply lookup_lt_Some).
  eapply log_quiet; [exact Hl|done|exact (lg_quiet _ _ _ _ Hl)|exact (lg_healthy _ _ _ _ Hl)
    |apply stream_same_refl|done|exact (lg_wfreq _ _ _ _ Hl)|by intros|..].
  - intros j h. cbn [tf_gos set_go]. intros [(<- & <- & _)|[Hne Hj]]%list_lookup_insert_Some.
    + eapply go_log_frame; [exact Hg'|done|apply stream_same_refl|done|done].
    + eapply go_log_frame; [exact (lg_gos _ _ _ _ Hl j h Hj)|done|apply stream_same_refl|done|done].
  - intros j h rs Hj Hrs. cbn [tf_gos set_go]. destruct (decide (j = i)) as [->|Hne].
    + exists g'. rewrite list_lookup_insert_eq by done. split; [done|]. congruence.
    + exists h. by rewrite list_lookup_insert_ne.
Qed.

Lemma go_log_readers w m a replies g lp sse :
  go_log w m a replies g → go_log w m a replies (set_st (set_readers lp sse (go_st g)) g).
Proof.
  intros [Hs Hd Hr Ho]. split; try done. intros Hg. destruct (Ho Hg) as (? & ? & Hp).
  split_and!; [by apply mem_rep_readers|by apply published_readers|].
  unfold pc_log in *. simpl. destruct (go_pc g); try done.
  destruct Hp as (now & batch & ? & ? & ?). exists now, batch. split_and!; [done|done|by apply planned_readers].
Qed.

Lemma log_arrive w es a replies req hint w' :
  log_ok w es a replies → traffic_ok w' → wf_req req → texec cfg path w (Arrive req hint) = Some w' →
  log_ok w' es a replies.
Proof.
  intros Hl Hok' Hwf. simpl. destruct (from_option _ _ _); [|done]. intros [= <-].
  pose proof (lg_wf _ _ _ _ Hl) as [Hb _ _]. set (c := mkClient req _) in *.
  assert (Hold : ∀ t c0, tf_clients w !! t = Some c0 → (tf_clients w ++ [c]) !! t = Some c0)
    by (intros t c0 Ht; by rewrite lookup_app_l by (by eapply lookup_lt_Some)).
  assert (Hreq : ∀ t r, reqs w t = Some r → (cl_req <$> (tf_clients w ++ [c]) !! t) = Some r).
  { intros t r. unfold reqs. destruct (tf_clients w !! t) as [c0|] eqn:Ht; [|done]. by rewrite (Hold t c0). }
  eapply log_quiet; [exact Hl|done|exact (lg_quiet _ _ _ _ Hl)|exact (lg_healthy _ _ _ _ Hl)
    |apply stream_same_refl|exact Hreq|..].
  - intros t r. unfold reqs. cbn [tf_clients]. destruct (tf_clients w !! t) as [c0|] eqn:Ht.
    + rewrite (Hold t c0) by done. intros Hr. apply (lg_wfreq _ _ _ _ Hl t). unfold reqs. by rewrite Ht.
    + destruct ((tf_clients w ++ [c]) !! t) as [c1|] eqn:Hc; [|done]. apply lookup_app_Some in Hc as [?|[_ Hc]]; [congruence|].
      apply list_lookup_singleton_Some in Hc as [_ <-]. by intros [= <-].
  - intros t r. unfold pcs. cbn [tf_clients]. destruct (tf_clients w !! t) as [c0|] eqn:Ht; [by rewrite (Hold t c0)|].
    destruct ((tf_clients w ++ [c]) !! t) as [c1|] eqn:Hc; [|done]. apply lookup_app_Some in Hc as [?|[_ Hc]]; [congruence|].
    apply list_lookup_singleton_Some in Hc as [_ <-]. subst c. simpl. by destruct hint.
  - intros i g Hi. eapply go_log_frame; [exact (lg_gos _ _ _ _ Hl i g Hi)|exact Hreq|apply stream_same_refl|done|done].
  - intros i g rs Hi Hp. by exists g.
Qed.

Lemma log_others w es a replies b :
  log_ok w es a replies → batch_wf b → Forall (λ e, ¬ stream_key path id e.1) b →
  let w' := mkTraffic (store_Commit (tf_store w) (encode_batch b) false).1 (tf_gos w) (tf_slot w) (tf_clients w)
              (tf_delete w) (tf_deleted w) in
  traffic_ok w' → log_ok w' es a replies.
Proof.
  intros Hl Hbwf Hkeys w' Hok'. pose proof (lg_wf _ _ _ _ Hl) as [Hb _ _].
  destruct (healthy_Commit (tf_store w) (encode_batch b) false (lg_healthy _ _ _ _ Hl)) as (s' & E & Hh).
  unfold w' in *. clear w'. rewrite E in *. cbn [fst] in *. apply Commit_ok in E as Hv.
  assert (Hsame : stream_same path sm (view (tf_store w)) (view s')).
  { intros k Hk Hown. rewrite Hv. apply batch_untouched; [done..|].
    intros (e & -> & He)%list_elem_of_fmap. rewrite Forall_forall in Hkeys. by apply (Hkeys e). }
  eapply log_quiet; [exact Hl|done|exact (lg_quiet _ _ _ _ Hl)|done|exact Hsame|done|exact (lg_wfreq _ _ _ _ Hl)|by intros|..].
  - intros i g Hi. by eapply go_log_frame; [exact (lg_gos _ _ _ _ Hl i g Hi)|..].
  - intros i g rs Hi Hp. by exists g.
Qed.

Lemma log_step w es a replies ev w' :
  log_ok w es a replies → event_fine w a ev → texec cfg path w ev = Some w' →
  settled w' (es ++ took w ev) (foldl apply_effect (a, replies) (took w ev)).
Proof.
  intros Hl Hev Hx. pose proof (traffic_texec_ok _ _ _ _ _ (lg_traffic _ _ _ _ Hl) Hx) as Hok'.
  assert (Hq : log_ok w' es a replies → settled w' (es ++ []) (foldl apply_effect (a, replies) []))
    by (by rewrite app_nil_r).
  destruct ev as [req hint|t|i ev| |i|i lp sse|ops].
  - apply Hq. by eapply log_arrive.
  - apply Hq. by eapply log_client.
  - by apply log_go_event.
  - done.
  - apply Hq. simpl in Hx. destruct (tf_gos w !! i) as [g|] eqn:Hi; [|done]. simpl in Hx.
    destruct (go_mu g); [done|]. destruct (go_dead g) eqn:Hd; injection Hx as <-; [done|].
    eapply log_set_go; [done|exact Hi|done|done|].
    eapply go_log_flag; [exact (lg_gos _ _ _ _ Hl i g Hi)|done..|by left|done].
  - apply Hq. simpl in Hx. destruct (tf_gos w !! i) as [g|] eqn:Hi; [|done]. simpl in Hx.
    case_decide; [|done]. injection Hx as <-.
    eapply log_set_go; [done|exact Hi|done|done|]. apply go_log_readers. exact (lg_gos _ _ _ _ Hl i g Hi).
  - apply Hq. injection Hx as <-. destruct Hev as (b & -> & ? & ?). by apply log_others.
Qed.

Lemma log_start s a :
  healthy s → stream_rep (view s) path sm a → astate_wf a → a_tail a < 2^63 →
  log_ok (traffic_start s) [] a [].
Proof.
  intros Hh Hst Hwf Hr. split; try done; [by intros t ?%elem_of_nil|constructor|by intros p ?%elem_of_nil].
Qed.

Lemma trun_log s a es w :
  healthy s → stream_rep (view s) path sm a → astate_wf a → a_tail a < 2^63 →
  trun s a es w → settled w es (linearize a es).
Proof.
  intros Hh Hst Hwf Hr. induction 1 as [|es w ev w' _ IH Hev Hx]; [by apply log_start|].
  unfold linearize in *. rewrite foldl_app. destruct (foldl apply_effect (a, []) es) as [a1 rs1].
  by apply log_step.
Qed.

(** ** Properties *)

(** C2: concurrent appends are appends one at a time. While nobody deletes the
    stream, whatever requests, readers, retirements, respawns and writes of other
    streams interleave, there is one order of effects, extended as the run goes on,
    in which each request occurs at most once and only after it arrived; every
    request that was answered has the reply the specification gives it there, none
    fails, and the store and whatever streamer takes requests show the state the
    specification ends in. A request answered before another arrives precedes it. *)
Theorem appends_linearizable s a0 es w :
  healthy s → stream_rep (view s) path sm a0 → astate_wf a0 → a_tail a0 < 2^63 → trun s a0 es w →
  let '(a, replies) := linearize a0 es in
  stream_rep (view (tf_store w)) path sm a ∧
  NoDup replies.*1 ∧
  (∀ t req, (t, req) ∈ concat (requests_of <$> es) → cl_req <$> tf_clients w !! t = Some req) ∧
  (∀ t r, pcs w t = Some (ClDone r) → ∃ resp, r = Ok (Some resp) ∧ (t, resp) ∈ replies) ∧
  (∀ i g, tf_gos w !! i = Some g → go_dead g = false → st_tail (go_st g) = a_tail a ∧ st_closed (go_st g) = a_closed a).
Proof.
  intros Hh Hst Hwf Hr Hrun. pose proof (trun_log s a0 es w Hh Hst Hwf Hr Hrun) as Hl. unfold settled in Hl.
  destruct (linearize a0 es) as [a replies]. simpl in Hl. split_and!; [apply Hl|apply Hl| |apply Hl|].
  - intros t req Hin. apply (lg_arrived _ _ _ _ Hl _ Hin).
  - intros i g Hi Hd. destruct (gl_open _ _ _ _ _ (lg_gos _ _ _ _ Hl i g Hi) Hd) as (_ & [? ? _] & _). done.
Qed.

End order.

(** ** Runs *)

Module LogSample.
Section checks.
  Context {S : Type} `{StorageLaws S}.
  Context (cfg : cacheConfig) (path : bytes) (sm : StreamMeta).

(** [event_fine], of requests without producers and one's own stream only. *)
Definition fine_check (w : traffic (S := S)) (a : astate) (ev : tevent) : bool :=
  match ev with
  | Arrive req _ => bool_decide (rq_producer req = None)
  | Go i (Proceed now) =>
      bool_decide (0 ≤ TTLSeconds sm ∧ 0 ≤ now < 2^63 ∧ now + TTLSeconds sm + 600 < 2^64) &&
      match tf_gos w !! i with
      | Some g =>
          match go_pc g with
          | GoDrain batch => bool_decide (a_tail a + total_records batch.*2 < 2^63)
          | _ => true
          end
      | None => true
      end
  | Delete | Others _ => false
  | _ => true
  end.

Lemma fine_check_ok w a ev : fine_check w a ev = true → event_fine path sm w a ev.
Proof.
  destruct ev as [req hint|t|i [| | | |now]| |i|i lp sse|ops]; simpl; try done.
  - intros Hr%bool_decide_eq_true. unfold wf_req. by rewrite Hr.
  - intros [(Ht & Hn & Hb)%bool_decide_eq_true Hg]%andb_prop. split_and!; [unfold is_i64; lia|by split_and!; lia|].
    intros g batch Hi Hpc. rewrite Hi, Hpc in Hg. by apply bool_decide_eq_true in Hg.
Qed.

(** A run with its order of effects. *)
Fixpoint exec (a : astate) (es : list effect) (w : traffic (S := S)) (evs : list tevent)
  : option (list effect * traffic (S := S)) :=
  match evs with
  | [] => Some (es, w)
  | ev :: rest =>
      if fine_check w (linearize sm a es).1 ev
      then w' ← texec cfg path w ev; exec a (es ++ took w ev) w' rest else None
  end.

Lemma exec_trun s a es w evs es' w' :
  trun cfg path sm s a es w → exec a es w evs = Some (es', w') → trun cfg path sm s a es' w'.
Proof.
  revert es w. induction evs as [|ev evs IH]; intros es w Ht; simpl; [by intros [= <- <-]|].
  destruct (fine_check _ _ _) eqn:Hf; [|done]. destruct (texec cfg path w ev) as [w1|] eqn:E; [|done]. simpl.
  apply IH. eapply trun_step; [exact Ht|by apply fine_check_ok|done].
Qed.
End checks.

Definition meta : StreamMeta := e_meta LifeSample.entry1.
Definition state : astate := e_state LifeSample.entry1.

Lemma stored :
  stream_rep (view WorkerSample.store) LifeSample.path meta state ∧ astate_wf state ∧ a_tail state < 2^63.
Proof.
  destruct LifeSample.srv1_ok as [[[_ Hcat _ _] _] _].
  pose proof (co_entry _ _ _ _ Hcat LifeSample.path LifeSample.entry1 (lookup_insert_eq _ _ _)) as He.
  split_and!; apply He.
Qed.

(** The first request spawns the streamer and is enqueued. *)
Definition enqueue (close : bool) : list tevent :=
  [Arrive (WorkerSample.append ["r"%byte] close) None; Client 0; Client 0; Client 0].
(** Its burst is planned. *)
Definition plan : list tevent := [Go 0 TakeReq; Go 0 (Proceed 110)].
(** And committed and answered. *)
Definition finish : list tevent := [Go 0 (Proceed 110); Go 0 (Proceed 110); Go 0 (Proceed 110)].

Definition answered_check (w : traffic (S := fakeStore)) : bool :=
  match tf_clients w with
  | [c] => match cl_pc c with ClDone (Ok (Some r)) => bool_decide (rs_status r = 204) | _ => false end
  | _ => false
  end.

Lemma append_runs :
  match exec LifeSample.cfg LifeSample.path meta state [] (traffic_start WorkerSample.store)
          (enqueue false ++ plan ++ [Touch 0] ++ finish ++ [Go 0 TakeTouch; Go 0 (Proceed 120)]) with
  | Some (es, w) => answered_check w && bool_decide (length es = 2%nat)
  | None => false
  end = true.
Proof. vm_compute. reflexivity. Qed.

(** The deletion, step by step. *)
Definition delete : list tevent := [Delete; Delete; Delete; Delete].

Definition has_stream (id : Z) (w : traffic (S := fakeStore)) : bool :=
  match loadMeta (tf_store w) LifeSample.path with
  | Ok (Some m) => bool_decide (StreamID m = id)
  | _ => false
  end.
Definition has_none (w : traffic (S := fakeStore)) : bool :=
  match loadMeta (tf_store w) LifeSample.path with Ok None => true | _ => false end.
Definition deleted_check (w : traffic (S := fakeStore)) : bool :=
  match tf_deleted w with [None] => true | _ => false end.

(** Another stream is created at the path. *)
Definition recreate : list tevent :=
  match createPlan (mkServer (match WorkerSample.exec (enqueue true ++ plan ++ delete) with
                              | Some w => tf_store w | None => newFakeStore end)
                      LifeSample.cfg 2 ∅ []) 111 111000 LifeSample.params with
  | inr nw => [Others (nw_ops nw)]
  | inl _ => []
  end.

Definition check (evs : list tevent) (p : traffic (S := fakeStore) → bool) : bool :=
  match WorkerSample.exec evs with Some w => p w | None => false end.

Lemma race_runs :
  check (enqueue true ++ plan ++ delete) (λ w, deleted_check w && has_none w)
  && check (enqueue true ++ plan ++ delete ++ finish)
       (λ w, deleted_check w && answered_check w && has_stream 1 w)
  && check (enqueue true ++ plan ++ delete ++ recreate) (has_stream 2)
  && check (enqueue true ++ plan ++ delete ++ recreate ++ finish) (has_stream 1) = true.
Proof. vm_compute. reflexivity. Qed.

Lemma check_ok evs p : check evs p = true → ∃ w, WorkerSample.exec evs = Some w ∧ p w = true.
Proof. unfold check. destruct (WorkerSample.exec evs) as [w|]; [|done]. by exists w. Qed.
End LogSample.

(** A deletion does not wait for the streamer's burst: it succeeds, the path is free,
    and then the burst, planned before, commits: the deleted stream is there again
    and its append is acknowledged; a stream created in between is replaced by it. *)
Theorem delete_race_resurrects :
  let planned := LogSample.enqueue true ++ LogSample.plan in
  (∃ w, WorkerSample.exec (planned ++ LogSample.delete) = Some w ∧
     LogSample.deleted_check w = true ∧ LogSample.has_none w = true) ∧
  (∃ w, WorkerSample.exec (planned ++ LogSample.delete ++ LogSample.finish) = Some w ∧
     LogSample.answered_check w = true ∧ LogSample.has_stream 1 w = true) ∧
  (∃ w, WorkerSample.exec (planned ++ LogSample.delete ++ LogSample.recreate) = Some w ∧
     LogSample.has_stream 2 w = true) ∧
  (∃ w, WorkerSample.exec (planned ++ LogSample.delete ++ LogSample.recreate ++ LogSample.finish) = Some w ∧
     LogSample.has_stream 1 w = true).
Proof.
  pose proof LogSample.race_runs as
    [[[(w1 & E1 & [? ?]%andb_prop)%LogSample.check_ok (w2 & E2 & [[? ?]%andb_prop ?]%andb_prop)%LogSample.check_ok]%andb_prop
      (w3 & E3 & ?)%LogSample.check_ok]%andb_prop (w4 & E4 & ?)%LogSample.check_ok]%andb_prop.
  cbv zeta. rewrite <-!(assoc_L (++)).
  split_and!; [exists w1|exists w2|exists w3|exists w4]; split_and!; assumption.
Qed.

Lemma appends_linearizable_witness :
  ∃ es w, trun LifeSample.cfg LifeSample.path LogSample.meta WorkerSample.store LogSample.state es w ∧
    LogSample.answered_check w = true ∧
    stream_rep (view (tf_store w)) LifeSample.path LogSample.meta (linearize LogSample.meta LogSample.state es).1.
Proof.
  pose proof LogSample.append_runs as Hc.
  destruct (LogSample.exec _ _ _ _ _ _ _) as [[es w]|] eqn:E; [|discriminate Hc].
  assert (Hrun : trun LifeSample.cfg LifeSample.path LogSample.meta WorkerSample.store LogSample.state es w)
    by (eapply LogSample.exec_trun; [constructor|exact E]). clear E.
  destruct LogSample.stored as (Hst & Hwf & Hr).
  apply andb_prop in Hc as [Hc _]. exists es, w. split; [exact Hrun|]. split; [exact Hc|].
  pose proof (appends_linearizable (S := fakeStore) LifeSample.cfg LifeSample.path LogSample.meta
    ltac:(vm_compute; split; congruence) WorkerSample.store LogSample.state es w I Hst Hwf Hr Hrun) as Hl.
  destruct (linearize _ _ _) as [a replies]. apply Hl.
Defined.
