(* ===== verification/Embed.v ===== *)
(** * The embeddable API's stream handles

    yasdb/stream.go: a [Stream] is a path of a database; each operation refuses
    to start on a context that is done, and is otherwise the server's. The
    context is [done]: whether it has ended when the operation looks. *)

From S2P Require Import Prelude.
From S2P Require Import Bytes.
From S2P Require Import Meta.
From S2P Require Import Offset.
From S2P Require Import Storage.
From S2P Require Import Loads.
From S2P Require Import Streamer.
From S2P Require Import State.
From S2P Require Import Server.
From S2P Require Import Public.

(** The first thing every operation does. *)
Definition ctx_Err (done : bool) : option error := if done then Some errCanceled else None.

Section stream.
  Context {S : Type} `{Storage S}.
  Implicit Types srv : server S.

(** [if err := ctx.Err(); err != nil { return err }], then the operation. *)
Definition with_ctx {A} (done : bool) srv (op : server S → server S * result A) : server S * result A :=
  match ctx_Err done with Some e => (srv, Err e) | None => op srv end.

Definition no_value {A} (r : server S * result A) : server S * option error :=
  (r.1, match r.2 with Ok _ => None | Err e => Some e end).

Definition err_result (r : server S * option error) : server S * result unit :=
  (r.1, match r.2 with None => Ok tt | Some e => Err e end).

Definition Stream_Create (done : bool) srv (nowUnix nowMs : Z) (path contentType : bytes)
  : server S * option error :=
  no_value (with_ctx done srv (λ srv, CreateStream srv nowUnix nowMs path contentType)).

(** The handle of the fork is its path. *)
Definition Stream_Fork (done : bool) srv (nowUnix nowMs : Z) (self path : bytes) (at_ : Offset)
  : server S * result bytes :=
  with_ctx done srv (λ srv,
    let '(srv, r) := CreateFork srv nowUnix nowMs path self at_ in
    (srv, match r with Ok _ => Ok path | Err e => Err e end)).

Definition append_result (r : server S * (Offset * option error)) : server S * result Offset :=
  (r.1, match r.2.2 with None => Ok r.2.1 | Some e => Err e end).

Definition Stream_Append (done : bool) srv (now : Z) (path : bytes) (records : list bytes)
  : server S * result Offset :=
  with_ctx done srv (λ srv, append_result (Append srv now path records)).

(** The records are the values' encodings; encoding/json is a parameter, [None] its failure. *)
Definition Stream_AppendJSON {V} (marshal : V → option bytes) (done : bool) srv (now : Z) (path : bytes)
    (vs : list V) : server S * result Offset :=
  with_ctx done srv (λ srv,
    match mapM marshal vs with
    | Some records => append_result (Append srv now path records)
    | None => (srv, Err errInvalidJSON)
    end).

Definition Stream_Close (done : bool) srv (now : Z) (path : bytes) : server S * option error :=
  no_value (with_ctx done srv (λ srv, append_result (CloseStream srv now path))).

Definition Stream_Delete (done : bool) srv (path : bytes) : server S * option error :=
  no_value (with_ctx done srv (λ srv, err_result (DeleteStream srv path))).

Definition Stream_Info (done : bool) srv (path : bytes) : server S * result StreamInfo :=
  with_ctx done srv (λ srv, (srv, Info srv path)).

Definition Stream_Read (done : bool) srv (path : bytes) (from : Offset) : server S * result Cursor :=
  with_ctx done srv (λ srv, (srv, Read srv path from)).

Definition Stream_Tail (done : bool) srv (path : bytes) : server S * result streamer :=
  with_ctx done srv (λ srv, Tail srv path).

End stream.
