(* ===== verification/Writer.v ===== *)
(** * The backpressured writer

    yasdb/writer.go: a [Writer] appends each record in a goroutine of its own, at
    most [Concurrency] at a time, and [Flush] waits for all of them. The state is
    the shared one ([sem], [wg], [err]), every Write call with its goroutine, and
    every Flush call; a step is one action of one of them, the server's answer to an
    append that waits for it, which may never come, or anything the rest of the
    system does ([sys_exec]). *)

From S2P Require Import Prelude.
From S2P Require Import Bytes.
From S2P Require Import Meta.
From S2P Require Import Offset.
From S2P Require Import Storage.
From S2P Require Import Loads.
From S2P Require Import LiveCache.
From S2P Require Import Streamer.
From S2P Require Import StreamSpec.
From S2P Require Import StreamerRefine.
From S2P Require Import Deleter.
From S2P Require Import Server.
From S2P Require Import Expiry.
From S2P Require Import Public.
From S2P Require Import Catalog.
From S2P Require Import Lifecycle.
From S2P Require Import PublicSpec.
From S2P Require Import System.
From S2P Require Import Embed.

(** ** State *)

(** Where a Write call stands, and its goroutine after it. *)
Inductive wpc : Type :=
| WErr                      (** about to look at the writer's error *)
| WSelect                   (** blocked on a slot, or on the context *)
| WAdd                      (** has a slot; about to count and start the goroutine *)
| GAppend                   (** the call has returned nil; the goroutine looks at the context *)
| GWait                     (** the goroutine is in [Server.Append], which may block *)
| GSetErr (e : error)       (** the append failed *)
| GRelease                  (** about to give the slot back *)
| GDone                     (** about to be counted out *)
| GEnd
| WFailed (e : error).      (** the call has returned an error *)

#[global] Instance wpc_eq_decision : EqDecision wpc.
Proof. solve_decision. Defined.

Record wcall : Type := mkCall { wc_rec : bytes; wc_ctx : bool; wc_pc : wpc }.

Inductive fpc : Type :=
| FWait                     (** waiting for the count to be zero, or for the context *)
| FErr                      (** about to look at the writer's error *)
| FReturn (r : option error).

(** [fc_accepted] is for the theorems: the Write calls that had returned nil when this one began. *)
Record fcall : Type := mkFlush { fc_ctx : bool; fc_pc : fpc; fc_accepted : list nat }.

Record writer (S : Type) : Type := mkWriter {
  wr_world : world S;
  wr_path : bytes;
  wr_cap : nat;                   (** the capacity of [sem] *)
  wr_sem : nat;                   (** the slots taken *)
  wr_wg : nat;                    (** the wait group's count *)
  wr_err : option error;
  wr_calls : list wcall;
  wr_flushes : list fcall;
  wr_done : list (nat * bytes) }. (** for the theorems: the appends that succeeded, in order *)
Arguments mkWriter {S} _ _ _ _ _ _ _ _ _.
Arguments wr_world {S} _.
Arguments wr_path {S} _.
Arguments wr_cap {S} _.
Arguments wr_sem {S} _.
Arguments wr_wg {S} _.
Arguments wr_err {S} _.
Arguments wr_calls {S} _.
Arguments wr_flushes {S} _.
Arguments wr_done {S} _.

(** [WriterOptions.Concurrency], whose zero is 32. *)
Definition concurrency (n : Z) : nat := Z.to_nat (if decide (n ≤ 0) then 32 else n).

Definition Writer {S} (w : world S) (path : bytes) (n : Z) : writer S :=
  mkWriter w path (concurrency n) 0 0 None [] [] [].

(** A slot is taken from the select to the goroutine's release. *)
Definition holding (pc : wpc) : bool :=
  match pc with WAdd | GAppend | GWait | GSetErr _ | GRelease => true | _ => false end.
(** A goroutine is counted from before it starts to its end. *)
Definition counted (pc : wpc) : bool :=
  match pc with GAppend | GWait | GSetErr _ | GRelease | GDone => true | _ => false end.
(** The Write call has returned nil. *)
Definition accepted (pc : wpc) : bool :=
  match pc with GAppend | GWait | GSetErr _ | GRelease | GDone | GEnd => true | _ => false end.
(** The append has returned, and its error is recorded. *)
Definition settled (pc : wpc) : bool :=
  match pc with GRelease | GDone | GEnd => true | _ => false end.

Definition accepted_calls (cs : list wcall) : list nat :=
  (imap (λ i c, (i, c)) cs) ≫= λ '(i, c), if accepted (wc_pc c) then [i] else [].

(** ** Steps *)

Section writer_steps.
  Context {S : Type} `{Storage S}.
  Implicit Types (st : writer S) (c : wcall).

Definition wr_goto (i : nat) c (pc : wpc) (sem wg : nat) (err : option error) st : writer S :=
  mkWriter (wr_world st) (wr_path st) (wr_cap st) sem wg err
    (<[i := mkCall (wc_rec c) (wc_ctx c) pc]> (wr_calls st)) (wr_flushes st) (wr_done st).

(** The append of call [i] has changed the server; [ok] when it succeeded. *)
Definition wr_appended (srv : server S) (i : nat) c (ok : bool) st : writer S :=
  mkWriter (mkWorld srv (w_run (wr_world st))) (wr_path st) (wr_cap st) (wr_sem st) (wr_wg st) (wr_err st)
    (wr_calls st) (wr_flushes st) (wr_done st ++ (if ok then [(i, wc_rec c)] else [])).

(** [setErr]: the first error stays. *)
Definition setErr (e : error) (err : option error) : option error :=
  match err with None => Some e | Some e' => Some e' end.

(** The next action of Write call [i], or of its goroutine; [None] when it is
    blocked or over. *)
Definition call_step (i : nat) st : option (writer S) :=
  c ← wr_calls st !! i;
  match wc_pc c with
  | WErr =>
      Some (wr_goto i c (match wr_err st with Some e => WFailed e | None => WSelect end)
              (wr_sem st) (wr_wg st) (wr_err st) st)
  | WSelect =>
      if decide (wr_sem st < wr_cap st)%nat
      then Some (wr_goto i c WAdd (Datatypes.S (wr_sem st)) (wr_wg st) (wr_err st) st) else None
  | WAdd => Some (wr_goto i c GAppend (wr_sem st) (Datatypes.S (wr_wg st)) (wr_err st) st)
  | GAppend =>
      Some (wr_goto i c (match ctx_Err (wc_ctx c) with Some e => GSetErr e | None => GWait end)
              (wr_sem st) (wr_wg st) (wr_err st) st)
  | GSetErr e => Some (wr_goto i c GRelease (wr_sem st) (wr_wg st) (setErr e (wr_err st)) st)
  | GRelease => Some (wr_goto i c GDone (pred (wr_sem st)) (wr_wg st) (wr_err st) st)
  | GDone => Some (wr_goto i c GEnd (wr_sem st) (pred (wr_wg st)) (wr_err st) st)
  | GWait | GEnd | WFailed _ => None
  end.

(** The server does the append of call [i] and answers: what [Stream.Append] does after
    its look at the context. From there on the context is not looked at. *)
Definition serve_step (i : nat) (now : Z) st : option (writer S) :=
  c ← wr_calls st !! i;
  match wc_pc c with
  | GWait =>
      let '(srv, r) := append_result (Append (w_srv (wr_world st)) now (wr_path st) [wc_rec c]) in
      Some (match r with
            | Ok _ => wr_goto i c GRelease (wr_sem st) (wr_wg st) (wr_err st) (wr_appended srv i c true st)
            | Err e => wr_goto i c (GSetErr e) (wr_sem st) (wr_wg st) (wr_err st) (wr_appended srv i c false st)
            end)
  | _ => None
  end.

(** The select takes the other branch: the context is done. *)
Definition call_give_up (i : nat) st : option (writer S) :=
  c ← wr_calls st !! i;
  match wc_pc c with
  | WSelect =>
      if wc_ctx c
      then Some (wr_goto i c (WFailed errCanceled) (wr_sem st) (wr_wg st) (wr_err st) st) else None
  | _ => None
  end.

Definition wr_set_flush (j : nat) (f : fcall) st : writer S :=
  mkWriter (wr_world st) (wr_path st) (wr_cap st) (wr_sem st) (wr_wg st) (wr_err st) (wr_calls st)
    (<[j := f]> (wr_flushes st)) (wr_done st).

Definition flush_step (j : nat) st : option (writer S) :=
  f ← wr_flushes st !! j;
  match fc_pc f with
  | FWait =>
      if decide (wr_wg st = 0%nat)
      then Some (wr_set_flush j (mkFlush (fc_ctx f) FErr (fc_accepted f)) st) else None
  | FErr => Some (wr_set_flush j (mkFlush (fc_ctx f) (FReturn (wr_err st)) (fc_accepted f)) st)
  | FReturn _ => None
  end.

Definition flush_give_up (j : nat) st : option (writer S) :=
  f ← wr_flushes st !! j;
  match fc_pc f with
  | FWait =>
      if fc_ctx f
      then Some (wr_set_flush j (mkFlush true (FReturn (Some errCanceled)) (fc_accepted f)) st) else None
  | _ => None
  end.

Inductive wevent : Type :=
| WrWrite (rec : bytes) | WrCall (i : nat) | WrServe (i : nat) (now : Z) | WrGiveUp (i : nat) | WrCancel (i : nat)
| WrFlush | WrFlushStep (j : nat) | WrFlushGiveUp (j : nat) | WrFlushCancel (j : nat)
| WrEnv (ev : event).

Definition writer_step (ev : wevent) st : option (writer S) :=
  match ev with
  | WrWrite rec =>
      Some (mkWriter (wr_world st) (wr_path st) (wr_cap st) (wr_sem st) (wr_wg st) (wr_err st)
        (wr_calls st ++ [mkCall rec false WErr]) (wr_flushes st) (wr_done st))
  | WrCall i => call_step i st
  | WrServe i now => serve_step i now st
  | WrGiveUp i => call_give_up i st
  | WrCancel i =>
      c ← wr_calls st !! i;
      Some (mkWriter (wr_world st) (wr_path st) (wr_cap st) (wr_sem st) (wr_wg st) (wr_err st)
        (<[i := mkCall (wc_rec c) true (wc_pc c)]> (wr_calls st)) (wr_flushes st) (wr_done st))
  | WrFlush =>
      Some (mkWriter (wr_world st) (wr_path st) (wr_cap st) (wr_sem st) (wr_wg st) (wr_err st) (wr_calls st)
        (wr_flushes st ++ [mkFlush false FWait (accepted_calls (wr_calls st))]) (wr_done st))
  | WrFlushStep j => flush_step j st
  | WrFlushGiveUp j => flush_give_up j st
  | WrFlushCancel j =>
      f ← wr_flushes st !! j;
      Some (wr_set_flush j (mkFlush true (fc_pc f) (fc_accepted f)) st)
  | WrEnv ev =>
      Some (mkWriter (sys_exec (wr_world st) ev) (wr_path st) (wr_cap st) (wr_sem st) (wr_wg st) (wr_err st)
        (wr_calls st) (wr_flushes st) (wr_done st))
  end.

(** The actions of the calls themselves; an answer of the server is not one of them. *)
Definition internal (ev : wevent) : bool :=
  match ev with WrCall _ | WrGiveUp _ | WrFlushStep _ | WrFlushGiveUp _ => true | _ => false end.

End writer_steps.

(** ** The invariant *)

Section writer_inv.
  Context {S : Type} `{StorageLaws S}.
  Implicit Types (st : writer S) (c : wcall) (C : catalog).
  (** The log of the stream when the writer was made. *)
  Context (log0 : list bytes).

(** The stream's log holds every append that succeeded, in the order they did, and [others]
    records that others appended. *)
Definition holds_done (w : world S) (path : bytes) (done : list (nat * bytes)) (others : Z) : Prop :=
  ∃ C e rest, sys_ok w C ∧ C !! path = Some e ∧ e_gone e = false ∧
    a_log (e_state e) = log0 ++ rest ∧ done.*2 `sublist_of` rest ∧ len rest = len done + others.

(** The appends that succeeded are of calls that are past it; a call past it
    succeeded, or left an error. *)
Record settled_ok st : Prop := {
  so_once : NoDup (wr_done st).*1;
  so_done : ∀ i r, (i, r) ∈ wr_done st →
    ∃ c, wr_calls st !! i = Some c ∧ wc_rec c = r ∧ settled (wc_pc c) = true;
  so_settled : ∀ i c, wr_calls st !! i = Some c → settled (wc_pc c) = true →
    (i, wc_rec c) ∈ wr_done st ∨ is_Some (wr_err st) }.

(** What a Flush knows of the calls accepted before it. *)
Definition flush_ok st (f : fcall) : Prop :=
  match fc_pc f with
  | FWait => ∀ i, i ∈ fc_accepted f → ∃ c, wr_calls st !! i = Some c ∧ accepted (wc_pc c) = true
  | FErr => ∀ i, i ∈ fc_accepted f → ∃ c, wr_calls st !! i = Some c ∧ wc_pc c = GEnd
  | FReturn None => ∀ i, i ∈ fc_accepted f → ∃ c, wr_calls st !! i = Some c ∧ (i, wc_rec c) ∈ wr_done st
  | FReturn (Some _) => True
  end.

Record writer_inv (others : Z) st : Prop := {
  wi_log : holds_done (wr_world st) (wr_path st) (wr_done st) others;
  wi_settled : settled_ok st;
  wi_sem : wr_sem st = count_if (λ c, holding (wc_pc c)) (wr_calls st);
  wi_cap : (wr_sem st ≤ wr_cap st)%nat;
  wi_wg : wr_wg st = count_if (λ c, counted (wc_pc c)) (wr_calls st);
  wi_flushes : ∀ j f, wr_flushes st !! j = Some f → flush_ok st f }.

(** A Flush keeps what it knows while calls advance. *)
Definition advances st st' : Prop :=
  wr_done st ⊆ wr_done st' ∧
  ∀ i c, wr_calls st !! i = Some c → ∃ c', wr_calls st' !! i = Some c' ∧ wc_rec c' = wc_rec c ∧
    (accepted (wc_pc c) = true → accepted (wc_pc c') = true) ∧ (wc_pc c = GEnd → wc_pc c' = GEnd).

Lemma flush_ok_advance st st' f : flush_ok st f → advances st st' → flush_ok st' f.
Proof.
  intros Hf [Hd Hadv]. unfold flush_ok in *. destruct (fc_pc f) as [| |[|]]; [..|done|];
    intros i Hi; destruct (Hf i Hi) as (c & Hc & Hp); destruct (Hadv i c Hc) as (c' & ? & Hr & ? & ?);
    exists c'; rewrite ?Hr; auto.
Qed.

Lemma advances_refl st : advances st st.
Proof. split; [done|]. intros i c Hc. exists c. auto. Qed.

Lemma advances_insert st i c c' calls :
  wr_calls st !! i = Some c → wc_rec c' = wc_rec c →
  (accepted (wc_pc c) = true → accepted (wc_pc c') = true) → (wc_pc c = GEnd → wc_pc c' = GEnd) →
  calls = <[i := c']> (wr_calls st) →
  ∀ k d, wr_calls st !! k = Some d → ∃ d', calls !! k = Some d' ∧ wc_rec d' = wc_rec d ∧
    (accepted (wc_pc d) = true → accepted (wc_pc d') = true) ∧ (wc_pc d = GEnd → wc_pc d' = GEnd).
Proof.
  intros Hi Hr Ha He -> k d Hk. destruct (decide (k = i)) as [->|Hne].
  - exists c'. assert (d = c) as -> by congruence.
    rewrite list_lookup_insert_eq by (by eapply lookup_lt_Some). auto.
  - exists d. rewrite list_lookup_insert_ne by done. auto.
Qed.

(** A call moves on; nothing is appended. *)
Lemma goto_inv n st i c pc sem wg err :
  writer_inv n st → wr_calls st !! i = Some c → wc_pc c ≠ GEnd →
  (sem + Nat.b2n (holding (wc_pc c)) = wr_sem st + Nat.b2n (holding pc))%nat → (sem ≤ wr_cap st)%nat →
  (wg + Nat.b2n (counted (wc_pc c)) = wr_wg st + Nat.b2n (counted pc))%nat →
  (is_Some (wr_err st) → is_Some err) →
  (accepted (wc_pc c) = true → accepted pc = true) →
  (settled (wc_pc c) = true → settled pc = true) →
  (settled pc = true → settled (wc_pc c) = true ∨ is_Some err) →
  writer_inv n (wr_goto i c pc sem wg err st).
Proof.
  intros [Hlog [Hone Hd Hs] Hsem Hcap Hwg Hf] Hi Hne Esem Hcap' Ewg Herr Hacc Hset1 Hset2.
  pose proof (lookup_lt_Some _ _ _ Hi) as Hlt. set (c' := mkCall (wc_rec c) (wc_ctx c) pc).
  assert (Hlk : ∀ k, wr_calls (wr_goto i c pc sem wg err st) !! k
    = if decide (k = i) then Some c' else wr_calls st !! k).
  { intros k. simpl. case_decide as Hk; [subst k; by rewrite list_lookup_insert_eq|by rewrite list_lookup_insert_ne]. }
  split; [done|split; [done|..]| |done| |].
  - intros k r Hk. destruct (Hd k r Hk) as (d & Hdk & Hr & Hsd). rewrite Hlk. case_decide as E.
    + subst k. assert (d = c) as -> by congruence. exists c'. auto.
    + by exists d.
  - intros k d. rewrite Hlk. case_decide as E; intros Hdk Hsd.
    + subst k. apply (inj Some) in Hdk as <-. simpl in *. destruct (Hset2 Hsd) as [Hsc|?]; [|by right].
      destruct (Hs i c Hi Hsc); [by left|right; by apply Herr].
    + destruct (Hs k d Hdk Hsd); [by left|right; by apply Herr].
  - simpl. pose proof (count_if_insert (λ c, holding (wc_pc c)) _ _ _ c' Hi). subst c'. simpl in *. lia.
  - simpl. pose proof (count_if_insert (λ c, counted (wc_pc c)) _ _ _ c' Hi). subst c'. simpl in *. lia.
  - intros j f Hj. eapply flush_ok_advance; [by eapply Hf|]. split; [done|].
    eapply advances_insert; [exact Hi| | | |reflexivity]; simpl; done.
Qed.

(** What an append does to the stream. *)
Lemma append_log w path rec now done n :
  holds_done w path done n →
  (∀ C, sys_ok w C → event_ok w C (EvAppend now path [rec] false)) →
  let '(srv, r) := append_result (Append (w_srv w) now path [rec]) in
  ∀ i, holds_done (mkWorld srv (w_run w)) path
    (done ++ (if (match r with Ok _ => true | Err _ => false end : bool) then [(i, rec)] else [])) n.
Proof.
  intros (C & e & rest & Hs & Hp & Hg & Hlog & Hsub & Hlen) Hok.
  unfold Append. pose proof (appendOrClose_ok _ _ C now path [rec] false Hs (Hok C Hs)) as Ha.
  destruct (appendOrClose (w_srv w) now path [rec] false) as [srv r]. cbn [append_result fst snd].
  rewrite Hp, Hg in Ha. destruct Ha as [Hs' ->]. intros i. unfold public_append in Hs'.
  destruct (a_closed (e_state e)) eqn:Hc.
  - rewrite decide_True by done. rewrite app_nil_r.
    exists (<[path:=with_state e (e_state e)]> C), (with_state e (e_state e)), rest.
    rewrite lookup_insert_eq. split_and!; done.
  - rewrite decide_False by (intros [? _]; congruence).
    eexists _, _, (rest ++ [rec]). split_and!; [exact Hs'|by rewrite lookup_insert_eq|done| | |].
    + simpl. by rewrite Hlog, app_assoc.
    + rewrite fmap_app. by apply sublist_app.
    + cbn [snd]. rewrite !length_app. cbn [length]. lia.
Qed.

(** The append of a call's goroutine. *)
Lemma append_inv n st i c now :
  writer_inv n st → wr_calls st !! i = Some c → wc_pc c = GWait →
  (∀ C, sys_ok (wr_world st) C → event_ok (wr_world st) C (EvAppend now (wr_path st) [wc_rec c] false)) →
  ∀ st', serve_step i now st = Some st' → writer_inv n st'.
Proof.
  intros Hinv Hi Hpc Hok st'. unfold serve_step. rewrite Hi. cbn [mbind option_bind]. rewrite Hpc.
  pose proof (append_log _ _ (wc_rec c) now _ _ (wi_log _ _ Hinv) Hok) as Hlog.
  destruct (append_result _) as [srv r]. specialize (Hlog i).
  destruct Hinv as [_ [Hone Hd Hs] Hsem Hcap Hwg Hf]. pose proof (lookup_lt_Some _ _ _ Hi) as Hlt.
  assert (Hnew : ∀ r, (i, r) ∉ wr_done st).
  { intros r' Hr. destruct (Hd i r' Hr) as (d & Hdi & _ & Hsd). simplify_eq. by rewrite Hpc in Hsd. }
  destruct r as [o|err]; intros [= <-].
  - set (c' := mkCall (wc_rec c) (wc_ctx c) GRelease).
    assert (Hlk : ∀ k, (<[i:=c']> (wr_calls st)) !! k = if decide (k = i) then Some c' else wr_calls st !! k).
    { intros k. case_decide as Hk; [subst k; by rewrite list_lookup_insert_eq|by rewrite list_lookup_insert_ne]. }
    split; [exact Hlog|split|..]; cbn [wr_goto wr_appended wr_calls wr_done wr_err wr_sem wr_wg wr_cap wr_flushes].
    + rewrite fmap_app. simpl. apply NoDup_app. split_and!; [done| |apply NoDup_singleton].
      intros k Hk E%list_elem_of_singleton. subst k. apply list_elem_of_fmap in Hk as ([k r] & -> & Hk).
      by apply (Hnew r).
    + intros k r Hk. rewrite Hlk. apply elem_of_app in Hk as [Hk|Hk].
      * destruct (Hd k r Hk) as (d & Hdk & Hr & Hsd). case_decide as E; [subst k; by destruct (Hnew r)|].
        by exists d.
      * apply list_elem_of_singleton in Hk. simplify_eq. rewrite decide_True by done. by exists c'.
    + intros k d. rewrite Hlk. case_decide as E; intros Hdk Hsd.
      * subst k. apply (inj Some) in Hdk as <-. left. apply elem_of_app. right. by apply list_elem_of_singleton.
      * destruct (Hs k d Hdk Hsd); [left; apply elem_of_app; by left|by right].
    + pose proof (count_if_insert (λ c, holding (wc_pc c)) _ _ _ c' Hi) as Hc. subst c'. simpl in *. rewrite Hpc in Hc.
      simpl in Hc. lia.
    + done.
    + pose proof (count_if_insert (λ c, counted (wc_pc c)) _ _ _ c' Hi) as Hc. subst c'. simpl in *. rewrite Hpc in Hc.
      simpl in Hc. lia.
    + intros j f Hj. eapply flush_ok_advance; [by eapply Hf|]. split; [intros x Hx; apply elem_of_app; by left|].
      eapply (advances_insert st i c c'); [exact Hi|done|by rewrite Hpc|by rewrite Hpc|reflexivity].
  - rewrite app_nil_r in Hlog.
    assert (Hinv' : writer_inv n (wr_appended srv i c false st)).
    { unfold wr_appended. rewrite app_nil_r. by split. }
    apply goto_inv; [done|done|rewrite Hpc; done|rewrite Hpc; simpl; lia|done|rewrite Hpc; simpl; lia|done|done| |done].
    by rewrite Hpc.
Qed.

Definition wevent_ok st C (ev : wevent) : Prop :=
  match ev with
  | WrServe i now => ∀ c, wr_calls st !! i = Some c → wc_pc c = GWait →
      event_ok (wr_world st) C (EvAppend now (wr_path st) [wc_rec c] false)
  | WrEnv ev => event_ok (wr_world st) C ev ∧ spares (wr_path st) ev
  | _ => True
  end.

Lemma call_step_inv n st i st' :
  writer_inv n st → call_step i st = Some st' → writer_inv n st'.
Proof.
  intros Hinv E. pose proof E as E0. unfold call_step in E0.
  destruct (wr_calls st !! i) as [c|] eqn:Hi; [|done]. cbn [mbind option_bind] in E0.
  pose proof Hinv as [_ _ Hsem Hcap Hwg _].
  pose proof (count_if_insert (λ c, holding (wc_pc c)) _ _ _ (mkCall [] false GEnd) Hi) as Hh.
  pose proof (count_if_insert (λ c, counted (wc_pc c)) _ _ _ (mkCall [] false GEnd) Hi) as Hw.
  destruct (wc_pc c) eqn:Hpc; cbn beta in Hh, Hw; rewrite Hpc in Hh, Hw; simpl in Hh, Hw;
    try done;
    [destruct (wr_err st) eqn:Herr| | |destruct (ctx_Err (wc_ctx c))|..]; try case_decide; simplify_eq;
    (apply goto_inv; rewrite ?Hpc; simpl; try done; try lia); try (by intros; auto).
  - rewrite Herr. by intros [].
  - intros [x ->]. by eexists.
  - intros _. right. unfold setErr. by destruct (wr_err st).
Qed.

Lemma flush_inv n st j f f' :
  writer_inv n st → wr_flushes st !! j = Some f → flush_ok st f' → writer_inv n (wr_set_flush j f' st).
Proof.
  intros [Hlog Hset Hsem Hcap Hwg Hf] Hj Hf'. split; [done|by destruct Hset; split|done..|]. cbn [wr_set_flush wr_flushes]. intros k g Hk.
  destruct (decide (k = j)) as [->|Hne].
  - rewrite list_lookup_insert_eq in Hk by (by eapply lookup_lt_Some). by simplify_eq.
  - rewrite list_lookup_insert_ne in Hk by done. by eapply Hf.
Qed.

Lemma flush_step_inv n st j st' : writer_inv n st → flush_step j st = Some st' → writer_inv n st'.
Proof.
  intros Hinv E. unfold flush_step in E. destruct (wr_flushes st !! j) as [f|] eqn:Hj; [|done].
  pose proof (wi_flushes _ _ Hinv j f Hj) as Hf. unfold flush_ok in Hf. cbn [mbind option_bind] in E.
  destruct (fc_pc f) as [| |r] eqn:Hpc; [|..|done].
  - case_decide as Hz; simplify_eq. eapply flush_inv; [done..|]. unfold flush_ok. cbn [fc_pc fc_accepted]. intros i Hi.
    destruct (Hf i Hi) as (c & Hc & Ha). exists c. split; [done|].
    rewrite (wi_wg _ _ Hinv) in Hz. apply count_if_0 with (i := i) (x := c) in Hz; [|done].
    by destruct (wc_pc c).
  - simplify_eq. eapply flush_inv; [done..|]. unfold flush_ok. cbn [fc_pc fc_accepted].
    destruct (wr_err st) eqn:Herr; [done|]. intros i Hi. destruct (Hf i Hi) as (c & Hc & Hend). exists c.
    split; [done|]. destruct (so_settled _ (wi_settled _ _ Hinv) i c Hc) as [?|[? ?]]; [by rewrite Hend|done|congruence].
Qed.

Lemma accepted_calls_spec cs i : i ∈ accepted_calls cs → ∃ c, cs !! i = Some c ∧ accepted (wc_pc c) = true.
Proof.
  unfold accepted_calls. intros ([k c] & Hi & Hk)%list_elem_of_bind.
  apply list_elem_of_lookup in Hk as [n Hn]. rewrite list_lookup_imap_Some in Hn.
  destruct Hn as (d & Hd & [= -> ->]). destruct (accepted (wc_pc d)) eqn:Ha; [|by apply elem_of_nil in Hi].
  apply list_elem_of_singleton in Hi as ->. by exists d.
Qed.

(** The tail the store holds of the stream at [path]. *)
Definition stored_tail (w : world S) (path : bytes) : Z :=
  match loadMeta (srv_store (w_srv w)) path with
  | Ok (Some m) => match loadTailSeq (srv_store (w_srv w)) (StreamID m) with Ok T => T | Err _ => 0 end
  | _ => 0
  end.

(** The records an event of the rest of the system appends to the writer's stream. *)
Definition foreign1 (ev : wevent) st st' : Z :=
  match ev with
  | WrEnv _ => stored_tail (wr_world st') (wr_path st) - stored_tail (wr_world st) (wr_path st)
  | _ => 0
  end.

Lemma stored_tail_cat w path C e :
  sys_ok w C → C !! path = Some e → stored_tail w path = a_tail (e_state e).
Proof.
  intros [[Hh Hcat _ _] _] Hp. unfold stored_tail. rewrite (loadMeta_cat _ _ _ _ _ Hh Hcat), Hp.
  cbn [fmap option_fmap option_map]. change (StreamID (e_stored e)) with (e_id e).
  by rewrite (loadTailSeq_cat _ _ _ _ _ Hh Hcat path e Hp).
Qed.

Lemma writer_step_inv n st ev st' :
  writer_inv n st → (∀ C, sys_ok (wr_world st) C → wevent_ok st C ev) →
  writer_step ev st = Some st' → writer_inv (n + foreign1 ev st st') st'.
Proof.
  intros Hinv Hok E. destruct ev as [rec|i|i now|i|i| |j|j|j|ev]; cbn [writer_step] in E;
    cbn [foreign1]; rewrite ?Z.add_0_r.
  - simplify_eq. destruct Hinv as [Hlog [Hone Hd Hs] Hsem Hcap Hwg Hf].
    assert (Hadv : advances st (mkWriter (wr_world st) (wr_path st) (wr_cap st) (wr_sem st) (wr_wg st) (wr_err st)
      (wr_calls st ++ [mkCall rec false WErr]) (wr_flushes st) (wr_done st))).
    { split; [done|]. intros i c Hc. exists c. simpl. rewrite lookup_app_l by (by eapply lookup_lt_Some). auto. }
    split; [done|split; [done|..]| |done| |]; simpl.
    + intros k r Hk. destruct (Hd k r Hk) as (c & Hc & ?). exists c.
      by rewrite lookup_app_l by (by eapply lookup_lt_Some).
    + intros k c [Hc|[_ Hc]]%lookup_app_Some; [by apply Hs|].
      apply list_lookup_singleton_Some in Hc as [_ <-]. done.
    + rewrite count_if_app, count_if_cons, Hsem. simpl. unfold count_if. simpl. lia.
    + rewrite count_if_app, count_if_cons, Hwg. simpl. unfold count_if. simpl. lia.
    + intros j f Hj. eapply flush_ok_advance; [by eapply Hf|done].
  - by eapply call_step_inv.
  - pose proof E as E0. unfold serve_step in E0. destruct (wr_calls st !! i) as [c|] eqn:Hi; [|done].
    cbn [mbind option_bind] in E0. destruct (wc_pc c) eqn:Hpc; try done.
    eapply append_inv; [done..| |exact E]. intros C HC. by apply (Hok C HC).
  - unfold call_give_up in E. destruct (wr_calls st !! i) as [c|] eqn:Hi; [|done]. cbn [mbind option_bind] in E.
    destruct (wc_pc c) eqn:Hpc; try done. destruct (wc_ctx c); [|done]. simplify_eq.
    pose proof (wi_cap _ _ Hinv). apply goto_inv; rewrite ?Hpc; simpl; done || lia.
  - destruct (wr_calls st !! i) as [c|] eqn:Hi; [|done]. simplify_eq/=.
    destruct Hinv as [Hlog [Hone Hd Hs] Hsem Hcap Hwg Hf]. set (c' := mkCall (wc_rec c) true (wc_pc c)).
    assert (Hlk : ∀ k, (<[i:=c']> (wr_calls st)) !! k = if decide (k = i) then Some c' else wr_calls st !! k).
    { intros k. case_decide as Hk; [subst k|by rewrite list_lookup_insert_ne].
      rewrite list_lookup_insert_eq; [done|by eapply lookup_lt_Some]. }
    split; [done|split; [done|..]| |done| |]; simpl.
    + intros k r Hk. destruct (Hd k r Hk) as (d & Hdk & ? & ?). rewrite Hlk. case_decide; [|by exists d].
      subst k. assert (d = c) as -> by congruence. by exists c'.
    + intros k d. rewrite Hlk. case_decide; [|by apply Hs]. subst k. intros [= <-]. by apply (Hs i c).
    + pose proof (count_if_insert (λ c, holding (wc_pc c)) _ _ _ c' Hi). subst c'. simpl in *. lia.
    + pose proof (count_if_insert (λ c, counted (wc_pc c)) _ _ _ c' Hi). subst c'. simpl in *. lia.
    + intros j f Hj. eapply flush_ok_advance; [by eapply Hf|]. split; [done|].
      by eapply (advances_insert st i c c'); [exact Hi| | | |reflexivity].
  - simplify_eq. destruct Hinv as [Hlog Hset Hsem Hcap Hwg Hf].
    split; [done|by destruct Hset; split|done..|]. cbn [wr_flushes]. intros j f [Hj|[_ Hj]]%lookup_app_Some; [by apply (Hf j)|].
    apply list_lookup_singleton_Some in Hj as [_ <-]. intros i Hi. by apply accepted_calls_spec.
  - by eapply flush_step_inv.
  - unfold flush_give_up in E. destruct (wr_flushes st !! j) as [f|] eqn:Hj; [|done]. cbn [mbind option_bind] in E.
    destruct (fc_pc f) eqn:Hpc; try done. destruct (fc_ctx f); [|done]. simplify_eq. by eapply flush_inv.
  - destruct (wr_flushes st !! j) as [f|] eqn:Hj; [|done]. simplify_eq/=. eapply flush_inv; [done..|].
    exact (wi_flushes _ _ Hinv j f Hj).
  - simplify_eq. destruct Hinv as [(C & e & rest & Hs & Hp & Hg & Hlog & Hsub & Hlen) [Hone Hd Hset] Hsem Hcap Hwg Hf].
    destruct (Hok C Hs) as [Hev Hsp]. destruct (sys_step_ok _ C ev Hs Hev) as (C' & Hs' & _ & Hk).
    destruct (Hk _ Hsp e Hp Hg) as (e' & Hp' & Hg' & Hgr). destruct (gr_log _ _ Hgr) as [more Hmore].
    split; [|by split|done..]. exists C', e', (rest ++ more). split_and!; [done..| | |].
    + by rewrite Hmore, Hlog, app_assoc.
    + by apply sublist_inserts_r.
    + cbn [wr_world wr_path wr_done]. rewrite (stored_tail_cat _ _ C' e' Hs' Hp'), (stored_tail_cat _ _ C e Hs Hp).
      unfold a_tail. rewrite (gr_base _ _ Hgr), Hmore, !length_app. lia.
Qed.

(** Runs of the writer, between anything else the system does that leaves the stream in place. *)
Inductive writer_run : writer S → list wevent → writer S → Prop :=
| writer_run_nil st : writer_run st [] st
| writer_run_cons st ev st1 evs st' :
    (∀ C, sys_ok (wr_world st) C → wevent_ok st C ev) → writer_step ev st = Some st1 →
    writer_run st1 evs st' → writer_run st (ev :: evs) st'.

(** The records others appended to the stream in a run. *)
Fixpoint foreign (evs : list wevent) st : Z :=
  match evs with
  | [] => 0
  | ev :: evs =>
      match writer_step ev st with
      | Some st' => foreign1 ev st st' + foreign evs st'
      | None => 0
      end
  end.

Lemma writer_run_inv st evs st' : writer_run st evs st' → ∀ n,
  writer_inv n st → writer_inv (n + foreign evs st) st'.
Proof.
  induction 1 as [|st ev st1 evs st' Hok E _ IH]; intros n Hi; simpl; [by rewrite Z.add_0_r|].
  rewrite E, Z.add_assoc. by apply IH, writer_step_inv.
Qed.

End writer_inv.

(** ** Progress *)

Definition wpc_rank (pc : wpc) : nat :=
  match pc with
  | WErr => 8 | WSelect => 7 | WAdd => 6 | GAppend => 5 | GWait => 4 | GSetErr _ => 3 | GRelease => 2 | GDone => 1
  | GEnd | WFailed _ => 0
  end.
Definition fpc_rank (pc : fpc) : nat := match pc with FWait => 2 | FErr => 1 | FReturn _ => 0 end.

(** The actions the calls have left. *)
Definition rank {S} (st : writer S) : nat :=
  (sum_list_with (λ c, wpc_rank (wc_pc c)) (wr_calls st) +
   sum_list_with (λ f, fpc_rank (fc_pc f)) (wr_flushes st))%nat.

Section progress.
  Context {S : Type} `{StorageLaws S}.
  Implicit Types (st : writer S) (c : wcall).

Lemma rank_goto st st0 i c pc sem wg err :
  wr_calls st !! i = Some c → wr_calls st0 = wr_calls st → wr_flushes st0 = wr_flushes st →
  (wpc_rank pc < wpc_rank (wc_pc c))%nat → (rank (wr_goto i c pc sem wg err st0) < rank st)%nat.
Proof.
  intros Hi Ec Ef Hlt. unfold rank. simpl. rewrite Ec, Ef.
  pose proof (sum_insert (λ c, wpc_rank (wc_pc c)) _ _ _ (mkCall (wc_rec c) (wc_ctx c) pc) Hi) as Hs.
  simpl in Hs. lia.
Qed.

Lemma rank_flush st j f f' :
  wr_flushes st !! j = Some f → (fpc_rank (fc_pc f') < fpc_rank (fc_pc f))%nat →
  (rank (wr_set_flush j f' st) < rank st)%nat.
Proof.
  intros Hj Hlt. unfold rank. simpl.
  pose proof (sum_insert (λ f, fpc_rank (fc_pc f)) _ _ _ f' Hj) as Hs. simpl in Hs. lia.
Qed.

(** What brings the end closer: the calls' own actions, and the server's answers. *)
Definition progresses (ev : wevent) : bool := internal ev || match ev with WrServe _ _ => true | _ => false end.

Lemma progress_rank st ev st' :
  progresses ev = true → writer_step ev st = Some st' → (rank st' < rank st)%nat.
Proof.
  intros Hint E. destruct ev as [rec|i|i now|i|i| |j|j|j|ev]; try done; cbn [writer_step] in E.
  - unfold call_step in E. destruct (wr_calls st !! i) as [c|] eqn:Hi; [|done]. cbn [mbind option_bind] in E.
    destruct (wc_pc c) eqn:Hpc; try done; [destruct (wr_err st)|case_decide| |destruct (ctx_Err (wc_ctx c))|..];
      simplify_eq; (eapply rank_goto; [exact Hi|done|done|]); rewrite Hpc; simpl; lia.
  - unfold serve_step in E. destruct (wr_calls st !! i) as [c|] eqn:Hi; [|done]. cbn [mbind option_bind] in E.
    destruct (wc_pc c) eqn:Hpc; try done. destruct (append_result _) as [srv [o|err]];
      simplify_eq; (eapply rank_goto; [exact Hi|done|done|]); rewrite Hpc; simpl; lia.
  - unfold call_give_up in E. destruct (wr_calls st !! i) as [c|] eqn:Hi; [|done]. cbn [mbind option_bind] in E.
    destruct (wc_pc c) eqn:Hpc; try done. destruct (wc_ctx c); [|done]. simplify_eq.
    eapply rank_goto; [exact Hi|done|done|]. rewrite Hpc. simpl. lia.
  - unfold flush_step in E. destruct (wr_flushes st !! j) as [f|] eqn:Hj; [|done]. cbn [mbind option_bind] in E.
    destruct (fc_pc f) eqn:Hpc; try done; [case_decide; [|done]|]; simplify_eq;
      (eapply rank_flush; [exact Hj|]); rewrite Hpc; simpl; lia.
  - unfold flush_give_up in E. destruct (wr_flushes st !! j) as [f|] eqn:Hj; [|done]. cbn [mbind option_bind] in E.
    destruct (fc_pc f) eqn:Hpc; try done. destruct (fc_ctx f); [|done]. simplify_eq.
    eapply rank_flush; [exact Hj|]. rewrite Hpc. simpl. lia.
Qed.

(** No call can act: whatever is left waits for the server. *)
Definition quiescent st : Prop := ∀ ev, internal ev = true → writer_step ev st = None.

(** The calls that wait for the server's answer. *)
Definition waiting (c : wcall) : bool := match wc_pc c with GWait => true | _ => false end.

Definition call_blocked st (c : wcall) : Prop :=
  match wc_pc c with
  | GEnd | WFailed _ | GWait => True
  | WSelect => wc_ctx c = false ∧ count_if waiting (wr_calls st) = wr_cap st
  | _ => False
  end.

Definition flush_blocked st (f : fcall) : Prop :=
  match fc_pc f with
  | FReturn _ => True
  | FWait => fc_ctx f = false ∧ (0 < count_if waiting (wr_calls st))%nat
  | FErr => False
  end.

Lemma count_if_ext_in {A} (f g : A → bool) l :
  (∀ i x, l !! i = Some x → f x = g x) → count_if f l = count_if g l.
Proof.
  induction l as [|x l IH]; intros Hfg; [done|]. rewrite !count_if_cons, (Hfg 0%nat x eq_refl). f_equal.
  apply IH. intros i y Hy. apply (Hfg (Datatypes.S i) y Hy).
Qed.

Lemma quiescent_blocked log0 n st :
  writer_inv log0 n st → quiescent st →
  (∀ i c, wr_calls st !! i = Some c → call_blocked st c) ∧
  (∀ j f, wr_flushes st !! j = Some f → flush_blocked st f).
Proof.
  intros Hinv Hq.
  assert (Hpcs : ∀ i c, wr_calls st !! i = Some c →
    holding (wc_pc c) = waiting c ∧ counted (wc_pc c) = waiting c).
  { intros i c Hi. specialize (Hq (WrCall i) eq_refl). cbn [writer_step] in Hq. unfold call_step in Hq.
    rewrite Hi in Hq. cbn [mbind option_bind] in Hq. unfold waiting. by destruct (wc_pc c). }
  assert (Hsem : wr_sem st = count_if waiting (wr_calls st)).
  { rewrite (wi_sem _ _ _ Hinv). apply count_if_ext_in. intros i c Hi. by apply (Hpcs i c). }
  assert (Hwg : wr_wg st = count_if waiting (wr_calls st)).
  { rewrite (wi_wg _ _ _ Hinv). apply count_if_ext_in. intros i c Hi. by apply (Hpcs i c). }
  pose proof (wi_cap _ _ _ Hinv) as Hcap. split.
  - intros i c Hi. pose proof (Hq (WrCall i) eq_refl) as Hc. pose proof (Hq (WrGiveUp i) eq_refl) as Hg.
    cbn [writer_step] in Hc, Hg. unfold call_step in Hc. unfold call_give_up in Hg. rewrite Hi in Hc, Hg.
    cbn [mbind option_bind] in Hc, Hg. unfold call_blocked. destruct (wc_pc c); try done.
    case_decide; [done|]. destruct (wc_ctx c); [done|]. split; [done|lia].
  - intros j f Hj. pose proof (Hq (WrFlushStep j) eq_refl) as Hc. pose proof (Hq (WrFlushGiveUp j) eq_refl) as Hg.
    cbn [writer_step] in Hc, Hg. unfold flush_step in Hc. unfold flush_give_up in Hg. rewrite Hj in Hc, Hg.
    cbn [mbind option_bind] in Hc, Hg. unfold flush_blocked. destruct (fc_pc f); try done.
    case_decide; [done|]. destruct (fc_ctx f); [done|]. split; [done|lia].
Qed.

(** With no append waiting for the server, nothing is left. *)
Lemma quiescent_done log0 n st :
  writer_inv log0 n st → (0 < wr_cap st)%nat → quiescent st → count_if waiting (wr_calls st) = 0%nat →
  rank st = 0%nat.
Proof.
  intros Hinv Hcap Hq Hnone. destruct (quiescent_blocked _ _ _ Hinv Hq) as [Hc Hf].
  unfold rank. destruct (decide (0 < sum_list_with (λ c, wpc_rank (wc_pc c)) (wr_calls st))%nat) as [Hp|Hp].
  - apply sum_pos in Hp as (i & c & Hi & Hpos). specialize (Hc i c Hi). unfold call_blocked in Hc.
    apply (proj1 (count_if_0 _ _) Hnone) in Hi. unfold waiting in Hi. destruct (wc_pc c); simpl in *; try lia; try done.
  - destruct (decide (0 < sum_list_with (λ f, fpc_rank (fc_pc f)) (wr_flushes st))%nat) as [Hp2|]; [|lia].
    apply sum_pos in Hp2 as (j & f & Hj & Hpos). specialize (Hf j f Hj). unfold flush_blocked in Hf.
    destruct (fc_pc f); simpl in *; lia || done.
Qed.

(** ** Properties *)

Lemma Writer_inv (w : world S) (path : bytes) (n : Z) (C : catalog) e :
  sys_ok w C → C !! path = Some e → e_gone e = false →
  writer_inv (a_log (e_state e)) 0 (Writer w path n).
Proof.
  intros Hs Hp Hg. split; [|split|..]; simpl; try done; try lia.
  - exists C, e, []. by rewrite app_nil_r.
  - constructor.
  - intros i r Hi. by apply elem_of_nil in Hi.
Qed.

Lemma writer_step_cap st ev st' : writer_step ev st = Some st' → wr_cap st' = wr_cap st.
Proof.
  intros E. destruct ev as [rec|i|i now|i|i| |j|j|j|ev]; cbn [writer_step] in E.
  - by simplify_eq.
  - unfold call_step in E. destruct (wr_calls st !! i) as [c|]; [|done]. cbn [mbind option_bind] in E.
    destruct (wc_pc c); try done; [|case_decide|..]; by simplify_eq.
  - unfold serve_step in E. destruct (wr_calls st !! i) as [c|]; [|done]. cbn [mbind option_bind] in E.
    destruct (wc_pc c); try done. destruct (append_result _) as [srv [o|err]]; by simplify_eq.
  - unfold call_give_up in E. destruct (wr_calls st !! i) as [c|]; [|done]. cbn [mbind option_bind] in E.
    destruct (wc_pc c); try done. destruct (wc_ctx c); [|done]. by simplify_eq.
  - destruct (wr_calls st !! i); [|done]. by simplify_eq/=.
  - by simplify_eq.
  - unfold flush_step in E. destruct (wr_flushes st !! j) as [f|]; [|done]. cbn [mbind option_bind] in E.
    destruct (fc_pc f); try done; [case_decide; [|done]|]; by simplify_eq.
  - unfold flush_give_up in E. destruct (wr_flushes st !! j) as [f|]; [|done]. cbn [mbind option_bind] in E.
    destruct (fc_pc f); try done. destruct (fc_ctx f); [|done]. by simplify_eq.
  - destruct (wr_flushes st !! j); [|done]. by simplify_eq/=.
  - by simplify_eq.
Qed.

Lemma run_cap st evs st' : writer_run st evs st' → wr_cap st' = wr_cap st.
Proof. induction 1 as [|st ev st1 evs st' _ E _ IH]; [done|]. rewrite IH. by eapply writer_step_cap. Qed.


(** C29: the writer is bounded, and waits for nothing but the server: at most
    [Concurrency] goroutines are between their slot's select and its release; each
    action of a call and each answer of the server brings the end closer, so there are
    only so many; and when no call can act any more, every Write and goroutine is over,
    or waits for the server to answer its append, or, a Write whose context is not done,
    for a slot while all of them are held by such appends, and every Flush has returned
    or, its context not done, waits for such an append. So when no append waits for the
    server everything has returned; the server's answer always lets its append go on, and
    a Flush or a Write blocked in its select goes on when its context is done. *)
Theorem writer_bounded_live (w : world S) (path : bytes) (n : Z) (C : catalog) e evs st :
  sys_ok w C → C !! path = Some e → e_gone e = false → writer_run (Writer w path n) evs st →
  (count_if (λ c, holding (wc_pc c)) (wr_calls st) ≤ concurrency n)%nat ∧
  (∀ ev st', progresses ev = true → writer_step ev st = Some st' → (rank st' < rank st)%nat) ∧
  (quiescent st →
     (∀ i c, wr_calls st !! i = Some c → call_blocked st c) ∧
     (∀ j f, wr_flushes st !! j = Some f → flush_blocked st f)) ∧
  (quiescent st → count_if waiting (wr_calls st) = 0%nat → rank st = 0%nat) ∧
  (∀ i c now, wr_calls st !! i = Some c → waiting c = true → is_Some (writer_step (WrServe i now) st)) ∧
  (∀ i c, wr_calls st !! i = Some c → wc_pc c = WSelect → wc_ctx c = true → is_Some (writer_step (WrGiveUp i) st)) ∧
  (∀ j f, wr_flushes st !! j = Some f → fc_pc f = FWait → fc_ctx f = true →
     is_Some (writer_step (WrFlushGiveUp j) st)).
Proof.
  intros Hs Hp Hg Hrun. pose proof (writer_run_inv _ _ _ _ Hrun 0 (Writer_inv w path n C e Hs Hp Hg)) as Hinv.
  pose proof (run_cap _ _ _ Hrun) as Hcap. simpl in Hcap. split_and!.
  - rewrite <-(wi_sem _ _ _ Hinv), <-Hcap. apply Hinv.
  - intros ev st'. apply progress_rank.
  - by eapply quiescent_blocked.
  - eapply quiescent_done; [done|]. rewrite Hcap. unfold concurrency. case_decide; lia.
  - intros i c now Hi Hw. cbn [writer_step]. unfold serve_step. rewrite Hi. cbn [mbind option_bind].
    unfold waiting in Hw. destruct (wc_pc c); try discriminate Hw. destruct (append_result _). by eexists.
  - intros i c Hi Hpc Hctx. cbn [writer_step]. unfold call_give_up. rewrite Hi. cbn [mbind option_bind].
    rewrite Hpc, Hctx. by eexists.
  - intros j f Hj Hpc Hctx. cbn [writer_step]. unfold flush_give_up. rewrite Hj. cbn [mbind option_bind].
    rewrite Hpc, Hctx. by eexists.
Qed.

(** An append with a small clock fits. *)
Definition append_fits (w : world S) (path : bytes) (now : Z) : bool :=
  match loadMeta (srv_store (w_srv w)) path with
  | Ok (Some m) =>
      match loadTailSeq (srv_store (w_srv w)) (StreamID m) with
      | Ok T => bool_decide (is_i64 now ∧ (0 ≤ TTLSeconds m ∧ 0 ≤ now ∧ now + TTLSeconds m + 600 < 2^64) ∧ T + 1 < 2^63)
      | Err _ => false
      end
  | _ => false
  end.

Lemma append_fits_ok w path now rec :
  append_fits w path now = true → ∀ C, sys_ok w C → event_ok w C (EvAppend now path [rec] false).
Proof.
  intros Hf C Hs e Hp. pose proof Hs as [[Hh Hcat _ _] _]. unfold append_fits in Hf.
  rewrite (loadMeta_cat _ _ _ _ _ Hh Hcat), Hp in Hf. cbn [fmap option_fmap option_map] in Hf.
  change (StreamID (e_stored e)) with (e_id e) in Hf.
  rewrite (loadTailSeq_cat _ _ _ _ _ Hh Hcat path e Hp) in Hf. apply bool_decide_eq_true in Hf as (Hn & Ht & Hr).
  split_and!; [exact Hn|exact Ht|simpl; lia].
Qed.

End progress.

(** ** Witnesses *)

(** Two writes through one slot, and a flush. *)
Module WriterSample.
Definition start : writer fakeStore := Writer (mkWorld LifeSample.srv1 ∅) LifeSample.path 1.
Definition call (i : nat) (n : nat) : list wevent := replicate n (WrCall i).
Definition events : list wevent :=
  [WrWrite ["p"%byte]; WrWrite ["q"%byte]] ++ call 0 4 ++ [WrServe 0 101] ++ call 0 1 ++ call 1 4 ++ [WrFlush] ++
  call 0 1 ++ [WrServe 1 101] ++ call 1 2 ++ [WrFlushStep 0; WrFlushStep 0].

(** Runs the events, checking that each append's arguments are in range. *)
Fixpoint replay (evs : list wevent) (st : writer fakeStore) : option (writer fakeStore) :=
  match evs with
  | [] => Some st
  | ev :: evs =>
      let fits := match ev with
                  | WrServe _ now => append_fits (wr_world st) (wr_path st) now
                  | WrEnv _ => false
                  | _ => true
                  end in
      if fits then st' ← writer_step ev st; replay evs st' else None
  end.

Lemma replay_run evs st st' : replay evs st = Some st' → writer_run st evs st'.
Proof.
  revert st. induction evs as [|ev evs IH]; intros st E; simpl in E; [simplify_eq; apply writer_run_nil|].
  destruct (match ev with WrServe _ now => _ | WrEnv _ => _ | _ => _ end) eqn:Hf; [|done].
  destruct (writer_step ev st) as [st1|] eqn:E1; [|done]. simpl in E.
  eapply writer_run_cons; [|exact E1|by apply IH]. intros C HC.
  destruct ev; try done. intros c Hc _. by apply append_fits_ok.
Qed.

Definition flushed (st : writer fakeStore) : bool :=
  match wr_flushes st !! 0%nat with
  | Some {| fc_pc := FReturn None; fc_accepted := acc |} => bool_decide (acc = [0; 1]%nat)
  | _ => false
  end.

Lemma flushed_spec st :
  flushed st = true → ∃ f, wr_flushes st !! 0%nat = Some f ∧ fc_pc f = FReturn None ∧ fc_accepted f = [0; 1]%nat.
Proof.
  unfold flushed. destruct (wr_flushes st !! 0%nat) as [[ctx [| |[err|]] acc]|]; try done.
  intros ->%bool_decide_eq_true. by eexists.
Qed.

Lemma events_flush : from_option flushed false (replay events start) = true.
Proof. vm_compute. reflexivity. Qed.

Lemma start_ok : sys_ok (wr_world start) LifeSample.C1.
Proof. apply LifeSample.srv1_ok. Qed.
End WriterSample.


Lemma writer_bounded_live_witness :
  (count_if (λ c, holding (wc_pc c)) (wr_calls WriterSample.start) ≤ 1)%nat.
Proof.
  apply (writer_bounded_live (mkWorld LifeSample.srv1 ∅) LifeSample.path 1 LifeSample.C1 LifeSample.entry1 []
    WriterSample.start WriterSample.start_ok (lookup_insert_eq _ _ _) eq_refl (writer_run_nil _)).
Defined.
