(* ===== verification/Chunks.v ===== *)
(** * Chunks: a stream on a channel

    yasdb/channel.go: [Chunks] reads a stream forward in a goroutine, first with
    catch-up reads, then with a live cursor, and puts each chunk on a buffered
    channel without ever blocking: a full buffer ends it with [ErrChunksOverrun].
    The live cursor is a reader of Live.v, so everything else that happens to the
    stream happens between any two of its statements. *)

From S2P Require Import Prelude.
From S2P Require Import Bytes.
From S2P Require Import Keys.
From S2P Require Import Meta.
From S2P Require Import Offset.
From S2P Require Import Storage.
From S2P Require Import Loads.
From S2P Require Import Read.
From S2P Require Import LiveCache.
From S2P Require Import Streamer.
From S2P Require Import Live.
From S2P Require Import LiveSpec.

(** ** State *)

Definition chunksBufferSize : nat := 64.

Record Chunk : Type := mkChunk { ch_Body : bytes; ch_Next : Offset }.

(** Where the goroutine is; [CkWait i n]: in [Next] of the cursor [i], which had
    given [n] answers before. *)
Inductive chunks_pc : Type :=
| CkRead | CkCatch | CkTail | CkLive (i : nat) | CkWait (i n : nat) | CkClosed.

(** [ck_got] is what the consumer has received; [ck_seen], for the theorems, the
    furthest tail a catch-up read was given. *)
Record chunks : Type := mkChunks {
  ck_pc : chunks_pc;
  ck_pos : Offset;
  ck_buf : list Chunk;
  ck_err : option error;
  ck_got : list Chunk;
  ck_seen : Z }.

Definition Chunks (from : Offset) : chunks := mkChunks CkRead from [] None [] 0.

Definition ck_goto (pc : chunks_pc) (k : chunks) : chunks :=
  mkChunks pc (ck_pos k) (ck_buf k) (ck_err k) (ck_got k) (ck_seen k).

(** [result.set(err); return], with the deferred close of the channel. *)
Definition ck_fail (e : error) (k : chunks) : chunks :=
  mkChunks CkClosed (ck_pos k) (ck_buf k) (match ck_err k with Some e' => Some e' | None => Some e end)
    (ck_got k) (ck_seen k).

(** [sendChunk], and the return when it is refused. *)
Definition sendChunk (c : Chunk) (k : chunks) : chunks + chunks :=
  if decide (length (ck_buf k) < chunksBufferSize)%nat
  then inr (mkChunks (ck_pc k) (ck_pos k) (ck_buf k ++ [c]) (ck_err k) (ck_got k) (ck_seen k))
  else inl (ck_fail ErrChunksOverrun k).

(** The goroutine after a catch-up [Next] whose tail was [T]. *)
Definition ck_catch (T : Z) (r : result (bytes * Offset * bool)) (k : chunks) : chunks :=
  match r with
  | Err e => ck_fail e k
  | Ok (body, next, more) =>
      let before := ck_pos k in
      let k := mkChunks (ck_pc k) next (ck_buf k) (ck_err k) (ck_got k) (Z.max (ck_seen k) T) in
      let sent := if decide (next ≠ before) then sendChunk (mkChunk body next) k else inr k in
      match sent with
      | inl k => k
      | inr k => if (more : bool) then ck_goto CkCatch k else ck_goto CkTail k
      end
  end.

(** The goroutine after the live cursor [i]'s [Next], which answered [out]. *)
Definition ck_return (i : nat) (out : option live_out) (k : chunks) : chunks :=
  match out with
  | Some (OutData _ next body _ _) =>
      match sendChunk (mkChunk body next) k with inl k => k | inr k => ck_goto (CkLive i) k end
  | Some (OutClosed _) => ck_fail ErrStreamClosed k
  | Some OutNotFound => ck_fail ErrNotFound k
  | Some OutError => ck_fail errInternal k
  | Some (OutUpToDate _) | Some (OutTimeout _) | None => ck_fail errCanceled k
  end.

(** The consumer receives. *)
Definition ck_recv (k : chunks) : option chunks :=
  match ck_buf k with
  | [] => None
  | c :: buf => Some (mkChunks (ck_pc k) (ck_pos k) buf (ck_err k) (ck_got k ++ [c]) (ck_seen k))
  end.

(** ** Steps *)

Section steps.
  Context {S : Type} `{StorageLaws S}.
  Context (id forkedFrom forkOffset : Z) (isJSON : bool) (maxReadBytes window : Z) (L : Z → bytes).
  Abbreviation step := (lstep id forkedFrom forkOffset isJSON maxReadBytes window L).
  Implicit Types (w : live S) (k : chunks).

Definition own_reader k : option nat :=
  match ck_pc k with CkLive i | CkWait i _ => Some i | _ => None end.

(** A catch-up [Next] from the goroutine's position, up to the tail [T]. *)
Definition catch_up w k (T : Z) : result (bytes * Offset * bool) :=
  '(body, next, upToDate) ← readRange (sh_store (lv_sh w)) id forkedFrom forkOffset isJSON (ck_pos k) T maxReadBytes;
  mret (body, next, negb upToDate).

(** [s.Read], a catch-up [Next] and [s.Tail] may fail, as the context, the stream
    and the store have it, with an error of the server's, which [ErrChunksOverrun]
    is not; the tail a catch-up read is given is one whose records are stored. *)
Inductive cstep : live S * chunks → live S * chunks → Prop :=
| cs_env w w' k :
    step w w' → (∀ i, own_reader k = Some i → lv_readers w' !! i = lv_readers w !! i) →
    cstep (w, k) (w', k)
| cs_read w k : ck_pc k = CkRead → cstep (w, k) (w, ck_goto CkCatch k)
| cs_fail w k e :
    ck_pc k = CkRead ∨ ck_pc k = CkCatch ∨ ck_pc k = CkTail → e ≠ ErrChunksOverrun →
    cstep (w, k) (w, ck_fail e k)
| cs_catch w k T :
    ck_pc k = CkCatch → holds_log id forkedFrom forkOffset L (sh_store (lv_sh w)) T → 0 ≤ T < 2^63 →
    catch_up w k T ≠ Err ErrChunksOverrun →
    cstep (w, k) (w, ck_catch T (catch_up w k T) k)
| cs_tail w k sh' r :
    ck_pc k = CkTail → join (lv_sh w) Cursor (Some (ck_pos k)) = (sh', r) →
    cstep (w, k) (mkLive sh' (lv_readers w ++ [r]), ck_goto (CkLive (length (lv_readers w))) k)
| cs_call w k i r sh' r' :
    ck_pc k = CkLive i → lv_readers w !! i = Some r →
    reader_step id forkedFrom forkOffset isJSON maxReadBytes (lv_sh w) r EvNext = Some (sh', r') →
    cstep (w, k) (mkLive sh' (<[i:=r']> (lv_readers w)), ck_goto (CkWait i (length (rd_out r))) k)
| cs_run w k i n r e sh' r' :
    ck_pc k = CkWait i n → lv_readers w !! i = Some r → rd_pc r ≠ RIdle →
    reader_step id forkedFrom forkOffset isJSON maxReadBytes (lv_sh w) r e = Some (sh', r') →
    cstep (w, k) (mkLive sh' (<[i:=r']> (lv_readers w)), k)
| cs_return w k i n r :
    ck_pc k = CkWait i n → lv_readers w !! i = Some r → rd_pc r = RIdle →
    cstep (w, k) (w, ck_return i (last (drop n (rd_out r))) k)
| cs_recv w k k' : ck_recv k = Some k' → cstep (w, k) (w, k').

Definition chunks_reachable (from : Offset) w k : Prop :=
  ∃ w0, live_init id forkedFrom forkOffset L w0 ∧ rtc cstep (w0, Chunks from) (w, k).

End steps.

(** Everything handed over, received or still in the buffer. *)
Definition ck_all (k : chunks) : list Chunk := ck_got k ++ ck_buf k.

(** Where to resume: after the last chunk. *)
Definition ck_last (from : Offset) (chs : list Chunk) : Offset :=
  match last chs with Some c => ch_Next c | None => from end.

(** ** Lemmas: what a sequence of chunks delivers *)

Section delivered.
  Context {S : Type} `{StorageLaws S}.
  Context (id forkedFrom forkOffset : Z) (isJSON : bool) (maxReadBytes window : Z).
  Context (L : Z → bytes) (Hmax : 0 < maxReadBytes).
  Implicit Types (w : live S) (k : chunks).

(** [bs] is the content from [from] to [pos]. *)
Definition delivers (from pos : Offset) (bs : list bytes) (bound : Z) : Prop :=
  if isJSON
  then Seq from ≤ Seq pos ∧
       ∃ pss, bs = wrapJSONArray <$> pss ∧ concat pss = payloads L (Seq from) (Seq pos)
  else ∀ T, bound ≤ T → concat bs ++ content_from L pos T = content_from L from T.

Lemma delivers_nil from bound : delivers from from [] bound.
Proof.
  unfold delivers. destruct isJSON; [|done]. split; [lia|]. exists []. by rewrite payloads_nil by lia.
Qed.

Lemma delivers_le from pos bs b b' : b ≤ b' → delivers from pos bs b → delivers from pos bs b'.
Proof. unfold delivers. destruct isJSON; [done|]. intros ? Hd T ?. apply Hd. lia. Qed.

Lemma delivers_app from mid pos bs bs' b :
  0 ≤ Seq from → delivers from mid bs b → delivers mid pos bs' b → delivers from pos (bs ++ bs') b.
Proof.
  unfold delivers. intros Hf. destruct isJSON.
  - intros (? & pss & -> & E) (? & pss' & -> & E'). split; [lia|]. exists (pss ++ pss').
    rewrite fmap_app, concat_app, E, E'. split; [done|]. symmetry. by apply payloads_app.
  - intros Hd Hd' T HT. by rewrite concat_app, <-app_assoc, Hd', Hd.
Qed.

Lemma delivers_read pos T body next utd b :
  read_ok L isJSON maxReadBytes pos T body next utd → next ≠ pos → T ≤ b →
  delivers pos next [body] b.
Proof.
  intros Hr Hne HT. destruct (read_ok_moves isJSON maxReadBytes L Hmax _ _ _ _ _ Hr Hne) as [Hlt [Hn1 Hn2]].
  revert Hr. unfold delivers, read_ok. destruct isJSON; intros Hr.
  - split; [lia|]. exists [payloads L (Seq pos) (Seq next)]. rewrite (jr_content _ _ _ _ _ _ _ Hr).
    simpl. by rewrite app_nil_r.
  - intros T' HT'. simpl. rewrite app_nil_r. eapply binary_read_extend; [exact Hr|lia|lia].
Qed.

(** ** Lemmas: one call of the live cursor *)

(** A cursor in a call, or back from it. *)
Definition in_call (r r' : reader) : Prop :=
  rd_mode r' = Cursor ∧ rd_from r' = rd_from r ∧ rd_pc r' ≠ REnd ∧ rd_pc r' ≠ RNow ∧
  (rd_out r' = rd_out r ∧ rd_start r' = rd_start r ∨
   rd_pc r' = RIdle ∧ ∃ o, rd_out r' = rd_out r ++ [o] ∧
     match o with
     | OutData _ next _ _ _ => rd_start r' = next
     | _ => rd_start r' = rd_start r
     end).

Lemma cursor_step sh r e sh' r' :
  rd_mode r = Cursor → rd_pc r ≠ RNow →
  reader_step id forkedFrom forkOffset isJSON maxReadBytes sh r e = Some (sh', r') → in_call r r'.
Proof.
  intros Hm Hnow. destruct r as [m start first pc from out]. cbn [rd_mode rd_pc] in Hm, Hnow. subst m.
  assert (Hleave : ∀ o sh0, o = OutError ∨ o = OutNotFound ∨ (∃ t, o = OutClosed t) →
    in_call {| rd_mode := Cursor; rd_start := start; rd_first := first; rd_pc := pc; rd_from := from; rd_out := out |}
      (rd_leave (S:=S) sh0 (rd_emit o {| rd_mode := Cursor; rd_start := start; rd_first := first; rd_pc := pc;
         rd_from := from; rd_out := out |})).2).
  { intros o sh0 Ho. unfold in_call. simpl. split_and!; try done. right. split; [done|]. exists o.
    split; [done|]. by destruct Ho as [->|[->|[t ->]]]. }
  assert (Hgoto : ∀ pc', pc' ≠ REnd → pc' ≠ RNow →
    in_call {| rd_mode := Cursor; rd_start := start; rd_first := first; rd_pc := pc; rd_from := from; rd_out := out |}
      (rd_goto pc' {| rd_mode := Cursor; rd_start := start; rd_first := first; rd_pc := pc; rd_from := from; rd_out := out |})).
  { intros pc' ? ?. split_and!; try done. by left. }
  unfold reader_step. cbn [rd_pc]. destruct pc; destruct e; try done.
  - intros [= <- <-]. by apply Hgoto.
  - intros [= <- <-]. by apply Hgoto.
  - intros [= <- <-]. by apply Hgoto.
  - destruct (live_read _ _ _ _ _ _ _ _) as [sh1 [[[body next] utd]|err]]; intros [= <- <-].
    + by apply Hgoto.
    + apply (Hleave OutError sh1). by left.
  - destruct (sh_stop sh); [intros [= <- <-]; apply (Hleave OutNotFound sh); auto|].
    case_decide as Hne; cbn [rd_start] in Hne.
    + unfold rd_deliver. cbn [rd_mode]. intros [= <- <-]. split_and!; try done. right. split; [done|].
      eexists. split; [done|]. done.
    + destruct closed; [intros [= <- <-]; apply (Hleave (OutClosed tail) sh); eauto|].
      intros [= <- <-]. by apply Hgoto.
  - case_decide; [|done]. intros [= <- <-]. by apply Hgoto.
  - destruct (sh_stop sh); [|done]. intros [= <- <-]. apply (Hleave OutNotFound sh). auto.
  - intros [= <- <-]. by apply Hgoto.
  - intros [= <- <-]. by apply Hgoto.
Qed.

(** ** The invariant *)

Definition phase_inv (from : Offset) w k : Prop :=
  match ck_pc k with
  | CkRead | CkCatch | CkTail => offset_ok (ck_pos k) ∧ ck_pos k = ck_last from (ck_all k)
  | CkLive i => ∃ r chs1 chs2, lv_readers w !! i = Some r ∧ rd_mode r = Cursor ∧ rd_pc r = RIdle ∧
      ck_all k = chs1 ++ chs2 ∧ delivers from (rd_from r) (ch_Body <$> chs1) (Z.max (ck_seen k) (sh_tail (lv_sh w))) ∧
      bodies (rd_out r) = ch_Body <$> chs2 ∧ rd_start r = ck_last from (ck_all k)
  | CkWait i n => ∃ r r0 chs1 chs2, lv_readers w !! i = Some r ∧ in_call r0 r ∧ length (rd_out r0) = n ∧
      ck_all k = chs1 ++ chs2 ∧ delivers from (rd_from r) (ch_Body <$> chs1) (Z.max (ck_seen k) (sh_tail (lv_sh w))) ∧
      bodies (rd_out r0) = ch_Body <$> chs2 ∧ rd_start r0 = ck_last from (ck_all k)
  | CkClosed => True
  end.

Record cinv (from : Offset) w k : Prop := {
  ci_live : live_inv id forkedFrom forkOffset isJSON maxReadBytes L w;
  ci_buf : (length (ck_buf k) ≤ chunksBufferSize)%nat;
  ci_delivers : delivers from (ck_last from (ck_all k)) (ch_Body <$> ck_all k)
    (Z.max (ck_seen k) (sh_tail (lv_sh w)));
  ci_phase : phase_inv from w k;
  ci_closed : ck_pc k = CkClosed ↔ ck_err k ≠ None;
  ci_overrun : ck_err k = Some ErrChunksOverrun → (chunksBufferSize ≤ length (ck_all k))%nat }.

Lemma open_err from w k : cinv from w k → ck_pc k ≠ CkClosed → ck_err k = None.
Proof.
  intros Hinv Hne. destruct (ck_err k) eqn:E; [|done]. destruct Hne. apply (ci_closed _ _ _ Hinv). by rewrite E.
Qed.

Lemma ck_last_snoc from chs c : ck_last from (chs ++ [c]) = ch_Next c.
Proof. unfold ck_last. by rewrite last_snoc. Qed.

Lemma bodies_app outs outs' : bodies (outs ++ outs') = bodies outs ++ bodies outs'.
Proof. apply omap_app. Qed.

(** The channel: a chunk goes in, or nothing does and it is full. *)
Lemma sendChunk_cases c k :
  (length (ck_buf k) < chunksBufferSize)%nat ∧
    sendChunk c k = inr (mkChunks (ck_pc k) (ck_pos k) (ck_buf k ++ [c]) (ck_err k) (ck_got k) (ck_seen k)) ∨
  (chunksBufferSize ≤ length (ck_buf k))%nat ∧ sendChunk c k = inl (ck_fail ErrChunksOverrun k).
Proof. unfold sendChunk. case_decide; [by left|right; split; [lia|done]]. Qed.

Lemma fail_inv from w k k0 e :
  cinv from w k0 → ck_err k0 = None → ck_buf k = ck_buf k0 → ck_got k = ck_got k0 → ck_err k = None →
  ck_seen k0 ≤ ck_seen k → (e = ErrChunksOverrun → (chunksBufferSize ≤ length (ck_buf k))%nat) →
  cinv from w (ck_fail e k).
Proof.
  intros [Hl Hb Hd Hp Hc Ho] He0 Eb Eg He Hs Hov. unfold ck_fail. rewrite He.
  split; cbn [ck_buf ck_pc ck_err ck_seen]; try done.
  - by rewrite Eb.
  - unfold ck_all in *. cbn [ck_got ck_buf]. rewrite Eb, Eg. eapply delivers_le; [|exact Hd]. lia.
  - intros [= Hov']. unfold ck_all. cbn [ck_got ck_buf]. rewrite length_app. specialize (Hov Hov'). lia.
Qed.

(** The rest of the system only adds to the stream. *)
Lemma cinv_env from w w' k :
  cinv from w k → live_inv id forkedFrom forkOffset isJSON maxReadBytes L w' →
  sh_tail (lv_sh w) ≤ sh_tail (lv_sh w') →
  (∀ i, own_reader k = Some i → lv_readers w' !! i = lv_readers w !! i) → cinv from w' k.
Proof.
  intros [Hl Hb Hd Hp Hc Ho] Hl' Ht Hr. split; try done.
  - eapply delivers_le; [|exact Hd]. lia.
  - revert Hp Hr. unfold phase_inv, own_reader. destruct (ck_pc k); try done; intros Hp Hr.
    + destruct Hp as (r & chs1 & chs2 & Hi & Hm & Hpc & Ha & Hd1 & Hp). exists r, chs1, chs2.
      rewrite Hr by done. destruct Hp. split_and!; try done. eapply delivers_le; [|exact Hd1]. lia.
    + destruct Hp as (r & r0 & chs1 & chs2 & Hi & Hm & Hn & Ha & Hd1 & Hp). exists r, r0, chs1, chs2.
      rewrite Hr by done. destruct Hp. split_and!; try done. eapply delivers_le; [|exact Hd1]. lia.
Qed.

Lemma catch_up_ok w k T body next more :
  offset_ok (ck_pos k) → holds_log id forkedFrom forkOffset L (sh_store (lv_sh w)) T → 0 ≤ T < 2^63 →
  catch_up id forkedFrom forkOffset isJSON maxReadBytes w k T = Ok (body, next, more) →
  next = ck_pos k ∨ offset_ok next ∧ delivers (ck_pos k) next [body] T.
Proof.
  intros [HS HB] [Hwf Hl] HT. unfold catch_up. rewrite result_bind_Ok. intros ([[b n] utd] & Hr & E).
  run_result in E. injection E as -> -> <-. destruct (decide (next = ck_pos k)) as [|Hne]; [by left|right].
  pose proof (readRange_offset_ok _ _ _ _ _ _ _ _ _ _ _ HB Hr) as HBn.
  assert (Hok : read_ok L isJSON maxReadBytes (ck_pos k) T body next utd).
  { unfold read_ok. destruct isJSON;
      [eapply readRange_json_read in Hr|eapply readRange_binary_read in Hr]; try done; lia. }
  destruct (read_ok_moves isJSON maxReadBytes L Hmax _ _ _ _ _ Hok Hne) as [? ?].
  split; [split; [lia|done]|]. by eapply delivers_read.
Qed.

(** A chunk is handed over after what was. *)
Lemma send_delivers from k c b b' :
  0 ≤ Seq from → b ≤ b' →
  delivers from (ck_last from (ck_all k)) (ch_Body <$> ck_all k) b →
  delivers (ck_last from (ck_all k)) (ch_Next c) [ch_Body c] b' →
  delivers from (ck_last from (ck_all k ++ [c])) (ch_Body <$> (ck_all k ++ [c])) b'.
Proof.
  intros Hf Hle Hd Hc. rewrite ck_last_snoc, fmap_app. eapply delivers_app; [done| |exact Hc].
  by eapply delivers_le.
Qed.

Lemma catch_inv from w k T :
  0 ≤ Seq from → cinv from w k → ck_pc k = CkCatch →
  holds_log id forkedFrom forkOffset L (sh_store (lv_sh w)) T → 0 ≤ T < 2^63 →
  catch_up id forkedFrom forkOffset isJSON maxReadBytes w k T ≠ Err ErrChunksOverrun →
  cinv from w (ck_catch T (catch_up id forkedFrom forkOffset isJSON maxReadBytes w k T) k).
Proof.
  intros Hf Hinv Hpc Hh HT Hov. pose proof Hinv as [Hl Hb Hd Hp Hc Ho].
  assert (He : ck_err k = None) by (apply (open_err from w); [done|by rewrite Hpc]).
  unfold phase_inv in Hp. rewrite Hpc in Hp. destruct Hp as [Hpos Hlast].
  pose proof (catch_up_ok w k T) as Hr.
  destruct (catch_up _ _ _ _ _ w k T) as [[[body next] more]|e]; cbn [ck_catch].
  2: { eapply fail_inv; try done. intros ->. by destruct Hov. }
  specialize (Hr _ _ _ Hpos Hh HT eq_refl).
  set (k1 := mkChunks (ck_pc k) next (ck_buf k) (ck_err k) (ck_got k) (Z.max (ck_seen k) T)).
  assert (Hgo : ∀ k2, ck_err k2 = None → (length (ck_buf k2) ≤ chunksBufferSize)%nat →
      delivers from (ck_last from (ck_all k2)) (ch_Body <$> ck_all k2) (Z.max (ck_seen k2) (sh_tail (lv_sh w))) →
      offset_ok (ck_pos k2) → ck_pos k2 = ck_last from (ck_all k2) →
      cinv from w (if (more : bool) then ck_goto CkCatch k2 else ck_goto CkTail k2)).
  { intros k2 He2 Hb2 Hd2 Ho2 Hl2. destruct more; split; try done; cbn [ck_goto ck_pc ck_err]; rewrite He2; done. }
  case_decide as Hne.
  - destruct Hr as [?|[Hnext Hr]]; [done|].
    destruct (sendChunk_cases (mkChunk body next) k1) as [[Hlt ->]|[Hge ->]].
    + apply Hgo; cbn [ck_err ck_buf ck_pos]; [done|rewrite length_app; simpl in *; lia| |done|].
      * unfold ck_all. cbn [ck_got ck_buf ck_seen k1]. rewrite app_assoc.
        eapply send_delivers; [done| |exact Hd|]; [lia|].
        rewrite <-Hlast. eapply delivers_le; [|exact Hr]. lia.
      * unfold ck_all. cbn [ck_got ck_buf k1]. by rewrite app_assoc, ck_last_snoc.
    + eapply fail_inv; try done. cbn [k1 ck_seen]. lia.
  - destruct (decide (next = ck_pos k)) as [->|]; [|done].
    apply Hgo; try done. eapply delivers_le; [|exact Hd]. cbn [k1 ck_seen]. lia.
Qed.

Lemma return_inv from w k i n r :
  0 ≤ Seq from → cinv from w k → ck_pc k = CkWait i n → lv_readers w !! i = Some r → rd_pc r = RIdle →
  cinv from w (ck_return i (last (drop n (rd_out r))) k).
Proof.
  intros Hf Hinv Hpc Hi Hidle. pose proof Hinv as [Hl Hb Hd Hp Hc Ho].
  assert (He : ck_err k = None) by (apply (open_err from w); [done|by rewrite Hpc]).
  unfold phase_inv in Hp. rewrite Hpc in Hp.
  destruct Hp as (r' & r0 & chs1 & chs2 & Hi' & Hcall & Hn & Hall & Hd1 & Hbod & Hstart).
  assert (r' = r) as -> by congruence. destruct Hcall as (Hm & Hfrom & _ & _ & Hout).
  assert (Hfail : ∀ e, e ≠ ErrChunksOverrun → cinv from w (ck_fail e k)) by (intros e He'; by eapply fail_inv).
  assert (Hlast : last (drop n (rd_out r)) = None ∨
    ∃ o, last (drop n (rd_out r)) = Some o ∧ rd_out r = rd_out r0 ++ [o] ∧
      match o with OutData _ next _ _ _ => rd_start r = next | _ => True end).
  { destruct Hout as [[-> _]|[_ (o & -> & Ho')]]; [left; by rewrite drop_ge by lia|right].
    rewrite drop_app_le, drop_ge by lia. exists o. split_and!; [done..|]. by destruct o. }
  destruct Hlast as [->|(o & -> & Hro & Hst)]; [by apply Hfail|].
  destruct o as [s0 next body utd eof|tl|tl|tl| |]; cbn [ck_return]; try by apply Hfail.
  destruct (sendChunk_cases (mkChunk body next) k) as [[Hlt ->]|[Hge ->]].
  2: { by eapply fail_inv. }
  assert (Hbod' : bodies (rd_out r) = ch_Body <$> (chs2 ++ [mkChunk body next]))
    by (rewrite Hro, bodies_app, Hbod, fmap_app; done).
  match goal with |- cinv _ _ ?k' => set (k2 := k') end.
  assert (Hall' : ck_all k2 = chs1 ++ chs2 ++ [mkChunk body next]).
  { unfold ck_all in *. cbn [k2 ck_goto ck_got ck_buf]. by rewrite !app_assoc, Hall. }
  assert (Hdr : delivers (rd_from r) (rd_start r) (bodies (rd_out r)) (sh_tail (lv_sh w))).
  { pose proof (li_readers _ _ _ _ _ _ _ Hl) as Hrs. rewrite Forall_lookup in Hrs.
    exact (ro_delivered _ _ _ _ _ (Hrs i r Hi)). }
  split; try done.
  - cbn [k2 ck_goto ck_buf]. rewrite length_app. simpl. lia.
  - change (ck_seen k2) with (ck_seen k). rewrite Hall', !app_assoc, ck_last_snoc, <-app_assoc, fmap_app.
    eapply delivers_app; [done|eapply delivers_le; [|exact Hd1]; lia|].
    rewrite <-Hbod', <-Hst. eapply delivers_le; [|exact Hdr]. lia.
  - unfold phase_inv. cbn [k2 ck_goto ck_pc]. exists r, chs1, (chs2 ++ [mkChunk body next]).
    split_and!; [done..|by rewrite Hall', !app_assoc, ck_last_snoc, Hst].
  - cbn [k2 ck_goto ck_pc ck_err]. by rewrite He.
Qed.

Lemma chunk_step_tail w w' :
  live_inv id forkedFrom forkOffset isJSON maxReadBytes L w →
  lstep id forkedFrom forkOffset isJSON maxReadBytes window L w w' →
  sh_tail (lv_sh w) ≤ sh_tail (lv_sh w').
Proof.
  intros Hi Hs. destruct w as [sh rs]. pose proof Hi as [Hsh _ Hr]. cbn [lv_sh lv_readers] in *.
  destruct Hs as [m from sh' r _ Hj|i r e sh' r' Hi' Hstep| |sh' Hstep| | | | | | | |]; cbn; try lia.
  - unfold join in Hj. destruct m; injection Hj as <- _; simpl; lia.
  - rewrite Forall_lookup in Hr.
    destruct (reader_step_ok _ _ _ _ _ _ Hmax sh r e sh' r' Hsh (Hr i r Hi') Hstep) as (_ & Hle & _).
    by apply sl_tail in Hle.
  - destruct (writer_step_ok _ _ _ _ _ _ _ Hsh Hstep) as (_ & _ & [Hle|(_ & -> & _)]); [|done].
    by apply sl_tail in Hle.
Qed.

Lemma own_step from w k i r r' sh' :
  cinv from w k → lv_readers w !! i = Some r →
  lstep id forkedFrom forkOffset isJSON maxReadBytes window L w (mkLive sh' (<[i:=r']> (lv_readers w))) →
  (∀ pc, ck_pc k ≠ CkClosed → pc ≠ CkClosed →
    phase_inv from (mkLive sh' (<[i:=r']> (lv_readers w))) (ck_goto pc k) →
    cinv from (mkLive sh' (<[i:=r']> (lv_readers w))) (ck_goto pc k)).
Proof.
  intros Hinv Hi Hs pc Hne Hpc Hp. pose proof (open_err _ _ _ Hinv Hne) as He.
  pose proof (chunk_step_tail _ _ (ci_live _ _ _ Hinv) Hs) as Ht. destruct Hinv as [Hl Hb Hd _ Hc Ho].
  pose proof (live_step_inv _ _ _ _ _ _ _ Hmax _ _ Hl Hs) as Hl'. split; try done.
  eapply delivers_le; [|exact Hd]. cbn [ck_goto ck_seen lv_sh] in *. lia.
Qed.

Lemma recv_inv from w k k' : cinv from w k → ck_recv k = Some k' → cinv from w k'.
Proof.
  unfold ck_recv. destruct (ck_buf k) as [|c buf] eqn:Eb; [done|]. intros Hinv [= <-].
  assert (Ha : ck_all (mkChunks (ck_pc k) (ck_pos k) buf (ck_err k) (ck_got k ++ [c]) (ck_seen k)) = ck_all k)
    by (unfold ck_all; cbn [ck_got ck_buf]; rewrite Eb, <-app_assoc; done).
  destruct Hinv as [Hl Hb Hd Hp Hc Ho]. rewrite Eb in Hb. cbn [length] in Hb.
  split; rewrite ?Ha; try done; [cbn [ck_buf]; lia|]. revert Hp. unfold phase_inv. rewrite Ha. done.
Qed.

Lemma cstep_inv from p p' :
  0 ≤ Seq from → cinv from p.1 p.2 →
  cstep id forkedFrom forkOffset isJSON maxReadBytes window L p p' → cinv from p'.1 p'.2.
Proof.
  intros Hf Hinv Hs. destruct Hs as [w w' k Hs Hr|w k Hpc|w k e Hpc He|w k T Hpc Hh HT Hov|w k sh' r Hpc Hj
    |w k i r sh' r' Hpc Hi Hstep|w k i n r e sh' r' Hpc Hi Hne Hstep|w k i n r Hpc Hi Hidle|w k k' Hk];
    cbn [fst snd] in *.
  - eapply cinv_env; [exact Hinv| |by eapply chunk_step_tail, Hs; apply Hinv|exact Hr].
    eapply live_step_inv; [done|apply Hinv|exact Hs].
  - pose proof (open_err _ _ _ Hinv ltac:(by rewrite Hpc)) as Herr. destruct Hinv as [Hl Hb Hd Hp Hc Ho].
    unfold phase_inv in Hp. rewrite Hpc in Hp. by split.
  - pose proof (open_err _ _ _ Hinv ltac:(by destruct Hpc as [->|[->| ->]])) as Herr. by eapply fail_inv.
  - by apply catch_inv.
  - assert (Hs : lstep id forkedFrom forkOffset isJSON maxReadBytes window L w (mkLive sh' (lv_readers w ++ [r]))).
    { eapply ls_join; [|exact Hj]. intros o [= <-]. pose proof (ci_phase _ _ _ Hinv) as Hp.
      unfold phase_inv in Hp. rewrite Hpc in Hp. apply Hp. }
    pose proof (open_err _ _ _ Hinv ltac:(by rewrite Hpc)) as Herr.
    pose proof (chunk_step_tail _ _ (ci_live _ _ _ Hinv) Hs) as Ht. destruct Hinv as [Hl Hb Hd Hp Hc Ho].
    pose proof (live_step_inv _ _ _ _ _ _ _ Hmax _ _ Hl Hs) as Hl'.
    unfold phase_inv in Hp. rewrite Hpc in Hp. destruct Hp as [Hpos Hlast]. unfold join in Hj. injection Hj as <- <-.
    split; try done. unfold phase_inv. cbn [ck_goto ck_pc lv_readers].
    exists (mkReader Cursor (ck_pos k) true RIdle (ck_pos k) []), (ck_all k), [].
    rewrite lookup_app_r, Nat.sub_diag by done. change (ck_all (ck_goto ?pc k)) with (ck_all k).
    cbn [rd_from rd_start rd_out rd_mode rd_pc]. rewrite app_nil_r, Hlast. by split_and!.
  - assert (Hs : lstep id forkedFrom forkOffset isJSON maxReadBytes window L w (mkLive sh' (<[i:=r']> (lv_readers w))))
      by (by eapply ls_reader).
    apply (own_step from w k i r r' sh' Hinv Hi Hs); [by rewrite Hpc|done|].
    pose proof (ci_phase _ _ _ Hinv) as Hp. unfold phase_inv in Hp. rewrite Hpc in Hp.
    destruct Hp as (r1 & chs1 & chs2 & Hi1 & Hm & Hidle & Hall & Hd1 & Hbod & Hst).
    assert (r1 = r) as -> by congruence. unfold phase_inv. cbn [ck_goto ck_pc].
    exists r', r, chs1, chs2. cbn [lv_readers]. rewrite list_lookup_insert_eq by (by eapply lookup_lt_Some).
    pose proof (cursor_step _ _ _ _ _ Hm ltac:(by rewrite Hidle) Hstep) as Hcall.
    split_and!; try apply Hcall; try done. destruct Hcall as (_ & -> & _). eapply delivers_le; [|exact Hd1].
    apply chunk_step_tail in Hs; [|apply Hinv]. cbn [ck_goto ck_seen lv_sh] in *. lia.
  - assert (Hs : lstep id forkedFrom forkOffset isJSON maxReadBytes window L w (mkLive sh' (<[i:=r']> (lv_readers w))))
      by (by eapply ls_reader).
    assert (k = ck_goto (CkWait i n) k) as Ek by (destruct k; simpl in *; by rewrite <-Hpc). rewrite Ek.
    apply (own_step from w k i r r' sh' Hinv Hi Hs); [by rewrite Hpc|done|]. rewrite <-Ek.
    pose proof (ci_phase _ _ _ Hinv) as Hp. unfold phase_inv in Hp |- *. rewrite Hpc in Hp |- *.
    destruct Hp as (r1 & r0 & chs1 & chs2 & Hi1 & Hcall & Hn & Hall & Hd1 & Hbod & Hst).
    assert (r1 = r) as -> by congruence. destruct Hcall as (Hm & Hfrom & Hend & Hnow & Hout).
    destruct (cursor_step _ _ _ _ _ Hm Hnow Hstep) as (Hm' & Hfrom' & Hend' & Hnow' & Hout').
    destruct Hout as [[Ho1 Hs1]|[? _]]; [|done].
    exists r', r0, chs1, chs2. cbn [lv_readers]. rewrite list_lookup_insert_eq by (by eapply lookup_lt_Some).
    rewrite Ho1, Hs1 in Hout'. rewrite Hfrom in Hfrom'.
    split_and!; try done. rewrite Hfrom', <-Hfrom. eapply delivers_le; [|exact Hd1].
    apply chunk_step_tail in Hs; [|apply Hinv]. cbn [lv_sh] in *. lia.
  - by eapply return_inv.
  - by eapply recv_inv.
Qed.

(** ** Properties *)

(** C30: what [Chunks] hands over is the stream, and its end can be resumed from.
    The chunks received and still in the buffer are, in order, without gap or
    repetition, the content from where it began to the last chunk's offset, through
    the change from catch-up reads to the live cursor and whatever else happens in
    between; so beginning again at that offset loses nothing, whichever error ended it. The buffer never
    holds more than 64 chunks, there is an error exactly when the channel is closed,
    and an overrun is only reported to a consumer that 64 chunks were handed to. *)
Theorem chunks_resume from (w : live S) k :
  0 ≤ Seq from → 0 ≤ Byte from →
  chunks_reachable id forkedFrom forkOffset isJSON maxReadBytes window L from w k →
  let chs := ck_all k in
  let pos := ck_last from chs in
  (isJSON = true → Seq from ≤ Seq pos ∧
     ∃ pss, ch_Body <$> chs = wrapJSONArray <$> pss ∧ concat pss = payloads L (Seq from) (Seq pos)) ∧
  (isJSON = false → ∀ T, ck_seen k ≤ T → sh_tail (lv_sh w) ≤ T →
     concat (ch_Body <$> chs) ++ content_from L pos T = content_from L from T) ∧
  (length (ck_buf k) ≤ chunksBufferSize)%nat ∧
  (ck_pc k = CkClosed ↔ ck_err k ≠ None) ∧
  (ck_err k = Some ErrChunksOverrun → (chunksBufferSize ≤ length chs)%nat).
Proof.
  intros HS HB (w0 & Hinit & Hsteps).
  assert (H0' : cinv from (w0, Chunks from).1 (w0, Chunks from).2).
  { split; cbn; try done; [by eapply live_start_inv|lia|apply delivers_nil]. }
  assert (Hinv : cinv from (w, k).1 (w, k).2).
  { revert H0'. induction Hsteps as [|p0 p1 p2 Hs _ IH]; [done|]. intros H0'. apply IH. by eapply cstep_inv. }
  destruct Hinv as [_ Hb Hd _ Hc Ho]. cbn [fst snd] in *. unfold delivers in Hd. cbv zeta. split_and!; try done.
  - intros Hj. by rewrite Hj in Hd.
  - intros Hj. rewrite Hj in Hd. intros T ? ?. apply Hd. lia.
Qed.

End delivered.

(** ** Witness *)

(** The fork of Read.v's sample, read from its beginning: the inherited record by a
    catch-up read, its own by the live cursor, published while it waits. *)
Module ChunksSample.
Inductive action : Type := ARead | ACatch (T : Z) | ATail | ACall | ARun | AReturn | ARecv | AWriter | AAnnounce.

Abbreviation state := (live fakeStore * chunks)%type.
Abbreviation sstep := (cstep 2 1 1 false 10 0 Sample.log).

Definition idle (r : reader) : bool := match rd_pc r with RIdle => true | _ => false end.

Definition act (p : state) (a : action) : option state :=
  let '(w, k) := p in
  match a, ck_pc k with
  | ARead, CkRead => Some (w, ck_goto CkCatch k)
  | ACatch T, CkCatch =>
      let r := catch_up 2 1 1 false 10 w k T in
      if decide (0 ≤ T ≤ 2 ∧ r ≠ Err ErrChunksOverrun) then Some (w, ck_catch T r k) else None
  | ATail, CkTail =>
      let '(sh, r) := join (lv_sh w) Cursor (Some (ck_pos k)) in
      Some (mkLive sh (lv_readers w ++ [r]), ck_goto (CkLive (length (lv_readers w))) k)
  | ACall, CkLive i =>
      r ← lv_readers w !! i;
      '(sh, r') ← reader_step 2 1 1 false 10 (lv_sh w) r EvNext;
      Some (mkLive sh (<[i:=r']> (lv_readers w)), ck_goto (CkWait i (length (rd_out r))) k)
  | ARun, CkWait i n =>
      r ← lv_readers w !! i;
      if idle r then None else
      '(sh, r') ← reader_step 2 1 1 false 10 (lv_sh w) r EvStep;
      Some (mkLive sh (<[i:=r']> (lv_readers w)), k)
  | AReturn, CkWait i n =>
      r ← lv_readers w !! i;
      if idle r then Some (w, ck_return i (last (drop n (rd_out r))) k) else None
  | ARecv, _ => k' ← ck_recv k; Some (w, k')
  | AWriter, _ => sh ← writer_step 0 (lv_sh w); Some (mkLive sh (lv_readers w), k)
  | AAnnounce, _ => if LiveRun.ready w then Some (LiveRun.announce false w, k) else None
  | _, _ => None
  end.

Lemma idle_spec r : if idle r then rd_pc r = RIdle else rd_pc r ≠ RIdle.
Proof. unfold idle. by destruct (rd_pc r). Qed.

(** Nothing here touches the store. *)
Lemma act_step p a p' :
  sh_store (lv_sh p.1) = Sample.store → act p a = Some p' → sstep p p' ∧ sh_store (lv_sh p'.1) = Sample.store.
Proof.
  destruct p as [w k]. cbn [fst]. intros Hst. unfold act.
  assert (Hreader : ∀ i r e sh r', lv_readers w !! i = Some r →
    reader_step 2 1 1 false 10 (lv_sh w) r e = Some (sh, r') → sh_store sh = Sample.store)
    by (intros i r e sh r' _ E; by rewrite (LiveRun.reader_step_store _ _ _ _ _ E)).
  destruct a; [destruct (ck_pc k) eqn:Hpc; try done..| | |].
  - intros [= <-]. split; [by apply cs_read|done].
  - case_decide as Hd; [|done]. intros [= <-]. destruct Hd as [HT Hov]. split; [|done].
    apply cs_catch; [done|rewrite Hst; by apply LiveRun.holds|lia|done].
  - unfold join. intros [= <-]. split; [|done]. by eapply cs_tail.
  - destruct (lv_readers w !! i) as [r|] eqn:Hi; [|done]. cbn [mbind option_bind].
    destruct (reader_step _ _ _ _ _ _ r EvNext) as [[sh r']|] eqn:E; [|done]. intros [= <-].
    split; [by eapply cs_call|by eapply Hreader].
  - destruct (lv_readers w !! i) as [r|] eqn:Hi; [|done]. cbn [mbind option_bind].
    pose proof (idle_spec r) as Hidle. destruct (idle r); [done|].
    destruct (reader_step _ _ _ _ _ _ r EvStep) as [[sh r']|] eqn:E; [|done]. intros [= <-].
    split; [by eapply cs_run|by eapply Hreader].
  - destruct (lv_readers w !! i) as [r|] eqn:Hi; [|done]. cbn [mbind option_bind].
    pose proof (idle_spec r) as Hidle. destruct (idle r); [|done]. intros [= <-].
    split; [by eapply cs_return|done].
  - destruct (ck_recv k) as [k'|] eqn:E; [|done]. intros [= <-]. split; [by apply cs_recv|done].
  - destruct (writer_step 0 (lv_sh w)) as [sh|] eqn:E; [|done]. intros [= <-]. split.
    + apply cs_env; [by apply ls_writer|done].
    + cbn. rewrite <-Hst. apply (LiveRun.exec1_store w (mkLive sh (lv_readers w)) LiveRun.Writer).
      cbn [LiveRun.exec1]. by rewrite E.
  - destruct (LiveRun.ready w) eqn:Er; [|done]. intros [= <-]. split; [|done].
    apply andb_true_iff in Er as [[Ht Hd]%andb_true_iff Hw]. apply bool_decide_eq_true in Ht.
    apply cs_env; [|done]. apply LiveRun.announce_step;
      [by destruct (sh_writer _)|by destruct (sh_dead _)|done|exact Hst].
Qed.

Definition replay (actions : list action) (p : state) : option state :=
  foldl (λ p a, p ← p; act p a) (Some p) actions.

Lemma replay_steps actions p p' :
  sh_store (lv_sh p.1) = Sample.store → replay actions p = Some p' →
  rtc sstep p p' ∧ sh_store (lv_sh p'.1) = Sample.store.
Proof.
  intros Hst. revert p'. induction actions as [|a actions IH] using rev_ind; intros p'.
  { intros [= <-]. by split. }
  unfold replay. rewrite foldl_app. cbn [foldl]. fold (replay actions p).
  destruct (replay actions p) as [p1|]; [|done]. cbn [mbind option_bind]. intros Ha.
  destruct (IH p1 eq_refl) as [Hr Hst1]. apply act_step in Ha as [Hs Hst']; [|done].
  split; [by eapply rtc_r|done].
Qed.

Definition actions : list action :=
  [ARead; ACatch 1; ATail; ARecv; ACall] ++ replicate 5 ARun ++ [AAnnounce] ++ replicate 6 AWriter ++
  replicate 6 ARun ++ [AReturn].

Definition shown (p : state) : list Chunk * list Chunk * Z * Z :=
  (ck_got p.2, ck_buf p.2, ck_seen p.2, sh_tail (lv_sh p.1)).

Lemma actions_show :
  shown <$> replay actions (LiveRun.start, Chunks offset0)
  = Some ([mkChunk ["x"%byte; "y"%byte] {| Seq := 1; Byte := 0 |}],
          [mkChunk ["w"%byte] {| Seq := 2; Byte := 0 |}], 1, 2).
Proof. vm_compute. reflexivity. Qed.
End ChunksSample.

Lemma chunks_resume_witness :
  ∃ (w : live fakeStore) k, chunks_reachable 2 1 1 false 10 0 Sample.log offset0 w k ∧
    concat (ch_Body <$> ck_all k) ++ content_from Sample.log (ck_last offset0 (ck_all k)) 2
    = content_from Sample.log offset0 2 ∧ ck_last offset0 (ck_all k) = {| Seq := 2; Byte := 0 |}.
Proof.
  pose proof ChunksSample.actions_show as Hs.
  destruct (ChunksSample.replay _ _) as [[w k]|] eqn:E; [|discriminate Hs].
  apply ChunksSample.replay_steps in E as [Hr _]; [|reflexivity].
  assert (Hw : chunks_reachable 2 1 1 false 10 0 Sample.log offset0 w k)
    by (exists LiveRun.start; split; [exact LiveRun.start_init|exact Hr]).
  destruct (chunks_resume 2 1 1 false 10 0 Sample.log eq_refl offset0 w k) as (_ & Hd & _);
    [vm_compute; discriminate|vm_compute; discriminate|exact Hw|].
  cbn [fmap option_fmap option_map ChunksSample.shown fst snd] in Hs. injection Hs as Hgot Hbuf Hseen Htail.
  exists w, k. split; [exact Hw|]. split.
  - apply (Hd eq_refl 2); [rewrite Hseen; lia|rewrite Htail; lia].
  - unfold ck_all. rewrite Hgot, Hbuf. reflexivity.
Defined.
