(* ===== verification/Slate.v ===== *)
(** * The SlateDB backend (internal/ds/storage.go)

    [slateStore] implements the storage interface on the SlateDB binding. The
    binding is a parameter: a record of its operations and a record of what its
    documentation promises. [slateIter] hides its batched scans behind [Next].
    The theorem is that the backend keeps the laws everything else is proved from,
    so it is an instance of [StorageLaws]. *)

From Stdlib Require Strings.String.
From S2P Require Import Prelude.
From S2P Require Import Bytes.
From S2P Require Import Decimal.
From S2P Require Import Storage.

(** ** String constants *)

Module SlateLiterals.
Import String.
Open Scope string_scope.
Definition kFlush : bytes := list_byte_of_string "flush_interval".
Definition kJobs : bytes := list_byte_of_string "compactor_options.max_concurrent_compactions".
Definition kSubs : bytes := list_byte_of_string "compactor_options.worker.max_subcompactions".
Definition kL0 : bytes := list_byte_of_string "l0_flush_parallelism".
Definition kBoundary : bytes := list_byte_of_string "garbage_collector_options.boundary_files_enabled".
Definition vFalse : bytes := list_byte_of_string "false".
Definition vMs : bytes := list_byte_of_string "ms".
Definition fileScheme : bytes := list_byte_of_string "file://".
Definition fileRoot : bytes := list_byte_of_string "file:///".
Definition lvOff : bytes := list_byte_of_string "off".
Definition lvError : bytes := list_byte_of_string "error".
Definition lvWarn : bytes := list_byte_of_string "warn".
Definition lvInfo : bytes := list_byte_of_string "info".
Definition lvDebug : bytes := list_byte_of_string "debug".
Definition lvTrace : bytes := list_byte_of_string "trace".
End SlateLiterals.
Export SlateLiterals.

(** ** The binding *)

Record slatedb : Type := mkSlateDB {
  Db : Type; WriteBatch : Type; DbIterator : Type;
  NewWriteBatch : WriteBatch;
  batch_Put : WriteBatch → bytes → bytes → result WriteBatch;
  batch_Delete : WriteBatch → bytes → result WriteBatch;
  WriteWithOptions : Db → WriteBatch → bool → Db * result Z;    (** the batch's sequence number *)
  GetWithOptions : Db → bytes → result (option bytes);
  Status : Db → Z * bool;                                       (** durable up to; closed *)
  ScanWithOptions : Db → option bytes → option bytes → result DbIterator;
  NextBatch : DbIterator → nat → DbIterator * result (list kv) }.

(** ** Scans *)

Definition scanBatchSize : nat := 64.

Section slate.
  Context (b : slatedb).

(** [it] is nil once closed. *)
Record slateIter : Type := mkSlateIter {
  si_it : option (DbIterator b);
  si_buf : list kv;
  si_idx : nat;
  si_exhausted : bool }.

(** Whether the next [Next] asks the engine for a batch. *)
Definition si_fetches (si : slateIter) : bool :=
  bool_decide (length (si_buf si) ≤ si_idx si)%nat && negb (si_exhausted si).

Definition si_take (si : slateIter) : slateIter * result (option kv) :=
  match si_buf si !! si_idx si with
  | Some p => ({| si_it := si_it si; si_buf := si_buf si; si_idx := Datatypes.S (si_idx si);
                  si_exhausted := si_exhausted si |}, Ok (Some p))
  | None => (si, Err panicIndex)
  end.

Definition slateIter_Next (si : slateIter) : slateIter * result (option kv) :=
  if decide (length (si_buf si) ≤ si_idx si)%nat then
    if si_exhausted si then (si, Ok None) else
    match si_it si with
    | None => (si, Err panicNil)
    | Some it =>
        let '(it, r) := NextBatch b it scanBatchSize in
        match r with
        | Err e => ({| si_it := Some it; si_buf := []; si_idx := si_idx si; si_exhausted := false |}, Err e)
        | Ok buf =>
            let si := {| si_it := Some it; si_buf := buf; si_idx := 0;
                         si_exhausted := bool_decide (length buf < scanBatchSize)%nat |} in
            if decide (length buf = 0)%nat then (si, Ok None) else si_take si
        end
    end
  else si_take si.

Definition slateIter_Close (si : slateIter) : slateIter :=
  {| si_it := None; si_buf := si_buf si; si_idx := si_idx si; si_exhausted := si_exhausted si |}.

(** A caller's loop over an iterator: the entries, how it ended, and the number of
    calls of [NextBatch]. *)
Fixpoint slate_drain (fuel : nat) (si : slateIter) : list kv * option error * nat :=
  match fuel with
  | O => ([], Some outOfFuel, 0%nat)
  | Datatypes.S n =>
      let f := Nat.b2n (si_fetches si) in
      match slateIter_Next si with
      | (_, Err e) => ([], Some e, f)
      | (_, Ok None) => ([], None, f)
      | (si, Ok (Some p)) => let '(ps, e, k) := slate_drain n si in (p :: ps, e, (f + k)%nat)
      end
  end.

(** ** The operations *)

Definition slate_Get (d : Db b) (key : bytes) : result (option bytes) := GetWithOptions b d key.

(** The batch of [Commit] and [CommitAsync]. *)
Fixpoint slate_batch (wb : WriteBatch b) (ops : list Op) : result (WriteBatch b) :=
  match ops with
  | [] => Ok wb
  | op :: ops =>
      wb ← (if op_del op then batch_Delete b wb (op_key op) else batch_Put b wb (op_key op) (op_val op));
      slate_batch wb ops
  end.

Definition slate_Commit (d : Db b) (ops : list Op) (awaitDurable : bool) : Db b * option error :=
  match slate_batch (NewWriteBatch b) ops with
  | Err e => (d, Some e)
  | Ok wb =>
      let '(d, r) := WriteWithOptions b d wb awaitDurable in
      (d, match r with Ok _ => None | Err e => Some e end)
  end.

Definition slate_CommitAsync (d : Db b) (ops : list Op) : Db b * result Z :=
  match slate_batch (NewWriteBatch b) ops with
  | Err e => (d, Err e)
  | Ok wb => WriteWithOptions b d wb false
  end.

Definition slate_DurableSeq (d : Db b) : result Z :=
  let '(seq, closed) := Status b d in if (closed : bool) then Err errStoreClosed else Ok seq.

Definition slate_Scan (d : Db b) (start end_ : option bytes) : result slateIter :=
  it ← ScanWithOptions b d start end_;
  mret {| si_it := Some it; si_buf := []; si_idx := 0; si_exhausted := false |}.

End slate.

(** ** Opening *)

(** What is asked of SlateDB's settings; a zero is its default. *)
Record StoreTuning : Type := mkTuning {
  FlushInterval : Z;                    (** nanoseconds *)
  CompactorMaxConcurrentJobs : Z;
  CompactorMaxSubcompactions : Z;
  L0FlushParallelism : Z }.

(** The settings [OpenStore] sets, in order. *)
Definition store_settings (storeURL : bytes) (t : StoreTuning) : list (bytes * bytes) :=
  (if decide (0 < FlushInterval t)
   then [(kFlush, x22 :: FormatUint (FlushInterval t / 1000000) ++ vMs ++ [x22])] else []) ++
  (if decide (0 < CompactorMaxConcurrentJobs t) then [(kJobs, FormatUint (CompactorMaxConcurrentJobs t))] else []) ++
  (if decide (0 < CompactorMaxSubcompactions t) then [(kSubs, FormatUint (CompactorMaxSubcompactions t))] else []) ++
  (if decide (0 < L0FlushParallelism t) then [(kL0, FormatUint (L0FlushParallelism t))] else []) ++
  (if decide (fileScheme `prefix_of` storeURL) then [(kBoundary, vFalse)] else []).

(** [ResolveStore]: the file system is a parameter. *)
Definition ResolveStore (Abs : bytes → result bytes) (MkdirAll : bytes → option error)
    (storeURL dataDir dbPath : bytes) : result (bytes * bytes) :=
  if decide (storeURL ≠ []) then Ok (storeURL, dbPath) else
  abs ← Abs dataDir;
  match MkdirAll abs with
  | Some e => Err e
  | None =>
      let trimmed := match abs with x2f :: rest => rest | _ => abs end in
      mret (fileRoot, trimmed ++ [x2f] ++ dbPath)
  end.

Inductive LogLevel : Type := LevelOff | LevelError | LevelWarn | LevelInfo | LevelDebug | LevelTrace.

Definition slateDBLogLevels : list (bytes * LogLevel) :=
  [(lvOff, LevelOff); (lvError, LevelError);
   (lvWarn, LevelWarn); (lvInfo, LevelInfo);
   (lvDebug, LevelDebug); (lvTrace, LevelTrace)].

(** What [InitSlateDBLogging] hands to the binding; [None] is an error. *)
Definition log_level (name : bytes) : option LogLevel :=
  snd <$> find (λ p : bytes * LogLevel, bool_decide (p.1 = name)) slateDBLogLevels.

(** ** What the binding promises *)

(** The rows of a scan whose start may be absent. *)
Definition scan_rows (m : gmap bytes bytes) (start end_ : option bytes) : list kv :=
  range_items m (default [] start) end_.

Record slatedb_laws (b : slatedb) : Type := {
  db_view : Db b → gmap bytes bytes;
  db_healthy : Db b → Prop;
  wb_ops : WriteBatch b → list Op;
  it_rows : DbIterator b → list kv;
  it_healthy : DbIterator b → Prop;
  new_ops : wb_ops (NewWriteBatch b) = [];
  put_ops wb k v wb' : batch_Put b wb k v = Ok wb' → wb_ops wb' = wb_ops wb ++ [PutOp k v];
  del_ops wb k wb' : batch_Delete b wb k = Ok wb' → wb_ops wb' = wb_ops wb ++ [DelOp k];
  put_works wb k v : ∃ wb', batch_Put b wb k v = Ok wb';
  del_works wb k : ∃ wb', batch_Delete b wb k = Ok wb';
  get_view d k r : GetWithOptions b d k = Ok r → r = db_view d !! k;
  get_works d k : db_healthy d → ∃ r, GetWithOptions b d k = Ok r;
  write_ok d wb await d' q :
    WriteWithOptions b d wb await = (d', Ok q) → db_view d' = apply_ops (db_view d) (wb_ops wb);
  write_atomic d wb await d' e :
    WriteWithOptions b d wb await = (d', Err e) →
    db_view d' = db_view d ∨ db_view d' = apply_ops (db_view d) (wb_ops wb);
  write_works d wb await :
    db_healthy d → ∃ d' q, WriteWithOptions b d wb await = (d', Ok q) ∧ db_healthy d';
  scan_rows_ok d lo hi it :
    ScanWithOptions b d lo hi = Ok it → it_rows it = scan_rows (db_view d) lo hi;
  scan_works d lo hi :
    db_healthy d → ∃ it, ScanWithOptions b d lo hi = Ok it ∧ it_healthy it;
  (** A batch is as long as asked, unless the iterator ends with it. *)
  next_rows it n it' rows :
    (0 < n)%nat → NextBatch b it n = (it', Ok rows) →
    rows = take n (it_rows it) ∧ it_rows it' = drop n (it_rows it);
  next_works it n :
    it_healthy it → ∃ it' rows, NextBatch b it n = (it', Ok rows) ∧ it_healthy it' }.
Arguments db_view {b}. Arguments db_healthy {b}. Arguments wb_ops {b}. Arguments it_rows {b}. Arguments it_healthy {b}.

(** ** Lemmas: scans *)

Section refinement.
  Context (b : slatedb) (l : slatedb_laws b).
  Implicit Types (si : slateIter b).

(** What [Next] will still deliver. *)
Definition pending si : list kv :=
  drop (si_idx b si) (si_buf b si) ++ from_option (it_rows l) [] (si_it b si).

Definition si_inv si : Prop :=
  is_Some (si_it b si) ∧ (si_exhausted b si = true → from_option (it_rows l) [] (si_it b si) = []).

Lemma si_take_sim si :
  si_inv si → (si_idx b si < length (si_buf b si))%nat →
  ∃ p si', si_take b si = (si', Ok (Some p)) ∧ pending si = p :: pending si' ∧ si_inv si' ∧
    si_exhausted b si' = si_exhausted b si ∧ si_it b si' = si_it b si.
Proof.
  intros Hinv Hlt. unfold si_take. destruct (lookup_lt_is_Some_2 _ _ Hlt) as [p Hp]. rewrite Hp.
  eexists _, _. split_and!; [done| |done|done|done]. unfold pending. simpl. by rewrite (drop_S _ _ _ Hp).
Qed.

(** One [Next] is one step of the abstract iterator. *)
Lemma slateIter_Next_sim si si' r :
  si_inv si → slateIter_Next b si = (si', r) →
  match r with
  | Ok (Some p) => pending si = p :: pending si' ∧ si_inv si'
  | Ok None => pending si = []
  | Err e => True
  end.
Proof.
  intros Hinv. unfold slateIter_Next. case_decide as Hle.
  - assert (Hdrop : drop (si_idx b si) (si_buf b si) = []) by (by apply drop_ge).
    destruct (si_exhausted b si) eqn:Hex.
    { intros [= <- <-]. unfold pending. rewrite Hdrop. by apply Hinv. }
    destruct Hinv as [[it Hit] _]. rewrite Hit. destruct (NextBatch b it scanBatchSize) as [it' [rows|e]] eqn:E;
      [|by intros [= <- <-]].
    destruct (next_rows _ l _ scanBatchSize _ _ ltac:(unfold scanBatchSize; lia) E) as [Hrows Hrest].
    assert (Hp : pending si = rows ++ it_rows l it').
    { unfold pending. rewrite Hdrop, Hit. simpl. by rewrite Hrows, Hrest, take_drop. }
    assert (Hshort : (length rows < scanBatchSize)%nat → it_rows l it' = []).
    { intros Hs. rewrite Hrows, length_take in Hs. rewrite Hrest. apply drop_ge. lia. }
    set (s1 := {| si_it := Some it'; si_buf := rows; si_idx := 0; si_exhausted := _ |}).
    assert (Hinv1 : si_inv s1).
    { split; [by eexists|]. intros Hx%bool_decide_eq_true. by apply Hshort. }
    case_decide as Hz.
    + intros [= <- <-]. apply length_zero_iff_nil in Hz as ->. rewrite Hp. simpl. apply Hshort.
      unfold scanBatchSize. simpl. lia.
    + destruct (si_take_sim s1) as (p & s2 & -> & Hp1 & Hinv2 & _); [done|simpl; lia|].
      intros [= <- <-]. rewrite Hp. split; [exact Hp1|done].
  - destruct (si_take_sim si) as (p & s2 & -> & Hp1 & Hinv2 & _); [done|lia|].
    by intros [= <- <-].
Qed.

Lemma slate_drain_prefix fuel si ps e k :
  si_inv si → (length (pending si) < fuel)%nat → slate_drain b fuel si = (ps, e, k) →
  ps `prefix_of` pending si ∧ (e = None → ps = pending si).
Proof.
  revert si ps e k. induction fuel as [|fuel IH]; intros si ps e k Hinv Hlen; [lia|]. cbn [slate_drain].
  destruct (slateIter_Next b si) as [si' [[p|]|err]] eqn:E; apply slateIter_Next_sim in E; try done.
  - destruct E as [Hp Hinv']. rewrite Hp in Hlen |- *. cbn [length] in Hlen.
    destruct (slate_drain b fuel si') as [[ps' e'] k'] eqn:Ed. intros [= <- <- <-].
    destruct (IH si' ps' e' k' Hinv' ltac:(lia) Ed) as [Hpre Heq]. split; [by apply prefix_cons|].
    intros ->. by rewrite Heq.
  - intros [= <- <- <-]. by rewrite E.
  - intros [= <- <- <-]. split; [apply prefix_nil|done].
Qed.

(** The engine is asked for one batch per 64 rows, and once more for the last,
    short one. *)
Lemma slate_drain_fetches fuel si ps k :
  si_inv si → slate_drain b fuel si = (ps, None, k) →
  k = if si_exhausted b si then 0%nat
      else Datatypes.S (length (from_option (it_rows l) [] (si_it b si)) / scanBatchSize).
Proof.
  revert si ps k. induction fuel as [|fuel IH]; intros si ps k Hinv; [done|]. cbn [slate_drain].
  unfold si_fetches, slateIter_Next. case_bool_decide as Hle.
  - rewrite decide_True by done. destruct (si_exhausted b si) eqn:Hex; [by intros [= _ <-]|].
    destruct Hinv as [[it Hit] _]. rewrite Hit. cbn [from_option andb negb Nat.b2n].
    destruct (NextBatch b it scanBatchSize) as [it' [rows|e]] eqn:E; [|done].
    destruct (next_rows _ l _ scanBatchSize _ _ ltac:(unfold scanBatchSize; lia) E) as [Hrows Hrest].
    set (s1 := {| si_it := Some it'; si_buf := rows; si_idx := 0; si_exhausted := _ |}).
    assert (Hn : length rows = (scanBatchSize `min` length (it_rows l it))%nat) by (by rewrite Hrows, length_take).
    case_decide as Hz.
    + intros [= _ <-]. rewrite Nat.div_small; [done|]. unfold scanBatchSize in *. lia.
    + assert (Hinv1 : si_inv s1).
      { split; [by eexists|]. intros Hx%bool_decide_eq_true. simpl. rewrite Hrest. apply drop_ge. lia. }
      destruct (si_take_sim s1) as (p & s2 & -> & _ & Hinv2 & Hx2 & Hit2); [done|simpl; lia|].
      destruct (slate_drain b fuel s2) as [[ps' e'] k'] eqn:Ed. intros [= _ -> <-].
      rewrite (IH s2 ps' k' Hinv2 Ed), Hx2, Hit2. cbn [s1 si_exhausted si_it from_option].
      rewrite Hrest, length_drop. unfold scanBatchSize in *. case_bool_decide as Hs.
      * rewrite Nat.div_small by lia. done.
      * assert (length (it_rows l it) = length (it_rows l it) - 64 + 1 * 64)%nat as -> by lia.
        rewrite Nat.div_add by lia. replace (length (it_rows l it) - 64 + 1 * 64 - 64)%nat
          with (length (it_rows l it) - 64)%nat by lia. lia.
  - rewrite decide_False by done. destruct (si_take_sim si) as (p & s2 & -> & _ & Hinv2 & Hx2 & Hit2); [done|lia|].
    destruct (slate_drain b fuel s2) as [[ps' e'] k'] eqn:Ed. intros [= _ -> <-].
    rewrite (IH s2 ps' k' Hinv2 Ed), Hx2, Hit2. done.
Qed.

(** *** A healthy engine's iterators do not fail *)

Definition si_healthy si : Prop := match si_it b si with Some it => it_healthy l it | None => False end.

Lemma slate_drain_healthy fuel si :
  si_inv si → si_healthy si → (length (pending si) < fuel)%nat →
  ∃ ps k, slate_drain b fuel si = (ps, None, k).
Proof.
  revert si. induction fuel as [|fuel IH]; intros si Hinv Hh Hlen; [lia|]. cbn [slate_drain].
  assert (Hnext : ∃ si' r, slateIter_Next b si = (si', Ok r) ∧ si_healthy si').
  { unfold slateIter_Next. unfold si_healthy in Hh. destruct (si_it b si) as [it|] eqn:Hit; [|done].
    case_decide as Hle; [destruct (si_exhausted b si)|].
    - exists si, None. split; [done|]. unfold si_healthy. by rewrite Hit.
    - destruct (next_works _ l it scanBatchSize Hh) as (it' & rows & -> & Hh'). case_decide as Hz; [by eexists _, _|].
      unfold si_take. cbn [si_buf si_idx]. destruct rows as [|p rows]; [done|]. cbn [lookup list_lookup]. by eexists _, _.
    - destruct (lookup_lt_is_Some_2 (si_buf b si) (si_idx b si)) as [p Hp]; [lia|]. unfold si_take. rewrite Hp.
      eexists _, _. split; [done|]. unfold si_healthy. cbn [si_it]. by rewrite Hit. }
  destruct Hnext as (si' & r & E & Hh'). rewrite E. apply slateIter_Next_sim in E; [|done].
  destruct r as [p|]; [|by eexists _, _]. destruct E as [Hp Hinv']. rewrite Hp in Hlen. cbn [length] in Hlen.
  destruct (IH si' Hinv' Hh' ltac:(lia)) as (ps & k & ->). by eexists _, _.
Qed.

(** ** Lemmas: batches *)

Lemma slate_batch_ops m wb ops wb' :
  slate_batch b wb ops = Ok wb' → apply_ops m (wb_ops l wb') = apply_ops m (wb_ops l wb ++ ops).
Proof.
  revert wb. induction ops as [|op ops IH]; intros wb; cbn [slate_batch]; [intros [= <-]; by rewrite app_nil_r|].
  intros (wb1 & E1 & E)%result_bind_Ok. rewrite (IH _ E). rewrite !apply_ops_app. cbn [app].
  rewrite (apply_ops_cons _ op). f_equal. destruct op as [k v []]; cbn [op_del op_key op_val] in E1.
  - rewrite (del_ops _ l _ _ _ E1), apply_ops_app. done.
  - rewrite (put_ops _ l _ _ _ _ E1), apply_ops_app. done.
Qed.

Lemma slate_batch_new m ops wb :
  slate_batch b (NewWriteBatch b) ops = Ok wb → apply_ops m (wb_ops l wb) = apply_ops m ops.
Proof. intros E. by rewrite (slate_batch_ops m _ _ _ E), (new_ops _ l). Qed.

Lemma slate_batch_works wb ops : ∃ wb', slate_batch b wb ops = Ok wb'.
Proof.
  revert wb. induction ops as [|op ops IH]; intros wb; cbn [slate_batch]; [by eexists|].
  destruct op as [k v []]; cbn [op_del op_key op_val].
  - destruct (del_works _ l wb k) as [wb1 ->]. apply IH.
  - destruct (put_works _ l wb k v) as [wb1 ->]. apply IH.
Qed.

Lemma slate_Commit_cases d ops await d' err :
  slate_Commit b d ops await = (d', err) →
  match err with
  | None => db_view l d' = apply_ops (db_view l d) ops
  | Some _ => db_view l d' = db_view l d ∨ db_view l d' = apply_ops (db_view l d) ops
  end.
Proof.
  unfold slate_Commit. destruct (slate_batch _ _ _) as [wb|e] eqn:Eb; [|intros [= <- <-]; by left].
  destruct (WriteWithOptions b d wb await) as [d1 [q|e]] eqn:Ew; intros [= <- <-].
  - rewrite (write_ok _ l _ _ _ _ _ Ew). by apply slate_batch_new.
  - rewrite <-(slate_batch_new _ _ _ Eb). by eapply write_atomic.
Qed.

Lemma slate_CommitAsync_cases d ops d' r :
  slate_CommitAsync b d ops = (d', r) →
  match r with
  | Ok _ => db_view l d' = apply_ops (db_view l d) ops
  | Err _ => db_view l d' = db_view l d ∨ db_view l d' = apply_ops (db_view l d) ops
  end.
Proof.
  unfold slate_CommitAsync. destruct (slate_batch _ _ _) as [wb|e] eqn:Eb; [|intros [= <- <-]; by left].
  intros Ew. rewrite <-(slate_batch_new _ _ _ Eb). destruct r; [by eapply write_ok|by eapply write_atomic].
Qed.

(** ** The instance *)

(** The recursion over a scan is bounded by [rows], a bound on the rows of the
    database. *)
Context (rows : Db b → nat) (Hrows : ∀ d, (base.size (db_view l d) < rows d)%nat).

Definition slate_items (d : Db b) (si : slateIter b) : Iterator :=
  let '(ps, e, _) := slate_drain b (rows d) si in mkIterator ps e.

Definition slate_storage : Storage (Db b) := {|
  store_Get := slate_Get b;
  store_Commit := slate_Commit b;
  store_CommitAsync := slate_CommitAsync b;
  store_DurableSeq := slate_DurableSeq b;
  store_Scan d start end_ := si ← slate_Scan b d (Some start) end_; mret (slate_items d si) |}.

Lemma range_items_size m lo hi : (length (range_items m lo hi) ≤ base.size m)%nat.
Proof. unfold range_items. rewrite (merge_sort_Permutation kv_le), <-length_map_to_list. apply length_filter. Qed.

Lemma slate_Scan_fresh d lo hi si :
  slate_Scan b d lo hi = Ok si →
  si_inv si ∧ pending si = scan_rows (db_view l d) lo hi ∧ si_exhausted b si = false ∧
  from_option (it_rows l) [] (si_it b si) = scan_rows (db_view l d) lo hi.
Proof.
  unfold slate_Scan. intros (it & E & Hs)%result_bind_Ok. run_result in Hs. injection Hs as <-.
  apply (scan_rows_ok _ l) in E. unfold si_inv, pending. cbn [si_it si_buf si_idx si_exhausted from_option].
  split_and!; [by eexists|done|done|done|done].
Qed.

Lemma slate_scan_fits d lo hi si :
  slate_Scan b d (Some lo) hi = Ok si → (length (pending si) < rows d)%nat.
Proof.
  intros (_ & -> & _)%slate_Scan_fresh. pose proof (range_items_size (db_view l d) lo hi). pose proof (Hrows d).
  unfold scan_rows. simpl. lia.
Qed.

#[local] Existing Instance slate_storage.

Lemma slate_Scan_view d lo hi it :
  store_Scan d lo hi = Ok it →
  it_items it `prefix_of` range_items (db_view l d) lo hi ∧
  (it_err it = None → it_items it = range_items (db_view l d) lo hi).
Proof.
  intros (si & E & Hs)%result_bind_Ok. run_result in Hs. injection Hs as <-.
  pose proof (slate_scan_fits _ _ _ _ E) as Hfit. apply slate_Scan_fresh in E as (Hinv & Hp & _).
  unfold slate_items. destruct (slate_drain b (rows d) si) as [[ps e] k] eqn:Ed.
  apply slate_drain_prefix in Ed as [Hpre Heq]; [|done|done]. by rewrite Hp in Hpre, Heq.
Qed.

Lemma slate_healthy_Scan d lo hi :
  db_healthy l d → ∃ it, store_Scan d lo hi = Ok it ∧ it_err it = None.
Proof.
  intros Hh. destruct (scan_works _ l d (Some lo) hi Hh) as (it & E & Hit).
  assert (Es : slate_Scan b d (Some lo) hi
    = Ok {| si_it := Some it; si_buf := []; si_idx := 0; si_exhausted := false |})
    by (unfold slate_Scan; by rewrite E).
  pose proof (slate_scan_fits _ _ _ _ Es) as Hfit. pose proof (slate_Scan_fresh _ _ _ _ Es) as (Hinv & _).
  destruct (slate_drain_healthy (rows d) _ Hinv Hit Hfit) as (ps & k & Ed).
  exists (mkIterator ps None). split; [|done]. cbn [store_Scan slate_storage]. rewrite Es.
  run_result. unfold slate_items. by rewrite Ed.
Qed.

#[local] Obligation Tactic := idtac.

#[local] Program Instance slate_laws : StorageLaws (Db b) := {| view := db_view l; healthy := db_healthy l |}.
Next Obligation. intros d k r E. by eapply (get_view _ l). Qed.
Next Obligation. intros d ops aw d' E. apply slate_Commit_cases in E. exact E. Qed.
Next Obligation. intros d ops aw d' e E. apply slate_Commit_cases in E. exact E. Qed.
Next Obligation. intros d ops d' q E. apply slate_CommitAsync_cases in E. exact E. Qed.
Next Obligation. intros d ops d' e E. apply slate_CommitAsync_cases in E. exact E. Qed.
Next Obligation. exact slate_Scan_view. Qed.
Next Obligation. intros d k Hh. by apply (get_works _ l). Qed.
Next Obligation. exact slate_healthy_Scan. Qed.
Next Obligation.
  intros d ops aw Hh. cbn [store_Commit slate_storage]. unfold slate_Commit.
  destruct (slate_batch_works (NewWriteBatch b) ops) as [wb ->].
  destruct (write_works _ l d wb aw Hh) as (d' & q & -> & Hh'). by exists d'.
Qed.

(** ** Properties *)

(** C18: the SlateDB backend is a store, in the sense everything else is proved for:
    from what the binding promises, its reads return the current
    contents, its batches are atomic, and its iterator, whatever the batches it fetches,
    delivers exactly the range in key order or a prefix of it and an error. A scan
    of [n] rows that does not fail crosses to the engine [n / 64 + 1] times. *)
Theorem slate_implements_storage :
  ∃ laws : StorageLaws (Db b),
    (∀ d, @view _ _ laws d = db_view l d) ∧ (∀ d, @healthy _ _ laws d ↔ db_healthy l d) ∧
    ∀ d lo hi si ps k, slate_Scan b d (Some lo) hi = Ok si → slate_drain b (rows d) si = (ps, None, k) →
      ps = range_items (db_view l d) lo hi ∧ k = Datatypes.S (length ps / scanBatchSize).
Proof.
  exists slate_laws. split_and!; [done|done|]. intros d lo hi si ps k E Ed.
  pose proof (slate_scan_fits _ _ _ _ E) as Hfit. apply slate_Scan_fresh in E as (Hinv & Hp & Hx & Hr).
  pose proof Ed as Ed'. apply slate_drain_fetches in Ed'; [|done]. rewrite Hx, Hr in Ed'.
  apply slate_drain_prefix in Ed as [_ Heq]; [|done|done]. rewrite Hp in Heq. rewrite (Heq eq_refl).
  split; [done|exact Ed'].
Qed.

End refinement.

(** ** Witness *)

(** A binding whose database is a map in memory. *)
Module SlateSample.
Definition next_batch (it : list kv) (n : nat) : list kv * result (list kv) := (drop n it, Ok (take n it)).

Definition memory : slatedb := {|
  Db := gmap bytes bytes; WriteBatch := list Op; DbIterator := list kv;
  NewWriteBatch := [];
  batch_Put wb k v := Ok (wb ++ [PutOp k v]);
  batch_Delete wb k := Ok (wb ++ [DelOp k]);
  WriteWithOptions d wb _ := (apply_ops d wb, Ok 1);
  GetWithOptions d k := Ok (d !! k);
  Status _ := (1, false);
  ScanWithOptions d lo hi := Ok (scan_rows d lo hi);
  NextBatch := next_batch |}.

#[local] Obligation Tactic := idtac.
Program Definition memory_laws : slatedb_laws memory := {|
  db_view := λ d : gmap bytes bytes, d; db_healthy := λ _, True; wb_ops := λ wb : list Op, wb;
  it_rows := λ it : list kv, it; it_healthy := λ _, True |}.
Next Obligation. done. Qed.
Next Obligation. by intros wb k v wb' [= <-]. Qed.
Next Obligation. by intros wb k wb' [= <-]. Qed.
Next Obligation. intros. by eexists. Qed.
Next Obligation. intros. by eexists. Qed.
Next Obligation. by intros d k r [= <-]. Qed.
Next Obligation. intros. by eexists. Qed.
Next Obligation. by intros d wb aw d' q [= <- _]. Qed.
Next Obligation. done. Qed.
Next Obligation. intros d wb aw _. by eexists _, _. Qed.
Next Obligation. by intros d lo hi it [= <-]. Qed.
Next Obligation. intros d lo hi _. by eexists. Qed.
Next Obligation. by intros it n it' rows _ [= <- <-]. Qed.
Next Obligation. intros it n _. by eexists _, _. Qed.

Definition rows (d : gmap bytes bytes) : nat := Datatypes.S (base.size d).

(** 70 keys. *)
Definition many : gmap bytes bytes :=
  apply_ops ∅ ((λ i, PutOp (FormatUint (Z.of_nat i)) []) <$> seq 10 70).

Lemma many_drained :
  match slate_Scan memory many (Some []) None with
  | Ok si => match slate_drain memory (rows many) si with
             | (ps, None, k) => bool_decide (length ps = 70%nat ∧ k = 2%nat)
             | _ => false
             end
  | Err _ => false
  end = true.
Proof. vm_compute. reflexivity. Qed.
End SlateSample.

Lemma slate_implements_storage_witness :
  ∃ laws : @StorageLaws (Db SlateSample.memory) (slate_storage SlateSample.memory SlateSample.rows),
    ∀ d, @view _ _ laws d = d.
Proof.
  destruct (slate_implements_storage SlateSample.memory SlateSample.memory_laws SlateSample.rows)
    as (laws & Hv & _); [intros d; unfold SlateSample.rows; simpl; lia|].
  exists laws. exact Hv.
Defined.
