(* ===== verification/Metrics.v ===== *)
(** * Metrics in the Prometheus text format (internal/ds/metrics.go)

    The exposition of the storage engine's metrics: names and labels mapped to
    identifiers and escaped, samples grouped by name and sorted, histograms made
    cumulative. The engine's [Metric] values are its binding's, with the fields the
    code uses; the formatting of floating-point numbers is a parameter. The theorem
    runs a strict reader of the format over the whole output, line by line: a line
    that is not a help, a type or a sample line of the right shape is refused. *)

From Stdlib Require Strings.String.
From S2P Require Import Prelude.
From S2P Require Import Bytes.
From S2P Require Import Decimal.
From S2P Require Import Storage.

(** ** String constants *)

Module MetricsLiterals.
Import String.
Open Scope string_scope.
Definition sHelp : bytes := list_byte_of_string "# HELP ".
Definition sType : bytes := list_byte_of_string "# TYPE ".
Definition sCounter : bytes := list_byte_of_string "counter".
Definition sHistogram : bytes := list_byte_of_string "histogram".
Definition sGauge : bytes := list_byte_of_string "gauge".
Definition sBucket : bytes := list_byte_of_string "_bucket".
Definition sSum : bytes := list_byte_of_string "_sum".
Definition sCount : bytes := list_byte_of_string "_count".
Definition sLe : bytes := list_byte_of_string "le".
Definition sInf : bytes := list_byte_of_string "+Inf".
Definition sNegInf : bytes := list_byte_of_string "-Inf".
Definition sRequests : bytes := list_byte_of_string "yasdb_append_requests_total".
Definition sRecords : bytes := list_byte_of_string "yasdb_append_records_total".
Definition sRequestsHelp : bytes :=
  list_byte_of_string "Total successful append HTTP requests (POST with a 2xx response).".
Definition sRecordsHelp : bytes :=
  list_byte_of_string "Total records durably appended across all streams (a single POST may append more than one record).".
End MetricsLiterals.
Export MetricsLiterals.

(** ** Identifiers and escapes *)

Definition in_byte_range (lo hi c : byte) : bool :=
  bool_decide (byte_to_Z lo ≤ byte_to_Z c ≤ byte_to_Z hi).
Definition is_letter (c : byte) : bool := in_byte_range x61 x7a c || in_byte_range x41 x5a c || Byte.eqb c x5f.
Definition is_digit (c : byte) : bool := in_byte_range x30 x39 c.

(** [sanitizeIdent]: every disallowed byte, and a leading digit, becomes an underscore. *)
Definition sanitizeIdent (s : bytes) (allowColon : bool) : bytes :=
  match s with
  | [] => [x5f]
  | _ => imap (λ i c,
           if is_letter c || (allowColon && Byte.eqb c x3a) || (bool_decide (0 < i)%nat && is_digit c)
           then c else x5f) s
  end.
Definition sanitizeMetricName (name : bytes) : bytes := sanitizeIdent name true.
Definition sanitizeLabelName (name : bytes) : bytes := sanitizeIdent name false.

(** [strings.ReplaceAll] of a byte. *)
Definition replace_byte (c : byte) (r : bytes) (s : bytes) : bytes :=
  s ≫= λ x, if decide (x = c) then r else [x].

Definition escapeLabelValue (s : bytes) : bytes :=
  replace_byte x0a [x5c; x6e] (replace_byte x22 [x5c; x22] (replace_byte x5c [x5c; x5c] s)).
Definition escapeHelp (s : bytes) : bytes :=
  replace_byte x0a [x5c; x6e] (replace_byte x5c [x5c; x5c] s).

(** ** Labels *)

Record MetricLabel : Type := mkLabel { ml_Key : bytes; ml_Value : bytes }.

(** [writeLabelList] from index [i]. *)
Fixpoint label_list (i : nat) (ls : list MetricLabel) : bytes :=
  match ls with
  | [] => []
  | l :: ls =>
      (if decide (0 < i)%nat then [x2c] else []) ++ sanitizeLabelName (ml_Key l) ++ [x3d; x22] ++
      escapeLabelValue (ml_Value l) ++ [x22] ++ label_list (S i) ls
  end.
Definition writeLabelList (ls : list MetricLabel) : bytes := label_list 0 ls.

Definition formatLabels (labels extra : list MetricLabel) : bytes :=
  if decide (labels = [] ∧ extra = []) then [] else
  [x7b] ++ writeLabelList labels ++
  (if decide (labels ≠ [] ∧ extra ≠ []) then [x2c] else []) ++ writeLabelList extra ++ [x7d].

Definition labelString (labels : list MetricLabel) : bytes := writeLabelList labels.

(** [%d]. *)
Definition format_d (z : Z) : bytes := if decide (z < 0) then x2d :: FormatUint (- z) else FormatUint z.

(** [fmt.Fprintf(w, "%s%s %s\n", ...)]. *)
Definition sample_line (name labels value : bytes) : bytes := name ++ labels ++ [x20] ++ value ++ [x0a].
Definition comment_line (what name text : bytes) : bytes := what ++ name ++ [x20] ++ text ++ [x0a].

Section metrics.
  (** [float64], with what [formatFloat] asks of it. *)
  Context {F : Type} (IsInf : F → bool → bool) (FormatFloat : F → bytes).

Record HistogramMetricValue : Type := mkHistogram {
  hv_Count : Z; hv_Sum : F; hv_Boundaries : list F; hv_BucketCounts : list Z }.

Inductive MetricValue : Type :=
| MetricValueCounter (v : Z)
| MetricValueGauge (v : Z)
| MetricValueUpDownCounter (v : Z)
| MetricValueHistogram (h : HistogramMetricValue).

Record Metric : Type := mkMetric {
  mt_Name : bytes; mt_Description : bytes; mt_Labels : list MetricLabel; mt_Value : MetricValue }.

Definition formatFloat (f : F) : bytes :=
  if IsInf f true then sInf else if IsInf f false then sNegInf else FormatFloat f.

Definition prometheusKind (v : MetricValue) : bytes :=
  match v with
  | MetricValueCounter _ => sCounter
  | MetricValueHistogram _ => sHistogram
  | _ => sGauge
  end.

(** The loop of [writeHistogram], with its running sum. *)
Fixpoint hist_buckets (name : bytes) (labels : list MetricLabel) (boundaries : list F) (counts : list Z)
    (cumulative : Z) : list bytes :=
  match boundaries with
  | [] => []
  | boundary :: boundaries =>
      let cumulative := match counts with c :: _ => u64 (cumulative + c) | [] => cumulative end in
      sample_line (name ++ sBucket) (formatLabels labels [mkLabel sLe (formatFloat boundary)]) (format_d cumulative)
      :: hist_buckets name labels boundaries (tail counts) cumulative
  end.

Definition writeHistogram (name : bytes) (labels : list MetricLabel) (h : HistogramMetricValue) : list bytes :=
  hist_buckets name labels (hv_Boundaries h) (hv_BucketCounts h) 0 ++
  [sample_line (name ++ sBucket) (formatLabels labels [mkLabel sLe sInf]) (format_d (hv_Count h));
   sample_line (name ++ sSum) (formatLabels labels []) (formatFloat (hv_Sum h));
   sample_line (name ++ sCount) (formatLabels labels []) (format_d (hv_Count h))].

Definition writeSample (name : bytes) (m : Metric) : list bytes :=
  match mt_Value m with
  | MetricValueCounter v | MetricValueGauge v | MetricValueUpDownCounter v =>
      [sample_line name (formatLabels (mt_Labels m) []) (format_d v)]
  | MetricValueHistogram h => writeHistogram name (mt_Labels m) h
  end.

(** ** Groups *)

Record metricGroup : Type := mkGroup {
  mg_promName : bytes; mg_description : bytes; mg_kind : bytes; mg_samples : list Metric }.

Definition group_add (st : gmap bytes metricGroup * list bytes) (m : Metric) : gmap bytes metricGroup * list bytes :=
  let '(groups, order) := st in
  let name := sanitizeMetricName (mt_Name m) in
  let '(g, order) := match groups !! name with
                     | Some g => (g, order)
                     | None => (mkGroup name [] (prometheusKind (mt_Value m)) [], order ++ [name])
                     end in
  let description := if decide (mg_description g = []) then mt_Description m else mg_description g in
  (<[name := mkGroup (mg_promName g) description (mg_kind g) (mg_samples g ++ [m])]> groups, order).

(** [sort.Slice] by label string; which of two samples with the same labels comes first is
    not determined by the code. *)
Definition sample_le (a b : Metric) : Prop := bytes_le (labelString (mt_Labels a)) (labelString (mt_Labels b)).
#[global] Instance sample_le_dec : RelDecision sample_le.
Proof. intros a b. unfold sample_le. apply _. Defined.

Definition write_group (g : metricGroup) : list bytes :=
  (if decide (mg_description g ≠ []) then [comment_line sHelp (mg_promName g) (escapeHelp (mg_description g))] else []) ++
  [comment_line sType (mg_promName g) (mg_kind g)] ++
  (merge_sort sample_le (mg_samples g) ≫= writeSample (mg_promName g)).

Definition writePrometheusMetrics (metrics : list Metric) : list bytes :=
  let '(groups, order) := foldl group_add (∅, []) metrics in
  merge_sort bytes_le order ≫= λ name, match groups !! name with Some g => write_group g | None => [] end.

Definition writeYasdbMetrics (appendRequests appendRecords : Z) : list bytes :=
  [comment_line sHelp sRequests sRequestsHelp; comment_line sType sRequests sCounter;
   sample_line sRequests [] (format_d appendRequests);
   comment_line sHelp sRecords sRecordsHelp; comment_line sType sRecords sCounter;
   sample_line sRecords [] (format_d appendRecords)].

(** [WriteMetrics]: the backend's metrics when it has any ([MetricsProvider]). *)
Definition WriteMetrics (appendRequests appendRecords : Z) (snapshot : option (list Metric)) : list bytes :=
  writeYasdbMetrics appendRequests appendRecords ++ from_option writePrometheusMetrics [] snapshot.

End metrics.

(** ** The reference reader *)

Abbreviation series := (bytes * list (bytes * bytes) * bytes)%type.

(** What a line of the format says. *)
Inductive expo_item : Type :=
| EHelp (name text : bytes)
| EType (name kind : bytes)
| ESample (s : series).

(** The terminated lines of a text; a text whose last line is not terminated is refused. *)
Fixpoint lines_of (acc s : bytes) : option (list bytes) :=
  match s with
  | [] => if decide (acc = []) then Some [] else None
  | c :: s => if decide (c = x0a) then ls ← lines_of [] s; Some (acc :: ls) else lines_of (acc ++ [c]) s
  end.

(** The longest prefix of bytes that are not in [stop]. *)
Fixpoint span_until (stop : list byte) (s : bytes) : bytes * bytes :=
  match s with
  | [] => ([], [])
  | c :: s' => if decide (c ∈ stop) then ([], s) else let '(a, r) := span_until stop s' in (c :: a, r)
  end.

(** A quoted value, after its opening quote: the three escapes of the format, no others. *)
Fixpoint parse_value (s : bytes) : option (bytes * bytes) :=
  match s with
  | [] => None
  | c :: rest =>
      if decide (c = x22) then Some ([], rest)
      else if decide (c = x5c) then
        match rest with
        | [] => None
        | d :: rest =>
            e ← (if decide (d = x6e) then Some x0a else if decide (d = x5c ∨ d = x22) then Some d else None);
            '(v, r) ← parse_value rest; Some (e :: v, r)
        end
      else '(v, r) ← parse_value rest; Some (c :: v, r)
  end.

(** The text of a help line: two escapes. *)
Fixpoint parse_help (s : bytes) : option bytes :=
  match s with
  | [] => Some []
  | c :: rest =>
      if decide (c = x5c) then
        match rest with
        | [] => None
        | d :: rest =>
            e ← (if decide (d = x6e) then Some x0a else if decide (d = x5c) then Some d else None);
            v ← parse_help rest; Some (e :: v)
        end
      else v ← parse_help rest; Some (c :: v)
  end.

(** The byte [c], and what follows. *)
Definition expect (c : byte) (s : bytes) : option bytes :=
  match s with d :: r => if decide (d = c) then Some r else None | [] => None end.

Fixpoint expect_all (p s : bytes) : option bytes :=
  match p with [] => Some s | c :: p => r ← expect c s; expect_all p r end.

(** The identifiers of the format: not empty, not starting with a digit. *)
Definition ident_char (c : byte) : bool := is_letter c || Byte.eqb c x3a || is_digit c.
Definition is_ident (s : bytes) : bool :=
  match s with [] => false | c :: _ => negb (is_digit c) && forallb ident_char s end.

(** Pairs up to the closing brace. *)
Fixpoint parse_pairs (fuel : nat) (s : bytes) : option (list (bytes * bytes) * bytes) :=
  match fuel with
  | O => None
  | S n =>
      let '(k, r) := span_until [x3d] s in
      if negb (is_ident k) then None else
      r ← expect x3d r;
      r ← expect x22 r;
      '(v, r) ← parse_value r;
      match expect x2c r with
      | Some r => '(ps, r) ← parse_pairs n r; Some ((k, v) :: ps, r)
      | None => r ← expect x7d r; Some ([(k, v)], r)
      end
  end.

(** A value: one token, no timestamp after it. *)
Definition is_token (s : bytes) : bool := bool_decide (s ≠ []) && bool_decide (Forall (λ c, c ∉ [x0a; x20]) s).

Definition parse_sample (s : bytes) : option expo_item :=
  let '(name, r) := span_until [x7b; x20] s in
  if negb (is_ident name) then None else
  '(labels, r) ← (match expect x7b r with Some r => parse_pairs (length r) r | None => Some ([], r) end);
  r ← expect x20 r;
  if is_token r then Some (ESample (name, labels, r)) else None.

(** A name and the rest of its line. *)
Definition parse_named (s : bytes) : option (bytes * bytes) :=
  let '(name, r) := span_until [x20] s in
  if negb (is_ident name) then None else r ← expect x20 r; Some (name, r).

(** A line: a help line, a type line or a sample; anything else is refused. *)
Definition parse_line (s : bytes) : option expo_item :=
  match expect_all sHelp s with
  | Some r => '(name, r) ← parse_named r; text ← parse_help r; Some (EHelp name text)
  | None =>
      match expect_all sType s with
      | Some r => '(name, r) ← parse_named r; Some (EType name r)
      | None => parse_sample s
      end
  end.

(** The whole output, line after line. *)
Definition parse_exposition (s : bytes) : option (list expo_item) := ls ← lines_of [] s; mapM parse_line ls.

Definition item_series (x : expo_item) : option series := match x with ESample s => Some s | _ => None end.

(** ** Lemmas: escapes and identifiers *)

Definition esc1 (c : byte) : bytes :=
  if decide (c = x5c) then [x5c; x5c] else if decide (c = x22) then [x5c; x22]
  else if decide (c = x0a) then [x5c; x6e] else [c].

Lemma replace_byte_app c r a b : replace_byte c r (a ++ b) = replace_byte c r a ++ replace_byte c r b.
Proof. apply bind_app. Qed.

(** Three replacements, one after the other, are one escape per byte. *)
Lemma escapeLabelValue_cons c v : escapeLabelValue (c :: v) = esc1 c ++ escapeLabelValue v.
Proof.
  unfold escapeLabelValue. change (c :: v) with ([c] ++ v). rewrite !replace_byte_app. f_equal.
  unfold replace_byte, esc1. cbn [mbind list_bind app].
  destruct (decide (c = x5c)) as [->|]; [done|]. cbn [mbind list_bind app].
  destruct (decide (c = x22)) as [->|]; [done|]. cbn [mbind list_bind app].
  by destruct (decide (c = x0a)).
Qed.

Lemma parse_value_escape v rest : parse_value (escapeLabelValue v ++ x22 :: rest) = Some (v, rest).
Proof.
  induction v as [|c v IH]; [done|]. rewrite escapeLabelValue_cons, <-app_assoc. unfold esc1.
  destruct (decide (c = x5c)) as [->|H1]; [cbn -[escapeLabelValue]; by rewrite IH|].
  destruct (decide (c = x22)) as [->|H2]; [cbn -[escapeLabelValue]; by rewrite IH|].
  destruct (decide (c = x0a)) as [->|H3]; [cbn -[escapeLabelValue]; by rewrite IH|].
  cbn [app parse_value]. rewrite !decide_False by done. by rewrite IH.
Qed.

Definition help1 (c : byte) : bytes :=
  if decide (c = x5c) then [x5c; x5c] else if decide (c = x0a) then [x5c; x6e] else [c].

Lemma escapeHelp_cons c v : escapeHelp (c :: v) = help1 c ++ escapeHelp v.
Proof.
  unfold escapeHelp. change (c :: v) with ([c] ++ v). rewrite !replace_byte_app. f_equal.
  unfold replace_byte, help1. cbn [mbind list_bind app].
  destruct (decide (c = x5c)) as [->|]; [done|]. cbn [mbind list_bind app].
  by destruct (decide (c = x0a)).
Qed.

Lemma parse_help_escape v : parse_help (escapeHelp v) = Some v.
Proof.
  induction v as [|c v IH]; [done|]. rewrite escapeHelp_cons. unfold help1.
  destruct (decide (c = x5c)) as [->|H1]; [cbn -[escapeHelp]; by rewrite IH|].
  destruct (decide (c = x0a)) as [->|H3]; [cbn -[escapeHelp]; by rewrite IH|].
  cbn [app parse_help]. rewrite decide_False by done. by rewrite IH.
Qed.

(** No line feed. *)
Definition plain (s : bytes) : Prop := Forall (λ c, c ∉ [x0a]) s.
#[global] Instance plain_dec s : Decision (plain s).
Proof. unfold plain. apply _. Defined.

Ltac plain_const := apply (bool_decide_unpack _); vm_compute; exact I.

Lemma plain_app a b : plain a → plain b → plain (a ++ b).
Proof. intros. by apply Forall_app. Qed.

Lemma escape_plain (e1 : byte → bytes) (esc : bytes → bytes) v :
  esc [] = [] → (∀ c v, esc (c :: v) = e1 c ++ esc v) → (∀ c, plain (e1 c)) → plain (esc v).
Proof.
  intros H0 Hc He. induction v as [|c v IH]; [by rewrite H0; constructor|]. rewrite Hc. by apply plain_app.
Qed.

Lemma escapeHelp_plain v : plain (escapeHelp v).
Proof.
  apply (escape_plain help1); [done|apply escapeHelp_cons|]. intros c. unfold help1.
  do 2 (case_decide; [plain_const|]). apply Forall_singleton. by intros ?%list_elem_of_singleton.
Qed.

Lemma escapeLabelValue_plain v : plain (escapeLabelValue v).
Proof.
  apply (escape_plain esc1); [done|apply escapeLabelValue_cons|]. intros c. unfold esc1.
  do 3 (case_decide; [plain_const|]). apply Forall_singleton. by intros ?%list_elem_of_singleton.
Qed.

Lemma sanitizeIdent_chars s colon : Forall (λ c, ident_char c = true) (sanitizeIdent s colon).
Proof.
  unfold sanitizeIdent. destruct s as [|c s]; [by repeat constructor|]. generalize (c :: s). clear. intros s.
  apply Forall_lookup. intros i c (d & Hd & ->)%list_lookup_imap_Some.
  destruct (_ || _) eqn:E; [|done]. unfold ident_char.
  destruct (is_letter d), (is_digit d), (Byte.eqb d x3a), colon; simpl in *; try done;
    by rewrite ?andb_false_r in E.
Qed.

Lemma ident_not_in stop s :
  forallb (λ c, negb (ident_char c)) stop = true → Forall (λ c, ident_char c = true) s → Forall (λ c, c ∉ stop) s.
Proof.
  intros Hs Hf. eapply Forall_impl; [exact Hf|]. intros c Hc Hin. rewrite forallb_forall in Hs.
  apply list_elem_of_In in Hin. apply Hs in Hin. by rewrite Hc in Hin.
Qed.

Lemma ident_plain s : Forall (λ c, ident_char c = true) s → plain s.
Proof. by apply (ident_not_in [x0a]). Qed.

Lemma is_ident_spec s : is_ident s = true ↔
  ∃ c r, s = c :: r ∧ is_digit c = false ∧ Forall (λ c, ident_char c = true) s.
Proof.
  destruct s as [|c r]; simpl; [by split; [|intros (? & ? & ? & _)]|]. rewrite !andb_true_iff, negb_true_iff.
  split.
  - intros (Hd & Hc & Hr). exists c, r. split_and!; [done..|]. constructor; [done|].
    apply Forall_forall. intros x Hx%list_elem_of_In. by apply (proj1 (forallb_forall _ _) Hr).
  - intros (c' & r' & [= <- <-] & Hd & Hf). apply Forall_cons in Hf as [Hc Hr]. split_and!; [done..|].
    apply forallb_forall. intros x Hx%list_elem_of_In. by apply (proj1 (Forall_forall _ _) Hr).
Qed.

Lemma is_ident_chars s : is_ident s = true → Forall (λ c, ident_char c = true) s.
Proof. intros (? & ? & _ & _ & ?)%is_ident_spec. done. Qed.

Lemma letter_not_digit c : is_letter c = true → is_digit c = false.
Proof.
  unfold is_letter, is_digit, in_byte_range. rewrite !orb_true_iff, !bool_decide_eq_true. intros H.
  apply bool_decide_eq_false. cbn in *. destruct H as [[?|?]| ->%byte_dec_bl]; [lia|lia|]. cbn. lia.
Qed.

Lemma sanitizeIdent_ident s colon : is_ident (sanitizeIdent s colon) = true.
Proof.
  apply is_ident_spec. pose proof (sanitizeIdent_chars s colon) as Hc. destruct s as [|c s]; [by exists x5f, []|].
  unfold sanitizeIdent in *. rewrite imap_cons in *. eexists _, _. split; [done|]. split; [|done].
  rewrite (bool_decide_false (0 < 0)%nat), andb_false_l, orb_false_r by lia.
  destruct (is_letter c || colon && Byte.eqb c x3a) eqn:E; [|done].
  apply orb_true_iff in E as [?|[_ ->%byte_dec_bl]%andb_true_iff]; [by apply letter_not_digit|done].
Qed.

Lemma is_ident_app s t : is_ident s = true → forallb ident_char t = true → is_ident (s ++ t) = true.
Proof.
  destruct s as [|c s]; [done|]. simpl. rewrite !andb_true_iff, forallb_app. intros (? & ? & ?) ?.
  by rewrite andb_true_iff.
Qed.

Lemma span_until_stop stop a c r :
  Forall (λ x, x ∉ stop) a → c ∈ stop → span_until stop (a ++ c :: r) = (a, c :: r).
Proof.
  intros Ha Hc. induction Ha as [|x a Hx Ha IH]; simpl; [by rewrite decide_True|].
  by rewrite decide_False, IH.
Qed.

(** ** Lemmas: labels *)

Definition label_pair (l : MetricLabel) : bytes * bytes := (sanitizeLabelName (ml_Key l), ml_Value l).

Lemma label_list_pos i ls : label_list (S i) ls = label_list 1 ls.
Proof. revert i. induction ls as [|l ls IH]; intros i; [done|]. simpl. by rewrite (IH (S i)), (IH 1%nat). Qed.

Lemma label_list_comma l ls : label_list 1 (l :: ls) = x2c :: label_list 0 (l :: ls).
Proof. simpl. by rewrite label_list_pos. Qed.

Lemma label_list_head l ls :
  label_list 0 (l :: ls) =
  sanitizeLabelName (ml_Key l) ++ x3d :: x22 :: escapeLabelValue (ml_Value l) ++ x22 :: label_list 1 ls.
Proof. reflexivity. Qed.

Lemma label_list_head_app l ls t :
  label_list 0 (l :: ls) ++ t =
  sanitizeLabelName (ml_Key l) ++ x3d :: x22 :: escapeLabelValue (ml_Value l) ++ x22 :: label_list 1 ls ++ t.
Proof. rewrite label_list_head, <-app_assoc. cbn [app]. by rewrite <-app_assoc. Qed.

Lemma label_list_app ls ls' :
  label_list 1 (ls ++ ls') = label_list 1 ls ++ (if decide (ls' = []) then [] else [x2c]) ++ label_list 0 ls'.
Proof.
  induction ls as [|l ls IH]; cbn [app].
  - destruct ls'; [done|]. by rewrite label_list_comma, decide_False by done.
  - rewrite !label_list_comma. cbn [app]. by rewrite label_list_head_app, label_list_head, IH.
Qed.

Lemma formatLabels_list labels extra :
  formatLabels labels extra =
  if decide (labels ++ extra = []) then [] else [x7b] ++ label_list 0 (labels ++ extra) ++ [x7d].
Proof.
  unfold formatLabels, writeLabelList. destruct labels as [|l ls]; cbn [app].
  - destruct extra as [|e es]; [done|]. rewrite decide_False by (by intros [_ ?]).
    by rewrite !decide_False by (done || by intros []).
  - rewrite decide_False by (by intros [? _]). rewrite (decide_False (P := l :: ls ++ extra = [])) by done.
    cbn [app]. f_equal. rewrite label_list_head_app, (label_list_head_app _ _ [x7d]), label_list_app, <-!app_assoc.
    do 5 f_equal. destruct extra; [by rewrite decide_False by (by intros [])|]. by rewrite decide_True, decide_False.
Qed.

Lemma parse_pair l rest fuel :
  parse_pairs (S fuel)
    (sanitizeLabelName (ml_Key l) ++ x3d :: x22 :: escapeLabelValue (ml_Value l) ++ x22 :: rest) =
  match expect x2c rest with
  | Some r => '(ps, r) ← parse_pairs fuel r; Some (label_pair l :: ps, r)
  | None => r ← expect x7d rest; Some ([label_pair l], r)
  end.
Proof.
  cbn [parse_pairs].
  rewrite span_until_stop; [|apply ident_not_in; [done|apply sanitizeIdent_chars]|by apply list_elem_of_singleton].
  rewrite (sanitizeIdent_ident _ _ : is_ident (sanitizeLabelName _) = true). cbn [negb].
  cbn [expect]. rewrite decide_True by done. cbn [mbind option_bind expect]. rewrite decide_True by done.
  cbn [mbind option_bind]. by rewrite parse_value_escape.
Qed.

Lemma parse_pairs_labels l ls rest fuel :
  (length ls < fuel)%nat →
  parse_pairs fuel (label_list 0 (l :: ls) ++ x7d :: rest) = Some (label_pair <$> l :: ls, rest).
Proof.
  revert l fuel. induction ls as [|l' ls IH]; intros l [|fuel] Hf; cbn [length] in Hf; try lia;
    rewrite label_list_head_app, parse_pair.
  - cbn [label_list app expect]. rewrite decide_False by done. cbn [mbind option_bind]. by rewrite decide_True.
  - rewrite label_list_comma. cbn [app expect]. rewrite decide_True by done. rewrite IH by lia. done.
Qed.

Lemma label_list_length l ls : (length ls < length (label_list 0 (l :: ls)))%nat.
Proof.
  revert l. induction ls as [|l' ls IH]; intros l; rewrite label_list_head, length_app; cbn [length].
  - lia.
  - rewrite label_list_comma, length_app. cbn [length]. specialize (IH l'). lia.
Qed.

Lemma label_list_plain i ls : plain (label_list i ls).
Proof.
  revert i. induction ls as [|l ls IH]; intros i; cbn [label_list]; [constructor|].
  repeat apply plain_app; [case_decide; plain_const|apply ident_plain, sanitizeIdent_chars|plain_const
    |apply escapeLabelValue_plain|plain_const|apply IH].
Qed.

Lemma formatLabels_plain labels extra : plain (formatLabels labels extra).
Proof.
  rewrite formatLabels_list. case_decide; [constructor|].
  repeat apply plain_app; [plain_const|apply label_list_plain|plain_const].
Qed.

(** ** Lemmas: lines *)

(** A chunk that is one line, and reads as an item. *)
Definition reads (chunk : bytes) (x : expo_item) : Prop :=
  ∃ l, chunk = l ++ [x0a] ∧ plain l ∧ parse_line l = Some x.

Lemma lines_of_line l s acc : plain l → lines_of acc (l ++ x0a :: s) = ls ← lines_of [] s; Some ((acc ++ l) :: ls).
Proof.
  intros Hl. revert acc. induction Hl as [|c l Hc Hl IH]; intros acc; cbn [app lines_of].
  - rewrite decide_True by done. by rewrite app_nil_r.
  - rewrite decide_False by (intros ->; by apply Hc, list_elem_of_here). rewrite IH, <-app_assoc. done.
Qed.

Lemma parse_exposition_reads chunks items :
  Forall2 reads chunks items → parse_exposition (concat chunks) = Some items.
Proof.
  intros H. assert (∃ ls, lines_of [] (concat chunks) = Some ls ∧ mapM parse_line ls = Some items) as (ls & E & Em).
  { induction H as [|chunk x chunks items (l & -> & Hp & Hx) _ (ls & E & Em)]; [by exists []|].
    exists (l :: ls). split; [|by cbn; rewrite Hx; cbn; rewrite Em].
    cbn [concat]. rewrite <-app_assoc. cbn [app]. rewrite lines_of_line by done. by rewrite E. }
  unfold parse_exposition. by rewrite E.
Qed.

Lemma expect_all_app p s : expect_all p (p ++ s) = Some s.
Proof. induction p as [|c p IH]; [done|]. cbn [app expect_all expect]. by rewrite decide_True by done. Qed.

Lemma parse_named_ok name r : is_ident name = true → parse_named (name ++ x20 :: r) = Some (name, r).
Proof.
  intros Hn. unfold parse_named.
  rewrite span_until_stop; [|apply ident_not_in; [done|by apply is_ident_chars]|by apply list_elem_of_singleton].
  rewrite Hn. cbn [negb expect]. by rewrite decide_True.
Qed.

Lemma help_reads name text :
  is_ident name = true → reads (comment_line sHelp name (escapeHelp text)) (EHelp name text).
Proof.
  intros Hn. exists (sHelp ++ name ++ [x20] ++ escapeHelp text). unfold comment_line. split; [by rewrite <-!app_assoc|].
  split; [repeat apply plain_app; [plain_const|by apply ident_plain, is_ident_chars|plain_const|apply escapeHelp_plain]|].
  unfold parse_line. rewrite expect_all_app. cbn [app]. rewrite parse_named_ok by done.
  cbn [mbind option_bind]. by rewrite parse_help_escape.
Qed.

Lemma type_reads name kind : is_ident name = true → plain kind → reads (comment_line sType name kind) (EType name kind).
Proof.
  intros Hn Hk. exists (sType ++ name ++ [x20] ++ kind). unfold comment_line. split; [by rewrite <-!app_assoc|].
  split; [repeat apply plain_app; [plain_const|by apply ident_plain, is_ident_chars|plain_const|done]|].
  unfold parse_line. change (expect_all sHelp (sType ++ name ++ [x20] ++ kind)) with (@None bytes).
  rewrite expect_all_app. cbn [app]. by rewrite parse_named_ok by done.
Qed.

(** A line that starts an identifier is neither a help nor a type line. *)
Lemma parse_line_sample c r : ident_char c = true → parse_line (c :: r) = parse_sample (c :: r).
Proof.
  intros Hc. assert (∀ p, expect_all (x23 :: p) (c :: r) = None) as E.
  { intros p. cbn [expect_all expect]. rewrite decide_False; [done|]. by intros ->. }
  unfold parse_line. rewrite (E (tail sHelp) : expect_all sHelp _ = _).
  by rewrite (E (tail sType) : expect_all sType _ = _).
Qed.

Definition token (v : bytes) : Prop := v ≠ [] ∧ Forall (λ c, c ∉ [x0a; x20]) v.
#[global] Instance token_dec s : Decision (token s).
Proof. unfold token. apply _. Defined.

Lemma is_token_spec v : is_token v = true ↔ token v.
Proof. unfold is_token, token. by rewrite andb_true_iff, !bool_decide_eq_true. Qed.

Lemma token_plain v : token v → plain v.
Proof. intros [_ Hv]. eapply Forall_impl; [exact Hv|]. intros c Hc ->%list_elem_of_singleton. set_solver. Qed.

Lemma sample_reads name labels extra value :
  is_ident name = true → token value →
  reads (sample_line name (formatLabels labels extra) value) (ESample (name, label_pair <$> labels ++ extra, value)).
Proof.
  intros Hn Hv. exists (name ++ formatLabels labels extra ++ [x20] ++ value). unfold sample_line.
  split; [by rewrite <-!app_assoc|].
  split; [repeat apply plain_app;
    [by apply ident_plain, is_ident_chars|apply formatLabels_plain|plain_const|by apply token_plain]|].
  destruct (proj1 (is_ident_spec name) Hn) as (c & r & Er & _ & Hc). rewrite Er in Hc |- *. cbn [app].
  rewrite parse_line_sample by (by apply Forall_cons in Hc as [? _]).
  change (c :: r ++ ?x) with ((c :: r) ++ x). rewrite <-Er in Hc |- *. unfold parse_sample. rewrite formatLabels_list.
  assert (Hstop : Forall (λ c, c ∉ [x7b; x20]) name) by (by apply ident_not_in).
  case_decide as He; cbn [app].
  - rewrite span_until_stop; [|done|set_solver]. rewrite Hn. cbn [negb expect].
    rewrite decide_False by done. cbn [mbind option_bind expect]. rewrite decide_True by done.
    cbn [mbind option_bind]. by rewrite (proj2 (is_token_spec _) Hv), He.
  - destruct (labels ++ extra) as [|l ls]; [done|]. rewrite <-!app_assoc. cbn [app].
    rewrite span_until_stop; [|done|set_solver]. rewrite Hn. cbn [negb expect]. rewrite decide_True by done.
    rewrite parse_pairs_labels.
    2: { rewrite length_app. pose proof (label_list_length l ls). lia. }
    cbn [mbind option_bind expect]. rewrite decide_True by done. cbn [mbind option_bind].
    by rewrite (proj2 (is_token_spec _) Hv).
Qed.

Lemma token_app a b : token a → token b → token (a ++ b).
Proof. intros [Ha ?] [_ ?]. split; [by destruct a|by apply Forall_app]. Qed.

Lemma digit_token d : 0 ≤ d < 10 → token [digit d].
Proof.
  intros Hd. split; [done|]. apply Forall_singleton. pose proof (digit_is_digit d Hd) as Hr.
  intros Hin. assert (digit d = x0a ∨ digit d = x20) as [E|E] by set_solver; rewrite E in Hr; by destruct Hr.
Qed.

Lemma dec_digits_token n v : 0 ≤ v → token (dec_digits (S n) v).
Proof.
  revert v. induction n as [|n IH]; intros v Hv.
  - cbn [dec_digits]. case_decide; [apply digit_token; lia|]. cbn [app].
    apply digit_token, Z.mod_pos_bound. lia.
  - change (token (if decide (v < 10) then [digit v] else dec_digits (S n) (v / 10) ++ [digit (v mod 10)])).
    case_decide; [apply digit_token; lia|]. apply token_app; [apply IH, Z.div_pos; lia|].
    apply digit_token, Z.mod_pos_bound. lia.
Qed.

Lemma format_d_token z : token (format_d z).
Proof.
  unfold format_d. case_decide; [|apply dec_digits_token; lia].
  apply (token_app [x2d]); [plain_const|apply dec_digits_token; lia].
Qed.

Lemma sanitized_suffix name suffix :
  forallb ident_char suffix = true → is_ident (sanitizeMetricName name ++ suffix) = true.
Proof. apply is_ident_app, sanitizeIdent_ident. Qed.

Ltac reads_sample :=
  apply sample_reads; [by (apply sanitizeIdent_ident || apply sanitized_suffix)|by (apply format_d_token || auto)].

(** ** The series of a metric *)

Section series_spec.
  Context {F : Type} (IsInf : F → bool → bool) (FormatFloat : F → bytes).
  (** [strconv.FormatFloat] prints one token. *)
  Hypothesis FormatFloat_token : ∀ f, token (FormatFloat f).
  Abbreviation metric := (Metric (F := F)).
  Implicit Types (m : metric).

Definition sum_first (counts : list Z) (n : nat) : Z := foldr Z.add 0 (take n counts).

(** What one metric stands for: a sample, or a histogram's cumulative buckets, sum
    and count. *)
Definition hist_series (name : bytes) (labels : list MetricLabel) (h : HistogramMetricValue (F := F)) : list series :=
  imap (λ i f, (name ++ sBucket, label_pair <$> labels ++ [mkLabel sLe (formatFloat IsInf FormatFloat f)],
                format_d (u64 (sum_first (hv_BucketCounts h) (S i))))) (hv_Boundaries h) ++
  [(name ++ sBucket, label_pair <$> labels ++ [mkLabel sLe sInf], format_d (hv_Count h));
   (name ++ sSum, label_pair <$> labels, formatFloat IsInf FormatFloat (hv_Sum h));
   (name ++ sCount, label_pair <$> labels, format_d (hv_Count h))].

Definition series_of m : list series :=
  let name := sanitizeMetricName (mt_Name m) in
  match mt_Value m with
  | MetricValueCounter v | MetricValueGauge v | MetricValueUpDownCounter v =>
      [(name, label_pair <$> mt_Labels m, format_d v)]
  | MetricValueHistogram h => hist_series name (mt_Labels m) h
  end.

Lemma formatFloat_token f : token (formatFloat IsInf FormatFloat f).
Proof. unfold formatFloat. repeat case_match; [plain_const|plain_const|apply FormatFloat_token]. Qed.

Lemma hist_buckets_reads name labels boundaries : ∀ counts base,
  Forall2 reads
    (hist_buckets IsInf FormatFloat (sanitizeMetricName name) labels boundaries counts (u64 base))
    (ESample <$> imap (λ i f, (sanitizeMetricName name ++ sBucket,
                  label_pair <$> labels ++ [mkLabel sLe (formatFloat IsInf FormatFloat f)],
                  format_d (u64 (base + sum_first counts (S i))))) boundaries).
Proof.
  induction boundaries as [|f boundaries IH]; intros counts base; [constructor|].
  cbn [hist_buckets]. set (next := match counts with c :: _ => base + c | [] => base end).
  assert (Hc : match counts with c :: _ => u64 (u64 base + c) | [] => u64 base end = u64 next).
  { unfold next. destruct counts; [done|]. unfold u64. by rewrite Zplus_mod_idemp_l. }
  rewrite Hc, imap_cons, fmap_cons. constructor.
  - replace (base + sum_first counts 1) with next by (unfold next, sum_first; destruct counts; simpl; lia).
    reads_sample.
  - erewrite imap_ext; [apply (IH (tail counts) next)|]. intros i x _. simpl. do 3 f_equal.
    unfold next, sum_first. destruct counts as [|c counts]; simpl; lia.
Qed.

Lemma writeSample_reads m :
  Forall2 reads (writeSample IsInf FormatFloat (sanitizeMetricName (mt_Name m)) m) (ESample <$> series_of m).
Proof.
  pose proof formatFloat_token as Hf. unfold writeSample, series_of. destruct (mt_Value m) as [v|v|v|h].
  1-3: constructor; [|constructor]; rewrite <-(app_nil_r (mt_Labels m)) at 2; reads_sample.
  unfold writeHistogram, hist_series. rewrite fmap_app. apply Forall2_app.
  - apply (hist_buckets_reads (mt_Name m) (mt_Labels m) (hv_Boundaries h) (hv_BucketCounts h) 0).
  - repeat constructor; [|rewrite <-(app_nil_r (mt_Labels m)) at 2..]; reads_sample.
Qed.

End series_spec.

(** ** The groups of a list of metrics *)

Section groups_spec.
  Context {F : Type} (IsInf : F → bool → bool) (FormatFloat : F → bytes).
  Abbreviation metric := (Metric (F := F)).
  Implicit Types (ms : list metric).

Definition metric_name (m : metric) : bytes := sanitizeMetricName (mt_Name m).
Definition metrics_named (n : bytes) ms : list metric := filter (λ m, metric_name m = n) ms.

(** The first description that is not empty. *)
Definition help_of ms : bytes := default [] (head (filter (λ d, d ≠ []) (mt_Description <$> ms))).

(** The block of a name: its help line if any description is given, the type of the first
    metric of that name, then the samples of all its metrics, sorted by their labels. *)
Definition block_of ms (n : bytes) (items : list expo_item) : Prop :=
  ∃ m rest sorted, metrics_named n ms = m :: rest ∧ sorted ≡ₚ m :: rest ∧ Sorted sample_le sorted ∧
    items = (if decide (help_of (m :: rest) = []) then [] else [EHelp n (help_of (m :: rest))]) ++
      [EType n (prometheusKind (mt_Value m))] ++ (sorted ≫= λ x, ESample <$> series_of IsInf FormatFloat x).

(** The server's own counters. *)
Definition yasdb_items (reqs recs : Z) : list expo_item :=
  [EHelp sRequests sRequestsHelp; EType sRequests sCounter; ESample (sRequests, [], format_d reqs);
   EHelp sRecords sRecordsHelp; EType sRecords sCounter; ESample (sRecords, [], format_d recs)].

Definition group_of ms (n : bytes) : option (metricGroup (F := F)) :=
  match metrics_named n ms with
  | [] => None
  | m :: rest => Some (mkGroup n (help_of (m :: rest)) (prometheusKind (mt_Value m)) (m :: rest))
  end.

End groups_spec.

(** ** Lemmas: groups *)

Section groups.
  Context {F : Type} (IsInf : F → bool → bool) (FormatFloat : F → bytes).
  (** [strconv.FormatFloat] prints one token. *)
  Hypothesis FormatFloat_token : ∀ f, token (FormatFloat f).
  Abbreviation metric := (Metric (F := F)).
  Implicit Types (ms : list metric).

(** The groups are those of what was added, in the order their names appeared. *)
Record groups_ok (groups : gmap bytes (metricGroup (F := F))) (order : list bytes) ms : Prop := {
  gk_nodup : NoDup order;
  gk_dom : ∀ n, n ∈ order ↔ n ∈ metric_name <$> ms;
  gk_group : ∀ n, groups !! n = group_of ms n }.

Lemma bind_ext_in {A B} (f g : A → list B) l : (∀ x, x ∈ l → f x = g x) → l ≫= f = l ≫= g.
Proof.
  induction l as [|x l IH]; intros Hfg; [done|]. cbn [mbind list_bind]. f_equal; [apply Hfg, list_elem_of_here|].
  apply IH. intros y Hy. by apply Hfg, list_elem_of_further.
Qed.

Lemma metrics_named_app n ms ms' : metrics_named n (ms ++ ms') = metrics_named n ms ++ metrics_named n ms'.
Proof. apply filter_app. Qed.

Lemma help_of_snoc ms m :
  help_of (ms ++ [m]) = if decide (help_of ms = []) then mt_Description m else help_of ms.
Proof.
  unfold help_of. rewrite fmap_app, filter_app. cbn [fmap list_fmap].
  assert (Hf : Forall (λ d, d ≠ []) (filter (λ d : bytes, d ≠ []) (mt_Description <$> ms)))
    by (apply Forall_forall; intros d [? _]%list_elem_of_filter; done).
  destruct (filter _ (mt_Description <$> ms)) as [|d l] eqn:E; cbn [app head default from_option].
  - rewrite decide_True by done. rewrite filter_cons. case_decide as Hd; [done|].
    by rewrite Hd.
  - apply Forall_cons in Hf as [Hd _]. by rewrite decide_False.
Qed.

Lemma group_of_snoc_ne ms m n : metric_name m ≠ n → group_of (ms ++ [m]) n = group_of ms n.
Proof.
  intros Hn. unfold group_of. rewrite metrics_named_app. unfold metrics_named at 2.
  by rewrite filter_cons_False, filter_nil, app_nil_r.
Qed.

Lemma group_of_snoc ms m : let n := metric_name m in
  group_of (ms ++ [m]) n = Some match group_of ms n with
    | Some g => mkGroup n (if decide (mg_description g = []) then mt_Description m else mg_description g)
                        (mg_kind g) (mg_samples g ++ [m])
    | None => mkGroup n (mt_Description m) (prometheusKind (mt_Value m)) [m]
    end.
Proof.
  intros n. unfold group_of. rewrite metrics_named_app. unfold metrics_named at 2.
  rewrite filter_cons_True, filter_nil by done. destruct (metrics_named n ms) as [|m' rest]; cbn [app].
  - do 2 f_equal. change [m] with ([] ++ [m]). by rewrite help_of_snoc, decide_True.
  - change (m' :: rest ++ [m]) with ((m' :: rest) ++ [m]). by rewrite help_of_snoc.
Qed.

Lemma group_of_name ms n g : group_of ms n = Some g → mg_promName g = n.
Proof. unfold group_of. case_match; [done|]. by intros [= <-]. Qed.

Lemma group_of_dom ms n : is_Some (group_of ms n) ↔ n ∈ metric_name <$> ms.
Proof.
  rewrite list_elem_of_fmap. unfold group_of. destruct (metrics_named n ms) as [|m rest] eqn:E.
  - split; [by intros []|]. intros (m & -> & Hm). assert (m ∈ metrics_named (metric_name m) ms) as Hin.
    { by apply list_elem_of_filter. } rewrite E in Hin. by apply elem_of_nil in Hin.
  - split; [|by eexists]. intros _. assert (m ∈ metrics_named n ms) as [? ?]%list_elem_of_filter.
    { rewrite E. apply list_elem_of_here. } by exists m.
Qed.

Lemma group_add_ok groups order ms m :
  groups_ok groups order ms → let '(groups', order') := group_add (groups, order) m in
  groups_ok groups' order' (ms ++ [m]).
Proof.
  intros [Hnd Hdom Hgr]. unfold group_add. fold (metric_name m). set (n := metric_name m).
  pose proof (group_of_snoc ms m) as Hsnoc. cbn zeta in Hsnoc. fold n in Hsnoc. rewrite <-(Hgr n) in Hsnoc.
  pose proof (group_of_dom ms n) as Hin. rewrite <-(Hgr n), <-Hdom in Hin.
  assert (Hgroups : ∀ g, Some g = group_of (ms ++ [m]) n →
    ∀ k, <[n := g]> groups !! k = group_of (ms ++ [m]) k).
  { intros g Eg k. destruct (decide (n = k)) as [<-|Hk]; [by rewrite lookup_insert_eq|].
    by rewrite lookup_insert_ne, Hgr, group_of_snoc_ne. }
  assert (Hmem : ∀ k, k ∈ metric_name <$> ms ++ [m] ↔ k ∈ order ∨ k = n)
    by (intros k; rewrite fmap_app, elem_of_app, <-Hdom; unfold n; set_solver).
  destruct (groups !! n) as [g|] eqn:Hg.
  - assert (mg_promName g = n) as -> by (apply (group_of_name ms); by rewrite <-Hgr).
    split; [done| |by apply Hgroups]. intros k. rewrite Hmem. split; [by left|intros [?| ->]; [done|by apply Hin; eexists]].
  - split; [|intros k; rewrite Hmem; set_solver|by apply Hgroups].
    apply NoDup_app. split_and!; [done| |apply NoDup_singleton].
    intros x Hx ->%list_elem_of_singleton. apply Hin in Hx as [? ?]. done.
Qed.

Lemma groups_all ms : let '(groups, order) := foldl group_add (∅, []) ms in groups_ok groups order ms.
Proof.
  induction ms as [|m ms IH] using rev_ind.
  - split; [constructor|intros n; by rewrite !elem_of_nil|done].
  - rewrite foldl_app. destruct (foldl group_add (∅, []) ms) as [groups order]. by apply group_add_ok.
Qed.

(** Grouping by name loses no metric and repeats none. *)
Lemma metrics_partition names ms :
  NoDup names → (∀ m, m ∈ ms → metric_name m ∈ names) → (names ≫= λ n, metrics_named n ms) ≡ₚ ms.
Proof.
  intros Hnd. revert ms. induction Hnd as [|n names Hn Hnd IH]; intros ms Hms.
  - destruct ms as [|m ms]; [done|]. by assert (Hm := Hms m (list_elem_of_here _ _)); apply elem_of_nil in Hm.
  - rewrite bind_cons. rewrite (bind_ext_in _ (λ k, metrics_named k (filter (λ m, metric_name m ≠ n) ms))).
    + rewrite IH; [unfold metrics_named; apply filter_app_complement|].
      intros m [Hne Hm]%list_elem_of_filter. by apply Hms in Hm as [?|?]%elem_of_cons.
    + intros k Hk. unfold metrics_named. rewrite list_filter_filter. apply list_filter_iff. intros m.
      split; [intros ->; split; [done|by intros ->]|by intros []].
Qed.

Lemma omap_bind {A B C} (f : A → list B) (g : B → option C) l : omap g (l ≫= f) = l ≫= (λ x, omap g (f x)).
Proof. induction l as [|x l IH]; [done|]. by rewrite !bind_cons, omap_app, IH. Qed.

Lemma bind_bind {A B C} (f : A → list B) (g : B → list C) l : (l ≫= f) ≫= g = l ≫= (λ x, f x ≫= g).
Proof. induction l as [|x l IH]; [done|]. by rewrite !bind_cons, bind_app, IH. Qed.

Lemma prometheusKind_plain v : plain (prometheusKind (F := F) v).
Proof. destruct v; plain_const. Qed.

Lemma Forall2_bind {A B} (P : bytes → B → Prop) (f : A → list bytes) (g : A → list B) l :
  (∀ x, x ∈ l → Forall2 P (f x) (g x)) → Forall2 P (l ≫= f) (l ≫= g).
Proof.
  induction l as [|x l IH]; intros H; [constructor|]. rewrite !bind_cons.
  apply Forall2_app; [apply H, list_elem_of_here|]. apply IH. intros y Hy. by apply H, list_elem_of_further.
Qed.

#[global] Instance sample_le_total : Total (sample_le (F := F)).
Proof. intros a b. apply (total bytes_le). Qed.

(** A group is written as the block of its name. *)
Lemma write_group_reads ms n g :
  group_of ms n = Some g →
  ∃ items, block_of IsInf FormatFloat ms n items ∧ Forall2 reads (write_group IsInf FormatFloat g) items.
Proof.
  unfold group_of. destruct (metrics_named n ms) as [|m rest] eqn:E; [done|]. intros [= <-].
  assert (Hn : ∀ x, x ∈ m :: rest → metric_name x = n).
  { intros x Hx. rewrite <-E in Hx. by apply list_elem_of_filter in Hx as [? _]. }
  assert (Hid : is_ident n = true) by (rewrite <-(Hn m (list_elem_of_here _ _)); apply sanitizeIdent_ident).
  eexists. split; [exists m, rest, (merge_sort sample_le (m :: rest)); split_and!; [done| | |done]|].
  - apply merge_sort_Permutation.
  - apply (Sorted_merge_sort sample_le).
  - unfold write_group. cbn [mg_description mg_promName mg_kind mg_samples]. repeat apply Forall2_app.
    + destruct (decide (help_of (m :: rest) = [])) as [H|H];
        [rewrite decide_False by (by intros ?); constructor|rewrite decide_True by done].
      constructor; [by apply help_reads|constructor].
    + constructor; [apply type_reads; [done|apply prometheusKind_plain]|constructor].
    + apply Forall2_bind. intros x Hx. rewrite merge_sort_Permutation in Hx. rewrite <-(Hn x Hx).
      by apply writeSample_reads.
Qed.

Lemma block_series ms n items :
  block_of IsInf FormatFloat ms n items →
  omap item_series items ≡ₚ metrics_named n ms ≫= series_of IsInf FormatFloat.
Proof.
  intros (m & rest & sorted & -> & Hp & _ & ->). rewrite !omap_app.
  assert (omap item_series (if decide (help_of (m :: rest) = []) then [] else [EHelp n (help_of (m :: rest))]) = [])
    as -> by (by case_decide).
  change (omap item_series [EType n (prometheusKind (mt_Value m))]) with (@nil series). cbn [app].
  rewrite omap_bind, <-Hp. apply reflexive_eq, bind_ext_in. intros x _.
  induction (series_of IsInf FormatFloat x) as [|y l IH]; [done|]. cbn. by f_equal.
Qed.

Lemma yasdb_reads reqs recs : Forall2 reads (writeYasdbMetrics reqs recs) (yasdb_items reqs recs).
Proof.
  unfold writeYasdbMetrics, yasdb_items. pose proof format_d_token.
  change sRequestsHelp with (escapeHelp sRequestsHelp) at 1. change sRecordsHelp with (escapeHelp sRecordsHelp) at 1.
  repeat apply Forall2_cons_2; try (by apply help_reads); try (by apply type_reads; [done|plain_const]);
    [by apply (sample_reads _ [] [])..|constructor].
Qed.

Lemma writePrometheusMetrics_reads ms : ∃ names blocks,
  NoDup names ∧ Sorted bytes_le names ∧ (∀ n, n ∈ names ↔ n ∈ metric_name <$> ms) ∧
  Forall2 (block_of IsInf FormatFloat ms) names blocks ∧
  Forall2 reads (writePrometheusMetrics IsInf FormatFloat ms) (concat blocks).
Proof.
  unfold writePrometheusMetrics. pose proof (groups_all ms) as Hg.
  destruct (foldl group_add (∅, []) ms) as [groups order]. destruct Hg as [Hnd Hdom Hgr].
  set (names := merge_sort bytes_le order).
  assert (Hnames : ∀ n, n ∈ names ↔ n ∈ metric_name <$> ms)
    by (intros n; rewrite <-Hdom; unfold names; by rewrite merge_sort_Permutation).
  assert (Hex : ∃ blocks, Forall2 (block_of IsInf FormatFloat ms) names blocks ∧
    Forall2 reads (names ≫= λ name, match groups !! name with Some g => write_group IsInf FormatFloat g | None => [] end)
      (concat blocks)).
  { assert (Hsub : ∀ n, n ∈ names → n ∈ metric_name <$> ms) by (intros; by apply Hnames). clearbody names.
    clear Hnames. induction names as [|n names IH]; [exists []; by split|].
    destruct IH as (blocks & Hb & Hr); [intros k Hk; by apply Hsub, list_elem_of_further|].
    destruct (proj2 (group_of_dom ms n)) as [g Hg]; [apply Hsub, list_elem_of_here|].
    destruct (write_group_reads ms n g Hg) as (items & Hi & Hri). exists (items :: blocks).
    split; [by constructor|]. rewrite bind_cons, Hgr, Hg. cbn [concat]. by apply Forall2_app. }
  destruct Hex as (blocks & Hb & Hr). exists names, blocks. split_and!; [|apply (Sorted_merge_sort bytes_le)|done..].
  unfold names. by rewrite merge_sort_Permutation.
Qed.

Lemma concat_omap {A B} (f : A → option B) (ls : list (list A)) : omap f (concat ls) = ls ≫= omap f.
Proof. induction ls as [|l ls IH]; [done|]. cbn [concat]. by rewrite omap_app, IH, bind_cons. Qed.

(** ** Properties *)

(** C40: what is scraped is what was reported, for any bytes in names, labels and
    descriptions. A strict reader of the text format, run on the whole output of
    [WriteMetrics], accepts every line of it and reads: the server's two counters, then one
    block per sanitized metric name, in the order of the names and each name once; a block
    is the help text (the first description given) restored from its escapes, the type of
    the first metric of that name, and the samples of all the metrics of that name, sorted
    by their labels, with the values of the labels restored and histograms as cumulative
    buckets. Together the blocks hold every sample of the metrics exactly once. *)
Theorem metrics_exposition reqs recs (snapshot : option (list metric)) :
  let ms := default [] snapshot in
  ∃ names blocks,
    parse_exposition (concat (WriteMetrics IsInf FormatFloat reqs recs snapshot))
      = Some (yasdb_items reqs recs ++ concat blocks) ∧
    NoDup names ∧ Sorted bytes_le names ∧ (∀ n, n ∈ names ↔ n ∈ metric_name <$> ms) ∧
    Forall2 (block_of IsInf FormatFloat ms) names blocks ∧
    omap item_series (concat blocks) ≡ₚ ms ≫= series_of IsInf FormatFloat.
Proof.
  intros ms. destruct (writePrometheusMetrics_reads ms) as (names & blocks & Hnd & Hs & Hin & Hb & Hr).
  exists names, blocks. split_and!; [|done..|].
  - apply parse_exposition_reads. unfold WriteMetrics. apply Forall2_app; [apply yasdb_reads|].
    by destruct snapshot.
  - rewrite concat_omap. trans ((names ≫= λ n, metrics_named n ms) ≫= series_of IsInf FormatFloat).
    + rewrite bind_bind. clear -Hb. induction Hb as [|n items names blocks Hi _ IH]; [done|].
      rewrite !bind_cons. f_equiv; [by apply block_series|done].
    + f_equiv. apply metrics_partition; [done|]. intros m Hm. apply Hin, list_elem_of_fmap. by exists m.
Qed.

End groups.

(** ** Witness *)

(** A counter whose label and description hold quotes, backslashes and newlines, a histogram,
    and a second counter with the same sanitized name. *)
Module MetricsSample.
Definition float_inf (_ : nat) (_ : bool) : bool := false.
Definition float_str (n : nat) : bytes := FormatUint (Z.of_nat n).
Definition metrics : list (Metric (F := nat)) :=
  [mkMetric [x61; x2e; x62] [x5c; x0a; x61] [mkLabel [x6b] [x22; x5c; x0a]] (MetricValueCounter 7);
   mkMetric [x68] [] [] (MetricValueHistogram (mkHistogram (F:=nat) 3 9%nat [1%nat; 5%nat] [1; 2]));
   mkMetric [x61; x5f; x62] [] [mkLabel [x6b] []] (MetricValueCounter 8)].
Lemma float_token n : token (float_str n).
Proof. apply (dec_digits_token 19). lia. Qed.
End MetricsSample.

Lemma metrics_exposition_witness : ∃ items,
  parse_exposition (concat (WriteMetrics MetricsSample.float_inf MetricsSample.float_str 1 2
    (Some MetricsSample.metrics))) = Some items ∧
  ([x61; x5f; x62], [([x6b], [x22; x5c; x0a])], [x37]) ∈ omap item_series items.
Proof.
  destruct (metrics_exposition MetricsSample.float_inf MetricsSample.float_str MetricsSample.float_token 1 2
    (Some MetricsSample.metrics)) as (names & blocks & E & _ & _ & _ & _ & Hp).
  eexists. split; [exact E|]. rewrite omap_app. apply elem_of_app. right. rewrite Hp.
  apply (bool_decide_unpack _). vm_compute. exact I.
Defined.
