(* ===== verification/Adapter.v ===== *)
(** * The Maelstrom adapter (cmd/maelstrom-adapter/main.go)

    A bridge that serves the Kafka workload of a consistency checker from a running
    server: [send] appends one JSON message over HTTP, [poll] reads from an offset,
    offsets to commit are kept in the process. An offset is a sequence number. Every
    request of the checker is a goroutine, so a request is an [rpc] with its place
    in the code, and one step of it is one HTTP request or one action under a lock.

    Parameters: encoding/json at the two ends (a request is its decoded [reqBody], a
    reply the map before it is encoded), the network (the [delivery] of each HTTP
    request), and what the long-poll loop answers (Live.v) when polls are long
    polls. The supervision of the server as a child process is system calls; that it
    is killed and restarted is an event of AdapterSpec.v. *)

From Stdlib Require Strings.String.
From S2P Require Import Prelude.
From S2P Require Import Bytes.
From S2P Require Import Decimal.
From S2P Require Import Meta.
From S2P Require Import Offset.
From S2P Require Import Storage.
From S2P Require Import Mime.
From S2P Require Import Json.
From S2P Require Import Server.
From S2P Require Import Http.

Module AdapterLiterals.
Import String.
Open Scope string_scope.
Definition mlst : bytes := str "/mlst/".
Definition tInit : bytes := str "init".
Definition tSend : bytes := str "send".
Definition tPoll : bytes := str "poll".
Definition tCommit : bytes := str "commit_offsets".
Definition tList : bytes := str "list_committed_offsets".
End AdapterLiterals.
Export AdapterLiterals.

(** ** Messages *)

Record reqBody : Type := mkReqBody {
  rb_Type : bytes;
  rb_MsgID : Z;
  rb_Key : bytes;
  rb_Msg : bytes;                       (** raw JSON *)
  rb_Offsets : list (bytes * Z);        (** a map, in the order its iteration takes *)
  rb_Keys : list bytes }.

(** The bodies of replies. *)
Inductive replyBody : Type :=
| InitOk
| SendOk (offset : Z)
| PollOk (msgs : gmap bytes (list (Z * bytes)))
| CommitOffsetsOk
| ListOk (offsets : gmap bytes Z)
| ErrorReply (code : Z) (err : error).

Record message : Type := mkMessage {
  m_Src : bytes;
  m_Dest : bytes;
  m_Body : replyBody;
  m_in_reply_to : Z;
  m_msg_id : Z }.

(** ** Offsets *)

(** [fmt.Sprintf("%016d", v)] of a [uint64]: at least 16 digits. *)
Definition fmt_016d (v : Z) : bytes :=
  let d := FormatUint v in replicate (16 - length d) "0"%byte ++ d.

Definition offsetToken (seq : Z) : bytes := fmt_016d seq ++ ["_"%byte] ++ fmt_016d 0.

(** [strings.IndexByte(s, c)] as the bytes before it. *)
Fixpoint before_byte (c : byte) (s : bytes) : option bytes :=
  match s with
  | [] => None
  | x :: r => if decide (x = c) then Some [] else (λ p, x :: p) <$> before_byte c r
  end.

(** The value the adapter's [parseOffset] returns; its error is ignored by the
    caller, and 0 goes with it (a number out of range gives the largest value
    instead; a token of the server has 16 digits). *)
Definition adapter_parseOffset (tok : bytes) : Z :=
  match before_byte "_"%byte tok with
  | None => 0
  | Some s => default 0 (ParseUint s)
  end.

(** ** The client *)

(** What becomes of a request on the network: it is answered, or the connection
    fails before or after the server has taken it. *)
Inductive delivery : Type := Answered | AnswerLost | RequestLost.

(** [json.Unmarshal(body, &arr)] into raw messages. *)
Definition Unmarshal_raw (body : bytes) : result (list bytes) :=
  if decide (bytes_TrimSpace body = json_null) then mret []
  else if decide (head (bytes_TrimSpace body) = Some "["%byte) then json_Unmarshal_array body
  else Err errInvalidJSON.

(** ** Calls *)

(** Where [doSend] is: before its first POST, its PUT, its second POST. *)
Inductive send_pc : Type := SPost | SPut | SRetry.

Inductive rpc_pc : Type :=
| CInit
| CSend (key msg : bytes) (pc : send_pc)
| CPoll (todo : list (bytes * Z)) (out : gmap bytes (list (Z * bytes)))
| CCommit (offsets : list (bytes * Z))
| CList (keys : list bytes)
| CReply (body : replyBody)
| CEnd (replied : option replyBody).    (** over, after this reply *)

(** A goroutine of [handle], with the request it is for. *)
Record rpc : Type := mkRpc {
  cl_src : bytes;
  cl_dest : bytes;
  cl_req : reqBody;
  cl_pc : rpc_pc }.

Definition rpc_goto (pc : rpc_pc) (c : rpc) : rpc :=
  mkRpc (cl_src c) (cl_dest c) (cl_req c) pc.

(** [handle]: the branch its request takes; a type it does not know ends it. *)
Definition handle (src dest : bytes) (b : reqBody) : rpc :=
  mkRpc src dest b
    (if decide (rb_Type b = tInit) then CInit
     else if decide (rb_Type b = tSend) then CSend (rb_Key b) (rb_Msg b) SPost
     else if decide (rb_Type b = tPoll) then CPoll (rb_Offsets b) ∅
     else if decide (rb_Type b = tCommit) then CCommit (rb_Offsets b)
     else if decide (rb_Type b = tList) then CList (rb_Keys b)
     else CEnd None).

(** [replyErr]'s body: code 13. *)
Definition error_body (e : error) : replyBody := ErrorReply 13 e.

(** The loop of [commit_offsets], under [commitMu]. *)
Definition commit_offset (commits : gmap bytes Z) (ko : bytes * Z) : gmap bytes Z :=
  if decide (default 0 (commits !! ko.1) < ko.2) then <[ko.1 := ko.2]> commits else commits.
Definition commit_offsets (commits : gmap bytes Z) (offsets : list (bytes * Z)) : gmap bytes Z :=
  foldl commit_offset commits offsets.

(** The loop of [list_committed_offsets]. *)
Definition list_committed (commits : gmap bytes Z) (keys : list bytes) : gmap bytes Z :=
  foldl (λ out k, match commits !! k with Some v => <[k := v]> out | None => out end) ∅ keys.

(** ** The requests *)

Definition stream_path (key : bytes) : bytes := mlst ++ key.

Section adapter.
  Context {S : Type} `{Storage S}.
  Context (parse_rfc3339 : bytes → option Z) (format_rfc3339 : Z → bytes).
  Context (maxRecordBytes maxReadBytes : Z).
  (** [base]'s host; [readMode = "long-poll"]; the answer of the long-poll loop. *)
  Context (host : bytes) (longPoll : bool).
  Context (readLongPoll : server S → request → StreamMeta → parsedOffset → response).
  Implicit Types (srv : server S).

Definition client_request (method key contentType body : bytes) (query : bytes → list bytes) : request :=
  {| hr_method := method; hr_path := stream_path key;
     hr_header := λ k, if decide (k = hContentType) then contentType else [];
     hr_query := query; hr_body := body; hr_bodyErr := false; hr_host := host; hr_tls := false |}.

Definition client_Do (d : delivery) srv (nowUnix nowMs : Z) (r : request) : server S * result response :=
  match d with
  | RequestLost => (srv, Err errIO)
  | _ =>
      let '(srv, o) := ServeHTTP parse_rfc3339 format_rfc3339 maxRecordBytes maxReadBytes srv nowUnix nowMs r in
      match d, o with
      | Answered, Some (GetDone resp) => (srv, Ok resp)
      | Answered, Some (GetLive _ meta po) => (srv, Ok (readLongPoll srv r meta po))
      | _, _ => (srv, Err errIO)
      end
  end.

(** [(nextSeq, status)]. *)
Definition postJSON (d : delivery) srv (nowUnix nowMs : Z) (key msg : bytes) : server S * result (Z * Z) :=
  let '(srv, r) := client_Do d srv nowUnix nowMs (client_request mPOST key contentTypeJSON msg (λ _, [])) in
  (srv, resp ← r;
        if decide (hp_status resp = 404) then mret (0, 404)
        else mret (adapter_parseOffset (default [] (hp_header resp !! hStreamNext)), hp_status resp)).

Definition putStream (d : delivery) srv (nowUnix nowMs : Z) (key : bytes) : server S * option error :=
  let '(srv, r) := client_Do d srv nowUnix nowMs (client_request mPUT key contentTypeJSON [] (λ _, [])) in
  (srv, match r with
        | Err e => Some e
        | Ok resp => if decide (hp_status resp ≠ 201 ∧ hp_status resp ≠ 200)
                     then Some (errAppendFailed (hp_status resp)) else None
        end).

Definition poll_query (off : Z) (k : bytes) : list bytes :=
  if decide (k = qOffset) then [offsetToken (u64 off)]
  else if decide (k = qLive ∧ longPoll = true) then [long_poll] else [].

Definition getBody (d : delivery) srv (nowUnix nowMs : Z) (key : bytes) (off : Z) : server S * result (bytes * Z) :=
  let '(srv, r) := client_Do d srv nowUnix nowMs (client_request mGET key [] [] (poll_query off)) in
  (srv, resp ← r; mret (hp_body resp, hp_status resp)).

(** ** [doSend] and [doPoll], one HTTP request at a time *)

(** The end of [doSend]: [Stream-Next-Offset] is the tail after the append. *)
Definition send_finish (nextOff status : Z) : rpc_pc :=
  CReply (if decide (status ≠ 204 ∧ status ≠ 200) then error_body (errAppendFailed status)
          else SendOk (i64 (i64 nextOff - 1))).

Definition doSend (d : delivery) srv (nowUnix nowMs : Z) (key msg : bytes) (pc : send_pc)
  : server S * rpc_pc :=
  match pc with
  | SPost =>
      let '(srv, r) := postJSON d srv nowUnix nowMs key msg in
      (srv, match r with
            | Err e => CReply (error_body e)
            | Ok (nextOff, status) =>
                if decide (status = 404) then CSend key msg SPut else send_finish nextOff status
            end)
  | SPut =>
      let '(srv, err) := putStream d srv nowUnix nowMs key in
      (srv, match err with Some e => CReply (error_body e) | None => CSend key msg SRetry end)
  | SRetry =>
      let '(srv, r) := postJSON d srv nowUnix nowMs key msg in
      (srv, match r with
            | Err e => CReply (error_body e)
            | Ok (nextOff, status) => send_finish nextOff status
            end)
  end.

(** Messages with their offsets. *)
Definition poll_pairs (off : Z) (arr : list bytes) : list (Z * bytes) :=
  imap (λ j raw, (i64 (off + Z.of_nat j), raw)) arr.

Definition doPoll (d : delivery) srv (nowUnix nowMs : Z) (todo : list (bytes * Z))
    (out : gmap bytes (list (Z * bytes))) : server S * rpc_pc :=
  match todo with
  | [] => (srv, CReply (PollOk out))
  | (key, off) :: todo =>
      let '(srv, r) := getBody d srv nowUnix nowMs key off in
      (srv, match r with
            | Err e => CReply (error_body e)
            | Ok (body, status) =>
                if decide (status = 404 ∨ status = 204) then CPoll todo out
                else if decide (status ≠ 200) then CReply (error_body (errAppendFailed status))
                else match Unmarshal_raw body with
                     | Err e => CReply (error_body e)
                     | Ok arr =>
                         let pairs := poll_pairs off arr in
                         CPoll todo (if decide (0 < length pairs)%nat then <[key := pairs]> out else out)
                     end
            end)
  end.

(** ** The process *)

(** The shared state of the goroutines. *)
Record adapter : Type := mkAdapter {
  ad_calls : list rpc;
  ad_commits : gmap bytes Z;
  ad_nextID : Z;
  ad_out : list message }.

(** One action of a goroutine. [reply] takes an id and [send] writes a line: two
    replies are never mixed up. *)
Definition rpc_step (d : delivery) (nowUnix nowMs : Z) srv (ad : adapter) (i : nat)
  : option (server S * adapter) :=
  c ← ad_calls ad !! i;
  let goto pc := <[i := rpc_goto pc c]> (ad_calls ad) in
  let on srv pc := Some (srv, mkAdapter (goto pc) (ad_commits ad) (ad_nextID ad) (ad_out ad)) in
  match cl_pc c with
  | CInit => on srv (CReply InitOk)
  | CSend key msg pc => let '(srv, pc) := doSend d srv nowUnix nowMs key msg pc in on srv pc
  | CPoll todo out => let '(srv, pc) := doPoll d srv nowUnix nowMs todo out in on srv pc
  | CCommit offsets =>
      Some (srv, mkAdapter (goto (CReply CommitOffsetsOk)) (commit_offsets (ad_commits ad) offsets)
                   (ad_nextID ad) (ad_out ad))
  | CList keys => on srv (CReply (ListOk (list_committed (ad_commits ad) keys)))
  | CReply body =>
      let id := i64 (ad_nextID ad + 1) in
      Some (srv, mkAdapter (goto (CEnd (Some body))) (ad_commits ad) id
                   (ad_out ad ++ [mkMessage (cl_dest c) (cl_src c) body (rb_MsgID (cl_req c)) id]))
  | CEnd _ => None
  end.

(** [main]: a line read from the checker starts a goroutine. *)
Definition arrive (src dest : bytes) (b : reqBody) (ad : adapter) : adapter :=
  mkAdapter (ad_calls ad ++ [handle src dest b]) (ad_commits ad) (ad_nextID ad) (ad_out ad).

End adapter.
