(* ===== verification/AdapterSpec.v ===== *)
(** * The Kafka workload over the whole server

    What a consistency checker may conclude from the adapter's replies: there is one
    log per key, every acknowledged send is in it at the offset of its reply, no two
    at the same, every poll shows a piece of it, and it only grows; whatever the
    interleaving of the requests, whichever answers the network loses, and however
    often the server is killed and started again. From the HTTP client down to the
    store every layer of the model is in it. *)

From S2P Require Import Prelude.
From S2P Require Import Bytes.
From S2P Require Import Decimal.
From S2P Require Import Meta.
From S2P Require Import Offset.
From S2P Require Import Storage.
From S2P Require Import Mime.
From S2P Require Import Read.
From S2P Require Import Json.
From S2P Require Import Streamer.
From S2P Require Import StreamSpec.
From S2P Require Import StreamerRefine.
From S2P Require Import Deleter.
From S2P Require Import Server.
From S2P Require Import Expiry.
From S2P Require Import Fork.
From S2P Require Import Public.
From S2P Require Import Catalog.
From S2P Require Import Lifecycle.
From S2P Require Import ForkSpec.
From S2P Require Import PublicSpec.
From S2P Require Import Http.
From S2P Require Import HttpSpec.
From S2P Require Import System.
From S2P Require Import Adapter.

(** ** Offsets *)

Lemma zeros_value n s : dec_value (replicate n "0"%byte ++ s) = dec_value s.
Proof.
  induction n as [|n IH]; [done|]. cbn [replicate app]. rewrite <-IH. unfold dec_value. cbn [foldl].
  by replace (0 * 10 + digit_val "0"%byte) with 0 by (vm_compute; reflexivity).
Qed.

Lemma zeros_digits n s : Forall is_digit s → Forall is_digit (replicate n "0"%byte ++ s).
Proof.
  intros Hs. rewrite Forall_app. split; [|done]. apply Forall_replicate. vm_compute. split; discriminate.
Qed.

Lemma fmt_016d_length v : is_u64 v →
  (v < 10^16 → (length (FormatUint v) ≤ 16)%nat) ∧ (10^16 ≤ v → (16 < length (FormatUint v))%nat).
Proof.
  intros Hv. destruct (FormatUint_spec v Hv) as [Hc Hval]. split; intros Hlt.
  - destruct (decide (length (FormatUint v) ≤ 16)%nat); [done|exfalso].
    pose proof (canonical_pos _ Hc ltac:(lia)) as Hp. rewrite Hval in Hp.
    assert (10^16 ≤ 10 ^ (len (FormatUint v) - 1)) by (apply Z.pow_le_mono_r; lia). lia.
  - destruct (decide (16 < length (FormatUint v))%nat); [done|exfalso].
    destruct Hc as (_ & Hd & _). pose proof (dec_value_bound _ Hd) as [_ Hb]. rewrite Hval in Hb.
    assert (10 ^ len (FormatUint v) ≤ 10^16) by (apply Z.pow_le_mono_r; lia). lia.
Qed.

Lemma fmt_016d_small v : 0 ≤ v < 10^16 → fmt_016d v = pad16 v.
Proof.
  intros Hv. assert (Hu : is_u64 v) by (unfold is_u64; lia).
  destruct (FormatUint_spec v Hu) as [(Hne & Hd & Hz) Hval].
  destruct (fmt_016d_length v Hu) as [Hl _]. specialize (Hl ltac:(lia)).
  destruct (pad16_spec v) as (Hpl & Hpd & Hpv); [lia|]. unfold fmt_016d.
  apply dec_value_inj; [by apply zeros_digits|done| |].
  - rewrite length_app, length_replicate. lia.
  - rewrite zeros_value, Hval, Hpv. symmetry. by apply Z.mod_small.
Qed.

Lemma offsetToken_small v : 0 ≤ v < 10^16 → offsetToken v = offset_String (tailOffset v).
Proof. intros Hv. unfold offsetToken. rewrite !fmt_016d_small by lia. by rewrite offset_String_layout. Qed.

(** The token of an offset of the checker denotes that offset, or is refused. *)
Lemma offsetToken_parse o : is_i64 o →
  offsetToken (u64 o) ≠ [] ∧
  ((0 ≤ o < 10^16 ∧ parseOffset (offsetToken (u64 o)) = Ok {| off := tailOffset o; isNow := false |}) ∨
   parseOffset (offsetToken (u64 o)) = Err errBadOffset).
Proof.
  intros Ho. assert (Hl : (17 ≤ length (offsetToken (u64 o)))%nat).
  { unfold offsetToken. rewrite (fmt_016d_small 0), !length_app by lia.
    destruct (pad16_spec 0) as [-> _]; [lia|]. simpl. lia. }
  split; [intros E; rewrite E in Hl; simpl in Hl; lia|].
  destruct (decide (0 ≤ o < 10^16)) as [Hs|Hs].
  - left. split; [done|]. rewrite u64_small by (unfold is_u64; lia). rewrite offsetToken_small by done.
    apply parseOffset_String. split; simpl; lia.
  - right. assert (Hb : (33 < length (offsetToken (u64 o)))%nat).
    { assert (Hge : 10^16 ≤ u64 o).
      { unfold is_i64 in Ho. destruct (decide (0 ≤ o)); [rewrite u64_small; unfold is_u64; lia|].
        unfold u64. replace o with (o + 2^64 + (-1) * 2^64) by lia.
        rewrite Z_mod_plus_full, Z.mod_small; lia. }
      destruct (fmt_016d_length (u64 o) (u64_range o)) as [_ Hlen]. specialize (Hlen Hge).
      unfold offsetToken. rewrite (fmt_016d_small 0), !length_app by lia.
      destruct (pad16_spec 0) as [-> _]; [lia|]. unfold fmt_016d. rewrite length_app. simpl. lia. }
    unfold parseOffset. rewrite decide_False, decide_False, decide_True; [done|left; unfold offsetTokenLen; lia|..].
    + intros E. rewrite E in Hb. vm_compute in Hb. lia.
    + intros [E|E]; rewrite E in Hb; vm_compute in Hb; lia.
Qed.

(** What [doSend] reads from a header of the server. *)
Lemma adapter_parseOffset_String n : 0 ≤ n < 10^16 → adapter_parseOffset (offset_String (tailOffset n)) = n.
Proof.
  intros Hn. rewrite offset_String_layout. cbn [Seq tailOffset app].
  destruct (pad16_spec n) as (_ & Hd & _); [lia|].
  assert (Hb : ∀ s r, Forall is_digit s → before_byte "_"%byte (s ++ "_"%byte :: r) = Some s).
  { induction 1 as [|c s Hc _ IH]; cbn [app before_byte]; [by rewrite decide_True|].
    rewrite decide_False; [by rewrite IH|]. intros ->. destruct Hc as [_ Hc]. by apply Hc. }
  unfold adapter_parseOffset. rewrite Hb by done. rewrite ParseUint_pad16, Z.mod_small by lia. done.
Qed.

(** ** The logs *)

(** A stream of the adapter: JSON, no TTL, not a fork, open, in use. *)
Record log_entry (e : entry) : Prop := {
  le_type : ContentType (e_meta e) = contentTypeJSON;
  le_ttl : TTLSeconds (e_meta e) = 0;
  le_root : e_source e = 0;
  le_base : a_base (e_state e) = 0;
  le_open : a_closed (e_state e) = false;
  le_used : e_gone e = false;
  le_elements : Forall element (a_log (e_state e)) }.

Definition logs_ok (C : catalog) : Prop := ∀ key e, C !! stream_path key = Some e → log_entry e.

Definition log_of (C : catalog) (key : bytes) : list bytes :=
  match C !! stream_path key with Some e => a_log (e_state e) | None => [] end.

#[global] Instance stream_path_inj : Inj (=) (=) stream_path.
Proof. intros a b E. unfold stream_path in E. by apply app_inv_head in E. Qed.

(** A message that can be stored and read back: nested at most 9,999 levels deep. *)
Definition message_ok (msg : bytes) : Prop := ∀ recs, flattenJSON msg = Ok recs → Forall element recs.

Definition times_ok (nowUnix nowMs : Z) : Prop := 0 ≤ nowUnix < 2^63 ∧ is_i64 nowMs.

(** What an append does to a catalogue. *)
Definition appended (key : bytes) (recs : list bytes) (C C' : catalog) : Prop :=
  ∃ e e', C !! stream_path key = Some e ∧ C' = <[stream_path key := e']> C ∧ log_entry e' ∧
    a_log (e_state e') = a_log (e_state e) ++ recs.

Lemma appended_logs key recs C C' : logs_ok C → appended key recs C C' →
  logs_ok C' ∧ log_of C' key = log_of C key ++ recs ∧ ∀ k, k ≠ key → log_of C' k = log_of C k.
Proof.
  intros HC (e & e' & Hp & -> & He & Hl). split_and!.
  - intros k f [[_ <-]|[_ Hf]]%lookup_insert_Some; [done|by apply (HC k)].
  - unfold log_of. by rewrite lookup_insert_eq, Hp.
  - intros k Hk. unfold log_of. rewrite lookup_insert_ne; [done|]. by intros ?%(inj stream_path).
Qed.

Section requests.
  Context {S : Type} `{StorageLaws S}.
  Context (parse_rfc3339 : bytes → option Z) (format_rfc3339 : Z → bytes).
  Context (maxRecordBytes maxReadBytes : Z) (host : bytes).
  Context (readLongPoll : server S → request → StreamMeta → parsedOffset → response).
  Context (R : gmap Z phase).
  Implicit Types (srv : server S) (C : catalog) (d : delivery).

Abbreviation serve := (ServeHTTP parse_rfc3339 format_rfc3339 maxRecordBytes maxReadBytes).
Abbreviation client_Do := (client_Do parse_rfc3339 format_rfc3339 maxRecordBytes maxReadBytes readLongPoll).
Abbreviation postJSON := (postJSON parse_rfc3339 format_rfc3339 maxRecordBytes maxReadBytes host readLongPoll).
Abbreviation putStream := (putStream parse_rfc3339 format_rfc3339 maxRecordBytes maxReadBytes host readLongPoll).
Abbreviation getBody := (getBody parse_rfc3339 format_rfc3339 maxRecordBytes maxReadBytes host false readLongPoll).

(** *** Routing *)

Definition served (p : server S * response) : server S * option getOutcome := (p.1, Some (GetDone p.2)).

Lemma not_admin key : stream_path key ≠ adminStreamsPath.
Proof. intros E. apply (f_equal (λ s, s !! 1%nat)) in E. vm_compute in E. discriminate E. Qed.

Lemma not_reserved key : isReservedPath (stream_path key) = false.
Proof. vm_compute. reflexivity. Qed.

Lemma serve_post srv nowUnix nowMs key ct body q :
  let r := client_request host mPOST key ct body q in
  serve srv nowUnix nowMs r
  = served (handlePost maxRecordBytes srv nowUnix r (setSecurityHeaders ∅) (stream_path key)).
Proof.
  cbn zeta. unfold ServeHTTP. cbn [hr_method hr_path client_request].
  rewrite decide_False, decide_False, not_reserved by (apply not_admin || (intros E; vm_compute in E; discriminate E)).
  rewrite decide_False, decide_True by (done || (intros E; vm_compute in E; discriminate E)).
  unfold served. by destruct (handlePost _ _ _ _ _ _).
Qed.

Lemma serve_put srv nowUnix nowMs key ct body q :
  let r := client_request host mPUT key ct body q in
  serve srv nowUnix nowMs r
  = served (handlePut parse_rfc3339 maxRecordBytes srv nowUnix nowMs r (setSecurityHeaders ∅) (stream_path key)).
Proof.
  cbn zeta. unfold ServeHTTP. cbn [hr_method hr_path client_request].
  rewrite decide_False, decide_False, not_reserved by (apply not_admin || (intros E; vm_compute in E; discriminate E)).
  rewrite decide_True by done. unfold served. by destruct (handlePut _ _ _ _ _ _ _ _).
Qed.

Lemma serve_get srv nowUnix nowMs key ct body q :
  let r := client_request host mGET key ct body q in
  serve srv nowUnix nowMs r
  = let '(srv, o) := handleGet maxReadBytes srv r (setSecurityHeaders ∅) (stream_path key) in (srv, Some o).
Proof.
  cbn zeta. unfold ServeHTTP. cbn [hr_method hr_path client_request].
  rewrite decide_False, decide_False, not_reserved by (apply not_admin || (intros E; vm_compute in E; discriminate E)).
  rewrite decide_False, decide_False, decide_True by (done || (intros E; vm_compute in E; discriminate E)). done.
Qed.

(** A request that is not a live read, on the network. *)
Lemma client_Do_served d srv nowUnix nowMs r p :
  serve srv nowUnix nowMs r = served p →
  client_Do d srv nowUnix nowMs r
  = match d with
    | RequestLost => (srv, Err errIO)
    | AnswerLost => (p.1, Err errIO)
    | Answered => (p.1, Ok p.2)
    end.
Proof. intros E. unfold Adapter.client_Do. rewrite E. by destruct d. Qed.

(** *** Appends *)

Lemma http_Error_status h m c : hp_status (http_Error h m c) = c.
Proof. done. Qed.

(** The specification's append of a JSON message. *)
Lemma spec_post e nowUnix r msg recs :
  log_entry e → hr_header r hContentType = contentTypeJSON → headerTrue (hr_header r hStreamClosed) = false →
  hr_header r hStreamSeq = [] → msg ≠ [] →
  ∃ a', spec_append (ContentType (e_meta e)) (TTLSeconds (e_meta e)) nowUnix (e_state e)
          (post_req r msg None recs) = (a', resp_tail 204 (a_tail a') false None None) ∧
        a_base a' = a_base (e_state e) ∧ a_log a' = a_log (e_state e) ++ recs ∧ a_closed a' = false.
Proof.
  intros [Hct _ _ _ Hopen _ _] Hr Hc Hseq Hmsg. unfold spec_append, spec_effect, post_req.
  cbn [rq_hasBody rq_contentType rq_streamSeq rq_producer spec_producer].
  unfold spec_producer. cbn [rq_producer]. rewrite Hopen, Hct, Hr, Hc, Hseq.
  rewrite (bool_decide_eq_true_2 (msg ≠ [])) by done.
  assert (contentTypeMatches contentTypeJSON contentTypeJSON = true) as -> by (vm_compute; reflexivity).
  cbn [andb negb headerPtr]. unfold headerPtr. rewrite decide_True by done. eexists. split.
  - unfold spec_ack. cbn [rq_producer]. rewrite decide_False by (intros [[? [=]] _]).
    cbn [spec_accept a_closed rq_closeStream]. by rewrite Hopen.
  - split_and!; [done..|]. cbn [spec_accept a_closed rq_closeStream]. by rewrite Hopen.
Qed.

Lemma handlePost_log srv C nowUnix nowMs key msg :
  server_ok R srv C → logs_ok C → message_ok msg → times_ok nowUnix nowMs →
  (∀ recs, flattenJSON msg = Ok recs → len (log_of C key) + len recs < 10^16) →
  let p := handlePost maxRecordBytes srv nowUnix (client_request host mPOST key contentTypeJSON msg (λ _, []))
             (setSecurityHeaders ∅) (stream_path key) in
  (server_ok R p.1 C ∧ hp_status p.2 ≠ 204 ∧ hp_status p.2 ≠ 200) ∨
  ∃ recs C', flattenJSON msg = Ok recs ∧ appended key recs C C' ∧ server_ok R p.1 C' ∧
    hp_status p.2 = 204 ∧ hp_header p.2 !! hStreamNext = Some (offset_String (tailOffset (len (log_of C' key)))).
Proof.
  intros Hs HC Hmsg [Hnow Hms] Hroom. cbn zeta. set (r := client_request _ _ _ _ _ _).
  assert (Hchecks : post_checks maxRecordBytes r =
    if decide (maxRecordBytes < len msg) then inl (eTooLarge, 413)
    else if decide (msg = []) then inl (eEmptyBody, 400) else inr (msg, None)).
  { unfold post_checks, readBody. assert (parseProducer r = inr None) as -> by (vm_compute; reflexivity).
    cbn [hr_body hr_bodyErr r client_request]. case_decide; [done|].
    assert (headerTrue (hr_header r hStreamClosed) = false) as -> by (vm_compute; reflexivity).
    destruct (decide (msg = [])) as [->|Hne]; [by rewrite decide_True|].
    rewrite decide_False by tauto. rewrite decide_False; [done|]. intros [_ E]. vm_compute in E. discriminate E. }
  assert (Hrecords : ∀ e, log_entry e → msg ≠ [] → post_records e (hr_header r hContentType) msg =
    match flattenJSON msg with Ok recs => inr recs | Err errEmptyArray => inl eEmptyArray | Err _ => inl eInvalidJSON end).
  { intros e He Hne. unfold post_records. rewrite (le_type _ He), (le_open _ He).
    rewrite decide_True by (split_and!; [done|done|vm_compute; reflexivity]).
    by assert (isJSONStream contentTypeJSON = true) as -> by (vm_compute; reflexivity). }
  assert (Hpr : post_room maxRecordBytes C nowUnix r (stream_path key)).
  { intros e body producer recs Hp Hck Hrec. rewrite Hchecks in Hck.
    destruct (decide (maxRecordBytes < len msg)); [done|]. destruct (decide (msg = [])) as [|Hne]; [done|].
    injection Hck as <- <-. pose proof (HC key e Hp) as He. rewrite Hrecords in Hrec by done.
    destruct (flattenJSON msg) as [recs'|err] eqn:E; [|by destruct err]. injection Hrec as ->.
    specialize (Hroom recs eq_refl). unfold log_of in Hroom. rewrite Hp in Hroom.
    unfold a_tail. rewrite (le_base _ He), (le_ttl _ He). unfold is_i64, ttl_in_range. lia. }
  pose proof (handlePost_ok R maxRecordBytes srv C nowUnix r (setSecurityHeaders ∅) (stream_path key) Hs Hpr) as Hc.
  destruct (handlePost _ _ _ _ _ _) as [srv' resp]. cbn [fst snd]. rewrite Hchecks in Hc.
  destruct (decide (maxRecordBytes < len msg)); [left; by destruct Hc as [-> ->]|].
  destruct (decide (msg = [])) as [|Hne]; [left; by destruct Hc as [-> ->]|].
  destruct (C !! stream_path key) as [e|] eqn:Hp; [|left; by destruct Hc as [? ->]].
  pose proof (HC key e Hp) as He. rewrite (le_used _ He), Hrecords in Hc by done.
  destruct (flattenJSON msg) as [recs|err] eqn:E; [|left; destruct err; by destruct Hc as [? ->]].
  destruct (spec_post e nowUnix r msg recs He) as (a' & Ea & Hb & Hl & Ho);
    [vm_compute; reflexivity..|done|]. rewrite Ea in Hc. cbn [fst snd] in Hc. destruct Hc as [Hs' ->].
  right. exists recs, (<[stream_path key := with_state e a']> C).
  assert (Happ : appended key recs C (<[stream_path key := with_state e a']> C)).
  { exists e, (with_state e a'). split_and!; [done|done| |done]. destruct He as [? ? ? Hb0 ? ? Hel].
    split; simpl; [done..|congruence|done|done|]. rewrite Hl, Forall_app. split; [done|by apply Hmsg]. }
  split_and!; [done|done|done|done|].
  unfold log_of. rewrite lookup_insert_eq. cbn [e_state with_state].
  unfold writeAppendResponse. cbn [rs_status resp_tail]. rewrite decide_True by auto.
  cbn [hp_header reply rs_closed rs_producerEpoch rs_producerSeq rs_nextOffset resp_tail set_if set_uint].
  rewrite lookup_insert_eq. unfold a_tail. by rewrite Hb, (le_base _ He).
Qed.

Lemma postJSON_ok d srv C nowUnix nowMs key msg :
  server_ok R srv C → logs_ok C → message_ok msg → times_ok nowUnix nowMs →
  (∀ recs, flattenJSON msg = Ok recs → len (log_of C key) + len recs < 10^16) →
  let p := postJSON d srv nowUnix nowMs key msg in
  (server_ok R p.1 C ∧ ∀ T st, p.2 = Ok (T, st) → st ≠ 204 ∧ st ≠ 200) ∨
  ∃ recs C', flattenJSON msg = Ok recs ∧ appended key recs C C' ∧ server_ok R p.1 C' ∧
    ∀ T st, p.2 = Ok (T, st) → st = 204 ∧ T = len (log_of C' key).
Proof.
  intros Hs HC Hmsg Ht Hroom. cbn zeta. unfold Adapter.postJSON.
  rewrite (client_Do_served _ _ _ _ _ _ (serve_post srv nowUnix nowMs key contentTypeJSON msg (λ _, []))).
  pose proof (handlePost_log srv C nowUnix nowMs key msg Hs HC Hmsg Ht Hroom) as Hc. cbn zeta in Hc.
  destruct (handlePost _ _ _ _ _ _) as [srv' resp]. cbn [fst snd] in Hc.
  destruct d; cbn [fst snd mbind result_bind].
  - destruct Hc as [(Hs' & H4 & H0')|(recs & C' & Hf & Ha & Hs' & Hst & Hh)].
    + left. split; [done|]. intros T st. case_decide; intros [= <- <-]; done.
    + right. exists recs, C'. split_and!; [done..|]. intros T st. rewrite Hst, decide_False by done.
      intros [= <- <-]. split; [done|]. rewrite Hh. cbn [from_option id].
      apply adapter_parseOffset_String. destruct (appended_logs _ _ _ _ HC Ha) as (_ & -> & _).
      rewrite length_app. specialize (Hroom recs Hf). lia.
  - destruct Hc as [(Hs' & _)|(recs & C' & Hf & Ha & Hs' & _)]; [left|right; exists recs, C'; split_and!; [done..|]];
      (split; [done|]) || idtac; intros; done.
  - left. by split.
Qed.

(** *** Creation *)

Definition same_logs C C' : Prop := ∀ key, log_of C' key = log_of C key.

Lemma handlePut_log srv C nowUnix nowMs key :
  server_ok R srv C → logs_ok C → times_ok nowUnix nowMs → srv_nextID srv + 1 < 2^64 →
  let p := handlePut parse_rfc3339 maxRecordBytes srv nowUnix nowMs
             (client_request host mPUT key contentTypeJSON [] (λ _, [])) (setSecurityHeaders ∅) (stream_path key) in
  ∃ C', server_ok R p.1 C' ∧ logs_ok C' ∧ same_logs C C'.
Proof.
  intros Hs HC [Hnow Hms] Hn. cbn zeta. set (r := client_request _ _ _ _ _ _). unfold handlePut.
  assert (parseExpiry parse_rfc3339 r = Some (0, false, 0, false)) as -> by (vm_compute; reflexivity).
  assert (hr_header r hForkedFrom = []) as -> by (vm_compute; reflexivity).
  assert (hr_header r hForkSubOffset = []) as -> by (vm_compute; reflexivity).
  assert (headerTrue (hr_header r hStreamClosed) = false) as -> by (vm_compute; reflexivity).
  assert (hr_header r hContentType = contentTypeJSON) as -> by (vm_compute; reflexivity).
  rewrite decide_False by tauto. unfold readBody. cbn [hr_body hr_bodyErr r client_request].
  case_decide; [by exists C|]. rewrite decide_False by (intros X; by apply X).
  rewrite (decide_False (P := contentTypeJSON = [])) by (intros E; vm_compute in E; discriminate E).
  set (cp := mkCreateParams _ _ _ _ _ _ _ _).
  assert (Hrec : createRecords (cp_contentType cp) (cp_body cp) = inr []) by (vm_compute; reflexivity).
  assert (Hw : create_wf srv nowUnix nowMs cp).
  { split; [|done|done|by vm_compute|done|].
    - split; [unfold is_i64; lia|done].
    - rewrite Hrec. intros rs [= <-]. done. }
  pose proof (createStream_ok R srv C nowUnix nowMs cp Hs Hw) as Hc.
  destruct (createStream srv nowUnix nowMs cp) as [srv' res]. cbn [fst].
  change (cp_path cp) with (stream_path key) in Hc. destruct (C !! stream_path key) as [e|] eqn:Hp.
  { destruct Hc as [-> _]. by exists C. }
  rewrite Hrec in Hc. destruct Hc as (Hs' & _). eexists. split_and!; [exact Hs'|..].
  - intros k f [[E <-]|[_ Hf]]%lookup_insert_Some; [|by apply (HC k)]. by repeat constructor.
  - intros k. unfold log_of. destruct (decide (k = key)) as [->|Hk]; [by rewrite lookup_insert_eq, Hp|].
    rewrite lookup_insert_ne; [done|]. by intros ?%(inj stream_path).
Qed.

Lemma putStream_ok d srv C nowUnix nowMs key :
  server_ok R srv C → logs_ok C → times_ok nowUnix nowMs → srv_nextID srv + 1 < 2^64 →
  ∃ C', server_ok R (putStream d srv nowUnix nowMs key).1 C' ∧ logs_ok C' ∧ same_logs C C'.
Proof.
  intros Hs HC Ht Hn. unfold Adapter.putStream.
  rewrite (client_Do_served _ _ _ _ _ _ (serve_put srv nowUnix nowMs key contentTypeJSON [] (λ _, []))).
  pose proof (handlePut_log srv C nowUnix nowMs key Hs HC Ht Hn) as (C' & Hs' & Hl & Hsame).
  destruct d; [by exists C'..|by exists C].
Qed.

(** *** Polls *)

(** What a poll from [o] was given. *)
Definition piece C (key : bytes) (o : Z) (arr : list bytes) : Prop :=
  ∀ j v, arr !! j = Some v → 0 ≤ o < 10^16 ∧ o + Z.of_nat j < 2^63 ∧
    log_of C key !! Z.to_nat (o + Z.of_nat j) = Some v.

Lemma payloads_piece C key e o n :
  C !! stream_path key = Some e → log_entry e → 0 ≤ o < 10^16 → a_tail (e_state e) < 2^63 →
  (n = o ∨ o < n ≤ a_tail (e_state e)) → piece C key o (payloads (content (e_state e)) o n) ∧
  Forall element (payloads (content (e_state e)) o n).
Proof.
  intros Hp He Ho Ht Hn. pose proof He as [_ _ _ Hb _ _ Hel]. unfold a_tail in *. rewrite Hb in *.
  assert (Hlk : ∀ j v, payloads (content (e_state e)) o n !! j = Some v →
    o + Z.of_nat j < n ∧ a_log (e_state e) !! Z.to_nat (o + Z.of_nat j) = Some v).
  { intros j v Hj. unfold payloads in Hj. apply list_lookup_fmap_Some in Hj as (i & -> & Hi).
    apply lookup_seqZ in Hi as [-> Hi]. split; [lia|]. unfold content. rewrite Hb, Z.sub_0_r.
    destruct (lookup_lt_is_Some_2 (a_log (e_state e)) (Z.to_nat (o + Z.of_nat j))) as [v' Hv]; [lia|].
    by rewrite Hv. }
  split.
  - intros j v Hj. apply Hlk in Hj as [? Hv]. split_and!; [lia|lia|lia|]. unfold log_of. by rewrite Hp.
  - apply Forall_lookup. intros j v Hj. apply Hlk in Hj as [_ Hv]. by apply (Forall_lookup_1 _ _ _ _ Hel Hv).
Qed.

Lemma Unmarshal_raw_wrap ms : Forall element ms → Unmarshal_raw (wrapJSONArray ms) = Ok ms.
Proof.
  intros Hms. unfold Unmarshal_raw. destruct Hms as [|m ms Hm Hms]; [vm_compute; reflexivity|].
  rewrite wrapJSONArray_cons, TrimSpace_brackets. rewrite decide_False by (intros E; vm_compute in E; discriminate E).
  rewrite decide_True by done. rewrite <-wrapJSONArray_cons. by apply Unmarshal_wrap.
Qed.

Lemma getBody_ok d srv C nowUnix nowMs key o :
  0 ≤ maxReadBytes → server_ok R srv C → logs_ok C → is_i64 o →
  let p := getBody d srv nowUnix nowMs key o in
  p.1 = srv ∧ ∀ body, p.2 = Ok (body, 200) → ∃ arr, Unmarshal_raw body = Ok arr ∧ piece C key o arr.
Proof.
  intros Hmax Hs HC Ho. cbn zeta. unfold Adapter.getBody, Adapter.client_Do. rewrite serve_get.
  set (r := client_request _ _ _ _ _ _). destruct (offsetToken_parse o Ho) as [Hne Hparse].
  assert (Hq : hr_query r qOffset = [offsetToken (u64 o)]).
  { unfold r. cbn [hr_query client_request poll_query]. unfold poll_query. by rewrite decide_True. }
  assert (Hlv : hr_query r qLive = []) by (vm_compute; reflexivity).
  destruct Hparse as [[Hsm Hpo]|Hpo].
  2:{ rewrite (handleGet_malformed _ _ _ _ _ _ _ Hq Hpo). destruct d; by split. }
  destruct (C !! stream_path key) as [e|] eqn:Hp.
  2:{ rewrite (handleGet_absent R _ _ _ _ _ _ _ _ Hs Hp Hq Hne Hpo). destruct d; by split. }
  pose proof (HC key e Hp) as He. pose proof Hs as [[_ Hcat _ _] _].
  pose proof (eo_bound _ _ _ _ (co_entry _ _ _ _ Hcat _ e Hp)) as Hb.
  assert (Hr : reads C e (content (e_state e))) by (apply reads_root, He).
  destruct (handleGet_ok R maxReadBytes srv C r (setSecurityHeaders ∅) (stream_path key) e _ _ _ Hs Hp
    (le_used _ He) Hr (le_ttl _ He) eq_refl eq_refl Hq Hne Hlv ltac:(vm_compute; reflexivity) Hpo eq_refl
    ltac:(simpl; lia)) as (body & next & utd & hd & -> & E).
  destruct d; (split; [done|]); intros body' Eb; [|discriminate Eb..].
  injection Eb as <-. rewrite (le_type _ He) in E.
  assert (isJSONStream contentTypeJSON = true) as Hj by (vm_compute; reflexivity). rewrite Hj in E.
  apply (readRange_json_read (content (e_state e))) in E; [|apply Hcat|by eapply reads_log_at|simpl; lia|done|lia].
  destruct E as [-> Hrng Hid _ _ _]. cbn [off Seq tailOffset] in *.
  destruct (payloads_piece C key e o (Seq next) Hp He Hsm Hb) as [Hpc Hel].
  { destruct (decide (o < a_tail (e_state e))) as [Hlt|]; [right; by apply Hrng|left].
    by rewrite (Hid ltac:(lia)). }
  exists (payloads (content (e_state e)) o (Seq next)). split; [by apply Unmarshal_raw_wrap|done].
Qed.

(** *** The steps of [doSend] and [doPoll] *)

Abbreviation doSend := (doSend parse_rfc3339 format_rfc3339 maxRecordBytes maxReadBytes host readLongPoll).
Abbreviation doPoll := (doPoll parse_rfc3339 format_rfc3339 maxRecordBytes maxReadBytes host false readLongPoll).

(** The logs with one more append to [key]. *)
Definition extended C C' (key : bytes) (recs : list bytes) : Prop :=
  log_of C' key = log_of C key ++ recs ∧ ∀ k, k ≠ key → log_of C' k = log_of C k.

Inductive send_result C C' (key msg : bytes) : rpc_pc → Prop :=
| send_goes_on pc : same_logs C C' → send_result C C' key msg (CSend key msg pc)
| send_fails e : same_logs C C' → send_result C C' key msg (CReply (error_body e))
| send_unknown recs e : flattenJSON msg = Ok recs → extended C C' key recs →
    send_result C C' key msg (CReply (error_body e))
| send_done recs : flattenJSON msg = Ok recs → extended C C' key recs →
    send_result C C' key msg (CReply (SendOk (len (log_of C' key) - 1))).

Lemma send_finish_done C C' key msg recs T :
  flattenJSON msg = Ok recs → extended C C' key recs → len (log_of C key) + len recs < 10^16 →
  T = len (log_of C' key) → send_result C C' key msg (send_finish T 204).
Proof.
  intros Hf [Hl Hk] Hroom ->. unfold send_finish. rewrite decide_False by lia.
  pose proof (flattenJSON_Ok _ _ Hf) as [Hne _]. assert (0 < length recs)%nat by (destruct recs; [done|simpl; lia]).
  assert (Hlen : 0 < len (log_of C' key) < 10^16) by (rewrite Hl, length_app; lia).
  rewrite (i64_small (len _)) by (unfold is_i64; lia). rewrite i64_small by (unfold is_i64; lia).
  by eapply send_done.
Qed.

Lemma doSend_ok d srv C nowUnix nowMs key msg pc :
  server_ok R srv C → logs_ok C → message_ok msg → times_ok nowUnix nowMs → srv_nextID srv + 1 < 2^64 →
  (∀ recs, flattenJSON msg = Ok recs → len (log_of C key) + len recs < 10^16) →
  let p := doSend d srv nowUnix nowMs key msg pc in
  ∃ C', server_ok R p.1 C' ∧ logs_ok C' ∧ send_result C C' key msg p.2.
Proof.
  intros Hs HC Hmsg Ht Hn Hroom. cbn zeta.
  assert (Hpost : ∃ C', server_ok R (postJSON d srv nowUnix nowMs key msg).1 C' ∧ logs_ok C' ∧
    match (postJSON d srv nowUnix nowMs key msg).2 with
    | Err e => send_result C C' key msg (CReply (error_body e))
    | Ok (T, st) => (st = 404 → same_logs C C') ∧ send_result C C' key msg (send_finish T st)
    end).
  { pose proof (postJSON_ok d srv C nowUnix nowMs key msg Hs HC Hmsg Ht Hroom) as Hc. cbn zeta in Hc.
    destruct (postJSON d srv nowUnix nowMs key msg) as [srv' r]. cbn [fst snd] in *.
    destruct Hc as [[Hs' Hr]|(recs & C' & Hf & Ha & Hs' & Hr)].
    - exists C. split_and!; [done..|]. destruct r as [[T st]|e]; [|by apply send_fails].
      split; [done|]. specialize (Hr T st eq_refl). unfold send_finish. rewrite decide_True by done.
      by apply send_fails.
    - destruct (appended_logs _ _ _ _ HC Ha) as (HC' & Hl & Hk). exists C'. split_and!; [done..|].
      destruct r as [[T st]|e]; [|by eapply send_unknown]. destruct (Hr T st eq_refl) as [-> HT].
      split; [done|]. by eapply send_finish_done; [|split|apply Hroom|]. }
  unfold Adapter.doSend. destruct pc.
  - destruct (postJSON d srv nowUnix nowMs key msg) as [srv' r]. cbn [fst snd] in *.
    destruct Hpost as (C' & Hs' & HC' & Hr). exists C'. split_and!; [done..|].
    destruct r as [[T st]|e]; [|done]. destruct Hr as [H404 Hr]. case_decide; [|done].
    apply send_goes_on. by apply H404.
  - destruct (putStream_ok d srv C nowUnix nowMs key Hs HC Ht Hn) as (C' & Hs' & HC' & Hl).
    destruct (putStream d srv nowUnix nowMs key) as [srv' err]. exists C'. split_and!; [done..|].
    destruct err; [by apply send_fails|by apply send_goes_on].
  - destruct (postJSON d srv nowUnix nowMs key msg) as [srv' r]. cbn [fst snd] in *.
    destruct Hpost as (C' & Hs' & HC' & Hr). exists C'. split_and!; [done..|].
    destruct r as [[T st]|e]; [|done]. by destruct Hr.
Qed.

(** The messages of a poll's reply are in the log, from the offset asked for on. *)
Definition polled C (offsets : list (bytes * Z)) (out : gmap bytes (list (Z * bytes))) : Prop :=
  ∀ key pairs, out !! key = Some pairs → ∃ o, (key, o) ∈ offsets ∧
    ∀ j p, pairs !! j = Some p → p.1 = o + Z.of_nat j ∧ 0 ≤ p.1 ∧ log_of C key !! Z.to_nat p.1 = Some p.2.

Inductive poll_result C (offsets : list (bytes * Z)) : rpc_pc → Prop :=
| poll_goes_on todo out : todo ⊆ offsets → polled C offsets out → poll_result C offsets (CPoll todo out)
| poll_fails e : poll_result C offsets (CReply (error_body e))
| poll_done out : polled C offsets out → poll_result C offsets (CReply (PollOk out)).

Lemma polled_insert C offsets out key o arr :
  (key, o) ∈ offsets → polled C offsets out → piece C key o arr →
  polled C offsets (<[key := poll_pairs o arr]> out).
Proof.
  intros Hin Hout Hpc k pairs [[<- <-]|[_ Hk]]%lookup_insert_Some; [|by apply Hout].
  exists o. split; [done|]. intros j p Hj. unfold poll_pairs in Hj.
  apply list_lookup_imap_Some in Hj as (v & Hv & ->). destruct (Hpc j v Hv) as (? & ? & Hl).
  cbn [fst snd]. rewrite i64_small by (unfold is_i64; lia). split_and!; [done|lia|done].
Qed.

Lemma doPoll_ok d srv C nowUnix nowMs offsets todo out :
  0 ≤ maxReadBytes → server_ok R srv C → logs_ok C → Forall (λ ko, is_i64 ko.2) offsets →
  todo ⊆ offsets → polled C offsets out →
  let p := doPoll d srv nowUnix nowMs todo out in p.1 = srv ∧ poll_result C offsets p.2.
Proof.
  intros Hmax Hs HC Hoff Htodo Hout. cbn zeta. unfold Adapter.doPoll.
  destruct todo as [|[key o] todo]; [split; [done|by apply poll_done]|].
  assert (Hin : (key, o) ∈ offsets) by (apply Htodo; left).
  assert (Htodo' : todo ⊆ offsets) by (intros x Hx; apply Htodo; by right).
  assert (Ho : is_i64 o) by (rewrite Forall_forall in Hoff; by apply (Hoff (key, o))).
  destruct (getBody_ok d srv C nowUnix nowMs key o Hmax Hs HC Ho) as [Hsrv Hr].
  destruct (getBody d srv nowUnix nowMs key o) as [srv' r]. cbn [fst snd] in *. split; [done|].
  destruct r as [[body st]|e]; [|apply poll_fails]. case_decide; [by apply poll_goes_on|].
  destruct (decide (st = 200)) as [->|]; [|rewrite decide_True by done; apply poll_fails].
  rewrite decide_False by (intros X; by apply X). destruct (Hr body eq_refl) as (arr & -> & Hpc).
  apply poll_goes_on; [done|]. cbn zeta. case_decide; [|done]. by apply polled_insert.
Qed.

End requests.

(** ** The bridge and the server together *)

Record bridge (S : Type) : Type := mkBridge {
  br_world : world S;
  br_ad : adapter }.
Arguments mkBridge {S} _ _.
Arguments br_world {S} _.
Arguments br_ad {S} _.

Inductive bridge_event : Type :=
| BArrive (src dest : bytes) (b : reqBody)                (** a request of the checker *)
| BStep (i : nat) (d : delivery) (nowUnix nowMs : Z)      (** its goroutine goes on *)
| BSys (ev : event).                                      (** the server: workers, crashes *)

(** The offset a send was acknowledged at. *)
Definition acknowledged (c : rpc) : option Z :=
  match cl_pc c with CReply (SendOk o) | CEnd (Some (SendOk o)) => Some o | _ => None end.

(** What was replied to a poll. *)
Definition poll_answer (c : rpc) : option (gmap bytes (list (Z * bytes))) :=
  match cl_pc c with CReply (PollOk out) | CEnd (Some (PollOk out)) => Some out | _ => None end.

(** The logs explain the replies. *)
Record log_service (calls : list rpc) (log : bytes → list bytes) : Prop := {
  ls_sends : ∀ i c o, calls !! i = Some c → acknowledged c = Some o →
    0 ≤ o ∧ ∃ recs v, flattenJSON (rb_Msg (cl_req c)) = Ok recs ∧ last recs = Some v ∧
      log (rb_Key (cl_req c)) !! Z.to_nat o = Some v;
  ls_distinct : ∀ i j ci cj o, i ≠ j → calls !! i = Some ci → calls !! j = Some cj →
    acknowledged ci = Some o → acknowledged cj = Some o → rb_Key (cl_req ci) ≠ rb_Key (cl_req cj);
  ls_polls : ∀ i c out key pairs, calls !! i = Some c → poll_answer c = Some out → out !! key = Some pairs →
    ∃ o, (key, o) ∈ rb_Offsets (cl_req c) ∧
      ∀ j p, pairs !! j = Some p → p.1 = o + Z.of_nat j ∧ 0 ≤ p.1 ∧ log key !! Z.to_nat p.1 = Some p.2;
  ls_source : ∀ key v, v ∈ log key → ∃ i c recs, calls !! i = Some c ∧ rb_Type (cl_req c) = tSend ∧
    rb_Key (cl_req c) = key ∧ flattenJSON (rb_Msg (cl_req c)) = Ok recs ∧ v ∈ recs }.

(** Every line written is the reply of a call to its request. *)
Definition replies_ok (ad : adapter) : Prop :=
  ∀ m, m ∈ ad_out ad → ∃ i c, ad_calls ad !! i = Some c ∧ cl_pc c = CEnd (Some (m_Body m)) ∧
    m_in_reply_to m = rb_MsgID (cl_req c) ∧ m_Src m = cl_dest c ∧ m_Dest m = cl_src c.

Section bridge.
  Context {S : Type} `{StorageLaws S}.
  Context (parse_rfc3339 : bytes → option Z) (format_rfc3339 : Z → bytes).
  Context (maxRecordBytes maxReadBytes : Z) (host : bytes).
  Context (readLongPoll : server S → request → StreamMeta → parsedOffset → response).
  Implicit Types (C : catalog) (st : bridge S) (ad : adapter) (c : rpc).

Abbreviation rpc_step :=
  (rpc_step parse_rfc3339 format_rfc3339 maxRecordBytes maxReadBytes host false readLongPoll).

(** Polls are catch-up reads here. *)
Definition bridge_exec st (ev : bridge_event) : option (bridge S) :=
  let '(mkBridge w ad) := st in
  match ev with
  | BArrive src dest b => Some (mkBridge w (arrive src dest b ad))
  | BStep i d nowUnix nowMs =>
      '(srv, ad) ← rpc_step d nowUnix nowMs (w_srv w) ad i; Some (mkBridge (mkWorld srv (w_run w)) ad)
  | BSys ev => Some (mkBridge (sys_exec w ev) ad)
  end.

(** Messages nest at most 9,999 levels, clocks are in range, there is room for
    another stream and for the records; nothing but the adapter writes. *)
Definition bridge_ok st C (ev : bridge_event) : Prop :=
  match ev with
  | BArrive _ _ b => message_ok (rb_Msg b) ∧ Forall (λ ko, is_i64 ko.2) (rb_Offsets b)
  | BStep i _ nowUnix nowMs =>
      times_ok nowUnix nowMs ∧ srv_nextID (w_srv (br_world st)) + 1 < 2^64 ∧
      ∀ c key msg pc recs, ad_calls (br_ad st) !! i = Some c → cl_pc c = CSend key msg pc →
        flattenJSON msg = Ok recs → len (log_of C key) + len recs < 10^16
  | BSys ev => quiet ev = true ∧ event_ok (br_world st) C ev
  end.

Inductive bridge_run : bridge S → list bridge_event → bridge S → Prop :=
| bridge_nil st : bridge_run st [] st
| bridge_cons st ev st1 evs st' :
    (∀ C, sys_ok (br_world st) C → logs_ok C → bridge_ok st C ev) → bridge_exec st ev = Some st1 →
    bridge_run st1 evs st' → bridge_run st (ev :: evs) st'.

(** *** The invariant *)

Definition rpc_ok C c : Prop :=
  let b := cl_req c in
  message_ok (rb_Msg b) ∧ Forall (λ ko, is_i64 ko.2) (rb_Offsets b) ∧
  match cl_pc c with
  | CSend key msg _ => rb_Type b = tSend ∧ key = rb_Key b ∧ msg = rb_Msg b
  | CPoll todo out => todo ⊆ rb_Offsets b ∧ polled C (rb_Offsets b) out
  | _ => True
  end.

Record bridge_inv C st : Prop := {
  bi_sys : sys_ok (br_world st) C;
  bi_logs : logs_ok C;
  bi_calls : ∀ i c, ad_calls (br_ad st) !! i = Some c → rpc_ok C c;
  bi_service : log_service (ad_calls (br_ad st)) (log_of C);
  bi_replies : replies_ok (br_ad st) }.

Definition logs_grow C C' : Prop := ∀ key, log_of C key `prefix_of` log_of C' key.

Lemma same_logs_grow C C' : same_logs C C' → logs_grow C C'.
Proof. intros Hs key. by rewrite Hs. Qed.

Lemma extended_grow C C' key recs : extended C C' key recs → logs_grow C C'.
Proof.
  intros [Hk Hne] k. destruct (decide (k = key)) as [->|Hd]; [rewrite Hk; by apply prefix_app_r|by rewrite Hne].
Qed.

Lemma logs_grow_lookup C C' key i v : logs_grow C C' → log_of C key !! i = Some v → log_of C' key !! i = Some v.
Proof. intros Hg Hl. by eapply prefix_lookup_Some. Qed.

Lemma polled_grow C C' offsets out : logs_grow C C' → polled C offsets out → polled C' offsets out.
Proof.
  intros Hg Ho key pairs Hk. destruct (Ho key pairs Hk) as (o & Hin & Hp). exists o. split; [done|].
  intros j p Hj. destruct (Hp j p Hj) as (? & ? & ?). split_and!; [done|done|by eapply logs_grow_lookup].
Qed.

Lemma rpc_ok_grow C C' c : logs_grow C C' → rpc_ok C c → rpc_ok C' c.
Proof.
  intros Hg (? & ? & Hpc). split_and!; [done|done|]. destruct (cl_pc c); try done.
  destruct Hpc. split; [done|by eapply polled_grow].
Qed.

(** A call that moves: what it may have been told, and what it may have written. *)
Record goes C C' c (pc : rpc_pc) : Prop := {
  go_grow : logs_grow C C';
  go_ok : rpc_ok C' (rpc_goto pc c);
  go_ended : ∀ r, cl_pc c ≠ CEnd r;
  go_send : ∀ o, acknowledged (rpc_goto pc c) = Some o → acknowledged c = Some o ∨
    len (log_of C (rb_Key (cl_req c))) ≤ o ∧ ∃ recs v, flattenJSON (rb_Msg (cl_req c)) = Ok recs ∧
      last recs = Some v ∧ log_of C' (rb_Key (cl_req c)) !! Z.to_nat o = Some v;
  go_poll : ∀ out, poll_answer (rpc_goto pc c) = Some out →
    poll_answer c = Some out ∨ polled C' (rb_Offsets (cl_req c)) out;
  go_source : ∀ key v, v ∈ log_of C' key → v ∈ log_of C key ∨
    (rb_Type (cl_req c) = tSend ∧ rb_Key (cl_req c) = key ∧
     ∃ recs, flattenJSON (rb_Msg (cl_req c)) = Ok recs ∧ v ∈ recs) }.

Lemma service_goes C C' calls i c pc :
  calls !! i = Some c → goes C C' c pc → log_service calls (log_of C) →
  log_service (<[i := rpc_goto pc c]> calls) (log_of C').
Proof.
  intros Hi [Hg _ _ Hsend Hpoll Hsrc] [Hs Hd Hp Ho].
  assert (Hback : ∀ j cj, <[i := rpc_goto pc c]> calls !! j = Some cj →
    j = i ∧ cj = rpc_goto pc c ∨ j ≠ i ∧ calls !! j = Some cj).
  { intros j cj [(-> & <- & _)|[? ?]]%list_lookup_insert_Some; auto. }
  split.
  - intros j cj o Hj Hack. destruct (Hback j cj Hj) as [[-> ->]|[_ Hj']].
    + cbn [rpc_goto cl_req]. destruct (Hsend o Hack) as [Hold|(Hle & Hnew)]; [|split; [lia|done]].
      destruct (Hs i c o Hi Hold) as (? & recs & v & ? & ? & ?). split; [done|]. exists recs, v.
      split_and!; [done|done|by eapply logs_grow_lookup].
    + destruct (Hs j cj o Hj' Hack) as (? & recs & v & ? & ? & ?). split; [done|]. exists recs, v.
      split_and!; [done|done|by eapply logs_grow_lookup].
  - assert (Hfresh : ∀ j cj o, j ≠ i → calls !! j = Some cj → acknowledged cj = Some o →
      acknowledged (rpc_goto pc c) = Some o → rb_Key (cl_req cj) ≠ rb_Key (cl_req c)).
    { intros j cj o Hji Hj Hack Hnew. destruct (Hsend o Hnew) as [Hold|(Hle & _)].
      - by apply (Hd j i cj c o).
      - intros Hk. destruct (Hs j cj o Hj Hack) as (? & recs & v & _ & _ & Hl). rewrite Hk in Hl.
        apply lookup_lt_Some in Hl. lia. }
    intros j k cj ck o Hjk Hj Hk Hcj Hck.
    destruct (Hback j cj Hj) as [[-> ->]|[Hji Hj']], (Hback k ck Hk) as [[-> ->]|[Hki Hk']].
    + done.
    + intros E. by apply (Hfresh k ck o Hki Hk' Hck Hcj).
    + by apply (Hfresh j cj o Hji Hj' Hcj Hck).
    + by apply (Hd j k cj ck o).
  - intros j cj out key pairs Hj Hans Hk. destruct (Hback j cj Hj) as [[-> ->]|[_ Hj']].
    + destruct (Hpoll out Hans) as [Hold|Hpl]; [|by apply Hpl].
      by apply (polled_grow C C' (rb_Offsets (cl_req c)) out Hg (λ k ps, Hp i c out k ps Hi Hold)).
    + by apply (polled_grow C C' (rb_Offsets (cl_req cj)) out Hg (λ k ps, Hp j cj out k ps Hj' Hans)).
  - intros key v Hv. assert (Hlift : ∀ j cj, calls !! j = Some cj →
      ∃ cj', <[i := rpc_goto pc c]> calls !! j = Some cj' ∧ cl_req cj' = cl_req cj).
    { intros j cj Hj. destruct (decide (j = i)) as [->|Hji].
      - exists (rpc_goto pc c). rewrite list_lookup_insert_eq by by eapply lookup_lt_Some.
        split; [done|]. cbn [rpc_goto cl_req]. congruence.
      - exists cj. by rewrite list_lookup_insert_ne. }
    destruct (Hsrc key v Hv) as [Hold|(Ht & Hk & recs & Hf & Hin)].
    + destruct (Ho key v Hold) as (j & cj & recs & Hj & Ht & Hk & Hf & Hin).
      destruct (Hlift j cj Hj) as (cj' & Hj' & Er). exists j, cj', recs. rewrite Er. by split_and!.
    + destruct (Hlift i c Hi) as (c' & Hi' & Er). exists i, c', recs. rewrite Er. by split_and!.
Qed.

Lemma replies_goes ad ad' i c pc :
  ad_calls ad !! i = Some c → (∀ r, cl_pc c ≠ CEnd r) → ad_calls ad' = <[i := rpc_goto pc c]> (ad_calls ad) →
  (ad_out ad' = ad_out ad ∨ ∃ body id, pc = CEnd (Some body) ∧
     ad_out ad' = ad_out ad ++ [mkMessage (cl_dest c) (cl_src c) body (rb_MsgID (cl_req c)) id]) →
  replies_ok ad → replies_ok ad'.
Proof.
  intros Hi Hend Hcalls Hout Hr m Hm.
  assert (Hold : m ∈ ad_out ad → ∃ i c, ad_calls ad' !! i = Some c ∧ cl_pc c = CEnd (Some (m_Body m)) ∧
    m_in_reply_to m = rb_MsgID (cl_req c) ∧ m_Src m = cl_dest c ∧ m_Dest m = cl_src c).
  { intros Hin. destruct (Hr m Hin) as (j & cj & Hj & Hpc & Hrest). exists j, cj. split; [|done].
    rewrite Hcalls, list_lookup_insert_ne; [done|]. intros ->. rewrite Hi in Hj. injection Hj as ->.
    by apply (Hend (Some (m_Body m))). }
  destruct Hout as [Hsame|(body & id & -> & Happ)]; [rewrite Hsame in Hm; by apply Hold|].
  rewrite Happ in Hm. apply elem_of_app in Hm as [Hm|Hm]; [by apply Hold|].
  apply list_elem_of_singleton in Hm as ->. exists i, (rpc_goto (CEnd (Some body)) c).
  rewrite Hcalls, list_lookup_insert_eq by by eapply lookup_lt_Some. done.
Qed.

(** A step that writes nothing and tells nothing new. *)
Lemma goes_quietly C c pc :
  rpc_ok C (rpc_goto pc c) → (∀ r, cl_pc c ≠ CEnd r) →
  (∀ o, acknowledged (rpc_goto pc c) = Some o → acknowledged c = Some o) →
  (∀ out, poll_answer (rpc_goto pc c) = Some out →
     poll_answer c = Some out ∨ polled C (rb_Offsets (cl_req c)) out) → goes C C c pc.
Proof. intros. split; [intros k; reflexivity|done|done|auto|done|auto]. Qed.

Lemma rpc_ok_reply C c pc :
  rpc_ok C c → match pc with CSend _ _ _ | CPoll _ _ => False | _ => True end → rpc_ok C (rpc_goto pc c).
Proof. intros (Hm & Ho & _) Hpc. split_and!; [done..|]. cbn [cl_pc rpc_goto]. by destruct pc. Qed.

(** A step of a send. *)
Lemma goes_send C C' c key msg pc pc' :
  rpc_ok C c → cl_pc c = CSend key msg pc → send_result C C' key msg pc' → goes C C' c pc'.
Proof.
  intros Hok Hpc Hr. pose proof Hok as (Hm & Ho & Hsend). rewrite Hpc in Hsend.
  destruct Hsend as (Ht & -> & ->). assert (Hend : ∀ r, cl_pc c ≠ CEnd r) by (intros r; by rewrite Hpc).
  assert (Hsrc : ∀ recs, flattenJSON (rb_Msg (cl_req c)) = Ok recs → extended C C' (rb_Key (cl_req c)) recs →
    ∀ key v, v ∈ log_of C' key → v ∈ log_of C key ∨
      (rb_Type (cl_req c) = tSend ∧ rb_Key (cl_req c) = key ∧
       ∃ recs, flattenJSON (rb_Msg (cl_req c)) = Ok recs ∧ v ∈ recs)).
  { intros recs Hf [Hl Hk] key v Hv. destruct (decide (key = rb_Key (cl_req c))) as [->|Hne].
    - rewrite Hl in Hv. apply elem_of_app in Hv as [?|Hv]; [auto|right]. split_and!; [done|done|by exists recs].
    - left. by rewrite <-Hk. }
  destruct Hr as [pc'' Hsame|e Hsame|recs e Hf Hex|recs Hf Hex].
  - split; [by apply same_logs_grow|split_and!; done|done|done|done|]. intros k v. rewrite Hsame. auto.
  - split; [by apply same_logs_grow| |done|done|done|intros k v; rewrite Hsame; auto].
    eapply rpc_ok_reply; [|done]. by eapply rpc_ok_grow, Hok; apply same_logs_grow.
  - split; [by eapply extended_grow| |done|done|done|by eapply Hsrc].
    eapply rpc_ok_reply; [|done]. by eapply rpc_ok_grow, Hok; eapply extended_grow.
  - split; [by eapply extended_grow| |done| |done|by eapply Hsrc].
    { eapply rpc_ok_reply; [|done]. by eapply rpc_ok_grow, Hok; eapply extended_grow. }
    intros o Eo. right. injection Eo as <-. destruct Hex as [Hl _].
    pose proof (flattenJSON_Ok _ _ Hf) as [Hne _].
    destruct (last recs) as [v|] eqn:Hlast; [|by apply last_None in Hlast].
    assert (0 < length recs)%nat by (destruct recs; [done|simpl; lia]).
    split; [rewrite Hl, length_app; lia|]. exists recs, v. split_and!; [done..|].
    replace (Z.to_nat (len (log_of C' (rb_Key (cl_req c))) - 1)) with (pred (length (log_of C' (rb_Key (cl_req c)))))
      by lia.
    rewrite <-last_lookup, Hl. by apply last_app_Some; left.
Qed.

Lemma goes_poll C c todo out pc' :
  rpc_ok C c → cl_pc c = CPoll todo out → poll_result C (rb_Offsets (cl_req c)) pc' → goes C C c pc'.
Proof.
  intros Hok Hpc Hr. pose proof Hok as (Hm & Ho & _).
  assert (Hend : ∀ r, cl_pc c ≠ CEnd r) by (intros r; by rewrite Hpc).
  destruct Hr as [todo' out' Ht Hp|e|out' Hp].
  - apply goes_quietly; [by split_and!|done..].
  - apply goes_quietly; [by apply rpc_ok_reply|done..].
  - apply goes_quietly; [by apply rpc_ok_reply|done|done|]. intros o Eo. right. by injection Eo as <-.
Qed.

(** *** One event *)

Lemma inv_goes C C' st st' i c pc :
  bridge_inv C st → ad_calls (br_ad st) !! i = Some c → goes C C' c pc →
  sys_ok (br_world st') C' → logs_ok C' → ad_calls (br_ad st') = <[i := rpc_goto pc c]> (ad_calls (br_ad st)) →
  (ad_out (br_ad st') = ad_out (br_ad st) ∨ ∃ body id, pc = CEnd (Some body) ∧
     ad_out (br_ad st') = ad_out (br_ad st) ++ [mkMessage (cl_dest c) (cl_src c) body (rb_MsgID (cl_req c)) id]) →
  bridge_inv C' st'.
Proof.
  intros [Hs HC Hcalls Hsv Hrep] Hi Hgo Hs' HC' Hupd Hout. split; [done|done| | |].
  - intros j cj Hj. rewrite Hupd in Hj. apply list_lookup_insert_Some in Hj as [(_ & <- & _)|[_ Hj]].
    + apply Hgo.
    + eapply rpc_ok_grow; [apply Hgo|by eapply Hcalls].
  - rewrite Hupd. by eapply service_goes.
  - eapply (replies_goes (br_ad st)); [exact Hi|apply Hgo|exact Hupd|exact Hout|done].
Qed.

Lemma arrive_ok C w ad src dest b :
  bridge_inv C (mkBridge w ad) → message_ok (rb_Msg b) → Forall (λ ko, is_i64 ko.2) (rb_Offsets b) →
  bridge_inv C (mkBridge w (arrive src dest b ad)).
Proof.
  intros [Hs HC Hcalls [Ls Ld Lp Lo] Hrep] Hm Hoff. cbn [br_ad br_world] in *.
  assert (Hnew : ∀ j cj, (ad_calls ad ++ [handle src dest b]) !! j = Some cj →
    ad_calls ad !! j = Some cj ∨ cj = handle src dest b).
  { intros j cj [?|[_ Hj]]%lookup_app_Some; [auto|]. apply list_lookup_singleton_Some in Hj as [_ <-]. auto. }
  assert (Hquiet : acknowledged (handle src dest b) = None ∧ poll_answer (handle src dest b) = None).
  { unfold handle, acknowledged, poll_answer. cbn [cl_pc]. by repeat case_decide. }
  destruct Hquiet as [Hna Hnp]. split; [done|done| | |]; cbn [br_ad arrive ad_calls ad_out].
  - intros j cj [?| ->]%Hnew; [by eapply Hcalls|]. split_and!; [done..|]. unfold handle. cbn [cl_pc cl_req].
    repeat case_decide; try done.
  - split.
    + intros j cj o [Hj| ->]%Hnew Hack; [by eapply Ls|congruence].
    + intros j k cj ck o Hjk [Hj| ->]%Hnew [Hk| ->]%Hnew Hcj Hck; [by eapply Ld|congruence..].
    + intros j cj out key pairs [Hj| ->]%Hnew Hans; [by eapply Lp|congruence].
    + intros key v Hv. destruct (Lo key v Hv) as (j & cj & recs & Hj & Hrest). exists j, cj, recs.
      split; [by apply lookup_app_l_Some|done].
  - intros m Hin. destruct (Hrep m Hin) as (j & cj & Hj & Hrest). exists j, cj.
    split; [by apply lookup_app_l_Some|done].
Qed.

Lemma bridge_step_ok C st ev st' :
  0 ≤ maxReadBytes → bridge_inv C st → bridge_ok st C ev → bridge_exec st ev = Some st' →
  ∃ C', bridge_inv C' st' ∧ logs_grow C C'.
Proof.
  intros Hmax Hinv Hok Hex. destruct st as [w ad], ev as [src dest b|i d nowUnix nowMs|ev]; simpl in Hex.
  - injection Hex as <-. exists C. split; [|intros k; reflexivity]. destruct Hok. by apply arrive_ok.
  - destruct (ad_calls ad !! i) as [c|] eqn:Hi; [|unfold Adapter.rpc_step in Hex; by rewrite Hi in Hex].
    destruct Hok as (Ht & Hn & Hroom). pose proof (bi_calls _ _ Hinv i c Hi) as Hc.
    unfold Adapter.rpc_step in Hex. rewrite Hi in Hex. cbn [mbind option_bind] in Hex.
    assert (Hnone : ∀ pc ad', bridge_inv C (mkBridge w ad) → goes C C c pc →
      ad_calls ad' = <[i := rpc_goto pc c]> (ad_calls ad) →
      (ad_out ad' = ad_out ad ∨ ∃ body id, pc = CEnd (Some body) ∧
         ad_out ad' = ad_out ad ++ [mkMessage (cl_dest c) (cl_src c) body (rb_MsgID (cl_req c)) id]) →
      ∃ C', bridge_inv C' (mkBridge (mkWorld (w_srv w) (w_run w)) ad') ∧ logs_grow C C').
    { intros pc ad' Hiv Hgo Hupd Hout. exists C. split; [|apply Hgo].
      eapply (inv_goes C C (mkBridge w ad)); [exact Hiv|exact Hi|exact Hgo|by destruct w; apply Hiv|apply Hiv|done|done]. }
    destruct (cl_pc c) as [|key msg pc|todo out|offsets|keys|body|r] eqn:Hpc; cbn [cl_pc] in Hex.
    + injection Hex as <-. apply (Hnone (CReply InitOk)); [done| |done|by left].
      apply goes_quietly; [by apply rpc_ok_reply|by rewrite Hpc|done|done].
    + pose proof Hc as (Hm & _ & Hs). rewrite Hpc in Hs. destruct Hs as (_ & Hkey & Hmsg).
      destruct (doSend_ok parse_rfc3339 format_rfc3339 maxRecordBytes maxReadBytes host readLongPoll (w_run w) d
        (w_srv w) C nowUnix nowMs key msg pc) as (C' & Hs' & HC' & Hr);
        [apply Hinv|apply Hinv|by rewrite Hmsg|done|done|intros recs; by eapply Hroom|].
      destruct (Adapter.doSend _ _ _ _ _ _ _ _ _ _ _ _ _) as [srv' pc'] in *. injection Hex as <-.
      pose proof (goes_send C C' c key msg pc pc' Hc Hpc Hr) as Hgo. exists C'. split; [|apply Hgo].
      eapply (inv_goes C C' (mkBridge w ad)); [exact Hinv|exact Hi|exact Hgo|done|done|done|by left].
    + pose proof Hc as (_ & Ho & Hp). rewrite Hpc in Hp. destruct Hp as [Htodo Hout].
      destruct (doPoll_ok parse_rfc3339 format_rfc3339 maxRecordBytes maxReadBytes host readLongPoll (w_run w) d
        (w_srv w) C nowUnix nowMs (rb_Offsets (cl_req c)) todo out) as [Hsrv Hr]; [done|apply Hinv|apply Hinv|done..|].
      destruct (Adapter.doPoll _ _ _ _ _ _ _ _ _ _ _ _ _) as [srv' pc'] in *. cbn [fst snd] in *. subst srv'.
      injection Hex as <-. apply (Hnone pc'); [done|by eapply goes_poll|done|by left].
    + injection Hex as <-. apply (Hnone (CReply CommitOffsetsOk)); [done| |done|by left].
      apply goes_quietly; [by apply rpc_ok_reply|by rewrite Hpc|done|done].
    + injection Hex as <-. apply (Hnone (CReply (ListOk (list_committed (ad_commits ad) keys)))); [done| |done|by left].
      apply goes_quietly; [by apply rpc_ok_reply|by rewrite Hpc|done|done].
    + injection Hex as <-. apply (Hnone (CEnd (Some body))); [done| |done|right; by repeat eexists].
      apply goes_quietly; [by apply rpc_ok_reply|by rewrite Hpc| |].
      * intros o. unfold acknowledged. rewrite Hpc. exact id.
      * intros o. unfold poll_answer. rewrite Hpc. exact (@or_introl _ _).
    + discriminate Hex.
  - injection Hex as <-. destruct Hok as [Hq Hev], Hinv as [Hs HC Hcalls Hsv Hrep]. exists C.
    split; [|intros k; reflexivity]. split; [by apply quiet_ok|done..].
Qed.

Lemma bridge_run_ok st evs st' C :
  0 ≤ maxReadBytes → bridge_run st evs st' → bridge_inv C st → ∃ C', bridge_inv C' st' ∧ logs_grow C C'.
Proof.
  intros Hmax Hrun. revert C. induction Hrun as [st|st ev st1 evs st' Hev Hex _ IH]; intros C Hinv.
  - exists C. split; [done|intros k; reflexivity].
  - destruct (bridge_step_ok C st ev st1 Hmax Hinv (Hev C (bi_sys _ _ Hinv) (bi_logs _ _ Hinv)) Hex)
      as (C1 & Hinv1 & Hg1). destruct (IH C1 Hinv1) as (C' & Hinv' & Hg'). exists C'. split; [done|].
    intros k. etrans; [apply Hg1|apply Hg'].
Qed.

(** ** The property *)

(** C8: the Kafka workload is served from one log per key. At any point of any run
    of the checker's requests, interleaved HTTP request by HTTP request, with
    requests and answers lost on the network and the server killed and started
    again, there is for every key a log such that every acknowledged send is in it
    at its offset, no two sends of a key were given the same offset, every poll was
    given a contiguous piece of it from the offset it asked for, and nothing is in it
    that was not sent; and later on the log is the same or longer. Every reply goes
    back to the one who asked. *)
Theorem adapter_log_consistent w C evs1 st1 evs2 st2 :
  0 ≤ maxReadBytes → sys_ok w C → (∀ key, C !! stream_path key = None) →
  bridge_run (mkBridge w (mkAdapter [] ∅ 0 [])) evs1 st1 → bridge_run st1 evs2 st2 →
  ∃ log1 log2, log_service (ad_calls (br_ad st1)) log1 ∧ log_service (ad_calls (br_ad st2)) log2 ∧
    (∀ key, log1 key `prefix_of` log2 key) ∧ replies_ok (br_ad st2).
Proof.
  intros Hmax Hs Hnone Hrun1 Hrun2.
  assert (Hinv : bridge_inv C (mkBridge w (mkAdapter [] ∅ 0 []))).
  { split; [done|intros key e He; by rewrite Hnone in He|done| |intros m Hm; by apply not_elem_of_nil in Hm].
    split; try done. intros key v Hv. unfold log_of in Hv. rewrite Hnone in Hv. by apply not_elem_of_nil in Hv. }
  destruct (bridge_run_ok _ _ _ _ Hmax Hrun1 Hinv) as (C1 & Hinv1 & _).
  destruct (bridge_run_ok _ _ _ _ Hmax Hrun2 Hinv1) as (C2 & Hinv2 & Hg).
  exists (log_of C1), (log_of C2). split_and!; [apply Hinv1|apply Hinv2|done|apply Hinv2].
Qed.

End bridge.

(** ** A run

    Runs whose events pass a computed check of [bridge_ok]. *)
Module BridgeRun.
Section check.
  Context {S : Type} `{StorageLaws S}.
  Context (parse_rfc3339 : bytes → option Z) (format_rfc3339 : Z → bytes).
  Context (maxRecordBytes maxReadBytes : Z) (host : bytes).
  Context (readLongPoll : server S → request → StreamMeta → parsedOffset → response).
  Implicit Types (st : bridge S) (C : catalog).

Abbreviation exec := (bridge_exec parse_rfc3339 format_rfc3339 maxRecordBytes maxReadBytes host readLongPoll).
Abbreviation run := (bridge_run parse_rfc3339 format_rfc3339 maxRecordBytes maxReadBytes host readLongPoll).

Definition message_check (msg : bytes) : bool :=
  match flattenJSON msg with Ok recs => bool_decide (Forall (λ r, json_value (json_fuel r) 1 r = Ok (r, [])) recs)
  | Err _ => true end.

Definition room_check (srv : server S) (pc : rpc_pc) : bool :=
  match pc with
  | CSend key msg _ =>
      match flattenJSON msg, liveState srv (stream_path key) with
      | Ok recs, Ok (Some (tail, _, _)) => bool_decide (tail + len recs < 10^16)
      | Ok recs, Ok None => bool_decide (len recs < 10^16)
      | Ok _, Err _ => false
      | Err _, _ => true
      end
  | _ => true
  end.

Definition event_check st (ev : bridge_event) : bool :=
  match ev with
  | BArrive _ _ b => message_check (rb_Msg b) && bool_decide (Forall (λ ko : bytes * Z, - 2^63 ≤ ko.2 < 2^63) (rb_Offsets b))
  | BStep i _ nowUnix nowMs =>
      bool_decide (0 ≤ nowUnix < 2^63) && bool_decide (- 2^63 ≤ nowMs < 2^63)
      && bool_decide (srv_nextID (w_srv (br_world st)) + 1 < 2^64)
      && match ad_calls (br_ad st) !! i with Some c => room_check (w_srv (br_world st)) (cl_pc c) | None => true end
  | BSys (EvRestart _) => true
  | BSys _ => false
  end.

Definition exec1 st (ev : bridge_event) : bridge S := default st (exec st ev).

Fixpoint run_check st (evs : list bridge_event) : bool :=
  match evs with
  | [] => true
  | ev :: evs => event_check st ev && bool_decide (is_Some (exec st ev)) && run_check (exec1 st ev) evs
  end.

Lemma room_check_ok w C pc key msg p recs :
  sys_ok w C → logs_ok C → room_check (w_srv w) pc = true → pc = CSend key msg p → flattenJSON msg = Ok recs →
  len (log_of C key) + len recs < 10^16.
Proof.
  intros Hs HC Hr -> Hf. unfold room_check in Hr. rewrite Hf in Hr.
  destruct (liveState_ok (w_run w) (w_srv w) C (stream_path key) Hs) as [ost E]. rewrite E in Hr.
  unfold log_of. pose proof (HC key) as He. destruct (C !! stream_path key) as [e|]; cbn in Hr;
    apply bool_decide_eq_true in Hr; [|simpl; lia].
  specialize (He e eq_refl). unfold a_tail in Hr. rewrite (le_base _ He) in Hr. lia.
Qed.

Lemma event_check_ok st C ev :
  sys_ok (br_world st) C → logs_ok C → event_check st ev = true → bridge_ok st C ev.
Proof.
  intros Hs HC. destruct ev as [src dest b|i d nowUnix nowMs|[]]; simpl; try done.
  - intros [Hm Ho]%andb_true_iff. apply bool_decide_eq_true in Ho. split; [|done].
    intros recs Hf. unfold message_check in Hm. rewrite Hf in Hm. by apply bool_decide_eq_true in Hm.
  - rewrite !andb_true_iff, !bool_decide_eq_true. intros [[[? ?] ?] Hr]. split; [by split|]. split; [done|].
    intros c key msg pc recs Hi Hpc Hf. rewrite Hi in Hr. by eapply room_check_ok.
Qed.

Lemma run_check_ok evs st : run_check st evs = true → run st evs (foldl exec1 st evs).
Proof.
  revert st. induction evs as [|ev evs IH]; intros st Hc; [constructor|]. cbn [run_check] in Hc.
  apply andb_true_iff in Hc as [[Hev Hex]%andb_true_iff Hrest]. apply bool_decide_eq_true in Hex.
  apply (bridge_cons _ _ _ _ _ _ st ev (exec1 st ev)); [intros C Hs HC; by apply event_check_ok| |by apply IH].
  unfold exec1. destruct Hex as [st' ->]. done.
Qed.
End check.
End BridgeRun.

(** A send that finds no stream, creates it, and whose second POST is answered; the
    server is killed and started again; then a poll. *)
Module BridgeSample.
Definition no_poll : server fakeStore → request → StreamMeta → parsedOffset → response :=
  λ _ _ _ _, reply ∅ 204 [].
Definition key : bytes := ["k"%byte].
Definition send_rpc : reqBody := mkReqBody tSend 1 key ["7"%byte] [] [].
Definition poll_rpc : reqBody := mkReqBody tPoll 2 [] [] [(key, 0)] [].
Definition start : bridge fakeStore := mkBridge (mkWorld LifeSample.srv0 ∅) (mkAdapter [] ∅ 0 []).
Definition sending : list bridge_event :=
  BArrive ["c"%byte] ["n"%byte] send_rpc :: replicate 4 (BStep 0 Answered 100 100000).
Definition polling : list bridge_event :=
  BSys (EvRestart LifeSample.cfg) :: BArrive ["c"%byte] ["n"%byte] poll_rpc
  :: BStep 1 Answered 101 101000 :: BStep 1 Answered 101 101000 :: [BStep 1 Answered 101 101000].
Abbreviation exec1 := (BridgeRun.exec1 (λ _, None) (λ _, []) 100 100 [] no_poll).
Abbreviation run_check := (BridgeRun.run_check (λ _, None) (λ _, []) 100 100 [] no_poll).
Definition sent : bridge fakeStore := foldl exec1 start sending.
Definition polled : bridge fakeStore := foldl exec1 sent polling.

Lemma sending_ok : run_check start sending = true.
Proof. vm_compute. reflexivity. Qed.
Lemma polling_ok : run_check sent polling = true.
Proof. vm_compute. reflexivity. Qed.
Lemma acknowledged_at_0 : (ad_calls (br_ad polled) !! 0%nat) ≫= acknowledged = Some 0.
Proof. vm_compute. reflexivity. Qed.
Lemma poll_answered : (ad_calls (br_ad polled) !! 1%nat) ≫= poll_answer = Some {[ key := [(0, ["7"%byte])] ]}.
Proof. vm_compute. reflexivity. Qed.
Lemma send_request : (cl_req <$> ad_calls (br_ad polled) !! 0%nat) = Some send_rpc.
Proof. vm_compute. reflexivity. Qed.
End BridgeSample.

Lemma adapter_log_consistent_witness :
  ∃ log, log_service (ad_calls (br_ad BridgeSample.polled)) log ∧ log BridgeSample.key !! 0%nat = Some ["7"%byte].
Proof.
  destruct (adapter_log_consistent (λ _, None) (λ _, []) 100 100 [] BridgeSample.no_poll
    (mkWorld LifeSample.srv0 ∅) ∅ BridgeSample.sending BridgeSample.sent BridgeSample.polling BridgeSample.polled)
    as (log1 & log & _ & Hl & _ & _).
  - lia.
  - apply LifeSample.srv0_ok.
  - intros k. apply lookup_empty.
  - exact (BridgeRun.run_check_ok _ _ _ _ _ _ _ _ BridgeSample.sending_ok).
  - exact (BridgeRun.run_check_ok _ _ _ _ _ _ _ _ BridgeSample.polling_ok).
  - exists log. split; [exact Hl|].
    pose proof BridgeSample.acknowledged_at_0 as Ha. pose proof BridgeSample.send_request as Hr.
    destruct (ad_calls (br_ad BridgeSample.polled) !! 0%nat) as [c|] eqn:Hi; [|discriminate Ha].
    injection Hr as Hreq. cbn [mbind option_bind] in Ha.
    destruct (ls_sends _ _ Hl 0%nat c 0 Hi Ha) as (_ & recs & v & Hf & Hv & Hlog). rewrite Hreq in Hf, Hlog.
    assert (flattenJSON (rb_Msg BridgeSample.send_rpc) = Ok [["7"%byte]]) as E by (vm_compute; reflexivity).
    rewrite E in Hf. injection Hf as <-. injection Hv as <-. exact Hlog.
Defined.
