(* ===== verification/HttpApi.v ===== *)
(** * The database handle and its HTTP adapter (yasdb/db.go, yasdb/httpapi)

    Opening a database turns its configuration into the server's, whose defaults are
    filled in by [NewServer]; closing it twice is closing it once. The HTTP adapter
    is the server's own surface (Http.v) plus a health check and the materialised
    state of a State Protocol stream.

    Parameters: encoding/json ([decode] of a chunk of messages, the text of its
    error, [encode] of the response), the clock's RFC 3339 text, the server's [Close]. The order in which a
    Go map is iterated is that of [map_to_list]: the theorem is about the entities
    of each collection as a set. *)

From Stdlib Require Strings.String.
From S2P Require Import Prelude.
From S2P Require Import Bytes.
From S2P Require Import Meta.
From S2P Require Import Offset.
From S2P Require Import Storage.
From S2P Require Import Mime.
From S2P Require Import Json.
From S2P Require Import Read.
From S2P Require Import State.
From S2P Require Import Streamer.
From S2P Require Import StreamSpec.
From S2P Require Import StreamerRefine.
From S2P Require Import Deleter.
From S2P Require Import Server.
From S2P Require Import Public.
From S2P Require Import Catalog.
From S2P Require Import Lifecycle.
From S2P Require Import ForkSpec.
From S2P Require Import PublicSpec.
From S2P Require Import Http.

(** ** Configuration *)

Module HttpApiLiterals.
Import String.
Open Scope string_scope.
Definition health_path : bytes := str "/__health".
Definition stateSnapshotPrefix : bytes := str "/__state".
Definition ok_body : bytes := str "ok".
Definition json_utf8 : bytes := str "application/json; charset=utf-8".
Definition eMissingPath : bytes := str "missing stream path: use /__state/<stream-path>".
Definition eNotState : bytes := str "yasdb: stream is not a State Protocol JSON message stream: ".
Definition notifier : bytes := str "notifier".
End HttpApiLiterals.
Export HttpApiLiterals.

(** The configuration of a database; durations in nanoseconds. *)
Record Config : Type := mkConfig {
  MaxRecordBytes : Z;
  LongPollTimeout : Z;
  SSELifetime : Z;
  DormancyTimeout : Z;
  SweepInterval : Z;
  MaxReadBytes : Z;
  LiveCoalesceWindow : Z;
  c_DisableLiveCache : bool;
  c_LiveCacheMaxRecords : Z;
  c_LiveCacheMaxBytes : Z;
  Durability : bytes;
  NotifierPollInterval : Z;
  CommitterBatchMax : Z }.

(** The configuration of a server ([ds.Config]). *)
Record dsConfig : Type := mkDsConfig {
  ds_MaxRecordBytes : Z;
  ds_LongPollTimeout : Z;
  ds_SSELifetime : Z;
  ds_DormancyTimeout : Z;
  ds_SweepInterval : Z;
  ds_MaxReadBytes : Z;
  ds_LiveCoalesceWindow : Z;
  ds_DisableLiveCache : bool;
  ds_LiveCacheMaxRecords : Z;
  ds_LiveCacheMaxBytes : Z;
  ds_Durability : bytes;
  ds_NotifierPollInterval : Z;
  ds_CommitterBatchMax : Z }.

Definition toDS (c : Config) : dsConfig :=
  {| ds_MaxRecordBytes := MaxRecordBytes c;
     ds_LongPollTimeout := LongPollTimeout c;
     ds_SSELifetime := SSELifetime c;
     ds_DormancyTimeout := DormancyTimeout c;
     ds_SweepInterval := SweepInterval c;
     ds_MaxReadBytes := MaxReadBytes c;
     ds_LiveCoalesceWindow := LiveCoalesceWindow c;
     ds_DisableLiveCache := c_DisableLiveCache c;
     ds_LiveCacheMaxRecords := c_LiveCacheMaxRecords c;
     ds_LiveCacheMaxBytes := c_LiveCacheMaxBytes c;
     ds_Durability := Durability c;
     ds_NotifierPollInterval := NotifierPollInterval c;
     ds_CommitterBatchMax := CommitterBatchMax c |}.

Definition second : Z := 10^9.
Definition or_default (d v : Z) : Z := if decide (v = 0) then d else v.

(** [NewServer]'s defaults. *)
Definition with_defaults (c : dsConfig) : dsConfig :=
  {| ds_MaxRecordBytes := or_default (Z.shiftl 4 20) (ds_MaxRecordBytes c);
     ds_LongPollTimeout := or_default (25 * second) (ds_LongPollTimeout c);
     ds_SSELifetime := or_default (60 * second) (ds_SSELifetime c);
     ds_DormancyTimeout := or_default (60 * second) (ds_DormancyTimeout c);
     ds_SweepInterval := or_default second (ds_SweepInterval c);
     ds_MaxReadBytes := or_default (Z.shiftl 1 20) (ds_MaxReadBytes c);
     ds_LiveCoalesceWindow := ds_LiveCoalesceWindow c;
     ds_DisableLiveCache := ds_DisableLiveCache c;
     ds_LiveCacheMaxRecords := or_default 512 (ds_LiveCacheMaxRecords c);
     ds_LiveCacheMaxBytes := or_default (Z.shiftl 256 10) (ds_LiveCacheMaxBytes c);
     ds_Durability := ds_Durability c;
     ds_NotifierPollInterval := ds_NotifierPollInterval c;
     ds_CommitterBatchMax := ds_CommitterBatchMax c |}.

(** What a streamer sees of it. *)
Definition cache_of (c : dsConfig) : cacheConfig :=
  {| DisableLiveCache := ds_DisableLiveCache c; LiveCacheMaxRecords := ds_LiveCacheMaxRecords c;
     LiveCacheMaxBytes := ds_LiveCacheMaxBytes c |}.

(** [newCommitter]: [Some (batchMax, interval)] is the shared committer with its notifier. *)
Definition newCommitter (c : dsConfig) : option (Z * Z) :=
  if decide (ds_Durability c = notifier)
  then Some (if decide (ds_CommitterBatchMax c ≤ 0) then 512 else ds_CommitterBatchMax c,
             if decide (ds_NotifierPollInterval c ≤ 0) then 10^6 else ds_NotifierPollInterval c)
  else None.

(** ** The database handle *)

Record DB (S : Type) : Type := mkDB {
  db_srv : server S;
  db_closed : option (option error) }.     (** [closeOnce] and [closeErr] *)
Arguments mkDB {S} _ _.
Arguments db_srv {S} _.
Arguments db_closed {S} _.

Section db.
  Context {S : Type} `{Storage S}.

Definition Open (store : S) (c : Config) : result (DB S) :=
  srv ← NewServer store (cache_of (with_defaults (toDS c)));
  mret (mkDB srv None).

Definition Close (srv_Close : server S → server S * option error) (db : DB S) : DB S * option error :=
  match db_closed db with
  | Some err => (db, err)
  | None => let '(srv, err) := srv_Close (db_srv db) in (mkDB srv (Some err), err)
  end.

End db.

(** ** The HTTP adapter *)

Record entityJSON : Type := mkEntityJSON { en_Key : bytes; en_Value : bytes }.
Record snapshotResponse : Type := mkSnapshotResponse {
  sr_GeneratedAt : bytes;
  sr_StreamNextOffset : bytes;
  sr_Collections : gmap bytes (list entityJSON) }.

Section httpapi.
  Context {S : Type} `{Storage S}.
  Context (parse_rfc3339 : bytes → option Z) (format_rfc3339 : Z → bytes).
  Context (maxRecordBytes maxReadBytes : Z).
  Context (decode : bytes → option (list Message)) (decode_error : bytes).
  Context (encode : snapshotResponse → bytes).
  Implicit Types (srv : server S) (r : request).

Definition serveHealth r : response :=
  reply (<[hCacheControl := no_store]> ∅) 200
    (if decide (hr_method r = mHEAD) then [] else ok_body ++ [x0a]).

Definition writeMaterializeError (e : error) : response :=
  match e with
  | ErrNotFound => http_Error ∅ eNotFound 404
  | ErrGone => http_Error ∅ eGone 410
  | ErrNotStateProtocolStream => http_Error ∅ (eNotState ++ decode_error) 422
  | _ => http_Error ∅ eInternal 500
  end.

(** The lists of a snapshot. *)
Definition collections (mat : Materializer) : gmap bytes (list entityJSON) :=
  (λ coll : gmap bytes bytes, (λ kv, mkEntityJSON kv.1 kv.2) <$> map_to_list coll) <$> Snapshot mat.

(** [strings.TrimPrefix] for a path that begins with the prefix. *)
Definition state_path (path : bytes) : bytes := drop (length stateSnapshotPrefix) path.

Definition serveStateSnapshot (fuel : nat) srv (now : Z) r : response :=
  let streamPath := state_path (hr_path r) in
  if decide (streamPath = [] ∨ streamPath = ["/"%byte]) then http_Error ∅ eMissingPath 400
  else if decide (hr_method r ≠ mGET) then http_Error (<[hAllow := mGET]> ∅) eMethod 405
  else match Materialize decode fuel srv maxReadBytes streamPath with
       | Err e => writeMaterializeError e
       | Ok (mat, next) =>
           reply (<[hCacheControl := no_store]> (<[hContentType := json_utf8]> ∅)) 200
             (encode {| sr_GeneratedAt := format_rfc3339 now; sr_StreamNextOffset := offset_String next;
                        sr_Collections := collections mat |})
       end.

(** Whether a path is the prefix or below it. *)
Definition is_state_path (path : bytes) : bool :=
  bool_decide (path = stateSnapshotPrefix ∨ take (length stateSnapshotPrefix + 1) path = stateSnapshotPrefix ++ ["/"%byte]).

Definition NewHandler (fuel : nat) srv (nowUnix nowMs : Z) r : server S * option getOutcome :=
  if decide (hr_path r = health_path) then (srv, Some (GetDone (serveHealth r)))
  else if is_state_path (hr_path r) then (srv, Some (GetDone (serveStateSnapshot fuel srv nowUnix r)))
  else ServeHTTP parse_rfc3339 format_rfc3339 maxRecordBytes maxReadBytes srv nowUnix nowMs r.

End httpapi.

(** ** Properties *)

Section httpapi_spec.
  Context {S : Type} `{StorageLaws S}.
  Context (R : gmap Z phase).
  Implicit Types (srv : server S) (C : catalog).

(** What the defaults leave: every limit the theorems ask to be positive is, if
    it was not set to something negative. *)
Lemma with_defaults_positive c :
  0 ≤ MaxReadBytes c → 0 ≤ MaxRecordBytes c →
  0 < ds_MaxReadBytes (with_defaults (toDS c)) ∧ 0 < ds_MaxRecordBytes (with_defaults (toDS c)).
Proof. intros. unfold with_defaults, or_default, toDS. cbn. split; (case_decide; [by vm_compute|lia]). Qed.

(** Closing again changes nothing and answers as the first time. *)
Lemma Close_idempotent (srv_Close : server S → server S * option error) (db : DB S) :
  let '(db1, err1) := Close srv_Close db in Close srv_Close db1 = (db1, err1).
Proof.
  unfold Close. destruct (db_closed db) as [err|] eqn:E; [by rewrite E|].
  by destruct (srv_Close (db_srv db)) as [srv err].
Qed.

(** A database opened over the store of a server has that server's streams. *)
Lemma Open_ok srv C c :
  server_ok R srv C → ∃ db, Open (srv_store srv) c = Ok db ∧ db_closed db = None ∧ server_ok ∅ (db_srv db) C.
Proof.
  intros Hs. destruct (NewServer_ok R srv C (cache_of (with_defaults (toDS c))) Hs) as (srv' & E & Hs' & _).
  exists (mkDB srv' None). unfold Open. by rewrite E.
Qed.

Lemma collections_entity mat t k v :
  (∃ l, collections mat !! t = Some l ∧ mkEntityJSON k v ∈ l) ↔ entity mat t k = Some v.
Proof.
  unfold collections, entity, Snapshot. rewrite lookup_fmap. destruct (types mat !! t) as [coll|]; cbn; [|naive_solver].
  split.
  - intros (l & [= <-] & ((k' & v') & [= -> ->] & Hin)%list_elem_of_fmap). by apply elem_of_map_to_list in Hin.
  - intros Hk. eexists. split; [done|]. apply list_elem_of_fmap. exists (k, v). split; [done|].
    by apply elem_of_map_to_list.
Qed.

Lemma collections_nodup mat t l : collections mat !! t = Some l → NoDup (en_Key <$> l).
Proof.
  unfold collections, Snapshot. rewrite lookup_fmap. destruct (types mat !! t) as [coll|]; cbn; [|done].
  intros [= <-]. rewrite <-list_fmap_compose. exact (NoDup_fst_map_to_list coll).
Qed.

Lemma state_path_cons p : is_state_path (stateSnapshotPrefix ++ "/"%byte :: p) = true ∧
  state_path (stateSnapshotPrefix ++ "/"%byte :: p) = "/"%byte :: p ∧
  stateSnapshotPrefix ++ "/"%byte :: p ≠ health_path.
Proof.
  split_and!.
  - apply bool_decide_eq_true. right. by vm_compute.
  - by vm_compute.
  - intros E. apply (f_equal (λ s, s !! 3%nat)) in E. vm_compute in E. discriminate E.
Qed.


End httpapi_spec.

(** ** Witness *)

(** The sample stream of PublicSpec.v, at a path with a slash. *)
Module HttpApiSample.
Definition path : bytes := ["/"; "a"]%byte.
Definition params : createParams :=
  {| cp_path := path; cp_contentType := contentTypeJSON; cp_ttl := 0; cp_ttlSet := false;
     cp_expiresAt := 0; cp_expiresSet := false; cp_closed := false;
     cp_body := ["["; "1"; ","; "2"; "]"]%byte |}.
Definition entry1 : entry := new_entry (newMeta 1 100 100000 params) [["1"%byte]; ["2"%byte]].
Definition C1 : catalog := <[path := entry1]> ∅.
Definition srv1 : server fakeStore := (createStream LifeSample.srv0 100 100000 params).1.
Definition get_state : request :=
  {| hr_method := mGET; hr_path := stateSnapshotPrefix ++ path; hr_header := λ _, [];
     hr_query := λ _, []; hr_body := []; hr_bodyErr := false; hr_host := []; hr_tls := false |}.

Lemma state_srv_ok : server_ok ∅ srv1 C1.
Proof.
  assert (Hr : createRecords (cp_contentType params) (cp_body params) = inr [["1"%byte]; ["2"%byte]])
    by (vm_compute; reflexivity).
  assert (Hwf : create_wf LifeSample.srv0 100 100000 params).
  { split; [by split|done..|]. rewrite Hr. intros rs Hrs. apply (inj inr) in Hrs as <-. done. }
  pose proof (createStream_ok ∅ LifeSample.srv0 ∅ 100 100000 params LifeSample.srv0_ok Hwf) as Hc.
  unfold srv1. destruct (createStream LifeSample.srv0 100 100000 params) as [srv' res].
  rewrite lookup_empty, Hr in Hc. by destruct Hc as (? & ? & _).
Qed.
End HttpApiSample.

